(* ===== verification/_CoqProject ===== *)
-Q . S2P
Prelude.v
Prog.v
Libc.v
Sys.v
Printf.v
Double.v
BenchUtils.v
RdmaCommon.v
Oob.v
OobSpec.v
Endpoint.v
RdmaOps.v
Window.v
RdmaRes.v
VerbsConnect.v
VerbsSpec.v
VerbsConnected.v
CmConnect.v
CmSpec.v
BenchConfig.v
BenchSetup.v
BwRdmaWrite.v
LatRdmaWrite.v
LatSendRecv.v
BenchSpec.v
BenchWindow.v
Transport.v
TransportSpec.v
TwoTransports.v
TcpBackend.v
TcpSpec.v
RdmaBackend.v
RdmaSpec.v
KvCache.v
KvSpec.v
KvPool.v
KvSession.v
KvMain.v
KvMainSpec.v
KvPrograms.v
KvBenchSpec.v
OneTransport.v
BackendCompare.v
BackendSpec.v
Float32.v
Float32Spec.v
RingAllreduce.v
RingSpec.v
RingMem.v
RingMeasure.v
RingPosted.v
RingPostedInv.v
RingPostedProof.v
RingPostedCorrect.v
RingPostedTheorems.v
RingBlocking.v
RingBlockingProof.v
RingBlockingCorrect.v
RingBlockingLive.v
RingBlockingTheorems.v
RingBackends.v
Barrier.v
BarrierBlocking.v
Threads.v
World.v
AllreduceBench.v
Report.v
ReportSpec.v
AllreduceSpec.v
AllreduceCheck.v
RingWords.v
RdmaStack.v
RdmaStackSim.v
RdmaStackTheorems.v
TcpStack.v
TcpStackSim.v
TcpStackTheorems.v
PyBindings.v
PySpec.v
