(* ===== verification/Prelude.v ===== *)
(** Verification library of the RDMA communication stack.  This file is the
    prelude (machine integers, byte strings, list and loop lemmas, automation);
    this header documents the whole development.

    * The program

    The repository builds up from verbs to applications in four phases.
    Phase 1 (src/phase1_verbs, C) wraps libibverbs and librdmacm: registered
    memory, work requests, completions, and two ways to connect a queue pair, by
    librdmacm or by hand with a TCP side channel; three benchmarks use it.
    Phase 2 (src/phase2_transport, C++) puts one interface, Transport, over a
    socket and over a queue pair, with a benchmark that compares the two.
    Phase 3 (src/phase3_collective) joins ranks into a ring of transports and
    sums an array around it.  Phase 4 (src/phase4_kv_cache) is a server that
    lends the slots of a registered slab, and a client that writes and reads one.
    src/common holds clocks, statistics and the phase 1 command line.

    * How code is modelled

    A function that calls out is a [prog] (Prog.v): a tree of calls and answers.
    State is passed explicitly; an error path is a value (the C return code, an
    option, or a sum); C integers are [Z] with [u8], [u32], [u64] written where the
    source converts or wraps.  The calls the code makes of the C library, the
    sockets, libibverbs and librdmacm are one signature (Sys.v); nothing is
    assumed of what they answer but what the documentation says and [fits]
    writes down.  One tree is run in several environments:
    - [ledger_env] (Sys.v) keeps a ledger of resources (descriptors, memory,
      regions, queue pairs, identifiers, events) and of what refers to what; a
      use after release, a double release or a release of something still
      referred to leaves a mark that nothing removes.  [own] says what part of
      the ledger a component holds, with framing lemmas;
    - [any] (Prog.v) records the trace of calls (Window.v counts work requests
      and clock readings in it);
    - [endp_env] (Endpoint.v) has the process memory and a byte stream;
    - [duo_env] (Threads.v) runs two threads' calls in any order over two parts
      of the ledger;
    - the systems of RingPosted.v, RingBlocking.v and KvSession.v run one tree per
      process, interleaved step by step; RdmaStack.v does so with the calls of the
      driver, the memory and the adapters below the whole RDMA backend, TcpStack.v
      with the socket calls, the bytes of memory and of the streams below the
      whole socket backend.
    Doubles and floats are the specification floats of the Standard Library
    (Double.v, Float32.v), and what a program prints is the text that [printf]
    (Printf.v) makes of its format string.

    * Files, code and theorems

    Phase 1.  RdmaCommon (rdma_common.h), Oob (rdma_oob_connect.c), RdmaOps
    (rdma_ops.c), RdmaRes (rdma_mr.c, rdma_qp.c), VerbsConnect
    (rdma_verbs_connect.c) and CmConnect (rdma_cm_connect.c) hold one definition
    per function; the exits by goto are definitions of their own.  OobSpec: the
    side channel delivers the peer's record through partial transfers.  RdmaOps:
    what each post asks of the adapter, which lies in its region exactly when the
    sum in the bounds check does not wrap, and
    what polling returns.  RdmaRes, VerbsSpec, CmSpec: no function leaks on any
    failure, and teardown is idempotent.  VerbsConnected: the two ends of a
    by-hand connection end in the right states with each other's parameters.
    BenchConfig (bench_config.h), BenchSetup, BwRdmaWrite, LatRdmaWrite and
    LatSendRecv (the programs of phase1_verbs/bench) with BenchSpec (nothing
    leaks, whatever fails) and BenchWindow (how much is in flight).  BenchUtils
    (bench_utils.h, timing.h): the reported statistics are order statistics, their
    99th percentile at the index the double product gives (Double).  Report holds
    the tables and CSV rows of all phases, ReportSpec that every row reads back as
    the columns of its header.

    Phase 2.  Transport (transport.hpp): the interface is the class [Transport].
    TransportSpec states what every backend owes its clients as the class
    [TransportLaws]: in each phase of its life an object owns certain resources
    and no others.  TcpBackend with TcpSpec and RdmaBackend with RdmaSpec
    (tcp_backend.cpp, rdma_backend.cpp) are instances of both.  Clients are
    verified against the laws: OneTransport and TwoTransports give the rules for
    one and for two transports with the memory of the scopes around them.
    BackendCompare and BackendSpec are backend_compare.cpp.

    Phase 3.  RingAllreduce (ring_allreduce.cpp) is one rank's program over the
    operations of its two sides.  RingSpec and RingMem give the schedule and the
    memory; RingPosted and the files after it up to RingPostedTheorems run N such
    programs over queue-pair links (receives posted, one-sided delivery,
    completions later) and prove result, progress, termination and absence of
    races for every N and every interleaving; RingBlocking to
    RingBlockingTheorems do so over byte streams of any capacity.  RingBackends
    ties both systems to the backends' code.  Barrier is world_barrier and what it
    gives over posted receives, BarrierBlocking what it gives over blocking ones;
    Threads and World are world_init.  Float32 is binary32 arithmetic, and
    Float32Spec that sums of small integers do not round and that a sum of words
    is a word; RingWords says so of the whole ring.  AllreduceBench is
    allreduce_bench.cpp: AllreduceSpec shows that it leaks nothing, AllreduceCheck
    that its check of the floats passes after either ring.  RdmaStack is N ranks
    that run the benchmark's collective through rdma_backend.cpp and rdma_ops.c,
    call by call: the system says what the driver does with a post, a poll, a
    load or a store.  RdmaStackSim shows that it refines the ring of RingPosted,
    RdmaStackTheorems that every rank gets the sum, that the stack is never stuck
    and that its runs are bounded.  It assumes that posts are accepted (the queues
    are long enough) and that completions report success.  TcpStack, TcpStackSim and
    TcpStackTheorems do the same for tcp_backend.cpp over the ring of RingBlocking:
    there memory and streams are bytes, a send or a receive moves any number of the
    bytes it could, and any call may fail; a process that returned 0 holds the sum
    all the same.

    Phase 4.  KvCache (kv_cache.hpp and the protocol halves of kv_server.cpp and
    kv_bench.cpp) with KvSpec, KvPool and KvSession: the two ends refine a slot
    allocator, whose invariant is in KvPool.  KvMain is both main functions, the
    data path check and the timing loop; KvMainSpec and KvPrograms: nothing leaks;
    KvBenchSpec: the window of the timing loop and what it measures.

    Python.  PyBindings (python_bindings/bindings/transport_py.cpp) is the module's
    methods, with exceptions as None, what they rely on of Python (objects that
    count their references and lose their memory with the last one, weak
    references, buffer views), and the Python programs over them as trees of
    calls.  PySpec: programs that keep to the order of calls a transport is made
    for, and drop a buffer only while its object has another reference, leak
    nothing; and two ways in which the module lets others misuse the region.

    * Bounds and fuel

    Loops with a bound in the source have it here.  The loops without one are the
    completion spin ([rai_poll_cq]), the doorbell spins, the server's request
    loop and the clients' batch loop.  They run on fuel: the spins and the server
    answer None when it is used up, and no theorem counts that as a result; the
    polling theorem says that fuel beyond the number of empty polls gives the
    answer, and the batch loop is given one unit per request, which [bench_window]
    and its lemmas show is enough.  The send and receive loops of the sockets
    run on the length still to be moved, which every successful call decreases.
    The ring and barrier systems have no fuel: they are relations, with progress
    and a decreasing measure.  The polls of RdmaStack have fuel, since a poll may
    come too early any number of times: progress is stated for states in which no
    rank ran out of it, and the bound on runs grows with it.

    * Not modelled

    The log lines and usage texts on stderr; Python's lock and threads, the rest
    of the language, and programs that use a buffer on a transport it is not
    registered on; the Python scripts and the figures they draw; signed overflow
    of [int] sums such as [kWarmup + iters] and pointer sums of tcp_backend.cpp
    past the address space, which are undefined in C++ (the sums are exact
    here); the failure of plain [new]; what a NaN's payload is; the memory model
    below whole calls (a call of one thread is a step); liveness of the network,
    that is, whether a peer ever answers. *)
From stdpp Require Export base tactics numbers list sorting functions relations.
From Stdlib Require Export ZArith Lia.
#[global] Open Scope Z_scope.
#[global] Set Default Goal Selector "!".

(** * Machine integers *)

Definition u8 (x : Z) : Z := x mod 2 ^ 8.
Definition u32 (x : Z) : Z := x mod 2 ^ 32.
Definition u64 (x : Z) : Z := x mod 2 ^ 64.
Definition i32 (x : Z) : Z := (x + 2 ^ 31) mod 2 ^ 32 - 2 ^ 31.
Definition SIZE_MAX : Z := 2 ^ 64 - 1.
Definition INT_MAX : Z := 2 ^ 31 - 1.
Definition INT_MIN : Z := - 2 ^ 31.

Create Rewrite HintDb wrap.

Lemma u32_small x : 0 ≤ x < 2 ^ 32 → u32 x = x.
Proof. apply Z.mod_small. Qed.
Lemma u64_small x : 0 ≤ x < 2 ^ 64 → u64 x = x.
Proof. apply Z.mod_small. Qed.
Lemma u32_range x : 0 ≤ u32 x < 2 ^ 32.
Proof. apply Z.mod_pos_bound. lia. Qed.
Lemma u64_range x : 0 ≤ u64 x < 2 ^ 64.
Proof. apply Z.mod_pos_bound. lia. Qed.
Lemma i32_small x : - 2 ^ 31 ≤ x < 2 ^ 31 → i32 x = x.
Proof. intros. unfold i32. rewrite Z.mod_small; lia. Qed.
Lemma i32_range x : - 2 ^ 31 ≤ i32 x < 2 ^ 31.
Proof. unfold i32. pose proof (Z.mod_pos_bound (x + 2 ^ 31) (2 ^ 32)). lia. Qed.
#[export] Hint Rewrite u32_small u64_small i32_small using lia : wrap.

(** Residues of two numbers less than one modulus apart agree only when the
    numbers do. *)
Lemma mod_inj_near N a b : 0 < N → - N < a - b < N → a mod N = b mod N → a = b.
Proof.
  intros HN Hd He. pose proof (Z.div_mod a N). pose proof (Z.div_mod b N).
  assert (a - b = N * (a / N - b / N)) by lia.
  assert (a / N - b / N = 0) by nia. lia.
Qed.

Lemma mod_shift N a k r : 0 ≤ r < N → a = r + k * N → a mod N = r.
Proof. intros Hr ->. rewrite Z.mod_add by lia. apply Z.mod_small. lia. Qed.

(** * Little-endian byte strings; a byte is a [Z] in [0, 256) *)

Fixpoint le_bytes (n : nat) (z : Z) : list Z :=
  match n with
  | O => []
  | S n' => z mod 256 :: le_bytes n' (z / 256)
  end.
Definition le_val (l : list Z) : Z := foldr (fun b acc => b + 256 * acc) 0 l.

Lemma length_le_bytes n z : length (le_bytes n z) = n.
Proof. revert z. induction n; intros; cbn; auto. Qed.

Lemma le_val_bytes n z : le_val (le_bytes n z) = z mod 256 ^ Z.of_nat n.
Proof.
  revert z. induction n as [|n IH]; intros z.
  { cbn. by rewrite Z.mod_1_r. }
  cbn [le_bytes le_val foldr]. fold (le_val (le_bytes n (z / 256))). rewrite IH.
  rewrite Nat2Z.inj_succ, Z.pow_succ_r by lia.
  rewrite Z.rem_mul_r by lia. lia.
Qed.

Lemma le_val_bytes_small n z : 0 ≤ z < 256 ^ Z.of_nat n → le_val (le_bytes n z) = z.
Proof. intros. rewrite le_val_bytes. by apply Z.mod_small. Qed.

(** [overlay d b] is the buffer [b] with its first bytes overwritten by [d]. *)
Definition overlay {A} (d b : list A) : list A := d ++ drop (length d) b.

Lemma overlay_full {A} (d b : list A) : length d = length b → overlay d b = d.
Proof. intros He. unfold overlay. rewrite drop_ge by lia. by rewrite app_nil_r. Qed.
Lemma length_overlay {A} (d b : list A) :
  (length d ≤ length b)%nat → length (overlay d b) = length b.
Proof. intros. unfold overlay. rewrite length_app, length_drop. lia. Qed.
Lemma take_overlay {A} (d b : list A) : take (length d) (overlay d b) = d.
Proof. unfold overlay. by rewrite take_app_length. Qed.
#[export] Hint Rewrite @length_overlay using lia : wrap.

(** * Running a step relation *)

(** The first of [cands] that can move, [fuel] times; with the number of steps. *)
Fixpoint drive {L St} (advance : L → St → option St) (cands : list L) (fuel : nat) (v : St) : nat * St :=
  match fuel with
  | O => (O, v)
  | S fuel =>
    match omap (fun l => advance l v) cands with
    | v' :: _ => let '(n, v) := drive advance cands fuel v' in (S n, v)
    | [] => (O, v)
    end
  end.
Lemma drive_runs {L St} (R : relation St) (advance : L → St → option St) cands fuel v :
  (∀ l v v', advance l v = Some v' → R v v') → nsteps R (drive advance cands fuel v).1 v (drive advance cands fuel v).2.
Proof.
  intros Hok. revert v. induction fuel as [|fuel IH]; intros v; cbn; [constructor|].
  destruct (omap _ cands) as [|v' l] eqn:Ho; [constructor|]. specialize (IH v').
  destruct (drive advance cands fuel v') as [n v2]. cbn in *. eapply nsteps_l; [|exact IH].
  assert (Hin : v' ∈ omap (fun l => advance l v) cands) by (rewrite Ho; left).
  apply list_elem_of_omap in Hin as (l' & _ & Hl'). by eapply Hok.
Qed.
