(* ===== verification/Prog.v ===== *)
(** Effectful code as programs over a signature of operations.

    A C function that calls the operating system, the verbs library or a
    transport becomes a [prog]: a tree whose nodes are the calls, in the order
    the code makes them, and whose branches are the answers.  The same tree is
    given several meanings: [run] evaluates it against a concrete environment,
    [wp] quantifies over every answer an environment may give, and the files on
    the collective and on the control channel run several trees side by side. *)
From S2P Require Import Prelude.

Record sig := Sig { op : Type; ans : op → Type }.

Inductive prog (E : sig) (A : Type) : Type :=
| Ret (a : A)
| Do (o : op E) (k : ans E o → prog E A).
Arguments Ret {E A} a.
Arguments Do {E A} o k.

Fixpoint bind {E A B} (p : prog E A) (f : A → prog E B) : prog E B :=
  match p with
  | Ret a => f a
  | Do o k => Do o (fun x => bind (k x) f)
  end.

Definition call {E : sig} (o : op E) : prog E (ans E o) := Do o Ret.

Declare Scope prog_scope.
Delimit Scope prog_scope with prog.
Notation "x <- p ;; q" := (bind p (fun x => q))
  (at level 100, p at next level, right associativity) : prog_scope.
Notation "'let!' x := p 'in' q" := (bind p (fun x => q))
  (at level 100, x strict pattern, p at next level, q at level 200, right associativity) : prog_scope.
Notation "p ;; q" := (bind p (fun _ => q))
  (at level 100, right associativity) : prog_scope.
#[global] Open Scope prog_scope.

(** [a != 0 || b != 0] with the short circuit of C: the second call is made
    only when the first returned zero. *)
Definition fails_or {E} (a b : prog E Z) : prog E bool :=
  rc <- a ;; if bool_decide (rc ≠ 0) then Ret true
             else rc' <- b ;; Ret (bool_decide (rc' ≠ 0)).

(** [for (i = lo; i < lo + n; i++) body(i)], where [body] may return out of
    the enclosing function with a value. *)
Fixpoint for_ {E R} (n : nat) (lo : Z) (body : Z → prog E (option R)) : prog E (option R) :=
  match n with
  | O => Ret None
  | S n' => r <- body lo ;;
            match r with
            | Some v => Ret (Some v)
            | None => for_ n' (lo + 1) body
            end
  end.

(** The loop without early return. *)
Fixpoint for_unit {E} (n : nat) (lo : Z) (body : Z → prog E unit) : prog E unit :=
  match n with
  | O => Ret tt
  | S n' => body lo ;; for_unit n' (lo + 1) body
  end.

Section semantics.
Context {E : sig} {S : Type}.
Implicit Types A B : Type.

(** A concrete environment answers each operation and moves to a new state. *)
Definition handler := forall o : op E, S → ans E o * S.

Fixpoint run {A} (h : handler) (p : prog E A) (s : S) : A * S :=
  match p with
  | Ret a => (a, s)
  | Do o k => let '(x, s') := h o s in run h (k x) s'
  end.

(** [spec o s x s']: in state [s] the environment may answer [x] to [o] and
    be in state [s'] afterwards. *)
Definition envspec := forall o : op E, S → ans E o → S → Prop.

Fixpoint wp {A} (h : envspec) (p : prog E A) (Q : A → S → Prop) (s : S) : Prop :=
  match p with
  | Ret a => Q a s
  | Do o k => ∀ x s', h o s x s' → wp h (k x) Q s'
  end.

Context (h : envspec).

Lemma wp_mono {A} (p : prog E A) (Q R : A → S → Prop) s :
  (∀ a s', Q a s' → R a s') → wp h p Q s → wp h p R s.
Proof. intros HQR. revert s. induction p; intros s; cbn; eauto. Qed.

Lemma wp_bind {A B} (p : prog E A) (f : A → prog E B) Q s :
  wp h (bind p f) Q s ↔ wp h p (fun a s' => wp h (f a) Q s') s.
Proof.
  revert s. induction p as [a|o k IH]; intros s; cbn; [done|].
  split; intros H x s' Hx; apply IH, H, Hx.
Qed.

Lemma wp_bind_ret {A} (p : prog E A) Q s : wp h (bind p Ret) Q s → wp h p Q s.
Proof. by intros ?%wp_bind. Qed.

Lemma wp_bind_2 {A B} (p : prog E A) (f : A → prog E B) P Q s :
  wp h p P s → (∀ a s', P a s' → wp h (f a) Q s') → wp h (bind p f) Q s.
Proof. intros Hp Hf. apply wp_bind. by eapply wp_mono. Qed.

Lemma wp_true {A} (p : prog E A) s : wp h p (fun _ _ => True) s.
Proof. revert s. induction p; cbn; eauto. Qed.

Lemma wp_and {A} (p : prog E A) (P Q : A → S → Prop) s :
  wp h p P s → wp h p Q s → wp h p (fun a s' => P a s' ∧ Q a s') s.
Proof. revert s. induction p; intros s; cbn; eauto. Qed.

(** Every postcondition of [wp] holds of each concrete run whose handler
    stays within the specification. *)
Lemma run_wp {A} (hd : handler) (p : prog E A) Q s :
  (∀ o s, h o s (hd o s).1 (hd o s).2) → wp h p Q s → Q (run hd p s).1 (run hd p s).2.
Proof.
  intros Hd. revert s. induction p as [a|o k IH]; intros s; cbn; [done|].
  intros H. specialize (H _ _ (Hd o s)). destruct (hd o s) as [x s']; cbn in *. eauto.
Qed.

(** Loop rule: an invariant indexed by the loop variable. *)
Lemma wp_for {R} n lo (body : Z → prog E (option R)) (I : Z → S → Prop) Q s :
  I lo s →
  (∀ i s', lo ≤ i < lo + Z.of_nat n → I i s' →
     wp h (body i) (fun r s'' => match r with
                                 | Some v => Q (Some v) s''
                                 | None => I (i + 1) s''
                                 end) s') →
  (∀ s', I (lo + Z.of_nat n) s' → Q None s') →
  wp h (for_ n lo body) Q s.
Proof.
  revert lo s. induction n as [|n IH]; intros lo s HI Hb Hq; cbn.
  { apply Hq. by rewrite Z.add_0_r. }
  apply wp_bind. eapply wp_mono; [|apply Hb; [lia|done]].
  intros [v|] s'; cbn; [done|]. intros HI'. apply IH; [done|..].
  - intros i s'' Hi. apply Hb. lia.
  - intros s'' HI''. apply Hq. by replace (lo + Z.of_nat (Datatypes.S n)) with (lo + 1 + Z.of_nat n) by lia.
Qed.
Lemma wp_for_unit n lo (body : Z → prog E unit) (I : Z → S → Prop) s :
  I lo s →
  (∀ i s', lo ≤ i < lo + Z.of_nat n → I i s' → wp h (body i) (fun _ s'' => I (i + 1) s'') s') →
  wp h (for_unit n lo body) (fun _ s' => I (lo + Z.of_nat n) s') s.
Proof.
  revert lo s. induction n as [|n IH]; intros lo s HI Hb; cbn [for_unit]; [cbn; by rewrite Z.add_0_r|].
  eapply wp_bind_2; [apply Hb; [lia|done]|]. intros [] s' HI'. cbn in HI'.
  replace (lo + Z.of_nat (Datatypes.S n)) with (lo + 1 + Z.of_nat n) by lia.
  apply IH; [done|]. intros i s'' Hi. apply Hb. lia.
Qed.
End semantics.

(** Fewer behaviours of the environment, more programs that are right. *)
Lemma wp_env_mono {E S A} (h h' : envspec (E := E) (S := S)) (p : prog E A) Q s :
  (∀ o s x s', h o s x s' → h' o s x s') → wp h' p Q s → wp h p Q s.
Proof. intros Hh. revert s. induction p as [a|o k IH]; intros s; cbn; [done|]. intros Hw x s' Hx. apply IH, Hw, Hh, Hx. Qed.
Arguments handler : clear implicits.
Arguments envspec : clear implicits.

(** All the calls a program can make satisfy [P]. *)
Fixpoint only {E A} (P : op E → Prop) (p : prog E A) : Prop :=
  match p with
  | Ret _ => True
  | Do o k => P o ∧ ∀ x, only P (k x)
  end.
Lemma only_bind {E A B} (P : op E → Prop) (p : prog E A) (f : A → prog E B) :
  only P p → (∀ a, only P (f a)) → only P (bind p f).
Proof.
  intros Hp Hf. induction p as [a|o k IH]; cbn in *; [by apply Hf|].
  destruct Hp as [Ho Hk]. split; [done|]. intros x. by apply IH.
Qed.
Lemma only_call {E} (P : op E → Prop) (o : op E) : P o → only P (call o).
Proof. by intros; split. Qed.
Lemma only_mono {E A} (P Q : op E → Prop) (p : prog E A) : (∀ o, P o → Q o) → only P p → only Q p.
Proof. intros HPQ. induction p as [a|o k IH]; cbn; [done|]. intros [? ?]. auto. Qed.
(** Calls that leave the state alone leave it alone together. *)
Lemma only_silent {E S A} (h : envspec E S) (P : op E → Prop) (p : prog E A) s :
  (∀ o s x s', P o → h o s x s' → s' = s) → only P p → wp h p (fun _ s' => s' = s) s.
Proof.
  intros Hh. induction p as [a|o k IH]; cbn; [done|]. intros [Ho Hk] x s' Hx.
  rewrite (Hh o s x s' Ho Hx). by apply IH.
Qed.
Lemma only_for {E R} (P : op E → Prop) n lo (body : Z → prog E (option R)) :
  (∀ i, lo ≤ i < lo + Z.of_nat n → only P (body i)) → only P (for_ n lo body).
Proof.
  revert lo. induction n as [|n IH]; intros lo Hb; cbn [for_]; [done|].
  apply only_bind; [apply Hb; lia|]. intros [v|]; [done|]. apply IH. intros i Hi. apply Hb. lia.
Qed.
Lemma only_for_unit {E} (P : op E → Prop) n lo (body : Z → prog E unit) :
  (∀ i, lo ≤ i < lo + Z.of_nat n → only P (body i)) → only P (for_unit n lo body).
Proof.
  revert lo. induction n as [|n IH]; intros lo Hb; cbn [for_unit]; [done|].
  apply only_bind; [apply Hb; lia|]. intros _. apply IH. intros i Hi. apply Hb. lia.
Qed.
(** Follows the structure of a program down to its calls. *)
Ltac only_tac :=
  repeat first
    [ progress cbn [only]
    | match goal with |- only _ (bind _ _) => apply only_bind; [|intros ?] end
    | apply only_call; first [exact I | done]
    | done
    | match goal with |- only _ (if ?b then _ else _) => destruct b end
    | match goal with |- only _ (match ?x with _ => _ end) => destruct x end ].

(** Two environments side by side: what each allows, of the same answers. *)
Definition both_env {E S1 S2} (h1 : envspec E S1) (h2 : envspec E S2) : envspec E (S1 * S2) :=
  fun o s x s' => h1 o s.1 x s'.1 ∧ h2 o s.2 x s'.2.
Lemma wp_both {E S1 S2 A} (h1 : envspec E S1) (h2 : envspec E S2) (p : prog E A) Q1 Q2 s1 s2 :
  wp h1 p Q1 s1 → wp h2 p Q2 s2 → wp (both_env h1 h2) p (fun a s => Q1 a s.1 ∧ Q2 a s.2) (s1, s2).
Proof.
  revert s1 s2. induction p as [a|o k IH]; intros s1 s2 H1 H2; [by split|].
  intros x [s1' s2'] [Hx1 Hx2]. apply IH; [by apply H1|by apply H2].
Qed.

(** * Traces *)

(** The trace environment: it records each call with its answer, newest call
    last, and allows every answer. *)
Inductive event (E : sig) := Ev (o : op E) (x : ans E o).
Arguments Ev {E} o x.

Definition any {E} : envspec E (list (event E)) :=
  fun o tr x tr' => tr' = tr ++ [Ev o x].

(** A run only adds to the trace. *)
Lemma any_prefix {E A} (p : prog E A) tr : wp any p (fun _ tr' => tr `prefix_of` tr') tr.
Proof.
  revert tr. induction p as [a|o k IH]; intros tr; [cbn; reflexivity|]. intros x tr' ->. eapply wp_mono; [|apply IH].
  intros a tr' Hp. etransitivity; [|exact Hp]. by apply prefix_app_r.
Qed.

(** The trace environment driven by an oracle. *)
Definition by_oracle {E} (f : forall o : op E, nat → ans E o) : handler E (list (event E)) :=
  fun o tr => let x := f o (length tr) in (x, tr ++ [Ev o x]).

Lemma by_oracle_any {E} (f : forall o : op E, nat → ans E o) o tr :
  any o tr (by_oracle f o tr).1 (by_oracle f o tr).2.
Proof. reflexivity. Qed.

Ltac prog_step :=
  match goal with
  | |- wp _ (bind _ _) _ _ => apply wp_bind
  | |- wp _ (Ret _) _ _ => cbn [wp]
  | |- wp _ (if ?b then _ else _) _ _ => destruct b eqn:?
  end.

(** * Equivalence of programs: the same calls with the same continuations *)

Fixpoint peq {E A} (p q : prog E A) : Prop :=
  match p with
  | Ret a => q = Ret a
  | Do o k => ∃ k', q = Do o k' ∧ ∀ x, peq (k x) (k' x)
  end.
Infix "≈" := peq (at level 70) : prog_scope.

#[export] Instance peq_equiv E A : Equivalence (@peq E A).
Proof.
  split.
  - intros p. induction p as [|o k IH]; [done|]. exists k. done.
  - intros p. induction p as [a|o k IH]; intros q; cbn; [by intros ->|].
    intros (k' & -> & Hk). exists k. split; [done|]. intros x. by apply IH.
  - intros p. induction p as [a|o k IH]; intros q r; cbn; [by intros -> |].
    intros (k' & -> & Hk) (k'' & -> & Hk'). exists k''. split; [done|]. intros x. by eapply IH.
Qed.
Lemma peq_refl {E A} (p : prog E A) : p ≈ p.
Proof. reflexivity. Qed.
#[export] Instance bind_proper E A B :
  Proper (peq ==> pointwise_relation A peq ==> peq) (@bind E A B).
Proof.
  intros p. induction p as [a|o k IH]; intros q Hpq f g Hfg; cbn in Hpq.
  - subst q. apply Hfg.
  - destruct Hpq as (k' & -> & Hk). exists (fun x => bind (k' x) g). split; [done|]. intros x. by apply IH.
Qed.
#[export] Instance wp_proper E (St : Type) (h : envspec E St) A :
  Proper (peq ==> eq ==> eq ==> iff) (@wp E St A h).
Proof.
  intros p. induction p as [a|o k IH]; intros q Hpq Q ? <- s ? <-; cbn in Hpq.
  - by subst q.
  - destruct Hpq as (k' & -> & Hk). cbn. split; intros Hw x s' Hx; specialize (IH x _ (Hk x) Q Q eq_refl s' s' eq_refl);
      apply IH; auto.
Qed.
