(* ===== verification/Libc.v ===== *)
(** What the programs use of the C library on strings: [atoi] and [strcmp]. *)
From Stdlib Require Import Ascii.
From stdpp Require Import strings.
From S2P Require Import Prelude.

Definition char_code (c : Ascii.ascii) : Z := Z.of_N (Ascii.N_of_ascii c).
(** [isspace] of the C locale, and the decimal digits. *)
Definition is_space (c : Ascii.ascii) : bool :=
  let n := char_code c in (n =? 32) || (9 <=? n) && (n <=? 13).
Definition digit (c : Ascii.ascii) : option Z :=
  let n := char_code c in if (48 <=? n) && (n <=? 57) then Some (n - 48) else None.

Fixpoint skip_spaces (s : string) : string :=
  match s with
  | String c s' => if is_space c then skip_spaces s' else s
  | EmptyString => s
  end.
Fixpoint digits (acc : Z) (s : string) : Z :=
  match s with
  | String c s' => match digit c with Some d => digits (10 * acc + d) s' | None => acc end
  | EmptyString => acc
  end.
(** [strtol (s, NULL, 10)] saturates at the ends of [long]. *)
Definition LONG_MAX : Z := 2 ^ 63 - 1.
Definition LONG_MIN : Z := - 2 ^ 63.
Definition strtol (s : string) : Z :=
  let v := match skip_spaces s with
           | String "-"%char s' => - digits 0 s'
           | String "+"%char s' => digits 0 s'
           | s' => digits 0 s'
           end in
  Z.max LONG_MIN (Z.min LONG_MAX v).
(** [atoi (s)] is [(int)strtol (s, NULL, 10)]. *)
Definition atoi (s : string) : Z := i32 (strtol s).

Lemma atoi_range s : INT_MIN ≤ atoi s ≤ INT_MAX.
Proof. unfold atoi, INT_MIN, INT_MAX. pose proof (i32_range (strtol s)). lia. Qed.

Example atoi_demo : atoi " -42x" = -42 ∧ atoi "abc" = 0 ∧ atoi "+7" = 7 ∧ atoi "4294967297" = 1.
Proof. split_and!; vm_compute; reflexivity. Qed.
