(* ===== verification/Sys.v ===== *)
(** The system below the program: the calls the code makes into the C library,
    the socket layer, libibverbs and librdmacm, as one signature, and the
    resource ledger those calls keep.

    Nothing is said here of what the libraries do inside.  A call answers with
    the values the code looks at; a pointer or an identifier is a [Z] with 0 for
    NULL, a file descriptor is negative when the call failed. *)
From stdpp Require Import strings.
From S2P Require Import Prelude Prog.

(** * Data the calls take and return *)

(** The memory a transfer names: an address in the process, or a local object
    given by its bytes. *)
Inductive buffer := Mem (a : Z) | Obj (l : list Z).
(** Pointer arithmetic on it: [(char * )buf + n]. *)
Definition buf_add (b : buffer) (n : Z) : buffer :=
  match b with Mem a => Mem (a + n) | Obj l => Obj (drop (Z.to_nat n) l) end.

Inductive sockopt := SO_REUSEADDR | TCP_NODELAY.

Inductive qp_state := QPS_RESET | QPS_INIT | QPS_RTR | QPS_RTS.
Inductive access := LOCAL_WRITE | REMOTE_READ | REMOTE_WRITE.
Inductive attr_bit :=
  QP_STATE | QP_PKEY_INDEX | QP_PORT | QP_ACCESS_FLAGS | QP_AV | QP_PATH_MTU | QP_DEST_QPN | QP_RQ_PSN
| QP_MAX_DEST_RD_ATOMIC | QP_MIN_RNR_TIMER | QP_SQ_PSN | QP_MAX_QP_RD_ATOMIC | QP_TIMEOUT
| QP_RETRY_CNT | QP_RNR_RETRY.
#[export] Instance attr_bit_eq_dec : EqDecision attr_bit.
Proof. solve_decision. Defined.
#[export] Instance qp_state_eq_dec : EqDecision qp_state.
Proof. solve_decision. Defined.

(** [struct ibv_qp_init_attr] with its [cap]; [struct ibv_qp_attr] with its
    [ah_attr]. *)
Record qp_cap := mkCap { max_send_wr : Z; max_recv_wr : Z; max_send_sge : Z; max_recv_sge : Z;
                         max_inline_data : Z }.
Record qp_init_attr := mkInitAttr { send_cq : Z; recv_cq : Z; cap : qp_cap }.
Record qp_attr := mkQpAttr {
  at_state : qp_state; at_pkey_index : Z; at_port_num : Z; at_access : list access;
  at_path_mtu : Z; at_dest_qp_num : Z; at_rq_psn : Z; at_max_dest_rd_atomic : Z;
  at_min_rnr_timer : Z; ah_is_global : Z; ah_dgid : list Z; ah_sgid_index : Z; ah_hop_limit : Z;
  ah_port_num : Z; at_sq_psn : Z; at_max_rd_atomic : Z; at_timeout : Z; at_retry_cnt : Z;
  at_rnr_retry : Z }.
Definition qp_attr0 : qp_attr :=
  mkQpAttr QPS_RESET 0 0 [] 0 0 0 0 0 0 (replicate 16 0) 0 0 0 0 0 0 0 0.

(** [struct ibv_sge], [struct ibv_send_wr] and [struct ibv_recv_wr] with one
    gather entry. *)
Record sge := mkSge { sge_addr : Z; sge_length : Z; sge_lkey : Z }.
Inductive wr_opcode := WR_SEND | WR_RDMA_WRITE | WR_RDMA_READ.
Inductive send_flag := SEND_SIGNALED | SEND_INLINE.
Record send_wr := mkSendWr { sw_id : Z; sw_sge : sge; sw_opcode : wr_opcode; sw_flags : list send_flag;
                             sw_remote_addr : Z; sw_rkey : Z }.
Record recv_wr := mkRecvWr { rw_id : Z; rw_sge : sge }.

(** What the code reads of a registered region ([struct ibv_mr]), of a new queue
    pair, of a port, of a table entry and of a completion. *)
Record ibv_mr := mkIbvMr { ibv_mr_h : Z; ibv_mr_addr : Z; ibv_lkey : Z; ibv_rkey : Z }.
Record new_qp := mkNewQp { nq_h : Z; nq_num : Z; nq_inline : Z }.
Record port_attr := mkPortAttr { gid_tbl_len : Z; active_mtu : Z }.
Record gid_entry := mkGidEntry { ge_roce_v2 : bool; ge_gid : list Z }.
Record wc := mkWc { wc_ok : bool; wc_id : Z }.

Inductive cm_event := EV_CONNECT_REQUEST | EV_ADDR_RESOLVED | EV_ROUTE_RESOLVED | EV_ESTABLISHED | EV_OTHER.
#[export] Instance cm_event_eq_dec : EqDecision cm_event.
Proof. solve_decision. Defined.
(** An event with the identifier it carries and, for a connection request, the
    listening identifier it came to. *)
Record cm_ev := mkEv { ev_h : Z; ev_type : cm_event; ev_id : Z; ev_listen : Z }.
Record conn_param := mkConnParam { responder_resources : Z; initiator_depth : Z; rnr_retry_count : Z }.

(** * The signature *)

Inductive sys_op :=
(* sockets *)
| c_socket | c_setsockopt (fd : Z) (o : sockopt) | c_bind (fd port : Z) | c_listen (fd backlog : Z)
| c_accept (fd : Z) | c_connect (fd ip port : Z) | c_send (fd : Z) (b : buffer) (len : Z)
| c_recv (fd : Z) (b : buffer) (len : Z) | c_close (fd : Z) | c_inet_pton (host : string)
(* memory and the environment *)
| c_pagesize | c_posix_memalign (align size : Z) | c_free (p : Z) | c_new | c_delete (p : Z)
| c_getenv_device | c_new_array (size : Z) | c_delete_array (p : Z) | c_malloc (size : Z)
(* the process memory: reading [n] bytes at [a], and storing bytes there *)
| c_load (a n : Z) | c_store (a : Z) (d : list Z)
| c_clock | c_usleep (us : Z)
(* libibverbs *)
| v_get_device_list | v_free_device_list (l : Z) | v_device_name (d : Z) | v_open_device (d : Z)
| v_query_device (ctx : Z) | v_close_device (ctx : Z) | v_query_port (ctx port : Z)
| v_query_gid_ex (ctx port i : Z) | v_query_gid (ctx port i : Z)
| v_alloc_pd (ctx : Z) | v_dealloc_pd (pd : Z) | v_create_cq (ctx depth : Z) | v_destroy_cq (cq : Z)
| v_create_qp (pd : Z) (a : qp_init_attr) | v_destroy_qp (qp : Z)
| v_modify_qp (qp : Z) (a : qp_attr) (mask : list attr_bit)
| v_reg_mr (pd buf size : Z) (a : list access) | v_dereg_mr (mr : Z)
| v_post_send (qp : Z) (wr : send_wr) | v_post_recv (qp : Z) (wr : recv_wr) | v_poll_cq (cq : Z) | v_poll_cq_batch (cq n : Z)
(* librdmacm *)
| m_create_event_channel | m_destroy_event_channel (ec : Z) | m_create_id (ec : Z) | m_destroy_id (id : Z)
| m_bind_addr (id port : Z) | m_listen (id backlog : Z) | m_get_event (ec : Z) | m_ack_event (ev : Z)
| m_resolve_addr (id ip port timeout : Z) | m_resolve_route (id timeout : Z)
| m_id_verbs (id : Z) | m_id_qp (id : Z)
| m_create_qp (id pd : Z) (a : qp_init_attr) | m_destroy_qp (id : Z)
| m_connect (id : Z) (p : conn_param) | m_accept (id : Z) (p : conn_param).

Definition sys_ans (o : sys_op) : Type :=
  match o with
  | c_recv _ _ _ => Z * list Z                   (* return value and bytes *)
  | c_inet_pton _ => option Z                    (* Some address iff it returned 1 *)
  | c_free _ | c_delete _ | v_free_device_list _ | m_destroy_event_channel _ | m_destroy_id _
  | m_ack_event _ | m_destroy_qp _ => unit
  | c_posix_memalign _ _ => option Z             (* the pointer on 0 *)
  | c_new_array _ => option Z                    (* None when it throws *)
  | c_delete_array _ | c_store _ _ => unit
  | c_load _ _ => list Z
  | c_getenv_device => option string
  | v_get_device_list => option (Z * list Z)     (* the list and its devices *)
  | v_device_name _ => string
  | v_query_device _ => option Z                 (* node_guid on 0 *)
  | v_query_port _ _ => option port_attr         (* on 0 *)
  | v_query_gid_ex _ _ _ => option gid_entry     (* on 0 *)
  | v_query_gid _ _ _ => option (list Z)         (* on 0 *)
  | v_create_qp _ _ => option new_qp             (* when not NULL *)
  | v_reg_mr _ _ _ _ => option ibv_mr            (* when not NULL *)
  | v_poll_cq _ => Z * wc
  | v_poll_cq_batch _ _ => Z * list wc          (* the array's first entries *)
  | m_create_id _ => option Z                    (* on 0 *)
  | m_get_event _ => option cm_ev                (* on 0 *)
  | m_create_qp _ _ _ => option new_qp           (* on 0; [nq_h] is [id->qp] *)
  | _ => Z
  end.
Definition sys_sig : sig := Sig sys_op sys_ans.
Abbreviation sysM := (prog sys_sig).
Definition sys (o : sys_op) : sysM (sys_ans o) := @call sys_sig o.

(** An answer of each type, for concrete environments: failure where the type
    has one. *)
Definition default_ans (o : sys_op) : sys_ans o :=
  match o with
  | c_recv _ _ _ => (-1, [])
  | c_free _ | c_delete _ | v_free_device_list _ | m_destroy_event_channel _ | m_destroy_id _
  | m_ack_event _ | m_destroy_qp _ => tt
  | c_delete_array _ | c_store _ _ => tt
  | c_load _ _ => []
  | c_inet_pton _ | c_posix_memalign _ _ | c_new_array _ | c_getenv_device | v_get_device_list | v_query_device _
  | v_query_port _ _ | v_query_gid_ex _ _ _ | v_query_gid _ _ _ | v_create_qp _ _ | v_reg_mr _ _ _ _
  | m_create_id _ | m_get_event _ | m_create_qp _ _ _ => None
  | v_device_name _ => EmptyString
  | v_poll_cq _ => (0, mkWc true 0)
  | v_poll_cq_batch _ _ => (0, [])
  | _ => 0
  end.

(** [htons] of an [int]. *)
Definition htons (port : Z) : Z := port mod 2 ^ 16.

(** * The resource ledger *)

(** A resource is known by its kind and its pointer or descriptor; [RListen] is
    the listening state of an identifier. *)
Inductive kind := RFd | RMem | RObj | RDevs | RCtx | RPd | RCq | RQp | RMr | REc | RId | RListen | REv | RMisuse.
#[export] Instance kind_eq_dec : EqDecision kind.
Proof. solve_decision. Defined.
Abbreviation key := (kind * Z)%type.
(** A live resource with the resources that must outlive it. *)
Record res := mkRes { r_key : key; r_parents : list key }.
Abbreviation ledger := (list res).

Definition fresh (k : key) (L : ledger) : Prop :=
  Forall (fun r => k ≠ r_key r ∧ k ∉ r_parents r) L.

(** A resource behind a pointer that may be NULL. *)
Definition ptr_res (k : kind) (parents : list key) (p : Z) : ledger :=
  if bool_decide (p ≠ 0) then [mkRes (k, p) parents] else [].

Lemma ptr_res_0 k ps : ptr_res k ps 0 = [].
Proof. done. Qed.

(** What a call adds to the ledger. *)
Definition created (o : sys_op) : sys_ans o → ledger :=
  match o with
  | c_socket => fun fd => if 0 <=? fd then [mkRes (RFd, fd) []] else []
  | c_accept _ => fun fd => if 0 <=? fd then [mkRes (RFd, fd) []] else []
  | c_posix_memalign _ _ => fun x => match x with Some p => ptr_res RMem [] p | None => [] end
  | c_new => fun p => [mkRes (RObj, p) []]
  | c_malloc _ => ptr_res RMem []
  | c_new_array _ => fun x => match x with Some p => [mkRes (RMem, p) []] | None => [] end
  | v_get_device_list => fun x => match x with Some (l, _) => [mkRes (RDevs, l) []] | None => [] end
  | v_open_device _ => ptr_res RCtx []
  | v_alloc_pd ctx => ptr_res RPd [(RCtx, ctx)]
  | v_create_cq ctx _ => ptr_res RCq [(RCtx, ctx)]
  | v_create_qp pd a => fun x => match x with
      | Some q => [mkRes (RQp, nq_h q) [(RPd, pd); (RCq, send_cq a); (RCq, recv_cq a)]]
      | None => [] end
  | v_reg_mr pd buf _ _ => fun x => match x with
      | Some m => [mkRes (RMr, ibv_mr_h m) [(RPd, pd); (RMem, buf)]]
      | None => [] end
  | m_create_event_channel => ptr_res REc []
  | m_create_id ec => fun x => match x with Some i => [mkRes (RId, i) [(REc, ec)]] | None => [] end
  | m_listen i _ => fun rc => if bool_decide (rc = 0) then [mkRes (RListen, i) [(RId, i)]] else []
  | m_get_event ec => fun x => match x with
      | Some e =>
        mkRes (REv, ev_h e) [(REc, ec); (RId, ev_id e); (RId, ev_listen e)] ::
        (if decide (ev_type e = EV_CONNECT_REQUEST) then [mkRes (RId, ev_id e) [(REc, ec)]] else [])
      | None => [] end
  | m_create_qp id pd a => fun x => match x with
      | Some q => [mkRes (RQp, nq_h q) [(RId, id); (RPd, pd); (RCq, send_cq a); (RCq, recv_cq a)]]
      | None => [] end
  | _ => fun _ => []
  end.

(** What a call releases. *)
Definition qp_of_id (id : Z) (L : ledger) : Z :=
  match filter (fun r => (r_key r).1 = RQp ∧ (RId, id) ∈ r_parents r) L with
  | mkRes (_, q) _ :: _ => q
  | [] => 0
  end.
Definition released (o : sys_op) (L : ledger) : option key :=
  match o with
  | c_close fd => Some (RFd, fd)
  | c_free p => Some (RMem, p)
  | c_delete p => Some (RObj, p)
  | c_delete_array p => Some (RMem, p)
  | v_free_device_list l => Some (RDevs, l)
  | v_close_device c => Some (RCtx, c)
  | v_dealloc_pd p => Some (RPd, p)
  | v_destroy_cq c => Some (RCq, c)
  | v_destroy_qp q => Some (RQp, q)
  | v_dereg_mr m => Some (RMr, m)
  | m_destroy_event_channel e => Some (REc, e)
  | m_destroy_id i => Some (RId, i)
  | m_ack_event e => Some (REv, e)
  | m_destroy_qp id => Some (RQp, qp_of_id id L)
  | _ => None
  end.
(** Resources a call needs alive. *)
Definition used (o : sys_op) : list key :=
  match o with
  | c_setsockopt fd _ | c_bind fd _ | c_listen fd _ | c_accept fd | c_connect fd _ _
  | c_send fd _ _ | c_recv fd _ _ => [(RFd, fd)]
  | v_create_qp pd a => [(RPd, pd); (RCq, send_cq a); (RCq, recv_cq a)]
  | v_modify_qp q _ _ | v_post_send q _ | v_post_recv q _ => [(RQp, q)]
  | v_reg_mr pd _ _ _ => [(RPd, pd)]
  | v_poll_cq c | v_poll_cq_batch c _ => [(RCq, c)]
  | m_create_id e | m_get_event e => [(REc, e)]
  | m_bind_addr i _ | m_listen i _ | m_resolve_addr i _ _ _ | m_resolve_route i _ | m_id_verbs i
  | m_id_qp i | m_connect i _ | m_accept i _ => [(RId, i)]
  | m_create_qp i pd a => [(RId, i); (RPd, pd); (RCq, send_cq a); (RCq, recv_cq a)]
  | _ => []
  end.

Definition live (L : ledger) (k : key) : Prop := k ∈ r_key <$> L.
#[export] Instance live_dec L k : Decision (live L k).
Proof. unfold live. apply _. Defined.
(** A resource may go when it is live and nothing depends on it; a listener
    goes with its identifier. *)
Definition depends (k : key) (r : res) : Prop := (r_key r).1 ≠ RListen ∧ k ∈ r_parents r.
Definition goes (k : key) (r : res) : Prop := r_key r = k ∨ (r_key r).1 = RListen ∧ k ∈ r_parents r.
#[export] Instance depends_dec k r : Decision (depends k r).
Proof. unfold depends. apply _. Defined.
#[export] Instance goes_dec k r : Decision (goes k r).
Proof. unfold goes. apply _. Defined.
Definition releasable (L : ledger) (k : key) : Prop :=
  live L k ∧ Forall (fun r => ¬ depends k r) L.
#[export] Instance releasable_dec L k : Decision (releasable L k).
Proof. unfold releasable. apply _. Defined.
Definition drop_key (k : key) (L : ledger) : ledger := filter (fun r => ¬ goes k r) L.

(** A call on a dead resource, or a release of one that is gone (a double free)
    or that others depend on, leaves a mark that no later call removes. *)
Definition misuse : res := mkRes (RMisuse, 0) [].
Definition release (L : ledger) (k : key) : ledger :=
  if decide (releasable L k) then drop_key k L else misuse :: L.
Definition effect (o : sys_op) (x : sys_ans o) (L : ledger) : ledger :=
  let L1 := if decide (Forall (live L) (used o)) then L else misuse :: L in
  created o x ++ match released o L with Some k => release L1 k | None => L1 end.

(** The documented behaviour the ledger relies on: pointers to new resources
    are not NULL (an allocation of no bytes may be), [id->qp] is the queue pair made on the identifier, a connection
    request comes to a listening identifier of the channel, and destroying what
    nothing depends on succeeds. *)
Definition fits (o : sys_op) : sys_ans o → ledger → Prop :=
  match o with
  | c_new => fun p L => p ≠ 0
  | c_posix_memalign _ n => fun x L => match x with Some p => n ≠ 0 → p ≠ 0 | None => True end
  | c_new_array _ => fun x L => match x with Some p => p ≠ 0 | None => True end
  | v_create_qp _ _ => fun x L => match x with Some q => nq_h q ≠ 0 | None => True end
  | v_reg_mr _ buf _ _ => fun x L => match x with Some m => ibv_mr_h m ≠ 0 ∧ ibv_mr_addr m = buf | None => True end
  | m_create_id _ => fun x L => match x with Some i => i ≠ 0 | None => True end
  | m_create_qp _ _ _ => fun x L => match x with Some q => nq_h q ≠ 0 | None => True end
  | m_get_event ec => fun x L => match x with
      | Some e =>
          ev_h e ≠ 0 ∧
          (ev_type e = EV_CONNECT_REQUEST → ev_id e ≠ 0 ∧
             Exists (fun r => r_key r = (RId, ev_listen e) ∧ (REc, ec) ∈ r_parents r) L ∧
             Exists (fun r => (r_key r).1 = RListen ∧ (RId, ev_listen e) ∈ r_parents r) L)
      | None => True end
  | m_id_qp i => fun q L => q = qp_of_id i L
  | v_dealloc_pd p => fun rc L => releasable L (RPd, p) → rc = 0
  | v_destroy_cq c => fun rc L => releasable L (RCq, c) → rc = 0
  | v_destroy_qp q => fun rc L => releasable L (RQp, q) → rc = 0
  | v_dereg_mr m => fun rc L => releasable L (RMr, m) → rc = 0
  | v_poll_cq_batch _ n => fun x L => x.1 ≤ n ∧ (0 < x.1 → Z.of_nat (length x.2) = x.1)
  | c_send _ _ len => fun n L => n ≤ len
  | c_recv _ _ len => fun x L => x.1 ≤ len ∧ (0 < x.1 → Z.of_nat (length x.2) = x.1)
  | _ => fun _ _ => True
  end.
(** New resources are none of the live ones nor something they refer to. *)
Definition ledger_env : envspec sys_sig ledger :=
  fun o L x L' =>
    Forall (fun r => fresh (r_key r) L) (created o x) ∧ NoDup (r_key <$> created o x) ∧
    fits o x L ∧ L' = effect o x L.

(** * Ownership of a part of the ledger *)

(** The ledger is [l] next to the untouched [L0], in any order. *)
Definition own (l L0 L : ledger) : Prop :=
  L ≡ₚ l ++ L0 ∧ NoDup (r_key <$> l) ∧ Forall (fun r => fresh (r_key r) L0) l.

#[export] Instance fresh_proper k : Proper ((≡ₚ) ==> iff) (fresh k).
Proof. intros L L' HL. unfold fresh. by rewrite HL. Qed.
#[export] Instance live_proper : Proper ((≡ₚ) ==> (=) ==> iff) live.
Proof.
  intros L L' HL ? k ->. unfold live. by rewrite HL.
Qed.
#[export] Instance own_proper : Proper ((≡ₚ) ==> (≡ₚ) ==> (≡ₚ) ==> iff) own.
Proof.
  intros l l' Hl L0 L0' H0 L L' HL. unfold own. rewrite Hl, HL, H0.
  assert (Hf : Forall (fun r => fresh (r_key r) L0) l' ↔ Forall (fun r => fresh (r_key r) L0') l').
  { apply Forall_proper; [|done]. intros r. by rewrite H0. }
  by rewrite Hf.
Qed.

Lemma own_empty L0 : own [] L0 L0.
Proof. split; [done|]. split; constructor. Qed.
Lemma own_nil L0 L : own [] L0 L ↔ L ≡ₚ L0.
Proof. split; [by intros [? _]|]. intros ->. apply own_empty. Qed.
(** Ownership is relative: what is held over [L1] and what [L1] holds over [L0]
    is held over [L0]. *)
Lemma own_key_fresh l L0 L k : own l L0 L → fresh k L → k ∉ r_key <$> l.
Proof.
  intros (HL & _ & _) Hk. rewrite HL in Hk. apply Forall_app in Hk as [Hk _].
  rewrite list_elem_of_fmap. intros (r & -> & Hr). rewrite Forall_forall in Hk.
  by destruct (Hk r Hr).
Qed.
Lemma own_acquire l L0 L c :
  own l L0 L → Forall (fun r => fresh (r_key r) L) c → NoDup (r_key <$> c) → own (c ++ l) L0 (c ++ L).
Proof.
  intros Hown Hc Hnd. pose proof Hown as (HL & Hl & HL0). split; [by rewrite HL, app_assoc|]. split.
  - rewrite fmap_app. apply NoDup_app. split; [done|]. split; [|done].
    intros k Hk. apply list_elem_of_fmap in Hk as (r & -> & Hr). rewrite Forall_forall in Hc.
    by eapply own_key_fresh, Hc.
  - apply Forall_app. split; [|done]. eapply Forall_impl; [exact Hc|]. cbn. intros r Hr.
    rewrite HL in Hr. by apply Forall_app in Hr as [_ Hr].
Qed.
Lemma own_live l L0 L k : own l L0 L → live l k → live L k.
Proof. intros (-> & _ & _) Hr. unfold live in *. rewrite fmap_app. apply elem_of_app. by left. Qed.
Lemma fresh_drop k L0 : fresh k L0 → drop_key k L0 = L0.
Proof.
  unfold drop_key. induction 1 as [|r L [H1 H2] HL IH]; [done|].
  rewrite filter_cons_True, IH; [done|]. intros [H|[_ H]]; [by apply H1|by apply H2].
Qed.
Lemma fresh_filter k P `{!∀ r : res, Decision (P r)} L : fresh k L → fresh k (filter P L).
Proof.
  unfold fresh. rewrite !Forall_forall. intros Hk r [_ Hr]%list_elem_of_filter. by apply Hk.
Qed.
Lemma own_releasable l L0 L k :
  own l L0 L → live l k → Forall (fun r => ¬ depends k r) l → fresh k L0 ∧ releasable L k.
Proof.
  intros Hown Hlive Hdep. pose proof Hown as (HL & Hl & HL0).
  assert (Hk : fresh k L0).
  { apply list_elem_of_fmap in Hlive as (r & -> & Hr). rewrite Forall_forall in HL0. by apply HL0. }
  split; [done|]. split; [by eapply own_live|]. rewrite HL. apply Forall_app. split; [done|].
  eapply Forall_impl; [exact Hk|]. cbn. intros r [_ ?] [_ ?]. done.
Qed.
Lemma own_release l L0 L k :
  own l L0 L → live l k → Forall (fun r => ¬ depends k r) l → own (drop_key k l) L0 (release L k).
Proof.
  intros Hown Hlive Hdep. destruct (own_releasable l L0 L k Hown Hlive Hdep) as [Hk Hrel].
  destruct Hown as (HL & Hl & HL0). unfold release. rewrite decide_True by done. unfold drop_key. split.
  { rewrite HL, filter_app. f_equiv. fold (drop_key k L0). by rewrite fresh_drop. }
  split.
  - eapply sublist_NoDup; [exact Hl|]. apply fmap_sublist, sublist_filter.
  - apply Forall_forall. intros r [_ Hr]%list_elem_of_filter. rewrite Forall_forall in HL0. by apply HL0.
Qed.

Lemma own_trans l1 l L0 L1 L2 : own l1 L1 L2 → own l L0 L1 → own (l1 ++ l) L0 L2.
Proof.
  intros (H1 & Hnd1 & Hf1) (H2 & Hnd2 & Hf2). rewrite Forall_forall in Hf1. split.
  { by rewrite H1, H2, app_assoc. }
  assert (Hboth : ∀ r, r ∈ l1 → fresh (r_key r) l ∧ fresh (r_key r) L0).
  { intros r Hr. pose proof (Hf1 r Hr) as Hk. rewrite H2 in Hk. by apply Forall_app in Hk. }
  split.
  - rewrite fmap_app. apply NoDup_app. split; [done|]. split; [|done].
    intros k (r & -> & Hr)%list_elem_of_fmap (r' & Hk & Hr')%list_elem_of_fmap.
    destruct (Hboth r Hr) as [Hl _]. unfold fresh in Hl. rewrite Forall_forall in Hl.
    by destruct (Hl r' Hr').
  - apply Forall_app. split; [|done]. apply Forall_forall. intros r Hr. by apply Hboth.
Qed.
(** What is released on top of an owned part leaves the rest owned. *)
Lemma own_base l L0 L k : own l L0 L → live L0 k → live L k.
Proof. intros (-> & _ & _) Hk. unfold live in *. rewrite fmap_app. apply elem_of_app. by right. Qed.

(** No resource of the list refers to [k]. *)
Definition unreferred (k : key) (l : ledger) : Prop := Forall (fun r => k ∉ r_parents r) l.
(** Framing: part of what is owned is owned over the rest, as long as the rest
    does not refer to it; and what is untouched meanwhile is owned again after. *)
Lemma own_split l1 l2 L0 L :
  own (l1 ++ l2) L0 L → Forall (fun r => unreferred (r_key r) l2) l1 → own l1 (l2 ++ L0) L.
Proof.
  intros (HL & Hnd & Hf) Hun. split; [by rewrite HL, app_assoc|]. rewrite fmap_app in Hnd.
  apply NoDup_app in Hnd as (Hnd & Hdis & _). split; [done|]. apply Forall_app in Hf as [Hf _].
  rewrite Forall_forall in *. intros r Hr. apply Forall_app. split; [|by apply Hf].
  apply Forall_forall. intros r' Hr'. split.
  - intros He. apply (Hdis (r_key r)); [by apply list_elem_of_fmap_2|]. rewrite He. by apply list_elem_of_fmap_2.
  - specialize (Hun r Hr). unfold unreferred in Hun. rewrite Forall_forall in Hun. by apply Hun.
Qed.
Lemma own_here l L0 L : own l L0 L → own l L0 (l ++ L0).
Proof. intros (_ & ? & ?). by split. Qed.
Lemma own_tail l1 l2 L0 L : own (l1 ++ l2) L0 L → own l2 L0 (l2 ++ L0).
Proof.
  intros (_ & Hnd & Hf). rewrite fmap_app in Hnd. apply NoDup_app in Hnd as (_ & _ & Hnd).
  apply Forall_app in Hf as [_ Hf]. by split.
Qed.
Lemma own_frame l1 l1' l2 L0 L L' :
  own (l1 ++ l2) L0 L → own l1' (l2 ++ L0) L' → own (l1' ++ l2) L0 L'.
Proof.
  intros Hown Ho. eapply own_trans; [exact Ho|]. by eapply own_tail.
Qed.

Lemma own_release_head r l L0 L :
  own (r :: l) L0 L → unreferred (r_key r) (r :: l) →
  own l L0 (release L (r_key r)) ∧ releasable L (r_key r).
Proof.
  intros Hown Hun. assert (Hd : Forall (fun r' => ¬ depends (r_key r) r') (r :: l)).
  { eapply Forall_impl; [exact Hun|]. intros r' ? [_ ?]. done. }
  assert (Hl : live (r :: l) (r_key r)) by (unfold live; cbn; by left).
  split; [|by eapply own_releasable].
  pose proof (own_release _ L0 L (r_key r) Hown Hl Hd) as Ho. destruct Hown as (_ & Hnd & _).
  unfold drop_key in Ho. rewrite filter_cons_False in Ho by (intros Hn; apply Hn; by left).
  fold (drop_key (r_key r) l) in Ho. rewrite fresh_drop in Ho; [done|].
  inversion Hnd as [|? ? Hnin _]. inversion Hun as [|? ? _ Hun']. subst.
  apply Forall_forall. intros r' Hr'. split.
  - intros He. apply Hnin. rewrite He. by apply list_elem_of_fmap_2.
  - unfold unreferred in Hun'. rewrite Forall_forall in Hun'. by apply Hun'.
Qed.

(** * Rules for calls *)

Section rules.
Context {A : Type} (o : sys_op) (k : sys_ans o → sysM A) (Q : A → ledger → Prop) (L : ledger).

Lemma wp_neutral :
  Forall (live L) (used o) → (∀ x, created o x = []) → released o L = None →
  (∀ x, fits o x L → wp ledger_env (k x) Q L) → wp ledger_env (Do (o : op sys_sig) k) Q L.
Proof.
  intros Hu Hc Hr Hk x L' (_ & _ & Hfits & ->). unfold effect. rewrite Hc, Hr, decide_True by done.
  by apply Hk.
Qed.
Lemma wp_acquire :
  Forall (live L) (used o) → released o L = None →
  (∀ x L', fits o x L → own (created o x) L L' → wp ledger_env (k x) Q L') →
  wp ledger_env (Do (o : op sys_sig) k) Q L.
Proof.
  intros Hu Hr Hk x L' (Hfresh & Hnd & Hfits & ->). apply Hk; [done|].
  unfold effect. rewrite Hr, decide_True by done.
  rewrite <- (app_nil_r (created o x)) at 1. by apply own_acquire; [apply own_empty|..].
Qed.
Lemma wp_release r l L0 :
  own (r :: l) L0 L → unreferred (r_key r) (r :: l) → used o = [] → (∀ x, created o x = []) →
  released o L = Some (r_key r) →
  (∀ x L', fits o x L → releasable L (r_key r) → own l L0 L' → wp ledger_env (k x) Q L') →
  wp ledger_env (Do (o : op sys_sig) k) Q L.
Proof.
  intros Hown Hun Hu Hc Hr Hk x L' (_ & _ & Hfits & ->). unfold effect. rewrite Hr, Hu, Hc. cbn.
  destruct (own_release_head r l L0 L Hown Hun). by apply Hk.
Qed.
End rules.

(** * What stays *)

(** A resource stays as long as no call releases it; the mark of misuse does. *)
Lemma effect_stays r o x L :
  (r_key r).1 ≠ RListen → released o L ≠ Some (r_key r) → r ∈ L → r ∈ effect o x L.
Proof.
  intros Hk Hr Hin. unfold effect. apply elem_of_app. right.
  assert (Hin' : r ∈ (if decide (Forall (live L) (used o)) then L else misuse :: L)) by (case_decide; [done|by right]).
  revert Hin'. generalize (if decide (Forall (live L) (used o)) then L else misuse :: L). intros L1 Hin'.
  destruct (released o L) as [k|]; [|done]. unfold release. case_decide; [|by right].
  apply list_elem_of_filter. split; [|done]. intros [He|[He _]]; [|done]. by apply Hr; rewrite He.
Qed.
Lemma wp_stays {A} r (P : op sys_sig → Prop) (p : sysM A) L :
  (r_key r).1 ≠ RListen → (∀ o L', P o → released (o : sys_op) L' ≠ Some (r_key r)) → only P p → r ∈ L →
  wp ledger_env p (fun _ L' => r ∈ L') L.
Proof.
  intros Hk HP. revert L. induction p as [a|o k IH]; intros L Ho Hin; [done|]. destruct Ho as [Ho Hks].
  intros x L' (_ & _ & _ & ->). apply IH; [apply Hks|]. apply effect_stays; [done|by apply HP|done].
Qed.
Lemma misuse_stays {A} (p : sysM A) L : misuse ∈ L → wp ledger_env p (fun _ L' => misuse ∈ L') L.
Proof.
  intros Hin. apply (wp_stays _ (fun _ => True)); [done| | |done].
  - intros o L' _. by destruct o.
  - clear. induction p; cbn; auto.
Qed.
Lemma misuse_bind {A B} (p : sysM A) (f : A → sysM B) L :
  wp ledger_env p (fun _ L' => misuse ∈ L') L → wp ledger_env (bind p f) (fun _ L' => misuse ∈ L') L.
Proof. intros Hp. eapply wp_bind_2; [exact Hp|]. intros a L'. apply misuse_stays. Qed.
(** Releasing what a resource refers to is a misuse. *)
Lemma wp_release_used r k (o : sys_op) L :
  released o L = Some k → r ∈ L → depends k r → wp ledger_env (sys o) (fun _ L' => misuse ∈ L') L.
Proof.
  intros Hr Hin Hd x L' (_ & _ & _ & ->). unfold effect. rewrite Hr. cbn [wp]. apply elem_of_app. right.
  unfold release. rewrite decide_False; [by left|]. intros [_ Hf]. rewrite Forall_forall in Hf.
  apply (Hf r); [|done]. case_decide; [done|by right].
Qed.

(** Discharges [unreferred] on a literal list: most keys differ by their kind. *)
Ltac unreferred_tac :=
  unfold unreferred; repeat (apply Forall_cons; split); try apply Forall_nil; cbn;
  rewrite ?not_elem_of_cons; repeat split; try apply not_elem_of_nil; try congruence.
Ltac live_tac :=
  cbn; repeat (apply Forall_cons; split); try apply Forall_nil; eauto.
