(* ===== verification/Printf.v ===== *)
(** [printf] on the conversions the programs use, doubles as the Standard
    Library's specification floats, and comma-separated rows. *)
From Stdlib Require Import SpecFloat Ascii.
From stdpp Require Import strings.
From S2P Require Import Prelude Libc.



(** * Numbers as text *)

Definition digit_char (d : Z) : ascii := ascii_of_N (Z.to_N (48 + d)).
(** The decimal digits of [n] in front of [acc]; a number has no more digits than
    its logarithm. *)
Fixpoint dec_go (fuel : nat) (n : Z) (acc : string) : string :=
  match fuel with
  | O => acc
  | S fuel =>
    let acc := String (digit_char (n mod 10)) acc in
    if n <? 10 then acc else dec_go fuel (n / 10) acc
  end.
Definition dec_nat (n : Z) : string := dec_go (S (Z.to_nat (Z.log2 n))) n "".
Definition dec (z : Z) : string := if z <? 0 then String "-" (dec_nat (- z)) else dec_nat z.

Fixpoint repeat_char (c : ascii) (n : nat) : string :=
  match n with O => "" | S n => String c (repeat_char c n) end.
(** [n] with at least [w] digits. *)
Definition dec_padded (w : nat) (n : Z) : string :=
  let s := dec_nat n in repeat_char "0" (w - String.length s) +:+ s.

(** [m / d] to the nearest integer, ties to even. *)
Definition div_nearest (m d : Z) : Z :=
  let q := m / d in let r := m mod d in
  if 2 * r <? d then q else if d <? 2 * r then q + 1 else if Z.even q then q else q + 1.
(** [%.pf] of a double. *)
Definition fixed (p : nat) (x : spec_float) : string :=
  match x with
  | S754_nan => "nan"
  | S754_infinity s => if s then "-inf" else "inf"
  | _ =>
    let '(s, n) := match x with
      | S754_finite s m e =>
          (s, let v := Z.pos m * 10 ^ Z.of_nat p in if 0 <=? e then v * 2 ^ e else div_nearest v (2 ^ (- e)))
      | S754_zero s => (s, 0)
      | _ => (false, 0) end in
    (if s then "-" else "") +:+ dec_nat (n / 10 ^ Z.of_nat p) +:+
    match p with O => "" | _ => "." +:+ dec_padded p (n mod 10 ^ Z.of_nat p) end
  end.

(** * The format string *)

Inductive arg := AStr (s : string) | AInt (z : Z) | ADbl (x : spec_float).
Definition pad (l : bool) (w : nat) (s : string) : string :=
  let sp := repeat_char " " (w - String.length s) in if l then s +:+ sp else sp +:+ s.

(** Between conversions, or in one with its flag, width and precision. *)
Inductive fstate := Plain | Conv (l : bool) (w : nat) (p : option nat).
(** A conversion whose argument is missing or of another type is undefined in C,
    and ends the text here. *)
Fixpoint printf_go (fmt : string) (st : fstate) (args : list arg) : string :=
  match fmt with
  | EmptyString => ""
  | String c fmt =>
    match st with
    | Plain => if (c =? "%")%char then printf_go fmt (Conv false 0 None) args else String c (printf_go fmt Plain args)
    | Conv l w p =>
      if (c =? "-")%char then printf_go fmt (Conv true w p) args
      else if (c =? ".")%char then printf_go fmt (Conv l w (Some 0%nat)) args
      else if (c =? "l")%char || (c =? "z")%char then printf_go fmt st args
      else if (c =? "%")%char then String c (printf_go fmt Plain args)
      else match digit c with
      | Some d =>
          let d := Z.to_nat d in
          match p with
          | None => printf_go fmt (Conv l (10 * w + d) None) args
          | Some p => printf_go fmt (Conv l w (Some (10 * p + d)%nat)) args
          end
      | None =>
        match args with
        | AStr s :: args => if (c =? "s")%char then pad l w s +:+ printf_go fmt Plain args else ""
        | AInt z :: args =>
            if (c =? "d")%char || (c =? "u")%char then pad l w (dec z) +:+ printf_go fmt Plain args else ""
        | ADbl x :: args =>
            if (c =? "f")%char then pad l w (fixed (default 6%nat p) x) +:+ printf_go fmt Plain args else ""
        | [] => ""
        end
      end
    end
  end.
Definition printf (fmt : string) (args : list arg) : string := printf_go fmt Plain args.
Definition nl : string := String "010"%char "".

Example printf_demo :
  printf "%s,%d,%-4d|%lu,%.2f,%.0f%%" [AStr "a"; AInt (-17); AInt 5; AInt 18446744073709551615;
    ADbl (S754_finite false 5 (-3)); ADbl (S754_finite false 5 (-1))] = "a,-17,5   |18446744073709551615,0.62,2%".
Proof. reflexivity. Qed.

(** * Rows *)

Fixpoint fields_go (s : string) (cur : string) : list string :=
  match s with
  | EmptyString => [cur]
  | String c s => if (c =? ",")%char then cur :: fields_go s "" else fields_go s (cur +:+ String c "")
  end.
(** What is between the commas. *)
Definition fields (s : string) : list string := fields_go s "".
Fixpoint has (c : ascii) (s : string) : bool :=
  match s with EmptyString => false | String d s => (d =? c)%char || has c s end.

(** * Printing and reading back *)

Lemma digit_chars (P : Z → Prop) : (∀ d, d ∈ [0; 1; 2; 3; 4; 5; 6; 7; 8; 9] → P d) → ∀ d, 0 ≤ d < 10 → P d.
Proof.
  intros HP d Hd. apply HP. rewrite !elem_of_cons.
  assert (d = 0 ∨ d = 1 ∨ d = 2 ∨ d = 3 ∨ d = 4 ∨ d = 5 ∨ d = 6 ∨ d = 7 ∨ d = 8 ∨ d = 9) by lia. tauto.
Qed.
Lemma digit_of_char d : 0 ≤ d < 10 → digit (digit_char d) = Some d.
Proof.
  apply (digit_chars (fun d => digit (digit_char d) = Some d)). apply Forall_forall. repeat constructor.
Qed.
Lemma dec_go_digits fuel n acc : 0 ≤ n < 10 ^ Z.of_nat fuel → (0 < fuel)%nat →
  ∃ k : nat, ∀ a, digits a (dec_go fuel n acc) = digits (a * 10 ^ Z.of_nat k + n) acc.
Proof.
  revert n acc. induction fuel as [|fuel IH]; intros n acc Hn Hf; [lia|]. cbn [dec_go].
  assert (Hd : ∀ a, digits a (String (digit_char (n mod 10)) acc) = digits (10 * a + n mod 10) acc).
  { intros a. cbn [digits]. rewrite digit_of_char; [done|]. apply Z.mod_pos_bound. lia. }
  destruct (Z.ltb_spec n 10) as [Hlt|Hge].
  - exists 1%nat. intros a. rewrite Hd, Z.mod_small by lia. f_equal. lia.
  - rewrite Nat2Z.inj_succ, Z.pow_succ_r in Hn by lia.
    destruct (IH (n / 10) (String (digit_char (n mod 10)) acc)) as [k Hk].
    + split; [apply Z.div_pos; lia|apply Z.div_lt_upper_bound; lia].
    + destruct fuel; [cbn in Hn; lia|lia].
    + exists (S k). intros a. rewrite Hk, Hd, Nat2Z.inj_succ, Z.pow_succ_r by lia. f_equal.
      pose proof (Z.div_mod n 10 ltac:(lia)). lia.
Qed.
Lemma dec_fuel n : 0 ≤ n → n < 10 ^ Z.of_nat (S (Z.to_nat (Z.log2 n))).
Proof.
  intros Hn. pose proof (Z.log2_nonneg n). rewrite Nat2Z.inj_succ, Z2Nat.id by done.
  apply Z.lt_le_trans with (2 ^ Z.succ (Z.log2 n)); [|apply Z.pow_le_mono_l; lia].
  destruct (decide (n = 0)) as [->|]; [done|]. apply Z.log2_spec. lia.
Qed.
Lemma digits_dec n : 0 ≤ n → digits 0 (dec_nat n) = n.
Proof.
  intros Hn. destruct (dec_go_digits _ n "" (conj Hn (dec_fuel n Hn)) ltac:(lia)) as [k Hk]. unfold dec_nat. by rewrite Hk.
Qed.
(** The text of a number starts with a digit. *)
Lemma dec_go_head fuel n acc : (0 < fuel)%nat → 0 ≤ n → ∃ d s, 0 ≤ d < 10 ∧ dec_go fuel n acc = String (digit_char d) s.
Proof.
  revert n acc. induction fuel as [|fuel IH]; intros n acc Hf Hn; [lia|]. cbn [dec_go].
  pose proof (Z.mod_pos_bound n 10 ltac:(lia)). destruct (n <? 10); [by eexists _, _|].
  destruct fuel; [by eexists _, _|]. apply IH; [lia|]. apply Z.div_pos; lia.
Qed.
Lemma dec_head n : 0 ≤ n → ∃ d s, 0 ≤ d < 10 ∧ dec_nat n = String (digit_char d) s.
Proof. apply dec_go_head. lia. Qed.
Lemma strtol_digits d s : 0 ≤ d < 10 →
  strtol (String (digit_char d) s) = Z.max LONG_MIN (Z.min LONG_MAX (digits 0 (String (digit_char d) s))).
Proof.
  revert d. apply (digit_chars (fun d => strtol (String (digit_char d) s) = _)). apply Forall_forall. repeat constructor.
Qed.
(** [atoi] reads what [%d] prints. *)
Lemma atoi_dec z : INT_MIN ≤ z ≤ INT_MAX → atoi (dec z) = z.
Proof.
  unfold INT_MIN, INT_MAX, atoi, dec. intros Hz. destruct (Z.ltb_spec z 0) as [Hneg|Hpos].
  - change (strtol (String "-" (dec_nat (- z)))) with (Z.max LONG_MIN (Z.min LONG_MAX (- digits 0 (dec_nat (- z))))).
    rewrite digits_dec by lia. unfold LONG_MIN, LONG_MAX. rewrite Z.opp_involutive, Z.min_r, Z.max_r by lia. apply i32_small. lia.
  - destruct (dec_head z Hpos) as (d & s & Hd & He). rewrite He, strtol_digits, <- He, digits_dec by done.
    unfold LONG_MIN, LONG_MAX. rewrite Z.min_r, Z.max_r by lia. apply i32_small. lia.
Qed.

(** * What a text does not contain *)

(** A separator of rows or columns. *)
Definition separator (c : ascii) : bool := (c =? ",")%char || (c =? "010")%char.
Definition plain (s : string) : bool := negb (has "," s || has "010" s).

Lemma append_cons c a b : String c a +:+ b = String c (a +:+ b).
Proof. done. Qed.
Lemma append_nil a : a +:+ "" = a.
Proof. induction a as [|c a IH]; [done|]. by rewrite append_cons, IH. Qed.
Lemma append_assoc a b c : (a +:+ b) +:+ c = a +:+ (b +:+ c).
Proof. induction a as [|d a IH]; [done|]. by rewrite !append_cons, IH. Qed.
Lemma has_app c a b : has c (a +:+ b) = has c a || has c b.
Proof. induction a as [|d a IH]; [done|]. rewrite append_cons. cbn [has]. by rewrite IH, orb_assoc. Qed.
Lemma plain_app a b : plain (a +:+ b) = plain a && plain b.
Proof. unfold plain. rewrite !has_app. by destruct (has "," a), (has "," b), (has "010" a), (has "010" b). Qed.
Lemma plain_cons c s : plain (String c s) = negb (separator c) && plain s.
Proof. unfold plain, separator. cbn. by destruct (c =? ",")%char, (c =? "010")%char, (has "," s), (has "010" s). Qed.
Lemma plain_digit d : 0 ≤ d < 10 → separator (digit_char d) = false.
Proof. apply (digit_chars (fun d => separator (digit_char d) = false)). apply Forall_forall. repeat constructor. Qed.
Lemma plain_dec_go fuel n acc : plain acc = true → plain (dec_go fuel n acc) = true.
Proof.
  revert n acc. induction fuel as [|fuel IH]; intros n acc Ha; [done|]. cbn [dec_go].
  assert (Hc : plain (String (digit_char (n mod 10)) acc) = true).
  { rewrite plain_cons, plain_digit, Ha; [done|]. apply Z.mod_pos_bound. lia. }
  destruct (n <? 10); [done|]. by apply IH.
Qed.
Lemma plain_dec_nat n : plain (dec_nat n) = true.
Proof. by apply plain_dec_go. Qed.
Lemma plain_dec z : plain (dec z) = true.
Proof. unfold dec. destruct (z <? 0); [rewrite plain_cons|]; by rewrite plain_dec_nat. Qed.
Lemma plain_repeat c n : separator c = false → plain (repeat_char c n) = true.
Proof. intros Hc. induction n as [|n IH]; [done|]. cbn [repeat_char]. by rewrite plain_cons, Hc, IH. Qed.
Lemma plain_fixed p x : plain (fixed p x) = true.
Proof.
  unfold fixed. destruct x as [s|s| |s m e]; [|by destruct s|done|].
  all: rewrite !plain_app, plain_dec_nat.
  all: destruct p; [by destruct s|]; unfold dec_padded; rewrite !plain_app, plain_dec_nat, plain_repeat by done; by destruct s.
Qed.
Lemma plain_pad l w s : plain (pad l w s) = plain s.
Proof. unfold pad. destruct l; rewrite plain_app, plain_repeat by done; [apply andb_true_r|done]. Qed.

(** The columns of a row, one at a time. *)
Lemma fields_go_plain a b cur : has "," a = false → fields_go (a +:+ b) cur = fields_go b (cur +:+ a).
Proof.
  revert cur. induction a as [|c a IH]; intros cur Ha; cbn [has] in Ha; [by rewrite append_nil|].
  apply orb_false_iff in Ha as [Hc Ha]. rewrite append_cons. cbn [fields_go]. rewrite Hc, IH by done. by rewrite append_assoc.
Qed.
Lemma fields_col a b : plain a = true → fields (a +:+ String "," b) = a :: fields b.
Proof.
  intros Ha. unfold fields. rewrite fields_go_plain; [done|]. unfold plain in Ha. by destruct (has "," a).
Qed.
Lemma fields_last a : plain a = true → fields a = [a].
Proof.
  intros Ha. rewrite <- (append_nil a) at 1. unfold fields. rewrite fields_go_plain; [done|].
  unfold plain in Ha. by destruct (has "," a).
Qed.
