(* ===== verification/Double.v ===== *)
(** [double] arithmetic of the Standard Library's specification floats: integers
    are exact, a product is within half a unit of the last place, and the index
    [(int)(k * 0.99)] is the quotient of the integers. *)
From Stdlib Require Import SpecFloat.
From S2P Require Import Prelude.

(** [(double)n] of an integer, the arithmetic of [double], and [(int)] of one. *)
Definition dbl (n : Z) : spec_float := binary_normalize 53 1024 n 0 false.
Definition dmul : spec_float → spec_float → spec_float := SFmul 53 1024.
Definition ddiv : spec_float → spec_float → spec_float := SFdiv 53 1024.
Definition trunc (x : spec_float) : Z :=
  match x with
  | S754_finite s m e => cond_Zopp s (if 0 <=? e then Z.pos m * 2 ^ e else Z.pos m / 2 ^ (- e))
  | _ => 0
  end.
(** The double nearest to 0.99. *)
Definition d099 : spec_float := ddiv (dbl 99) (dbl 100).

(** * Digits and shifts *)

Lemma digits2_log2 m : Z.pos (digits2_pos m) = Z.log2 (Z.pos m) + 1.
Proof.
  induction m as [m IH|m IH|]; cbn [digits2_pos]; [| |done]; rewrite Pos2Z.inj_succ, IH.
  - rewrite (Pos2Z.inj_xI m), Z.log2_succ_double; lia.
  - rewrite (Pos2Z.inj_xO m), Z.log2_double; lia.
Qed.
Lemma iter_xO m d : Z.pos (Pos.iter xO m d) = Z.pos m * 2 ^ Z.pos d.
Proof.
  induction d as [|d IH] using Pos.peano_ind; [cbn; lia|].
  rewrite Pos.iter_succ, Pos2Z.inj_xO, IH, Pos2Z.inj_succ, Z.pow_succ_r; lia.
Qed.
Lemma iter_pos_nat {A} (f : A → A) (n : positive) (x : A) : SpecFloat.iter_pos f n x = Nat.iter (Pos.to_nat n) f x.
Proof.
  revert x. induction n as [n IH|n IH|]; intros x; cbn [SpecFloat.iter_pos]; [| |done]; rewrite !IH, <- Nat.iter_add.
  - rewrite Pos2Nat.inj_xI. replace (S (2 * Pos.to_nat n)) with ((Pos.to_nat n + Pos.to_nat n) + 1)%nat by lia.
    symmetry. apply (Nat.iter_add _ 1).
  - rewrite Pos2Nat.inj_xO. f_equal. lia.
Qed.
Lemma shr_1_half m r s : 0 ≤ m →
  shr_1 {| shr_m := m; shr_r := r; shr_s := s |} = {| shr_m := m / 2; shr_r := Z.odd m; shr_s := r || s |}.
Proof.
  intros Hm. rewrite <- Z.div2_div. destruct m as [|[p|p|]|p]; [done..|lia].
Qed.
(** After [n] shifts: the quotient, and where the remainder lies. *)
Definition shifted (m : Z) (n : nat) (x : shr_record) : Prop :=
  let d := 2 ^ Z.of_nat n in
  shr_m x = m / d ∧ (shr_r x || shr_s x = false ↔ m mod d = 0) ∧
  (shr_r x = true → d ≤ 2 * (m mod d)) ∧ (shr_r x = false → 2 * (m mod d) < d) ∧
  (shr_s x = false → m mod d = 0 ∨ 2 * (m mod d) = d).
Lemma shifts m n : 0 ≤ m → shifted m n (Nat.iter n shr_1 {| shr_m := m; shr_r := false; shr_s := false |}).
Proof.
  intros Hm. induction n as [|n IH].
  - unfold shifted. cbn. rewrite Z.div_1_r, Z.mod_1_r. naive_solver lia.
  - cbn [Nat.iter nat_rect]. destruct (Nat.iter n shr_1 _) as [q r s] eqn:Hi. destruct IH as (Hq & H0 & _). cbn in Hq, H0.
    unfold Nat.iter in Hi. rewrite Hi.
    set (d := 2 ^ Z.of_nat n) in *. assert (Hd : 0 < d) by (apply Z.pow_pos_nonneg; lia).
    pose proof (Z.mod_pos_bound m d Hd) as Hb. assert (Hq0 : 0 ≤ q) by (rewrite Hq; by apply Z.div_pos).
    rewrite shr_1_half by done. unfold shifted. cbn [shr_m shr_r shr_s]. rewrite Nat2Z.inj_succ, Z.pow_succ_r by lia. fold d.
    rewrite (Z.mul_comm 2 d), <- Z.div_div, <- Hq by lia.
    assert (Hr : m mod (d * 2) = m mod d + d * Z.b2z (Z.odd q)).
    { rewrite Z.rem_mul_r, <- Hq, Zmod_odd by lia. by destruct (Z.odd q). }
    rewrite Hr. split; [done|]. destruct (r || s);
      [assert (m mod d ≠ 0) by (intros Hz; by apply H0 in Hz)|pose proof (proj1 H0 eq_refl)];
      destruct (Z.odd q); cbn [Z.b2z orb]; split_and!; try split; intros; (done || lia).
Qed.
Lemma shr_exact m n : 0 < m →
  Nat.iter n shr_1 {| shr_m := m * 2 ^ Z.of_nat n; shr_r := false; shr_s := false |} = {| shr_m := m; shr_r := false; shr_s := false |}.
Proof.
  intros Hm. assert (Hd : 0 < 2 ^ Z.of_nat n) by (apply Z.pow_pos_nonneg; lia).
  pose proof (shifts (m * 2 ^ Z.of_nat n) n ltac:(lia)) as (Hq & H0 & _). rewrite Z.div_mul, Z.mod_mul in * by lia.
  destruct (Nat.iter n shr_1 _) as [q r s]. cbn in *. destruct H0 as [_ H0]. specialize (H0 eq_refl).
  apply orb_false_iff in H0 as [-> ->]. by rewrite Hq.
Qed.
Lemma shr_by m e n : 0 < m → 0 ≤ n →
  shr {| shr_m := m * 2 ^ n; shr_r := false; shr_s := false |} e n = ({| shr_m := m; shr_r := false; shr_s := false |}, e + n).
Proof.
  intros Hm Hn. destruct n as [|n|n]; cbn [shr]; [|clear Hn|lia].
  - rewrite Z.pow_0_r, Z.mul_1_r. f_equal. lia.
  - rewrite iter_pos_nat. pose proof (shr_exact m (Pos.to_nat n) Hm) as Hs. rewrite positive_nat_Z in Hs. by rewrite Hs.
Qed.

(** * Integers that fit *)

Definition digits (a : Z) : Z := Z.log2 a + 1.
Lemma digits_shift a k : 0 < a → 0 ≤ k → digits (a * 2 ^ k) = digits a + k.
Proof. intros. unfold digits. rewrite Z.log2_mul_pow2 by lia. lia. Qed.
Lemma zdigits a : 0 < a → Zdigits2 a = digits a.
Proof. destruct a as [|p|p]; [lia| |lia]. intros _. cbn [Zdigits2]. apply digits2_log2. Qed.
Lemma digits_bounds a n : 0 < a → 0 ≤ n → 2 ^ n ≤ a < 2 ^ (n + 1) → digits a = n + 1.
Proof. intros Ha Hn Hb. unfold digits. rewrite (Z.log2_unique a n); [done|done|]. by rewrite <- Z.add_1_r. Qed.
Lemma digits_range a n : 0 < a < 2 ^ n → 1 ≤ digits a ≤ n.
Proof.
  intros [H0 H1]. unfold digits. pose proof (Z.log2_nonneg a). pose proof (proj1 (Z.log2_lt_pow2 a n H0) H1). lia.
Qed.

Section format.
Context (prec emax : Z) (Hprec : 2 ≤ prec) (Hemax : 2 * prec < emax).

(** The float of the integer [a], 0 < a < 2^prec. *)
Definition norm (a : Z) : spec_float := S754_finite false (Z.to_pos (a * 2 ^ (prec - digits a))) (digits a - prec).
Definition fits_in (a : Z) : Prop := 0 < a < 2 ^ prec.
Lemma fits_in_digits a : fits_in a → 1 ≤ digits a ≤ prec.
Proof. apply digits_range. Qed.
Lemma norm_bounds a : fits_in a → 2 ^ (prec - 1) ≤ a * 2 ^ (prec - digits a) < 2 ^ prec.
Proof.
  intros Ha. pose proof (fits_in_digits a Ha) as Hd. destruct Ha as [H0 _]. pose proof (Z.log2_spec a H0) as [Hl Hu].
  assert (Hp : 0 < 2 ^ (prec - digits a)) by (apply Z.pow_pos_nonneg; lia). unfold digits in *.
  replace (2 ^ (prec - 1)) with (2 ^ Z.log2 a * 2 ^ (prec - (Z.log2 a + 1))) by (rewrite <- Z.pow_add_r by lia; f_equal; lia).
  replace (2 ^ prec) with (2 ^ Z.succ (Z.log2 a) * 2 ^ (prec - (Z.log2 a + 1))) by (rewrite <- Z.pow_add_r by lia; f_equal; lia).
  split; [apply Z.mul_le_mono_nonneg_r|apply Z.mul_lt_mono_pos_r]; lia.
Qed.

(** A mantissa of [prec + j] digits is shifted by [j] places. *)
Lemma shr_fexp_exact m e j : 2 ^ (prec - 1) ≤ m < 2 ^ prec → 0 ≤ j → 3 - emax - prec ≤ e →
  shr_fexp prec emax (m * 2 ^ j) e loc_Exact = ({| shr_m := m; shr_r := false; shr_s := false |}, e + j).
Proof.
  intros Hm Hj He. assert (Hp1 : 0 < 2 ^ (prec - 1)) by (apply Z.pow_pos_nonneg; lia).
  assert (Hp : 0 < m * 2 ^ j) by (apply Z.mul_pos_pos; [lia|apply Z.pow_pos_nonneg; lia]).
  assert (Hd : digits m = prec - 1 + 1) by (apply digits_bounds; [lia|lia|by rewrite Z.sub_add]).
  unfold shr_fexp. cbn [shr_record_of_loc]. rewrite zdigits, digits_shift, Hd by lia.
  replace (fexp prec emax (prec - 1 + 1 + j + e) - e) with j by (unfold fexp, emin; lia). by apply shr_by; lia.
Qed.
(** Rounding a number that has no more digits than fit is exact: the mantissa of
    [a] times a power of two, at exponent [e]. *)
Lemma norm_round_aux a k e : fits_in a → 0 ≤ k → e + k = digits a - prec → 3 - emax - prec ≤ e →
  binary_round_aux prec emax false (a * 2 ^ (prec - digits a) * 2 ^ k) e loc_Exact = norm a.
Proof.
  intros Ha Hk He Hmin. pose proof (fits_in_digits a Ha) as Hd. pose proof (norm_bounds a Ha) as Hm.
  set (m := a * 2 ^ (prec - digits a)) in *. assert (Hp1 : 0 < 2 ^ (prec - 1)) by (apply Z.pow_pos_nonneg; lia).
  unfold binary_round_aux. rewrite (shr_fexp_exact m e k) by done. cbn [shr_m loc_of_shr_record round_nearest_even].
  pose proof (shr_fexp_exact m (e + k) 0 Hm) as H0. rewrite Z.pow_0_r, Z.mul_1_r in H0. rewrite H0 by lia. cbn [shr_m].
  unfold norm. fold m. destruct m as [|p|p]; [lia| |lia]. rewrite (proj2 (Z.leb_le _ _)) by lia. f_equal. lia.
Qed.
Lemma norm_exact a k : fits_in a → 0 ≤ k ≤ prec - 1 → binary_normalize prec emax (a * 2 ^ k) (- k) false = norm a.
Proof.
  intros Ha Hk. pose proof (fits_in_digits a Ha) as Hd. destruct Ha as [H0 H1].
  assert (Hp : 0 < a * 2 ^ k) by (apply Z.mul_pos_pos; [lia|apply Z.pow_pos_nonneg; lia]).
  destruct (a * 2 ^ k) as [|p|p] eqn:Hak; [lia| |lia]. cbn [binary_normalize]. unfold binary_round.
  rewrite digits2_log2, <- Hak. fold (digits (a * 2 ^ k)). rewrite digits_shift by lia.
  replace (fexp prec emax (digits a + k + - k)) with (digits a - prec) by (unfold fexp, emin; lia).
  unfold shl_align. destruct (digits a - prec - - k) as [|d|d] eqn:Hs.
  - replace (Z.pos p) with (a * 2 ^ (prec - digits a) * 2 ^ 0) by (rewrite <- Hak, Z.mul_1_r; do 2 f_equal; lia).
    apply norm_round_aux; [done|lia..].
  - replace (Z.pos p) with (a * 2 ^ (prec - digits a) * 2 ^ (Z.pos d)); [apply norm_round_aux; [done|lia..]|].
    rewrite <- Hak, <- Z.mul_assoc, <- Z.pow_add_r by lia. do 2 f_equal. lia.
  - rewrite iter_xO, <- Hak, <- Z.mul_assoc, <- Z.pow_add_r by lia.
    replace (a * 2 ^ (k + Z.pos d)) with (a * 2 ^ (prec - digits a) * 2 ^ 0) by (rewrite Z.mul_1_r; do 2 f_equal; lia).
    apply norm_round_aux; [done|lia..].
Qed.
Lemma norm_int a : fits_in a → binary_normalize prec emax a 0 false = norm a.
Proof. intros Ha. pose proof (norm_exact a 0 Ha ltac:(lia)) as H. by rewrite Z.mul_1_r in H. Qed.

(** * What a rounded number looks like *)

(** Of [prec] digits, or fewer at the least exponent. *)
Definition reduced_form (m e : Z) : Prop :=
  (2 ^ (prec - 1) ≤ m < 2 ^ prec ∧ 3 - emax - prec ≤ e) ∨ (0 ≤ m < 2 ^ (prec - 1) ∧ e = 3 - emax - prec).
Definition valid (x : spec_float) : Prop :=
  match x with S754_finite _ m e => reduced_form (Z.pos m) e ∧ e ≤ emax - prec | _ => True end.
Lemma shr_fexp_shifted m e : 0 ≤ m → e ≤ fexp prec emax (Zdigits2 m + e) →
  shifted m (Z.to_nat (fexp prec emax (Zdigits2 m + e) - e)) (shr_fexp prec emax m e loc_Exact).1 ∧
  (shr_fexp prec emax m e loc_Exact).2 = fexp prec emax (Zdigits2 m + e).
Proof.
  intros Hm He. unfold shr_fexp. cbn [shr_record_of_loc]. set (f := fexp _ _ _) in *.
  destruct (f - e) as [|n|n] eqn:Hn; [|clear He|lia]; cbn [shr fst snd].
  - split; [by apply (shifts m 0)|lia].
  - rewrite iter_pos_nat. split; [by apply (shifts m (Pos.to_nat n))|lia].
Qed.
Lemma shr_fexp_reduced m e : 0 ≤ m → e ≤ fexp prec emax (Zdigits2 m + e) →
  reduced_form (shr_m (shr_fexp prec emax m e loc_Exact).1) (shr_fexp prec emax m e loc_Exact).2.
Proof.
  intros Hm He. destruct (shr_fexp_shifted m e Hm He) as [(Hq & _) ->]. rewrite Hq, Z2Nat.id by lia. clear Hq.
  assert (Hp1 : 0 < 2 ^ (prec - 1)) by (apply Z.pow_pos_nonneg; lia).
  destruct (decide (m = 0)) as [->|Hm0].
  { rewrite Z.div_0_l by (apply Z.pow_nonzero; unfold fexp, emin in *; lia). right. cbn [Zdigits2] in *. unfold fexp, emin in *. lia. }
  rewrite zdigits in * by lia. pose proof (Z.log2_spec m ltac:(lia)) as [Hl Hu]. unfold digits in *.
  pose proof (Z.log2_nonneg m). set (d := Z.log2 m) in *. unfold fexp, emin in *. set (n := Z.max _ _ - e) in *.
  assert (Hpn : 0 < 2 ^ n) by (apply Z.pow_pos_nonneg; lia).
  destruct (Z.max_spec (d + 1 + e - prec) (3 - emax - prec)) as [[Hc Hx]|[Hc Hx]]; rewrite Hx.
  - right. split; [|done]. split; [apply Z.div_pos; lia|]. apply Z.div_lt_upper_bound; [done|]. rewrite <- Z.pow_add_r by lia.
    apply Z.lt_le_trans with (2 ^ Z.succ d); [done|]. apply Z.pow_le_mono_r; lia.
  - left. split; [|lia]. replace n with (d + 1 - prec) in * by lia. split.
    + apply Z.div_le_lower_bound; [done|]. rewrite <- Z.pow_add_r by lia. by replace (d + 1 - prec + (prec - 1)) with d by lia.
    + apply Z.div_lt_upper_bound; [done|]. rewrite <- Z.pow_add_r by lia. by replace (d + 1 - prec + prec) with (Z.succ d) by lia.
Qed.
Lemma round_step q l : round_nearest_even q l = q ∨ round_nearest_even q l = q + 1.
Proof. destruct l as [|[]]; cbn; [by left|destruct (Z.even q); auto|by left|by right]. Qed.

(** Rounding up keeps the form, or needs one more shift. *)
Lemma shr_fexp_again m e : reduced_form m e ∨ (m = 2 ^ prec ∧ 3 - emax - prec ≤ e) →
  reduced_form (shr_m (shr_fexp prec emax m e loc_Exact).1) (shr_fexp prec emax m e loc_Exact).2.
Proof.
  assert (Hp1 : 0 < 2 ^ (prec - 1)) by (apply Z.pow_pos_nonneg; lia).
  assert (Hp2 : 2 ^ prec = 2 * 2 ^ (prec - 1)) by (rewrite <- Z.pow_succ_r by lia; f_equal; lia).
  intros Hf. apply shr_fexp_reduced; [unfold reduced_form in *; lia|]. unfold fexp, emin.
  destruct Hf as [[[Hm He]|[Hm ->]]|[-> He]]; [|lia|].
  - rewrite zdigits, (digits_bounds m (prec - 1)); [lia|lia|lia|by rewrite Z.sub_add|lia].
  - rewrite zdigits by lia. unfold digits. rewrite Z.log2_pow2 by lia. lia.
Qed.
Lemma round_aux_valid s m e : 0 ≤ m → e ≤ fexp prec emax (Zdigits2 m + e) →
  valid (binary_round_aux prec emax s m e loc_Exact).
Proof.
  intros Hm He. pose proof (shr_fexp_reduced m e Hm He) as Hr. unfold binary_round_aux.
  destruct (shr_fexp prec emax m e loc_Exact) as [r e1]. cbn [fst snd] in Hr.
  assert (Hp2 : 2 ^ prec = 2 * 2 ^ (prec - 1)) by (rewrite <- Z.pow_succ_r by lia; f_equal; lia).
  assert (Hq : reduced_form (round_nearest_even (shr_m r) (loc_of_shr_record r)) e1 ∨
    (round_nearest_even (shr_m r) (loc_of_shr_record r) = 2 ^ prec ∧ 3 - emax - prec ≤ e1)).
  { destruct (round_step (shr_m r) (loc_of_shr_record r)) as [-> | ->]; [by left|]. unfold reduced_form in *. lia. }
  pose proof (shr_fexp_again _ _ Hq) as Hr2. destruct (shr_fexp prec emax (round_nearest_even _ _) e1 loc_Exact) as [r2 e2].
  cbn [fst snd] in Hr2. destruct (shr_m r2) as [|p|p]; [done| |done].
  destruct (Z.leb_spec e2 (emax - prec)); [by split|done].
Qed.
Lemma round_valid s m e : valid (binary_round prec emax s m e).
Proof.
  unfold binary_round. rewrite digits2_log2. fold (digits (Z.pos m)).
  set (f := fexp prec emax (digits (Z.pos m) + e)).
  assert (Hmono : ∀ k, k ≤ f → fexp prec emax (digits (Z.pos m) + (e - k) + k) = f) by (intros; unfold f; f_equal; lia).
  unfold shl_align. destruct (f - e) as [|d|d] eqn:Hd.
  - apply round_aux_valid; [lia|]. rewrite zdigits by lia. fold f. lia.
  - apply round_aux_valid; [lia|]. rewrite zdigits by lia. fold f. lia.
  - apply round_aux_valid; [lia|]. rewrite iter_xO, zdigits by lia. rewrite digits_shift by lia.
    replace (Z.pos d) with (e - f) by lia. rewrite Hmono by lia. lia.
Qed.
Lemma normalize_valid m e s : valid (binary_normalize prec emax m e s).
Proof. destruct m; cbn [binary_normalize]; [done|apply round_valid..]. Qed.
Lemma add_valid x y : valid x → valid y → valid (SFadd prec emax x y).
Proof.
  intros Hx Hy. destruct x as [[]|[]| |[]], y as [[]|[]| |[]]; try done; cbn [SFadd]; try apply normalize_valid; done.
Qed.

(** * Rounding to nearest *)

(** A longer mantissa is off by at most half of the last place kept. *)
Lemma round_near m e s : 2 ^ (prec - 1) * 2 ^ s ≤ m < 2 ^ prec * 2 ^ s → 1 ≤ s → 3 - emax - prec ≤ e → e + s < emax - prec →
  ∃ p k, binary_round_aux prec emax false m e loc_Exact = S754_finite false p (e + s + k) ∧ 0 ≤ k ≤ 1 ∧
    Z.abs (2 * (Z.pos p * 2 ^ k * 2 ^ s) - 2 * m) ≤ 2 ^ s.
Proof.
  intros Hm Hs Hmin Hmax. assert (Hp1 : 0 < 2 ^ (prec - 1)) by (apply Z.pow_pos_nonneg; lia).
  assert (Hps : 0 < 2 ^ s) by (apply Z.pow_pos_nonneg; lia). assert (Hm0 : 0 < m) by lia.
  assert (Hp2 : 2 ^ prec = 2 * 2 ^ (prec - 1)) by (rewrite <- Z.pow_succ_r by lia; f_equal; lia).
  assert (Hd : digits m = prec - 1 + s + 1).
  { apply digits_bounds; [lia..|]. rewrite <- Z.add_assoc, (Z.add_comm s), Z.add_assoc, Z.sub_add, !Z.pow_add_r by lia. done. }
  unfold binary_round_aux, shr_fexp at 1. cbn [shr_record_of_loc]. rewrite zdigits, Hd by done.
  replace (fexp prec emax (prec - 1 + s + 1 + e) - e) with s by (unfold fexp, emin; lia).
  destruct s as [|s|s]; [lia| |lia]. cbn [shr]. rewrite iter_pos_nat.
  pose proof (shifts m (Pos.to_nat s) ltac:(lia)) as Hsh. unfold shifted in Hsh. rewrite positive_nat_Z in Hsh.
  destruct (Nat.iter _ shr_1 _) as [q r st]. cbn [shr_m shr_r shr_s] in *. destruct Hsh as (Hq & _ & Hr1 & Hr0 & Hst).
  pose proof (Z.div_mod m (2 ^ Z.pos s) ltac:(lia)) as Hdm. rewrite <- Hq in Hdm.
  pose proof (Z.mod_pos_bound m (2 ^ Z.pos s) ltac:(lia)) as Hmb.
  set (q' := round_nearest_even q _).
  assert (Hnear : (q' = q ∨ q' = q + 1) ∧ Z.abs (2 * (q' * 2 ^ Z.pos s) - 2 * m) ≤ 2 ^ Z.pos s).
  { unfold q'. cbn [loc_of_shr_record].
    destruct r, st; cbn [round_nearest_even]; try destruct (Z.even q); (split; [lia|]); nia. }
  destruct Hnear as [Hq' Hnear]. assert (Hqb : 2 ^ (prec - 1) ≤ q < 2 ^ prec) by nia.
  destruct (decide (q' = 2 ^ prec)) as [Hov|Hov].
  - exists (Z.to_pos (2 ^ (prec - 1))), 1. rewrite Hov, Hp2, Z.mul_comm.
    rewrite (shr_fexp_exact (2 ^ (prec - 1)) _ 1) by lia. cbn [shr_m]. rewrite Z2Pos.id by lia.
    split; [|split; [lia|rewrite Hov, Hp2 in Hnear; nia]].
    destruct (2 ^ (prec - 1)); [lia| |lia]. rewrite (proj2 (Z.leb_le _ _)) by lia. done.
  - exists (Z.to_pos q'), 0. assert (Hq2 : 2 ^ (prec - 1) ≤ q' < 2 ^ prec) by lia.
    pose proof (shr_fexp_exact q' (e + Z.pos s) 0 Hq2) as H0. rewrite Z.pow_0_r, Z.mul_1_r in H0. rewrite H0 by lia.
    cbn [shr_m]. rewrite Z2Pos.id, Z.pow_0_r, Z.mul_1_r by lia. split; [|split; [lia|done]].
    destruct q'; [lia| |lia]. rewrite (proj2 (Z.leb_le _ _)) by lia. done.
Qed.
End format.

(** * The index of the 99th percentile *)

Lemma quotient_bounds n d q : 0 < d → q * d ≤ n < (q + 1) * d → n / d = q.
Proof. intros Hd Hb. symmetry. apply (Z.div_unique n d q (n - q * d)); [left; lia|lia]. Qed.
(** With [D] the mantissa of 0.99, [P] the scale of [k]'s mantissa and [S] the
    last place kept of the product, the rounded product [V] lies in the unit above
    the integer quotient. *)
Lemma p99_unit k P S V j : 0 < k < 2 ^ 31 → 2 ^ 22 ≤ P → k * P < 2 ^ 53 → 2 ^ 52 ≤ S ≤ 2 ^ 53 → 2 ^ 53 = S * j →
  (∃ w, V = w * S) → Z.abs (2 * V - 2 * (k * P * 8917127262193582)) ≤ S →
  k * 99 / 100 * (P * 2 ^ 53) ≤ V < (k * 99 / 100 + 1) * (P * 2 ^ 53).
Proof.
  intros Hk HP HkP HS Hj [w Hw] Hn. pose proof (Z.div_mod (k * 99) 100 ltac:(lia)) as Hdm.
  pose proof (Z.mod_pos_bound (k * 99) 100 ltac:(lia)) as Hb. set (q := k * 99 / 100) in *. set (r := (k * 99) mod 100) in *.
  assert (Hprod : 100 * (k * P * 8917127262193582) = 100 * (q * (P * 2 ^ 53)) + r * (P * 2 ^ 53) - 8 * (k * P)) by nia.
  assert (HPS : 2 ^ 22 * 2 ^ 53 ≤ P * 2 ^ 53) by lia. set (PP := P * 2 ^ 53) in *. set (kP := k * P) in *.
  split; [|nia]. destruct (decide (r = 0)) as [Hr|Hr]; [|nia].
  assert (HPj : PP = P * j * S) by (unfold PP; rewrite Hj; ring). apply Z.nlt_ge. intros Hlt.
  assert (Hlt' : w < q * (P * j)) by (rewrite HPj, Hw in Hlt; nia).
  assert (V ≤ q * PP - S) by (rewrite HPj, Hw; nia). lia.
Qed.
(** [(int)(k * 0.99)] is [k * 99 / 100]: the product is rounded by less than the
    hundredth that separates it from the next integer, and a multiple of 100 is
    rounded to the exact product. *)
Lemma p99_product k : 0 ≤ k < 2 ^ 31 → trunc (dmul (dbl k) d099) = k * 99 / 100.
Proof.
  intros Hk. destruct (decide (k = 0)) as [->|Hk0]; [by vm_compute|].
  assert (Hf : fits_in 53 k) by (unfold fits_in; lia). assert (Hd : 1 ≤ digits k ≤ 31) by (apply digits_range; lia).
  pose proof (norm_bounds 53 k Hf) as Hn. unfold dbl. rewrite (norm_int 53 1024) by (done || lia).
  replace d099 with (S754_finite false 8917127262193582 (-53)) by (by vm_compute).
  unfold dmul, norm. cbn [SFmul xorb]. rewrite Pos2Z.inj_mul, Z2Pos.id by lia.
  assert (Hkp : k < 2 ^ digits k) by (unfold digits; rewrite Z.add_1_r; apply Z.log2_spec; lia).
  set (P := 2 ^ (53 - digits k)) in *.
  assert (HP : 2 ^ 22 ≤ P) by (apply Z.pow_le_mono_r; lia).
  assert (Hs : ∃ s, (s = 52 ∨ s = 53) ∧ 2 ^ (53 - 1) * 2 ^ s ≤ k * P * 8917127262193582 < 2 ^ 53 * 2 ^ s).
  { destruct (decide (k * P * 8917127262193582 < 2 ^ 53 * 2 ^ 52)); [exists 52|exists 53]; lia. }
  destruct Hs as (s & Hs & Hb).
  destruct (round_near 53 1024 ltac:(lia) ltac:(lia) (k * P * 8917127262193582) (digits k - 53 + -53) s Hb ltac:(lia) ltac:(lia) ltac:(lia))
    as (p & c & -> & Hc & Hnear).
  cbn [trunc cond_Zopp]. rewrite (proj2 (Z.leb_gt 0 _)) by lia. apply quotient_bounds; [apply Z.pow_pos_nonneg; lia|].
  assert (Hpow : P * 2 ^ 53 = 2 ^ (- (digits k - 53 + -53 + s + c)) * (2 ^ c * 2 ^ s)).
  { unfold P. rewrite <- !Z.pow_add_r by lia. f_equal. lia. }
  assert (Hpc : 0 < 2 ^ c * 2 ^ s) by (apply Z.mul_pos_pos; apply Z.pow_pos_nonneg; lia).
  destruct (p99_unit k P (2 ^ s) (Z.pos p * 2 ^ c * 2 ^ s) (2 ^ (53 - s)) ltac:(lia) HP ltac:(lia)) as [Hlo Hhi];
    [split; apply Z.pow_le_mono_r; lia|rewrite <- Z.pow_add_r by lia; f_equal; lia|by eexists|exact Hnear|].
  rewrite Hpow in Hlo, Hhi. split; nia.
Qed.
