(* ===== verification/BenchUtils.v ===== *)
(** [bench_utils.h] and [timing.h]: clocks and the statistics of a sorted sample. *)
From stdpp Require Import sorting.
From S2P Require Import Prelude Prog Sys Double.

Definition kWarmup : Z := 20.

(** [tv_sec * 1000000000 + tv_nsec] of the monotonic clock is the answer of
    [c_clock]. *)
Definition time_now_ns : sysM Z := sys c_clock.
Definition time_elapsed_ns (start fin : Z) : Z := if start <? fin then fin - start else 0.

Definition cmp_u64 (x y : Z) : Z := Z.b2z (y <? x) - Z.b2z (x <? y).

(** [qsort] with [cmp_u64], and [std::sort]. *)
#[export] Instance Z_le_decision : RelDecision Z.le := Z.le_dec.
Definition sort_u64 (l : list Z) : list Z := merge_sort Z.le l.

(** The picked samples in nanoseconds, which the source then divides by 1000 as
    doubles; the index of the 99th percentile is [(int)((n - 1) * 0.99)]. *)
Record lat_stats := mkLatStats { min_ns : Z; median_ns : Z; p99_ns : Z; max_ns : Z }.
Definition at_ (l : list Z) (i : Z) : Z := nth (Z.to_nat i) l 0.
Definition p99_index (n : Z) : Z := trunc (dmul (dbl (n - 1)) d099).
Definition latency_stats (samples : list Z) (n : Z) : lat_stats :=
  if n <=? 0 then mkLatStats 0 0 0 0
  else mkLatStats (at_ samples 0) (at_ samples ((n - 1) / 2)) (at_ samples (p99_index n)) (at_ samples (n - 1)).

(** Of an [int] it is the quotient of the integers. *)
Lemma p99_quotient n : 0 < n < 2 ^ 31 → p99_index n = (n - 1) * 99 / 100.
Proof. intros Hn. apply p99_product. lia. Qed.
Lemma cmp_u64_spec x y : (cmp_u64 x y < 0 ↔ x < y) ∧ (cmp_u64 x y = 0 ↔ x = y) ∧ (0 < cmp_u64 x y ↔ y < x).
Proof. unfold cmp_u64. destruct (Z.ltb_spec y x), (Z.ltb_spec x y); cbn; lia. Qed.
Lemma at_le (l : list Z) i j :
  StronglySorted Z.le l → 0 ≤ i ≤ j → j < Z.of_nat (length l) → at_ l i ≤ at_ l j.
Proof.
  intros Hs Hij Hj. unfold at_.
  destruct (lookup_lt_is_Some_2 l (Z.to_nat i)) as [x Hx]; [lia|].
  destruct (lookup_lt_is_Some_2 l (Z.to_nat j)) as [y Hy]; [lia|].
  rewrite (nth_lookup_Some _ _ 0 _ Hx), (nth_lookup_Some _ _ 0 _ Hy).
  destruct (decide (i = j)) as [->|]; [rewrite Hx in Hy; injection Hy as ->; lia|].
  rewrite <- (take_drop (Z.to_nat j) l) in Hs. apply (StronglySorted_app_1_elem_of Z.le _ _ x y Hs).
  - apply (list_elem_of_lookup_2 _ (Z.to_nat i)). rewrite lookup_take_lt; [done|lia].
  - apply (list_elem_of_lookup_2 _ 0). by rewrite lookup_drop, Nat.add_0_r.
Qed.
(** * Order statistics *)

(** How many of [l] are below [v], and how many are at most [v]. *)
Definition below (v : Z) (l : list Z) : Z := Z.of_nat (length (filter (fun x => x < v) l)).
Definition upto (v : Z) (l : list Z) : Z := Z.of_nat (length (filter (fun x => x ≤ v) l)).
(** The [k]-th smallest (from 0) of [l]: one of them, with at most [k] below it
    and more than [k] not above it. This says nothing of how it is found. *)
Definition kth (l : list Z) (k v : Z) : Prop := v ∈ l ∧ below v l ≤ k < upto v l.

Lemma upto_below (v w : Z) l : v < w → upto v l ≤ below w l.
Proof.
  intros Hvw. unfold upto, below. induction l as [|x l IH]; [done|]. rewrite !filter_cons.
  repeat case_decide; cbn [length]; lia.
Qed.
Lemma kth_unique l k v w : kth l k v → kth l k w → v = w.
Proof.
  intros [_ Hv] [_ Hw]. destruct (Z.lt_trichotomy v w) as [H|[H|H]]; [|done|]; apply (upto_below _ _ l) in H; lia.
Qed.
Lemma kth_perm l l' k v : l ≡ₚ l' → kth l k v → kth l' k v.
Proof. intros Hp. unfold kth, below, upto. by rewrite Hp. Qed.
(** The first and the last bound the others. *)
Lemma kth_first l v : kth l 0 v → Forall (fun x => v ≤ x) l.
Proof.
  intros [_ [Hv _]]. apply Forall_forall. intros x Hx. destruct (Z.le_gt_cases v x) as [|Hlt]; [done|].
  assert (x ∈ filter (fun x => x < v) l) as Hin by (by apply list_elem_of_filter).
  unfold below in Hv. destruct (filter _ l); [by apply not_elem_of_nil in Hin|cbn in Hv; lia].
Qed.
Lemma upto_app v l l' : upto v (l ++ l') = upto v l + upto v l'.
Proof. unfold upto. rewrite filter_app, length_app. lia. Qed.
Lemma below_app v l l' : below v (l ++ l') = below v l + below v l'.
Proof. unfold below. rewrite filter_app, length_app. lia. Qed.
Lemma upto_all v l : Forall (fun x => x ≤ v) l → upto v l = Z.of_nat (length l).
Proof. unfold upto. induction 1 as [|x l Hx _ IH]; [done|]. rewrite filter_cons_True by done. cbn [length]. lia. Qed.
Lemma upto_le_length v l : upto v l ≤ Z.of_nat (length l).
Proof. unfold upto. pose proof (length_filter (fun x => x ≤ v) l). lia. Qed.
Lemma below_none v l : Forall (fun x => v ≤ x) l → below v l = 0.
Proof. unfold below. induction 1 as [|x l Hx _ IH]; [done|]. rewrite filter_cons_False by lia. done. Qed.
Lemma below_le_length v l : below v l ≤ Z.of_nat (length l).
Proof. unfold below. pose proof (length_filter (fun x => x < v) l). lia. Qed.
Lemma kth_last l v : kth l (Z.of_nat (length l) - 1) v → Forall (fun x => x ≤ v) l.
Proof.
  intros [_ [_ Hv]]. apply Forall_forall. intros x Hx. destruct (Z.le_gt_cases x v) as [|Hlt]; [done|].
  apply list_elem_of_split in Hx as (l1 & l2 & ->). rewrite upto_app in Hv. change (x :: l2) with ([x] ++ l2) in Hv.
  rewrite upto_app, !length_app in Hv. pose proof (upto_le_length v l1). pose proof (upto_le_length v l2).
  unfold upto at 2 in Hv. rewrite filter_cons_False in Hv by lia. cbn in Hv. lia.
Qed.

(** A sorted array holds its [k]-th smallest at [k]. *)
Lemma sorted_kth (l : list Z) k :
  StronglySorted Z.le l → 0 ≤ k < Z.of_nat (length l) → kth l k (at_ l k).
Proof.
  intros Hs Hk. destruct (lookup_lt_is_Some_2 l (Z.to_nat k)) as [v Hv]; [lia|].
  assert (Hat : at_ l k = v) by (unfold at_; by apply nth_lookup_Some).
  assert (Hget : ∀ i x, l !! i = Some x → at_ l (Z.of_nat i) = x).
  { intros i x Hx. unfold at_. rewrite Nat2Z.id. by apply nth_lookup_Some. }
  rewrite Hat. split; [by apply (list_elem_of_lookup_2 l (Z.to_nat k))|].
  assert (Hlo : Forall (fun x => x ≤ v) (take (S (Z.to_nat k)) l)).
  { apply Forall_lookup. intros i x [Hx Hi]%lookup_take_Some. rewrite <- (Hget i x Hx), <- Hat. apply at_le; [done|lia..]. }
  assert (Hhi : Forall (fun x => v ≤ x) (drop (Z.to_nat k) l)).
  { apply Forall_lookup. intros i x Hx. rewrite lookup_drop in Hx. pose proof (lookup_lt_Some _ _ _ Hx).
    rewrite <- (Hget _ x Hx), <- Hat. apply at_le; [done|lia..]. }
  split.
  - rewrite <- (take_drop (Z.to_nat k) l), below_app, (below_none _ _ Hhi).
    pose proof (below_le_length v (take (Z.to_nat k) l)). rewrite length_take in *. lia.
  - rewrite <- (take_drop (S (Z.to_nat k)) l), upto_app, (upto_all _ _ Hlo), length_take. unfold upto. lia.
Qed.
Lemma sorted_sample (samples : list Z) k : 0 ≤ k < Z.of_nat (length samples) → kth samples k (at_ (sort_u64 samples) k).
Proof.
  intros Hk. pose proof (merge_sort_Permutation Z.le samples) as Hp. fold (sort_u64 samples) in Hp.
  apply (kth_perm _ _ _ _ Hp). apply sorted_kth; [apply (StronglySorted_merge_sort Z.le); apply _|by rewrite Hp].
Qed.
Lemma kth_mono l i j v w : i ≤ j → kth l i v → kth l j w → v ≤ w.
Proof.
  intros Hij [_ Hv] [_ Hw]. destruct (Z.le_gt_cases v w) as [|Hlt]; [done|]. apply (upto_below _ _ l) in Hlt. lia.
Qed.
Lemma percentile_index n : 0 < n → 0 ≤ (n - 1) / 2 ≤ (n - 1) * 99 / 100 ∧ (n - 1) * 99 / 100 ≤ n - 1.
Proof.
  intros Hn. split; [split; [apply Z.div_pos; lia|]|apply Z.div_le_upper_bound; lia].
  assert ((n - 1) / 2 = (n - 1) * 50 / 100) as ->.
  { replace 100 with (2 * 50) by lia. by rewrite Z.div_mul_cancel_r by lia. }
  apply Z.div_le_mono; lia.
Qed.

(** C27. Each statistic of a run of [n] samples is one order statistic of them,
    and no other value is: over the sorted samples, the minimum is the smallest,
    the median the [(n - 1) / 2]-th, the p99 the [99 (n - 1) / 100]-th (the 98th,
    from 0, of a hundred samples, and not the maximum), and the maximum the last.
    So the four are in order, the extremes bound every sample, and at least 99
    samples in a hundred are no more than the reported p99. *)
Theorem latency_stats_order (samples : list Z) (n : Z) :
  n = Z.of_nat (length samples) → 0 < n < 2 ^ 31 →
  let s := latency_stats (sort_u64 samples) n in
  (∀ v, kth samples 0 v ↔ v = min_ns s) ∧
  (∀ v, kth samples ((n - 1) / 2) v ↔ v = median_ns s) ∧
  (∀ v, kth samples ((n - 1) * 99 / 100) v ↔ v = p99_ns s) ∧
  (∀ v, kth samples (n - 1) v ↔ v = max_ns s) ∧
  (n = 100 → ∀ v, kth samples 98 v ↔ v = p99_ns s) ∧
  (min_ns s ≤ median_ns s ∧ median_ns s ≤ p99_ns s ∧ p99_ns s ≤ max_ns s) ∧
  Forall (fun x => min_ns s ≤ x ≤ max_ns s) samples ∧
  99 * (n - 1) ≤ 100 * upto (p99_ns s) samples.
Proof.
  intros Hn Hpos. unfold latency_stats. rewrite (proj2 (Z.leb_gt n 0)) by lia. cbn [min_ns median_ns p99_ns max_ns].
  rewrite p99_quotient by done. pose proof (percentile_index n ltac:(lia)) as [[Hm0 Hm1] Hp].
  assert (H : ∀ k, 0 ≤ k < n → ∀ v, kth samples k v ↔ v = at_ (sort_u64 samples) k).
  { intros k Hk v. split; [|intros ->]; [|apply sorted_sample; lia].
    intros Hv. apply (kth_unique _ _ _ _ Hv). apply sorted_sample. lia. }
  assert (Hin : ∀ k, 0 ≤ k < n → kth samples k (at_ (sort_u64 samples) k)) by (intros k Hk; by apply H).
  split_and!; try (apply H; lia); try (eapply kth_mono; [|apply Hin; lia..]; lia).
  - intros ->. apply (H 98). lia.
  - apply Forall_and. split; [apply kth_first, Hin; lia|]. apply kth_last. rewrite <- Hn. apply Hin. lia.
  - destruct (Hin ((n - 1) * 99 / 100)) as [_ [_ Hc]]; [lia|]. pose proof (Z.div_mod ((n - 1) * 99) 100 ltac:(lia)).
    pose proof (Z.mod_pos_bound ((n - 1) * 99) 100 ltac:(lia)). lia.
Qed.
(** Of 5, 1, 9 and 3 the median is 3 and the p99 is 5. *)
Lemma latency_stats_order_witness :
  let s := latency_stats (sort_u64 [5; 1; 9; 3]) 4 in
  kth [5; 1; 9; 3] 1 (median_ns s) ∧ kth [5; 1; 9; 3] 2 (p99_ns s) ∧ s = mkLatStats 1 3 5 9.
Proof.
  destruct (latency_stats_order [5; 1; 9; 3] 4 eq_refl ltac:(split; reflexivity)) as (_ & H2 & H3 & _).
  split; [by apply H2|]. split; [by apply H3|vm_compute; reflexivity].
Defined.
