(* ===== verification/RdmaCommon.v ===== *)
(** Phase 1, [rdma_common.h]: the connection record exchanged out of band and
    its wire image, the registered region and the queue-pair object. *)
From stdpp Require Import strings.
From S2P Require Import Prelude Prog Sys.

Definition RAI_QP_MAX_WR : Z := 128.
Definition RAI_MAX_INLINE : Z := 220.

Inductive rai_conn_mode := RAI_CONN_CM | RAI_CONN_VERBS.

(** [rai_conn_info_t]; a GID is its 16 raw bytes. *)
Record rai_conn_info := mkConnInfo { ci_addr : Z; ci_gid : list Z; ci_rkey : Z; ci_qpn : Z; ci_psn : Z }.
Definition conn_info0 : rai_conn_info := mkConnInfo 0 (replicate 16 0) 0 0 0.

(** [rai_mr_t]; [mr_mr] is the [struct ibv_mr] behind the pointer, None for NULL. *)
Record rai_mr := mkRaiMr { mr_mr : option ibv_mr; mr_buf : Z; mr_size : Z; mr_owns_buf : Z }.
Definition rai_mr0 : rai_mr := mkRaiMr None 0 0 0.

(** [rai_qp_t]. *)
Record rai_qp := mkRaiQp {
  qp_ctx : Z; qp_pd : Z; qp_cq : Z; qp_qp : Z; qp_mode : rai_conn_mode; qp_cm_id : Z; qp_ec : Z;
  qp_port_num : Z; qp_gid_index : Z; qp_max_inline : Z;
  qp_local : rai_conn_info; qp_remote : rai_conn_info }.
(** What [memset (qp, 0, sizeof ( *qp))] leaves: [RAI_CONN_CM] is 0. *)
Definition rai_qp0 : rai_qp := mkRaiQp 0 0 0 0 RAI_CONN_CM 0 0 0 0 0 conn_info0 conn_info0.

(** Assignments to one field. *)
Definition set_ctx v q := mkRaiQp v (qp_pd q) (qp_cq q) (qp_qp q) (qp_mode q) (qp_cm_id q) (qp_ec q)
  (qp_port_num q) (qp_gid_index q) (qp_max_inline q) (qp_local q) (qp_remote q).
Definition set_pd v q := mkRaiQp (qp_ctx q) v (qp_cq q) (qp_qp q) (qp_mode q) (qp_cm_id q) (qp_ec q)
  (qp_port_num q) (qp_gid_index q) (qp_max_inline q) (qp_local q) (qp_remote q).
Definition set_cq v q := mkRaiQp (qp_ctx q) (qp_pd q) v (qp_qp q) (qp_mode q) (qp_cm_id q) (qp_ec q)
  (qp_port_num q) (qp_gid_index q) (qp_max_inline q) (qp_local q) (qp_remote q).
Definition set_qp v q := mkRaiQp (qp_ctx q) (qp_pd q) (qp_cq q) v (qp_mode q) (qp_cm_id q) (qp_ec q)
  (qp_port_num q) (qp_gid_index q) (qp_max_inline q) (qp_local q) (qp_remote q).
Definition set_mode v q := mkRaiQp (qp_ctx q) (qp_pd q) (qp_cq q) (qp_qp q) v (qp_cm_id q) (qp_ec q)
  (qp_port_num q) (qp_gid_index q) (qp_max_inline q) (qp_local q) (qp_remote q).
Definition set_cm_id v q := mkRaiQp (qp_ctx q) (qp_pd q) (qp_cq q) (qp_qp q) (qp_mode q) v (qp_ec q)
  (qp_port_num q) (qp_gid_index q) (qp_max_inline q) (qp_local q) (qp_remote q).
Definition set_ec v q := mkRaiQp (qp_ctx q) (qp_pd q) (qp_cq q) (qp_qp q) (qp_mode q) (qp_cm_id q) v
  (qp_port_num q) (qp_gid_index q) (qp_max_inline q) (qp_local q) (qp_remote q).
Definition set_port_num v q := mkRaiQp (qp_ctx q) (qp_pd q) (qp_cq q) (qp_qp q) (qp_mode q) (qp_cm_id q)
  (qp_ec q) v (qp_gid_index q) (qp_max_inline q) (qp_local q) (qp_remote q).
Definition set_gid_index v q := mkRaiQp (qp_ctx q) (qp_pd q) (qp_cq q) (qp_qp q) (qp_mode q) (qp_cm_id q)
  (qp_ec q) (qp_port_num q) v (qp_max_inline q) (qp_local q) (qp_remote q).
Definition set_max_inline v q := mkRaiQp (qp_ctx q) (qp_pd q) (qp_cq q) (qp_qp q) (qp_mode q) (qp_cm_id q)
  (qp_ec q) (qp_port_num q) (qp_gid_index q) v (qp_local q) (qp_remote q).
Definition set_local v q := mkRaiQp (qp_ctx q) (qp_pd q) (qp_cq q) (qp_qp q) (qp_mode q) (qp_cm_id q)
  (qp_ec q) (qp_port_num q) (qp_gid_index q) (qp_max_inline q) v (qp_remote q).
Definition set_remote v q := mkRaiQp (qp_ctx q) (qp_pd q) (qp_cq q) (qp_qp q) (qp_mode q) (qp_cm_id q)
  (qp_ec q) (qp_port_num q) (qp_gid_index q) (qp_max_inline q) (qp_local q) v.

(** * The wire image of the connection record *)

(** The structure as it lies in memory on the little-endian targets the code is
    built for: 8 + 16 + 4 + 4 + 4 bytes of fields and, the structure being
    8-aligned, 4 bytes of tail padding; [sizeof] is 40. *)
Definition sizeof_conn_info : Z := 40.
Definition encode_info (i : rai_conn_info) : list Z :=
  le_bytes 8 (ci_addr i) ++ ci_gid i ++ le_bytes 4 (ci_rkey i) ++ le_bytes 4 (ci_qpn i) ++
  le_bytes 4 (ci_psn i) ++ replicate 4 0.
Definition decode_info (l : list Z) : rai_conn_info :=
  mkConnInfo (le_val (take 8 l)) (take 16 (drop 8 l)) (le_val (take 4 (drop 24 l)))
             (le_val (take 4 (drop 28 l))) (le_val (take 4 (drop 32 l))).

Record info_ok (i : rai_conn_info) : Prop := {
  io_addr : 0 ≤ ci_addr i < 2 ^ 64;
  io_gid : length (ci_gid i) = 16%nat;
  io_rkey : 0 ≤ ci_rkey i < 2 ^ 32;
  io_qpn : 0 ≤ ci_qpn i < 2 ^ 32;
  io_psn : 0 ≤ ci_psn i < 2 ^ 32;
}.

Lemma length_encode_info i : info_ok i → Z.of_nat (length (encode_info i)) = sizeof_conn_info.
Proof.
  intros [_ Hg _ _ _]. unfold encode_info. rewrite !length_app, !length_le_bytes, length_replicate, Hg. done.
Qed.
Lemma decode_encode_info i : info_ok i → decode_info (encode_info i) = i.
Proof.
  intros [Ha Hg Hr Hq Hp]. destruct i as [a g r q p]. unfold decode_info, encode_info.
  cbn [ci_addr ci_gid ci_rkey ci_qpn ci_psn] in *.
  assert (Hd : ∀ (l1 l2 : list Z) n, length l1 = n → take n (l1 ++ l2) = l1 ∧ drop n (l1 ++ l2) = l2).
  { intros l1 l2 n <-. split; [apply take_app_length|apply drop_app_length]. }
  set (A := le_bytes 8 a). set (R := le_bytes 4 r). set (Q := le_bytes 4 q). set (P := le_bytes 4 p).
  assert (H24 : ∀ t, drop 24 (A ++ g ++ t) = t).
  { intros t. rewrite app_assoc. apply Hd. rewrite length_app, Hg. done. }
  assert (H28 : ∀ t, drop 28 (A ++ g ++ R ++ t) = t).
  { intros t. rewrite !app_assoc. rewrite <- (app_assoc A g R). apply Hd. rewrite !length_app, Hg. done. }
  assert (H32 : ∀ t, drop 32 (A ++ g ++ R ++ Q ++ t) = t).
  { intros t. rewrite !app_assoc. apply Hd. rewrite !length_app, Hg. done. }
  rewrite H24, H28, H32. destruct (Hd A (g ++ R ++ Q ++ P ++ replicate 4 0) 8%nat) as [-> ->]; [done|].
  destruct (Hd g (R ++ Q ++ P ++ replicate 4 0) 16%nat Hg) as [-> _].
  destruct (Hd R (Q ++ P ++ replicate 4 0) 4%nat) as [-> _]; [done|].
  destruct (Hd Q (P ++ replicate 4 0) 4%nat) as [-> _]; [done|].
  destruct (Hd P (replicate 4 0) 4%nat) as [-> _]; [done|].
  unfold A, R, Q, P. by rewrite !le_val_bytes_small.
Qed.
(** The field bytes decide the record: the padding is never read. *)
Lemma decode_info_padding l l' : take 36 l = take 36 l' → decode_info l = decode_info l'.
Proof.
  intros He. unfold decode_info.
  assert (Hsub : ∀ n m, (n + m ≤ 36)%nat → take m (drop n l) = take m (drop n l')).
  { intros n m Hnm. rewrite !take_drop_commute.
    replace (take (n + m) l) with (take (n + m) (take 36 l)) by (rewrite take_take; f_equal; lia).
    rewrite He, take_take. do 2 f_equal. lia. }
  pose proof (Hsub 0%nat 8%nat) as H0. rewrite !drop_0 in H0.
  rewrite H0, !Hsub by lia. done.
Qed.
