(* ===== verification/Oob.v ===== *)
(** Phase 1, [rdma_oob_connect.c]: the TCP side channel that exchanges one
    connection record each way. *)
From stdpp Require Import strings.
From S2P Require Import Prelude Prog Sys RdmaCommon.

(** [while (sent < len) { n = send(...); if (n <= 0) return -1; sent += n; }]
    with fuel for one iteration per byte. *)
Fixpoint send_loop (fuel : nat) (fd : Z) (buf : buffer) (len sent : Z) : sysM Z :=
  if sent <? len then
    match fuel with
    | O => Ret (-1)
    | S fuel =>
      n <- sys (c_send fd (buf_add buf sent) (len - sent)) ;;
      if n <=? 0 then Ret (-1) else send_loop fuel fd buf len (sent + n)
    end
  else Ret 0.
Definition send_all (fd : Z) (buf : buffer) (len : Z) : sysM Z :=
  send_loop (Z.to_nat len) fd buf len 0.

(** The receiving loop; it also returns the bytes it stored. *)
Fixpoint recv_loop (fuel : nat) (fd : Z) (buf : buffer) (len recved : Z) (got : list Z) : sysM (Z * list Z) :=
  if recved <? len then
    match fuel with
    | O => Ret (-1, got)
    | S fuel =>
      let! (n, d) := sys (c_recv fd (buf_add buf recved) (len - recved)) in
      if n <=? 0 then Ret (-1, got) else recv_loop fuel fd buf len (recved + n) (got ++ d)
    end
  else Ret (0, got).
Definition recv_all (fd : Z) (buf : buffer) (len : Z) : sysM (Z * list Z) :=
  recv_loop (Z.to_nat len) fd buf len 0 [].

(** The descriptor comes back through [listen_fd] on success only. *)
Definition rai_oob_listen (port listen_fd : Z) : sysM (Z * Z) :=
  fd <- sys c_socket ;;
  if fd <? 0 then Ret (-1, listen_fd) else
  _ <- sys (c_setsockopt fd SO_REUSEADDR) ;;
  rc <- sys (c_bind fd (htons port)) ;;
  if rc <? 0 then sys (c_close fd) ;; Ret (-1, listen_fd) else
  rc <- sys (c_listen fd 1) ;;
  if rc <? 0 then sys (c_close fd) ;; Ret (-1, listen_fd) else
  Ret (0, fd).

(** [recv_all] into [&qp->remote]: the bytes read replace the front of the
    record, all of it or not. *)
Definition fill_remote (got : list Z) (qp : rai_qp) : rai_qp :=
  set_remote (decode_info (overlay got (encode_info (qp_remote qp)))) qp.

Definition rai_oob_accept (listen_fd : Z) (qp : option rai_qp) : sysM (Z * option rai_qp) :=
  match qp with
  | None => Ret (-1, None)
  | Some qp =>
    conn_fd <- sys (c_accept listen_fd) ;;
    if conn_fd <? 0 then Ret (-1, Some qp) else
    rc <- send_all conn_fd (Obj (encode_info (qp_local qp))) sizeof_conn_info ;;
    if bool_decide (rc ≠ 0) then sys (c_close conn_fd) ;; Ret (-1, Some qp) else
    let! (rc, got) := recv_all conn_fd (Obj (encode_info (qp_remote qp))) sizeof_conn_info in
    let qp := fill_remote got qp in
    if bool_decide (rc ≠ 0) then sys (c_close conn_fd) ;; Ret (-1, Some qp) else
    sys (c_close conn_fd) ;; Ret (0, Some qp)
  end.

(** The [goto out] of [rai_oob_connect]. *)
Definition oob_connect_out (conn_fd ret : Z) (qp : rai_qp) : sysM (Z * option rai_qp) :=
  (if 0 <=? conn_fd then sys (c_close conn_fd) ;; Ret tt else Ret tt) ;; Ret (ret, Some qp).
Definition rai_oob_connect (qp : option rai_qp) (server_ip : option string) (port : Z)
    : sysM (Z * option rai_qp) :=
  match qp, server_ip with
  | None, _ => Ret (-1, None)
  | Some qp, None => Ret (-1, Some qp)
  | Some qp, Some server_ip =>
    addr <- sys (c_inet_pton server_ip) ;;
    match addr with
    | None => Ret (-1, Some qp)
    | Some ip =>
      conn_fd <- sys c_socket ;;
      if conn_fd <? 0 then oob_connect_out conn_fd (-1) qp else
      rc <- sys (c_connect conn_fd ip (htons port)) ;;
      if rc <? 0 then oob_connect_out conn_fd (-1) qp else
      let! (rc, got) := recv_all conn_fd (Obj (encode_info (qp_remote qp))) sizeof_conn_info in
      let qp := fill_remote got qp in
      if bool_decide (rc ≠ 0) then oob_connect_out conn_fd (-1) qp else
      rc <- send_all conn_fd (Obj (encode_info (qp_local qp))) sizeof_conn_info ;;
      if bool_decide (rc ≠ 0) then oob_connect_out conn_fd (-1) qp else
      oob_connect_out conn_fd 0 qp
    end
  end.

(** * The loops *)

(** More fuel than one unit per missing byte changes nothing. *)
Lemma send_loop_fuel f f' fd buf len sent :
  len - sent ≤ Z.of_nat f → len - sent ≤ Z.of_nat f' →
  send_loop f fd buf len sent ≈ send_loop f' fd buf len sent.
Proof.
  revert f' sent. induction f as [|f IH]; intros f' sent Hf Hf'.
  - destruct f'; cbn; destruct (Z.ltb_spec sent len); (lia || done).
  - destruct f' as [|f']; [cbn; destruct (Z.ltb_spec sent len); (lia || done)|].
    cbn [send_loop]. destruct (Z.ltb_spec sent len); [|done]. f_equiv. intros n.
    destruct (Z.leb_spec n 0); [done|]. apply IH; lia.
Qed.
Lemma recv_loop_fuel f f' fd buf len recved got :
  len - recved ≤ Z.of_nat f → len - recved ≤ Z.of_nat f' →
  recv_loop f fd buf len recved got ≈ recv_loop f' fd buf len recved got.
Proof.
  revert f' recved got. induction f as [|f IH]; intros f' recved got Hf Hf'.
  - destruct f'; cbn; destruct (Z.ltb_spec recved len); (lia || done).
  - destruct f' as [|f']; [cbn; destruct (Z.ltb_spec recved len); (lia || done)|].
    cbn [recv_loop]. destruct (Z.ltb_spec recved len); [|done]. f_equiv. intros [n d].
    destruct (Z.leb_spec n 0); [done|]. apply IH; lia.
Qed.
