(* ===== verification/OobSpec.v ===== *)
(** What the side channel guarantees: the loops are the loops of the source,
    no descriptor leaks, and two ends that both succeed hold each other's record. *)
From stdpp Require Import strings.
From S2P Require Import Prelude Prog Sys RdmaCommon Oob.

(** * Descriptors *)

Lemma wp_step {A} (o : sys_op) (f : sys_ans o → sysM A) Q L :
  wp ledger_env (Do (o : op sys_sig) f) Q L → wp ledger_env (bind (sys o) f) Q L.
Proof. done. Qed.
(** Steps over a call that neither creates nor releases. *)
Ltac neutral x :=
  apply wp_step, wp_neutral; [live_tac|done|done|intros x _]; cbn beta.

Lemma send_loop_ledger fuel fd b len sent L :
  live L (RFd, fd) → wp ledger_env (send_loop fuel fd b len sent) (fun _ L' => L' = L) L.
Proof.
  intros Hfd. revert sent. induction fuel as [|fuel IH]; intros sent; cbn [send_loop];
    destruct (sent <? len); try done.
  neutral n. destruct (n <=? 0); [done|]. apply IH.
Qed.
Lemma recv_loop_ledger fuel fd b len recved got L :
  live L (RFd, fd) → wp ledger_env (recv_loop fuel fd b len recved got) (fun _ L' => L' = L) L.
Proof.
  intros Hfd. revert recved got. induction fuel as [|fuel IH]; intros recved got; cbn [recv_loop];
    destruct (recved <? len); try done.
  neutral x. destruct x as [n d]. destruct (n <=? 0); [done|]. apply IH.
Qed.

Definition fd_res (fd : Z) : res := mkRes (RFd, fd) [].
(** Closing an owned descriptor. *)
Lemma wp_close {A} fd l L0 L (f : Z → sysM A) Q :
  own (fd_res fd :: l) L0 L → unreferred (RFd, fd) l →
  (∀ rc L', own l L0 L' → wp ledger_env (f rc) Q L') → wp ledger_env (bind (sys (c_close fd)) f) Q L.
Proof.
  intros Hown Hun Hf. apply wp_step. eapply (wp_release _ _ _ _ (fd_res fd)); [done| |done..|].
  - apply Forall_cons. split; [apply not_elem_of_nil|done].
  - intros rc L' _ _ Ho. by apply Hf.
Qed.

Lemma rai_oob_listen_ledger port fd0 L :
  wp ledger_env (rai_oob_listen port fd0)
    (fun '(rc, fd) L' => rc = 0 ∧ 0 ≤ fd ∧ own [fd_res fd] L L' ∨ rc = -1 ∧ fd = fd0 ∧ own [] L L') L.
Proof.
  unfold rai_oob_listen. apply wp_step, wp_acquire; [constructor|done|]. intros fd L1 _ Hown. cbn in Hown.
  destruct (Z.ltb_spec fd 0).
  { destruct (Z.leb_spec 0 fd); [lia|]. by right. }
  destruct (Z.leb_spec 0 fd); [|lia].
  assert (Hl : live L1 (RFd, fd)) by (eapply own_live; [exact Hown|]; unfold live; cbn; by left).
  assert (Hclose : ∀ a, a = (-1, fd0) → wp ledger_env (sys (c_close fd) ;; Ret a)
    (fun '(rc, fd) L' => rc = 0 ∧ 0 ≤ fd ∧ own [fd_res fd] L L' ∨ rc = -1 ∧ fd = fd0 ∧ own [] L L') L1).
  { intros a ->. eapply wp_close; [exact Hown|constructor|]. intros _ L' Ho. by right. }
  neutral rc0. neutral rc. destruct (rc <? 0); [by apply Hclose|].
  neutral rc1. destruct (rc1 <? 0); [by apply Hclose|]. by left.
Qed.

Lemma rai_oob_accept_ledger lfd qp L :
  live L (RFd, lfd) →
  wp ledger_env (rai_oob_accept lfd (Some qp))
    (fun '(rc, q) L' => (rc = 0 ∨ rc = -1) ∧ (∃ g, q = Some (set_remote g qp)) ∧ own [] L L') L.
Proof.
  intros Hlfd. unfold rai_oob_accept. apply wp_step, wp_acquire; [live_tac|done|].
  intros fd L1 _ Hown. cbn in Hown. destruct (Z.ltb_spec fd 0).
  { destruct (Z.leb_spec 0 fd); [lia|]. split; [by right|]. split; [|done].
    exists (qp_remote qp). by destruct qp. }
  destruct (Z.leb_spec 0 fd); [|lia].
  assert (Hl : live L1 (RFd, fd)) by (eapply own_live; [exact Hown|]; unfold live; cbn; by left).
  assert (Hclose : ∀ rc g, rc = 0 ∨ rc = -1 → wp ledger_env (sys (c_close fd) ;; Ret (rc, Some (set_remote g qp)))
    (fun '(rc, q) L' => (rc = 0 ∨ rc = -1) ∧ (∃ g, q = Some (set_remote g qp)) ∧ own [] L L') L1).
  { intros rc g Hrc. eapply wp_close; [exact Hown|constructor|]. intros _ L' Ho. cbn. eauto. }
  apply (wp_bind_2 _ _ _ _ _ _ (send_loop_ledger _ fd _ _ 0 L1 Hl)). intros rc L' ->.
  case_bool_decide.
  { replace (Some qp) with (Some (set_remote (qp_remote qp) qp)) by by destruct qp. apply Hclose. by right. }
  apply (wp_bind_2 _ _ _ _ _ _ (recv_loop_ledger _ fd _ _ 0 [] L1 Hl)). intros [rc' got] L' ->.
  case_bool_decide; apply Hclose; eauto.
Qed.

Lemma oob_connect_out_ledger fd rc qp L0 L :
  0 ≤ fd → own [fd_res fd] L0 L →
  wp ledger_env (oob_connect_out fd rc qp) (fun '(rc', q) L' => rc' = rc ∧ q = Some qp ∧ own [] L0 L') L.
Proof.
  intros Hfd Hown. unfold oob_connect_out. destruct (Z.leb_spec 0 fd); [|lia].
  apply wp_bind. eapply wp_close; [exact Hown|constructor|]. intros _ L' Ho. done.
Qed.
Lemma rai_oob_connect_ledger qp ip port L :
  wp ledger_env (rai_oob_connect (Some qp) ip port)
    (fun '(rc, q) L' => (rc = 0 ∨ rc = -1) ∧ (∃ g, q = Some (set_remote g qp)) ∧ own [] L L') L.
Proof.
  assert (Hsame : Some qp = Some (set_remote (qp_remote qp) qp)) by by destruct qp.
  unfold rai_oob_connect. destruct ip as [ip|]; [|cbn; eauto 6 using own_empty].
  neutral addr. destruct addr as [a|]; [|cbn; eauto 6 using own_empty].
  apply wp_step, wp_acquire; [constructor|done|]. intros fd L1 _ Hown. cbn in Hown.
  destruct (Z.ltb_spec fd 0).
  { destruct (Z.leb_spec 0 fd); [lia|]. unfold oob_connect_out. destruct (Z.leb_spec 0 fd); [lia|].
    cbn. eauto. }
  destruct (Z.leb_spec 0 fd); [|lia].
  assert (Hl : live L1 (RFd, fd)) by (eapply own_live; [exact Hown|]; unfold live; cbn; by left).
  assert (Hout : ∀ rc q, rc = 0 ∨ rc = -1 → (∃ g, Some q = Some (set_remote g qp)) →
    wp ledger_env (oob_connect_out fd rc q)
    (fun '(rc, q) L' => (rc = 0 ∨ rc = -1) ∧ (∃ g, q = Some (set_remote g qp)) ∧ own [] L L') L1).
  { intros rc q Hrc Hq. eapply wp_mono; [|by apply oob_connect_out_ledger].
    intros [rc' q'] L' (-> & -> & Ho). eauto. }
  neutral rc. destruct (rc <? 0); [apply Hout; eauto|].
  apply (wp_bind_2 _ _ _ _ _ _ (recv_loop_ledger _ fd _ _ 0 [] L1 Hl)). intros [rc' got] L' ->.
  case_bool_decide; [apply Hout; unfold fill_remote; eauto|].
  apply (wp_bind_2 _ _ _ _ _ _ (send_loop_ledger _ fd _ _ 0 L1 Hl)). intros rc'' L' ->.
  case_bool_decide; apply Hout; unfold fill_remote; eauto.
Qed.

(** * Bytes *)

(** One connection as an end sees it: the bytes it has read and written. *)
Record stream := mkStream { got : list Z; put : list Z }.

Section stream.
(** [m]: the process memory, for transfers named by an address. *)
Context (m : Z → Z).

Definition bytes_at (b : buffer) (len : Z) : list Z :=
  match b with
  | Mem a => (fun i => m (a + i)) <$> seqZ 0 len
  | Obj l => take (Z.to_nat len) l
  end.

(** A send writes a prefix of what it is given, a receive reads at most what it
    asked for; both may fail. *)
Definition stream_env : envspec sys_sig stream :=
  fun o s =>
    match o return sys_ans o → stream → Prop with
    | c_send _ b len => fun n s' =>
        n ≤ len ∧ s' = (if 0 <? n then mkStream (got s) (put s ++ take (Z.to_nat n) (bytes_at b len)) else s)
    | c_recv _ _ len => fun x s' =>
        x.1 ≤ len ∧ (0 < x.1 → Z.of_nat (length x.2) = x.1) ∧
        s' = (if 0 <? x.1 then mkStream (got s ++ x.2) (put s) else s)
    | _ => fun _ s' => s' = s
    end.

Lemma bytes_at_add b len n : 0 ≤ n ≤ len → bytes_at (buf_add b n) (len - n) = drop (Z.to_nat n) (bytes_at b len).
Proof.
  intros Hn. destruct b as [a|l]; cbn.
  - rewrite <- fmap_drop. apply list_eq. intros i. rewrite !list_lookup_fmap, lookup_drop.
    destruct (decide (Z.of_nat i < len - n)).
    + rewrite !lookup_seqZ_lt by lia. cbn. do 2 f_equal. lia.
    + rewrite !lookup_seqZ_ge by lia. done.
  - rewrite take_drop_commute. do 2 f_equal. lia.
Qed.

(** Each loop moves a prefix of its bytes, and all of them when it returns 0. *)
Lemma send_loop_stream fuel fd b len sent s :
  0 ≤ sent → Z.of_nat (length (bytes_at b len)) = len →
  wp stream_env (send_loop fuel fd b len sent)
    (fun rc s' => let rest := drop (Z.to_nat sent) (bytes_at b len) in
                  got s' = got s ∧ (∃ k, put s' = put s ++ take k rest) ∧ (rc = 0 → put s' = put s ++ rest)) s.
Proof.
  intros Hsent Hlen. set (D := bytes_at b len) in *.
  assert (Hend : ∀ s sent, len ≤ sent → got s = got s ∧
    (∃ k, put s = put s ++ take k (drop (Z.to_nat sent) D)) ∧ (0 = 0 → put s = put s ++ drop (Z.to_nat sent) D)).
  { intros. rewrite drop_ge by lia. split; [done|]. split; [exists 0%nat|intros _].
    - by rewrite take_nil, app_nil_r.
    - by rewrite app_nil_r. }
  assert (Hfail : ∀ s sent, got s = got s ∧ (∃ k, put s = put s ++ take k (drop (Z.to_nat sent) D)) ∧
    (-1 = 0 → put s = put s ++ drop (Z.to_nat sent) D)).
  { intros. split; [done|]. split; [exists 0%nat; by rewrite take_0, app_nil_r|done]. }
  revert sent s Hsent. induction fuel as [|fuel IH]; intros sent s Hsent; cbn [send_loop];
    (destruct (Z.ltb_spec sent len); [|by apply Hend]); [by apply Hfail|].
  cbn [bind sys call wp]. intros n s' Hst. cbn in n, Hst. destruct Hst as [Hn ->].
  destruct (Z.leb_spec n 0); [rewrite (proj2 (Z.ltb_ge 0 n)) by lia; by apply Hfail|].
  rewrite (proj2 (Z.ltb_lt 0 n)) by lia. rewrite bytes_at_add by lia. fold D.
  eapply wp_mono; [|apply IH; lia]. cbn. intros rc s'' (Hg & (k & Hp) & Hz). split; [done|].
  assert (Hd : drop (Z.to_nat (sent + n)) D = drop (Z.to_nat n) (drop (Z.to_nat sent) D)).
  { rewrite drop_drop. f_equal. lia. }
  rewrite Hd in *. split.
  - exists (Z.to_nat n + k)%nat. by rewrite Hp, <- app_assoc, take_take_drop.
  - intros Hrc. by rewrite Hz, <- app_assoc, take_drop by done.
Qed.
Lemma recv_loop_stream fuel fd b len recved acc s :
  0 ≤ recved ≤ len → Z.of_nat (length acc) = recved →
  wp stream_env (recv_loop fuel fd b len recved acc)
    (fun '(rc, d) s' => put s' = put s ∧ (∃ d', d = acc ++ d' ∧ got s' = got s ++ d') ∧
                        Z.of_nat (length d) ≤ len ∧ (rc = 0 → Z.of_nat (length d) = len)) s.
Proof.
  revert recved acc s. induction fuel as [|fuel IH]; intros recved acc s Hr Hacc; cbn [recv_loop];
    (destruct (Z.ltb_spec recved len); [|split; [done|]; split; [exists []; by rewrite !app_nil_r|lia]]).
  - split; [done|]. split; [exists []; by rewrite !app_nil_r|lia].
  - cbn [bind sys call wp]. intros [n d] s' Hst. cbn in Hst. destruct Hst as (Hn & Hd & ->).
    destruct (Z.leb_spec n 0).
    { rewrite (proj2 (Z.ltb_ge 0 n)) by lia. split; [done|]. split; [exists []; by rewrite !app_nil_r|lia]. }
    rewrite (proj2 (Z.ltb_lt 0 n)) by lia. eapply wp_mono; [|apply IH; [lia|rewrite length_app; lia]].
    intros [rc d'] s'' (Hp & (d2 & -> & Hg) & Hl & Hz). split; [done|]. split; [|done].
    exists (d ++ d2). cbn in Hg. rewrite <- !app_assoc in *. done.
Qed.
End stream.

(** What one end of the exchange does with the bytes: it writes its own record
    and, when it succeeds, all of it, and it holds what it read. *)
Definition exchanged (qp : rai_qp) (rc : Z) (q : option rai_qp) (s : stream) : Prop :=
  (∃ k, put s = take k (encode_info (qp_local qp))) ∧
  (rc = 0 → put s = encode_info (qp_local qp) ∧ Z.of_nat (length (got s)) = sizeof_conn_info ∧
            q = Some (set_remote (decode_info (got s)) qp)).

Lemma full_fill qp d : info_ok (qp_remote qp) → Z.of_nat (length d) = sizeof_conn_info →
  fill_remote d qp = set_remote (decode_info d) qp.
Proof.
  intros Hok Hd. unfold fill_remote. rewrite overlay_full; [done|].
  pose proof (length_encode_info _ Hok). lia.
Qed.
Lemma obj_bytes m i : info_ok i →
  bytes_at m (Obj (encode_info i)) sizeof_conn_info = encode_info i.
Proof. intros Hok%length_encode_info. unfold bytes_at. apply take_ge. lia. Qed.

Lemma rai_oob_accept_stream m lfd qp :
  info_ok (qp_local qp) → info_ok (qp_remote qp) →
  wp (stream_env m) (rai_oob_accept lfd (Some qp)) (fun '(rc, q) => exchanged qp rc q) (mkStream [] []).
Proof.
  intros Hl Hr. unfold rai_oob_accept. cbn [bind sys call wp]. intros fd s ->. cbn in fd.
  destruct (fd <? 0). { split; [by exists 0%nat|done]. }
  pose proof (length_encode_info _ Hl) as Hlen.
  apply wp_bind. eapply wp_mono; [|apply (send_loop_stream m); [lia|by rewrite obj_bytes]].
  rewrite obj_bytes by done. cbn beta. rewrite drop_0. cbn [got put app].
  intros rc s (Hg & (k & Hp) & H0). case_bool_decide as Hrc.
  { cbn. intros _ ? ->. split; [by exists k|done]. }
  apply wp_bind. eapply wp_mono; [|apply (recv_loop_stream m); [done|done]].
  intros [rc' d] s' (Hp' & (d' & -> & Hg') & Hl' & H0'). cbn [app] in *.
  assert (rc = 0) as -> by lia.
  rewrite H0 in * by done. rewrite Hg in Hg'. cbn [app] in Hg'.
  case_bool_decide as Hrc'; cbn; intros _ ? ->; (split; [exists k; congruence|]); [done|].
  intros _. split; [congruence|]. rewrite Hg'. specialize (H0' ltac:(lia)).
  split; [done|]. by rewrite full_fill.
Qed.

Lemma oob_connect_out_stream m fd rc qp s Q :
  Q (rc, Some qp) s → wp (stream_env m) (oob_connect_out fd rc qp) Q s.
Proof. intros HQ. unfold oob_connect_out. destruct (0 <=? fd); cbn; [by intros _ ? ->|done]. Qed.
Lemma rai_oob_connect_stream m ip port qp :
  info_ok (qp_local qp) → info_ok (qp_remote qp) →
  wp (stream_env m) (rai_oob_connect (Some qp) ip port) (fun '(rc, q) => exchanged qp rc q) (mkStream [] []).
Proof.
  intros Hl Hr. pose proof (length_encode_info _ Hl) as Hlen.
  assert (Hfail : ∀ q s, put s = [] → exchanged qp (-1) q s).
  { intros q s Hp. split; [exists 0%nat; by rewrite Hp|done]. }
  unfold rai_oob_connect. destruct ip as [ip|]; [|by apply Hfail].
  cbn [bind sys call wp]. intros a s ->. cbn in a. destruct a as [a|]; [|by apply Hfail].
  cbn [bind sys call wp]. intros fd s ->. cbn in fd.
  destruct (fd <? 0); [by apply oob_connect_out_stream, Hfail|].
  cbn [bind sys call wp]. intros rc s ->. cbn in rc.
  destruct (rc <? 0); [by apply oob_connect_out_stream, Hfail|].
  apply wp_bind. eapply wp_mono; [|apply (recv_loop_stream m); [done|done]].
  intros [rc' d] s (Hp & (d' & -> & Hg) & Hle & Hz). cbn [got put app] in *.
  case_bool_decide; [by apply oob_connect_out_stream, Hfail|]. specialize (Hz ltac:(lia)).
  apply wp_bind. eapply wp_mono; [|apply (send_loop_stream m); [lia|by rewrite obj_bytes]].
  rewrite obj_bytes by done. cbn beta zeta. rewrite drop_0, Hp, Hg. cbn [app].
  intros rc'' s' (Hg' & (k & Hp') & Hz').
  case_bool_decide; apply oob_connect_out_stream; (split; [by exists k|]); [done|].
  intros _. rewrite Hz', Hg' by lia. split; [done|]. split; [done|]. by rewrite full_fill.
Qed.

(** C17. Out-of-band exchange: whatever partial sends and receives the two sockets
    make, if what each end read is a prefix of what the other wrote (TCP) and both
    calls return 0, each end's [qp->remote] is the other's [qp->local], and nothing
    else of the two queue-pair objects changed. *)
Theorem oob_exchange (m m' : Z → Z) (lfd port : Z) (ip : option string) (srv cli : rai_qp) :
  info_ok (qp_local srv) → info_ok (qp_remote srv) → info_ok (qp_local cli) → info_ok (qp_remote cli) →
  wp (stream_env m) (rai_oob_accept lfd (Some srv)) (fun '(rc, q) s =>
    wp (stream_env m') (rai_oob_connect (Some cli) ip port) (fun '(rc', q') s' =>
      got s `prefix_of` put s' → got s' `prefix_of` put s → rc = 0 → rc' = 0 →
      q = Some (set_remote (qp_local cli) srv) ∧ q' = Some (set_remote (qp_local srv) cli))
    (mkStream [] [])) (mkStream [] []).
Proof.
  intros Hls Hrs Hlc Hrc. eapply wp_mono; [|by apply rai_oob_accept_stream].
  intros [rc q] s [_ Hs]. eapply wp_mono; [|by apply rai_oob_connect_stream].
  intros [rc' q'] s' [_ Hc] Hpre Hpre' -> ->.
  destruct (Hs eq_refl) as (Hps & Hgs & ->). destruct (Hc eq_refl) as (Hpc & Hgc & ->).
  apply prefix_length_eq in Hpre; [|rewrite Hpc; pose proof (length_encode_info _ Hlc); lia].
  apply prefix_length_eq in Hpre'; [|rewrite Hps; pose proof (length_encode_info _ Hls); lia].
  rewrite Hpre, Hpre', Hpc, Hps, !decode_encode_info by done. done.
Qed.

(** A run in which sends go 7 bytes at a time and receives 9. *)
Definition demo_stream (inp : list Z) : handler sys_sig stream :=
  fun o s =>
    match o return sys_ans o * stream with
    | c_socket | c_accept _ => (5, s)
    | c_inet_pton _ => (Some 16777343, s)
    | c_send _ b len => let n := Z.min len 7 in
        (n, mkStream (got s) (put s ++ take (Z.to_nat n) (bytes_at (fun _ => 0) b len)))
    | c_recv _ _ len => let d := take (Z.to_nat (Z.min len 9)) (drop (length (got s)) inp) in
        if len <? 0 then ((len, []), s) else
        ((Z.of_nat (length d), d), if 0 <? Z.of_nat (length d) then mkStream (got s ++ d) (put s) else s)
    | o => (default_ans o, s)
    end.
Lemma demo_stream_env inp o s : stream_env (fun _ => 0) o s (demo_stream inp o s).1 (demo_stream inp o s).2.
Proof.
  destruct o; cbn [stream_env demo_stream fst snd]; try reflexivity.
  - destruct (Z.ltb_spec 0 (Z.min len 7)); split; try lia; [done|]. rewrite Z2Nat.nonpos by lia.
    rewrite take_0, app_nil_r. by destruct s.
  - destruct (Z.ltb_spec len 0).
    + cbn. rewrite (proj2 (Z.ltb_ge 0 len)) by lia. split; [lia|]. split; [lia|done].
    + set (d := take _ _). cbn [fst snd].
      assert (Hd : (length d ≤ Z.to_nat (Z.min len 9))%nat) by (unfold d; rewrite length_take; lia).
      split; [lia|]. done.
Qed.
Definition demo_info (a rkey qpn psn : Z) : rai_conn_info := mkConnInfo a (replicate 16 254) rkey qpn psn.
Definition demo_srv : rai_qp := set_local (demo_info 4096 11 7 0) rai_qp0.
Definition demo_cli : rai_qp := set_local (demo_info 8192 22 9 5) rai_qp0.

Lemma demo_info_ok a rkey qpn psn :
  0 ≤ a < 2 ^ 32 ∧ 0 ≤ rkey < 2 ^ 32 ∧ 0 ≤ qpn < 2 ^ 32 ∧ 0 ≤ psn < 2 ^ 32 →
  info_ok (demo_info a rkey qpn psn).
Proof. intros (? & ? & ? & ?). constructor; cbn [demo_info ci_addr ci_gid ci_rkey ci_qpn ci_psn]; try done. lia. Qed.
Lemma conn_info0_ok : info_ok conn_info0.
Proof. by constructor. Qed.

Lemma oob_exchange_witness :
  (run (demo_stream (encode_info (qp_local demo_cli))) (rai_oob_accept 3 (Some demo_srv)) (mkStream [] [])).1
  = (0, Some (set_remote (qp_local demo_cli) demo_srv)).
Proof.
  assert (Hw := oob_exchange (fun _ => 0) (fun _ => 0) 3 7000 (Some "10.0.0.1"%string) demo_srv demo_cli
    (demo_info_ok 4096 11 7 0 ltac:(lia)) conn_info0_ok (demo_info_ok 8192 22 9 5 ltac:(lia)) conn_info0_ok).
  apply (run_wp _ (demo_stream (encode_info (qp_local demo_cli)))) in Hw; [|apply demo_stream_env].
  assert (Hrun : (run (demo_stream (encode_info (qp_local demo_cli))) (rai_oob_accept 3 (Some demo_srv))
            (mkStream [] [])) = ((0, Some (set_remote (qp_local demo_cli) demo_srv)),
            mkStream (encode_info (qp_local demo_cli)) (encode_info (qp_local demo_srv))))
    by (vm_compute; reflexivity).
  rewrite Hrun in Hw |- *. cbn [fst snd] in Hw |- *.
  apply (run_wp _ (demo_stream (encode_info (qp_local demo_srv)))) in Hw; [|apply demo_stream_env].
  assert (Hrun' : (run (demo_stream (encode_info (qp_local demo_srv)))
            (rai_oob_connect (Some demo_cli) (Some "10.0.0.1"%string) 7000) (mkStream [] []))
          = ((0, Some (set_remote (qp_local demo_srv) demo_cli)),
            mkStream (encode_info (qp_local demo_srv)) (encode_info (qp_local demo_cli))))
    by (vm_compute; reflexivity).
  rewrite Hrun' in Hw. cbn [fst snd got put] in Hw.
  destruct (Hw (reflexivity _) (reflexivity _) eq_refl eq_refl) as [Hq _].
  exact (f_equal (pair 0) Hq).
Defined.
