(* ===== verification/Endpoint.v ===== *)
(** A process with its memory and one connected socket: what the transfers and
    the code's own stores do to the bytes. *)
From S2P Require Import Prelude Prog Sys Oob OobSpec.

Record endp := mkEndp { emem : Z → Z; egot : list Z; eput : list Z }.

(** The bytes at [a]; the memory after storing [d] there. *)
Definition load (m : Z → Z) (a n : Z) : list Z := (fun i => m (a + i)) <$> seqZ 0 n.
Definition store (m : Z → Z) (a : Z) (d : list Z) : Z → Z :=
  fun x => if decide (a ≤ x < a + Z.of_nat (length d)) then nth (Z.to_nat (x - a)) d 0 else m x.
Definition recv_into (b : buffer) (d : list Z) (m : Z → Z) : Z → Z :=
  match b with Mem a => store m a d | Obj _ => m end.

(** A send writes a prefix of what it is given, a receive stores at most what it
    asked for; both may fail or be partial. *)
Definition endp_env : envspec sys_sig endp :=
  fun o s =>
    match o return sys_ans o → endp → Prop with
    | c_send _ b len => fun n s' =>
        n ≤ len ∧ s' = (if 0 <? n then mkEndp (emem s) (egot s) (eput s ++ take (Z.to_nat n) (bytes_at (emem s) b len)) else s)
    | c_recv _ b len => fun x s' =>
        x.1 ≤ len ∧ (0 < x.1 → Z.of_nat (length x.2) = x.1) ∧
        s' = (if 0 <? x.1 then mkEndp (recv_into b x.2 (emem s)) (egot s ++ x.2) (eput s) else s)
    | c_load a n => fun d s' => d = load (emem s) a n ∧ s' = s
    | c_store a d => fun _ s' => s' = mkEndp (store (emem s) a d) (egot s) (eput s)
    | _ => fun _ s' => s' = s
    end.

(** * Memory *)

Lemma length_load m a n : 0 ≤ n → Z.of_nat (length (load m a n)) = n.
Proof. intros. unfold load. rewrite length_fmap, length_seqZ. lia. Qed.
Lemma load_ext m m' a n : (∀ x, a ≤ x < a + n → m x = m' x) → load m a n = load m' a n.
Proof.
  intros He. unfold load. apply list_fmap_ext. intros i x Hx.
  apply list_elem_of_lookup_2, elem_of_seqZ in Hx. apply He. lia.
Qed.
Lemma load_app m a n k : 0 ≤ n → 0 ≤ k → load m a (n + k) = load m a n ++ load m (a + n) k.
Proof.
  intros Hn Hk. unfold load. rewrite (seqZ_app 0 n k), fmap_app by lia. f_equal.
  replace (0 + n) with n by lia. apply list_eq. intros i. rewrite !list_lookup_fmap.
  destruct (decide (Z.of_nat i < k)).
  - rewrite !lookup_seqZ_lt by lia. cbn. do 2 f_equal. lia.
  - rewrite !lookup_seqZ_ge by lia. done.
Qed.
Lemma load_store m a d : load (store m a d) a (Z.of_nat (length d)) = d.
Proof.
  unfold load. apply list_eq. intros i. rewrite list_lookup_fmap. destruct (decide (i < length d)%nat) as [Hi|Hi].
  - rewrite lookup_seqZ_lt by lia. cbn. unfold store. rewrite decide_True by lia.
    replace (Z.to_nat (a + (0 + Z.of_nat i) - a)) with i by lia.
    destruct (lookup_lt_is_Some_2 d i Hi) as [x Hx]. rewrite Hx. f_equal. by apply nth_lookup_Some.
  - rewrite lookup_seqZ_ge by lia. cbn. symmetry. apply lookup_ge_None_2. lia.
Qed.
Lemma store_other m a d x : x < a ∨ a + Z.of_nat (length d) ≤ x → store m a d x = m x.
Proof. intros Hx. unfold store. by rewrite decide_False by lia. Qed.
Lemma load_store_other m a d b n :
  b + n ≤ a ∨ a + Z.of_nat (length d) ≤ b → load (store m a d) b n = load m b n.
Proof. intros Hd. apply load_ext. intros x Hx. apply store_other. lia. Qed.
Lemma store_app m a d d' x : store (store m a d) (a + Z.of_nat (length d)) d' x = store m a (d ++ d') x.
Proof.
  unfold store. rewrite length_app. repeat case_decide; try lia; try done.
  - rewrite app_nth2 by lia. f_equal. lia.
  - by rewrite app_nth1 by lia.
Qed.
Lemma store_nil m a x : store m a [] x = m x.
Proof. apply store_other. cbn. lia. Qed.
(** The view of part of an object just filled. *)
Lemma load_store_sub m a d i n :
  0 ≤ i → 0 ≤ n → i + n ≤ Z.of_nat (length d) →
  load (store m a d) (a + i) n = take (Z.to_nat n) (drop (Z.to_nat i) d).
Proof.
  intros Hi Hn Hd. pose proof (load_store m a d) as H.
  replace (Z.of_nat (length d)) with (i + (n + (Z.of_nat (length d) - i - n))) in H by lia.
  rewrite !load_app in H by lia. set (A := load _ a i) in H. set (B := load _ (a + i) n) in *.
  assert (HA : length A = Z.to_nat i) by (pose proof (length_load (store m a d) a i Hi); subst A; lia).
  assert (HB : length B = Z.to_nat n) by (pose proof (length_load (store m a d) (a + i) n Hn); subst B; lia).
  rewrite <- H, <- HA, drop_app_length, <- HB, take_app_length. done.
Qed.

(** * Integers in memory *)

(** An [int] and a [size_t] as their bytes. *)
Definition int_bytes (z : Z) : list Z := le_bytes 4 z.
Definition int_val (d : list Z) : Z := i32 (le_val d).
Definition is_int (z : Z) : Prop := INT_MIN ≤ z ≤ INT_MAX.
Lemma int_roundtrip z : is_int z → int_val (int_bytes z) = z.
Proof.
  unfold is_int, INT_MIN, INT_MAX, int_val, int_bytes, i32. intros Hz. rewrite le_val_bytes.
  change (256 ^ Z.of_nat 4) with (2 ^ 32). rewrite Zplus_mod_idemp_l. rewrite Z.mod_small; lia.
Qed.
Lemma int_val_range d : is_int (int_val d).
Proof. unfold int_val, is_int, INT_MIN, INT_MAX. pose proof (i32_range (le_val d)). lia. Qed.

(** * The loops *)

Lemma bytes_at_mem m a len : bytes_at m (Mem a) len = load m a len.
Proof. done. Qed.
Lemma send_loop_endp fuel fd a len sent s :
  0 ≤ sent ≤ len →
  wp endp_env (send_loop fuel fd (Mem a) len sent)
    (fun rc s' => emem s' = emem s ∧ egot s' = egot s ∧
       (∃ k, eput s' = eput s ++ take k (load (emem s) (a + sent) (len - sent))) ∧
       (rc = 0 ∧ eput s' = eput s ++ load (emem s) (a + sent) (len - sent) ∨ rc = -1)) s.
Proof.
  revert sent s. induction fuel as [|fuel IH]; intros sent s Hsent; cbn [send_loop];
    (destruct (Z.ltb_spec sent len); [|replace (len - sent) with 0 by lia; cbn; split_and!; try done;
      [exists 0%nat; by rewrite app_nil_r|left; by rewrite app_nil_r]]).
  { cbn. split_and!; try done; [exists 0%nat; by rewrite take_0, app_nil_r|by right]. }
  cbn [bind sys call wp]. intros n s' Hst. unfold endp_env in Hst. cbn in n. destruct Hst as [Hn ->].
  destruct (Z.leb_spec n 0).
  { rewrite (proj2 (Z.ltb_ge 0 n)) by lia. cbn. split_and!; try done; [exists 0%nat; by rewrite take_0, app_nil_r|by right]. }
  rewrite (proj2 (Z.ltb_lt 0 n)) by lia. eapply wp_mono; [|apply IH; lia]. cbn [emem egot eput].
  assert (Hsplit : load (emem s) (a + sent) (len - sent) =
    load (emem s) (a + sent) n ++ load (emem s) (a + (sent + n)) (len - (sent + n))).
  { replace (len - sent) with (n + (len - (sent + n))) by lia. rewrite load_app by lia. do 2 f_equal. lia. }
  assert (Htake : take (Z.to_nat n) (bytes_at (emem s) (Mem (a + sent)) (len - sent)) = load (emem s) (a + sent) n).
  { rewrite bytes_at_mem, Hsplit. rewrite take_app_le, take_ge; [done|pose proof (length_load (emem s) (a + sent) n); lia ..]. }
  cbn [buf_add]. rewrite Htake, Hsplit. intros rc s'' (-> & -> & (k & Hk) & Hrc). split_and!; try done.
  - exists (Z.to_nat n + k)%nat. rewrite Hk, <- app_assoc. do 2 f_equal.
    rewrite take_app_ge by (pose proof (length_load (emem s) (a + sent) n); lia).
    do 2 f_equal. pose proof (length_load (emem s) (a + sent) n). lia.
  - destruct Hrc as [[-> Hr]| ->]; [left|by right]. by rewrite Hr, <- app_assoc.
Qed.
Lemma recv_loop_endp fuel fd a len recved acc s :
  0 ≤ recved ≤ len → Z.of_nat (length acc) = recved →
  wp endp_env (recv_loop fuel fd (Mem a) len recved acc)
    (fun '(rc, d) s' => ∃ d', d = acc ++ d' ∧ egot s' = egot s ++ d' ∧ eput s' = eput s ∧
       (∀ x, emem s' x = store (emem s) (a + recved) d' x) ∧ Z.of_nat (length d) ≤ len ∧
       (rc = 0 ∧ Z.of_nat (length d) = len ∨ rc = -1)) s.
Proof.
  revert recved acc s. induction fuel as [|fuel IH]; intros recved acc s Hr Hacc; cbn [recv_loop];
    (destruct (Z.ltb_spec recved len);
     [|exists []; rewrite !app_nil_r; split_and!; try done; try lia; intros; by rewrite store_nil]).
  - exists []. rewrite !app_nil_r. split_and!; try done; try lia; intros; by rewrite store_nil.
  - cbn [bind sys call wp]. intros [n d] s' Hst. cbn in Hst. destruct Hst as (Hn & Hd & ->).
    destruct (Z.leb_spec n 0).
    { rewrite (proj2 (Z.ltb_ge 0 n)) by lia. exists []. rewrite !app_nil_r.
      split_and!; try done; try lia; intros; by rewrite store_nil. }
    rewrite (proj2 (Z.ltb_lt 0 n)) by lia. specialize (Hd ltac:(lia)).
    eapply wp_mono; [|apply IH; [lia|rewrite length_app; lia]].
    intros [rc d'] s'' (d2 & -> & Hg & Hp & Hm & Hl & Hrc). cbn [egot eput emem recv_into buf_add] in *.
    exists (d ++ d2). rewrite <- !app_assoc in *. split_and!; try done.
    intros x. rewrite Hm. replace (a + (recved + n)) with (a + recved + Z.of_nat (length d)) by lia.
    apply store_app.
Qed.

(** A concrete socket: it takes whatever is sent and delivers [inp]. *)
Definition demo_endp (inp : list Z) : handler sys_sig endp := fun o s =>
  match o return sys_ans o * endp with
  | c_send _ b len => (len, if 0 <? len
      then mkEndp (emem s) (egot s) (eput s ++ take (Z.to_nat len) (bytes_at (emem s) b len)) else s)
  | c_recv _ b len =>
      let d := take (Z.to_nat len) (drop (length (egot s)) inp) in
      let n := Z.min (Z.of_nat (length d)) len in
      ((n, d), if 0 <? n then mkEndp (recv_into b d (emem s)) (egot s ++ d) (eput s) else s)
  | c_load a n => (load (emem s) a n, s)
  | c_store a d => (tt, mkEndp (store (emem s) a d) (egot s) (eput s))
  | o => (default_ans o, s)
  end.
Lemma demo_endp_env inp o s : endp_env o s (demo_endp inp o s).1 (demo_endp inp o s).2.
Proof.
  destruct o; try reflexivity.
  - split; [cbn; lia|done].
  - cbn. split; [lia|]. split; [|done]. rewrite length_take, length_drop. lia.
  - split; done.
Qed.
