(* ===== verification/RdmaOps.v ===== *)
(** Phase 1, [rdma_ops.c]: posting work requests and polling for completions. *)
From S2P Require Import Prelude Prog Sys RdmaCommon.

(** A NULL argument is None.  [size] is a [uint32_t], [offset] and the sum a
    [size_t]; None is the return value -1. *)
Definition prepare_sge (qp : option rai_qp) (mr : option rai_mr) (size offset : Z) : option sge :=
  match qp with
  | None => None
  | Some qp =>
    if bool_decide (qp_qp qp = 0) then None else
    match mr with
    | None => None
    | Some mr =>
      match mr_mr mr with
      | None => None
      | Some m =>
        if bool_decide (size = 0 ∨ u64 (size + offset) > mr_size mr) then None
        else Some (mkSge (u64 (mr_buf mr + offset)) size (ibv_lkey m))
      end
    end
  end.

(** [wr.send_flags |= IBV_SEND_INLINE] when the payload fits the grant. *)
Definition with_inline (size : Z) (qp : rai_qp) (flags : list send_flag) : list send_flag :=
  if size <=? qp_max_inline qp then flags ++ [SEND_INLINE] else flags.

Definition post_send_wr (qp : rai_qp) (wr : send_wr) : sysM Z :=
  rc <- sys (v_post_send (qp_qp qp) wr) ;;
  if bool_decide (rc ≠ 0) then Ret (-1) else Ret 0.

Definition rai_post_send (qp : option rai_qp) (mr : option rai_mr) (size id offset : Z) : sysM Z :=
  match prepare_sge qp mr size offset, qp with
  | Some g, Some qp => post_send_wr qp (mkSendWr id g WR_SEND (with_inline size qp [SEND_SIGNALED]) 0 0)
  | _, _ => Ret (-1)
  end.
Definition rai_post_recv (qp : option rai_qp) (mr : option rai_mr) (size id offset : Z) : sysM Z :=
  match prepare_sge qp mr size offset, qp with
  | Some g, Some qp =>
      rc <- sys (v_post_recv (qp_qp qp) (mkRecvWr id g)) ;;
      if bool_decide (rc ≠ 0) then Ret (-1) else Ret 0
  | _, _ => Ret (-1)
  end.
Definition rai_post_write (qp : option rai_qp) (mr : option rai_mr) (size : Z) (send_flags : list send_flag)
    (remote_addr rkey id offset : Z) : sysM Z :=
  match prepare_sge qp mr size offset, qp with
  | Some g, Some qp =>
      post_send_wr qp (mkSendWr id g WR_RDMA_WRITE (with_inline size qp send_flags) remote_addr rkey)
  | _, _ => Ret (-1)
  end.
Definition rai_post_read (qp : option rai_qp) (mr : option rai_mr) (size remote_addr rkey id offset : Z)
    : sysM Z :=
  match prepare_sge qp mr size offset, qp with
  | Some g, Some qp => post_send_wr qp (mkSendWr id g WR_RDMA_READ [SEND_SIGNALED] remote_addr rkey)
  | _, _ => Ret (-1)
  end.

(** The spin of [rai_poll_cq].  It has no bound in the source; here it runs for
    at most [fuel] polls and answers None when they were all empty.  The pair is
    the return value and what was stored through [wr_id]. *)
Fixpoint poll_loop (fuel : nat) (cq : Z) (wr_id : bool) : sysM (option (Z * option Z)) :=
  match fuel with
  | O => Ret None
  | S fuel =>
    let! (n, c) := sys (v_poll_cq cq) in
    if n <? 0 then Ret (Some (-1, None)) else
    if 0 <? n then
      if negb (wc_ok c) then Ret (Some (-1, None))
      else Ret (Some (0, if wr_id then Some (wc_id c) else None))
    else poll_loop fuel cq wr_id
  end.
Definition rai_poll_cq (fuel : nat) (qp : option rai_qp) (wr_id : bool) : sysM (option (Z * option Z)) :=
  match qp with
  | None => Ret (Some (-1, None))
  | Some qp => if bool_decide (qp_cq qp = 0) then Ret (Some (-1, None)) else poll_loop fuel (qp_cq qp) wr_id
  end.

(** * What a post hands to the adapter *)

(** The bytes a gather entry names lie inside the registered region, and the
    region inside the address space; [mr_size] is a [size_t]. *)
Definition in_region (g : sge) (mr : rai_mr) : Prop :=
  mr_buf mr ≤ sge_addr g ∧ sge_addr g + sge_length g ≤ mr_buf mr + mr_size mr.
Record mr_ok (mr : rai_mr) : Prop := {
  mo_buf : 0 ≤ mr_buf mr;
  mo_size : 0 ≤ mr_size mr < 2 ^ 64;
  mo_end : mr_buf mr + mr_size mr ≤ 2 ^ 64;
}.

(** The four posts, as one family. *)
Inductive post_kind := PSend | PRecv | PWrite (flags : list send_flag) (raddr rkey : Z) | PRead (raddr rkey : Z).
Definition post (k : post_kind) (qp : option rai_qp) (mr : option rai_mr) (size id offset : Z) : sysM Z :=
  match k with
  | PSend => rai_post_send qp mr size id offset
  | PRecv => rai_post_recv qp mr size id offset
  | PWrite fl ra rk => rai_post_write qp mr size fl ra rk id offset
  | PRead ra rk => rai_post_read qp mr size ra rk id offset
  end.

(** What a post accepts: a queue pair, a registered region, a length above 0,
    and a sum, as [size_t] computes it, within the region. *)
Definition admitted (qp : option rai_qp) (mr : option rai_mr) (size offset : Z) : Prop :=
  ∃ q r, qp = Some q ∧ mr = Some r ∧ qp_qp q ≠ 0 ∧ mr_mr r ≠ None ∧ size ≠ 0 ∧ u64 (size + offset) ≤ mr_size r.

(** What each post asks of the adapter for one gather entry [g]: the opcode, the
    remote side, and the flags a send-queue request carries besides the inline
    one, which a read never carries and the others carry when the payload fits
    the grant of the queue pair or the caller asked for it. *)
Definition opcode_of (k : post_kind) : option wr_opcode :=
  match k with PSend => Some WR_SEND | PRecv => None | PWrite _ _ _ => Some WR_RDMA_WRITE | PRead _ _ => Some WR_RDMA_READ end.
Definition remote_of (k : post_kind) : Z * Z :=
  match k with PWrite _ ra rk | PRead ra rk => (ra, rk) | _ => (0, 0) end.
Definition flags_of (k : post_kind) : list send_flag :=
  match k with PWrite fl _ _ => fl | _ => [SEND_SIGNALED] end.
Definition may_inline (k : post_kind) : Prop :=
  match k with PSend | PWrite _ _ _ => True | _ => False end.
Record send_request (k : post_kind) (q : rai_qp) (id : Z) (g : sge) (wr : send_wr) : Prop := {
  sr_opcode : opcode_of k = Some (sw_opcode wr);
  sr_id : sw_id wr = id;
  sr_sge : sw_sge wr = g;
  sr_remote : (sw_remote_addr wr, sw_rkey wr) = remote_of k;
  sr_flags : ∀ f, f ∈ sw_flags wr ↔ f ∈ flags_of k ∨ (may_inline k ∧ f = SEND_INLINE ∧ sge_length g ≤ qp_max_inline q);
}.

(** One call to the connection's queue pair with that request, and the post's
    return value [rc]: 0 when the call answered 0, -1 otherwise. *)
Definition requests (k : post_kind) (q : rai_qp) (id : Z) (g : sge) (e : event sys_sig) (rc : Z) : Prop :=
  match e with Ev o a =>
    (match o return sys_ans o → Prop with
     | v_post_send h wr => fun a => h = qp_qp q ∧ send_request k q id g wr ∧ rc = if bool_decide (a = 0) then 0 else -1
     | v_post_recv h wr => fun a => h = qp_qp q ∧ k = PRecv ∧ wr = mkRecvWr id g ∧ rc = if bool_decide (a = 0) then 0 else -1
     | _ => fun _ => False
     end) a
  end.

Lemma prepare_sge_inv qp mr size offset g :
  prepare_sge qp mr size offset = Some g →
  ∃ q r m, qp = Some q ∧ mr = Some r ∧ mr_mr r = Some m ∧ qp_qp q ≠ 0 ∧ size ≠ 0 ∧
    u64 (size + offset) ≤ mr_size r ∧ g = mkSge (u64 (mr_buf r + offset)) size (ibv_lkey m).
Proof.
  unfold prepare_sge. destruct qp as [q|]; [|done]. case_bool_decide; [done|].
  destruct mr as [r|]; [|done]. destruct (mr_mr r) as [m|] eqn:Hm; [|done].
  case_bool_decide as Hb; [done|]. intros [= <-]. exists q, r, m. split_and!; try done; tauto || lia.
Qed.
Lemma prepare_sge_none qp mr size offset :
  prepare_sge qp mr size offset = None → ¬ admitted qp mr size offset.
Proof.
  unfold prepare_sge. intros Hn (q & r & -> & -> & Hq & Hm & Hs & Hb). rewrite bool_decide_eq_false_2 in Hn by done.
  destruct (mr_mr r) as [m|]; [|done]. rewrite bool_decide_eq_false_2 in Hn by lia. done.
Qed.

(** The entry is inside the region exactly when the sum does not wrap. *)
Lemma entry_in_region (r : rai_mr) (size offset key : Z) :
  mr_ok r → 0 < size < 2 ^ 32 → 0 ≤ offset < 2 ^ 64 → u64 (size + offset) ≤ mr_size r →
  in_region (mkSge (u64 (mr_buf r + offset)) size key) r ↔ size + offset < 2 ^ 64.
Proof.
  intros [Hb Hs He] Hsz Hoff Hg. unfold in_region. cbn. split.
  - intros [Hlo Hhi]. destruct (Z.lt_ge_cases (size + offset) (2 ^ 64)) as [|Hw]; [done|].
    destruct (Z.lt_ge_cases (mr_buf r + offset) (2 ^ 64)) as [Hn|Hn].
    + rewrite u64_small in Hlo, Hhi by lia. lia.
    + assert (u64 (mr_buf r + offset) = mr_buf r + offset - 2 ^ 64) as Hu by (apply (mod_shift _ _ 1); lia).
      rewrite Hu in Hlo. lia.
  - intros Hlt. rewrite u64_small in Hg by lia. rewrite u64_small by lia. lia.
Qed.

Lemma with_inline_flags size q fl f :
  f ∈ with_inline size q fl ↔ f ∈ fl ∨ (True ∧ f = SEND_INLINE ∧ size ≤ qp_max_inline q).
Proof.
  unfold with_inline. destruct (Z.leb_spec size (qp_max_inline q)); [|split; [by left|intros [|(_&_&?)]; [done|lia]]].
  rewrite elem_of_app, list_elem_of_singleton. tauto.
Qed.

Lemma verdict_ret (rc : Z) :
  (if bool_decide (rc ≠ 0) then Ret (-1) else Ret 0) = (Ret (if bool_decide (rc = 0) then 0 else -1) : sysM Z).
Proof. by repeat case_bool_decide. Qed.

(** Each post either refuses its arguments without a call, or makes the one call
    it was asked for with the checked entry. *)
Lemma post_shape k qp mr size id offset :
  match prepare_sge qp mr size offset, qp with
  | Some g, Some q =>
      (∃ wr, send_request k q id g wr ∧ post k qp mr size id offset = post_send_wr q wr) ∨
      (k = PRecv ∧ post k qp mr size id offset =
         (rc <- sys (v_post_recv (qp_qp q) (mkRecvWr id g)) ;; if bool_decide (rc ≠ 0) then Ret (-1) else Ret 0))
  | _, _ => post k qp mr size id offset = Ret (-1)
  end.
Proof.
  destruct (prepare_sge qp mr size offset) as [g|] eqn:Hg; cycle 1.
  { destruct k; cbn; unfold rai_post_send, rai_post_recv, rai_post_write, rai_post_read; by rewrite Hg. }
  destruct (prepare_sge_inv _ _ _ _ _ Hg) as (q & r & m & -> & _ & _ & _ & _ & _ & ->).
  destruct k; cbn; unfold rai_post_send, rai_post_recv, rai_post_write, rai_post_read; rewrite Hg;
    [left|by right|left|left]; (eexists; split; [|reflexivity]); constructor; try done; cbn;
    try (intros f; apply with_inline_flags). by intros f; split; [left|intros [|[[] _]]].
Qed.

(** C18. What a post does, on every argument a caller can pass (regions inside the
    address space; [size] a [uint32_t], [offset] a [size_t]). Either its guard
    refuses (no queue pair, no region, an empty request, or a [size_t] sum of
    [size] and [offset] past the region) and it returns -1 without a call; or the
    guard admits it and it makes exactly one call, to the connection's queue pair,
    with the request asked for: opcode, id, remote address and key, one gather
    entry at [offset] into the buffer with exactly the length and the region's
    key, the caller's flags, and inline when the payload fits what the driver
    granted (or the caller of a write asked for it, and never for a read); it returns 0 when that
    call answered 0 and -1 otherwise. The entry lies inside the registered region
    exactly when [size + offset] is below 2^64: a sum that wraps is admitted and
    names bytes outside it. *)
Theorem post_requests (k : post_kind) (qp : option rai_qp) (mr : option rai_mr) (size id offset : Z) :
  (∀ r, mr = Some r → mr_ok r) → 0 ≤ size < 2 ^ 32 → 0 ≤ offset < 2 ^ 64 →
  wp any (post k qp mr size id offset)
    (fun rc tr =>
       (¬ admitted qp mr size offset ∧ rc = -1 ∧ tr = []) ∨
       (admitted qp mr size offset ∧ ∃ q r m e, qp = Some q ∧ mr = Some r ∧ mr_mr r = Some m ∧ tr = [e] ∧
          requests k q id (mkSge (u64 (mr_buf r + offset)) size (ibv_lkey m)) e rc ∧
          (in_region (mkSge (u64 (mr_buf r + offset)) size (ibv_lkey m)) r ↔ size + offset < 2 ^ 64))) [].
Proof.
  intros Hmr Hsz Hoff. pose proof (post_shape k qp mr size id offset) as Hp.
  destruct (prepare_sge qp mr size offset) as [g|] eqn:Hg.
  2: { rewrite Hp. cbn. left. split; [by apply prepare_sge_none|done]. }
  destruct (prepare_sge_inv _ _ _ _ _ Hg) as (q & r & m & -> & -> & Hm & Hq & Hs & Hb & ->).
  assert (admitted (Some q) (Some r) size offset) as Had by (exists q, r; split_and!; try done; by rewrite Hm).
  pose proof (entry_in_region r size offset (ibv_lkey m) (Hmr r eq_refl) ltac:(lia) Hoff Hb) as Hreg.
  destruct Hp as [(wr & Hwr & ->)|[-> ->]]; unfold post_send_wr; cbn; intros rc tr ->; rewrite verdict_ret; cbn;
    right; (split; [done|]); exists q, r, m; eexists; split_and!; try done; cbn; by split_and!.
Qed.

(** The bounds check can be bypassed: [(size_t)size + offset] wraps, so an
    offset near the top of the address space passes the test of every post and
    the request points outside the region. *)
Theorem prepare_sge_wraps (qp : rai_qp) (mr : rai_mr) (m : ibv_mr) (size : Z) :
  qp_qp qp ≠ 0 → mr_mr mr = Some m → mr_ok mr → 0 < mr_buf mr → 0 < size < 2 ^ 32 → size ≤ mr_buf mr →
  ∃ offset g, 0 ≤ offset < 2 ^ 64 ∧ prepare_sge (Some qp) (Some mr) size offset = Some g ∧ ¬ in_region g mr.
Proof.
  intros Hqp Hm [Hb Hs He] Hb0 Hsz Hle. exists (2 ^ 64 - size). eexists. split; [lia|]. unfold prepare_sge.
  rewrite bool_decide_eq_false_2, Hm by done. replace (size + (2 ^ 64 - size)) with (2 ^ 64) by lia.
  rewrite bool_decide_eq_false_2 by (unfold u64; rewrite Z.mod_same by lia; lia).
  split; [reflexivity|]. unfold in_region. cbn.
  replace (u64 (mr_buf mr + (2 ^ 64 - size))) with (mr_buf mr - size); [lia|].
  symmetry. apply (mod_shift _ _ 1); lia.
Qed.

(** The outcome of one non-empty poll. *)
Definition poll_outcome (wr_id : bool) (x : Z * wc) : Z * option Z :=
  if x.1 <? 0 then (-1, None) else
  if wc_ok x.2 then (0, if wr_id then Some (wc_id x.2) else None) else (-1, None).

Lemma poll_loop_first (f : ∀ o : op sys_sig, nat → ans sys_sig o) cq w k fuel tr :
  (∀ i, (i < k)%nat → (f (v_poll_cq cq) (length tr + i)%nat).1 = 0) →
  (f (v_poll_cq cq) (length tr + k)%nat).1 ≠ 0 → (k < fuel)%nat →
  (run (by_oracle f) (poll_loop fuel cq w) tr).1 = Some (poll_outcome w (f (v_poll_cq cq) (length tr + k)%nat)) ∧
  length (run (by_oracle f) (poll_loop fuel cq w) tr).2 = (length tr + k + 1)%nat.
Proof.
  revert k tr. induction fuel as [|fuel IH]; intros k tr H0 Hk Hlt; [lia|].
  cbn [poll_loop run bind sys call by_oracle].
  destruct k as [|k].
  - rewrite Nat.add_0_r in *. unfold poll_outcome.
    destruct (f (v_poll_cq cq : op sys_sig) (length tr)) as [n c]. cbn [fst snd] in *.
    destruct (Z.ltb_spec n 0); [cbn; rewrite length_app; cbn; split; [done|lia]|].
    destruct (Z.ltb_spec 0 n); [|lia].
    destruct (wc_ok c); cbn; rewrite length_app; cbn; split; (done || lia).
  - pose proof (H0 0%nat ltac:(lia)) as Hz. rewrite Nat.add_0_r in Hz.
    destruct (f (v_poll_cq cq : op sys_sig) (length tr)) as [n c] eqn:Hf. cbn [fst] in Hz. subst n.
    cbn [Z.ltb Z.compare]. rewrite <- Hf.
    set (tr1 := tr ++ _). assert (Hl : length tr1 = S (length tr)) by (unfold tr1; rewrite length_app; cbn; lia).
    specialize (IH k tr1). rewrite Hl in IH.
    replace (length tr + S k)%nat with (S (length tr) + k)%nat in * by lia.
    replace (S (length tr) + k + 1)%nat with (S (length tr) + k + 1)%nat by lia.
    apply IH; [|done|lia]. intros i Hi. specialize (H0 (S i) ltac:(lia)).
    by replace (S (length tr) + i)%nat with (length tr + S i)%nat by lia.
Qed.

(** C19. [rai_poll_cq] returns the first completion: if the queue is empty for
    [k] polls and not at the next, it polls exactly [k + 1] times, returns 0 with
    that completion's id when it is successful and -1 when it is not or the poll
    failed, whatever fuel above [k] the spin is given. *)
Theorem poll_cq_first (f : ∀ o : op sys_sig, nat → ans sys_sig o) (qp : rai_qp) (w : bool) (k fuel : nat) :
  qp_cq qp ≠ 0 →
  (∀ i, (i < k)%nat → (f (v_poll_cq (qp_cq qp)) i).1 = 0) → (f (v_poll_cq (qp_cq qp)) k).1 ≠ 0 →
  (k < fuel)%nat →
  (run (by_oracle f) (rai_poll_cq fuel (Some qp) w) []).1 = Some (poll_outcome w (f (v_poll_cq (qp_cq qp)) k)) ∧
  length (run (by_oracle f) (rai_poll_cq fuel (Some qp) w) []).2 = (k + 1)%nat.
Proof.
  intros Hcq H0 Hk Hlt. unfold rai_poll_cq. rewrite bool_decide_eq_false_2 by done.
  by apply (poll_loop_first f (qp_cq qp) w k fuel []).
Qed.

(** * Witnesses *)

Definition demo_mr : rai_mr := mkRaiMr (Some (mkIbvMr 3 4096 17 23)) 4096 8192 0.
Definition demo_qp : rai_qp := set_max_inline 220 (set_cq 6 (set_qp 5 rai_qp0)).
Lemma demo_mr_ok : mr_ok demo_mr.
Proof. constructor; vm_compute; split_and?; congruence. Qed.

(** A receive of 64 bytes at offset 128 of an 8 KiB region. *)
Lemma post_requests_witness :
  wp any (post PRecv (Some demo_qp) (Some demo_mr) 64 1 128)
    (fun rc tr =>
       (¬ admitted (Some demo_qp) (Some demo_mr) 64 128 ∧ rc = -1 ∧ tr = []) ∨
       (admitted (Some demo_qp) (Some demo_mr) 64 128 ∧
        ∃ q r m e, Some demo_qp = Some q ∧ Some demo_mr = Some r ∧ mr_mr r = Some m ∧ tr = [e] ∧
          requests PRecv q 1 (mkSge (u64 (mr_buf r + 128)) 64 (ibv_lkey m)) e rc ∧
          (in_region (mkSge (u64 (mr_buf r + 128)) 64 (ibv_lkey m)) r ↔ 64 + 128 < 2 ^ 64))) [] ∧
  admitted (Some demo_qp) (Some demo_mr) 64 128.
Proof.
  split; [|exists demo_qp, demo_mr; split_and!; try done; vm_compute; congruence].
  apply (post_requests PRecv (Some demo_qp) (Some demo_mr) 64 1 128); [|lia|lia].
  intros r [= <-]. exact demo_mr_ok.
Defined.
Lemma prepare_sge_wraps_witness :
  ∃ offset g, 0 ≤ offset < 2 ^ 64 ∧ prepare_sge (Some demo_qp) (Some demo_mr) 64 offset = Some g ∧ ¬ in_region g demo_mr.
Proof.
  apply (prepare_sge_wraps demo_qp demo_mr (mkIbvMr 3 4096 17 23) 64); [done|reflexivity|exact demo_mr_ok|..]; cbn; lia.
Defined.
(** The fourth poll finds completion 42. *)
Definition demo_polls (o : op sys_sig) (i : nat) : ans sys_sig o :=
  match o return sys_ans o with
  | v_poll_cq _ => (if bool_decide (i = 3%nat) then 1 else 0, mkWc true 42)
  | o => default_ans o
  end.
Lemma poll_cq_first_witness :
  (run (by_oracle demo_polls) (rai_poll_cq 10 (Some demo_qp) true) []).1 = Some (0, Some 42) ∧
  length (run (by_oracle demo_polls) (rai_poll_cq 10 (Some demo_qp) true) []).2 = 4%nat.
Proof.
  apply (poll_cq_first demo_polls demo_qp true 3 10); [done| |done|lia].
  intros i Hi. cbn. by rewrite bool_decide_eq_false_2 by lia.
Defined.
