(* ===== verification/Window.v ===== *)
(** Traces of calls: how many work requests are outstanding, and the clock. *)
From S2P Require Import Prelude Prog Sys RdmaOps.
Abbreviation trace := (list (event sys_sig)).

(** * Counting on a trace *)

(** Accepted work requests, and completions taken off the queue. *)
Definition posts (e : event sys_sig) : Z :=
  match e with Ev o x => match o return sys_ans o → Z with
    | v_post_send _ _ | v_post_recv _ _ => fun rc => Z.b2z (bool_decide (rc = 0))
    | _ => fun _ => 0 end x end.
Definition comps (e : event sys_sig) : Z :=
  match e with Ev o x => match o return sys_ans o → Z with
    | v_poll_cq _ => fun r => Z.b2z (0 <? r.1)
    | v_poll_cq_batch _ _ => fun r => Z.max 0 r.1
    | _ => fun _ => 0 end x end.
(** Calls that are neither. *)
Definition plain_call (o : sys_op) : bool :=
  match o with v_post_send _ _ | v_post_recv _ _ | v_poll_cq _ | v_poll_cq_batch _ _ => false | _ => true end.
Definition is_empty_poll (e : event sys_sig) : bool :=
  match e with Ev o x => match o return sys_ans o → bool with v_poll_cq _ => fun r => r.1 =? 0 | _ => fun _ => false end x end.
Definition total (w : event sys_sig → Z) (tr : trace) : Z := foldr (fun e acc => w e + acc) 0 tr.
Definition posted : trace → Z := total posts.
Definition reaped : trace → Z := total comps.
Definition in_flight (tr : trace) : Z := posted tr - reaped tr.
(** Never more than [d] in flight. *)
Definition within (d : Z) (tr : trace) : Prop := ∀ k, in_flight (take k tr) ≤ d.

Lemma total_snoc w tr e : total w (tr ++ [e]) = total w tr + w e.
Proof. unfold total. induction tr as [|e0 tr IH]; cbn in *; lia. Qed.
Lemma in_flight_snoc tr e : in_flight (tr ++ [e]) = in_flight tr + posts e - comps e.
Proof. unfold in_flight, posted, reaped. rewrite !total_snoc. lia. Qed.
Lemma within_snoc d tr e : within d tr → in_flight (tr ++ [e]) ≤ d → within d (tr ++ [e]).
Proof.
  intros Hw He k. destruct (decide (k ≤ length tr)%nat).
  - rewrite take_app_le by done. apply Hw.
  - rewrite take_ge by (rewrite length_app; cbn; lia). done.
Qed.
Lemma within_nil d : 0 ≤ d → within d [].
Proof. intros Hd k. by rewrite take_nil. Qed.

(** [tr'] is [tr] after [n] more posts and [m] more completions, never more than
    [d] in flight. *)
Record grows (d n m : Z) (tr tr' : trace) : Prop := {
  gr_prefix : tr `prefix_of` tr';
  gr_posted : posted tr' = posted tr + n;
  gr_reaped : reaped tr' = reaped tr + m;
  gr_within : within d tr → within d tr' }.
Lemma grows_refl d tr : grows d 0 0 tr tr.
Proof. split; try done; lia. Qed.
Lemma grows_trans d n1 m1 n2 m2 n m tr1 tr2 tr3 :
  grows d n1 m1 tr1 tr2 → grows d n2 m2 tr2 tr3 → n = n1 + n2 → m = m1 + m2 → grows d n m tr1 tr3.
Proof. intros [H1 ? ? ?] [H2 ? ? ?] -> ->. split; [by etransitivity|lia..|auto]. Qed.
Lemma grows_snoc d e tr :
  in_flight tr + posts e - comps e ≤ d →
  grows d (posts e) (comps e) tr (tr ++ [e]).
Proof.
  intros He. split; [by apply prefix_app_r|apply total_snoc|apply total_snoc|].
  intros Hw. apply within_snoc; [done|]. rewrite in_flight_snoc. lia.
Qed.

(** A run that did not end spun on an empty queue. *)
Definition spun (pf : nat) (tr : trace) : Prop :=
  ∃ tr0 polls, tr = tr0 ++ polls ∧ length polls = pf ∧ Forall (fun e => is_empty_poll e = true) polls.

(** * Posting and polling *)

(** Some more posts and completions, at most [d] in flight. *)
Definition more (d : Z) (tr tr' : trace) : Prop := ∃ n m, grows d n m tr tr'.
Lemma grows_more d n m tr tr' : grows d n m tr tr' → more d tr tr'.
Proof. by exists n, m. Qed.
Lemma more_trans d tr1 tr2 tr3 : more d tr1 tr2 → more d tr2 tr3 → more d tr1 tr3.
Proof. intros (n & m & H1) (n' & m' & H2). exists (n + n'), (m + m'). by eapply grows_trans. Qed.

Lemma poll_loop_grows d fuel cq w tr : in_flight tr ≤ d →
  wp any (poll_loop fuel cq w) (fun r tr' => match r with
    | None => more d tr tr' ∧ ∃ polls, tr' = tr ++ polls ∧ length polls = fuel ∧ Forall (fun e => is_empty_poll e = true) polls
    | Some (rc, _) => rc = 0 ∧ grows d 0 1 tr tr' ∨ rc ≠ 0 ∧ more d tr tr' end) tr.
Proof.
  revert tr. induction fuel as [|fuel IH]; intros tr Hd; cbn [poll_loop].
  { cbn. split; [eapply grows_more, grows_refl|]. exists []. rewrite app_nil_r. by repeat split. }
  cbn [bind sys call wp]. intros [n c] tr1 ->. unfold any. set (e := Ev (v_poll_cq cq : op sys_sig) (n, c)).
  assert (Hg : grows d 0 (comps e) tr (tr ++ [e])).
  { apply (grows_snoc d e). cbn. destruct (0 <? n); cbn; lia. }
  cbn in Hg. destruct (Z.ltb_spec n 0).
  { right. split; [lia|]. by eapply grows_more. }
  destruct (Z.ltb_spec 0 n).
  - destruct (wc_ok c); cbn; [by left|]. right. split; [lia|]. by eapply grows_more.
  - eapply wp_mono; [|apply IH; rewrite in_flight_snoc; cbn; rewrite (proj2 (Z.ltb_ge 0 n)) by lia; cbn; lia].
    intros [[rc o]|] tr'.
    + intros [[-> Ht]|[Hrc Ht]]; [left|right]; (split; [done|]).
      * by eapply grows_trans.
      * eapply more_trans; [by eapply grows_more|done].
    + intros (Ht & polls & -> & Hl & Hp). split; [eapply more_trans; [by eapply grows_more|done]|].
      exists (e :: polls). rewrite <- app_assoc. split; [done|]. split; [cbn; lia|]. apply Forall_cons. split; [|done].
      cbn. apply Z.eqb_eq. lia.
Qed.
(** * Clocks *)

(** A clock reading taken when exactly [n] requests had been posted. *)
Definition clock_ev (x : Z) : event sys_sig := Ev (c_clock : op sys_sig) x.
Definition stamped (n x : Z) (tr : trace) : Prop := ∃ k, tr !! k = Some (clock_ev x) ∧ posted (take k tr) = n.
Definition clocks_positive (tr : trace) : Prop := ∀ x, clock_ev x ∈ tr → 0 < x.
Lemma stamped_mono n x tr tr' : tr `prefix_of` tr' → stamped n x tr → stamped n x tr'.
Proof.
  intros [tr2 ->] (k & Hk & Hn). exists k. pose proof (lookup_lt_Some _ _ _ Hk).
  rewrite lookup_app_l by done. split; [done|]. by rewrite take_app_le by lia.
Qed.
Lemma clocks_positive_mono tr tr' : tr `prefix_of` tr' → clocks_positive tr' → clocks_positive tr.
Proof. intros [tr2 ->] Hp x Hx. apply Hp. apply elem_of_app. by left. Qed.
Lemma clock_grows d tr x : in_flight tr ≤ d → grows d 0 0 tr (tr ++ [clock_ev x]) ∧ stamped (posted tr) x (tr ++ [clock_ev x]).
Proof.
  intros Hd. split; [apply (grows_snoc d (clock_ev x)); cbn; lia|]. exists (length tr).
  by rewrite lookup_app_r, Nat.sub_diag, take_app_length by lia.
Qed.
Lemma grows_flight d n m tr tr' : grows d n m tr tr' → in_flight tr' = in_flight tr + n - m.
Proof. intros [_ Hp Hr _]. unfold in_flight. lia. Qed.

Lemma plain_grows d (o : sys_op) (x : sys_ans o) tr :
  plain_call o = true → in_flight tr ≤ d → grows d 0 0 tr (tr ++ [Ev (o : op sys_sig) x]).
Proof.
  intros Ho Hd. pose proof (grows_snoc d (@Ev sys_sig o x) tr) as Hg.
  assert (He : posts (@Ev sys_sig o x) = 0 ∧ comps (@Ev sys_sig o x) = 0) by (by destruct o).
  destruct He as [H1 H2]. rewrite H1, H2 in Hg. apply Hg. lia.
Qed.
Definition clock_ok (e : event sys_sig) : bool :=
  match e with Ev o x => match o return sys_ans o → bool with c_clock => fun t => 0 <? t | _ => fun _ => true end x end.
Lemma clocks_ok tr : forallb clock_ok tr = true → clocks_positive tr.
Proof.
  rewrite forallb_forall. intros Htr x Hx%list_elem_of_In. apply Htr in Hx. cbn in Hx. by apply Z.ltb_lt.
Qed.

(** * Posts *)

(** One request more when the post returns 0, none otherwise. *)
Definition posted_one (d : Z) (tr : trace) (rc : Z) (tr' : trace) : Prop :=
  rc = 0 ∧ grows d 1 0 tr tr' ∨ rc = -1 ∧ grows d 0 0 tr tr'.
Lemma post_grows k qp mr size id off d tr : in_flight tr < d →
  wp any (post k qp mr size id off) (posted_one d tr) tr.
Proof.
  intros Hd. assert (Hnone : wp any (Ret (-1)) (posted_one d tr) tr) by (right; split; [done|apply grows_refl]).
  pose proof (post_shape k qp mr size id off) as Hshape.
  destruct (prepare_sge qp mr size off) as [g|], qp as [q|]; try by rewrite Hshape.
  assert (Hend : ∀ (e : event sys_sig) rc, comps e = 0 → posts e = Z.b2z (bool_decide (rc = 0)) →
    wp any (if bool_decide (rc ≠ 0) then Ret (-1) else Ret 0) (posted_one d tr) (tr ++ [e])).
  { intros e rc Hc Hp. assert (Hg : grows d (posts e) (comps e) tr (tr ++ [e])).
    { apply grows_snoc. rewrite Hc, Hp. destruct (bool_decide _); cbn; lia. }
    rewrite Hc, Hp in Hg. destruct (decide (rc = 0)) as [Hrc|Hrc].
    - rewrite (bool_decide_eq_true_2 _ Hrc) in Hg. rewrite (bool_decide_eq_false_2 (rc ≠ 0)) by (by intros Hn). by left.
    - rewrite (bool_decide_eq_false_2 _ Hrc) in Hg. rewrite (bool_decide_eq_true_2 (rc ≠ 0)) by done. by right. }
  destruct Hshape as [(wr & _ & ->)|[_ ->]].
  - unfold post_send_wr. cbn [bind sys call]. intros rc tr' ->. by apply Hend.
  - cbn [bind sys call]. intros rc tr' ->. by apply Hend.
Qed.
