(* ===== verification/RdmaRes.v ===== *)
(** Phase 1, [rdma_mr.c] and [rdma_qp.c]: registering memory, deregistering it,
    and tearing a connection down. *)
From S2P Require Import Prelude Prog Sys RdmaCommon OobSpec RdmaOps.

Definition rdma_access : list access := [LOCAL_WRITE; REMOTE_READ; REMOTE_WRITE].

(** Both registrations check their arguments, register, and fill the region
    object; a failed [ibv_reg_mr] leaves NULL in it. *)
Definition rai_mr_reg (qp : option rai_qp) (mr : option rai_mr) (size : Z) : sysM (Z * option rai_mr) :=
  if bool_decide (size = 0) then Ret (-1, mr) else
  match qp, mr with
  | Some qp, Some mr =>
    if bool_decide (qp_pd qp = 0) then Ret (-1, Some mr) else
    pagesize <- sys c_pagesize ;;
    let pagesize := if pagesize <=? 0 then 4096 else pagesize in
    buf <- sys (c_posix_memalign pagesize size) ;;
    match buf with
    | None => Ret (-1, Some mr)
    | Some buf =>
      m <- sys (v_reg_mr (qp_pd qp) buf size rdma_access) ;;
      match m with
      | None => sys (c_free buf) ;; Ret (-1, Some (mkRaiMr None (mr_buf mr) (mr_size mr) (mr_owns_buf mr)))
      | Some m => Ret (0, Some (mkRaiMr (Some m) buf size 1))
      end
    end
  | _, _ => Ret (-1, mr)
  end.
Definition rai_mr_reg_external (qp : option rai_qp) (mr : option rai_mr) (buf size : Z)
    : sysM (Z * option rai_mr) :=
  if bool_decide (size = 0) then Ret (-1, mr) else
  match qp with
  | None => Ret (-1, mr)
  | Some qp =>
    if bool_decide (qp_pd qp = 0) then Ret (-1, mr) else
    match mr with
    | None => Ret (-1, mr)
    | Some r =>
      if bool_decide (buf = 0) then Ret (-1, mr) else
      m <- sys (v_reg_mr (qp_pd qp) buf size rdma_access) ;;
      match m with
      | None => Ret (-1, Some (mkRaiMr None (mr_buf r) (mr_size r) (mr_owns_buf r)))
      | Some m => Ret (0, Some (mkRaiMr (Some m) buf size 0))
      end
    end
  end.
Definition rai_mr_dereg (mr : option rai_mr) : sysM (option rai_mr) :=
  match mr with
  | None => Ret None
  | Some mr =>
    (match mr_mr mr with Some m => sys (v_dereg_mr (ibv_mr_h m)) ;; Ret tt | None => Ret tt end) ;;
    (if bool_decide (mr_owns_buf mr ≠ 0) then sys (c_free (mr_buf mr)) ;; Ret tt else Ret tt) ;;
    Ret (Some rai_mr0)
  end.

(** [if (p && destroy (p) != 0) LOG_ERR (...)] *)
Definition destroy (p : Z) (o : sys_op) : sysM unit :=
  if bool_decide (p ≠ 0) then sys o ;; Ret tt else Ret tt.
Definition qp_destroy_cm (qp : rai_qp) : sysM unit :=
  let id := qp_cm_id qp in
  (if bool_decide (id ≠ 0)
   then q <- sys (m_id_qp id) ;; destroy q (m_destroy_qp id)
   else Ret tt) ;;
  destroy (qp_cq qp) (v_destroy_cq (qp_cq qp)) ;;
  destroy (qp_pd qp) (v_dealloc_pd (qp_pd qp)) ;;
  destroy id (m_destroy_id id) ;;
  destroy (qp_ec qp) (m_destroy_event_channel (qp_ec qp)).
Definition qp_destroy_verbs (qp : rai_qp) : sysM unit :=
  destroy (qp_qp qp) (v_destroy_qp (qp_qp qp)) ;;
  destroy (qp_cq qp) (v_destroy_cq (qp_cq qp)) ;;
  destroy (qp_pd qp) (v_dealloc_pd (qp_pd qp)) ;;
  destroy (qp_ctx qp) (v_close_device (qp_ctx qp)).
Definition rai_qp_destroy (qp : option rai_qp) : sysM (option rai_qp) :=
  match qp with
  | None => Ret None
  | Some qp =>
    match qp_mode qp with
    | RAI_CONN_VERBS => qp_destroy_verbs qp
    | RAI_CONN_CM => qp_destroy_cm qp
    end ;;
    Ret (Some rai_qp0)
  end.

(** * The resources the objects stand for *)

(** A region registered on the domain [pd], with the buffer if it owns one. *)
Definition mr_res (pd : Z) (mr : rai_mr) : ledger :=
  (match mr_mr mr with
   | Some m => [mkRes (RMr, ibv_mr_h m) [(RPd, pd); (RMem, mr_buf mr)]]
   | None => []
   end) ++
  (if bool_decide (mr_owns_buf mr ≠ 0) then [mkRes (RMem, mr_buf mr) []] else []).
(** What a queue-pair object owns in each mode, whichever of its fields are
    set.  The contexts of the domain and of the queue belong to the device in
    one mode and to librdmacm in the other. *)
Definition verbs_res (qp : rai_qp) : ledger :=
  ptr_res RQp [(RPd, qp_pd qp); (RCq, qp_cq qp); (RCq, qp_cq qp)] (qp_qp qp) ++
  ptr_res RCq [(RCtx, qp_ctx qp)] (qp_cq qp) ++
  ptr_res RPd [(RCtx, qp_ctx qp)] (qp_pd qp) ++
  ptr_res RCtx [] (qp_ctx qp).
Definition cm_res (c1 c2 : Z) (qp : rai_qp) : ledger :=
  ptr_res RQp [(RId, qp_cm_id qp); (RPd, qp_pd qp); (RCq, qp_cq qp); (RCq, qp_cq qp)] (qp_qp qp) ++
  ptr_res RCq [(RCtx, c2)] (qp_cq qp) ++
  ptr_res RPd [(RCtx, c1)] (qp_pd qp) ++
  ptr_res RId [(REc, qp_ec qp)] (qp_cm_id qp) ++
  ptr_res REc [] (qp_ec qp).
Definition qp_res (c1 c2 : Z) (qp : rai_qp) : ledger :=
  match qp_mode qp with RAI_CONN_VERBS => verbs_res qp | RAI_CONN_CM => cm_res c1 c2 qp end.

Lemma unreferred_app k l l' : unreferred k (l ++ l') ↔ unreferred k l ∧ unreferred k l'.
Proof. apply Forall_app. Qed.
Lemma unreferred_ptr k kd ps p : (p ≠ 0 → k ∉ ps) → unreferred k (ptr_res kd ps p).
Proof.
  intros Hk. unfold ptr_res. case_bool_decide; [|constructor]. apply Forall_singleton. by apply Hk.
Qed.

(** Destroying what a pointer stands for, or nothing if it is NULL. *)
Lemma wp_destroy {A} kd ps p o l L0 L (f : unit → sysM A) Q :
  own (ptr_res kd ps p ++ l) L0 L → (kd, p) ∉ ps → unreferred (kd, p) l →
  used o = [] → (∀ x, created o x = []) → (p ≠ 0 → released o L = Some (kd, p)) →
  (∀ L', own l L0 L' → wp ledger_env (f tt) Q L') → wp ledger_env (bind (destroy p o) f) Q L.
Proof.
  intros Hown Hps Hun Hu Hc Hr Hf. unfold destroy, ptr_res in *. case_bool_decide; [|by apply Hf].
  apply wp_bind. eapply wp_release; [exact Hown| |done|done|by apply Hr|].
  - by apply Forall_cons.
  - intros x L' _ _ Ho. by apply Hf.
Qed.
Ltac destroys Hown :=
  eapply wp_destroy;
    [exact Hown | rewrite ?not_elem_of_cons; repeat split; (apply not_elem_of_nil || congruence)
    | repeat (apply unreferred_app; split); first
        [apply Forall_nil; done
        | apply unreferred_ptr; intros _; rewrite ?not_elem_of_cons; repeat split;
          (apply not_elem_of_nil || congruence)]
    | done | done | done | clear Hown; intros ? Hown].

Lemma qp_destroy_verbs_ledger qp L0 L :
  own (verbs_res qp) L0 L → wp ledger_env (qp_destroy_verbs qp) (fun _ L' => own [] L0 L') L.
Proof.
  intros Hown. unfold qp_destroy_verbs. unfold verbs_res in Hown. rewrite <- (app_nil_r (ptr_res RCtx _ _)) in Hown.
  destroys Hown. destroys Hown. destroys Hown. apply wp_bind_ret. destroys Hown. done.
Qed.

(** [id->qp] is the queue pair of the object, and nothing once it is gone. *)
Lemma qp_of_id_own c1 c2 qp L0 L :
  own (cm_res c1 c2 qp) L0 L → qp_cm_id qp ≠ 0 → qp_of_id (qp_cm_id qp) L = qp_qp qp.
Proof.
  intros (HL & Hnd & HL0) Hid. unfold qp_of_id.
  assert (Hf0 : filter (fun r => (r_key r).1 = RQp ∧ (RId, qp_cm_id qp) ∈ r_parents r) L0 = []).
  { rewrite Forall_forall in HL0. specialize (HL0 (mkRes (RId, qp_cm_id qp) [(REc, qp_ec qp)])).
    assert (Hin : mkRes (RId, qp_cm_id qp) [(REc, qp_ec qp)] ∈ cm_res c1 c2 qp).
    { unfold cm_res, ptr_res at 4. rewrite bool_decide_eq_true_2 by done. rewrite !elem_of_app.
      do 3 right. left. by left. }
    specialize (HL0 Hin). cbn in HL0. clear -HL0. induction HL0 as [|r L [_ Hr] _ IH]; [done|].
    rewrite filter_cons_False; [exact IH|]. by intros [_ ?]. }
  assert (HfL : filter (fun r => (r_key r).1 = RQp ∧ (RId, qp_cm_id qp) ∈ r_parents r) L
    ≡ₚ ptr_res RQp [(RId, qp_cm_id qp); (RPd, qp_pd qp); (RCq, qp_cq qp); (RCq, qp_cq qp)] (qp_qp qp)).
  { rewrite HL, filter_app, Hf0, app_nil_r. unfold cm_res. rewrite !filter_app.
    assert (Hno : ∀ k ps p, k ≠ RQp →
      filter (fun r => (r_key r).1 = RQp ∧ (RId, qp_cm_id qp) ∈ r_parents r) (ptr_res k ps p) = []).
    { intros k ps p Hk. unfold ptr_res. case_bool_decide; [|done]. rewrite filter_cons_False; [done|]. by intros [? _]. }
    rewrite (Hno RCq), (Hno RPd), (Hno RId), (Hno REc), !app_nil_r by done. unfold ptr_res. case_bool_decide; [|done].
    rewrite filter_cons_True; [done|]. split; [done|]. cbn. by left. }
  unfold ptr_res in HfL. case_bool_decide as Hq.
  - apply Permutation_singleton_r in HfL. by rewrite HfL.
  - apply Permutation_nil_r in HfL. rewrite HfL. cbn. lia.
Qed.
Lemma qp_destroy_cm_ledger c1 c2 qp L0 L :
  own (cm_res c1 c2 qp) L0 L → (qp_qp qp ≠ 0 → qp_cm_id qp ≠ 0) →
  wp ledger_env (qp_destroy_cm qp) (fun _ L' => own [] L0 L') L.
Proof.
  intros Hown Hid. unfold qp_destroy_cm.
  assert (Hrest : ∀ L1, own (ptr_res RCq [(RCtx, c2)] (qp_cq qp) ++ ptr_res RPd [(RCtx, c1)] (qp_pd qp) ++
      ptr_res RId [(REc, qp_ec qp)] (qp_cm_id qp) ++ ptr_res REc [] (qp_ec qp)) L0 L1 →
    wp ledger_env (destroy (qp_cq qp) (v_destroy_cq (qp_cq qp)) ;;
      destroy (qp_pd qp) (v_dealloc_pd (qp_pd qp)) ;; destroy (qp_cm_id qp) (m_destroy_id (qp_cm_id qp)) ;;
      destroy (qp_ec qp) (m_destroy_event_channel (qp_ec qp))) (fun _ L' => own [] L0 L') L1).
  { clear Hown. intros L1 Hown. rewrite <- (app_nil_r (ptr_res REc _ _)) in Hown.
    destroys Hown. destroys Hown. destroys Hown. apply wp_bind_ret. destroys Hown. done. }
  destruct (bool_decide_reflect (qp_cm_id qp ≠ 0)) as [Hi|Hi].
  - apply wp_bind. intros q L' (_ & _ & Hfits & ->). cbn in Hfits. subst q.
    rewrite (qp_of_id_own c1 c2 qp L0 L) by done.
    assert (Hlive : Forall (live L) (used (m_id_qp (qp_cm_id qp)))).
    { live_tac. eapply own_live; [exact Hown|]. unfold live, cm_res, ptr_res at 4.
      rewrite bool_decide_eq_true_2 by done. rewrite !fmap_app, !elem_of_app. do 3 right. left. by left. }
    unfold effect. rewrite decide_True by done. cbn [released created app].
    apply wp_bind_ret. pose proof (qp_of_id_own c1 c2 qp L0 L Hown Hi) as Hq. unfold cm_res in Hown.
    eapply wp_destroy; [exact Hown|..]; try done.
    + rewrite ?not_elem_of_cons; repeat split; (apply not_elem_of_nil || congruence).
    + repeat (apply unreferred_app; split); apply unreferred_ptr; intros _; rewrite ?not_elem_of_cons;
        repeat split; (apply not_elem_of_nil || congruence).
    + intros _. cbn. by rewrite Hq.
  - assert (Hq0 : qp_qp qp = 0) by (destruct (decide (qp_qp qp = 0)); [done|exfalso; auto]).
    cbn [bind]. apply Hrest. unfold cm_res in Hown. unfold ptr_res at 1 in Hown.
    by rewrite bool_decide_eq_false_2 in Hown by (intros ?; done).
Qed.

(** Teardown in either mode, from any partly built object: everything the
    object owns goes, in an order that respects dependencies, and nothing else. *)
Lemma rai_qp_destroy_ledger c1 c2 qp L0 L :
  own (qp_res c1 c2 qp) L0 L → (qp_mode qp = RAI_CONN_CM → qp_qp qp ≠ 0 → qp_cm_id qp ≠ 0) →
  wp ledger_env (rai_qp_destroy (Some qp)) (fun q L' => q = Some rai_qp0 ∧ own [] L0 L') L.
Proof.
  intros Hown Hid. unfold rai_qp_destroy, qp_res in *. destruct (qp_mode qp).
  - apply wp_bind. eapply wp_mono; [|apply (qp_destroy_cm_ledger c1 c2); [done|by apply Hid]]. done.
  - apply wp_bind. eapply wp_mono; [|by apply qp_destroy_verbs_ledger]. done.
Qed.

(** * Registration *)

(** The outcome of a registration on [qp]: a filled object whose resources were
    added, or -1 with the ledger as it was and no region. *)
Definition registered (qp : rai_qp) (mr : rai_mr) (size owns : Z) (L : ledger) : Z * option rai_mr → ledger → Prop :=
  fun '(rc, mr') L' =>
    (rc = 0 ∧ ∃ m buf, mr' = Some (mkRaiMr (Some m) buf size owns) ∧ ibv_mr_addr m = buf ∧
       own (mr_res (qp_pd qp) (mkRaiMr (Some m) buf size owns)) L L') ∨
    (rc = -1 ∧ (mr' = Some mr ∨ mr' = Some (mkRaiMr None (mr_buf mr) (mr_size mr) (mr_owns_buf mr))) ∧ own [] L L').

Lemma rai_mr_reg_ledger qp mr size L :
  (qp_pd qp ≠ 0 → live L (RPd, qp_pd qp)) →
  wp ledger_env (rai_mr_reg (Some qp) (Some mr) size) (registered qp mr size 1 L) L.
Proof.
  intros Hpd. assert (Hfail : registered qp mr size 1 L (-1, Some mr) L) by (right; auto using own_empty).
  unfold rai_mr_reg. case_bool_decide; [done|]. case_bool_decide as Hp; [done|]. specialize (Hpd Hp).
  apply wp_neutral; [constructor|done..|]. intros ps _. cbn beta zeta.
  apply wp_acquire; [constructor|done|]. intros [buf|] L1 Hbuf Hown; [|right; split; [done|]; split; [by left|done]].
  cbn [created fits] in Hown, Hbuf. unfold ptr_res in Hown. rewrite bool_decide_eq_true_2 in Hown by auto. cbn [bind].
  apply wp_acquire; [live_tac; by eapply own_base|done|]. intros [m|] L2 Hm Hown2; cbn [created fits] in *.
  - left. split; [done|]. exists m, buf. split; [done|]. split; [apply Hm|].
    unfold mr_res. cbn [mr_mr mr_owns_buf mr_buf]. rewrite bool_decide_eq_true_2 by done. by eapply own_trans.
  - pose proof (own_trans _ _ _ _ _ Hown2 Hown) as Ho. cbn [app] in Ho.
    cbn [bind sys call]. eapply (wp_release _ _ _ _ (mkRes (RMem, buf) [])); [exact Ho| |done..|].
    + by apply Forall_singleton, not_elem_of_nil.
    + intros _ L' _ _ Ho'. right. split; [done|]. split; [by right|done].
Qed.
Lemma rai_mr_reg_external_ledger qp mr buf size L :
  (qp_pd qp ≠ 0 → live L (RPd, qp_pd qp)) →
  wp ledger_env (rai_mr_reg_external (Some qp) (Some mr) buf size)
    (fun a L' => registered qp mr size 0 L a L' ∧ (a.1 = 0 → mr_buf <$> a.2 = Some buf)) L.
Proof.
  intros Hpd.
  assert (Hfail : registered qp mr size 0 L (-1, Some mr) L ∧ (-1 = 0 → mr_buf <$> Some mr = Some buf)).
  { split; [right; auto using own_empty|done]. }
  unfold rai_mr_reg_external. case_bool_decide; [done|]. case_bool_decide as Hp; [done|]. specialize (Hpd Hp).
  case_bool_decide; [done|]. apply wp_acquire; [live_tac|done|].
  intros [m|] L' Hm Hown; cbn [created fits] in *.
  - split; [|done]. left. split; [done|]. exists m, buf. split; [done|]. split; [apply Hm|]. done.
  - split; [|done]. right. split; [done|]. split; [by right|done].
Qed.
(** Deregistration gives back a region and the buffer it owns, region first. *)
Lemma rai_mr_dereg_ledger pd mr L0 L :
  own (mr_res pd mr) L0 L → wp ledger_env (rai_mr_dereg (Some mr)) (fun mr' L' => mr' = Some rai_mr0 ∧ own [] L0 L') L.
Proof.
  intros Hown. unfold rai_mr_dereg, mr_res in *.
  assert (Hfree : ∀ L1, own (if bool_decide (mr_owns_buf mr ≠ 0) then [mkRes (RMem, mr_buf mr) []] else []) L0 L1 →
    wp ledger_env ((if bool_decide (mr_owns_buf mr ≠ 0) then sys (c_free (mr_buf mr)) ;; Ret tt else Ret tt) ;;
      Ret (Some rai_mr0)) (fun mr' L' => mr' = Some rai_mr0 ∧ own [] L0 L') L1).
  { clear Hown. intros L1 Hown. case_bool_decide; [|done]. cbn [bind sys call].
    eapply (wp_release _ _ _ _ (mkRes (RMem, mr_buf mr) [])); [exact Hown| |done..|].
    - by apply Forall_singleton, not_elem_of_nil.
    - intros _ L' _ _ Ho. done. }
  destruct (mr_mr mr) as [m|]; [|by apply Hfree]. cbn [bind sys call].
  eapply (wp_release _ _ _ _ (mkRes (RMr, ibv_mr_h m) [(RPd, pd); (RMem, mr_buf mr)])); [exact Hown| |done..|].
  - apply Forall_cons. split; [unreferred_tac|].
    case_bool_decide; [by apply Forall_singleton, not_elem_of_nil|constructor].
  - intros _ L' _ _ Ho. by apply Hfree.
Qed.

(** * The data path makes and releases nothing *)

Lemma rai_post_ledger k qp mr size id off L :
  (qp_qp qp ≠ 0 → live L (RQp, qp_qp qp)) → wp ledger_env (post k (Some qp) mr size id off) (fun _ L' => L' = L) L.
Proof.
  intros Hq. destruct k; unfold post, rai_post_send, rai_post_recv, rai_post_write, rai_post_read, post_send_wr;
    destruct (prepare_sge _ _ _ _) as [g|] eqn:Hg; try done;
    apply prepare_sge_inv in Hg as (q & r & m & [= <-] & _ & _ & Hne & _);
    (neutral rc; case_bool_decide; done).
Qed.
Lemma poll_loop_ledger fuel cq b L : live L (RCq, cq) → wp ledger_env (poll_loop fuel cq b) (fun _ L' => L' = L) L.
Proof.
  intros Hcq. induction fuel as [|fuel IH]; [done|]. cbn [poll_loop]. neutral x. destruct x as [n c].
  destruct (n <? 0); [done|]. destruct (0 <? n); [by destruct (negb (wc_ok c))|]. exact IH.
Qed.

(** C21. Teardown releases exactly what the object holds, whichever of its parts
    were attached and in either mode, with no call refused for a dependent; it
    zeroes the object, so tearing it down again does nothing. *)
Theorem qp_destroy_twice (c1 c2 : Z) (qp : rai_qp) (L0 L : ledger) :
  own (qp_res c1 c2 qp) L0 L → (qp_mode qp = RAI_CONN_CM → qp_qp qp ≠ 0 → qp_cm_id qp ≠ 0) →
  wp ledger_env (q <- rai_qp_destroy (Some qp) ;; rai_qp_destroy q)
    (fun q L' => q = Some rai_qp0 ∧ L' ≡ₚ L0) L.
Proof.
  intros Hown Hid. eapply wp_bind_2; [by apply (rai_qp_destroy_ledger c1 c2)|]. intros q L1 [-> Ho].
  eapply wp_mono; [|apply (rai_qp_destroy_ledger 0 0 rai_qp0 L0); [exact Ho|intros _ Hz; by destruct Hz]].
  intros q L' [-> Ho']. split; [done|]. by apply own_nil in Ho'.
Qed.

(** Register a region, with a buffer of its own or the caller's, and deregister
    it if that worked. *)
Definition reg_then_dereg (external : option Z) (qp : rai_qp) (mr : rai_mr) (size : Z) : sysM (option rai_mr) :=
  let! (rc, mr') := match external with
                    | Some buf => rai_mr_reg_external (Some qp) (Some mr) buf size
                    | None => rai_mr_reg (Some qp) (Some mr) size
                    end in
  if bool_decide (rc ≠ 0) then Ret mr' else rai_mr_dereg mr'.
(** Registration and deregistration are inverse on resources: every path
    through them, allocation and registration failures included, gives back the
    ledger it started from, the region always before the buffer under it. *)
Theorem mr_reg_dereg (external : option Z) (qp : rai_qp) (mr : rai_mr) (size : Z) (L : ledger) :
  (qp_pd qp ≠ 0 → live L (RPd, qp_pd qp)) →
  wp ledger_env (reg_then_dereg external qp mr size) (fun mr' L' => L' ≡ₚ L ∧ (∀ m, mr' = Some m → mr_mr m = None ∨ m = mr)) L.
Proof.
  intros Hpd. unfold reg_then_dereg.
  eapply (wp_bind_2 _ _ _ (fun a L' => ∃ owns, registered qp mr size owns L a L')).
  { destruct external as [buf|].
    - eapply wp_mono; [|by apply rai_mr_reg_external_ledger]. intros a L' [? _]. eauto.
    - eapply wp_mono; [|by apply rai_mr_reg_ledger]. eauto. }
  intros [rc mr'] L1 (owns & [(-> & m & buf & -> & Hm & Hown)|(-> & Hmr & Hown)]).
  - rewrite bool_decide_eq_false_2 by lia. eapply wp_mono; [|by apply (rai_mr_dereg_ledger (qp_pd qp))].
    intros m' L' [-> Ho%own_nil]. split; [done|]. intros ? [= <-]. by left.
  - rewrite bool_decide_eq_true_2 by lia. apply own_nil in Hown. split; [done|].
    intros m ->. destruct Hmr as [[= ->]|[= ->]]; auto.
Qed.

(** * Witnesses *)

Definition demo_attached : rai_qp := set_mode RAI_CONN_VERBS (set_ctx 4 (set_pd 5 (set_cq 6 (set_qp 7 rai_qp0)))).
Lemma demo_attached_own : own (qp_res 0 0 demo_attached) [] (qp_res 0 0 demo_attached).
Proof.
  split; [by rewrite app_nil_r|]. split.
  - apply (bool_decide_unpack _). vm_compute. reflexivity.
  - apply Forall_forall. intros r _. constructor.
Qed.
Lemma qp_destroy_twice_witness :
  wp ledger_env (q <- rai_qp_destroy (Some demo_attached) ;; rai_qp_destroy q)
    (fun q L' => q = Some rai_qp0 ∧ L' ≡ₚ []) (qp_res 0 0 demo_attached).
Proof. apply (qp_destroy_twice 0 0 demo_attached [] (qp_res 0 0 demo_attached) demo_attached_own); discriminate. Defined.
Lemma mr_reg_dereg_witness :
  wp ledger_env (reg_then_dereg None demo_attached rai_mr0 4096)
    (fun mr' L' => L' ≡ₚ qp_res 0 0 demo_attached ∧ (∀ m, mr' = Some m → mr_mr m = None ∨ m = rai_mr0))
    (qp_res 0 0 demo_attached).
Proof.
  apply (mr_reg_dereg None demo_attached rai_mr0 4096 (qp_res 0 0 demo_attached)). intros _.
  apply (bool_decide_unpack _). vm_compute. reflexivity.
Defined.
