(* ===== verification/VerbsConnect.v ===== *)
(** Phase 1, [rdma_verbs_connect.c]: opening the device, building the queue pair
    and walking it to RTS by hand. *)
From stdpp Require Import strings.
From S2P Require Import Prelude Prog Sys RdmaCommon Oob RdmaRes.

Definition CQ_DEPTH : Z := 128.

(** A GID as its 16 raw bytes. *)
Definition gid_is_ipv4_mapped (gid : list Z) : bool :=
  bool_decide (take 12 gid = [0;0;0;0; 0;0;0;0; 0;0;255;255]).
Definition gid_is_link_local (gid : list Z) : bool :=
  (nth 0 gid 0 =? 254) && (Z.land (nth 1 gid 0) 192 =? 128).

(** The scan of the GID table from index [i], [n] slots left. *)
Fixpoint gid_loop (n : nat) (ctx port i routable link_local : Z) : sysM Z :=
  match n with
  | O => if 0 <=? routable then Ret routable else Ret link_local
  | S n =>
    e <- sys (v_query_gid_ex ctx port i) ;;
    match e with
    | None => gid_loop n ctx port (i + 1) routable link_local
    | Some e =>
      if negb (ge_roce_v2 e) then gid_loop n ctx port (i + 1) routable link_local
      else if gid_is_ipv4_mapped (ge_gid e) then Ret i
      else if gid_is_link_local (ge_gid e) then
        gid_loop n ctx port (i + 1) routable (if link_local <? 0 then i else link_local)
      else gid_loop n ctx port (i + 1) (if routable <? 0 then i else routable) link_local
    end
  end.
Definition find_roce_v2_gid (ctx port : Z) : sysM Z :=
  a <- sys (v_query_port ctx port) ;;
  match a with
  | None => Ret (-1)
  | Some a => gid_loop (Z.to_nat (gid_tbl_len a)) ctx port 0 (-1) (-1)
  end.

(** The device loop; [want] is the value of RDMA_DEVICE. *)
Fixpoint device_loop (want : option string) (devs : list Z) : sysM Z :=
  match devs with
  | [] => Ret 0
  | d :: devs =>
    other <- match want with
             | Some w => name <- sys (v_device_name d) ;; Ret (negb (String.eqb name w))
             | None => Ret false
             end ;;
    if (other : bool) then device_loop want devs else
    tmp <- sys (v_open_device d) ;;
    if bool_decide (tmp = 0) then device_loop want devs else
    placeholder <- match want with
                   | Some _ => Ret false
                   | None => guid <- sys (v_query_device tmp) ;;
                             Ret (match guid with Some g => g =? 0 | None => false end)
                   end ;;
    if (placeholder : bool) then sys (v_close_device tmp) ;; device_loop want devs
    else Ret tmp
  end.
Definition open_device : sysM Z :=
  l <- sys v_get_device_list ;;
  want <- sys c_getenv_device ;;
  match l with
  | None => Ret 0
  | Some (list, devs) =>
    ctx <- device_loop want devs ;;
    sys (v_free_device_list list) ;;
    Ret ctx
  end.

Definition qp_caps : qp_cap := mkCap RAI_QP_MAX_WR RAI_QP_MAX_WR 1 1 RAI_MAX_INLINE.
Definition init_mask : list attr_bit := [QP_STATE; QP_PKEY_INDEX; QP_PORT; QP_ACCESS_FLAGS].
Definition rtr_mask : list attr_bit :=
  [QP_STATE; QP_AV; QP_PATH_MTU; QP_DEST_QPN; QP_RQ_PSN; QP_MAX_DEST_RD_ATOMIC; QP_MIN_RNR_TIMER].
Definition rts_mask : list attr_bit :=
  [QP_STATE; QP_SQ_PSN; QP_MAX_QP_RD_ATOMIC; QP_TIMEOUT; QP_RETRY_CNT; QP_RNR_RETRY].
Definition init_attr_of (port : Z) : qp_attr :=
  mkQpAttr QPS_INIT 0 port rdma_access 0 0 0 0 0 0 (replicate 16 0) 0 0 0 0 0 0 0 0.
Definition rtr_attr_of (qp : rai_qp) (mtu : Z) : qp_attr :=
  mkQpAttr QPS_RTR 0 0 [] mtu (ci_qpn (qp_remote qp)) (ci_psn (qp_remote qp)) 16 12
           1 (ci_gid (qp_remote qp)) (qp_gid_index qp) 255 (qp_port_num qp) 0 0 0 0 0.
Definition rts_attr_of (qp : rai_qp) : qp_attr :=
  mkQpAttr QPS_RTS 0 0 [] 0 0 0 0 0 0 (replicate 16 0) 0 0 0 (ci_psn (qp_local qp)) 16 14 7 7.

Definition build_qp_verbs (qp : rai_qp) : sysM (Z * rai_qp) :=
  ctx <- open_device ;;
  let qp := set_ctx ctx qp in
  if bool_decide (ctx = 0) then Ret (-1, qp) else
  let qp := if bool_decide (qp_port_num qp = 0) then set_port_num 1 qp else qp in
  gi <- find_roce_v2_gid (qp_ctx qp) (qp_port_num qp) ;;
  let qp := set_gid_index gi qp in
  if gi <? 0 then Ret (-1, qp) else
  pd <- sys (v_alloc_pd (qp_ctx qp)) ;;
  let qp := set_pd pd qp in
  if bool_decide (pd = 0) then Ret (-1, qp) else
  cq <- sys (v_create_cq (qp_ctx qp) CQ_DEPTH) ;;
  let qp := set_cq cq qp in
  if bool_decide (cq = 0) then Ret (-1, qp) else
  nq <- sys (v_create_qp (qp_pd qp) (mkInitAttr cq cq qp_caps)) ;;
  match nq with
  | None => Ret (-1, set_qp 0 qp)
  | Some nq =>
    let qp := set_max_inline (nq_inline nq) (set_qp (nq_h nq) qp) in
    let info (gid : list Z) := mkConnInfo (ci_addr (qp_local qp)) gid (ci_rkey (qp_local qp)) (nq_num nq) 0 in
    gid <- sys (v_query_gid (qp_ctx qp) (qp_port_num qp) (qp_gid_index qp)) ;;
    match gid with
    | None => Ret (-1, set_local (info (ci_gid (qp_local qp))) qp)
    | Some gid =>
      let qp := set_local (info gid) qp in
      rc <- sys (v_modify_qp (qp_qp qp) (init_attr_of (qp_port_num qp)) init_mask) ;;
      if bool_decide (rc ≠ 0) then Ret (-1, qp) else Ret (0, qp)
    end
  end.

Definition qp_to_rts (qp : rai_qp) : sysM Z :=
  if bool_decide (qp_qp qp = 0) then Ret (-1) else
  a <- sys (v_query_port (qp_ctx qp) (qp_port_num qp)) ;;
  match a with
  | None => Ret (-1)
  | Some a =>
    rc <- sys (v_modify_qp (qp_qp qp) (rtr_attr_of qp (active_mtu a)) rtr_mask) ;;
    if bool_decide (rc ≠ 0) then Ret (-1) else
    rc <- sys (v_modify_qp (qp_qp qp) (rts_attr_of qp) rts_mask) ;;
    if bool_decide (rc ≠ 0) then Ret (-1) else Ret 0
  end.

(** The [out] label of [rai_verbs_listen_qp]. [mr_listen_fd] is the caller's
    descriptor, None when it passed NULL. *)
Definition verbs_listen_out (ep_fd ret : Z) (qp : rai_qp) (mr_listen_fd : option Z)
    : sysM (Z * rai_qp * option Z) :=
  (if 0 <=? ep_fd then sys (c_close ep_fd) ;; Ret tt else Ret tt) ;;
  if bool_decide (ret ≠ 0) then
    mfd <- match mr_listen_fd with
           | Some fd => if 0 <=? fd then sys (c_close fd) ;; Ret (Some (-1)) else Ret (Some fd)
           | None => Ret None
           end ;;
    qp' <- rai_qp_destroy (Some qp) ;;
    Ret (ret, default qp qp', mfd)
  else Ret (ret, qp, mr_listen_fd).
Definition rai_verbs_listen_qp (qp : rai_qp) (port : Z) (mr_listen_fd : option Z)
    : sysM (Z * rai_qp * option Z) :=
  let qp := set_mode RAI_CONN_VERBS qp in
  let mfd := match mr_listen_fd with Some _ => Some (-1) | None => None end in
  let! (rc, ep_fd) := rai_oob_listen port (-1) in
  if bool_decide (rc ≠ 0) then verbs_listen_out ep_fd (-1) qp mfd else
  let! (rc, mfd) := match mfd with
                    | Some fd => let! (rc, fd) := rai_oob_listen (port + 1) fd in Ret (rc, Some fd)
                    | None => Ret (0, None)
                    end in
  if bool_decide (rc ≠ 0) then verbs_listen_out ep_fd (-1) qp mfd else
  let! (rc, qp) := build_qp_verbs qp in
  if bool_decide (rc ≠ 0) then verbs_listen_out ep_fd (-1) qp mfd else
  let! (rc, qp') := rai_oob_accept ep_fd (Some qp) in
  let qp := default qp qp' in
  if bool_decide (rc ≠ 0) then verbs_listen_out ep_fd (-1) qp mfd else
  verbs_listen_out ep_fd 0 qp mfd.

Definition rai_verbs_accept_qp (qp : rai_qp) : sysM Z :=
  rc <- qp_to_rts qp ;; if bool_decide (rc ≠ 0) then Ret (-1) else Ret 0.

Definition verbs_connect_out (ret : Z) (qp : rai_qp) : sysM (Z * rai_qp) :=
  if bool_decide (ret ≠ 0) then qp' <- rai_qp_destroy (Some qp) ;; Ret (ret, default qp qp')
  else Ret (ret, qp).
Definition rai_verbs_connect_qp (qp : rai_qp) (server_ip : option string) (port : Z) : sysM (Z * rai_qp) :=
  let qp := set_mode RAI_CONN_VERBS qp in
  let! (rc, qp) := build_qp_verbs qp in
  if bool_decide (rc ≠ 0) then verbs_connect_out (-1) qp else
  let! (rc, qp') := rai_oob_connect (Some qp) server_ip port in
  let qp := default qp qp' in
  if bool_decide (rc ≠ 0) then verbs_connect_out (-1) qp else
  rc <- qp_to_rts qp ;;
  if bool_decide (rc ≠ 0) then verbs_connect_out (-1) qp else
  verbs_connect_out 0 qp.
