(* ===== verification/VerbsSpec.v ===== *)
(** What the raw-verbs connection guarantees: which GID is picked, that nothing
    leaks on any failure, and that the queue pair goes through legal states. *)
From stdpp Require Import strings.
From S2P Require Import Prelude Prog Sys RdmaCommon Oob OobSpec RdmaRes VerbsConnect.

(** * GID selection *)

(** The first index of the table that satisfies [P]. *)
Definition first_gid (t : Z → option gid_entry) (P : list Z → bool) (lo : Z) (n : nat) : option Z :=
  head (filter (fun i => match t i with Some e => ge_roce_v2 e && P (ge_gid e) | None => false end = true)
               (seqZ lo (Z.of_nat n))).
Definition routable_gid (g : list Z) : bool := negb (gid_is_ipv4_mapped g) && negb (gid_is_link_local g).
Definition fallback_gid (g : list Z) : bool := negb (gid_is_ipv4_mapped g) && gid_is_link_local g.
(** The intended choice: an IPv4-mapped RoCE v2 entry, else a routable one, else
    a link-local one, the lowest index of its class; -1 when there is none. *)
Definition gid_choice (t : Z → option gid_entry) (n : nat) : Z :=
  match first_gid t gid_is_ipv4_mapped 0 n with
  | Some i => i
  | None => match first_gid t routable_gid 0 n with
            | Some i => i
            | None => default (-1) (first_gid t fallback_gid 0 n)
            end
  end.

(** A port whose table is [t]. *)
Definition gid_env (t : Z → option gid_entry) (n : Z) : envspec sys_sig unit :=
  fun o _ =>
    match o return sys_ans o → unit → Prop with
    | v_query_port _ _ => fun x _ => ∃ mtu, x = Some (mkPortAttr n mtu)
    | v_query_gid_ex _ _ i => fun x _ => x = t i
    | _ => fun _ _ => True
    end.

Lemma first_gid_cons t P lo n :
  first_gid t P lo (S n) =
  if (match t lo with Some e => ge_roce_v2 e && P (ge_gid e) | None => false end) then Some lo
  else first_gid t P (lo + 1) n.
Proof.
  unfold first_gid. rewrite seqZ_cons by lia. rewrite filter_cons. unfold Z.succ.
  replace (Z.of_nat (S n) - 1) with (Z.of_nat n) by lia. replace (Z.pred (Z.of_nat (S n))) with (Z.of_nat n) by lia.
  by destruct (match t lo with Some e => _ | None => false end).
Qed.
Lemma gid_loop_choice t N n ctx port i r l :
  (r < 0 → r = -1) → (l < 0 → l = -1) → 0 ≤ i →
  wp (gid_env t N) (gid_loop n ctx port i r l) (fun x _ => x =
    match first_gid t gid_is_ipv4_mapped i n with
    | Some j => j
    | None => if 0 <=? r then r else
              match first_gid t routable_gid i n with
              | Some j => j
              | None => if 0 <=? l then l else default (-1) (first_gid t fallback_gid i n)
              end
    end) ().
Proof.
  revert i r l. induction n as [|n IH]; intros i r l Hr Hl Hi; cbn [gid_loop].
  { unfold first_gid. cbn. destruct (Z.leb_spec 0 r); cbn; [done|]. destruct (Z.leb_spec 0 l); [done|]. auto with lia. }
  cbn [bind sys call wp]. intros x [] Hx. cbn in Hx. subst x. rewrite !first_gid_cons.
  unfold routable_gid at 1, fallback_gid at 1.
  destruct (t i) as [e|]; [|by apply IH; lia]. destruct (ge_roce_v2 e); cbn [negb andb]; [|by apply IH; lia].
  destruct (gid_is_ipv4_mapped (ge_gid e)); cbn [negb andb]; [done|].
  destruct (gid_is_link_local (ge_gid e)); cbn [negb andb].
  - assert (Hl' : (if l <? 0 then i else l) < 0 → (if l <? 0 then i else l) = -1) by (destruct (Z.ltb_spec l 0); lia).
    eapply wp_mono; [|apply (IH (i + 1) r _ Hr Hl'); lia].
    intros x [] ->. destruct (first_gid t gid_is_ipv4_mapped (i + 1) n); [done|]. destruct (0 <=? r); [done|].
    destruct (first_gid t routable_gid (i + 1) n); [done|].
    destruct (Z.ltb_spec l 0), (Z.leb_spec 0 l); try lia.
    by rewrite (proj2 (Z.leb_le 0 i)) by lia.
  - assert (Hr' : (if r <? 0 then i else r) < 0 → (if r <? 0 then i else r) = -1) by (destruct (Z.ltb_spec r 0); lia).
    eapply wp_mono; [|apply (IH (i + 1) _ l Hr' Hl); lia].
    intros x [] ->. destruct (first_gid t gid_is_ipv4_mapped (i + 1) n); [done|].
    destruct (Z.ltb_spec r 0), (Z.leb_spec 0 r); try lia.
    by rewrite (proj2 (Z.leb_le 0 i)) by lia.
Qed.

(** C20. GID selection: over any table of any length, the one-pass scan of
    [find_roce_v2_gid] returns the choice of the three-tier rule. *)
Theorem find_roce_v2_gid_choice (t : Z → option gid_entry) (n : nat) (ctx port : Z) :
  wp (gid_env t (Z.of_nat n)) (find_roce_v2_gid ctx port) (fun x _ => x = gid_choice t n) ().
Proof.
  unfold find_roce_v2_gid. cbn [bind sys call wp]. intros x [] [mtu ->]. cbn [gid_tbl_len]. rewrite Nat2Z.id.
  eapply wp_mono; [|apply gid_loop_choice; lia]. intros x [] ->. done.
Qed.

(** * Resources *)

Lemma device_loop_ledger want devs L :
  wp ledger_env (device_loop want devs) (fun ctx L' => own (ptr_res RCtx [] ctx) L L') L.
Proof.
  revert L. induction devs as [|d devs IH]; intros L; cbn [device_loop]; [apply own_empty|].
  assert (Hopen : wp ledger_env (tmp <- sys (v_open_device d) ;;
    if bool_decide (tmp = 0) then device_loop want devs else
    placeholder <- match want with
                   | Some _ => Ret false
                   | None => guid <- sys (v_query_device tmp) ;;
                             Ret (match guid with Some g => g =? 0 | None => false end)
                   end ;;
    if (placeholder : bool) then sys (v_close_device tmp) ;; device_loop want devs
    else Ret tmp) (fun ctx L' => own (ptr_res RCtx [] ctx) L L') L).
  { apply wp_step, wp_acquire; [constructor|done|]. intros ctx L1 _ Hown. cbn [created] in Hown.
    case_bool_decide as Hc. { subst ctx. cbn in Hown. apply own_nil in Hown.
      eapply wp_mono; [|apply IH]. intros c L' Ho. cbn beta in Ho. by rewrite Hown in Ho. }
    apply wp_bind. eapply (wp_mono _ _ (fun _ L' => L' = L1)).
    2: { destruct want; [done|]. neutral g. done. }
    intros [] L' ->; [|done]. unfold ptr_res in Hown. rewrite bool_decide_eq_true_2 in Hown by done.
    apply wp_step. eapply (wp_release _ _ _ _ (mkRes (RCtx, ctx) [])); [exact Hown| |done..|].
    { by apply Forall_singleton, not_elem_of_nil. }
    intros rc L2 _ _ Ho. apply own_nil in Ho. eapply wp_mono; [|apply IH]. intros c L3 Ho'.
    cbn beta in Ho'. by rewrite Ho in Ho'. }
  apply wp_bind. eapply (wp_mono _ _ (fun _ L' => L' = L)).
  2: { destruct want; [|done]. neutral nm. done. }
  intros [] L' ->; [apply IH|done].
Qed.
Lemma open_device_ledger L :
  wp ledger_env open_device (fun ctx L' => own (ptr_res RCtx [] ctx) L L') L.
Proof.
  unfold open_device. apply wp_step, wp_acquire; [constructor|done|]. intros l L1 _ Hown.
  neutral want. destruct l as [[list devs]|]; cbn [created] in Hown; [|apply Hown].
  eapply wp_bind_2; [apply device_loop_ledger|]. intros ctx L2 Hctx.
  pose proof (own_trans _ _ _ _ _ Hctx Hown) as Ho. rewrite Permutation_app_comm in Ho. cbn [app] in Ho.
  apply wp_step. eapply (wp_release _ _ _ _ (mkRes (RDevs, list) [])); [exact Ho| |done..|].
  - apply Forall_cons. split; [apply not_elem_of_nil|]. apply unreferred_ptr. intros _. apply not_elem_of_nil.
  - intros rc L' _ _ Ho'. done.
Qed.
Lemma gid_loop_ledger n ctx port i r l L :
  wp ledger_env (gid_loop n ctx port i r l) (fun _ L' => L' = L) L.
Proof.
  revert i r l. induction n as [|n IH]; intros i r l; cbn [gid_loop]; [by case_match|].
  neutral e. destruct e as [e|]; [|apply IH]. repeat case_match; (apply IH || done).
Qed.
Lemma find_roce_v2_gid_ledger ctx port L :
  wp ledger_env (find_roce_v2_gid ctx port) (fun _ L' => L' = L) L.
Proof. unfold find_roce_v2_gid. neutral a. destruct a; [apply gid_loop_ledger|done]. Qed.

(** What [build_qp_verbs] hands back: it owns exactly what it attached, all of it
    when it succeeds. *)
Definition built (qp : rai_qp) (L : ledger) (rc : Z) (qp' : rai_qp) (L' : ledger) : Prop :=
  (rc = 0 ∨ rc = -1) ∧ own (verbs_res qp') L L' ∧ qp_mode qp' = qp_mode qp ∧ qp_remote qp' = qp_remote qp ∧
  (rc = 0 → qp_qp qp' ≠ 0 ∧ qp_cq qp' ≠ 0 ∧ qp_pd qp' ≠ 0 ∧ qp_ctx qp' ≠ 0).

(** An object that failed to get its next part owns what it had. *)
Ltac failed Ho :=
  split; [by right|]; split;
    [unfold verbs_res; cbn in *; rewrite ?ptr_res_0 in *; subst;
     repeat match goal with H : _ = 0 |- _ => rewrite H end; rewrite ?ptr_res_0; exact Ho
    |split; [cbn; congruence|split; [cbn; congruence|done]]].
Lemma build_qp_verbs_ledger qp L :
  qp_ctx qp = 0 → qp_pd qp = 0 → qp_cq qp = 0 → qp_qp qp = 0 →
  wp ledger_env (build_qp_verbs qp) (fun '(rc, qp') L' => built qp L rc qp' L') L.
Proof.
  intros Hctx Hpd Hcq Hqp. unfold build_qp_verbs.
  eapply wp_bind_2; [apply open_device_ledger|]. intros ctx L1 Hown.
  set (qp1 := set_ctx ctx qp). case_bool_decide as Hc.
  { failed Hown. }
  set (qp2 := if bool_decide (qp_port_num qp1 = 0) then set_port_num 1 qp1 else qp1).
  assert (Hq2 : qp_ctx qp2 = ctx ∧ qp_pd qp2 = 0 ∧ qp_cq qp2 = 0 ∧ qp_qp qp2 = 0 ∧
    qp_mode qp2 = qp_mode qp ∧ qp_remote qp2 = qp_remote qp).
  { unfold qp2, qp1. case_bool_decide; split_and!; done. }
  clearbody qp2. destruct Hq2 as (Hctx2 & Hpd2 & Hcq2 & Hqp2 & Hmode & Hrem). clear qp1.
  eapply wp_bind_2; [apply find_roce_v2_gid_ledger|]. intros gi ? ->.
  destruct (gi <? 0).
  { failed Hown. }
  apply wp_step, wp_acquire; [constructor|done|]. intros pd L2 _ Hown2. cbn [created set_gid_index qp_ctx] in Hown2.
  rewrite Hctx2 in Hown2. pose proof (own_trans _ _ _ _ _ Hown2 Hown) as Ho. clear Hown Hown2.
  case_bool_decide as Hp.
  { subst pd. failed Ho. }
  apply wp_step, wp_acquire; [constructor|done|]. intros cq L3 _ Hown3. cbn [created set_pd set_gid_index qp_ctx] in Hown3.
  rewrite Hctx2 in Hown3. pose proof (own_trans _ _ _ _ _ Hown3 Ho) as Ho3. clear Ho Hown3.
  case_bool_decide as Hcq'.
  { subst cq. failed Ho3. }
  assert (Hlive : Forall (live L3) (used (v_create_qp pd (mkInitAttr cq cq qp_caps)))).
  { live_tac; (eapply own_live; [exact Ho3|]; unfold live, ptr_res; rewrite !bool_decide_eq_true_2 by done; cbn);
      rewrite !elem_of_cons; auto. }
  apply wp_step, wp_acquire; [exact Hlive|done|]. intros nq L4 Hnq Hown4. cbn [created send_cq recv_cq] in Hown4.
  pose proof (own_trans _ _ _ _ _ Hown4 Ho3) as Ho4. clear Ho3 Hown4 Hlive.
  destruct nq as [nq|].
  2: { failed Ho4. }
  cbn in Hnq. assert (Hres : ∀ q, qp_qp q = nq_h nq → qp_cq q = cq → qp_pd q = pd → qp_ctx q = ctx →
    own (verbs_res q) L L4).
  { intros q Hq1 Hq2 Hq3 Hq4. unfold verbs_res. rewrite Hq1, Hq2, Hq3, Hq4. unfold ptr_res at 1.
    by rewrite bool_decide_eq_true_2 by done. }
  neutral gid. destruct gid as [gid|].
  2: { split; [by right|]. split; [by apply Hres|]. split; [cbn; congruence|]. split; [cbn; congruence|done]. }
  assert (Hlive : live L4 (RQp, nq_h nq)).
  { eapply own_live; [exact Ho4|]. unfold live. cbn. by left. }
  neutral rc. case_bool_decide; (split; [auto|]); (split; [by apply Hres|]);
    (split; [cbn; congruence|]); (split; [cbn; congruence|]); cbn; [done|].
  intros _. rewrite Hctx2. done.
Qed.

(** The transitions change no resource. *)
Lemma qp_to_rts_ledger qp L :
  (qp_qp qp ≠ 0 → live L (RQp, qp_qp qp)) →
  wp ledger_env (qp_to_rts qp) (fun rc L' => (rc = 0 ∨ rc = -1) ∧ L' = L) L.
Proof.
  intros Hl. unfold qp_to_rts. case_bool_decide as Hq; [cbn; auto|]. specialize (Hl Hq).
  neutral a. destruct a; [|cbn; auto]. neutral rc. case_bool_decide; [cbn; auto|].
  neutral rc'. case_bool_decide; cbn; auto.
Qed.

(** The descriptor a caller may hold. *)
Definition opt_fd_res (fd : option Z) : ledger :=
  match fd with Some fd => if 0 <=? fd then [fd_res fd] else [] | None => [] end.
(** The contract of an operation that attaches a connection to a blank object:
    0 and everything recorded in the object and the descriptor, or -1 with the
    object cleared and the ledger as it was. *)
Definition attached (qp' : rai_qp) (fd : option Z) (rc : Z) (L L' : ledger) : Prop :=
  (rc = 0 ∧ (∃ c1 c2, own (opt_fd_res fd ++ qp_res c1 c2 qp') L L') ∧
     qp_qp qp' ≠ 0 ∧ qp_cq qp' ≠ 0 ∧ qp_pd qp' ≠ 0 ∧ qp_mode qp' = RAI_CONN_VERBS ∧ (∀ f, fd = Some f → 0 ≤ f)) ∨
  (rc = -1 ∧ qp' = rai_qp0 ∧ opt_fd_res fd = [] ∧ own [] L L').

Lemma unreferred_fd fd qp : unreferred (RFd, fd) (verbs_res qp).
Proof.
  unfold verbs_res. repeat (apply unreferred_app; split); apply unreferred_ptr; intros _;
    rewrite ?not_elem_of_cons; repeat split; (apply not_elem_of_nil || congruence).
Qed.
Lemma unreferred_opt_fd k fd : unreferred k (opt_fd_res fd).
Proof. unfold opt_fd_res. repeat case_match; unreferred_tac. Qed.

(** Closing a descriptor if it is one. *)
Lemma wp_close_opt {A} fd l L0 L (f : unit → sysM A) Q :
  own (opt_fd_res (Some fd) ++ l) L0 L → unreferred (RFd, fd) l →
  (∀ L', own l L0 L' → wp ledger_env (f tt) Q L') →
  wp ledger_env (bind (if 0 <=? fd then sys (c_close fd) ;; Ret tt else Ret tt) f) Q L.
Proof.
  cbn [opt_fd_res]. intros Hown Hun Hf. destruct (0 <=? fd); [|by apply Hf].
  cbn [bind sys call]. apply (wp_close fd l L0 L (fun _ => _)); [done..|]. intros _. apply Hf.
Qed.

Lemma verbs_listen_out_ledger ep_fd rc qp mfd L L1 :
  own (opt_fd_res (Some ep_fd) ++ opt_fd_res mfd ++ verbs_res qp) L L1 → qp_mode qp = RAI_CONN_VERBS →
  (rc = 0 ∧ qp_qp qp ≠ 0 ∧ qp_cq qp ≠ 0 ∧ qp_pd qp ≠ 0 ∧ (∀ f, mfd = Some f → 0 ≤ f) ∨ rc = -1) →
  wp ledger_env (verbs_listen_out ep_fd rc qp mfd) (fun '(rc', qp', mfd') L' => attached qp' mfd' rc' L L') L1.
Proof.
  intros Hown Hmode Hrc. unfold verbs_listen_out. eapply wp_close_opt; [exact Hown| |].
  { apply unreferred_app. split; [apply unreferred_opt_fd|apply unreferred_fd]. }
  clear Hown. intros L2 Hown. case_bool_decide as Hr.
  2: { left. destruct Hrc as [(_ & ? & ? & ? & ?)|Hm1]; [|lia]. rewrite Hr.
       split; [done|]. split; [|done]. exists 0, 0. unfold qp_res. by rewrite Hmode. }
  assert (rc = -1) as -> by lia.
  assert (Hdestroy : ∀ m L3, opt_fd_res m = [] → own (verbs_res qp) L L3 →
    wp ledger_env (qp' <- rai_qp_destroy (Some qp) ;; Ret (-1, default qp qp', m))
      (fun '(rc', qp', mfd') L' => attached qp' mfd' rc' L L') L3).
  { intros m L3 Hnil Ho. eapply wp_bind_2; [apply (rai_qp_destroy_ledger 0 0)|].
    - unfold qp_res. rewrite Hmode. exact Ho.
    - by rewrite Hmode.
    - intros q L' [-> Ho']. right. done. }
  destruct mfd as [fd|]; [|by apply Hdestroy]. cbn [opt_fd_res] in Hown.
  destruct (Z.leb_spec 0 fd).
  - cbn [bind sys call]. apply (wp_close fd (verbs_res qp) L L2 (fun _ => _)); [exact Hown|apply unreferred_fd|].
    intros _ L3 Ho. by apply Hdestroy.
  - apply Hdestroy; [|exact Hown]. cbn. by rewrite (proj2 (Z.leb_gt 0 fd)) by lia.
Qed.

Lemma verbs_res_remote g qp : verbs_res (set_remote g qp) = verbs_res qp.
Proof. done. Qed.

Definition blank (qp : rai_qp) : Prop :=
  qp_ctx qp = 0 ∧ qp_pd qp = 0 ∧ qp_cq qp = 0 ∧ qp_qp qp = 0 ∧ qp_cm_id qp = 0 ∧ qp_ec qp = 0.

(** A listener that came up is recorded; one that did not leaves the caller's
    value, which is no descriptor. *)
Lemma oob_listen_opt port fd0 L : fd0 < 0 →
  wp ledger_env (rai_oob_listen port fd0)
    (fun '(rc, fd) L' => (rc = 0 ∧ 0 ≤ fd ∨ rc = -1) ∧ own (opt_fd_res (Some fd)) L L') L.
Proof.
  intros H0. eapply wp_mono; [|apply rai_oob_listen_ledger].
  intros [rc fd] L' [(-> & Hfd & Hown)|(-> & -> & Hown)]; cbn [opt_fd_res].
  - rewrite (proj2 (Z.leb_le 0 fd)) by lia. auto.
  - rewrite (proj2 (Z.leb_gt 0 fd0)) by lia. auto.
Qed.

Lemma rai_verbs_listen_qp_ledger (qp : rai_qp) (port : Z) (mr_listen_fd : option Z) (L : ledger) :
  blank qp →
  wp ledger_env (rai_verbs_listen_qp qp port mr_listen_fd)
    (fun '(rc, qp', fd) L' => attached qp' fd rc L L') L.
Proof.
  intros (Hctx & Hpd & Hcq & Hqp & _ & _). unfold rai_verbs_listen_qp.
  set (qp1 := set_mode RAI_CONN_VERBS qp).
  assert (Hnil : verbs_res qp1 = []) by (unfold verbs_res; cbn; by rewrite Hctx, Hpd, Hcq, Hqp).
  eapply wp_bind_2; [by apply oob_listen_opt|]. intros [rc fd] L1 [Hrc Hown].
  assert (Hout1 : wp ledger_env (verbs_listen_out fd (-1) qp1 (match mr_listen_fd with Some _ => Some (-1) | None => None end))
    (fun '(rc, qp', fd) L' => attached qp' fd rc L L') L1).
  { apply verbs_listen_out_ledger; [|done|by right]. rewrite Hnil. by destruct mr_listen_fd; rewrite !app_nil_r. }
  case_bool_decide as Hr; [exact Hout1|]. clear Hout1.
  eapply (wp_bind_2 _ _ _ (fun '(rc, m) L' => (rc = 0 ∧ (∀ f, m = Some f → 0 ≤ f) ∨ rc = -1) ∧ own (opt_fd_res m) L1 L')).
  { destruct mr_listen_fd as [?|]; [|split; [by left|apply own_empty]].
    eapply wp_bind_2; [by apply oob_listen_opt|]. intros [rc' fd'] L2 [Hc ?]. split; [|done].
    destruct Hc as [[? ?]|?]; [left|by right]. split; [done|]. by intros f [= <-]. }
  intros [rc' mfd] L2 [Hrc' Hown']. pose proof (own_trans _ _ _ _ _ Hown' Hown) as Ho. clear Hown Hown'.
  assert (Hord : ∀ q L3, own (verbs_res q) L2 L3 → own (opt_fd_res (Some fd) ++ opt_fd_res mfd ++ verbs_res q) L L3).
  { intros q L3 Hq. pose proof (own_trans _ _ _ _ _ Hq Ho) as Ht. eapply own_proper; [|reflexivity|reflexivity|exact Ht].
    solve_Permutation. }
  case_bool_decide.
  { apply verbs_listen_out_ledger; [|done|by right]. apply Hord. rewrite Hnil. apply own_empty. }
  eapply wp_bind_2; [by apply build_qp_verbs_ledger|]. intros [rc2 qp2] L3 (Hrc2 & Hown2 & Hmode & Hrem & Hok).
  apply Hord in Hown2. case_bool_decide; [apply verbs_listen_out_ledger; [done|done|by right]|].
  assert (Hlive : live L3 (RFd, fd)).
  { eapply own_live; [exact Hown2|]. cbn [opt_fd_res]. rewrite (proj2 (Z.leb_le 0 fd)) by lia.
    unfold live. cbn. by left. }
  eapply wp_bind_2; [by apply rai_oob_accept_ledger|]. intros [rc3 qp3] L4 (Hrc3 & [g ->] & Hown3).
  apply own_nil in Hown3. cbn [default].
  assert (Hown4 : own (opt_fd_res (Some fd) ++ opt_fd_res mfd ++ verbs_res (set_remote g qp2)) L L4).
  { by rewrite Hown3, verbs_res_remote. }
  case_bool_decide; (apply verbs_listen_out_ledger; [exact Hown4|done|]); [by right|].
  left. split; [done|]. assert (rc2 = 0) by lia. destruct Hok as (? & ? & ? & ?); [done|].
  destruct Hrc' as [[_ Hfd]|]; [done|lia].
Qed.
(** The caller's descriptor variable stays one: NULL is never stored for it. *)
Lemma verbs_listen_fd_some {S} (h : envspec sys_sig S) qp port f s :
  wp h (rai_verbs_listen_qp qp port (Some f)) (fun '(_, _, m) _ => is_Some m) s.
Proof.
  assert (Hout : ∀ ep rc q f s, wp h (verbs_listen_out ep rc q (Some f)) (fun '(_, _, m) _ => is_Some m) s).
  { intros ep rc q f' s'. unfold verbs_listen_out. eapply wp_bind_2; [apply wp_true|]. intros [] s1 _.
    case_bool_decide; [|by exists f']. eapply (wp_bind_2 _ _ _ (fun m _ => is_Some m)).
    { destruct (0 <=? f'); [intros ? ? _|]; eexists; reflexivity. }
    intros m s2 Hm. eapply wp_bind_2; [apply wp_true|]. by intros q' s3 _. }
  unfold rai_verbs_listen_qp. eapply wp_bind_2; [apply wp_true|]. intros [rc ep] s1 _. case_bool_decide; [apply Hout|].
  apply wp_bind. eapply wp_bind_2; [apply wp_true|]. intros [rc1 fd] s2 _. cbn [wp]. case_bool_decide; [apply Hout|].
  eapply wp_bind_2; [apply wp_true|]. intros [rc2 q] s3 _. case_bool_decide; [apply Hout|].
  eapply wp_bind_2; [apply wp_true|]. intros [rc3 q'] s4 _. case_bool_decide; apply Hout.
Qed.
(** C12. [rai_verbs_listen_qp] leaks nothing and misuses nothing, whichever of
    its calls fail: it returns 0 with exactly the queue pair, completion queue,
    domain, device and (if asked for) listener it recorded, or -1 with the object
    zeroed and every resource it had acquired given back. *)
Theorem verbs_listen_no_leak (qp : rai_qp) (port : Z) (mr_listen_fd : option Z) (L : ledger) :
  blank qp →
  wp ledger_env (rai_verbs_listen_qp qp port mr_listen_fd)
    (fun '(rc, qp', fd) L' => attached qp' fd rc L L') L.
Proof. apply rai_verbs_listen_qp_ledger. Qed.

Lemma rai_verbs_connect_qp_ledger (qp : rai_qp) (server_ip : option string) (port : Z) (L : ledger) :
  blank qp →
  wp ledger_env (rai_verbs_connect_qp qp server_ip port) (fun '(rc, qp') L' => attached qp' None rc L L') L.
Proof.
  intros (Hctx & Hpd & Hcq & Hqp & _ & _). unfold rai_verbs_connect_qp.
  set (qp1 := set_mode RAI_CONN_VERBS qp).
  assert (Hfail : ∀ q L1, own (verbs_res q) L L1 → qp_mode q = RAI_CONN_VERBS →
    wp ledger_env (verbs_connect_out (-1) q) (fun '(rc, qp') L' => attached qp' None rc L L') L1).
  { intros q L1 Ho Hm. unfold verbs_connect_out. cbn. eapply wp_bind_2; [apply (rai_qp_destroy_ledger 0 0)|].
    - unfold qp_res. rewrite Hm. exact Ho.
    - by rewrite Hm.
    - intros q' L' [-> Ho']. right. done. }
  eapply wp_bind_2; [by apply build_qp_verbs_ledger|]. intros [rc qp2] L1 (Hrc & Hown & Hmode & Hrem & Hok).
  case_bool_decide; [by apply Hfail|].
  eapply wp_bind_2; [apply rai_oob_connect_ledger|]. intros [rc2 qp3] L2 (Hrc2 & [g ->] & Hown2).
  apply own_nil in Hown2. cbn [default]. rewrite <- Hown2, <- (verbs_res_remote g) in Hown.
  case_bool_decide; [by apply Hfail|]. assert (rc = 0) by lia. destruct Hok as (Hq & Hc & Hp & Hx); [done|].
  assert (Hlive : live L2 (RQp, qp_qp qp2)).
  { eapply own_live; [exact Hown|]. unfold live, verbs_res. unfold ptr_res at 1. cbn [set_remote qp_qp].
    rewrite bool_decide_eq_true_2 by done. cbn. by left. }
  eapply wp_bind_2; [by apply qp_to_rts_ledger|]. intros rc3 L3 [Hrc3 ->].
  case_bool_decide; [by apply Hfail|]. cbn. left. split; [done|]. split; [|by split_and!; try exact Hmode].
  exists 0, 0. cbn [opt_fd_res app]. unfold qp_res. cbn [set_remote qp_mode]. rewrite Hmode. exact Hown.
Qed.
(** C11. [rai_verbs_connect_qp] likewise: 0 with the object's four resources, or
    -1 with the object zeroed and the ledger as it was. *)
Theorem verbs_connect_no_leak (qp : rai_qp) (server_ip : option string) (port : Z) (L : ledger) :
  blank qp →
  wp ledger_env (rai_verbs_connect_qp qp server_ip port) (fun '(rc, qp') L' => attached qp' None rc L L') L.
Proof. apply rai_verbs_connect_qp_ledger. Qed.

(** * The states of the queue pair *)

(** The attributes each transition of a reliable connection requires. *)
Definition required (s : qp_state) : list attr_bit :=
  match s with
  | QPS_INIT => [QP_PKEY_INDEX; QP_PORT; QP_ACCESS_FLAGS]
  | QPS_RTR => [QP_AV; QP_PATH_MTU; QP_DEST_QPN; QP_RQ_PSN; QP_MAX_DEST_RD_ATOMIC; QP_MIN_RNR_TIMER]
  | QPS_RTS => [QP_TIMEOUT; QP_RETRY_CNT; QP_RNR_RETRY; QP_SQ_PSN; QP_MAX_QP_RD_ATOMIC]
  | QPS_RESET => []
  end.
Definition pred_state (s : qp_state) : option qp_state :=
  match s with QPS_INIT => Some QPS_RESET | QPS_RTR => Some QPS_INIT | QPS_RTS => Some QPS_RTR | QPS_RESET => None end.
Definition legal_modify (cur : qp_state) (a : qp_attr) (mask : list attr_bit) : Prop :=
  QP_STATE ∈ mask ∧ pred_state (at_state a) = Some cur ∧ Forall (fun b => b ∈ mask) (required (at_state a)).
#[export] Instance legal_modify_dec cur a mask : Decision (legal_modify cur a mask).
Proof. unfold legal_modify. apply _. Defined.

(** The queue pairs by handle: the state of each with the attributes it was
    moved by, newest first.  A new queue pair is in RESET; a legal modification
    may succeed, an illegal one is refused and leaves the mark [refused]. *)
Record qps := mkQps { qstate : Z → qp_state; applied : Z → list qp_attr; nums : Z → Z; refused : bool }.
Definition qp_env : envspec sys_sig qps :=
  fun o s =>
    match o return sys_ans o → qps → Prop with
    | v_create_qp _ _ => fun x s' =>
        match x with
        | Some q => nq_h q ≠ 0 ∧ 0 ≤ nq_num q < 2 ^ 32 ∧
            s' = mkQps (<[nq_h q := QPS_RESET]> (qstate s)) (<[nq_h q := []]> (applied s))
                       (<[nq_h q := nq_num q]> (nums s)) (refused s)
        | None => s' = s
        end
    | v_modify_qp q a mask => fun rc s' =>
        if decide (legal_modify (qstate s q) a mask)
        then rc = 0 ∧ s' = mkQps (<[q := at_state a]> (qstate s)) (<[q := a :: applied s q]> (applied s)) (nums s) (refused s)
             ∨ rc ≠ 0 ∧ s' = s
        else rc ≠ 0 ∧ s' = mkQps (qstate s) (applied s) (nums s) true
    | v_query_gid _ _ _ => fun x s' => s' = s ∧ (∀ g, x = Some g → length g = 16%nat)
    | _ => fun _ s' => s' = s
    end.

(** * Witnesses *)

Lemma blank0 : blank rai_qp0.
Proof. done. Qed.
Lemma verbs_listen_no_leak_witness :
  wp ledger_env (rai_verbs_listen_qp rai_qp0 7000 (Some 3))
    (fun '(rc, qp', fd) L' => attached qp' fd rc [fd_res 1] L') [fd_res 1].
Proof. apply (verbs_listen_no_leak rai_qp0 7000 (Some 3) [fd_res 1] blank0). Defined.
Lemma verbs_connect_no_leak_witness :
  wp ledger_env (rai_verbs_connect_qp rai_qp0 (Some "10.0.0.1"%string) 7000)
    (fun '(rc, qp') L' => attached qp' None rc [] L') [].
Proof. apply (verbs_connect_no_leak rai_qp0 (Some "10.0.0.1"%string) 7000 [] blank0). Defined.
