(* ===== verification/VerbsConnected.v ===== *)
(** The two ends of a raw-verbs connection: states of the queue pairs and what
    each end knows of the other. *)
From stdpp Require Import strings.
From S2P Require Import Prelude Prog Sys RdmaCommon Oob OobSpec RdmaRes VerbsConnect VerbsSpec.

(** One step of a call the queue pairs do not notice. *)
Ltac silent x := cbn [bind sys call wp]; intros x ? ->; cbn in x.

(** The calls that carry bytes, and those the queue pairs notice. *)
Definition bytes_op (o : sys_op) : Prop := match o with c_send _ _ _ | c_recv _ _ _ => True | _ => False end.
Definition qp_op (o : sys_op) : Prop :=
  match o with v_create_qp _ _ | v_modify_qp _ _ _ | v_query_gid _ _ _ => True | _ => False end.
Definition plain (o : op sys_sig) : Prop := ¬ bytes_op o ∧ ¬ qp_op o.
Ltac plain_tac := repeat first [progress only_tac | apply only_call; split; intros [] ].

Lemma stream_silent m o s x s' : ¬ bytes_op o → stream_env m o s x s' → s' = s.
Proof. destruct o; cbn; intros Hb Hs; try done; by destruct Hb. Qed.
Lemma qps_silent o s x s' : ¬ qp_op o → qp_env o s x s' → s' = s.
Proof. destruct o; cbn; intros Hb Hs; try done; by destruct Hb. Qed.

Section plain.
Lemma oob_listen_plain port fd : only plain (rai_oob_listen port fd).
Proof. unfold rai_oob_listen. plain_tac. Qed.
Lemma oob_connect_out_plain fd rc qp : only plain (oob_connect_out fd rc qp).
Proof. unfold oob_connect_out. plain_tac. Qed.
Lemma qp_destroy_plain qp : only plain (rai_qp_destroy qp).
Proof. unfold rai_qp_destroy, qp_destroy_cm, qp_destroy_verbs, destroy. plain_tac. Qed.
Lemma open_device_plain : only plain open_device.
Proof.
  assert (Hloop : ∀ want devs, only plain (device_loop want devs)).
  { intros want. induction devs as [|d devs IH]; cbn [device_loop]; plain_tac. }
  unfold open_device. plain_tac.
Qed.
Lemma find_gid_plain ctx port : only plain (find_roce_v2_gid ctx port).
Proof.
  assert (Hloop : ∀ n i r l, only plain (gid_loop n ctx port i r l)).
  { induction n as [|n IH]; intros; cbn [gid_loop]; plain_tac. }
  unfold find_roce_v2_gid. plain_tac.
Qed.
Lemma plain_qps {A} (p : sysM A) s : only plain p → wp qp_env p (fun _ s' => s' = s) s.
Proof. apply only_silent. intros o s' x s'' [_ ?]. by apply qps_silent. Qed.
Lemma plain_stream {A} m (p : sysM A) s : only plain p → wp (stream_env m) p (fun _ s' => s' = s) s.
Proof. apply only_silent. intros o s' x s'' [? _]. by apply stream_silent. Qed.
End plain.

Section states.
Implicit Types s : qps.

(** After [build_qp_verbs] the queue pair is in INIT on the object's port, and
    the local record names it. *)
Definition built_state (qp : rai_qp) (s : qps) : Prop :=
  qp_qp qp ≠ 0 ∧ qstate s (qp_qp qp) = QPS_INIT ∧ applied s (qp_qp qp) = [init_attr_of (qp_port_num qp)] ∧
  nums s (qp_qp qp) = ci_qpn (qp_local qp) ∧ qp_port_num qp ≠ 0 ∧ ci_psn (qp_local qp) = 0.
Lemma build_qp_state qp s :
  refused s = false →
  wp qp_env (build_qp_verbs qp) (fun '(rc, qp') s' => refused s' = false ∧
    (rc = 0 → built_state qp' s' ∧ qp_remote qp' = qp_remote qp ∧
              (info_ok (qp_local qp) → info_ok (qp_local qp')))) s.
Proof.
  intros Href. unfold build_qp_verbs. eapply wp_bind_2; [apply plain_qps, open_device_plain|]. intros ctx ? ->.
  case_bool_decide; [done|].
  set (q1 := if bool_decide (qp_port_num (set_ctx ctx qp) = 0) then _ else _).
  assert (Hq1 : qp_port_num q1 ≠ 0 ∧ qp_remote q1 = qp_remote qp ∧ qp_local q1 = qp_local qp).
  { unfold q1. case_bool_decide; done. }
  clearbody q1. destruct Hq1 as (Hport & Hrem & Hloc).
  eapply wp_bind_2; [apply plain_qps, find_gid_plain|]. intros gi ? ->. destruct (gi <? 0); [done|].
  silent pd. case_bool_decide; [done|]. silent cq. case_bool_decide; [done|].
  cbn [bind sys call wp]. intros nq s1 Hs1. cbn in nq, Hs1. destruct nq as [nq|]; [|by subst s1].
  destruct Hs1 as (Hne & Hnum & ->).
  cbn [bind sys call wp]. intros gid s1 [-> Hgid]. cbn in gid. destruct gid as [gid|]; [|done].
  cbn [bind sys call wp]. intros rc s2 Hs2. cbn in rc, Hs2. rewrite !fn_lookup_insert in Hs2.
  case_decide as Hlegal; [|by destruct Hlegal; vm_compute; repeat constructor; set_solver].
  destruct Hs2 as [[-> ->]|[Hrc ->]]; [|by rewrite bool_decide_eq_true_2].
  cbn. split; [done|]. intros _. split; [|split; [done|]].
  - unfold built_state. cbn. rewrite !fn_lookup_insert. done.
  - rewrite Hloc. intros [Ha Hg Hr _ _]. constructor; cbn; [done|by apply Hgid|done|done|lia].
Qed.

(** After [qp_to_rts] it is in RTS, moved there through RTR with the peer's
    numbers. *)
Definition connected_state (qp : rai_qp) (s : qps) : Prop :=
  qstate s (qp_qp qp) = QPS_RTS ∧
  ∃ mtu, applied s (qp_qp qp) = [rts_attr_of qp; rtr_attr_of qp mtu; init_attr_of (qp_port_num qp)].
Lemma qp_to_rts_state qp s :
  refused s = false → built_state qp s →
  wp qp_env (qp_to_rts qp) (fun rc s' => refused s' = false ∧ nums s' = nums s ∧ (rc = 0 → connected_state qp s')) s.
Proof.
  intros Href (Hne & Hst & Happ & _). unfold qp_to_rts. rewrite bool_decide_eq_false_2 by done.
  silent a. destruct a as [a|]; [|done].
  cbn [bind sys call wp]. intros rc s1 Hs1. cbn in rc, Hs1. rewrite Hst in Hs1.
  case_decide as Hlegal; [|by destruct Hlegal; vm_compute; repeat constructor; set_solver].
  destruct Hs1 as [[-> ->]|[Hrc ->]]; [|by rewrite bool_decide_eq_true_2].
  rewrite bool_decide_eq_false_2 by lia.
  cbn [bind sys call wp]. intros rc s2 Hs2. cbn in rc, Hs2. rewrite !fn_lookup_insert in Hs2.
  case_decide as Hlegal'; [|by destruct Hlegal'; vm_compute; repeat constructor; set_solver].
  destruct Hs2 as [[-> ->]|[Hrc ->]]; [|by rewrite bool_decide_eq_true_2].
  cbn. split; [done|]. split; [done|]. intros _. unfold connected_state. cbn.
  rewrite !fn_lookup_insert, Happ. split; [done|]. by exists (active_mtu a).
Qed.
End states.

(** * Both ends *)

(** A server as the benchmarks run it: listen, then accept. *)
Definition verbs_server (qp : rai_qp) (port : Z) (mr_listen_fd : option Z) : sysM (Z * rai_qp) :=
  let! (rc, qp, fd) := rai_verbs_listen_qp qp port mr_listen_fd in
  if bool_decide (rc ≠ 0) then Ret (-1, qp) else
  rc <- rai_verbs_accept_qp qp ;; Ret (rc, qp).

Section ends.
Context (m : Z → Z).
Abbreviation env := (both_env (stream_env m) qp_env).
Definition no_bytes (o : op sys_sig) : Prop := ¬ bytes_op o.
Definition no_qp (o : op sys_sig) : Prop := ¬ qp_op o.
Ltac none_tac := repeat first [progress only_tac | apply only_call; intros [] ].

Lemma plain_both {A} (p : sysM A) s : only plain p → wp env p (fun _ s' => s' = s) s.
Proof.
  intros Hp. destruct s as [st qs]. eapply wp_mono; [|apply wp_both; [by apply plain_stream|by apply plain_qps]].
  intros a [st' qs'] [? ?]. cbn in *. by subst.
Qed.
Lemma build_no_bytes qp : only no_bytes (build_qp_verbs qp).
Proof.
  assert (Hp : ∀ A (p : sysM A), only plain p → only no_bytes p) by (intros A p; apply only_mono; by intros o []).
  unfold build_qp_verbs. repeat first [apply Hp, open_device_plain | apply Hp, find_gid_plain | progress none_tac].
Qed.
Lemma to_rts_no_bytes qp : only no_bytes (qp_to_rts qp).
Proof. unfold qp_to_rts. none_tac. Qed.
Lemma send_loop_no_qp fuel fd b len sent : only no_qp (send_loop fuel fd b len sent).
Proof. revert sent. induction fuel as [|fuel IH]; intros sent; cbn [send_loop]; none_tac. Qed.
Lemma recv_loop_no_qp fuel fd b len recved acc : only no_qp (recv_loop fuel fd b len recved acc).
Proof. revert recved acc. induction fuel as [|fuel IH]; intros; cbn [recv_loop]; none_tac. Qed.
Lemma accept_no_qp fd qp : only no_qp (rai_oob_accept fd qp).
Proof.
  unfold rai_oob_accept, send_all, recv_all.
  repeat first [apply send_loop_no_qp | apply recv_loop_no_qp | progress none_tac].
Qed.
Lemma connect_no_qp qp ip port : only no_qp (rai_oob_connect qp ip port).
Proof.
  unfold rai_oob_connect, send_all, recv_all, oob_connect_out.
  repeat first [apply send_loop_no_qp | apply recv_loop_no_qp | progress none_tac].
Qed.
Lemma no_qp_silent {A} (p : sysM A) s : only no_qp p → wp qp_env p (fun _ s' => s' = s) s.
Proof. apply only_silent. intros o s' x s'' ?. by apply qps_silent. Qed.
Lemma no_bytes_silent {A} (p : sysM A) s : only no_bytes p → wp (stream_env m) p (fun _ s' => s' = s) s.
Proof. apply only_silent. intros o s' x s'' ?. by apply stream_silent. Qed.

(** What an end that succeeded knows. *)
Definition end_ok (q : rai_qp) (st : stream) (qs : qps) : Prop :=
  connected_state q qs ∧ nums qs (qp_qp q) = ci_qpn (qp_local q) ∧ info_ok (qp_local q) ∧
  put st = encode_info (qp_local q) ∧ Z.of_nat (length (got st)) = sizeof_conn_info ∧
  qp_remote q = decode_info (got st).
Definition end_post : Z * rai_qp → stream * qps → Prop :=
  fun '(rc, q) '(st, qs) => refused qs = false ∧ (rc = 0 → end_ok q st qs).

Lemma built_remote g q qs : built_state q qs → built_state (set_remote g q) qs.
Proof. done. Qed.

(** From the built object through the exchange to RTS. *)
Lemma to_rts_end q rc g st qs :
  built_state q qs → refused qs = false → info_ok (qp_local q) →
  exchanged q rc g st → rc = 0 → g = Some (set_remote (decode_info (got st)) q) ∧
  wp env (qp_to_rts (set_remote (decode_info (got st)) q))
    (fun rc' s' => end_post (rc', set_remote (decode_info (got st)) q) s') (st, qs).
Proof.
  intros Hb Href Hok [_ Hex] ->. destruct (Hex eq_refl) as (Hput & Hgot & ->). split; [done|].
  set (q1 := set_remote _ q). assert (Hb1 : built_state q1 qs) by exact Hb.
  eapply wp_mono; [|apply wp_both; [by apply no_bytes_silent, to_rts_no_bytes|by apply qp_to_rts_state]].
  intros rc' [st' qs'] [Hst (Href' & Hnums & Hconn)]. cbn in *. subst st'. split; [done|].
  intros Hrc. split; [by apply Hconn|]. rewrite Hnums. destruct Hb as (_ & _ & _ & Hn & _). done.
Qed.

Lemma listen_out_end ep rc q mf s :
  wp env (verbs_listen_out ep rc q mf) (fun '(rc', q', _) s' => s' = s ∧ rc' = rc ∧ (rc = 0 → q' = q)) s.
Proof.
  unfold verbs_listen_out. eapply wp_bind_2; [apply plain_both; plain_tac|]. intros _ ? ->.
  case_bool_decide; [|done]. eapply wp_bind_2; [apply plain_both; plain_tac|]. intros mf' ? ->.
  eapply wp_bind_2; [apply plain_both, qp_destroy_plain|]. intros q' ? ->. done.
Qed.
Lemma connect_out_end rc q s :
  wp env (verbs_connect_out rc q) (fun '(rc', q') s' => s' = s ∧ rc' = rc ∧ (rc = 0 → q' = q)) s.
Proof.
  unfold verbs_connect_out. case_bool_decide; [|done].
  eapply wp_bind_2; [apply plain_both, qp_destroy_plain|]. intros q' ? ->. done.
Qed.

Lemma verbs_server_end qp port mfd qs :
  refused qs = false → info_ok (qp_local qp) → info_ok (qp_remote qp) →
  wp env (verbs_server qp port mfd) end_post (mkStream [] [], qs).
Proof.
  intros Href Hl Hr. unfold verbs_server.
  eapply (wp_bind_2 _ _ _ (fun '(rc, q, fd) s => refused s.2 = false ∧ (rc = 0 →
    built_state q s.2 ∧ info_ok (qp_local q) ∧ put s.1 = encode_info (qp_local q) ∧
    Z.of_nat (length (got s.1)) = sizeof_conn_info ∧ qp_remote q = decode_info (got s.1)))).
  - unfold rai_verbs_listen_qp. set (qp1 := set_mode RAI_CONN_VERBS qp).
    assert (Hfail : ∀ ep q m' s, refused s.2 = false →
      wp env (verbs_listen_out ep (-1) q m') (fun '(rc, q, fd) s => refused s.2 = false ∧ (rc = 0 →
        built_state q s.2 ∧ info_ok (qp_local q) ∧ put s.1 = encode_info (qp_local q) ∧
        Z.of_nat (length (got s.1)) = sizeof_conn_info ∧ qp_remote q = decode_info (got s.1))) s).
    { intros ep q m' s Hs. eapply wp_mono; [|apply listen_out_end].
      intros [[rc q'] fd] s' (-> & -> & _). done. }
    eapply wp_bind_2; [apply plain_both, oob_listen_plain|]. intros [rc ep] ? ->.
    case_bool_decide; [by apply Hfail|].
    eapply wp_bind_2.
    { apply plain_both. destruct mfd; plain_tac. apply oob_listen_plain. }
    intros [rc1 m1] ? ->. case_bool_decide; [by apply Hfail|].
    eapply wp_bind_2; [apply wp_both; [by apply no_bytes_silent, build_no_bytes|by apply build_qp_state]|].
    intros [rc2 q2] [st qs2] [Hst [Href2 Hb]]. cbn in Hst, Href2, Hb. subst st.
    case_bool_decide; [by apply Hfail|]. destruct (Hb ltac:(lia)) as (Hbs & Hrem & Hloc).
    specialize (Hloc Hl). rewrite <- Hrem in Hr.
    eapply wp_bind_2; [apply wp_both; [by apply rai_oob_accept_stream|by apply no_qp_silent, accept_no_qp]|].
    intros [rc3 g] [st qs3] [Hex Hqs]. cbn in Hex, Hqs. subst qs3.
    case_bool_decide; [by apply Hfail|]. destruct Hex as [_ Hex]. destruct (Hex ltac:(lia)) as (Hput & Hgot & ->).
    cbn [default]. eapply wp_mono; [|apply listen_out_end].
    intros [[rc' q'] fd] s' (-> & -> & Hq). rewrite Hq by done. done.
  - intros [[rc q] fd] [st qs'] [Href' Hok]. case_bool_decide as Hrc; [done|].
    cbn [fst snd] in *. destruct (Hok ltac:(lia)) as (Hb & Hl' & Hput & Hgot & Hrem).
    unfold rai_verbs_accept_qp. do 2 apply wp_bind.
    eapply wp_mono; [|apply wp_both; [by apply no_bytes_silent, to_rts_no_bytes|by apply qp_to_rts_state]].
    intros rc' [st' qs''] [Hst (Href2 & Hnums & Hconn)]. cbn in *. subst st'.
    case_bool_decide; cbn; [done|]. split; [done|]. intros _. split; [by apply Hconn; lia|].
    rewrite Hnums. destruct Hb as (_ & _ & _ & Hn & _). done.
Qed.

Lemma verbs_client_end qp ip port qs :
  refused qs = false → info_ok (qp_local qp) → info_ok (qp_remote qp) →
  wp env (rai_verbs_connect_qp qp ip port) end_post (mkStream [] [], qs).
Proof.
  intros Href Hl Hr. unfold rai_verbs_connect_qp. set (qp1 := set_mode RAI_CONN_VERBS qp).
  assert (Hfail : ∀ q s, refused s.2 = false → wp env (verbs_connect_out (-1) q) end_post s).
  { intros q [st s] Hs. eapply wp_mono; [|apply connect_out_end]. intros [rc q'] s' (-> & -> & _). done. }
  eapply wp_bind_2; [apply wp_both; [by apply no_bytes_silent, build_no_bytes|by apply build_qp_state]|].
  intros [rc q] [st qs2] [Hst [Href2 Hb]]. cbn in Hst, Href2, Hb. subst st.
  case_bool_decide; [by apply Hfail|]. destruct (Hb ltac:(lia)) as (Hbs & Hrem & Hloc).
  specialize (Hloc Hl). rewrite <- Hrem in Hr.
  eapply wp_bind_2; [apply wp_both; [by apply rai_oob_connect_stream|by apply no_qp_silent, connect_no_qp]|].
  intros [rc2 g] [st qs3] [Hex Hqs]. cbn in Hex, Hqs. subst qs3.
  case_bool_decide; [by apply Hfail|]. assert (Hrc2 : rc2 = 0) by lia.
  destruct (to_rts_end q rc2 g st qs2 Hbs Href2 Hloc Hex Hrc2) as [-> Hrts]. cbn [default].
  eapply wp_bind_2; [exact Hrts|]. intros rc3 [st' qs4] [Href4 Hend].
  case_bool_decide; [by apply Hfail|]. eapply wp_mono; [|apply connect_out_end].
  intros [rc' q'] s' (-> & -> & Hq). rewrite Hq by done. split; [done|]. intros _. apply Hend. lia.
Qed.
End ends.

(** End [q] is in RTS, addressed at the queue pair of end [q'] and expecting its
    packet numbers. *)
Definition linked (q : rai_qp) (qs : qps) (q' : rai_qp) (qs' : qps) : Prop :=
  qstate qs (qp_qp q) = QPS_RTS ∧
  ∃ rts rtr init rts' rtr' init',
    applied qs (qp_qp q) = [rts; rtr; init] ∧ applied qs' (qp_qp q') = [rts'; rtr'; init'] ∧
    at_state init = QPS_INIT ∧ at_state rtr = QPS_RTR ∧ at_state rts = QPS_RTS ∧
    at_dest_qp_num rtr = nums qs' (qp_qp q') ∧ at_rq_psn rtr = at_sq_psn rts' ∧
    ah_dgid rtr = ci_gid (qp_local q').
Lemma end_ok_linked q st qs q' st' qs' :
  end_ok q st qs → end_ok q' st' qs' → got st = put st' → linked q qs q' qs'.
Proof.
  intros ((Hst & mtu & Happ) & _ & _ & _ & _ & Hrem) ((_ & mtu' & Happ') & Hnum' & Hok' & Hput' & _) Heq.
  rewrite Heq, Hput', decode_encode_info in Hrem by done. split; [done|].
  eexists _, _, _, _, _, _. split; [exact Happ|]. split; [exact Happ'|]. cbn.
  rewrite Hrem, Hnum'. done.
Qed.

(** C10. Both ends of a raw-verbs connection: no queue-pair transition is ever
    illegal or lacks a required attribute, and when both ends return 0 over a
    reliable byte stream, each queue pair is in RTS, was moved through INIT and
    RTR, is addressed at the number and GID of the other, and expects the packet
    number the other starts from. *)
Theorem verbs_connected (m m' : Z → Z) (srv cli : rai_qp) (port port' : Z) (ip : option string)
    (mfd : option Z) (qs0 qs0' : qps) :
  refused qs0 = false → refused qs0' = false →
  info_ok (qp_local srv) → info_ok (qp_remote srv) → info_ok (qp_local cli) → info_ok (qp_remote cli) →
  wp (both_env (stream_env m) qp_env) (verbs_server srv port mfd) (fun '(rc, q) '(st, qs) =>
    wp (both_env (stream_env m') qp_env) (rai_verbs_connect_qp cli ip port') (fun '(rc', q') '(st', qs') =>
      refused qs = false ∧ refused qs' = false ∧
      (got st `prefix_of` put st' → got st' `prefix_of` put st → rc = 0 → rc' = 0 →
         linked q qs q' qs' ∧ linked q' qs' q qs))
    (mkStream [] [], qs0')) (mkStream [] [], qs0).
Proof.
  intros Hr Hr' Hls Hrs Hlc Hrc. eapply wp_mono; [|by apply verbs_server_end].
  intros [rc q] [st qs] [Href Hend]. eapply wp_mono; [|by apply verbs_client_end].
  intros [rc' q'] [st' qs'] [Href' Hend']. split; [done|]. split; [done|]. intros Hp Hp' -> ->.
  specialize (Hend eq_refl). specialize (Hend' eq_refl).
  pose proof Hend as (_ & _ & Hok & Hput & Hgot & _). pose proof Hend' as (_ & _ & Hok' & Hput' & Hgot' & _).
  pose proof (length_encode_info _ Hok). pose proof (length_encode_info _ Hok').
  apply prefix_length_eq in Hp; [|rewrite Hput'; lia]. apply prefix_length_eq in Hp'; [|rewrite Hput; lia].
  split; by eapply end_ok_linked.
Qed.

(** * Witness: a run of both ends *)

Definition demo_gid : list Z := [0;0;0;0; 0;0;0;0; 0;0;255;255; 10;0;0;1].
Definition demo_conn (inp : list Z) (num : Z) : handler sys_sig (stream * qps) :=
  fun o s =>
    let st := s.1 in let qs := s.2 in
    match o return sys_ans o * (stream * qps) with
    | v_get_device_list => (Some (100, [1]), s)
    | v_open_device _ => (7, s)
    | v_query_device _ => (Some 5, s)
    | v_query_port _ _ => (Some (mkPortAttr 1 3), s)
    | v_query_gid_ex _ _ _ => (Some (mkGidEntry true demo_gid), s)
    | v_query_gid _ _ _ => (Some demo_gid, s)
    | v_alloc_pd _ => (8, s)
    | v_create_cq _ _ => (9, s)
    | v_create_qp _ _ => (Some (mkNewQp 10 num 220),
        (st, mkQps (<[10 := QPS_RESET]> (qstate qs)) (<[10 := []]> (applied qs)) (<[10 := num]> (nums qs)) (refused qs)))
    | v_modify_qp q a mask =>
        if decide (legal_modify (qstate qs q) a mask)
        then (0, (st, mkQps (<[q := at_state a]> (qstate qs)) (<[q := a :: applied qs q]> (applied qs)) (nums qs) (refused qs)))
        else (-1, (st, mkQps (qstate qs) (applied qs) (nums qs) true))
    | o => let r := demo_stream inp o st in (r.1, (r.2, qs))
    end.
Lemma demo_conn_env inp num o s : 0 ≤ num < 2 ^ 32 →
  both_env (stream_env (fun _ => 0)) qp_env o s (demo_conn inp num o s).1 (demo_conn inp num o s).2.
Proof.
  intros Hn. destruct s as [st qs].
  destruct o; lazymatch goal with
  | |- context [v_modify_qp _ _ _] => idtac
  | |- context [v_create_qp _ _] => by split; [|split; [|split]]
  | |- context [v_query_gid _ _ _] => split; [done|split; [done|by intros g [= <-]]]
  | |- both_env _ _ ?o _ _ _ => split; [first [exact (demo_stream_env inp o st)|reflexivity]|reflexivity]
  end.
  unfold both_env, demo_conn. cbn [fst snd stream_env qp_env].
  case_decide; cbn [fst snd]; [by auto|]. split; [done|]. by split.
Qed.
Definition qps0 : qps := mkQps (fun _ => QPS_RESET) (fun _ => []) (fun _ => 0) false.
Definition demo_local (num : Z) : rai_conn_info := mkConnInfo 4096 demo_gid 17 num 0.
Definition demo_end_srv : (Z * rai_qp) * (stream * qps) :=
  run (demo_conn (encode_info (demo_local 77)) 66) (verbs_server (set_local (demo_info 4096 17 0 0) rai_qp0) 7000 None)
      (mkStream [] [], qps0).
Definition demo_end_cli : (Z * rai_qp) * (stream * qps) :=
  run (demo_conn (encode_info (demo_local 66)) 77)
      (rai_verbs_connect_qp (set_local (demo_info 4096 17 0 0) rai_qp0) (Some "10.0.0.1"%string) 7000)
      (mkStream [] [], qps0).
#[local] Strategy expand [demo_end_srv demo_end_cli].
Lemma demo_end_srv_eq :
  run (demo_conn (encode_info (demo_local 77)) 66) (verbs_server (set_local (demo_info 4096 17 0 0) rai_qp0) 7000 None)
      (mkStream [] [], qps0) = demo_end_srv.
Proof. reflexivity. Qed.
Lemma demo_end_cli_eq :
  run (demo_conn (encode_info (demo_local 66)) 77)
      (rai_verbs_connect_qp (set_local (demo_info 4096 17 0 0) rai_qp0) (Some "10.0.0.1"%string) 7000)
      (mkStream [] [], qps0) = demo_end_cli.
Proof. reflexivity. Qed.
Lemma demo_ends :
  demo_end_srv.1.1 = 0 ∧ demo_end_cli.1.1 = 0 ∧
  demo_end_srv.2.1 = mkStream (encode_info (demo_local 77)) (encode_info (demo_local 66)) ∧
  demo_end_cli.2.1 = mkStream (encode_info (demo_local 66)) (encode_info (demo_local 77)).
Proof. split_and!; vm_compute; reflexivity. Qed.

Lemma verbs_connected_witness :
  linked demo_end_srv.1.2 demo_end_srv.2.2 demo_end_cli.1.2 demo_end_cli.2.2.
Proof.
  pose proof (demo_info_ok 4096 17 0 0 ltac:(lia)) as Hok.
  assert (Hw := verbs_connected (fun _ => 0) (fun _ => 0) (set_local (demo_info 4096 17 0 0) rai_qp0)
    (set_local (demo_info 4096 17 0 0) rai_qp0) 7000 7000 (Some "10.0.0.1"%string) None qps0 qps0
    eq_refl eq_refl Hok conn_info0_ok Hok conn_info0_ok).
  apply (run_wp _ (demo_conn (encode_info (demo_local 77)) 66)) in Hw; [|intros; by apply demo_conn_env].
  rewrite demo_end_srv_eq in Hw. destruct demo_ends as (H1 & H2 & H3 & H4). revert H1 H3 Hw.
  destruct demo_end_srv as [[rc q] [st qs]]. cbn [fst snd]. intros H1 H3 Hw.
  cbn beta iota in Hw.
  match type of Hw with wp ?h ?p ?Q ?s =>
    apply (run_wp h (demo_conn (encode_info (demo_local 66)) 77) p Q s
             (fun o s' => demo_conn_env _ 77 o s' ltac:(lia))) in Hw
  end.
  rewrite demo_end_cli_eq in Hw. revert H2 H4 Hw. destruct demo_end_cli as [[rc' q'] [st' qs']]. cbn [fst snd].
  intros H2 H4 (_ & _ & Hw). subst st st'. apply Hw; [reflexivity|reflexivity|exact H1|exact H2].
Defined.
