(* ===== verification/CmConnect.v ===== *)
(** Phase 1, [rdma_cm_connect.c]: connections driven by librdmacm. *)
From stdpp Require Import strings.
From S2P Require Import Prelude Prog Sys RdmaCommon Oob RdmaRes VerbsConnect.

Definition CM_TIMEOUT_MS : Z := 3000.

Definition build_qp_from_cm (qp : rai_qp) (id : Z) : sysM (Z * rai_qp) :=
  verbs <- sys (m_id_verbs id) ;;
  pd <- sys (v_alloc_pd verbs) ;;
  let qp := set_pd pd qp in
  if bool_decide (pd = 0) then Ret (-1, qp) else
  verbs <- sys (m_id_verbs id) ;;
  cq <- sys (v_create_cq verbs CQ_DEPTH) ;;
  let qp := set_cq cq qp in
  if bool_decide (cq = 0) then Ret (-1, qp) else
  nq <- sys (m_create_qp id (qp_pd qp) (mkInitAttr cq cq qp_caps)) ;;
  match nq with
  | None => Ret (-1, qp)
  | Some nq => Ret (0, set_max_inline (nq_inline nq) (set_qp (nq_h nq) qp))
  end.

(** The event, or None with the unexpected one acknowledged. *)
Definition cm_wait_event (ec : Z) (expected : cm_event) : sysM (Z * option cm_ev) :=
  e <- sys (m_get_event ec) ;;
  match e with
  | None => Ret (-1, None)
  | Some e =>
    if decide (ev_type e = expected) then Ret (0, Some e)
    else sys (m_ack_event (ev_h e)) ;; Ret (-1, None)
  end.

Definition cm_listen_out (listen_id ret : Z) (qp : rai_qp) (mr_listen_fd : option Z)
    : sysM (Z * rai_qp * option Z) :=
  destroy listen_id (m_destroy_id listen_id) ;;
  if bool_decide (ret ≠ 0) then qp' <- rai_qp_destroy (Some qp) ;; Ret (ret, default qp qp', mr_listen_fd)
  else Ret (ret, qp, mr_listen_fd).
Definition rai_cm_listen_qp (qp : rai_qp) (port : Z) (mr_listen_fd : option Z)
    : sysM (Z * rai_qp * option Z) :=
  let qp := set_mode RAI_CONN_CM qp in
  let mfd := mr_listen_fd in
  ec <- sys m_create_event_channel ;;
  if bool_decide (ec = 0) then cm_listen_out 0 (-1) qp mfd else
  let qp := set_ec ec qp in
  lid <- sys (m_create_id ec) ;;
  match lid with
  | None => cm_listen_out 0 (-1) qp mfd
  | Some listen_id =>
    rc <- sys (m_bind_addr listen_id (htons port)) ;;
    if bool_decide (rc ≠ 0) then cm_listen_out listen_id (-1) qp mfd else
    rc <- sys (m_listen listen_id 1) ;;
    if bool_decide (rc ≠ 0) then cm_listen_out listen_id (-1) qp mfd else
    let! (rc, event) := cm_wait_event ec EV_CONNECT_REQUEST in
    match event with
    | Some event =>
      if bool_decide (rc ≠ 0) then cm_listen_out listen_id (-1) qp mfd else
      let conn_id := ev_id event in
      let qp := set_cm_id conn_id qp in
      sys (m_ack_event (ev_h event)) ;;
      let! (rc, qp) := build_qp_from_cm qp conn_id in
      if bool_decide (rc ≠ 0) then cm_listen_out listen_id (-1) qp mfd else
      let! (rc, mfd) := match mfd with
                        | Some fd => let! (rc, fd) := rai_oob_listen (port + 1) fd in Ret (rc, Some fd)
                        | None => Ret (0, None)
                        end in
      if bool_decide (rc ≠ 0) then cm_listen_out listen_id (-1) qp mfd else
      cm_listen_out listen_id 0 qp mfd
    | None => cm_listen_out listen_id (-1) qp mfd
    end
  end.

Definition cm_param : conn_param := mkConnParam 16 16 7.
Definition rnr_attr : qp_attr :=
  mkQpAttr QPS_RESET 0 0 [] 0 0 0 0 12 0 (replicate 16 0) 0 0 0 0 0 0 0 0.

Definition rai_cm_accept_qp (qp : rai_qp) : sysM Z :=
  rc <- sys (m_accept (qp_cm_id qp) cm_param) ;;
  if bool_decide (rc ≠ 0) then Ret (-1) else
  _ <- sys (v_modify_qp (qp_qp qp) rnr_attr [QP_MIN_RNR_TIMER]) ;;
  let! (rc, event) := cm_wait_event (qp_ec qp) EV_ESTABLISHED in
  match event with
  | Some event => if bool_decide (rc ≠ 0) then Ret (-1) else sys (m_ack_event (ev_h event)) ;; Ret 0
  | None => Ret (-1)
  end.

Definition cm_connect_out (ret : Z) (qp : rai_qp) : sysM (Z * rai_qp) :=
  if bool_decide (ret ≠ 0) then qp' <- rai_qp_destroy (Some qp) ;; Ret (ret, default qp qp')
  else Ret (ret, qp).
(** [if (cm_wait_event (ec, expected, &event)) goto out; rdma_ack_cm_event (event);] *)
Definition wait_ack (ec : Z) (expected : cm_event) : sysM Z :=
  let! (rc, event) := cm_wait_event ec expected in
  match event with
  | Some event => if bool_decide (rc ≠ 0) then Ret rc else sys (m_ack_event (ev_h event)) ;; Ret rc
  | None => Ret rc
  end.
Definition rai_cm_connect_qp (qp : rai_qp) (server_ip : string) (port : Z) : sysM (Z * rai_qp) :=
  let qp := set_mode RAI_CONN_CM qp in
  ec <- sys m_create_event_channel ;;
  if bool_decide (ec = 0) then cm_connect_out (-1) qp else
  let qp := set_ec ec qp in
  id <- sys (m_create_id ec) ;;
  match id with
  | None => cm_connect_out (-1) qp
  | Some id =>
    let qp := set_cm_id id qp in
    addr <- sys (c_inet_pton server_ip) ;;
    match addr with
    | None => cm_connect_out (-1) qp
    | Some ip =>
      rc <- sys (m_resolve_addr id ip (htons port) CM_TIMEOUT_MS) ;;
      if bool_decide (rc ≠ 0) then cm_connect_out (-1) qp else
      rc <- wait_ack ec EV_ADDR_RESOLVED ;;
      if bool_decide (rc ≠ 0) then cm_connect_out (-1) qp else
      rc <- sys (m_resolve_route id CM_TIMEOUT_MS) ;;
      if bool_decide (rc ≠ 0) then cm_connect_out (-1) qp else
      rc <- wait_ack ec EV_ROUTE_RESOLVED ;;
      if bool_decide (rc ≠ 0) then cm_connect_out (-1) qp else
      let! (rc, qp) := build_qp_from_cm qp id in
      if bool_decide (rc ≠ 0) then cm_connect_out (-1) qp else
      rc <- sys (m_connect id cm_param) ;;
      if bool_decide (rc ≠ 0) then cm_connect_out (-1) qp else
      rc <- wait_ack ec EV_ESTABLISHED ;;
      if bool_decide (rc ≠ 0) then cm_connect_out (-1) qp else
      cm_connect_out 0 qp
    end
  end.
