(* ===== verification/CmSpec.v ===== *)
(** What the librdmacm connection guarantees: every event is acknowledged and
    nothing leaks on any failure. *)
From stdpp Require Import strings.
From S2P Require Import Prelude Prog Sys RdmaCommon Oob OobSpec RdmaRes VerbsConnect VerbsSpec CmConnect.

(** Discharges [unreferred] on lists of resources behind pointers. *)
Ltac unref :=
  repeat first
    [ apply unreferred_app; split
    | apply unreferred_opt_fd
    | apply unreferred_ptr; intros ?; rewrite ?not_elem_of_cons; repeat split; (apply not_elem_of_nil || congruence)
    | apply Forall_cons; split; [cbn; rewrite ?not_elem_of_cons; repeat split; (apply not_elem_of_nil || congruence)|]
    | apply Forall_nil; done ].

(** * Events *)

(** No listening identifier of the channel. *)
Definition no_listener (ec : Z) (L : ledger) : Prop :=
  ∀ lst, Exists (fun r => r_key r = (RId, lst) ∧ (REc, ec) ∈ r_parents r) L →
         ¬ Exists (fun r => (r_key r).1 = RListen ∧ (RId, lst) ∈ r_parents r) L.
Definition ev_res (ec : Z) (e : cm_ev) : ledger :=
  created (m_get_event ec) (Some e).

Lemma wp_ack {A} ec e l L0 L (f : unit → sysM A) Q :
  own (mkRes (REv, ev_h e) [(REc, ec); (RId, ev_id e); (RId, ev_listen e)] :: l) L0 L → unreferred (REv, ev_h e) l →
  (∀ L', own l L0 L' → wp ledger_env (f tt) Q L') → wp ledger_env (bind (sys (m_ack_event (ev_h e))) f) Q L.
Proof.
  intros Hown Hun Hf. cbn [bind sys call].
  eapply (wp_release _ _ _ _ (mkRes (REv, ev_h e) [(REc, ec); (RId, ev_id e); (RId, ev_listen e)])); [exact Hown| |done..|].
  - apply Forall_cons. split; [|done]. cbn. rewrite !not_elem_of_cons. repeat split; try congruence. apply not_elem_of_nil.
  - intros [] L' _ _ Ho. by apply Hf.
Qed.

(** A wait delivers the expected event, still to be acknowledged, or changes
    nothing: an unexpected event has been acknowledged, and without a listener on
    the channel none of them brings a new identifier. *)
Lemma cm_wait_event_ledger ec exp L :
  live L (REc, ec) → (exp ≠ EV_CONNECT_REQUEST → no_listener ec L) →
  wp ledger_env (cm_wait_event ec exp)
    (fun '(rc, ev) L' =>
       (rc = 0 ∧ ∃ e, ev = Some e ∧ ev_type e = exp ∧ own (ev_res ec e) L L' ∧
          (exp = EV_CONNECT_REQUEST → ev_id e ≠ 0)) ∨
       (rc = -1 ∧ ev = None ∧ own [] L L')) L.
Proof.
  intros Hec Hno. unfold cm_wait_event. apply wp_step, wp_acquire; [live_tac|done|].
  intros [e|] L1 Hfits Hown; [|by right]. cbn [fits] in Hfits. destruct Hfits as [Hh Hreq].
  case_decide as Hty.
  - left. split; [done|]. exists e. split; [done|]. split; [done|]. split; [done|]. intros ->. by apply Hreq.
  - unfold created in Hown. case_decide as Hcr.
    { exfalso. destruct (Hreq Hcr) as (_ & He1 & He2). apply (Hno ltac:(congruence) _ He1 He2). }
    eapply wp_ack; [exact Hown|constructor|]. intros L' Ho. by right.
Qed.
Lemma wait_ack_ledger ec exp L :
  live L (REc, ec) → exp ≠ EV_CONNECT_REQUEST → no_listener ec L →
  wp ledger_env (wait_ack ec exp) (fun rc L' => (rc = 0 ∨ rc = -1) ∧ own [] L L') L.
Proof.
  intros Hec Hexp Hno. unfold wait_ack. eapply wp_bind_2; [by apply cm_wait_event_ledger|].
  intros [rc ev] L1 [(-> & e & -> & Hty & Hown & _)|(-> & -> & Hown)]; [|by split; [right|]].
  cbn [bool_decide]. unfold ev_res, created in Hown. rewrite decide_False in Hown by congruence.
  rewrite bool_decide_eq_false_2 by lia. eapply wp_ack; [exact Hown|constructor|]. intros L' Ho. by split; [left|].
Qed.

(** * The object while it is being built *)

Section building.
Context (c1 c2 : Z).

Lemma cm_live qp l L0 L k p :
  own (l ++ cm_res c1 c2 qp) L0 L → p ≠ 0 →
  (k = RQp ∧ p = qp_qp qp ∨ k = RCq ∧ p = qp_cq qp ∨ k = RPd ∧ p = qp_pd qp ∨ k = RId ∧ p = qp_cm_id qp ∨
   k = REc ∧ p = qp_ec qp) → live L (k, p).
Proof.
  intros Hown Hp Hk. eapply own_live; [exact Hown|]. unfold live. rewrite fmap_app. apply elem_of_app. right.
  unfold cm_res. rewrite !fmap_app, !elem_of_app.
  assert (Hin : ∀ k ps, (k, p) ∈ r_key <$> ptr_res k ps p).
  { intros k' ps. unfold ptr_res. rewrite bool_decide_eq_true_2 by done. by left. }
  destruct Hk as [[-> Hk]|[[-> Hk]|[[-> Hk]|[[-> Hk]|[-> Hk]]]]]; rewrite <- Hk; auto.
Qed.
(** The channel of an object whose listener is gone has none. *)
Lemma cm_no_listener qp L0 L : own (cm_res c1 c2 qp) L0 L → qp_ec qp ≠ 0 → no_listener (qp_ec qp) L.
Proof.
  intros (HL & _ & HL0) Hec lst Hid Hlst. rewrite HL in Hid, Hlst.
  assert (Hfec : fresh (REc, qp_ec qp) L0 ∧ (qp_cm_id qp ≠ 0 → fresh (RId, qp_cm_id qp) L0)).
  { rewrite Forall_forall in HL0. split.
    - apply (HL0 (mkRes (REc, qp_ec qp) [])). unfold cm_res. rewrite !elem_of_app. do 4 right.
      unfold ptr_res. rewrite bool_decide_eq_true_2 by done. by left.
    - intros Hi. apply (HL0 (mkRes (RId, qp_cm_id qp) [(REc, qp_ec qp)])). unfold cm_res. rewrite !elem_of_app.
      do 3 right. left. unfold ptr_res. rewrite bool_decide_eq_true_2 by done. by left. }
  destruct Hfec as [Hfe Hfi]. unfold fresh in *. rewrite Forall_forall in Hfe.
  assert (Hptr : ∀ k ps p r, r ∈ ptr_res k ps p → r = mkRes (k, p) ps ∧ p ≠ 0).
  { intros k ps p r. unfold ptr_res. case_bool_decide; [|by intros ?%elem_of_nil].
    rewrite list_elem_of_singleton. done. }
  apply Exists_exists in Hid as (r & Hr & Hkey & Hpar). apply elem_of_app in Hr as [Hr|Hr].
  2: { by destruct (Hfe r Hr). }
  assert (Hl : lst = qp_cm_id qp ∧ qp_cm_id qp ≠ 0).
  { unfold cm_res in Hr. rewrite !elem_of_app in Hr.
    destruct Hr as [Hr|[Hr|[Hr|[Hr|Hr]]]]; apply Hptr in Hr as [-> ?]; cbn in Hkey; try discriminate.
    injection Hkey as <-. done. }
  destruct Hl as [-> Hi]. specialize (Hfi Hi). rewrite Forall_forall in Hfi.
  apply Exists_exists in Hlst as (r' & Hr' & Hk' & Hp'). apply elem_of_app in Hr' as [Hr'|Hr'].
  2: { by destruct (Hfi r' Hr'). }
  unfold cm_res in Hr'. rewrite !elem_of_app in Hr'.
  destruct Hr' as [Hr'|[Hr'|[Hr'|[Hr'|Hr']]]]; apply Hptr in Hr' as [-> ?]; discriminate.
Qed.
End building.

(** [build_qp_from_cm] adds what it attaches, whatever else is held. *)
Lemma build_qp_from_cm_ledger qp id l L0 L :
  qp_pd qp = 0 → qp_cq qp = 0 → qp_qp qp = 0 → qp_cm_id qp = id → id ≠ 0 →
  own (l ++ cm_res 0 0 qp) L0 L →
  wp ledger_env (build_qp_from_cm qp id)
    (fun '(rc, qp') L' => (rc = 0 ∨ rc = -1) ∧ (∃ c1 c2, own (l ++ cm_res c1 c2 qp') L0 L') ∧
       qp_mode qp' = qp_mode qp ∧ qp_cm_id qp' = id ∧ qp_ec qp' = qp_ec qp ∧
       (rc = 0 → qp_qp qp' ≠ 0 ∧ qp_cq qp' ≠ 0 ∧ qp_pd qp' ≠ 0)) L.
Proof.
  intros Hpd Hcq Hqp Hid Hne Hown.
  assert (Hidl : ∀ q L1, qp_cm_id q = id → (∃ c1 c2, own (l ++ cm_res c1 c2 q) L0 L1) → live L1 (RId, id)).
  { intros q L1 Hq (c1 & c2 & Ho). eapply cm_live; [exact Ho|done|]. auto 6. }
  unfold build_qp_from_cm.
  apply wp_step, wp_neutral; [apply Forall_singleton, (Hidl qp); eauto|done|done|intros v1 _].
  apply wp_step, wp_acquire; [constructor|done|]. intros pd L1 _ Hown1. cbn [created] in Hown1.
  set (q1 := set_pd pd qp). pose proof (own_trans _ _ _ _ _ Hown1 Hown) as Ho1.
  assert (Hq1 : own (l ++ cm_res v1 0 q1) L0 L1).
  { eapply own_proper; [|reflexivity|reflexivity|exact Ho1]. unfold q1, cm_res. cbn. rewrite Hcq, Hqp, Hpd, !ptr_res_0.
    cbn [app]. solve_Permutation. }
  clear Ho1 Hown1 Hown. case_bool_decide as Hp.
  { split; [by right|]. split; [by exists v1, 0|]. done. }
  apply wp_step, wp_neutral; [apply Forall_singleton, (Hidl q1); eauto|done|done|intros v2 _].
  apply wp_step, wp_acquire; [constructor|done|]. intros cq L2 _ Hown2. cbn [created] in Hown2.
  set (q2 := set_cq cq q1). pose proof (own_trans _ _ _ _ _ Hown2 Hq1) as Ho2.
  assert (Hq2 : own (l ++ cm_res v1 v2 q2) L0 L2).
  { eapply own_proper; [|reflexivity|reflexivity|exact Ho2]. unfold q2, q1, cm_res. cbn. rewrite Hcq, Hqp, !ptr_res_0.
    cbn [app]. solve_Permutation. }
  clear Ho2 Hown2. case_bool_decide as Hc.
  { split; [by right|]. split; [by exists v1, v2|]. done. }
  apply wp_step, wp_acquire; [|done|].
  { live_tac; eapply cm_live; try exact Hq2; try done; cbn; auto 6. }
  intros nq L3 Hfits Hown3. cbn [created send_cq recv_cq] in Hown3. destruct nq as [nq|].
  2: { apply own_nil in Hown3. rewrite <- Hown3 in Hq2. split; [by right|]. split; [by exists v1, v2|]. done. }
  cbn in Hfits. pose proof (own_trans _ _ _ _ _ Hown3 Hq2) as Ho3. split; [by left|]. split; [|done].
  exists v1, v2. eapply own_proper; [|reflexivity|reflexivity|exact Ho3]. unfold q2, q1, cm_res. cbn.
  rewrite Hqp, ptr_res_0. unfold ptr_res at 1. rewrite bool_decide_eq_true_2 by done. rewrite Hid. cbn [app].
  solve_Permutation.
Qed.

(** * Connecting *)

Lemma cm_res_blank c1 c2 qp ec : blank qp → cm_res c1 c2 (set_ec ec (set_mode RAI_CONN_CM qp)) = ptr_res REc [] ec.
Proof. intros (_ & Hpd & Hcq & Hqp & Hid & _). unfold cm_res. cbn. by rewrite Hpd, Hcq, Hqp, Hid. Qed.

(** The contract of an operation that attaches an rdma_cm connection: 0 and
    everything recorded in the object and the descriptor, or -1 with the object
    zeroed and the ledger as it was. *)
Definition cm_complete (qp : rai_qp) : Prop :=
  qp_mode qp = RAI_CONN_CM ∧ qp_qp qp ≠ 0 ∧ qp_cq qp ≠ 0 ∧ qp_pd qp ≠ 0 ∧ qp_cm_id qp ≠ 0 ∧ qp_ec qp ≠ 0.
Definition cm_attached (qp' : rai_qp) (fd : option Z) (rc : Z) (L L' : ledger) : Prop :=
  (rc = 0 ∧ cm_complete qp' ∧ (∀ f, fd = Some f → 0 ≤ f) ∧
     (∃ c1 c2, own (opt_fd_res fd ++ cm_res c1 c2 qp') L L')) ∨
  (rc = -1 ∧ qp' = rai_qp0 ∧ opt_fd_res fd = [] ∧ own [] L L').

Lemma cm_connect_out_ledger c1 c2 rc qp L0 L :
  own (cm_res c1 c2 qp) L0 L → qp_mode qp = RAI_CONN_CM → (qp_qp qp ≠ 0 → qp_cm_id qp ≠ 0) →
  (rc = 0 ∧ cm_complete qp ∨ rc = -1) →
  wp ledger_env (cm_connect_out rc qp) (fun '(rc', qp') L' => cm_attached qp' None rc' L0 L') L.
Proof.
  intros Hown Hmode Hid Hrc. unfold cm_connect_out. case_bool_decide as Hr.
  - eapply wp_bind_2; [apply (rai_qp_destroy_ledger c1 c2)|].
    + unfold qp_res. rewrite Hmode. exact Hown.
    + by intros _.
    + intros q L' [-> Ho]. right. split; [lia|done].
  - left. destruct Hrc as [[_ ?]|]; [|lia]. split; [lia|]. split; [done|]. split; [done|]. by exists c1, c2.
Qed.

Lemma rai_cm_connect_qp_ledger qp server_ip port L :
  blank qp →
  wp ledger_env (rai_cm_connect_qp qp server_ip port) (fun '(rc, qp') L' => cm_attached qp' None rc L L') L.
Proof.
  intros Hblank. unfold rai_cm_connect_qp.
  apply wp_step, wp_acquire; [constructor|done|]. intros ec L1 _ Hown. cbn [created] in Hown.
  assert (Hout : ∀ q L', own (cm_res 0 0 q) L L' → qp_mode q = RAI_CONN_CM → qp_qp q = 0 →
    wp ledger_env (cm_connect_out (-1) q) (fun '(rc, qp') L' => cm_attached qp' None rc L L') L').
  { intros q L' Ho Hm Hq. apply (cm_connect_out_ledger 0 0); [done|done|by intros []|by right]. }
  pose proof Hblank as (Hctx & Hpd & Hcq & Hqp & Hid0 & Hec0).
  case_bool_decide as Hec.
  { subst ec. apply Hout; [|done|done]. unfold cm_res. cbn. rewrite Hpd, Hcq, Hqp, Hid0, Hec0. exact Hown. }
  rewrite <- (cm_res_blank 0 0 qp ec Hblank) in Hown. set (q1 := set_ec ec (set_mode RAI_CONN_CM qp)) in *.
  assert (Hecl : ∀ q l L', qp_ec q = ec → own (l ++ cm_res 0 0 q) L L' → live L' (REc, ec)).
  { intros q l L' Hq Ho. eapply cm_live; [exact Ho|done|]. rewrite Hq. auto 6. }
  apply wp_step, wp_acquire; [apply Forall_singleton; by apply (Hecl q1 [])|done|]. intros id L2 Hid Hown2.
  destruct id as [id|]; cbn [created fits] in *.
  2: { apply own_nil in Hown2. rewrite <- Hown2 in Hown. by apply Hout. }
  pose proof (own_trans _ _ _ _ _ Hown2 Hown) as Ho2. clear Hown Hown2. set (q2 := set_cm_id id q1) in *.
  assert (Hq2 : own (cm_res 0 0 q2) L L2).
  { eapply own_proper; [|reflexivity|reflexivity|exact Ho2]. unfold q2, q1, cm_res. cbn.
    rewrite Hpd, Hcq, Hqp, Hid0, !ptr_res_0. unfold ptr_res at 1. by rewrite bool_decide_eq_true_2 by done. }
  clear Ho2.
  assert (Hidl : ∀ l L', own (l ++ cm_res 0 0 q2) L L' → live L' (RId, id)).
  { intros l L' Ho. eapply cm_live; [exact Ho|done|]. auto 6. }
  apply wp_step, wp_neutral; [constructor|done|done|intros addr _]. destruct addr as [ip|]; [|by apply Hout].
  apply wp_step, wp_neutral; [apply Forall_singleton; by apply (Hidl [])|done|done|intros rc _].
  case_bool_decide; [by apply Hout|].
  assert (Hwait : ∀ exp L', own (cm_res 0 0 q2) L L' → exp ≠ EV_CONNECT_REQUEST →
    wp ledger_env (wait_ack ec exp) (fun rc L'' => (rc = 0 ∨ rc = -1) ∧ own (cm_res 0 0 q2) L L'') L').
  { intros exp L' Ho Hexp. eapply wp_mono; [|apply wait_ack_ledger; [by apply (Hecl q2 [])|done|]].
    - intros rc' L'' [? Ho'%own_nil]. split; [done|]. by rewrite Ho'.
    - by apply (cm_no_listener 0 0 q2 L L'). }
  eapply wp_bind_2; [by apply Hwait|]. intros rc1 L3 [_ Hq3]. case_bool_decide; [by apply Hout|].
  apply wp_step, wp_neutral; [apply Forall_singleton; by apply (Hidl [])|done|done|intros rc2 _].
  case_bool_decide; [by apply Hout|].
  eapply wp_bind_2; [by apply Hwait|]. intros rc3 L4 [_ Hq4]. case_bool_decide; [by apply Hout|].
  eapply wp_bind_2; [by apply (build_qp_from_cm_ledger q2 id [])|].
  intros [rc4 q5] L5 (Hrc4 & (c1 & c2 & Hq5) & Hm5 & Hid5 & Hec5 & Hok). cbn [app] in Hq5.
  assert (Hout2 : ∀ rc L', own (cm_res c1 c2 q5) L L' →
      (rc = 0 ∧ cm_complete q5 ∨ rc = -1) →
    wp ledger_env (cm_connect_out rc q5) (fun '(rc, qp') L' => cm_attached qp' None rc L L') L').
  { intros rc' L' Ho Hr. apply (cm_connect_out_ledger c1 c2); try done. by rewrite Hid5. }
  case_bool_decide; [apply Hout2; auto|]. assert (rc4 = 0) by lia.
  destruct (Hok ltac:(lia)) as (Hqp5 & Hcq5 & Hpd5).
  assert (Hok' : cm_complete q5) by (unfold cm_complete; rewrite Hm5, Hid5, Hec5; done).
  apply wp_step, wp_neutral; [apply Forall_singleton; eapply (cm_live c1 c2 q5 []); [done|done|auto 6]|done|done|intros rc5 _].
  case_bool_decide; [apply Hout2; auto|].
  eapply wp_bind_2.
  { apply wait_ack_ledger; [|done|].
    - eapply (cm_live c1 c2 q5 []); [done|done|]. rewrite Hec5. auto 6.
    - replace ec with (qp_ec q5) by done. apply (cm_no_listener c1 c2 q5 L L5); [done|]. by rewrite Hec5. }
  intros rc6 L6 [_ Ho6%own_nil]. rewrite <- Ho6 in Hq5.
  case_bool_decide; apply Hout2; auto.
Qed.

(** * Accepting *)

(** Accepting changes no resource, on a channel without a listener. *)
Lemma rai_cm_accept_qp_quiet qp L :
  live L (RId, qp_cm_id qp) → live L (RQp, qp_qp qp) → live L (REc, qp_ec qp) → no_listener (qp_ec qp) L →
  wp ledger_env (rai_cm_accept_qp qp) (fun rc L' => (rc = 0 ∨ rc = -1) ∧ L' ≡ₚ L) L.
Proof.
  intros Hid Hq Hec Hno. unfold rai_cm_accept_qp. neutral rc. case_bool_decide; [by split; [right|]|].
  neutral rc1. eapply wp_bind_2; [by apply cm_wait_event_ledger|].
  intros [rc2 ev] L1 [(-> & e & -> & Hty & Ho & _)|(-> & -> & Ho)].
  - unfold ev_res, created in Ho. rewrite decide_False in Ho by congruence.
    rewrite bool_decide_eq_false_2 by lia. eapply wp_ack; [exact Ho|constructor|].
    intros L' Ho'%own_nil. by split; [left|].
  - apply own_nil in Ho. by split; [right|].
Qed.
(** Other resources beside the object's bring no listener. *)
Lemma no_listener_app ec l L1 L :
  L ≡ₚ l ++ L1 → Forall (fun r => (r_key r).1 ≠ RListen ∧ (r_key r).1 ≠ RId) l → no_listener ec L1 → no_listener ec L.
Proof.
  intros HL Hl Hno lst Hid Hlst. rewrite HL in Hid, Hlst. rewrite Forall_forall in Hl.
  apply Exists_app in Hid as [Hid|Hid].
  { apply Exists_exists in Hid as (r & Hr & Hk & _). destruct (Hl r Hr) as [_ Hn]. by rewrite Hk in Hn. }
  apply Exists_app in Hlst as [Hlst|Hlst]; [|by apply (Hno lst)].
  apply Exists_exists in Hlst as (r & Hr & Hk & _). by destruct (Hl r Hr).
Qed.
Lemma rai_cm_accept_qp_beside l c1 c2 qp L0 L :
  own (l ++ cm_res c1 c2 qp) L0 L → Forall (fun r => (r_key r).1 ≠ RListen ∧ (r_key r).1 ≠ RId) l →
  qp_qp qp ≠ 0 → qp_cm_id qp ≠ 0 → qp_ec qp ≠ 0 →
  wp ledger_env (rai_cm_accept_qp qp) (fun rc L' => (rc = 0 ∨ rc = -1) ∧ L' ≡ₚ L) L.
Proof.
  intros Hown Hl Hq Hi He.
  assert (Hlive : ∀ k p, p ≠ 0 → (k = RQp ∧ p = qp_qp qp ∨ k = RCq ∧ p = qp_cq qp ∨ k = RPd ∧ p = qp_pd qp ∨
    k = RId ∧ p = qp_cm_id qp ∨ k = REc ∧ p = qp_ec qp) → live L (k, p)).
  { intros k p. by eapply (cm_live c1 c2 qp l L0 L). }
  apply rai_cm_accept_qp_quiet; [apply Hlive; auto 6..|].
  apply (no_listener_app _ l (cm_res c1 c2 qp ++ L0)); [rewrite app_assoc; apply Hown|done|].
  eapply (cm_no_listener c1 c2 qp L0); [by eapply own_tail|done].
Qed.
Lemma rai_cm_accept_qp_ledger c1 c2 qp L0 L :
  own (cm_res c1 c2 qp) L0 L → qp_qp qp ≠ 0 → qp_cm_id qp ≠ 0 → qp_ec qp ≠ 0 →
  wp ledger_env (rai_cm_accept_qp qp) (fun rc L' => (rc = 0 ∨ rc = -1) ∧ own (cm_res c1 c2 qp) L0 L') L.
Proof.
  intros Hown Hq Hi He.
  eapply wp_mono; [|apply (rai_cm_accept_qp_beside [] c1 c2 qp L0); [done|constructor|done..]].
  intros rc L' [Hrc HL]. split; [done|]. by rewrite HL.
Qed.

(** * Listening *)

(** The listening identifier, before and after [rdma_listen]. *)
Definition lid_res (listening : bool) (lid ec : Z) : ledger :=
  (if listening then [mkRes (RListen, lid) [(RId, lid)]] else []) ++ [mkRes (RId, lid) [(REc, ec)]].

Lemma wp_destroy_lid {A} b lid ec l L0 L (f : unit → sysM A) Q :
  own (lid_res b lid ec ++ l) L0 L → lid ≠ 0 → unreferred (RId, lid) l →
  (∀ L', own l L0 L' → wp ledger_env (f tt) Q L') →
  wp ledger_env (bind (destroy lid (m_destroy_id lid)) f) Q L.
Proof.
  intros Hown Hne Hun Hf. unfold destroy. rewrite bool_decide_eq_true_2 by done. cbn [bind sys call].
  intros [] L' (_ & _ & _ & ->). apply Hf. unfold effect. cbn [used created released]. rewrite decide_True by constructor.
  cbn [app]. destruct b; cbn [lid_res app] in Hown.
  - pose proof (own_release _ L0 L (RId, lid) Hown) as Ho.
    assert (Hd : drop_key (RId, lid) (mkRes (RListen, lid) [(RId, lid)] :: mkRes (RId, lid) [(REc, ec)] :: l) = l).
    { unfold drop_key. rewrite filter_cons_False, filter_cons_False.
      - apply (fresh_drop (RId, lid) l). destruct Hown as (_ & Hnd & _). apply Forall_forall. intros r Hr.
        unfold unreferred in Hun. rewrite Forall_forall in Hun. split; [|by apply Hun].
        cbn in Hnd. apply NoDup_cons in Hnd as [_ [Hn _]%NoDup_cons]. intros He. apply Hn. rewrite He.
        by apply list_elem_of_fmap_2.
      - intros Hn. apply Hn. by left.
      - intros Hn. apply Hn. right. split; [done|]. by left. }
    rewrite Hd in Ho. apply Ho.
    + unfold live. cbn. right. by left.
    + constructor; [by intros [? _]|]. constructor.
      * intros [_ Hin]. cbn in Hin. by apply list_elem_of_singleton in Hin.
      * eapply Forall_impl; [exact Hun|]. intros r ? [_ ?]. done.
  - destruct (own_release_head _ _ _ _ Hown) as [Ho _]; [|exact Ho].
    apply Forall_cons. split; [|done]. cbn. by rewrite list_elem_of_singleton.
Qed.

Lemma lid_ne b lid ec l c1 c2 qp L0 L :
  own (lid_res b lid ec ++ l ++ cm_res c1 c2 qp) L0 L → lid ≠ 0 → lid ≠ qp_cm_id qp.
Proof.
  intros (_ & Hnd & _) Hne ->. rewrite !fmap_app in Hnd. apply NoDup_app in Hnd as (_ & Hnd & _).
  apply (Hnd (RId, qp_cm_id qp)).
  - unfold lid_res. rewrite fmap_app. apply elem_of_app. right. by left.
  - apply elem_of_app. right. unfold cm_res. rewrite !fmap_app, !elem_of_app. do 3 right. left.
    unfold ptr_res. rewrite bool_decide_eq_true_2 by done. by left.
Qed.
Lemma unreferred_cm lid c1 c2 qp : lid ≠ qp_cm_id qp → unreferred (RId, lid) (cm_res c1 c2 qp).
Proof. intros Hne. unfold cm_res. unref. Qed.

Lemma cm_listen_out_ledger b lid ec c1 c2 rc qp mfd L0 L :
  own (lid_res b lid ec ++ opt_fd_res mfd ++ cm_res c1 c2 qp) L0 L → lid ≠ 0 →
  qp_mode qp = RAI_CONN_CM → (qp_qp qp ≠ 0 → qp_cm_id qp ≠ 0) →
  (rc = 0 ∧ cm_complete qp ∧ (∀ f, mfd = Some f → 0 ≤ f) ∨ rc = -1 ∧ opt_fd_res mfd = []) →
  wp ledger_env (cm_listen_out lid rc qp mfd) (fun '(rc', qp', mfd') L' => cm_attached qp' mfd' rc' L0 L') L.
Proof.
  intros Hown Hne Hmode Hid Hrc. unfold cm_listen_out. pose proof (lid_ne _ _ _ _ _ _ _ _ _ Hown Hne) as Hl.
  eapply wp_destroy_lid; [exact Hown|done| |].
  { apply unreferred_app. split; [apply unreferred_opt_fd|by apply unreferred_cm]. }
  clear Hown. intros L1 Hown. case_bool_decide as Hr.
  - destruct Hrc as [|[-> Hnil]]; [lia|]. rewrite Hnil in Hown. cbn [app] in Hown.
    eapply wp_bind_2; [apply (rai_qp_destroy_ledger c1 c2)|].
    + unfold qp_res. rewrite Hmode. exact Hown.
    + by intros _.
    + intros q L' [-> Ho]. right. done.
  - left. destruct Hrc as [(_ & ? & ?)|]; [|lia]. split; [lia|]. split; [done|]. split; [done|]. by exists c1, c2.
Qed.
(** Before the listening identifier exists. *)
Lemma cm_listen_out_early c1 c2 qp mfd L0 L :
  own (cm_res c1 c2 qp) L0 L → qp_mode qp = RAI_CONN_CM → (qp_qp qp ≠ 0 → qp_cm_id qp ≠ 0) → opt_fd_res mfd = [] →
  wp ledger_env (cm_listen_out 0 (-1) qp mfd) (fun '(rc', qp', mfd') L' => cm_attached qp' mfd' rc' L0 L') L.
Proof.
  intros Hown Hmode Hid Hnil. unfold cm_listen_out, destroy. rewrite bool_decide_eq_false_2 by (intros ?; lia).
  cbn [bind]. rewrite bool_decide_eq_true_2 by lia. eapply wp_bind_2; [apply (rai_qp_destroy_ledger c1 c2)|].
  - unfold qp_res. rewrite Hmode. exact Hown.
  - by intros _.
  - intros q L' [-> Ho]. right. done.
Qed.

Lemma rai_cm_listen_qp_ledger qp port mr_listen_fd L :
  blank qp → (∀ fd, mr_listen_fd = Some fd → fd < 0) →
  wp ledger_env (rai_cm_listen_qp qp port mr_listen_fd) (fun '(rc, qp', fd) L' => cm_attached qp' fd rc L L') L.
Proof.
  intros Hblank Hfd. unfold rai_cm_listen_qp.
  assert (Hnil : opt_fd_res mr_listen_fd = []).
  { unfold opt_fd_res. destruct mr_listen_fd as [fd|]; [|done]. by rewrite (proj2 (Z.leb_gt 0 fd)) by auto. }
  apply wp_step, wp_acquire; [constructor|done|]. intros ec L1 _ Hown. cbn [created] in Hown.
  pose proof Hblank as (Hctx & Hpd & Hcq & Hqp & Hid0 & Hec0).
  case_bool_decide as Hec.
  { subst ec. apply (cm_listen_out_early 0 0); [|done|intros Hq; by destruct Hq|done].
    unfold cm_res. cbn. rewrite Hpd, Hcq, Hqp, Hid0, Hec0. exact Hown. }
  rewrite <- (cm_res_blank 0 0 qp ec Hblank) in Hown. set (q1 := set_ec ec (set_mode RAI_CONN_CM qp)) in *.
  assert (Hecl : ∀ l L', own (l ++ cm_res 0 0 q1) L L' → live L' (REc, ec)).
  { intros l L' Ho. eapply cm_live; [exact Ho|done|]. auto 6. }
  apply wp_step, wp_acquire; [apply Forall_singleton; by apply (Hecl [])|done|]. intros lid L2 Hlid Hown2.
  destruct lid as [lid|]; cbn [created fits] in *.
  2: { apply own_nil in Hown2. rewrite <- Hown2 in Hown. apply (cm_listen_out_early 0 0); [done|done|intros Hq; by destruct Hq|done]. }
  pose proof (own_trans _ _ _ _ _ Hown2 Hown) as Ho2. clear Hown Hown2.
  assert (Hout : ∀ b L', own (lid_res b lid ec ++ cm_res 0 0 q1) L L' →
    wp ledger_env (cm_listen_out lid (-1) q1 mr_listen_fd) (fun '(rc, qp', fd) L' => cm_attached qp' fd rc L L') L').
  { intros b L' Ho. apply (cm_listen_out_ledger b lid ec 0 0); try done; [by rewrite Hnil|by right]. }
  assert (Hlidl : live L2 (RId, lid)) by (eapply own_live; [exact Ho2|]; unfold live; cbn; by left).
  apply wp_step, wp_neutral; [by apply Forall_singleton|done|done|intros rc _].
  case_bool_decide; [by apply (Hout false)|].
  apply wp_step, wp_acquire; [by apply Forall_singleton|done|]. intros rc1 L3 _ Hown3. cbn [created] in Hown3.
  destruct (decide (rc1 = 0)) as [Hrc1|Hrc1].
  2: { rewrite bool_decide_eq_false_2 in Hown3 by done. apply own_nil in Hown3. rewrite <- Hown3 in Ho2.
       rewrite bool_decide_eq_true_2 by done. by apply (Hout false). }
  rewrite bool_decide_eq_true_2 in Hown3 by done. rewrite bool_decide_eq_false_2 by lia.
  pose proof (own_trans _ _ _ _ _ Hown3 Ho2) as Ho3. clear Ho2 Hown3.
  eapply wp_bind_2; [apply cm_wait_event_ledger; [|done]|].
  { apply (Hecl (lid_res true lid ec)). exact Ho3. }
  intros [rc2 ev] L4 [(-> & e & -> & Hty & Hown4 & Hidne)|(-> & -> & Hown4)].
  2: { apply own_nil in Hown4. rewrite <- Hown4 in Ho3. by apply (Hout true). }
  rewrite bool_decide_eq_false_2 by lia. unfold ev_res, created in Hown4. rewrite decide_True in Hown4 by done.
  pose proof (own_trans _ _ _ _ _ Hown4 Ho3) as Ho4. clear Ho3 Hown4. specialize (Hidne eq_refl).
  eapply wp_ack; [exact Ho4| |].
  { cbn [app]. unfold cm_res. unref. }
  clear Ho4. intros L5 Ho5. cbn [app] in Ho5. set (q2 := set_cm_id (ev_id e) q1).
  assert (Hq2 : own (lid_res true lid ec ++ cm_res 0 0 q2) L L5).
  { eapply own_proper; [|reflexivity|reflexivity|exact Ho5]. unfold q2, q1, cm_res, lid_res. cbn.
    rewrite Hpd, Hcq, Hqp, Hid0, !ptr_res_0. unfold ptr_res at 1. rewrite bool_decide_eq_true_2 by done. cbn [app].
    solve_Permutation. }
  clear Ho5. eapply wp_bind_2; [by apply (build_qp_from_cm_ledger q2 (ev_id e) (lid_res true lid ec))|].
  intros [rc4 q5] L6 (Hrc4 & (c1 & c2 & Hq5) & Hm5 & Hid5 & Hec5 & Hok).
  assert (Hout2 : ∀ m rc L', own (lid_res true lid ec ++ opt_fd_res m ++ cm_res c1 c2 q5) L L' →
      (rc = 0 ∧ cm_complete q5 ∧ (∀ f, m = Some f → 0 ≤ f) ∨ rc = -1 ∧ opt_fd_res m = []) →
    wp ledger_env (cm_listen_out lid rc q5 m) (fun '(rc, qp', fd) L' => cm_attached qp' fd rc L L') L').
  { intros m rc' L' Ho Hr. apply (cm_listen_out_ledger true lid ec c1 c2); try done. by rewrite Hid5. }
  case_bool_decide; [apply Hout2; [by rewrite Hnil|by right]|]. destruct (Hok ltac:(lia)) as (Hqp5 & Hcq5 & Hpd5).
  assert (Hok' : cm_complete q5) by (unfold cm_complete; rewrite Hm5, Hid5, Hec5; done).
  destruct mr_listen_fd as [fd0|].
  - do 2 apply wp_bind. eapply wp_mono; [|apply rai_oob_listen_ledger]. intros [rc5 fd] L7 Hl. cbn [wp].
    destruct Hl as [(-> & Hf & Hown7)|(-> & -> & Hown7)].
    + rewrite bool_decide_eq_false_2 by lia. apply Hout2; [|left; split; [done|]; split; [done|]; intros f Hf0; by injection Hf0 as <-].
      cbn [opt_fd_res]. rewrite (proj2 (Z.leb_le 0 fd)) by lia.
      pose proof (own_trans _ _ _ _ _ Hown7 Hq5) as Ho7. eapply own_proper; [|reflexivity|reflexivity|exact Ho7].
      solve_Permutation.
    + apply own_nil in Hown7. rewrite <- Hown7 in Hq5. rewrite bool_decide_eq_true_2 by lia.
      apply Hout2; [by rewrite Hnil|by right].
  - cbn [bind]. rewrite bool_decide_eq_false_2 by lia. apply Hout2; [done|by left].
Qed.

(** The caller's descriptor variable stays one: NULL is never stored for it. *)
Lemma cm_listen_out_fd {S} (h : envspec sys_sig S) lid rc qp mfd s :
  wp h (cm_listen_out lid rc qp mfd) (fun '(_, _, m) _ => m = mfd) s.
Proof.
  unfold cm_listen_out. eapply wp_bind_2; [apply wp_true|]. intros [] s1 _. case_bool_decide; [|done].
  eapply wp_bind_2; [apply wp_true|]. by intros q s2 _.
Qed.
Lemma cm_listen_fd_some {S} (h : envspec sys_sig S) qp port f s :
  wp h (rai_cm_listen_qp qp port (Some f)) (fun '(_, _, m) _ => is_Some m) s.
Proof.
  assert (Hout : ∀ lid rc q f s, wp h (cm_listen_out lid rc q (Some f)) (fun '(_, _, m) _ => is_Some m) s).
  { intros lid rc q f' s'. eapply wp_mono; [|apply cm_listen_out_fd]. intros [[rc' q'] m] s'' ->. by exists f'. }
  unfold rai_cm_listen_qp. cbn [bind sys call wp]. intros ec s1 _. case_bool_decide; [apply Hout|]. cbn [bind sys call wp].
  intros [lid|] s2 _; [|apply Hout]. intros rc s3 _. case_bool_decide; [apply Hout|].
  intros rc1 s4 _. case_bool_decide; [apply Hout|].
  eapply wp_bind_2; [apply wp_true|]. intros [rc2 [e|]] s5 _; [|apply Hout]. case_bool_decide; [apply Hout|].
  intros [] s6 _. eapply wp_bind_2; [apply wp_true|]. intros [rc3 q] s7 _. case_bool_decide; [apply Hout|].
  apply wp_bind. eapply wp_bind_2; [apply wp_true|]. intros [rc4 fd] s8 _. cbn [wp]. case_bool_decide; apply Hout.
Qed.

(** * The contracts *)

(** C13. [rai_cm_connect_qp] leaks nothing on any failure: it returns 0 with the
    queue pair, completion queue, domain, identifier and channel it recorded, or
    -1 with the object zeroed, every event acknowledged and the ledger as it was. *)
Theorem cm_connect_no_leak (qp : rai_qp) (server_ip : string) (port : Z) (L : ledger) :
  blank qp →
  wp ledger_env (rai_cm_connect_qp qp server_ip port) (fun '(rc, qp') L' => cm_attached qp' None rc L L') L.
Proof. apply rai_cm_connect_qp_ledger. Qed.
(** C14. [rai_cm_listen_qp] leaks nothing on any failure: it returns 0 with the
    connection's resources and the optional listener, the listening identifier
    gone and the request acknowledged, or -1 with the object zeroed and the
    ledger as it was. The caller's descriptor variable must not hold a live one. *)
Theorem cm_listen_no_leak (qp : rai_qp) (port : Z) (mr_listen_fd : option Z) (L : ledger) :
  blank qp → (∀ fd, mr_listen_fd = Some fd → fd < 0) →
  wp ledger_env (rai_cm_listen_qp qp port mr_listen_fd) (fun '(rc, qp', fd) L' => cm_attached qp' fd rc L L') L.
Proof. apply rai_cm_listen_qp_ledger. Qed.
(** [rai_cm_accept_qp] on a connection built by [rai_cm_listen_qp] returns 0
    or -1 and leaves every resource as it was: the event it waits for, expected or
    not, is acknowledged. *)
Theorem cm_accept_keeps (c1 c2 : Z) (qp : rai_qp) (L0 L : ledger) :
  own (cm_res c1 c2 qp) L0 L → cm_complete qp →
  wp ledger_env (rai_cm_accept_qp qp) (fun rc L' => (rc = 0 ∨ rc = -1) ∧ own (cm_res c1 c2 qp) L0 L') L.
Proof. intros Hown (_ & ? & _ & _ & ? & ?). by apply rai_cm_accept_qp_ledger. Qed.

(** * Witnesses *)

Lemma cm_connect_no_leak_witness :
  wp ledger_env (rai_cm_connect_qp rai_qp0 "10.0.0.1"%string 7000)
    (fun '(rc, qp') L' => cm_attached qp' None rc [fd_res 1] L') [fd_res 1].
Proof. apply (cm_connect_no_leak rai_qp0 "10.0.0.1"%string 7000 [fd_res 1] blank0). Defined.
Lemma cm_listen_no_leak_witness :
  wp ledger_env (rai_cm_listen_qp rai_qp0 7000 (Some (-1)))
    (fun '(rc, qp', fd) L' => cm_attached qp' fd rc [] L') [].
Proof.
  apply (cm_listen_no_leak rai_qp0 7000 (Some (-1)) [] blank0). intros fd He. injection He as <-. reflexivity.
Defined.
Definition demo_cm : rai_qp := set_ec 3 (set_cm_id 4 (set_pd 5 (set_cq 6 (set_qp 7 rai_qp0)))).
Lemma demo_cm_own : own (cm_res 0 0 demo_cm) [] (cm_res 0 0 demo_cm).
Proof.
  split; [by rewrite app_nil_r|]. split.
  - apply (bool_decide_unpack _). vm_compute. reflexivity.
  - apply Forall_forall. intros r _. constructor.
Qed.
Lemma cm_accept_keeps_witness :
  wp ledger_env (rai_cm_accept_qp demo_cm)
    (fun rc L' => (rc = 0 ∨ rc = -1) ∧ own (cm_res 0 0 demo_cm) [] L') (cm_res 0 0 demo_cm).
Proof.
  apply (cm_accept_keeps 0 0 demo_cm [] (cm_res 0 0 demo_cm) demo_cm_own).
  split; [reflexivity|]. repeat split; discriminate.
Defined.
