(* ===== verification/BenchConfig.v ===== *)
(** [bench_config.h]: the command line of the phase 1 benchmarks and the
    connection setup it selects. *)
From Stdlib Require Import Ascii.
From stdpp Require Import strings.
From S2P Require Import Prelude Prog Libc Sys RdmaCommon VerbsConnect CmConnect.

(** [server_ip] is None for NULL: a server. *)
Record bench_config := mkBenchConfig {
  b_server_ip : option string; b_port : Z; b_iters : Z; b_size : Z; b_depth : Z;
  b_conn : rai_conn_mode; b_csv : bool; b_csv_header : bool }.
Definition bench_config_init : bench_config := mkBenchConfig None 12345 1000 4096 16 RAI_CONN_CM false false.

Definition set_server_ip v c := mkBenchConfig v (b_port c) (b_iters c) (b_size c) (b_depth c) (b_conn c) (b_csv c) (b_csv_header c).
Definition set_port v c := mkBenchConfig (b_server_ip c) v (b_iters c) (b_size c) (b_depth c) (b_conn c) (b_csv c) (b_csv_header c).
Definition set_iters v c := mkBenchConfig (b_server_ip c) (b_port c) v (b_size c) (b_depth c) (b_conn c) (b_csv c) (b_csv_header c).
Definition set_size v c := mkBenchConfig (b_server_ip c) (b_port c) (b_iters c) v (b_depth c) (b_conn c) (b_csv c) (b_csv_header c).
Definition set_depth v c := mkBenchConfig (b_server_ip c) (b_port c) (b_iters c) (b_size c) v (b_conn c) (b_csv c) (b_csv_header c).
Definition set_conn v c := mkBenchConfig (b_server_ip c) (b_port c) (b_iters c) (b_size c) (b_depth c) v (b_csv c) (b_csv_header c).
Definition set_csv c := mkBenchConfig (b_server_ip c) (b_port c) (b_iters c) (b_size c) (b_depth c) (b_conn c) true (b_csv_header c).
Definition set_csv_header c := mkBenchConfig (b_server_ip c) (b_port c) (b_iters c) (b_size c) (b_depth c) (b_conn c) (b_csv c) true.

(** [opt[0] != '-'], true of the empty string as well. *)
Definition positional (s : string) : bool :=
  match s with String "-"%char _ => false | _ => true end.
(** An option with its value; None is the return value -1. *)
Definition bench_option (opt val : string) (cfg : bench_config) : option bench_config :=
  if String.eqb opt "--port" then Some (set_port (atoi val) cfg)
  else if String.eqb opt "--iters" then Some (set_iters (atoi val) cfg)
  else if String.eqb opt "--size" then Some (set_size (atoi val) cfg)
  else if String.eqb opt "--depth" then Some (set_depth (atoi val) cfg)
  else if String.eqb opt "--conn" then
    if String.eqb val "cm" then Some (set_conn RAI_CONN_CM cfg)
    else if String.eqb val "verbs" then Some (set_conn RAI_CONN_VERBS cfg)
    else None
  else None.
(** The loop over [argv + 1]; the configuration is the one left on return. *)
Fixpoint bench_args (args : list string) (cfg : bench_config) : Z * bench_config :=
  match args with
  | [] => (0, cfg)
  | opt :: args =>
    if positional opt then bench_args args (set_server_ip (Some opt) cfg)
    else if String.eqb opt "--csv" then bench_args args (set_csv cfg)
    else if String.eqb opt "--csv-header" then bench_args args (set_csv_header cfg)
    else match args with
         | [] => (-1, cfg)
         | val :: args =>
           match bench_option opt val cfg with
           | Some cfg => bench_args args cfg
           | None => (-1, cfg)
           end
         end
  end.
Definition bench_checks (cfg : bench_config) : bool :=
  negb ((b_port cfg <? 1) || (65534 <? b_port cfg)) && negb (b_iters cfg <? 1) && negb (b_size cfg <? 1) &&
  negb ((b_depth cfg <? 1) || (RAI_QP_MAX_WR <=? b_depth cfg)).
Definition bench_config_parse (argv : list string) (cfg : bench_config) : Z * bench_config :=
  let '(rc, cfg) := bench_args (tail argv) cfg in
  if bool_decide (rc ≠ 0) then (-1, cfg) else if bench_checks cfg then (0, cfg) else (-1, cfg).

(** The dispatch on the connection mode.  [ip] is the non-NULL [server_ip]. *)
Definition bench_listen (qp : rai_qp) (cfg : bench_config) (mr_listen_fd : Z) : sysM (Z * rai_qp * option Z) :=
  match b_conn cfg with
  | RAI_CONN_VERBS => rai_verbs_listen_qp qp (b_port cfg) (Some mr_listen_fd)
  | RAI_CONN_CM => rai_cm_listen_qp qp (b_port cfg) (Some mr_listen_fd)
  end.
Definition bench_accept (qp : rai_qp) (cfg : bench_config) : sysM Z :=
  match b_conn cfg with RAI_CONN_VERBS => rai_verbs_accept_qp qp | RAI_CONN_CM => rai_cm_accept_qp qp end.
Definition bench_connect (qp : rai_qp) (ip : string) (cfg : bench_config) : sysM (Z * rai_qp) :=
  match b_conn cfg with
  | RAI_CONN_VERBS => rai_verbs_connect_qp qp (Some ip) (b_port cfg)
  | RAI_CONN_CM => rai_cm_connect_qp qp ip (b_port cfg)
  end.
