(* ===== verification/BenchSetup.v ===== *)
(** What the three phase 1 benchmarks share: the objects of [main], the steps
    that [goto out] on failure, and the cleanup at [out]. *)
From stdpp Require Import strings.
From S2P Require Import Prelude Prog Sys BenchUtils RdmaCommon Oob RdmaOps RdmaRes BenchConfig.

(** What is printed at the end. *)
Inductive bench_report := RepLatency (s : lat_stats) | RepBandwidth (bytes ns : Z).
(** The locals of [main] that [out] cleans up: [qp], [mr], [mr_listen_fd] and the
    pointer [latencies]; and what was reported. *)
Record bench := mkBench { bq : rai_qp; bmr : rai_mr; bfd : Z; blat : Z; brep : option bench_report }.
Definition bench0 : bench := mkBench rai_qp0 rai_mr0 (-1) 0 None.
Definition set_bq q s := mkBench q (bmr s) (bfd s) (blat s) (brep s).
Definition set_bmr m s := mkBench (bq s) m (bfd s) (blat s) (brep s).
Definition set_bfd fd s := mkBench (bq s) (bmr s) fd (blat s) (brep s).
Definition set_blat p s := mkBench (bq s) (bmr s) (bfd s) p (brep s).
Definition set_brep r s := mkBench (bq s) (bmr s) (bfd s) (blat s) (Some r).

(** A stretch of [main]: true to go on, false for [goto out]; None when a spin
    ran out of fuel. *)
Definition phase := bench → sysM (option (bool * bench)).
Definition andthen (p q : phase) : phase := fun s =>
  r <- p s ;;
  match r with
  | Some (true, s) => q s
  | r => Ret r
  end.
Infix "⨟" := andthen (at level 60, right associativity) : prog_scope.
Definition go_if (rc : Z) (s : bench) : sysM (option (bool * bench)) := Ret (Some (negb (bool_decide (rc ≠ 0)), s)).
Definition skip : phase := fun s => Ret (Some (true, s)).

Section setup.
Context (cfg : bench_config).

Definition do_listen : phase := fun s =>
  let! (rc, q, fd) := bench_listen (bq s) cfg (bfd s) in
  go_if rc (set_bfd (default (bfd s) fd) (set_bq q s)).
Definition do_connect (ip : string) : phase := fun s =>
  let! (rc, q) := bench_connect (bq s) ip cfg in go_if rc (set_bq q s).
Definition do_accept : phase := fun s => rc <- bench_accept (bq s) cfg ;; go_if rc s.
Definition do_reg (len : Z) : phase := fun s =>
  let! (rc, m) := rai_mr_reg (Some (bq s)) (Some (bmr s)) len in go_if rc (set_bmr (default (bmr s) m) s).
(** Both sides meet over the out-of-band channel, which also swaps the records. *)
Definition meet : phase := fun s =>
  let! (rc, q) := match b_server_ip cfg with
                  | None => rai_oob_accept (bfd s) (Some (bq s))
                  | Some ip => rai_oob_connect (Some (bq s)) (Some ip) (b_port cfg + 1)
                  end in
  go_if rc (set_bq (default (bq s) q) s).
(** [qp.local.addr] and [qp.local.rkey] from the registered region. *)
Definition fill_local : phase := fun s =>
  match mr_mr (bmr s) with
  | Some m =>
    let l := qp_local (bq s) in
    skip (set_bq (set_local (mkConnInfo (u64 (ibv_mr_addr m)) (ci_gid l) (ibv_rkey m) (ci_qpn l) (ci_psn l)) (bq s)) s)
  | None => Ret (Some (false, s))     (* not reached: the registration succeeded *)
  end.
(** Setup up to the live queue pair; [pre] runs on the server before it accepts. *)
Definition connected (len : Z) (pre : phase) : phase :=
  match b_server_ip cfg with
  | None => do_listen ⨟ do_reg len ⨟ pre ⨟ do_accept
  | Some ip => do_connect ip ⨟ do_reg len
  end.

(** A post and a poll that leave on failure. *)
Definition try_post (op : rai_qp → rai_mr → sysM Z) : phase := fun s => rc <- op (bq s) (bmr s) ;; go_if rc s.
Definition try_poll (pf : nat) : phase := fun s =>
  r <- rai_poll_cq pf (Some (bq s)) false ;;
  match r with Some (rc, _) => go_if rc s | None => Ret None end.
Definition store_byte (a v : Z) : phase := fun s => sys (c_store a [v]) ;; skip s.
(** [while ( *p != v)], resp. [while ( *p == 0)]: at most [fuel] looks. *)
Fixpoint spin (fuel : nat) (a : Z) (stop : Z → bool) : phase := fun s =>
  match fuel with
  | O => Ret None
  | S fuel => d <- sys (c_load a 1) ;; if stop (nth 0 d 0) then skip s else spin fuel a stop s
  end.
Definition do_malloc (n : Z) : phase := fun s =>
  p <- sys (c_malloc n) ;; Ret (Some (bool_decide (p ≠ 0), set_blat p s)).
Fixpoint repeat_phase (n : nat) (i : Z) (body : Z → phase) : phase :=
  match n with
  | O => skip
  | S n => body i ⨟ repeat_phase n (i + 1) body
  end.
End setup.

(** [out]: the listener, the samples, the region before the queue pair. *)
Definition bench_out (s : bench) : sysM unit :=
  (if 0 <=? bfd s then sys (c_close (bfd s)) ;; Ret tt else Ret tt) ;;
  (if bool_decide (blat s ≠ 0) then sys (c_free (blat s)) else Ret tt) ;;
  rai_mr_dereg (Some (bmr s)) ;;
  rai_qp_destroy (Some (bq s)) ;;
  Ret tt.
(** [main]: what it returns and reports. *)
Definition bench_main (body : bench_config → phase) (argv : list string) : sysM (option (Z * option bench_report)) :=
  let '(rc, cfg) := bench_config_parse argv bench_config_init in
  if bool_decide (rc ≠ 0) then bench_out bench0 ;; Ret (Some (1, None)) else
  if b_csv_header cfg then Ret (Some (0, None)) else
  r <- body cfg bench0 ;;
  match r with
  | None => Ret None
  | Some (ok, s) => bench_out s ;; Ret (Some (if (ok : bool) then 0 else 1, brep s))
  end.
