(* ===== verification/BwRdmaWrite.v ===== *)
(** [bw_rdma_write.c]: a window of writes, the last of which rings a doorbell in
    the server's memory. *)
From stdpp Require Import strings.
From S2P Require Import Prelude Prog Sys BenchUtils RdmaCommon RdmaOps BenchConfig BenchSetup.

Definition CQ_POLL_BATCH : Z := 16.

Module Bw.
Section bw.
Context (fuel : nat) (cfg : bench_config).
Definition total_iters : Z := kWarmup + b_iters cfg.
Definition doorbell (s : bench) : Z := mr_buf (bmr s) + b_size cfg - 1.

Definition post_one (s : bench) : sysM Z :=
  let peer := qp_remote (bq s) in
  rai_post_write (Some (bq s)) (Some (bmr s)) (u32 (b_size cfg)) [SEND_SIGNALED] (ci_addr peer) (ci_rkey peer) 1 0.
(** The inner loop: post until the window is full.  [n] is how many are left to
    post, so it never ends the loop early.  None: a post failed. *)
Fixpoint fill (n : nat) (scnt ccnt bw_start : Z) (s : bench) : sysM (option (Z * Z)) :=
  match n with
  | O => Ret (Some (scnt, bw_start))
  | S n =>
    if (scnt <? total_iters) && (u64 (scnt - ccnt) <? b_depth cfg) then
      (if scnt =? total_iters - 1 then sys (c_store (doorbell s) [1]) else Ret tt) ;;
      bw_start <- (if scnt =? kWarmup then time_now_ns else Ret bw_start) ;;
      rc <- post_one s ;;
      if bool_decide (rc ≠ 0) then Ret None else fill n (scnt + 1) ccnt bw_start s
    else Ret (Some (scnt, bw_start))
  end.
(** The outer loop: reap without blocking; [fuel] polls. The result is
    [bw_start], or None in the pair for [goto out]. *)
Fixpoint window (fuel : nat) (scnt ccnt bw_start : Z) (s : bench) : sysM (option (option Z)) :=
  if ccnt <? total_iters then
    match fuel with
    | O => Ret None
    | S fuel =>
      f <- fill (Z.to_nat (total_iters - scnt)) scnt ccnt bw_start s ;;
      match f with
      | None => Ret (Some None)
      | Some (scnt, bw_start) =>
        let! (ne, wcs) := sys (v_poll_cq_batch (qp_cq (bq s)) CQ_POLL_BATCH) in
        if ne <? 0 then Ret (Some None) else
        if forallb wc_ok (take (Z.to_nat ne) wcs) then window fuel scnt (u64 (ccnt + ne)) bw_start s
        else Ret (Some None)
      end
    end
  else Ret (Some (Some bw_start)).
Definition client : phase := fun s =>
  sys (c_store (doorbell s) [0]) ;;
  r <- window fuel 0 0 0 s ;;
  match r with
  | None => Ret None
  | Some None => Ret (Some (false, s))
  | Some (Some bw_start) =>
    now <- time_now_ns ;;
    skip (set_brep (RepBandwidth (u64 (b_size cfg * b_iters cfg)) (time_elapsed_ns bw_start now)) s)
  end.
Definition server : phase := fun s => spin fuel (doorbell s) (fun v => negb (v =? 0)) s.
Definition body : phase :=
  connected cfg (b_size cfg) (fun s => store_byte (doorbell s) 0 s) ⨟
  fill_local ⨟ meet cfg ⨟
  (match b_server_ip cfg with None => server | Some _ => client end) ⨟
  meet cfg.
End bw.
Definition main (fuel : nat) : list string → sysM (option (Z * option bench_report)) := bench_main (body fuel).
End Bw.
