(* ===== verification/LatRdmaWrite.v ===== *)
(** [lat_rdma_write.c]: a ping-pong of one-sided writes; each side spins on the
    last byte of the half the other one writes. *)
From stdpp Require Import strings.
From S2P Require Import Prelude Prog Sys BenchUtils RdmaCommon RdmaOps BenchConfig BenchSetup.

Module LatW.
Section latw.
Context (pf fuel : nat) (cfg : bench_config).
Definition total_iters : Z := kWarmup + b_iters cfg.
Definition reply_off : Z := b_size cfg.
(** The last bytes of the low and of the high half. *)
Definition low_byte (s : bench) : Z := mr_buf (bmr s) + reply_off - 1.
Definition high_byte (s : bench) : Z := mr_buf (bmr s) + 2 * reply_off - 1.
Definition seq_of (i : Z) : Z := u8 (i + 1).

(** The write to the peer's half at [off] from our half at [off]. *)
Definition write_half (off : Z) : phase := fun s =>
  try_post (fun q m => rai_post_write (Some q) (Some m) (u32 (b_size cfg)) [SEND_SIGNALED]
    (u64 (ci_addr (qp_remote q) + off)) (ci_rkey (qp_remote q)) 1 off) s.
Definition server_iter (i : Z) : phase := fun s =>
  (spin fuel (low_byte s) (Z.eqb (seq_of i)) ⨟
   store_byte (high_byte s) (seq_of i) ⨟
   write_half reply_off ⨟
   try_poll pf) s.
(** One round trip; its time when it counts. *)
Definition client_iter (i : Z) (lat : list Z) (s : bench) : sysM (option (bool * bench * list Z)) :=
  sys (c_store (low_byte s) [seq_of i]) ;;
  start <- time_now_ns ;;
  r <- (write_half 0 ⨟ try_poll pf ⨟ spin fuel (high_byte s) (Z.eqb (seq_of i))) s ;;
  match r with
  | None => Ret None
  | Some (false, s) => Ret (Some (false, s, lat))
  | Some (true, s) =>
    if kWarmup <=? i then now <- time_now_ns ;; Ret (Some (true, s, lat ++ [time_elapsed_ns start now]))
    else Ret (Some (true, s, lat))
  end.
Fixpoint client_loop (n : nat) (i : Z) (lat : list Z) (s : bench) : sysM (option (bool * bench * list Z)) :=
  match n with
  | O => Ret (Some (true, s, lat))
  | S n =>
    r <- client_iter i lat s ;;
    match r with
    | Some (true, s, lat) => client_loop n (i + 1) lat s
    | r => Ret r
    end
  end.
(** [latencies[i - kWarmup]] is filled in order, so the array is the list of the
    times so far. *)
Definition client : phase :=
  do_malloc (u64 (b_iters cfg * 8)) ⨟ fun s =>
  r <- client_loop (Z.to_nat total_iters) 0 [] s ;;
  match r with
  | None => Ret None
  | Some (false, s, _) => Ret (Some (false, s))
  | Some (true, s, lat) => skip (set_brep (RepLatency (latency_stats (sort_u64 lat) (b_iters cfg))) s)
  end.
Definition server : phase := repeat_phase (Z.to_nat total_iters) 0 server_iter.
Definition body : phase :=
  connected cfg (2 * reply_off) skip ⨟
  (fun s => sys (c_store (mr_buf (bmr s)) (replicate (Z.to_nat (2 * reply_off)) 0)) ;; skip s) ⨟
  fill_local ⨟ meet cfg ⨟
  (match b_server_ip cfg with None => server | Some _ => client end) ⨟
  meet cfg.
End latw.
Definition main (pf fuel : nat) : list string → sysM (option (Z * option bench_report)) := bench_main (body pf fuel).
End LatW.
