(* ===== verification/LatSendRecv.v ===== *)
(** [lat_send_recv.c]: a ping-pong of sends and receives over one completion
    queue. *)
From stdpp Require Import strings.
From S2P Require Import Prelude Prog Sys BenchUtils RdmaCommon RdmaOps BenchConfig BenchSetup.

Module LatSR.
Section latsr.
Context (pf : nat) (cfg : bench_config).
Definition total_iters : Z := kWarmup + b_iters cfg.
Definition prepost : Z := if b_depth cfg <? total_iters then b_depth cfg else total_iters.
Definition recv_one : phase := try_post (fun q m => rai_post_recv (Some q) (Some m) (u32 (b_size cfg)) 1 0).
Definition send_one : phase := try_post (fun q m => rai_post_send (Some q) (Some m) (u32 (b_size cfg)) 1 0).
Definition prepost_all : phase := repeat_phase (Z.to_nat prepost) 0 (fun _ => recv_one).
(** Replace the receive that will be consumed, while there are more to come. *)
Definition repost (i : Z) : phase := if i + prepost <? total_iters then recv_one else skip.

Definition server_iter (i : Z) : phase := try_poll pf ⨟ repost i ⨟ send_one ⨟ try_poll pf.
Definition server : phase := repeat_phase (Z.to_nat total_iters) 0 server_iter.
Definition client_iter (i : Z) (lat : list Z) (s : bench) : sysM (option (bool * bench * list Z)) :=
  r <- repost i s ;;
  match r with
  | None => Ret None
  | Some (false, s) => Ret (Some (false, s, lat))
  | Some (true, s) =>
    start <- time_now_ns ;;
    r <- (send_one ⨟ try_poll pf ⨟ try_poll pf) s ;;
    match r with
    | None => Ret None
    | Some (false, s) => Ret (Some (false, s, lat))
    | Some (true, s) =>
      if kWarmup <=? i then now <- time_now_ns ;; Ret (Some (true, s, lat ++ [time_elapsed_ns start now]))
      else Ret (Some (true, s, lat))
    end
  end.
Fixpoint client_loop (n : nat) (i : Z) (lat : list Z) (s : bench) : sysM (option (bool * bench * list Z)) :=
  match n with
  | O => Ret (Some (true, s, lat))
  | S n =>
    r <- client_iter i lat s ;;
    match r with
    | Some (true, s, lat) => client_loop n (i + 1) lat s
    | r => Ret r
    end
  end.
Definition client : phase :=
  do_malloc (u64 (b_iters cfg * 8)) ⨟ prepost_all ⨟ fun s =>
  r <- client_loop (Z.to_nat total_iters) 0 [] s ;;
  match r with
  | None => Ret None
  | Some (false, s, _) => Ret (Some (false, s))
  | Some (true, s, lat) => skip (set_brep (RepLatency (latency_stats (sort_u64 lat) (b_iters cfg))) s)
  end.
Definition body : phase :=
  connected cfg (b_size cfg) prepost_all ⨟ meet cfg ⨟
  (match b_server_ip cfg with None => server | Some _ => client end).
End latsr.
Definition main (pf : nat) : list string → sysM (option (Z * option bench_report)) := bench_main (body pf).
End LatSR.
