(* ===== verification/BenchSpec.v ===== *)
(** The resources of the phase 1 benchmarks: whatever fails, [out] gives back
    what was made. *)
From stdpp Require Import strings.
From S2P Require Import Prelude Prog Sys BenchUtils RdmaCommon Oob OobSpec RdmaOps RdmaRes VerbsConnect VerbsSpec CmConnect CmSpec BenchConfig BenchSetup BwRdmaWrite LatRdmaWrite LatSendRecv.

(** * What [main] holds *)

Definition bench_res (c1 c2 : Z) (s : bench) : ledger :=
  ptr_res RMem [] (blat s) ++ mr_res (qp_pd (bq s)) (bmr s) ++ qp_res c1 c2 (bq s) ++ opt_fd_res (Some (bfd s)).
(** The queue pair is complete. *)
Definition qp_up (q : rai_qp) : Prop :=
  qp_qp q ≠ 0 ∧ qp_cq q ≠ 0 ∧ qp_pd q ≠ 0 ∧ (qp_mode q = RAI_CONN_CM → qp_cm_id q ≠ 0 ∧ qp_ec q ≠ 0).
(** Partly built, so that [out] can tear it down. *)
Definition qp_fine (q : rai_qp) : Prop := qp_mode q = RAI_CONN_CM → qp_qp q ≠ 0 → qp_cm_id q ≠ 0.
Lemma qp_up_fine q : qp_up q → qp_fine q.
Proof. intros (_ & _ & _ & H) Hm _. by apply H. Qed.

Section stages.
Context (cfg : bench_config) (L0 : ledger).

(** [out] can run. *)
Definition held (s : bench) (L : ledger) : Prop :=
  (qp_fine (bq s) ∧ (mr_mr (bmr s) ≠ None → mr_owns_buf (bmr s) ≠ 0)) ∧ ∃ c1 c2, own (bench_res c1 c2 s) L0 L.
(** At the start; with a connected or listening queue pair; with the region too;
    [lat]: the samples may be allocated. *)
Definition at_start (s : bench) (L : ledger) : Prop := s = bench0 ∧ L ≡ₚ L0.
Definition has_qp (s : bench) (L : ledger) : Prop :=
  held s L ∧ qp_up (bq s) ∧ qp_mode (bq s) = b_conn cfg ∧ (b_server_ip cfg = None → 0 ≤ bfd s) ∧ bmr s = rai_mr0 ∧ blat s = 0.
Definition has_mr (lat : bool) (s : bench) (L : ledger) : Prop :=
  held s L ∧ qp_up (bq s) ∧ qp_mode (bq s) = b_conn cfg ∧ (b_server_ip cfg = None → 0 ≤ bfd s) ∧ mr_mr (bmr s) ≠ None ∧ (lat = false → blat s = 0).

Definition phase_post (Q : bench → ledger → Prop) (r : option (bool * bench)) (L : ledger) : Prop :=
  match r with Some (true, s) => Q s L | Some (false, s) => held s L | None => True end.
Definition phase_ok (P Q : bench → ledger → Prop) (p : phase) : Prop :=
  ∀ s L, P s L → wp ledger_env (p s) (phase_post Q) L.

Lemma andthen_ok P Q R p q : phase_ok P Q p → phase_ok Q R q → phase_ok P R (p ⨟ q)%prog.
Proof.
  intros Hp Hq s L HP. eapply wp_bind_2; [by apply Hp|]. intros [[[] s']|] L'; cbn; [apply Hq|done..].
Qed.
Lemma skip_ok P : phase_ok P P skip.
Proof. by intros s L HP. Qed.
(** A call that keeps the state, followed by the decision to go on. *)
Lemma go_if_ok P (p : sysM Z) s L :
  (∀ s L, P s L → held s L) → P s L → wp ledger_env p (fun _ L' => P s L') L →
  wp ledger_env (rc <- p ;; go_if rc s) (phase_post P) L.
Proof.
  intros Hh HP Hp. eapply wp_bind_2; [exact Hp|]. intros rc L' HP'. unfold go_if. cbn. destruct (negb _); [done|by apply Hh].
Qed.

(** What is alive. *)
Lemma held_qp s L k p : held s L → p ≠ 0 →
  (k = RQp ∧ p = qp_qp (bq s) ∨ k = RCq ∧ p = qp_cq (bq s) ∨ k = RPd ∧ p = qp_pd (bq s)) → live L (k, p).
Proof.
  intros (_ & c1 & c2 & Ho) Hp Hk. eapply own_live; [exact Ho|]. unfold live, bench_res.
  rewrite !fmap_app, !elem_of_app. right. right. left.
  assert (Hin : ∀ k ps, (k, p) ∈ r_key <$> ptr_res k ps p).
  { intros k' ps. unfold ptr_res. rewrite bool_decide_eq_true_2 by done. by left. }
  unfold qp_res, verbs_res, cm_res. destruct (qp_mode (bq s)); rewrite !fmap_app, !elem_of_app;
    destruct Hk as [[-> Hk]|[[-> Hk]|[-> Hk]]]; rewrite <- Hk; auto 6.
Qed.
Lemma held_fd s L : held s L → 0 ≤ bfd s → live L (RFd, bfd s).
Proof.
  intros (_ & c1 & c2 & Ho) Hfd. eapply own_live; [exact Ho|]. unfold live, bench_res.
  rewrite !fmap_app, !elem_of_app. right. right. right. cbn. rewrite (proj2 (Z.leb_le 0 _)) by done. by left.
Qed.
(** The records exchanged are not resources. *)
Definition same_res (s s' : bench) : Prop :=
  bmr s' = bmr s ∧ bfd s' = bfd s ∧ blat s' = blat s ∧
  ∃ l g, bq s' = set_remote g (set_local l (bq s)).
Lemma has_mr_same b s s' L L' : same_res s s' → L' ≡ₚ L → has_mr b s L → has_mr b s' L'.
Proof.
  intros (Hm & Hf & Hl & l & g & Hq) HL ((Hfine & c1 & c2 & Ho) & Hup & Hmode & Hfd & Hmr & Hlat).
  unfold has_mr. rewrite Hm, Hf, Hl, Hq. split; [|done]. unfold held. rewrite Hq, Hm. split; [done|]. exists c1, c2.
  unfold bench_res. rewrite Hm, Hf, Hl, Hq, HL. exact Ho.
Qed.
Lemma has_mr_held b s L : has_mr b s L → held s L.
Proof. by intros [? _]. Qed.

(** * Connecting *)

Definition joined (m : rai_conn_mode) (q : rai_qp) (fd : option Z) (rc : Z) (L L' : ledger) : Prop :=
  (rc = 0 ∧ qp_up q ∧ qp_mode q = m ∧ (∀ f, fd = Some f → 0 ≤ f) ∧ ∃ c1 c2, own (opt_fd_res fd ++ qp_res c1 c2 q) L L') ∨
  (rc = -1 ∧ q = rai_qp0 ∧ opt_fd_res fd = [] ∧ own [] L L').
Lemma attached_joined q fd rc L L' : attached q fd rc L L' → joined RAI_CONN_VERBS q fd rc L L'.
Proof.
  intros [(-> & Ho & ? & ? & ? & Hm & ?)|]; [left|by right]. split; [done|]. split; [|done].
  by split_and!; try done; rewrite Hm.
Qed.
Lemma cm_attached_joined q fd rc L L' : cm_attached q fd rc L L' → joined RAI_CONN_CM q fd rc L L'.
Proof.
  intros [(-> & (Hm & ? & ? & ? & ? & ?) & Hfd & c1 & c2 & Ho)|]; [left|by right]. split; [done|].
  split; [by split_and!|]. split; [done|]. split; [done|]. exists c1, c2. unfold qp_res. by rewrite Hm.
Qed.
Lemma blank_qp0 : blank rai_qp0.
Proof. by split_and!. Qed.
Lemma bench_listen_ledger L :
  wp ledger_env (bench_listen rai_qp0 cfg (-1)) (fun '(rc, q, fd) L' => joined (b_conn cfg) q fd rc L L' ∧ is_Some fd) L.
Proof.
  unfold bench_listen. destruct (b_conn cfg).
  - eapply wp_mono; [|apply wp_and; [apply rai_cm_listen_qp_ledger; [apply blank_qp0|by intros fd [= <-]]|apply (cm_listen_fd_some ledger_env)]].
    intros [[rc q] fd] L' [Hj Hs]. split; [apply cm_attached_joined, Hj|exact Hs].
  - eapply wp_mono; [|apply wp_and; [apply rai_verbs_listen_qp_ledger, blank_qp0|apply (verbs_listen_fd_some ledger_env)]].
    intros [[rc q] fd] L' [Hj Hs]. split; [apply attached_joined, Hj|exact Hs].
Qed.
Lemma bench_connect_ledger ip L :
  wp ledger_env (bench_connect rai_qp0 ip cfg) (fun '(rc, q) L' => joined (b_conn cfg) q None rc L L') L.
Proof.
  unfold bench_connect. destruct (b_conn cfg).
  - eapply wp_mono; [|apply rai_cm_connect_qp_ledger, blank_qp0]. intros [rc q] L'. apply cm_attached_joined.
  - eapply wp_mono; [|apply rai_verbs_connect_qp_ledger, blank_qp0]. intros [rc q] L'. apply attached_joined.
Qed.
(** The object before and after. *)
Lemma joined_start m q fd rc L L' :
  L ≡ₚ L0 → joined m q fd rc L L' → let s := set_bfd (default (-1) fd) (set_bq q bench0) in
  held s L' ∧ (rc = 0 → qp_up q ∧ qp_mode q = m).
Proof.
  intros HL Hj. assert (Hres : ∀ c1 c2, bench_res c1 c2 (set_bfd (default (-1) fd) (set_bq q bench0)) =
    qp_res c1 c2 q ++ opt_fd_res fd) by (by intros c1 c2; destruct fd).
  destruct Hj as [(-> & Hup & Hm & Hfd & c1 & c2 & Ho)|(-> & -> & Hfd & Ho)]; rewrite HL in Ho.
  - split; [|done]. split; [split; [by apply qp_up_fine|done]|]. exists c1, c2. rewrite Hres. by rewrite Permutation_app_comm.
  - split; [|done]. split; [split; [by intros _ Hq|done]|]. exists 0, 0. rewrite Hres, Hfd. exact Ho.
Qed.
Lemma do_listen_ok : phase_ok at_start has_qp (do_listen cfg).
Proof.
  intros s L [-> HL]. eapply wp_bind_2; [apply bench_listen_ledger|]. intros [[rc q] fd] L' [Hj [f ->]].
  pose proof (joined_start _ _ _ _ _ _ HL Hj) as [Hh Hup]. unfold go_if. cbn in *.
  destruct (decide (rc = 0)) as [->|Hrc]; [|by rewrite bool_decide_eq_true_2]. cbn.
  split; [exact Hh|]. destruct (Hup eq_refl) as [? ?]. split; [done|]. split; [done|]. split; [|done]. intros _. cbn.
  destruct Hj as [(_ & _ & _ & Hfd & _)|[? _]]; [by apply Hfd|done].
Qed.
Lemma do_connect_ok ip : b_server_ip cfg = Some ip → phase_ok at_start has_qp (do_connect cfg ip).
Proof.
  intros Hip s L [-> HL]. eapply wp_bind_2; [apply bench_connect_ledger|]. intros [rc q] L' Hj.
  pose proof (joined_start _ _ _ _ _ _ HL Hj) as [Hh Hup]. unfold go_if. cbn in *.
  destruct (decide (rc = 0)) as [->|Hrc]; [|by rewrite bool_decide_eq_true_2]. cbn.
  destruct (Hup eq_refl) as [? ?]. split; [exact Hh|]. split; [done|]. split; [done|]. by rewrite Hip.
Qed.
Lemma do_reg_ok len : phase_ok has_qp (has_mr false) (do_reg len).
Proof.
  intros s L (Hh & Hup & Hmode & Hfd & Hmr & Hlat). pose proof Hh as (Hfine & c1 & c2 & Ho).
  unfold do_reg. rewrite Hmr. eapply wp_bind_2; [apply rai_mr_reg_ledger; intros Hpd; eapply held_qp; [exact Hh|done|auto]|].
  assert (Hres : ∀ m, bench_res c1 c2 (set_bmr m s) = mr_res (qp_pd (bq s)) m ++ qp_res c1 c2 (bq s) ++ opt_fd_res (Some (bfd s))).
  { intros m. unfold bench_res. cbn. by rewrite Hlat. }
  assert (Hs : bench_res c1 c2 s = qp_res c1 c2 (bq s) ++ opt_fd_res (Some (bfd s))).
  { unfold bench_res. by rewrite Hmr, Hlat. }
  rewrite Hs in Ho. intros [rc m'] L' [(-> & m & buf & -> & Ha & Hown)|(-> & Hm' & Hown)]; unfold go_if; cbn.
  - split; [|by split_and!]. split; [by split; [apply Hfine|]|]. exists c1, c2. rewrite Hres. by eapply own_trans.
  - assert (m' = Some rai_mr0) as -> by (by destruct Hm' as [->| ->]). cbn. split; [by split; [apply Hfine|]|]. exists c1, c2. rewrite Hres.
    apply own_nil in Hown. by rewrite Hown.
Qed.

(** * With the queue pair and the region *)

(** A call that changes no resource. *)
Lemma quiet_ok b (p : bench → sysM Z) :
  (∀ s L, has_mr b s L → wp ledger_env (p s) (fun _ L' => L' ≡ₚ L) L) →
  phase_ok (has_mr b) (has_mr b) (fun s => rc <- p s ;; go_if rc s).
Proof.
  intros Hp s L Hs. apply go_if_ok; [by intros ? ? [? _]|done|]. eapply wp_mono; [|by apply Hp]. intros rc L' HL.
  eapply has_mr_same; [|exact HL|exact Hs]. split_and!; try done. exists (qp_local (bq s)), (qp_remote (bq s)).
  by destruct (bq s).
Qed.
Lemma do_accept_ok b : phase_ok (has_mr b) (has_mr b) (do_accept cfg).
Proof.
  apply quiet_ok. intros s L (Hh & (Hq & Hc & Hp & Hid) & Hmode & _). unfold bench_accept. rewrite <- Hmode.
  destruct (qp_mode (bq s)) eqn:Hm.
  - destruct (Hid eq_refl) as [Hi He]. destruct Hh as (Hfine & c1 & c2 & Ho). pose proof Ho as (HL & Hnd & Hf).
    unfold bench_res in HL, Hnd, Hf, Ho. set (l := ptr_res RMem [] _) in *. set (lm := mr_res _ _) in *.
    set (lf := opt_fd_res _) in *. unfold qp_res in *. rewrite Hm in *.
    assert (Ho' : own ((l ++ lm ++ lf) ++ cm_res c1 c2 (bq s)) L0 L).
    { eapply own_proper; [|reflexivity|reflexivity|exact Ho]. solve_Permutation. }
    eapply wp_mono; [|eapply rai_cm_accept_qp_beside; [exact Ho'| |auto..]]; [by intros rc L' [_ ?]|].
    unfold l, lm, lf, ptr_res, mr_res, opt_fd_res. rewrite !Forall_app.
    split_and!; repeat case_match; try constructor; try done; constructor.
  - unfold rai_verbs_accept_qp. eapply wp_bind_2; [apply qp_to_rts_ledger; intros Hq'; eapply held_qp; [exact Hh|done|auto]|].
    intros rc L' [_ ->]. destruct (bool_decide _); cbn; reflexivity.
Qed.
(** A step that keeps the ledger and changes at most the exchanged records. *)
Lemma same_ok b (p : phase) :
  (∀ s L, has_mr b s L → wp ledger_env (p s) (fun r L' => match r with Some (_, s') => same_res s s' ∧ L' ≡ₚ L | None => True end) L) →
  phase_ok (has_mr b) (has_mr b) p.
Proof.
  intros Hp s L Hs. eapply wp_mono; [|by apply Hp]. intros [[ok s']|] L'; [|done]. intros [Hsame HL].
  pose proof (has_mr_same _ _ _ _ _ Hsame HL Hs) as Hs'. destruct ok; [done|apply Hs'].
Qed.
Lemma same_refl s : same_res s s.
Proof. split_and!; try done. exists (qp_local (bq s)), (qp_remote (bq s)). by destruct (bq s). Qed.
Lemma meet_ok b : phase_ok (has_mr b) (has_mr b) (meet cfg).
Proof.
  apply same_ok. intros s L (Hh & _ & _ & Hfd & _). unfold meet.
  assert (Hgo : ∀ rc q L', (∃ g, q = Some (set_remote g (bq s))) → L' ≡ₚ L →
    wp ledger_env (go_if rc (set_bq (default (bq s) q) s))
      (fun r L' => match r with Some (_, s') => same_res s s' ∧ L' ≡ₚ L | None => True end) L').
  { intros rc q L' (g & ->) HL. split; [|done]. split_and!; try done. exists (qp_local (bq s)), g. by destruct (bq s). }
  destruct (b_server_ip cfg) as [ip|].
  - eapply wp_bind_2; [apply rai_oob_connect_ledger|]. intros [rc q] L' (_ & Hg & HL%own_nil). by apply Hgo.
  - eapply wp_bind_2; [apply rai_oob_accept_ledger, held_fd; [exact Hh|auto]|].
    intros [rc q] L' (_ & Hg & HL%own_nil). by apply Hgo.
Qed.
Lemma fill_local_ok b : phase_ok (has_mr b) (has_mr b) fill_local.
Proof.
  apply same_ok. intros s L _. unfold fill_local. destruct (mr_mr (bmr s)); (split; [|done]); [|apply same_refl].
  set (l := mkConnInfo _ _ _ _ _). split_and!; try done. exists l, (qp_remote (bq s)). cbn. by destruct (bq s).
Qed.
Lemma try_post_ok b k size id off : phase_ok (has_mr b) (has_mr b)
  (fun s => try_post (fun q m => post (k q) (Some q) (Some m) size id off) s).
Proof.
  apply quiet_ok. intros s L (Hh & _). eapply wp_mono; [|apply rai_post_ledger; intros Hq; eapply held_qp; [exact Hh|done|auto]].
  by intros rc L' ->.
Qed.
Lemma try_poll_ok b pf : phase_ok (has_mr b) (has_mr b) (try_poll pf).
Proof.
  apply same_ok. intros s L (Hh & (_ & Hc & _) & _). unfold try_poll, rai_poll_cq. rewrite bool_decide_eq_false_2 by done.
  eapply wp_bind_2; [apply poll_loop_ledger; eapply held_qp; [exact Hh|done|auto]|].
  intros [[rc o]|] L' ->; [|done]. split; [apply same_refl|done].
Qed.
Lemma store_byte_ok b (a : bench → Z) v : phase_ok (has_mr b) (has_mr b) (fun s => store_byte (a s) v s).
Proof.
  apply same_ok. intros s L _. unfold store_byte. neutral x. split; [apply same_refl|done].
Qed.
Lemma spin_ok b fuel (a : bench → Z) stop : phase_ok (has_mr b) (has_mr b) (fun s => spin fuel (a s) stop s).
Proof.
  apply same_ok. intros s L _. induction fuel as [|fuel IH]; [done|]. cbn [spin]. neutral d.
  destruct (stop _); [|exact IH]. split; [apply same_refl|done].
Qed.
Lemma repeat_ok P n i body : (∀ i, phase_ok P P (body i)) → phase_ok P P (repeat_phase n i body).
Proof.
  intros Hb. revert i. induction n as [|n IH]; intros i; cbn [repeat_phase]; [apply skip_ok|].
  eapply andthen_ok; [apply Hb|apply IH].
Qed.
Lemma do_malloc_ok n : phase_ok (has_mr false) (has_mr true) (do_malloc n).
Proof.
  intros s L ((Hfine & c1 & c2 & Ho) & Hup & Hmode & Hfd & Hmr & Hlat). unfold do_malloc.
  apply wp_step, wp_acquire; [constructor|done|]. intros p L' _ Hown. cbn [created] in Hown.
  assert (Hh : held (set_blat p s) L').
  { split; [done|]. exists c1, c2. unfold bench_res in *. cbn. rewrite (Hlat eq_refl) in Ho. cbn in Ho. by eapply own_trans. }
  cbn. case_bool_decide; [|exact Hh]. split; [exact Hh|]. by split_and!.
Qed.
Lemma weaken_ok b P p : phase_ok (has_mr b) P p → phase_ok (has_mr false) P p.
Proof.
  intros Hp s L (Hh & Hup & Hmode & Hfd & Hmr & Hlat). apply Hp. split; [done|]. split; [done|]. split; [done|].
  split; [done|]. split; [done|]. intros _. by apply Hlat.
Qed.
Lemma connected_ok len pre :
  phase_ok (has_mr false) (has_mr false) pre → phase_ok at_start (has_mr false) (connected cfg len pre).
Proof.
  intros Hpre. unfold connected. destruct (b_server_ip cfg) as [ip|] eqn:Hip.
  - eapply andthen_ok; [by apply do_connect_ok|apply do_reg_ok].
  - eapply andthen_ok; [apply do_listen_ok|]. eapply andthen_ok; [apply do_reg_ok|].
    eapply andthen_ok; [exact Hpre|apply do_accept_ok].
Qed.

(** * The end *)

(** What the resources refer to, by kind. *)
Definition parents_in (P : kind → Prop) (l : ledger) : Prop := Forall (fun r => Forall (fun k => P k.1) (r_parents r)) l.
Lemma parents_unreferred P k l : parents_in P l → ¬ P k.1 → unreferred k l.
Proof.
  intros Hl Hk. eapply Forall_impl; [exact Hl|]. cbn. intros r Hr Hin. rewrite Forall_forall in Hr. by apply Hk, Hr.
Qed.
Lemma ptr_parents (P : kind → Prop) k ps p : Forall (fun k => P k.1) ps → parents_in P (ptr_res k ps p).
Proof. intros Hps. unfold ptr_res. case_bool_decide; [by apply Forall_singleton|constructor]. Qed.
Lemma qp_parents c1 c2 q : parents_in (fun k => k ≠ RFd ∧ k ≠ RMem ∧ k ≠ RMr) (qp_res c1 c2 q).
Proof.
  unfold qp_res, verbs_res, cm_res, parents_in. destruct (qp_mode q); rewrite !Forall_app;
    split_and!; apply (ptr_parents (fun k => k ≠ RFd ∧ k ≠ RMem ∧ k ≠ RMr)); by repeat constructor.
Qed.
Lemma mr_parents pd m : parents_in (fun k => k ≠ RFd) (mr_res pd m).
Proof.
  unfold mr_res, parents_in. rewrite Forall_app. split; [destruct (mr_mr m)|case_bool_decide]; by repeat constructor.
Qed.
Lemma bench_out_ledger s L : held s L → wp ledger_env (bench_out s) (fun _ L' => L' ≡ₚ L0) L.
Proof.
  intros ((Hfine & Hown) & c1 & c2 & Ho). unfold bench_out, bench_res in *.
  set (l := ptr_res RMem [] (blat s)) in *. set (lm := mr_res _ _) in *. set (lq := qp_res _ _ _) in *.
  pose proof (qp_parents c1 c2 (bq s)) as Hq. fold lq in Hq.
  eapply (wp_close_opt (bfd s) (l ++ lm ++ lq) L0).
  { eapply own_proper; [|reflexivity|reflexivity|exact Ho]. solve_Permutation. }
  { rewrite !unreferred_app. split; [eapply parents_unreferred; [by apply (ptr_parents (fun _ => False))|cbn; tauto]|].
    split; (eapply parents_unreferred; [first [apply mr_parents|exact Hq]|]); cbn; tauto. }
  clear Ho. intros L1 Ho. eapply (wp_bind_2 _ _ _ (fun _ L' => own (lm ++ lq) L0 L')).
  { unfold l, ptr_res in Ho. case_bool_decide as Hlat; [|exact Ho].
    eapply (wp_release _ _ _ _ (mkRes (RMem, blat s) [])); [exact Ho| |done..|by intros [] L' _ _ Ho'].
    apply Forall_cons. split; [apply not_elem_of_nil|]. apply Forall_app. split.
    - unfold lm, mr_res. apply Forall_app. split; [|case_bool_decide; [apply Forall_singleton, not_elem_of_nil|constructor]].
      destruct (mr_mr (bmr s)) as [m|] eqn:Hm; [|constructor]. apply Forall_singleton. cbn.
      rewrite !not_elem_of_cons. split; [done|]. split; [|apply not_elem_of_nil]. intros [= Hb].
      destruct Ho as (_ & Hnd & _). cbn in Hnd. apply NoDup_cons in Hnd as [Hnd _]. apply Hnd.
      unfold lm, mr_res. rewrite Hm, bool_decide_eq_true_2 by (by apply Hown). rewrite Hb. cbn. right. by left.
    - eapply parents_unreferred; [exact Hq|]. cbn. tauto. }
  clear Ho. intros [] L2 Ho.
  eapply wp_bind_2; [apply (rai_mr_dereg_ledger (qp_pd (bq s)) (bmr s) (lq ++ L0)); apply (own_split _ _ _ _ Ho)|].
  { apply Forall_forall. intros r Hr. eapply parents_unreferred; [exact Hq|]. unfold lm, mr_res in Hr.
    apply elem_of_app in Hr as [Hr|Hr].
    - destruct (mr_mr (bmr s)); [|by apply elem_of_nil in Hr]. apply list_elem_of_singleton in Hr as ->. cbn. tauto.
    - case_bool_decide; [|by apply elem_of_nil in Hr]. apply list_elem_of_singleton in Hr as ->. cbn. tauto. }
  intros m' L3 [_ Ho3]. apply (own_frame _ _ _ _ _ _ Ho) in Ho3. cbn in Ho3.
  eapply wp_bind_2; [apply (rai_qp_destroy_ledger c1 c2); [exact Ho3|exact Hfine]|].
  intros q L4 [_ Ho4%own_nil]. exact Ho4.
Qed.
End stages.

Lemma bench_main_ledger (body : bench_config → phase) argv L :
  (∀ cfg, ∃ Q, (∀ s L', Q s L' → held L s L') ∧ phase_ok L (at_start L) Q (body cfg)) →
  wp ledger_env (bench_main body argv) (fun r L' => r ≠ None → L' ≡ₚ L) L.
Proof.
  intros Hbody. unfold bench_main. destruct (bench_config_parse argv bench_config_init) as [rc cfg]. case_bool_decide.
  { eapply wp_bind_2; [apply bench_out_ledger|by intros [] L' HL _].
    split; [split; [by intros _ Hq|done]|]. exists 0, 0. apply own_empty. }
  destruct (b_csv_header cfg); [by intros _|]. destruct (Hbody cfg) as (Q & HQ & Hok).
  eapply wp_bind_2; [by apply Hok|]. intros [[ok s]|] L1 H1; [|by intros Hn].
  eapply wp_bind_2; [apply (bench_out_ledger L)|by intros [] L' HL _]. destruct ok; [by apply HQ|done].
Qed.

(** * The three bodies *)

(** Calls that only touch memory or read the clock leave the ledger alone. *)
Lemma clock_ledger L : wp ledger_env time_now_ns (fun _ L' => L' = L) L.
Proof. apply wp_bind_ret. by neutral t. Qed.
Lemma store_ledger a d L : wp ledger_env (sys (c_store a d)) (fun _ L' => L' = L) L.
Proof. apply wp_bind_ret. by neutral t. Qed.

Section bodies.
Context (cfg : bench_config) (L0 : ledger).
Abbreviation ok := (phase_ok L0).
Abbreviation ready := (has_mr cfg L0).

Lemma post_live b s L k size id off : ready b s L →
  wp ledger_env (post k (Some (bq s)) (Some (bmr s)) size id off) (fun _ L' => L' = L) L.
Proof. intros (Hh & _). apply rai_post_ledger. intros Hq. eapply held_qp; [exact Hh|done|auto]. Qed.

Lemma bw_fill_ledger b n scnt ccnt t s L : ready b s L → wp ledger_env (Bw.fill cfg n scnt ccnt t s) (fun _ L' => L' = L) L.
Proof.
  intros Hs. revert scnt t. induction n as [|n IH]; intros scnt t; cbn [Bw.fill]; [done|].
  destruct (_ && _); [|done].
  eapply (wp_bind_2 _ _ _ (fun _ L' => L' = L)); [destruct (scnt =? _); [apply store_ledger|done]|]. intros [] L1 ->.
  eapply (wp_bind_2 _ _ _ (fun _ L' => L' = L)); [destruct (scnt =? _); [apply clock_ledger|done]|]. intros t' L1 ->.
  eapply wp_bind_2; [by eapply (post_live b s L (PWrite _ _ _))|]. intros rc L1 ->.
  case_bool_decide; [done|apply IH].
Qed.
Lemma bw_window_ledger b fuel scnt ccnt t s L : ready b s L →
  wp ledger_env (Bw.window cfg fuel scnt ccnt t s) (fun _ L' => L' = L) L.
Proof.
  intros Hs. revert scnt ccnt t. induction fuel as [|fuel IH]; intros scnt ccnt t; cbn [Bw.window];
    (destruct (ccnt <? _); [|done]); [done|].
  eapply wp_bind_2; [by eapply bw_fill_ledger|]. intros [[scnt' t']|] L1 ->; [|done].
  apply wp_step, wp_neutral; [|done..|].
  { apply Forall_singleton. destruct Hs as (Hh & (_ & Hc & _) & _). eapply held_qp; [exact Hh|done|auto]. }
  intros [ne wcs] _. cbn beta iota. destruct (ne <? 0); [done|]. destruct (forallb _ _); [apply IH|done].
Qed.
Lemma bw_client_ok b fuel : ok (ready b) (ready b) (Bw.client fuel cfg).
Proof.
  apply same_ok. intros s L Hs. unfold Bw.client. eapply wp_bind_2; [apply store_ledger|]. intros [] L1 ->.
  eapply wp_bind_2; [by eapply bw_window_ledger|]. intros [[t|]|] L1 ->; [|by split; [apply same_refl|]|done].
  eapply wp_bind_2; [apply clock_ledger|]. intros now L1 ->. split; [|done]. split_and!; try done.
  exists (qp_local (bq s)), (qp_remote (bq s)). cbn. by destruct (bq s).
Qed.
Lemma bw_body_ok fuel : ok (at_start L0) (ready false) (Bw.body fuel cfg).
Proof.
  eapply andthen_ok; [apply connected_ok, store_byte_ok|]. eapply andthen_ok; [apply fill_local_ok|].
  eapply andthen_ok; [apply meet_ok|]. eapply andthen_ok; [|apply meet_ok].
  destruct (b_server_ip cfg); [apply bw_client_ok|apply (spin_ok _ _ _ _ (Bw.doorbell cfg))].
Qed.

Lemma latw_write_ok b off : ok (ready b) (ready b) (LatW.write_half cfg off).
Proof.
  apply (try_post_ok cfg L0 b (fun q => PWrite [SEND_SIGNALED] (u64 (ci_addr (qp_remote q) + off)) (ci_rkey (qp_remote q)))
    (u32 (b_size cfg)) 1 off).
Qed.
(** A phase that also returns the samples so far. *)
Definition loop_post b (r : option (bool * bench * list Z)) (L : ledger) : Prop :=
  match r with Some (true, s, _) => ready b s L | Some (false, s, _) => held L0 s L | None => True end.
(** The end of both client iterations. *)
Lemma sample_ok b (p : phase) i start lat s L : ok (ready b) (ready b) p → ready b s L →
  wp ledger_env
    (r <- p s ;;
     match r with
     | None => Ret None
     | Some (false, s) => Ret (Some (false, s, lat))
     | Some (true, s) =>
       if kWarmup <=? i then now <- time_now_ns ;; Ret (Some (true, s, lat ++ [time_elapsed_ns start now]))
       else Ret (Some (true, s, lat))
     end) (loop_post b) L.
Proof.
  intros Hp Hs. eapply wp_bind_2; [by apply Hp|]. intros [[[] s']|] L1 H1; [|exact H1|done].
  destruct (kWarmup <=? i); [|exact H1]. eapply wp_bind_2; [apply clock_ledger|]. intros t L2 ->. exact H1.
Qed.
Lemma sample_end_ok b (s : bench) lat L : ready b s L →
  wp ledger_env (skip (set_brep (RepLatency (latency_stats (sort_u64 lat) (b_iters cfg))) s)) (phase_post L0 (ready b)) L.
Proof.
  intros Hs. cbn. eapply has_mr_same; [|done|exact Hs]. split_and!; try done.
  exists (qp_local (bq s)), (qp_remote (bq s)). cbn. by destruct (bq s).
Qed.
Lemma latw_client_ok pf fuel : ok (ready false) (ready true) (LatW.client pf fuel cfg).
Proof.
  eapply andthen_ok; [apply do_malloc_ok|]. intros s L Hs.
  eapply (wp_bind_2 _ _ _ (loop_post true)).
  - generalize (Z.to_nat (LatW.total_iters cfg)) 0 (@nil Z). intros n. revert s L Hs. induction n as [|n IH]; intros s L Hs i lat; [exact Hs|].
    cbn [LatW.client_loop]. eapply (wp_bind_2 _ _ _ (loop_post true)).
    + unfold LatW.client_iter. eapply wp_bind_2; [apply store_ledger|]. intros [] L1 ->.
      eapply wp_bind_2; [apply clock_ledger|]. intros t L1 ->. apply sample_ok; [|exact Hs].
      eapply andthen_ok; [apply latw_write_ok|]. eapply andthen_ok; [apply try_poll_ok|].
      apply (spin_ok _ _ _ _ (fun _ => LatW.high_byte cfg s)).
    + intros [[[[] s'] lat']|] L1 H1; [by apply IH|exact H1|done].
  - intros [[[[] s'] lat]|] L1 H1; [by apply sample_end_ok|exact H1|done].
Qed.
Lemma latw_server_ok pf fuel b : ok (ready b) (ready b) (LatW.server pf fuel cfg).
Proof.
  apply repeat_ok. intros i s L Hs. unfold LatW.server_iter.
  refine (andthen_ok L0 _ (ready b) _ _ _ (spin_ok _ _ _ _ (fun _ => LatW.low_byte cfg s) _) _ s L Hs).
  eapply andthen_ok; [apply (store_byte_ok _ _ _ (fun _ => LatW.high_byte cfg s))|].
  eapply andthen_ok; [apply latw_write_ok|apply try_poll_ok].
Qed.
Lemma latw_body_ok pf fuel : ∃ b, ok (at_start L0) (ready b) (LatW.body pf fuel cfg).
Proof.
  assert (Hopen : ∀ b rest, ok (ready false) (ready b) rest → ok (at_start L0) (ready b)
    (connected cfg (2 * LatW.reply_off cfg) skip ⨟
     (fun s => sys (c_store (mr_buf (bmr s)) (replicate (Z.to_nat (2 * LatW.reply_off cfg)) 0)) ;; skip s) ⨟
     fill_local ⨟ meet cfg ⨟ rest ⨟ meet cfg)).
  { intros b rest Hrest. eapply andthen_ok; [apply connected_ok, skip_ok|]. eapply andthen_ok; [|].
    - apply same_ok. intros s L _. eapply wp_bind_2; [apply store_ledger|]. intros [] L1 ->. split; [apply same_refl|done].
    - eapply andthen_ok; [apply fill_local_ok|]. eapply andthen_ok; [apply meet_ok|].
      eapply andthen_ok; [exact Hrest|apply meet_ok]. }
  unfold LatW.body. destruct (b_server_ip cfg); eexists; apply Hopen; [apply latw_client_ok|apply latw_server_ok].
Qed.

Lemma latsr_recv_ok b : ok (ready b) (ready b) (LatSR.recv_one cfg).
Proof. apply (try_post_ok cfg L0 b (fun q => PRecv)). Qed.
Lemma latsr_send_ok b : ok (ready b) (ready b) (LatSR.send_one cfg).
Proof. apply (try_post_ok cfg L0 b (fun q => PSend)). Qed.
Lemma latsr_repost_ok b i : ok (ready b) (ready b) (LatSR.repost cfg i).
Proof. unfold LatSR.repost. destruct (_ <? _); [apply latsr_recv_ok|apply skip_ok]. Qed.
Lemma latsr_prepost_ok b : ok (ready b) (ready b) (LatSR.prepost_all cfg).
Proof. apply repeat_ok. intros i. apply latsr_recv_ok. Qed.
Lemma latsr_server_ok pf b : ok (ready b) (ready b) (LatSR.server pf cfg).
Proof.
  apply repeat_ok. intros i. eapply andthen_ok; [apply try_poll_ok|]. eapply andthen_ok; [apply latsr_repost_ok|].
  eapply andthen_ok; [apply latsr_send_ok|apply try_poll_ok].
Qed.
Lemma latsr_client_ok pf : ok (ready false) (ready true) (LatSR.client pf cfg).
Proof.
  eapply andthen_ok; [apply do_malloc_ok|]. eapply andthen_ok; [apply latsr_prepost_ok|]. intros s L Hs.
  eapply (wp_bind_2 _ _ _ (loop_post true)).
  - generalize (Z.to_nat (LatSR.total_iters cfg)) 0 (@nil Z). intros n. revert s L Hs. induction n as [|n IH]; intros s L Hs i lat; [exact Hs|].
    cbn [LatSR.client_loop]. eapply (wp_bind_2 _ _ _ (loop_post true)).
    + unfold LatSR.client_iter. eapply wp_bind_2; [by apply latsr_repost_ok|]. intros [[[] s1]|] L1 H1; [|exact H1|done].
      eapply wp_bind_2; [apply clock_ledger|]. intros t L2 ->. apply sample_ok; [|exact H1].
      eapply andthen_ok; [apply latsr_send_ok|]. eapply andthen_ok; apply try_poll_ok.
    + intros [[[[] s'] lat']|] L1 H1; [by apply IH|exact H1|done].
  - intros [[[[] s'] lat]|] L1 H1; [by apply sample_end_ok|exact H1|done].
Qed.
Lemma latsr_body_ok pf : ∃ b, ok (at_start L0) (ready b) (LatSR.body pf cfg).
Proof.
  unfold LatSR.body. destruct (b_server_ip cfg); eexists; (eapply andthen_ok; [apply connected_ok, latsr_prepost_ok|]);
    (eapply andthen_ok; [apply meet_ok|]); [apply latsr_client_ok|apply latsr_server_ok].
Qed.
End bodies.

(** C33. The three phase 1 benchmarks leave nothing behind: whatever the command
    line, in both connection modes and on both sides, on every failure of a call
    and on success, [main] has given back each resource it made, in an order that
    respects their dependencies, when it returns. *)
Theorem benches_no_leak (pf fuel : nat) (argv : list string) (L : ledger) :
  wp ledger_env (Bw.main fuel argv) (fun r L' => r ≠ None → L' ≡ₚ L) L ∧
  wp ledger_env (LatW.main pf fuel argv) (fun r L' => r ≠ None → L' ≡ₚ L) L ∧
  wp ledger_env (LatSR.main pf argv) (fun r L' => r ≠ None → L' ≡ₚ L) L.
Proof.
  split_and!; apply bench_main_ledger; intros cfg.
  - exists (has_mr cfg L false). split; [by intros ? ? [? _]|apply bw_body_ok].
  - destruct (latw_body_ok cfg L pf fuel) as [b Hb]. exists (has_mr cfg L b). split; [by intros ? ? [? _]|exact Hb].
  - destruct (latsr_body_ok cfg L pf) as [b Hb]. exists (has_mr cfg L b). split; [by intros ? ? [? _]|exact Hb].
Qed.
