(* ===== verification/BenchWindow.v ===== *)
(** How many work requests the phase 1 benchmarks keep in flight, and what time
    the bandwidth is computed over. *)
From stdpp Require Import strings.
From S2P Require Import Prelude Prog Libc Sys BenchUtils RdmaCommon RdmaOps Window BenchConfig BenchSetup BwRdmaWrite LatSendRecv.

(** * What the command line lets through *)

Lemma bench_config_bounds argv cfg0 cfg :
  bench_config_parse argv cfg0 = (0, cfg) →
  1 ≤ b_port cfg ≤ 65534 ∧ 1 ≤ b_iters cfg ∧ 1 ≤ b_size cfg ∧ 1 ≤ b_depth cfg ≤ RAI_QP_MAX_WR - 1.
Proof.
  unfold bench_config_parse. destruct (bench_args (tail argv) cfg0) as [rc c]. case_bool_decide; [done|].
  destruct (bench_checks c) eqn:Hc; [|done]. intros [= <-]. unfold bench_checks in Hc.
  rewrite !andb_true_iff, !negb_true_iff, !orb_false_iff, !Z.ltb_ge, Z.leb_gt in Hc. lia.
Qed.

(** [--iters] holds an [int]. *)
Lemma bench_args_iters args cfg : b_iters cfg ≤ INT_MAX → b_iters (bench_args args cfg).2 ≤ INT_MAX.
Proof.
  remember (length args) as n eqn:Hn. revert args cfg Hn.
  induction (lt_wf n) as [n _ IH]. intros [|opt args] cfg -> Hc; [exact Hc|]. cbn [bench_args].
  destruct (positional opt); [by eapply IH; [|reflexivity|]; cbn; lia|].
  destruct (String.eqb opt "--csv"); [by eapply IH; [|reflexivity|]; cbn; lia|].
  destruct (String.eqb opt "--csv-header"); [by eapply IH; [|reflexivity|]; cbn; lia|].
  destruct args as [|val args]; [exact Hc|]. destruct (bench_option opt val cfg) as [c|] eqn:Ho; [|exact Hc].
  eapply IH; [|reflexivity|]; [cbn; lia|]. revert Ho. unfold bench_option.
  repeat match goal with |- context [if ?b then _ else _] => destruct b end; intros [= <-]; try exact Hc.
  cbn. apply atoi_range.
Qed.
Lemma bench_accepted argv cfg :
  bench_config_parse argv bench_config_init = (0, cfg) → 1 ≤ b_depth cfg ≤ RAI_QP_MAX_WR - 1 ∧ 1 ≤ b_iters cfg < 2 ^ 31.
Proof.
  intros Hp. pose proof (bench_config_bounds _ _ _ Hp) as (_ & Hi & _ & Hd). split; [done|]. split; [done|].
  unfold bench_config_parse in Hp. pose proof (bench_args_iters (tail argv) bench_config_init) as Hit.
  destruct (bench_args (tail argv) bench_config_init) as [rc c]. case_bool_decide; [done|].
  destruct (bench_checks c); [|done]. injection Hp as <-. unfold INT_MAX in Hit. cbn in Hit. lia.
Qed.

(** * The window of writes *)

(** An adapter never completes more than was posted. *)
Definition adapter : envspec sys_sig trace := fun o tr x tr' =>
  any o tr x tr' ∧
  match o return sys_ans o → Prop with v_poll_cq_batch _ _ => fun r => r.1 ≤ in_flight tr | _ => fun _ => True end x.
Lemma adapter_any o tr x tr' : adapter o tr x tr' → any o tr x tr'.
Proof. by intros [? _]. Qed.

Section window.
Context (cfg : bench_config) (Hd : 1 ≤ b_depth cfg) (Hit : 1 ≤ b_iters cfg < 2 ^ 32).
Abbreviation N := (Bw.total_iters cfg).
Abbreviation d := (b_depth cfg).

(** Before a post or a poll: the counters are those of the trace. *)
Record bw_at (scnt ccnt bw_start : Z) (tr : trace) : Prop := {
  ba_scnt : scnt = posted tr;
  ba_ccnt : ccnt = reaped tr;
  ba_order : 0 ≤ ccnt ≤ scnt ∧ scnt ≤ N;
  ba_within : within d tr;
  ba_start : kWarmup < scnt → stamped kWarmup bw_start tr }.
Lemma bw_flight scnt ccnt t tr : bw_at scnt ccnt t tr → in_flight tr = scnt - ccnt.
Proof. intros [-> -> _ _ _]. done. Qed.
(** Steps that neither post nor poll. *)
Lemma bw_plain scnt ccnt t tr o (x : sys_ans o) :
  plain_call o = true → bw_at scnt ccnt t tr → bw_at scnt ccnt t (tr ++ [@Ev sys_sig o x]).
Proof.
  intros Ho Hat. pose proof (bw_flight _ _ _ _ Hat) as Hf. destruct Hat as [Hs Hc Hord Hw Hst].
  assert (Hle : in_flight tr ≤ d) by (specialize (Hw (length tr)); by rewrite take_ge in Hw).
  pose proof (plain_grows d o x tr Ho Hle) as [Hp H1 H2 H3].
  split; [lia|lia|done|auto|]. intros Hk. eapply stamped_mono; [exact Hp|auto].
Qed.
Lemma bw_store scnt ccnt t tr (b : bool) a v :
  bw_at scnt ccnt t tr →
  wp adapter (if b then sys (c_store a v) else Ret tt) (fun _ tr' => bw_at scnt ccnt t tr') tr.
Proof. intros Hat. destruct b; [|exact Hat]. intros x tr' [-> _]. by apply (bw_plain _ _ _ _ (c_store a v) x). Qed.
Lemma bw_clock scnt ccnt t tr :
  bw_at scnt ccnt t tr →
  wp adapter (if scnt =? kWarmup then time_now_ns else Ret t)
    (fun t' tr' => bw_at scnt ccnt t' tr' ∧ (scnt = kWarmup → stamped kWarmup t' tr')) tr.
Proof.
  intros Hat. destruct (Z.eqb_spec scnt kWarmup) as [He|He]; [|by split].
  intros x tr' [-> _]. pose proof (bw_plain _ _ _ _ c_clock x eq_refl Hat) as Hat'. cbn [wp].
  destruct (clock_grows d tr x) as [_ Hst].
  { pose proof (ba_within _ _ _ _ Hat (length tr)) as Hw. by rewrite take_ge in Hw. }
  rewrite <- (ba_scnt _ _ _ _ Hat), He in Hst. split; [|done].
  destruct Hat' as [? ? ? ? ?]. split; (done || lia).
Qed.
Lemma bw_fill n scnt ccnt t s tr : bw_at scnt ccnt t tr →
  wp adapter (Bw.fill cfg n scnt ccnt t s) (fun r tr' => match r with
    | None => within d tr'
    | Some (scnt', t') => bw_at scnt' ccnt t' tr' end) tr.
Proof.
  revert scnt t tr. induction n as [|n IH]; intros scnt t tr Hat; cbn [Bw.fill]; [exact Hat|].
  destruct (_ && _) eqn:Hroom; [|exact Hat]. apply andb_true_iff in Hroom as [Hs%Z.ltb_lt Hw%Z.ltb_lt].
  pose proof (ba_order _ _ _ _ Hat) as Hord. unfold Bw.total_iters, kWarmup in *.
  rewrite u64_small in Hw by lia.
  eapply wp_bind_2; [by apply bw_store|]. intros [] tr1 H1.
  eapply wp_bind_2; [by apply bw_clock|]. intros t' tr2 [H2 Hst].
  eapply wp_bind_2.
  { eapply wp_env_mono; [apply adapter_any|]. apply (post_grows (PWrite _ _ _) _ _ _ _ _ d).
    rewrite (bw_flight _ _ _ _ H2). lia. }
  intros rc tr3 [[-> Hg]|[-> Hg]]; [rewrite bool_decide_eq_false_2 by lia|rewrite bool_decide_eq_true_2 by lia].
  - apply IH. destruct H2 as [? ? ? ? Hst2]. split; [rewrite (gr_posted _ _ _ _ _ Hg); lia|rewrite (gr_reaped _ _ _ _ _ Hg); lia|
      unfold Bw.total_iters, kWarmup; lia|by apply Hg|].
    intros Hk. eapply stamped_mono; [apply Hg|]. destruct (decide (scnt = kWarmup)); [by apply Hst|]. apply Hst2. lia.
  - apply Hg, H2.
Qed.
Lemma bw_window fuel scnt ccnt t s tr : bw_at scnt ccnt t tr →
  wp adapter (Bw.window cfg fuel scnt ccnt t s) (fun r tr' => within d tr' ∧
    ∀ t', r = Some (Some t') → bw_at N N t' tr') tr.
Proof.
  revert scnt ccnt t tr. induction fuel as [|fuel IH]; intros scnt ccnt t tr Hat; cbn [Bw.window];
    (destruct (Z.ltb_spec ccnt N) as [Hc|Hc]; [|split; [apply Hat|]; intros t' [= <-];
       pose proof (ba_order _ _ _ _ Hat); assert (ccnt = N ∧ scnt = N) as [-> ->] by lia; done]).
  { split; [apply Hat|done]. }
  eapply wp_bind_2; [by apply bw_fill|]. intros [[scnt' t']|] tr1 H1; [|by split].
  intros [ne wcs] tr2 [-> Hne]. cbn [fst] in Hne. pose proof (bw_flight _ _ _ _ H1) as Hf. rewrite Hf in Hne.
  set (e := @Ev sys_sig (v_poll_cq_batch _ _) (ne, wcs)).
  assert (Hg : grows d 0 (Z.max 0 ne) tr1 (tr1 ++ [e])).
  { apply (grows_snoc d e). cbn. pose proof (ba_within _ _ _ _ H1 (length tr1)) as Hw. rewrite take_ge in Hw by done. lia. }
  pose proof (gr_within _ _ _ _ _ Hg (ba_within _ _ _ _ H1)) as Hw2.
  cbn [bind]. pose proof (ba_order _ _ _ _ H1) as Hord. unfold Bw.total_iters, kWarmup in Hord.
  destruct (Z.ltb_spec ne 0); [by split|].
  destruct (forallb _ _); [|by split]. apply IH.
  destruct H1 as [? ? ? ? Hst]. rewrite u64_small by lia.
  split; [rewrite (gr_posted _ _ _ _ _ Hg); lia|rewrite (gr_reaped _ _ _ _ _ Hg); lia|unfold Bw.total_iters, kWarmup; lia|exact Hw2|].
  intros Hk. eapply stamped_mono; [exact (gr_prefix _ _ _ _ _ Hg)|auto].
Qed.
End window.

(** C34. The bandwidth benchmark with any accepted command line, on an adapter
    that completes no more than was posted: never more than [depth] writes are in
    flight; when it reports, all of [kWarmup + iters] were posted and completed,
    the clock was started when exactly the warm-up had been posted and stopped
    after the last completion, and the bytes are those of [iters] writes. *)
Theorem bw_window_exact (fuel : nat) (argv : list string) (cfg : bench_config) (s : bench) :
  bench_config_parse argv bench_config_init = (0, cfg) →
  wp adapter (Bw.client fuel cfg s)
    (fun r tr => (∀ k, in_flight (take k tr) ≤ b_depth cfg) ∧ ∀ s', r = Some (true, s') →
       posted tr = kWarmup + b_iters cfg ∧ reaped tr = kWarmup + b_iters cfg ∧
       ∃ start fin, stamped kWarmup start tr ∧ stamped (kWarmup + b_iters cfg) fin tr ∧
         brep s' = Some (RepBandwidth (u64 (b_size cfg * b_iters cfg)) (time_elapsed_ns start fin))) [].
Proof.
  intros [[Hd _] Hi]%bench_accepted. assert (Hi' : 1 ≤ b_iters cfg < 2 ^ 32) by lia. unfold Bw.client.
  assert (H0 : bw_at cfg 0 0 0 []).
  { split; try done; [unfold Bw.total_iters, kWarmup; lia|by apply within_nil; lia]. }
  intros [] tr1 [-> _]. pose proof (bw_plain _ _ _ _ _ (c_store (Bw.doorbell cfg s) [0]) tt eq_refl H0) as H1.
  cbn [bind]. eapply wp_bind_2; [exact (bw_window cfg Hi' fuel 0 0 0 s _ H1)|].
  intros [[t|]|] tr2 [Hw Hend]; [|by split..]. specialize (Hend t eq_refl).
  intros fin tr3 [-> _]. cbn [bind wp skip]. pose proof (bw_plain _ _ _ _ _ c_clock fin eq_refl Hend) as H3.
  destruct (clock_grows (b_depth cfg) tr2 fin) as [_ Hfin].
  { rewrite (bw_flight _ _ _ _ _ Hend). lia. }
  split; [apply H3|]. intros s' [= <-]. destruct H3 as [Hp Hr _ _ Hst]. unfold Bw.total_iters in *.
  split; [done|]. split; [done|]. exists t, fin. split; [apply Hst; lia|]. split; [|done].
  by rewrite <- (ba_scnt _ _ _ _ _ Hend) in Hfin.
Qed.

(** An adapter that completes what is in flight, sixteen at a time, with a clock
    that counts the calls. *)
Definition demo_answers (o : op sys_sig) (tr : trace) : ans sys_sig o :=
  match o return sys_ans o with
  | v_poll_cq_batch _ n => (Z.min n (in_flight tr), replicate (Z.to_nat (in_flight tr)) (mkWc true 1))
  | v_poll_cq _ => (Z.b2z (0 <? in_flight tr), mkWc true 1)
  | c_clock => Z.of_nat (length tr) + 1
  | c_malloc _ => 64
  | o => default_ans o
  end.
Definition demo_run : handler sys_sig trace := fun o tr => (demo_answers o tr, tr ++ [Ev o (demo_answers o tr)]).
Lemma demo_run_adapter o tr : adapter o tr (demo_run o tr).1 (demo_run o tr).2.
Proof. split; [done|]. destruct o; try done. cbn. lia. Qed.
Definition demo_state : bench := mkBench demo_qp demo_mr 5 0 None.
Definition demo_argv : list string := ["bw"; "10.0.0.1"; "--iters"; "30"; "--depth"; "3"; "--size"; "64"]%string.
Definition demo_cfg : bench_config := (bench_config_parse demo_argv bench_config_init).2.
Example demo_bw :
  (run demo_run (Bw.client 40 demo_cfg demo_state) []).1
  = Some (true, set_brep (RepBandwidth 1920 43) demo_state).
Proof. vm_compute. reflexivity. Qed.
Lemma bw_window_exact_witness :
  in_flight (take 10 (run demo_run (Bw.client 40 demo_cfg demo_state) []).2) ≤ 3 ∧
  posted (run demo_run (Bw.client 40 demo_cfg demo_state) []).2 = 50.
Proof.
  pose proof (run_wp adapter demo_run _ _ _ demo_run_adapter
    (bw_window_exact 40 demo_argv demo_cfg demo_state ltac:(vm_compute; reflexivity))) as [H1 H2].
  split; [apply H1|]. by destruct (H2 _ demo_bw) as [? _].
Defined.

(** * The receive queue of the ping-pong *)

(** From any trace with room for [pk] more requests, the phase keeps within [d]
    and, when it goes on, has raised the number in flight by at most [e]. *)
Definition moves (d pk e : Z) (p : phase) : Prop := ∀ s tr, in_flight tr + pk ≤ d →
  wp any (p s) (fun r tr' => more d tr tr' ∧ ∀ s', r = Some (true, s') → in_flight tr' ≤ in_flight tr + e) tr.
Lemma moves_andthen d pk1 e1 pk2 e2 pk e p q :
  moves d pk1 e1 p → moves d pk2 e2 q → pk1 ≤ pk → e1 + pk2 ≤ pk → e1 + e2 ≤ e → moves d pk e (p ⨟ q).
Proof.
  intros Hp Hq H1 H2 He s tr Hd. eapply wp_bind_2; [apply Hp; lia|].
  intros [[[] s1]|] tr1 [Hm Hf]; [|by split..]. specialize (Hf s1 eq_refl).
  eapply wp_mono; [|apply Hq; lia]. intros r tr2 [Hm2 Hf2]. split; [by eapply more_trans|].
  intros s' Hr. specialize (Hf2 s' Hr). lia.
Qed.
Lemma moves_skip d : moves d 0 0 skip.
Proof. intros s tr Hd. split; [eapply grows_more, grows_refl|]. intros s' _. lia. Qed.
Lemma moves_post d k size id off : moves d 1 1 (try_post (fun q m => post k (Some q) (Some m) size id off)).
Proof.
  intros s tr Hd. eapply wp_bind_2; [apply (post_grows _ _ _ _ _ _ d); lia|].
  intros rc tr1 [[-> Hg]|[-> Hg]]; (split; [by eapply grows_more|]); intros s' Hs; [|done].
  pose proof (grows_flight _ _ _ _ _ Hg). lia.
Qed.
Lemma moves_poll d pf : moves d 0 (-1) (try_poll pf).
Proof.
  intros s tr Hd. unfold try_poll, rai_poll_cq. case_bool_decide.
  { split; [eapply grows_more, grows_refl|]. by intros s'. }
  eapply wp_bind_2; [apply (poll_loop_grows d); lia|]. intros [[rc o]|] tr1; cbn [wp go_if].
  - intros [[-> Hg]|[Hrc Hm]]; [split; [by eapply grows_more|]; intros s' _; pose proof (grows_flight _ _ _ _ _ Hg); lia|].
    rewrite bool_decide_eq_true_2 by done. by split.
  - intros [Hm _]. by split.
Qed.
Lemma moves_repeat d pk n i body : 0 ≤ pk → (∀ i, moves d pk 0 (body i)) → moves d pk 0 (repeat_phase n i body).
Proof.
  intros Hpk Hb. revert i. induction n as [|n IH]; intros i; cbn [repeat_phase].
  { intros s tr Hd. split; [eapply grows_more, grows_refl|]. intros s' _. lia. }
  by eapply moves_andthen; [apply Hb|apply IH|lia..].
Qed.
(** Posting [n] times. *)
Lemma moves_posts d n i body : (∀ i, moves d 1 1 (body i)) → moves d (Z.of_nat n) (Z.of_nat n) (repeat_phase n i body).
Proof.
  intros Hb. revert i. induction n as [|n IH]; intros i; [apply moves_skip|].
  by eapply moves_andthen; [apply Hb|apply IH|lia..].
Qed.

Section pingpong.
Context (pf : nat) (cfg : bench_config).
Abbreviation depth := (b_depth cfg).
Abbreviation total_iters := (LatSR.total_iters cfg).
Abbreviation prepost := (LatSR.prepost cfg).

Lemma moves_recv d : moves d 1 1 (LatSR.recv_one cfg).
Proof. apply (moves_post d PRecv). Qed.
Lemma moves_send d : moves d 1 1 (LatSR.send_one cfg).
Proof. apply (moves_post d PSend). Qed.
Lemma moves_repost d i : moves d 1 1 (LatSR.repost cfg i).
Proof.
  unfold LatSR.repost. destruct (_ <? _); [apply moves_recv|]. intros s tr Hd.
  split; [eapply grows_more, grows_refl|]. intros s' _. lia.
Qed.
Lemma moves_prepost d : moves d (Z.max 0 prepost) (Z.max 0 prepost) (LatSR.prepost_all cfg).
Proof.
  unfold LatSR.prepost_all. rewrite <- (Z2Nat.id (Z.max 0 prepost)) by lia.
  replace (Z.to_nat (Z.max 0 prepost)) with (Z.to_nat prepost) by lia. apply moves_posts. intros i. apply moves_recv.
Qed.
Lemma moves_server d : moves d 1 0 (LatSR.server pf cfg).
Proof.
  apply moves_repeat; [lia|]. intros i.
  apply (moves_andthen d 0 (-1) 2 1); [apply moves_poll| |lia..].
  apply (moves_andthen d 1 1 1 0); [apply moves_repost| |lia..].
  by apply (moves_andthen d 1 1 0 (-1)); [apply moves_send|apply moves_poll|lia..].
Qed.
(** One round trip of the client, and all of them. *)
Definition samples_move (d e : Z) (tr : trace) (r : option (bool * bench * list Z)) (tr' : trace) : Prop :=
  more d tr tr' ∧ ∀ s' lat, r = Some (true, s', lat) → in_flight tr' ≤ in_flight tr + e.
Lemma client_iter_moves d i lat s tr : in_flight tr + 2 ≤ d →
  wp any (LatSR.client_iter pf cfg i lat s) (samples_move d 0 tr) tr.
Proof.
  intros Hd. unfold LatSR.client_iter. eapply wp_bind_2; [apply (moves_repost d); lia|].
  intros [[[] s1]|] tr1 [H1 Hf1]; [|by split..]. specialize (Hf1 s1 eq_refl).
  intros t tr2 ->. destruct (clock_grows d tr1 t ltac:(lia)) as [Hc _]. pose proof (grows_flight _ _ _ _ _ Hc) as Hfc.
  pose proof (more_trans _ _ _ _ H1 (grows_more _ _ _ _ _ Hc)) as H2.
  assert (Hrt : moves d 1 (-1) (LatSR.send_one cfg ⨟ try_poll pf ⨟ try_poll pf)).
  { apply (moves_andthen d 1 1 0 (-2)); [apply moves_send| |lia..].
    by apply (moves_andthen d 0 (-1) 0 (-1)); [apply moves_poll..|lia|lia|lia]. }
  unfold clock_ev in *. cbn [bind]. eapply wp_bind_2; [apply Hrt; lia|]. intros [[[] s3]|] tr3 [H3 Hf3].
  - specialize (Hf3 s3 eq_refl). pose proof (more_trans _ _ _ _ H2 H3) as H4. destruct (kWarmup <=? i).
    + intros t' tr4 ->. destruct (clock_grows d tr3 t' ltac:(lia)) as [Hc' _]. pose proof (grows_flight _ _ _ _ _ Hc').
      split; [eapply more_trans; [exact H4|by eapply grows_more]|]. intros ? ? _. unfold clock_ev in *. lia.
    + split; [done|]. intros ? ? _. lia.
  - split; [by eapply more_trans|done].
  - split; [by eapply more_trans|done].
Qed.
Lemma client_loop_moves d n i lat s tr : in_flight tr + 2 ≤ d →
  wp any (LatSR.client_loop pf cfg n i lat s) (samples_move d 0 tr) tr.
Proof.
  revert i lat s tr. induction n as [|n IH]; intros i lat s tr Hd; cbn [LatSR.client_loop].
  { split; [eapply grows_more, grows_refl|]. intros ? ? _. lia. }
  eapply wp_bind_2; [by apply client_iter_moves|]. intros [[[[] s1] lat1]|] tr1 [H1 Hf1]; [|by split..].
  specialize (Hf1 s1 lat1 eq_refl). eapply wp_mono; [|apply IH; lia]. intros r tr2 [H2 Hf2].
  split; [by eapply more_trans|]. intros s' lat' Hr. specialize (Hf2 s' lat' Hr). lia.
Qed.
Lemma moves_client d s tr : in_flight tr + Z.max 0 prepost + 2 ≤ d →
  wp any (LatSR.client pf cfg s) (fun _ tr' => more d tr tr') tr.
Proof.
  intros Hd. eapply wp_bind_2.
  { unfold do_malloc. intros p tr1 ->. cbn [bind wp].
    pose proof (plain_grows d (c_malloc (u64 (b_iters cfg * 8))) p tr eq_refl ltac:(lia)) as Hg.
    instantiate (1 := fun r tr1 => more d tr tr1 ∧ in_flight tr1 = in_flight tr).
    split; [by eapply grows_more|]. rewrite (grows_flight _ _ _ _ _ Hg). lia. }
  intros [[[] s1]|] tr1 [H1 Hf1]; [|done..].
  eapply wp_bind_2; [apply (moves_prepost d); lia|]. intros [[[] s2]|] tr2 [H2 Hf2]; [|by eapply more_trans..].
  specialize (Hf2 s2 eq_refl). pose proof (more_trans _ _ _ _ H1 H2) as H12.
  eapply wp_bind_2; [apply (client_loop_moves d); lia|]. intros [[[[] s3] lat]|] tr3 [H3 _]; by eapply more_trans.
Qed.

(** The receives posted before any completion was taken. *)
Definition is_recv (e : event sys_sig) : Z :=
  match e with Ev o x => match o return sys_ans o → Z with
    | v_post_recv _ _ => fun rc => Z.b2z (bool_decide (rc = 0)) | _ => fun _ => 0 end x end.
Definition unreaped_recvs (n : Z) (tr : trace) : Prop := total is_recv tr = n ∧ reaped tr = 0.
Lemma recv_one_counts n s tr : unreaped_recvs n tr →
  wp any (LatSR.recv_one cfg s) (fun r tr' => ∀ s', r = Some (true, s') → unreaped_recvs (n + 1) tr') tr.
Proof.
  intros [Hn Hr]. unfold LatSR.recv_one, try_post, rai_post_recv.
  destruct (prepare_sge _ _ _ _); [|by intros s']. cbn [bind sys call]. intros rc tr1 ->.
  destruct (decide (rc = 0)) as [Hrc|Hrc]; [|by rewrite bool_decide_eq_true_2].
  rewrite bool_decide_eq_false_2 by (by intros Hne). intros s' _. split.
  - rewrite total_snoc. cbn. rewrite bool_decide_eq_true_2 by done. cbn. lia.
  - unfold reaped. rewrite total_snoc. cbn. unfold reaped in Hr. lia.
Qed.
Lemma prepost_counts m i n s tr : unreaped_recvs n tr →
  wp any (repeat_phase m i (fun _ => LatSR.recv_one cfg) s)
    (fun r tr' => ∀ s', r = Some (true, s') → unreaped_recvs (n + Z.of_nat m) tr') tr.
Proof.
  revert i n s tr. induction m as [|m IH]; intros i n s tr Hn; cbn [repeat_phase].
  { intros s' _. by rewrite Z.add_0_r. }
  eapply wp_bind_2; [by apply recv_one_counts|]. intros [[[] s1]|] tr1 H1; [|by intros s'..].
  specialize (H1 s1 eq_refl). eapply wp_mono; [|by apply IH]. intros r tr2 H2 s' Hr.
  specialize (H2 s' Hr). by replace (n + Z.of_nat (S m)) with (n + 1 + Z.of_nat m) by lia.
Qed.
Lemma client_counts s : 1 ≤ depth → depth < total_iters →
  wp any (LatSR.client pf cfg s) (fun r tr' => ∀ s', r = Some (true, s') → ∃ k, unreaped_recvs (depth + 1) (take k tr')) [].
Proof.
  intros Hd Ht. assert (Hpre : prepost = depth) by (unfold LatSR.prepost; by rewrite (proj2 (Z.ltb_lt _ _)) by lia).
  eapply (wp_bind_2 _ _ _ (fun _ tr1 => unreaped_recvs 0 tr1)); [by intros p tr1 ->|].
  intros [[[] s1]|] tr1 H1; [|by intros s'..].
  eapply wp_bind_2; [apply (prepost_counts _ _ 0), H1|]. intros [[[] s2]|] tr2 H2; [|by intros s'..].
  specialize (H2 s2 eq_refl). rewrite Hpre, Z2Nat.id, Z.add_0_l in H2 by lia.
  destruct (Z.to_nat total_iters) as [|n] eqn:Hn; [unfold LatSR.total_iters, kWarmup in *; lia|].
  cbn [LatSR.client_loop]. unfold LatSR.client_iter at 1. apply wp_bind, wp_bind, wp_bind.
  unfold LatSR.repost at 1. rewrite Hpre, (proj2 (Z.ltb_lt (0 + depth) _)) by lia.
  eapply wp_mono; [|by apply recv_one_counts]. intros r tr3 H3.
  destruct r as [[[] s3]|]; [|by cbn; intros s'..]. specialize (H3 s3 eq_refl).
  eapply wp_mono; [|apply any_prefix]. intros a tr4 H4. eapply wp_mono; [|apply any_prefix]. intros a' tr5 H5.
  eapply wp_mono; [|apply any_prefix]. intros r tr6 H6 s4 _. exists (length tr3).
  assert (Hpre3 : tr3 `prefix_of` tr6) by (exact (transitivity H4 (transitivity H5 H6))). destruct Hpre3 as [rest ->]. by rewrite take_app_length.
Qed.
End pingpong.

(** C35. The send/receive ping-pong.  With the pre-posted receives in flight the
    server never has more than [depth + 1] requests outstanding, and the client
    never more than [depth + 2]; neither depends on the order in which the
    completions of sends and of receives come off their common queue.  But the
    client posts [depth + 1] receives before the first completion, one more than
    the queue depth asked for: at the greatest depth the command line allows,
    [RAI_QP_MAX_WR - 1], that is every entry of the receive queue. *)
Theorem latsr_windows (pf : nat) (argv : list string) (cfg : bench_config) (s : bench) (tr : trace) :
  bench_config_parse argv bench_config_init = (0, cfg) →
  (in_flight tr ≤ LatSR.prepost cfg → within (b_depth cfg + 1) tr →
     wp any (LatSR.server pf cfg s) (fun _ tr' => ∀ k, in_flight (take k tr') ≤ b_depth cfg + 1) tr) ∧
  wp any (LatSR.client pf cfg s) (fun _ tr' => ∀ k, in_flight (take k tr') ≤ b_depth cfg + 2) [] ∧
  (b_depth cfg < LatSR.total_iters cfg →
     wp any (LatSR.client pf cfg s)
       (fun r tr' => ∀ s', r = Some (true, s') → ∃ k, unreaped_recvs (b_depth cfg + 1) (take k tr')) []).
Proof.
  intros [Hd Hi]%bench_accepted. assert (Hp : LatSR.prepost cfg ≤ b_depth cfg ∧ 0 ≤ LatSR.prepost cfg).
  { unfold LatSR.prepost, LatSR.total_iters, kWarmup. destruct (Z.ltb_spec (b_depth cfg) (20 + b_iters cfg)); lia. }
  split_and!.
  - intros Hf Hw. eapply wp_mono; [|apply (moves_server pf cfg (b_depth cfg + 1)); lia].
    intros r tr' [(n & m & Hg) _]. by apply Hg.
  - eapply wp_mono; [|apply (moves_client pf cfg (b_depth cfg + 2)); change (in_flight []) with 0; lia].
    intros r tr' (n & m & Hg). apply Hg, within_nil. lia.
  - intros Ht. apply client_counts; lia.
Qed.
Definition demo_sr_cfg : bench_config := (bench_config_parse ["lat"; "10.0.0.1"; "--depth"; "127"]%string bench_config_init).2.
Definition demo_sr : option (bool * bench) * trace := run demo_run (LatSR.client 4 demo_sr_cfg demo_state) [].
#[local] Strategy expand [demo_sr].
Lemma demo_sr_eq : run demo_run (LatSR.client 4 demo_sr_cfg demo_state) [] = demo_sr.
Proof. reflexivity. Qed.
Lemma demo_sr_ok : ∃ s', demo_sr.1 = Some (true, s').
Proof. vm_compute. eexists. reflexivity. Qed.
Lemma demo_sr_depth : b_depth demo_sr_cfg + 1 = RAI_QP_MAX_WR ∧ b_depth demo_sr_cfg < LatSR.total_iters demo_sr_cfg.
Proof. split; vm_compute; reflexivity. Qed.
Lemma latsr_windows_witness : ∃ k, unreaped_recvs RAI_QP_MAX_WR (take k demo_sr.2).
Proof.
  destruct demo_sr_depth as [Hd Hlt].
  destruct (latsr_windows 4 ["lat"; "10.0.0.1"; "--depth"; "127"]%string demo_sr_cfg demo_state [] ltac:(vm_compute; reflexivity))
    as (_ & _ & H). specialize (H Hlt). apply (run_wp any demo_run) in H; [|done].
  rewrite demo_sr_eq, Hd in H. destruct demo_sr_ok as [s' Hr]. apply (H s' Hr).
Defined.
