(* ===== verification/Transport.v ===== *)
(** Phase 2, [transport.hpp]: buffer handles, the interface every backend
    implements, and the scoped registration. *)
From stdpp Require Import strings.
From S2P Require Import Prelude Prog Sys.

(** A transport-registered buffer: the caller's memory, its size in bytes and
    the backend's private pointer (0 is nullptr). *)
Record BufferHandle := mkBufferHandle { addr : Z; size : Z; priv : Z }.
Definition handle0 : BufferHandle := mkBufferHandle 0 0 0.

(** The virtual methods.  A method takes the object's state and returns the new
    one when it may change it; a pointer parameter is an option, None for
    nullptr, and a pointer the method stores through is also returned.  [poll]
    has the fuel of [rai_poll_cq]. *)
Class Transport (T : Type) := {
  reg_buf : T → Z → Z → option BufferHandle → sysM (Z * option BufferHandle * T);
  dereg_buf : T → option BufferHandle → sysM (option BufferHandle * T);
  t_send_async : T → option BufferHandle → Z → Z → Z → sysM Z;
  t_recv_async : T → option BufferHandle → Z → Z → Z → sysM Z;
  t_recv_blocks : T → bool;
  t_write_async : T → option BufferHandle → Z → Z → Z → Z → Z → sysM Z;
  t_read_async : T → option BufferHandle → Z → Z → Z → Z → Z → sysM Z;
  exchange_buf : T → option BufferHandle → option Z → option Z → sysM (Z * option Z * option Z * T);
  t_poll : nat → T → bool → sysM (option (Z * option Z));
  t_connect : T → option string → Z → sysM (Z * T);
  t_listen : T → Z → sysM (Z * T);
  t_accept : T → sysM (Z * T);
  t_close : T → sysM T;
}.

(** [ScopedBuffer]: whether [init] ran, and the handle its destructor gives
    back.  [init] registers on the transport it is given; the destructor
    deregisters even when the registration failed. *)
Record ScopedBuffer := mkScopedBuffer { sb_init : bool; sb_h : BufferHandle }.
Definition scoped0 : ScopedBuffer := mkScopedBuffer false handle0.
Definition scoped_init {T} `{Transport T} (t : T) (s : ScopedBuffer) (buf sz : Z) : sysM (Z * ScopedBuffer * T) :=
  let! (rc, h, t) := reg_buf t buf sz (Some (sb_h s)) in
  Ret (rc, mkScopedBuffer true (default (sb_h s) h), t).
Definition scoped_end {T} `{Transport T} (t : T) (s : ScopedBuffer) : sysM T :=
  if sb_init s then let! (_, t) := dereg_buf t (Some (sb_h s)) in Ret t else Ret t.
