(* ===== verification/TransportSpec.v ===== *)
(** What every backend promises of the resources behind it, as laws over the
    interface; clients are verified against the laws, not against a backend. *)
From stdpp Require Import strings.
From S2P Require Import Prelude Prog Sys OobSpec RdmaRes Transport.

(** The life of a transport.  An object is [Idle] before it is connected and
    after it is closed. *)
Inductive phase := Idle | Listening | Connected.

(** A receive that does not block may be posted before the peer is there. *)
Definition may_recv (blocks : bool) (ph : phase) : Prop := ph = Connected ∨ ph = Listening ∧ blocks = false.

(** The resources [l] refer only to each other, to a device context and to the
    memory of the registered buffers. *)
Definition self_contained (hs : list BufferHandle) (l : ledger) : Prop :=
  Forall (fun r => (r_key r).1 ≠ RCtx ∧ (r_key r).1 ≠ RMem ∧
    Forall (fun k => k ∈ r_key <$> l ∨ k.1 = RCtx ∨ k ∈ (fun h => (RMem, addr h)) <$> hs) (r_parents r)) l.

(** [t_owns ph t hs l]: in phase [ph], with the buffers [hs] registered, the
    object [t] owns exactly the resources [l]. *)
Definition holds_by {T} (owns : phase → T → list BufferHandle → ledger → Prop)
    (ph : phase) (t : T) (hs : list BufferHandle) (L0 L : ledger) : Prop :=
  ∃ l, owns ph t hs l ∧ own l L0 L.

Class TransportLaws (T : Type) `{!Transport T} := {
  t_owns : phase → T → list BufferHandle → ledger → Prop;
  law_closed ph t hs l : t_owns ph t hs l → self_contained hs l;
  law_clean ph t hs l : t_owns ph t hs l → Forall (fun r => (r_key r).1 ≠ RMisuse) l;
  law_connect t host port L0 L : holds_by t_owns Idle t [] L0 L →
    wp ledger_env (t_connect t host port) (fun '(rc, t') L' =>
      rc = 0 ∧ holds_by t_owns Connected t' [] L0 L' ∨ rc = -1 ∧ holds_by t_owns Idle t' [] L0 L') L;
  law_listen t port L0 L : holds_by t_owns Idle t [] L0 L →
    wp ledger_env (t_listen t port) (fun '(rc, t') L' =>
      rc = 0 ∧ holds_by t_owns Listening t' [] L0 L' ∨ rc = -1 ∧ holds_by t_owns Idle t' [] L0 L') L;
  law_accept t hs L0 L : holds_by t_owns Listening t hs L0 L →
    wp ledger_env (t_accept t) (fun '(rc, t') L' =>
      rc = 0 ∧ holds_by t_owns Connected t' hs L0 L' ∨ rc = -1 ∧ holds_by t_owns Listening t' hs L0 L') L;
  law_reg ph t hs buf sz h L0 L : ph ≠ Idle → holds_by t_owns ph t hs L0 L →
    wp ledger_env (reg_buf t buf sz (Some h)) (fun '(rc, h', t') L' =>
      (rc = 0 ∧ ∃ n, h' = Some n ∧ addr n = buf ∧ size n = sz ∧ holds_by t_owns ph t' (n :: hs) L0 L') ∨
      (rc = -1 ∧ h' = Some h ∧ holds_by t_owns ph t' hs L0 L')) L;
  law_dereg ph t hs h hs' L0 L : ph ≠ Idle → holds_by t_owns ph t hs L0 L → hs ≡ₚ h :: hs' →
    wp ledger_env (dereg_buf t (Some h)) (fun '(h', t') L' =>
      h' = Some handle0 ∧ holds_by t_owns ph t' hs' L0 L') L;
  law_dereg_null ph t hs h L0 L : ph ≠ Idle → holds_by t_owns ph t hs L0 L → priv h = 0 →
    wp ledger_env (dereg_buf t (Some h)) (fun '(h', t') L' =>
      h' = Some handle0 ∧ holds_by t_owns ph t' hs L0 L') L;
  law_blocks t t' : t_recv_blocks t = t_recv_blocks t';
  law_send t hs h len id off L0 L : holds_by t_owns Connected t hs L0 L →
    wp ledger_env (t_send_async t h len id off) (fun _ L' => holds_by t_owns Connected t hs L0 L') L;
  law_recv ph t hs h len id off L0 L : may_recv (t_recv_blocks t) ph → holds_by t_owns ph t hs L0 L →
    wp ledger_env (t_recv_async t h len id off) (fun _ L' => holds_by t_owns ph t hs L0 L') L;
  law_write t hs h ra rk len id off L0 L : holds_by t_owns Connected t hs L0 L →
    wp ledger_env (t_write_async t h ra rk len id off) (fun _ L' => holds_by t_owns Connected t hs L0 L') L;
  law_read t hs h ra rk len id off L0 L : holds_by t_owns Connected t hs L0 L →
    wp ledger_env (t_read_async t h ra rk len id off) (fun _ L' => holds_by t_owns Connected t hs L0 L') L;
  law_poll fuel t hs b L0 L : holds_by t_owns Connected t hs L0 L →
    wp ledger_env (t_poll fuel t b) (fun _ L' => holds_by t_owns Connected t hs L0 L') L;
  law_exchange t hs h ra rk L0 L : holds_by t_owns Connected t hs L0 L →
    wp ledger_env (exchange_buf t h ra rk) (fun '(_, _, _, t') L' => holds_by t_owns Connected t' hs L0 L') L;
  law_close ph t L0 L : holds_by t_owns ph t [] L0 L →
    wp ledger_env (t_close t) (fun t' L' => L' ≡ₚ L0 ∧ holds_by t_owns Idle t' [] L0 L') L;
}.

Section client.
Context {T} `{TransportLaws T}.
Abbreviation holds := (holds_by t_owns).

(** * The scoped buffer *)

(** A scope: [init], the body if it worked, and the destructor on every way out. *)
Definition scoped (t : T) (buf sz : Z) (body : T → BufferHandle → sysM (Z * T)) : sysM (Z * T) :=
  let! (rc, s, t) := scoped_init t scoped0 buf sz in
  let! (r, t) := if bool_decide (rc ≠ 0) then Ret (rc, t) else body t (sb_h s) in
  t <- scoped_end t s ;;
  Ret (r, t).

Lemma scoped_init_holds ph t hs buf sz L0 L :
  ph ≠ Idle → holds ph t hs L0 L →
  wp ledger_env (scoped_init t scoped0 buf sz) (fun '(rc, s, t') L' =>
    sb_init s = true ∧
    ((rc = 0 ∧ addr (sb_h s) = buf ∧ size (sb_h s) = sz ∧ holds ph t' (sb_h s :: hs) L0 L') ∨
     (rc = -1 ∧ sb_h s = handle0 ∧ holds ph t' hs L0 L'))) L.
Proof.
  intros Hph Ht. unfold scoped_init. eapply wp_bind_2; [by apply law_reg|].
  intros [[rc h] t'] L1 [(-> & n & -> & Ha & Hs & Ho)|(-> & -> & Ho)]; cbn; auto 10.
Qed.
Lemma scoped_end_holds ph t hs s L0 L :
  ph ≠ Idle → sb_init s = true → holds ph t (sb_h s :: hs) L0 L →
  wp ledger_env (scoped_end t s) (fun t' L' => holds ph t' hs L0 L') L.
Proof.
  intros Hph Hi Ht. unfold scoped_end. rewrite Hi. eapply wp_bind_2; [by eapply law_dereg|].
  by intros [h t'] L' [_ Ho].
Qed.
Lemma scoped_end_null ph t hs s L0 L :
  ph ≠ Idle → sb_init s = true → sb_h s = handle0 → holds ph t hs L0 L →
  wp ledger_env (scoped_end t s) (fun t' L' => holds ph t' hs L0 L') L.
Proof.
  intros Hph Hi Hs Ht. unfold scoped_end. rewrite Hi, Hs. eapply wp_bind_2; [by apply law_dereg_null|].
  by intros [h t'] L' [_ Ho].
Qed.
End client.
