(* ===== verification/TwoTransports.v ===== *)
(** Two transports side by side, and memory next to them: each keeps its laws
    over the rest, because the resources of one do not refer to the other's. *)
From stdpp Require Import strings.
From S2P Require Import Prelude Prog Sys OobSpec RdmaRes Transport TransportSpec.

Section two.
Context {C D : Type} `{TransportLaws C} `{TransportLaws D}.
Abbreviation cholds := (holds_by (T := C) t_owns).
Abbreviation dholds := (holds_by (T := D) t_owns).

(** Memory the program holds: it refers to nothing. *)
Definition mem_only (ex : ledger) : Prop := Forall (fun r => r_parents r = []) ex.
(** [ctrl] and [data] in their phases, with the buffers [hc] and [hd] registered,
    and the memory [ex]. *)
Definition two (pc : phase) (ctrl : C) (hc : list BufferHandle) (pd : phase) (data : D) (hd : list BufferHandle)
    (ex L0 L : ledger) : Prop :=
  mem_only ex ∧ ∃ lc ld, t_owns pc ctrl hc lc ∧ t_owns pd data hd ld ∧ own (ld ++ ex ++ lc) L0 L.

Lemma mem_only_unreferred k ex : mem_only ex → unreferred k ex.
Proof. intros Hex. eapply Forall_impl; [exact Hex|]. cbn. intros r ->. apply not_elem_of_nil. Qed.
(** Disjoint self-contained parts do not refer to each other. *)
Lemma closed_unreferred hs hs' (l l' : ledger) :
  self_contained hs l → self_contained hs' l' → (∀ k, k ∈ r_key <$> l → k ∉ r_key <$> l') →
  Forall (fun r => unreferred (r_key r) l') l.
Proof.
  intros Hl Hl' Hdis. apply Forall_forall. intros r Hr. apply Forall_forall. intros r' Hr' Hin.
  unfold self_contained in *. rewrite Forall_forall in Hl, Hl'. destruct (Hl r Hr) as (Hk1 & Hk2 & _).
  destruct (Hl' r' Hr') as (_ & _ & Hp). rewrite Forall_forall in Hp.
  destruct (Hp _ Hin) as [Hk|[Hk|Hk]]; [|done|].
  - apply (Hdis (r_key r)); [by apply list_elem_of_fmap_2|done].
  - apply list_elem_of_fmap in Hk as (h & Hk & _). apply Hk2. by rewrite Hk.
Qed.
Lemma own_disjoint l1 l2 L0 L k : own (l1 ++ l2) L0 L → k ∈ r_key <$> l1 → k ∉ r_key <$> l2.
Proof.
  intros (_ & Hnd & _) Hk. rewrite fmap_app in Hnd. apply NoDup_app in Hnd as (_ & Hdis & _). by apply Hdis.
Qed.

Lemma two_split hs hs' l1 ex l2 L0 L :
  mem_only ex → self_contained hs l1 → self_contained hs' l2 → own (l1 ++ ex ++ l2) L0 L → own l1 ((ex ++ l2) ++ L0) L.
Proof.
  intros Hex H1 H2 Ho. apply (own_split _ _ _ _ Ho).
  assert (Hun : Forall (fun r => unreferred (r_key r) l2) l1).
  { apply (closed_unreferred hs hs'); [done..|]. intros k Hk Hk'. apply (own_disjoint _ _ _ _ k Ho Hk).
    rewrite fmap_app, elem_of_app. by right. }
  eapply Forall_impl; [exact Hun|]. cbn. intros r Hr. apply unreferred_app. split; [by apply mem_only_unreferred|done].
Qed.

Section ops.
Context (pc : phase) (ctrl : C) (hc : list BufferHandle) (pd : phase) (data : D) (hd : list BufferHandle)
  (ex L0 L : ledger).

Lemma two_data {A} (op : sysM A) (Φ : A → ledger → ledger → Prop) :
  two pc ctrl hc pd data hd ex L0 L →
  (∀ L1, dholds pd data hd L1 L → wp ledger_env op (fun a L' => Φ a L1 L') L) →
  wp ledger_env op (fun a L' => ∃ L1, Φ a L1 L' ∧
    ∀ pd' data' hd', dholds pd' data' hd' L1 L' → two pc ctrl hc pd' data' hd' ex L0 L') L.
Proof.
  intros (Hex & lc & ld & Hc & Hd & Ho) Hop.
  pose proof (two_split hd hc ld ex lc L0 L Hex (law_closed _ _ _ _ Hd) (law_closed _ _ _ _ Hc) Ho) as Hs.
  eapply wp_mono; [|apply (Hop ((ex ++ lc) ++ L0)); by exists ld].
  intros a L' HΦ. exists ((ex ++ lc) ++ L0). split; [done|]. intros pd' data' hd' (ld' & Hd' & Ho').
  split; [done|]. exists lc, ld'. split; [done|]. split; [done|]. by eapply own_frame.
Qed.
Lemma two_ctrl {A} (op : sysM A) (Φ : A → ledger → ledger → Prop) :
  two pc ctrl hc pd data hd ex L0 L →
  (∀ L1, cholds pc ctrl hc L1 L → wp ledger_env op (fun a L' => Φ a L1 L') L) →
  wp ledger_env op (fun a L' => ∃ L1, Φ a L1 L' ∧
    ∀ pc' ctrl' hc', cholds pc' ctrl' hc' L1 L' → two pc' ctrl' hc' pd data hd ex L0 L') L.
Proof.
  intros (Hex & lc & ld & Hc & Hd & Ho) Hop.
  assert (Hperm : ∀ l, ld ++ ex ++ l ≡ₚ l ++ ex ++ ld) by (intros l; solve_Permutation). rewrite Hperm in Ho.
  pose proof (two_split hc hd lc ex ld L0 L Hex (law_closed _ _ _ _ Hc) (law_closed _ _ _ _ Hd) Ho) as Hs.
  eapply wp_mono; [|apply (Hop ((ex ++ ld) ++ L0)); by exists lc].
  intros a L' HΦ. exists ((ex ++ ld) ++ L0). split; [done|]. intros pc' ctrl' hc' (lc' & Hc' & Ho').
  split; [done|]. exists lc', ld. split; [done|]. split; [done|]. rewrite Hperm. by eapply own_frame.
Qed.
End ops.

(** Calls that touch neither transport. *)
Lemma two_neutral {A} (o : sys_op) (k : sys_ans o → sysM A) Q pc ctrl hc pd data hd ex L0 L :
  two pc ctrl hc pd data hd ex L0 L → used o = [] → (∀ x, created o x = []) → released o L = None →
  (∀ x, wp ledger_env (k x) Q L) → wp ledger_env (bind (sys o) k) Q L.
Proof. intros _ Hu Hc Hr Hk. apply wp_step, wp_neutral; [by rewrite Hu|done|done|]. intros x _. apply Hk. Qed.
(** New memory, and giving it back once no buffer of [data] is registered. *)
Lemma two_alloc r pc ctrl hc pd data hd ex L0 L L' :
  two pc ctrl hc pd data hd ex L0 L → r_parents r = [] → own [r] L L' →
  two pc ctrl hc pd data hd (r :: ex) L0 L'.
Proof.
  intros (Hex & lc & ld & Hc & Hd & Ho) Hr Hown. split; [by apply Forall_cons|]. exists lc, ld. split; [done|].
  split; [done|]. eapply own_proper; [|reflexivity|reflexivity|exact (own_trans _ _ _ _ _ Hown Ho)]. solve_Permutation.
Qed.

(** A registered buffer lies in memory that is there without the last block. *)
Definition elsewhere (ex L0 : ledger) (h : BufferHandle) : Prop := addr h = 0 ∨ live (ex ++ L0) (RMem, addr h).
Lemma closed_elsewhere hs l p ex L0 :
  self_contained hs l → p ≠ 0 → Forall (elsewhere ex L0) hs → ¬ live (ex ++ L0) (RMem, p) → unreferred (RMem, p) l.
Proof.
  intros Hl Hp Hhs Hnl. unfold self_contained in Hl. rewrite Forall_forall in Hl. rewrite (Forall_forall (elsewhere ex L0)) in Hhs. apply Forall_forall.
  intros r Hr Hin. destruct (Hl r Hr) as (_ & _ & Hpar). rewrite Forall_forall in Hpar.
  destruct (Hpar _ Hin) as [Hk|[Hk|Hk]]; [|done|].
  - apply list_elem_of_fmap in Hk as (r' & Hk & Hr'). destruct (Hl r' Hr') as (_ & Hm & _). by rewrite <- Hk in Hm.
  - apply list_elem_of_fmap in Hk as (h & [= ->] & Hh). by destruct (Hhs h Hh).
Qed.
(** The last block freed, while buffers in other memory are registered. *)
Lemma two_free p o pc ctrl hc pd data hd ex L0 L :
  two pc ctrl hc pd data hd (mkRes (RMem, p) [] :: ex) L0 L → p ≠ 0 → Forall (elsewhere ex L0) (hc ++ hd) →
  used o = [] → (∀ x, created o x = []) → released o L = Some (RMem, p) →
  wp ledger_env (sys o) (fun _ L' => two pc ctrl hc pd data hd ex L0 L') L.
Proof.
  intros (Hex & lc & ld & Hc & Hd & Ho) Hp [Hhc Hhd]%Forall_app Hu Hcr Hr. apply Forall_cons in Hex as [_ Hex].
  assert (Ho' : own (mkRes (RMem, p) [] :: ld ++ ex ++ lc) L0 L).
  { eapply own_proper; [|reflexivity|reflexivity|exact Ho]. cbn. solve_Permutation. }
  assert (Hnl : ¬ live (ex ++ L0) (RMem, p)).
  { unfold live. rewrite fmap_app, elem_of_app. destruct Ho' as (_ & Hnd & Hf). apply Forall_cons in Hf as [Hf _].
    rewrite !fmap_cons, !fmap_app in Hnd. apply NoDup_cons in Hnd as [Hnd _]. rewrite !elem_of_app in Hnd.
    intros [Hl|Hl]; [tauto|]. apply list_elem_of_fmap in Hl as (r & Hk & Hl). unfold fresh in Hf.
    rewrite Forall_forall in Hf. by destruct (Hf r Hl). }
  eapply (wp_release _ _ _ _ (mkRes (RMem, p) [])); [exact Ho'| |done..|].
  - apply Forall_cons. split; [apply not_elem_of_nil|]. rewrite !Forall_app. split; [|split].
    + exact (closed_elsewhere _ _ _ _ _ (law_closed _ _ _ _ Hd) Hp Hhd Hnl).
    + by apply mem_only_unreferred.
    + exact (closed_elsewhere _ _ _ _ _ (law_closed _ _ _ _ Hc) Hp Hhc Hnl).
  - intros x L' _ _ Hown. split; [done|]. by exists lc, ld.
Qed.

(** * Leaving *)

Lemma close_ctrl ph ctrl L0 L :
  cholds ph ctrl [] L0 L → wp ledger_env (t_close ctrl) (fun _ L' => L' ≡ₚ L0) L.
Proof. intros Hc. eapply wp_mono; [|by eapply law_close]. by intros ? L' [? _]. Qed.
(** [data] closed, [ctrl] is alone over the memory. *)
Lemma close_data pc ctrl hc pd data ex L0 L :
  two pc ctrl hc pd data [] ex L0 L →
  wp ledger_env (t_close data) (fun _ L' => cholds pc ctrl hc (ex ++ L0) L') L.
Proof.
  intros (Hex & lc & ld & Hc & Hd & Ho).
  pose proof (two_split [] hc ld ex lc L0 L Hex (law_closed _ _ _ _ Hd) (law_closed _ _ _ _ Hc) Ho) as Hs.
  eapply wp_mono; [|eapply law_close; by exists ld]. intros data' L' [Hown%own_nil _]. exists lc. split; [done|].
  apply (own_frame ld [] (ex ++ lc) L0 L L' Ho) in Hown as Hlc; cbn [app] in Hlc. rewrite (Permutation_app_comm ex) in Hlc.
  apply (own_split _ _ _ _ Hlc). apply Forall_forall. intros r _. by apply mem_only_unreferred.
Qed.
End two.
