(* ===== verification/TcpBackend.v ===== *)
(** Phase 2, [tcp_backend.cpp]: the transport over a TCP socket. *)
From stdpp Require Import strings.
From S2P Require Import Prelude Prog Sys Oob Transport.

Module Tcp.

Record TcpTransport := mkTcp { fd_ : Z; listen_fd_ : Z; is_server_ : bool }.
Definition create : TcpTransport := mkTcp (-1) (-1) false.

(** The two loops are the same code as those of the side channel. *)
Definition send_all (fd : Z) (buf : buffer) (len : Z) : sysM Z := Oob.send_all fd buf len.
Definition recv_all (fd : Z) (buf : buffer) (len : Z) : sysM (Z * list Z) := Oob.recv_all fd buf len.

Definition set_nodelay (fd : Z) : sysM unit := sys (c_setsockopt fd TCP_NODELAY) ;; Ret tt.

Definition reg_buf (t : TcpTransport) (buf sz : Z) (out : option BufferHandle)
    : sysM (Z * option BufferHandle * TcpTransport) :=
  match out with
  | None => Ret (-1, None, t)
  | Some h => if bool_decide (buf = 0 ∨ sz = 0) then Ret (-1, Some h, t)
              else Ret (0, Some (mkBufferHandle buf sz 0), t)
  end.
Definition dereg_buf (t : TcpTransport) (h : option BufferHandle) : sysM (option BufferHandle * TcpTransport) :=
  match h with None => Ret (None, t) | Some _ => Ret (Some handle0, t) end.

(** [len + offset > h->size] is computed in [size_t]. *)
Definition send_async (t : TcpTransport) (h : option BufferHandle) (len id offset : Z) : sysM Z :=
  match h with
  | None => Ret (-1)
  | Some h =>
    if bool_decide (len = 0 ∨ addr h = 0) then Ret (-1) else
    if bool_decide (u64 (len + offset) > size h) then Ret (-1) else
    rc <- send_all (fd_ t) (Mem (addr h + offset)) len ;;
    if bool_decide (rc ≠ 0) then Ret (-1) else Ret 0
  end.
Definition recv_async (t : TcpTransport) (h : option BufferHandle) (len id offset : Z) : sysM Z :=
  match h with
  | None => Ret (-1)
  | Some h =>
    if bool_decide (len = 0 ∨ addr h = 0) then Ret (-1) else
    if bool_decide (u64 (len + offset) > size h) then Ret (-1) else
    let! (rc, _) := recv_all (fd_ t) (Mem (addr h + offset)) len in
    if bool_decide (rc ≠ 0) then Ret (-1) else Ret 0
  end.

(** A [uint64_t] as the local object it is sent from and received into. *)
Definition sizeof_addr : Z := 8.
Definition exchange_buf (t : TcpTransport) (local : option BufferHandle) (remote_addr rkey : option Z)
    : sysM (Z * option Z * option Z * TcpTransport) :=
  match local, remote_addr, rkey with
  | Some local, Some ra, Some rk =>
    let local_addr := le_bytes 8 (addr local) in
    let fill (got : list Z) := le_val (overlay got (le_bytes 8 ra)) in
    if is_server_ t then
      rc <- send_all (fd_ t) (Obj local_addr) sizeof_addr ;;
      if bool_decide (rc ≠ 0) then Ret (-1, Some ra, Some rk, t) else
      let! (rc, got) := recv_all (fd_ t) (Obj (le_bytes 8 ra)) sizeof_addr in
      if bool_decide (rc ≠ 0) then Ret (-1, Some (fill got), Some rk, t) else
      Ret (0, Some (fill got), Some 0, t)
    else
      let! (rc, got) := recv_all (fd_ t) (Obj (le_bytes 8 ra)) sizeof_addr in
      if bool_decide (rc ≠ 0) then Ret (-1, Some (fill got), Some rk, t) else
      rc <- send_all (fd_ t) (Obj local_addr) sizeof_addr ;;
      if bool_decide (rc ≠ 0) then Ret (-1, Some (fill got), Some rk, t) else
      Ret (0, Some (fill got), Some 0, t)
  | _, _, _ => Ret (-1, remote_addr, rkey, t)
  end.

Definition write_async (t : TcpTransport) (local : option BufferHandle) (remote_addr rkey len id offset : Z)
    : sysM Z := send_async t local len id offset.
Definition read_async (t : TcpTransport) (local : option BufferHandle) (remote_addr rkey len id offset : Z)
    : sysM Z := Ret (-1).
Definition poll (fuel : nat) (t : TcpTransport) (completed_id : bool) : sysM (option (Z * option Z)) :=
  Ret (Some (0, None)).

Definition connect (t : TcpTransport) (host : option string) (port : Z) : sysM (Z * TcpTransport) :=
  match host with
  | None => Ret (-1, t)
  | Some host =>
    a <- sys (c_inet_pton host) ;;
    match a with
    | None => Ret (-1, t)
    | Some ip =>
      fd <- sys c_socket ;;
      let t := mkTcp fd (listen_fd_ t) (is_server_ t) in
      if fd <? 0 then Ret (-1, t) else
      rc <- sys (c_connect fd ip (htons port)) ;;
      if rc <? 0 then sys (c_close fd) ;; Ret (-1, mkTcp (-1) (listen_fd_ t) (is_server_ t)) else
      set_nodelay fd ;;
      Ret (0, mkTcp fd (listen_fd_ t) false)
    end
  end.
Definition listen (t : TcpTransport) (port : Z) : sysM (Z * TcpTransport) :=
  lfd <- sys c_socket ;;
  if lfd <? 0 then Ret (-1, mkTcp (fd_ t) lfd (is_server_ t)) else
  _ <- sys (c_setsockopt lfd SO_REUSEADDR) ;;
  rc <- sys (c_bind lfd (htons port)) ;;
  if rc <? 0 then sys (c_close lfd) ;; Ret (-1, mkTcp (fd_ t) (-1) (is_server_ t)) else
  rc <- sys (c_listen lfd 1) ;;
  if rc <? 0 then sys (c_close lfd) ;; Ret (-1, mkTcp (fd_ t) (-1) (is_server_ t)) else
  Ret (0, mkTcp (fd_ t) lfd true).
Definition accept (t : TcpTransport) : sysM (Z * TcpTransport) :=
  fd <- sys (c_accept (listen_fd_ t)) ;;
  let t := mkTcp fd (listen_fd_ t) (is_server_ t) in
  if fd <? 0 then Ret (-1, t) else
  set_nodelay fd ;; Ret (0, t).
Definition close (t : TcpTransport) : sysM TcpTransport :=
  t <- (if 0 <=? fd_ t then sys (c_close (fd_ t)) ;; Ret (mkTcp (-1) (listen_fd_ t) (is_server_ t)) else Ret t) ;;
  if 0 <=? listen_fd_ t then sys (c_close (listen_fd_ t)) ;; Ret (mkTcp (fd_ t) (-1) (is_server_ t)) else Ret t.

End Tcp.

#[export] Instance tcp_transport : Transport Tcp.TcpTransport := {
  reg_buf := Tcp.reg_buf; dereg_buf := Tcp.dereg_buf;
  t_send_async := Tcp.send_async; t_recv_async := Tcp.recv_async; t_recv_blocks := fun _ => true;
  t_write_async := Tcp.write_async; t_read_async := Tcp.read_async; exchange_buf := Tcp.exchange_buf;
  t_poll := Tcp.poll; t_connect := Tcp.connect; t_listen := Tcp.listen; t_accept := Tcp.accept;
  t_close := Tcp.close
}.
