(* ===== verification/TcpSpec.v ===== *)
(** The TCP backend keeps the laws of the interface, and what happens when it
    is connected a second time. *)
From stdpp Require Import strings.
From S2P Require Import Prelude Prog Sys Oob OobSpec Endpoint RdmaRes VerbsSpec Transport TransportSpec TcpBackend.

Module TcpSpec.
Import Tcp.

Definition socks (t : TcpTransport) : ledger := opt_fd_res (Some (fd_ t)) ++ opt_fd_res (Some (listen_fd_ t)).
Definition owns (ph : phase) (t : TcpTransport) (hs : list BufferHandle) (l : ledger) : Prop :=
  l = socks t ∧
  match ph with
  | Idle => fd_ t < 0 ∧ listen_fd_ t < 0
  | Listening => fd_ t < 0 ∧ 0 ≤ listen_fd_ t
  | Connected => 0 ≤ fd_ t
  end.
Abbreviation holds := (holds_by owns).

Lemma opt_fd_pos fd : 0 ≤ fd → opt_fd_res (Some fd) = [fd_res fd].
Proof. intros. cbn. by rewrite (proj2 (Z.leb_le 0 fd)). Qed.
Lemma opt_fd_neg fd : fd < 0 → opt_fd_res (Some fd) = [].
Proof. intros. cbn. by rewrite (proj2 (Z.leb_gt 0 fd)). Qed.

Lemma holds_intro ph t hs L0 L :
  match ph with
  | Idle => fd_ t < 0 ∧ listen_fd_ t < 0
  | Listening => fd_ t < 0 ∧ 0 ≤ listen_fd_ t
  | Connected => 0 ≤ fd_ t
  end → own (socks t) L0 L → holds ph t hs L0 L.
Proof. intros Hp Ho. exists (socks t). by split. Qed.
Lemma holds_elim ph t hs L0 L : holds ph t hs L0 L → own (socks t) L0 L ∧
  match ph with
  | Idle => fd_ t < 0 ∧ listen_fd_ t < 0
  | Listening => fd_ t < 0 ∧ 0 ≤ listen_fd_ t
  | Connected => 0 ≤ fd_ t
  end.
Proof. intros (l & [-> ?] & ?). by split. Qed.
Lemma tcp_holds_idle t hs L0 L : holds Idle t hs L0 L → L ≡ₚ L0.
Proof.
  intros [Ho [H1 H2]]%holds_elim. unfold socks in Ho. rewrite !opt_fd_neg in Ho by done. by apply own_nil in Ho.
Qed.
Lemma idle_holds t L0 L : fd_ t < 0 → listen_fd_ t < 0 → L ≡ₚ L0 → holds Idle t [] L0 L.
Proof.
  intros H1 H2 HL. apply holds_intro; [done|]. unfold socks. rewrite !opt_fd_neg by done. by apply own_nil.
Qed.
Lemma connected_live t hs L0 L : holds Connected t hs L0 L → live L (RFd, fd_ t).
Proof.
  intros [Ho Hp]%holds_elim. eapply own_live; [exact Ho|]. unfold socks. rewrite opt_fd_pos by done. unfold live. cbn. by left.
Qed.

(** The data path makes calls on the connected socket only. *)
Lemma send_all_ledger fd b len L : live L (RFd, fd) → wp ledger_env (send_all fd b len) (fun _ L' => L' = L) L.
Proof. apply send_loop_ledger. Qed.
Lemma recv_all_ledger fd b len L : live L (RFd, fd) → wp ledger_env (recv_all fd b len) (fun _ L' => L' = L) L.
Proof. apply recv_loop_ledger. Qed.
Lemma send_async_ledger t h len id off L :
  live L (RFd, fd_ t) → wp ledger_env (send_async t h len id off) (fun _ L' => L' = L) L.
Proof.
  intros Hl. unfold send_async. destruct h as [h|]; [|done]. case_bool_decide; [done|]. case_bool_decide; [done|].
  eapply wp_bind_2; [by apply send_all_ledger|]. intros rc L' ->. by case_bool_decide.
Qed.
Lemma recv_async_ledger t h len id off L :
  live L (RFd, fd_ t) → wp ledger_env (recv_async t h len id off) (fun _ L' => L' = L) L.
Proof.
  intros Hl. unfold recv_async. destruct h as [h|]; [|done]. case_bool_decide; [done|]. case_bool_decide; [done|].
  eapply wp_bind_2; [by apply recv_all_ledger|]. intros [rc got] L' ->. by case_bool_decide.
Qed.
Lemma tcp_exchange_buf_ledger t h ra rk L :
  live L (RFd, fd_ t) → wp ledger_env (exchange_buf t h ra rk) (fun '(_, _, _, t') L' => t' = t ∧ L' = L) L.
Proof.
  intros Hl. unfold exchange_buf. destruct h as [h|]; [|done]. destruct ra as [ra|]; [|done].
  destruct rk as [rk|]; [|done]. destruct (is_server_ t).
  - eapply wp_bind_2; [by apply send_all_ledger|]. intros rc L' ->. case_bool_decide; [done|].
    eapply wp_bind_2; [by apply recv_all_ledger|]. intros [rc' got] L' ->. by case_bool_decide.
  - eapply wp_bind_2; [by apply recv_all_ledger|]. intros [rc' got] L' ->. case_bool_decide; [done|].
    eapply wp_bind_2; [by apply send_all_ledger|]. intros rc L' ->. by case_bool_decide.
Qed.

Lemma tcp_connect_ledger t host port L0 L :
  holds Idle t [] L0 L → wp ledger_env (connect t host port) (fun '(rc, t') L' =>
    rc = 0 ∧ holds Connected t' [] L0 L' ∨ rc = -1 ∧ holds Idle t' [] L0 L') L.
Proof.
  intros Ht. pose proof (tcp_holds_idle _ _ _ _ Ht) as HL. pose proof Ht as [_ [Hf Hlf]]%holds_elim.
  unfold connect. destruct host as [host|]; [|by right]. neutral a. destruct a as [ip|]; [|by right].
  apply wp_step, wp_acquire; [constructor|done|]. intros fd L1 _ Hown. cbn in Hown. rewrite HL in Hown.
  destruct (Z.ltb_spec fd 0).
  { right. split; [done|]. destruct (Z.leb_spec 0 fd); [lia|]. apply own_nil in Hown. by apply idle_holds. }
  destruct (Z.leb_spec 0 fd); [|lia].
  assert (Hl : live L1 (RFd, fd)) by (eapply own_live; [exact Hown|]; unfold live; cbn; by left).
  neutral rc. destruct (rc <? 0).
  - eapply wp_close; [exact Hown|constructor|]. intros _ L2 Ho%own_nil. right. split; [done|]. by apply idle_holds.
  - cbn [bind sys call set_nodelay]. apply wp_neutral; [live_tac|done..|]. intros _ _. left. split; [done|].
    apply holds_intro; [done|]. unfold socks. cbn [fd_ listen_fd_]. by rewrite opt_fd_pos, opt_fd_neg by done.
Qed.
Lemma tcp_listen_ledger t port L0 L :
  holds Idle t [] L0 L → wp ledger_env (listen t port) (fun '(rc, t') L' =>
    rc = 0 ∧ holds Listening t' [] L0 L' ∨ rc = -1 ∧ holds Idle t' [] L0 L') L.
Proof.
  intros Ht. pose proof (tcp_holds_idle _ _ _ _ Ht) as HL. pose proof Ht as [_ [Hf Hlf]]%holds_elim.
  unfold listen. apply wp_step, wp_acquire; [constructor|done|]. intros fd L1 _ Hown. cbn in Hown. rewrite HL in Hown.
  destruct (Z.ltb_spec fd 0).
  { right. split; [done|]. destruct (Z.leb_spec 0 fd); [lia|]. apply own_nil in Hown. by apply idle_holds. }
  destruct (Z.leb_spec 0 fd); [|lia].
  assert (Hl : live L1 (RFd, fd)) by (eapply own_live; [exact Hown|]; unfold live; cbn; by left).
  assert (Hclose : wp ledger_env (sys (c_close fd) ;; Ret (-1, mkTcp (fd_ t) (-1) (is_server_ t)))
    (fun '(rc, t') L' => rc = 0 ∧ holds Listening t' [] L0 L' ∨ rc = -1 ∧ holds Idle t' [] L0 L') L1).
  { eapply wp_close; [exact Hown|constructor|]. intros _ L2 Ho%own_nil. right. split; [done|]. by apply idle_holds. }
  neutral rc. neutral rc1. destruct (rc1 <? 0); [exact Hclose|]. neutral rc2. destruct (rc2 <? 0); [exact Hclose|].
  left. split; [done|]. apply holds_intro; [done|]. unfold socks. cbn [fd_ listen_fd_].
  by rewrite opt_fd_neg, opt_fd_pos by done.
Qed.
Lemma tcp_accept_ledger t hs L0 L :
  holds Listening t hs L0 L → wp ledger_env (accept t) (fun '(rc, t') L' =>
    rc = 0 ∧ holds Connected t' hs L0 L' ∨ rc = -1 ∧ holds Listening t' hs L0 L') L.
Proof.
  intros [Ho [Hf Hlf]]%holds_elim. unfold accept. apply wp_step, wp_acquire; [|done|].
  { live_tac. eapply own_live; [exact Ho|]. unfold socks. rewrite opt_fd_neg, opt_fd_pos by done.
    unfold live. cbn. by left. }
  intros fd L1 _ Hown. cbn in Hown. pose proof (own_trans _ _ _ _ _ Hown Ho) as Ho1.
  unfold socks in Ho1. rewrite (opt_fd_neg (fd_ t)) in Ho1 by done. cbn [app] in Ho1.
  destruct (Z.ltb_spec fd 0).
  { right. split; [done|]. apply holds_intro; [done|]. destruct (Z.leb_spec 0 fd); [lia|].
    unfold socks. cbn [fd_ listen_fd_]. by rewrite opt_fd_neg by done. }
  destruct (Z.leb_spec 0 fd); [|lia].
  cbn [bind sys call set_nodelay]. apply wp_neutral; [|done..|].
  { live_tac. eapply own_live; [exact Ho1|]. unfold live. cbn. by left. }
  intros _ _. left. split; [done|]. apply holds_intro; [done|]. unfold socks. cbn [fd_ listen_fd_].
  by rewrite opt_fd_pos by done.
Qed.
(** From any state of the two members. *)
Lemma tcp_close_ledger t L0 L :
  own (socks t) L0 L → wp ledger_env (close t) (fun t' L' => L' ≡ₚ L0 ∧ holds Idle t' [] L0 L') L.
Proof.
  intros Ho. unfold close.
  assert (Hlst : ∀ u L1, fd_ u < 0 → own (opt_fd_res (Some (listen_fd_ u))) L0 L1 →
    wp ledger_env (if 0 <=? listen_fd_ u then sys (c_close (listen_fd_ u)) ;; Ret (mkTcp (fd_ u) (-1) (is_server_ u)) else Ret u)
      (fun t' L' => L' ≡ₚ L0 ∧ holds Idle t' [] L0 L') L1).
  { intros u L1 Hu Ho1. cbn [opt_fd_res] in Ho1. destruct (Z.leb_spec 0 (listen_fd_ u)).
    - eapply wp_close; [exact Ho1|constructor|]. intros _ L2 Ho2%own_nil. split; [done|]. by apply idle_holds.
    - apply own_nil in Ho1. split; [done|]. apply idle_holds; (done || lia). }
  unfold socks in Ho. destruct (Z.leb_spec 0 (fd_ t)).
  - rewrite opt_fd_pos in Ho by done. eapply wp_bind_2.
    { eapply (wp_close _ _ _ _ _ (fun u L1 => u = mkTcp (-1) (listen_fd_ t) (is_server_ t) ∧
        own (opt_fd_res (Some (listen_fd_ t))) L0 L1)); [exact Ho|apply unreferred_opt_fd|].
      intros _ L1 Ho1. by split. }
    intros u L1 [-> Ho1]. by apply Hlst.
  - rewrite opt_fd_neg in Ho by lia. apply Hlst; [lia|done].
Qed.

#[export] Instance tcp_laws : TransportLaws TcpTransport.
Proof.
  refine {| t_owns := owns |}.
  - intros ph t hs l [-> _]. apply Forall_forall. intros r [Hr|Hr]%elem_of_app; cbn [opt_fd_res] in Hr;
      case_match; try by apply elem_of_nil in Hr.
    all: apply list_elem_of_singleton in Hr as ->; by repeat split.
  - intros ph t hs l [-> _]. apply Forall_forall. intros r [Hr|Hr]%elem_of_app; cbn [opt_fd_res] in Hr;
      case_match; try by apply elem_of_nil in Hr.
    all: by apply list_elem_of_singleton in Hr as ->.
  - apply tcp_connect_ledger.
  - apply tcp_listen_ledger.
  - apply tcp_accept_ledger.
  - intros ph t hs buf sz h L0 L _ Ht. cbn [Transport.reg_buf tcp_transport]. unfold Tcp.reg_buf. case_bool_decide; [by right|].
    left. split; [done|]. by eexists.
  - intros ph t hs h hs' L0 L _ [Ho Hp]%holds_elim Hh. split; [done|]. by apply holds_intro.
  - intros ph t hs h L0 L _ Ht Hh. by split.
  - done.
  - intros t hs h len id off L0 L Ht. eapply wp_mono; [|apply send_async_ledger; by eapply connected_live].
    by intros rc L' ->.
  - intros ph t hs h len id off L0 L [->|[_ Hb]] Ht; [|done]. eapply wp_mono; [|apply recv_async_ledger; by eapply connected_live].
    by intros rc L' ->.
  - intros t hs h ra rk len id off L0 L Ht. eapply wp_mono; [|apply send_async_ledger; by eapply connected_live].
    by intros rc L' ->.
  - intros t hs h ra rk len id off L0 L Ht. exact Ht.
  - intros fuel t hs b L0 L Ht. exact Ht.
  - intros t hs h ra rk L0 L Ht. eapply wp_mono; [|apply tcp_exchange_buf_ledger; by eapply connected_live].
    by intros [[[rc ?] ?] t'] L' [-> ->].
  - intros ph t L0 L [Ho _]%holds_elim. by apply tcp_close_ledger.
Defined.

(** * The bytes a transfer moves *)

Definition xfer_ok (h : BufferHandle) (len off : Z) : bool :=
  bool_decide (len ≠ 0 ∧ addr h ≠ 0 ∧ u64 (len + off) ≤ size h).
Lemma xfer_ok_cases h len off {A} (p q r : A) :
  (if bool_decide (len = 0 ∨ addr h = 0) then p else if bool_decide (u64 (len + off) > size h) then p else q)
  = if xfer_ok h len off then q else p.
Proof.
  unfold xfer_ok. destruct (decide (len = 0 ∨ addr h = 0)) as [Hz|Hz].
  { rewrite (bool_decide_eq_true_2 _ Hz), (bool_decide_eq_false_2 (_ ∧ _)) by lia. done. }
  rewrite (bool_decide_eq_false_2 _ Hz). destruct (decide (u64 (len + off) > size h)) as [Hb|Hb].
  - rewrite (bool_decide_eq_true_2 _ Hb), (bool_decide_eq_false_2 (_ ∧ _)) by lia. done.
  - rewrite (bool_decide_eq_false_2 _ Hb), (bool_decide_eq_true_2 (_ ∧ _)) by lia. done.
Qed.
(** [s'] is [s] after part of the [len] bytes at [a] went out, all of them when
    the verdict is 0; or after [d] came in at [a]. *)
Definition sent (a len : Z) (s : endp) (rc : Z) (s' : endp) : Prop :=
  emem s' = emem s ∧ egot s' = egot s ∧ (∃ k, eput s' = eput s ++ take k (load (emem s) a len)) ∧
  (rc = 0 ∧ eput s' = eput s ++ load (emem s) a len ∨ rc = -1).
Definition received (a len : Z) (s : endp) (rc : Z) (d : list Z) (s' : endp) : Prop :=
  egot s' = egot s ++ d ∧ eput s' = eput s ∧ (∀ x, emem s' x = store (emem s) a d x) ∧
  Z.of_nat (length d) ≤ len ∧ (rc = 0 ∧ Z.of_nat (length d) = len ∨ rc = -1).
Lemma send_async_endp t h len id off s :
  0 ≤ len →
  wp endp_env (send_async t (Some h) len id off)
    (fun rc s' => if xfer_ok h len off then sent (addr h + off) len s rc s' else rc = -1 ∧ s' = s) s.
Proof.
  intros Hlen. unfold send_async. rewrite (xfer_ok_cases h len off (Ret (-1)) _ (Ret 0)).
  destruct (xfer_ok h len off); [|done]. eapply wp_bind_2; [by apply send_loop_endp|].
  rewrite Z.add_0_r, Z.sub_0_r. intros rc s' (Hm & Hg & Hk & [[-> Hp]| ->]).
  - rewrite bool_decide_eq_false_2 by lia. cbn [wp]. unfold sent. auto 10.
  - rewrite bool_decide_eq_true_2 by lia. cbn [wp]. unfold sent. auto 10.
Qed.
Lemma recv_async_endp t h len id off s :
  0 ≤ len →
  wp endp_env (recv_async t (Some h) len id off)
    (fun rc s' => if xfer_ok h len off then ∃ d, received (addr h + off) len s rc d s' else rc = -1 ∧ s' = s) s.
Proof.
  intros Hlen. unfold recv_async. rewrite (xfer_ok_cases h len off (Ret (-1)) _ (Ret 0)).
  destruct (xfer_ok h len off); [|done]. eapply wp_bind_2; [by apply recv_loop_endp|].
  rewrite Z.add_0_r. intros [rc d] s' (d' & -> & Hg & Hp & Hm & Hl & Hrc). cbn [app] in *. cbn beta iota.
  destruct Hrc as [[-> Hd]| ->].
  - rewrite bool_decide_eq_false_2 by lia. cbn [wp]. exists d'. unfold received. auto 10.
  - rewrite bool_decide_eq_true_2 by lia. cbn [wp]. exists d'. unfold received. auto 10.
Qed.

(** The socket backend forgets its connection when it is connected again:
    whenever a second [connect] succeeds, the first connection's descriptor is
    still open after [close], on every behaviour of the socket layer. *)
Theorem tcp_reconnect_leaks (t : TcpTransport) (hs : list BufferHandle) (host : string) (port : Z) (L0 L : ledger) :
  holds Connected t hs L0 L →
  wp ledger_env (let! (rc, t) := connect t (Some host) port in t <- close t ;; Ret (rc, t))
    (fun '(rc, t') L' => rc = 0 → fd_ t' < 0 ∧ L' ≡ₚ fd_res (fd_ t) :: L0) L.
Proof.
  intros [Ho Hp]%holds_elim. unfold socks in Ho. rewrite opt_fd_pos in Ho by done. cbn [app] in Ho.
  assert (Hfail : ∀ u L1, wp ledger_env (u' <- close u ;; Ret (-1, u'))
    (fun '(rc, t') L' => rc = 0 → fd_ t' < 0 ∧ L' ≡ₚ fd_res (fd_ t) :: L0) L1).
  { intros u L1. eapply wp_bind_2; [apply wp_true|]. done. }
  unfold connect. neutral a. destruct a as [ip|]; [|apply Hfail].
  apply wp_step, wp_acquire; [constructor|done|]. intros fd L1 _ Hown. cbn in Hown.
  pose proof (own_trans _ _ _ _ _ Hown Ho) as Ho1. destruct (Z.ltb_spec fd 0); [apply Hfail|].
  destruct (Z.leb_spec 0 fd); [|lia].
  assert (Hl : live L1 (RFd, fd)) by (eapply own_live; [exact Ho1|]; unfold live; cbn; by left).
  neutral rc. destruct (rc <? 0).
  { cbn [bind sys call]. intros ? L2 _. apply Hfail. }
  cbn [bind sys call set_nodelay]. apply wp_neutral; [live_tac|done..|]. intros _ _. cbn [bind].
  assert (Hfr : own (socks (mkTcp fd (listen_fd_ t) false)) (fd_res (fd_ t) :: L0) L1).
  { unfold socks. cbn [fd_ listen_fd_]. rewrite opt_fd_pos by done.
    apply (own_split _ [fd_res (fd_ t)]).
    - eapply own_proper; [|reflexivity|reflexivity|exact Ho1]. solve_Permutation.
    - apply Forall_forall. intros r _. apply Forall_singleton, not_elem_of_nil. }
  eapply wp_bind_2; [apply (tcp_close_ledger _ _ _ Hfr)|]. intros u L2 [HL2 Hu] _.
  apply holds_elim in Hu as [_ [? _]]. by split.
Qed.

Lemma demo_connected : holds Connected (mkTcp 3 (-1) false) [] [] [fd_res 3].
Proof.
  apply holds_intro; [discriminate|]. split; [done|]. split; [apply NoDup_singleton|].
  apply Forall_singleton. apply Forall_nil_2.
Qed.
Lemma tcp_reconnect_leaks_witness :
  wp ledger_env (let! (rc, t) := connect (mkTcp 3 (-1) false) (Some "10.0.0.1"%string) 7000 in t <- close t ;; Ret (rc, t))
    (fun '(rc, t') L' => rc = 0 → fd_ t' < 0 ∧ L' ≡ₚ [fd_res 3]) [fd_res 3].
Proof.
  apply (tcp_reconnect_leaks (mkTcp 3 (-1) false) [] "10.0.0.1"%string 7000 [] [fd_res 3] demo_connected).
Defined.

End TcpSpec.
