(* ===== verification/RdmaBackend.v ===== *)
(** Phase 2, [rdma_backend.cpp]: the transport over a queue pair. *)
From stdpp Require Import strings gmap.
From S2P Require Import Prelude Prog Sys RdmaCommon Oob RdmaOps RdmaRes VerbsConnect CmConnect Transport.

Module Rdma.

(** The members, and the [rai_mr_t] objects the transport has allocated, by
    address. *)
Record RdmaTransport := mkRdma {
  qp_ : rai_qp; port_ : Z; mr_listen_fd_ : Z; is_server_ : bool; host_ : string;
  mrs : gmap Z rai_mr }.
Definition create : RdmaTransport := mkRdma rai_qp0 (-1) (-1) false EmptyString ∅.
Definition set_qp_ q t := mkRdma q (port_ t) (mr_listen_fd_ t) (is_server_ t) (host_ t) (mrs t).
Definition set_mfd fd t := mkRdma (qp_ t) (port_ t) fd (is_server_ t) (host_ t) (mrs t).
Definition set_mrs m t := mkRdma (qp_ t) (port_ t) (mr_listen_fd_ t) (is_server_ t) (host_ t) m.

(** [(rai_mr_t * )h->priv] *)
Definition mr_of (t : RdmaTransport) (h : BufferHandle) : option rai_mr :=
  if bool_decide (priv h = 0) then None else mrs t !! priv h.

Definition reg_buf (t : RdmaTransport) (buf sz : Z) (out : option BufferHandle)
    : sysM (Z * option BufferHandle * RdmaTransport) :=
  match out with
  | None => Ret (-1, None, t)
  | Some h =>
    if bool_decide (buf = 0 ∨ sz = 0) then Ret (-1, Some h, t) else
    p <- sys c_new ;;
    let! (rc, mr) := rai_mr_reg_external (Some (qp_ t)) (Some rai_mr0) buf sz in
    if bool_decide (rc ≠ 0) then sys (c_delete p) ;; Ret (-1, Some h, t) else
    Ret (0, Some (mkBufferHandle buf sz p), set_mrs (<[p := default rai_mr0 mr]> (mrs t)) t)
  end.
Definition dereg_buf (t : RdmaTransport) (h : option BufferHandle)
    : sysM (option BufferHandle * RdmaTransport) :=
  match h with
  | None => Ret (None, t)
  | Some h =>
    rai_mr_dereg (mr_of t h) ;;
    (if bool_decide (priv h ≠ 0) then sys (c_delete (priv h)) ;; Ret tt else Ret tt) ;;
    Ret (Some handle0, set_mrs (delete (priv h) (mrs t)) t)
  end.

(** The [size_t] length becomes the [uint32_t] parameter of the post. *)
Definition send_async (t : RdmaTransport) (h : option BufferHandle) (len id offset : Z) : sysM Z :=
  match h with
  | None => Ret (-1)
  | Some h => rc <- rai_post_send (Some (qp_ t)) (mr_of t h) (u32 len) id offset ;;
              if bool_decide (rc ≠ 0) then Ret (-1) else Ret 0
  end.
Definition recv_async (t : RdmaTransport) (h : option BufferHandle) (len id offset : Z) : sysM Z :=
  match h with
  | None => Ret (-1)
  | Some h => rc <- rai_post_recv (Some (qp_ t)) (mr_of t h) (u32 len) id offset ;;
              if bool_decide (rc ≠ 0) then Ret (-1) else Ret 0
  end.
Definition write_async (t : RdmaTransport) (local : option BufferHandle) (remote_addr rkey len id offset : Z)
    : sysM Z :=
  match local with
  | None => Ret (-1)
  | Some h => rc <- rai_post_write (Some (qp_ t)) (mr_of t h) (u32 len) [SEND_SIGNALED]
                      (u64 (remote_addr + offset)) rkey id offset ;;
              if bool_decide (rc ≠ 0) then Ret (-1) else Ret 0
  end.
Definition read_async (t : RdmaTransport) (local : option BufferHandle) (remote_addr rkey len id offset : Z)
    : sysM Z :=
  match local with
  | None => Ret (-1)
  | Some h => rc <- rai_post_read (Some (qp_ t)) (mr_of t h) (u32 len)
                      (u64 (remote_addr + offset)) rkey id offset ;;
              if bool_decide (rc ≠ 0) then Ret (-1) else Ret 0
  end.
Definition poll (fuel : nat) (t : RdmaTransport) (completed_id : bool) : sysM (option (Z * option Z)) :=
  rai_poll_cq fuel (Some (qp_ t)) completed_id.

Definition set_local_mr (m : ibv_mr) (qp : rai_qp) : rai_qp :=
  let l := qp_local qp in
  set_local (mkConnInfo (u64 (ibv_mr_addr m)) (ci_gid l) (ibv_rkey m) (ci_qpn l) (ci_psn l)) qp.
Definition exchange_buf (t : RdmaTransport) (local : option BufferHandle) (remote_addr rkey : option Z)
    : sysM (Z * option Z * option Z * RdmaTransport) :=
  match local with
  | None => Ret (-1, remote_addr, rkey, t)
  | Some h =>
    if bool_decide (priv h = 0) then Ret (-1, remote_addr, rkey, t) else
    match remote_addr, rkey with
    | Some _, Some _ =>
      match mr_of t h ≫= mr_mr with
      | None => Ret (-1, remote_addr, rkey, t)
      | Some m =>
        let qp := set_local_mr m (qp_ t) in
        let! (rc, qp') :=
          if is_server_ t then rai_oob_accept (mr_listen_fd_ t) (Some qp)
          else if String.eqb (host_ t) EmptyString then Ret (-1, Some qp)
          else rai_oob_connect (Some qp) (Some (host_ t)) (port_ t + 1) in
        let qp := default qp qp' in
        let t := set_qp_ qp t in
        if bool_decide (rc ≠ 0) then Ret (-1, remote_addr, rkey, t)
        else Ret (0, Some (ci_addr (qp_remote qp)), Some (ci_rkey (qp_remote qp)), t)
      end
    | _, _ => Ret (-1, remote_addr, rkey, t)
    end
  end.

(** What [connect] and [listen] do first: drop a previous connection and a
    previous side-channel listener. *)
Definition reset (t : RdmaTransport) : sysM RdmaTransport :=
  t <- (if bool_decide (qp_qp (qp_ t) ≠ 0)
        then q <- rai_qp_destroy (Some (qp_ t)) ;; Ret (set_qp_ (default (qp_ t) q) t) else Ret t) ;;
  if 0 <=? mr_listen_fd_ t then sys (c_close (mr_listen_fd_ t)) ;; Ret (set_mfd (-1) t) else Ret t.
Definition connect (t : RdmaTransport) (host : option string) (port : Z) : sysM (Z * RdmaTransport) :=
  match host with
  | None => Ret (-1, t)
  | Some host =>
    t <- reset t ;;
    let! (rc, qp) := rai_cm_connect_qp (qp_ t) host port in
    let t := set_qp_ qp t in
    if bool_decide (rc ≠ 0) then Ret (-1, t) else
    Ret (0, mkRdma (qp_ t) port (mr_listen_fd_ t) false host (mrs t))
  end.
Definition listen (t : RdmaTransport) (port : Z) : sysM (Z * RdmaTransport) :=
  t <- reset t ;;
  let! (rc, qp, mfd) := rai_cm_listen_qp (qp_ t) port (Some (mr_listen_fd_ t)) in
  let t := set_mfd (default (mr_listen_fd_ t) mfd) (set_qp_ qp t) in
  if bool_decide (rc ≠ 0) then Ret (-1, t) else
  Ret (0, mkRdma (qp_ t) (port_ t) (mr_listen_fd_ t) true (host_ t) (mrs t)).
Definition accept (t : RdmaTransport) : sysM (Z * RdmaTransport) :=
  rc <- rai_cm_accept_qp (qp_ t) ;;
  if bool_decide (rc ≠ 0) then Ret (-1, t) else Ret (0, t).
Definition close (t : RdmaTransport) : sysM RdmaTransport :=
  q <- rai_qp_destroy (Some (qp_ t)) ;;
  let t := set_qp_ (default (qp_ t) q) t in
  if 0 <=? mr_listen_fd_ t then sys (c_close (mr_listen_fd_ t)) ;; Ret (set_mfd (-1) t) else Ret t.

End Rdma.

#[export] Instance rdma_transport : Transport Rdma.RdmaTransport := {
  reg_buf := Rdma.reg_buf; dereg_buf := Rdma.dereg_buf;
  t_send_async := Rdma.send_async; t_recv_async := Rdma.recv_async; t_recv_blocks := fun _ => false;
  t_write_async := Rdma.write_async; t_read_async := Rdma.read_async; exchange_buf := Rdma.exchange_buf;
  t_poll := Rdma.poll; t_connect := Rdma.connect; t_listen := Rdma.listen; t_accept := Rdma.accept;
  t_close := Rdma.close
}.
