(* ===== verification/RdmaSpec.v ===== *)
(** The RDMA backend keeps the laws of the interface. *)
From stdpp Require Import strings gmap.
From S2P Require Import Prelude Prog Sys RdmaCommon Oob OobSpec RdmaOps RdmaRes.
From S2P Require Import VerbsConnect VerbsSpec CmConnect CmSpec Transport TransportSpec TcpSpec RdmaBackend.

Module RdmaSpec.
Import Rdma.

(** * What a transport owns *)

(** The resources behind a handle: the region object and the region. *)
Definition handle_res (m : gmap Z rai_mr) (pd : Z) (h : BufferHandle) : ledger :=
  match m !! priv h with
  | Some mr => mr_res pd mr ++ [mkRes (RObj, priv h) []]
  | None => []
  end.
Definition regs (m : gmap Z rai_mr) (pd : Z) (hs : list BufferHandle) : ledger := concat (handle_res m pd <$> hs).
Definition handle_ok (m : gmap Z rai_mr) (h : BufferHandle) : Prop :=
  priv h ≠ 0 ∧ ∃ r, m !! priv h = Some (mkRaiMr (Some r) (addr h) (size h) 0).
Definition conn_res (c1 c2 : Z) (t : RdmaTransport) : ledger :=
  cm_res c1 c2 (qp_ t) ++ opt_fd_res (Some (mr_listen_fd_ t)).
Definition phase_ok (ph : phase) (t : RdmaTransport) (hs : list BufferHandle) : Prop :=
  match ph with
  | Idle => qp_ t = rai_qp0 ∧ mr_listen_fd_ t < 0 ∧ hs = []
  | Listening => cm_complete (qp_ t) ∧ is_server_ t = true ∧ 0 ≤ mr_listen_fd_ t
  | Connected => cm_complete (qp_ t) ∧ (is_server_ t = true → 0 ≤ mr_listen_fd_ t)
  end.
Definition owns (ph : phase) (t : RdmaTransport) (hs : list BufferHandle) (l : ledger) : Prop :=
  (∃ c1 c2, l = regs (mrs t) (qp_pd (qp_ t)) hs ++ conn_res c1 c2 t) ∧
  NoDup (priv <$> hs) ∧ Forall (handle_ok (mrs t)) hs ∧ phase_ok ph t hs.
Abbreviation holds := (holds_by owns).

(** The kinds the parents of these resources have. *)
Definition base_kind (k : kind) : Prop := k = RId ∨ k = RPd ∨ k = RCq ∨ k = RCtx ∨ k = REc ∨ k = RMem.
Definition based (l : ledger) : Prop := Forall (fun r => Forall (fun k => base_kind k.1) (r_parents r)) l.
Lemma based_unreferred k l : based l → ¬ base_kind k.1 → unreferred k l.
Proof.
  intros Hl Hk. eapply Forall_impl; [exact Hl|]. cbn. intros r Hr Hin. rewrite Forall_forall in Hr. by apply Hk, Hr.
Qed.
Lemma based_app l l' : based (l ++ l') ↔ based l ∧ based l'.
Proof. apply Forall_app. Qed.
Lemma based_ptr k ps p : Forall (fun k => base_kind k.1) ps → based (ptr_res k ps p).
Proof. intros Hps. unfold ptr_res. case_bool_decide; [by apply Forall_singleton|constructor]. Qed.
Ltac based_tac := repeat (apply Forall_cons; split); try apply Forall_nil; try done; unfold base_kind; cbn; auto 10.
Lemma based_conn c1 c2 t : based (conn_res c1 c2 t).
Proof.
  unfold conn_res, cm_res. rewrite !based_app. split_and!; try (apply based_ptr; based_tac).
  cbn [opt_fd_res]. case_match; based_tac.
Qed.
Lemma based_mr pd mr : based (mr_res pd mr).
Proof.
  unfold mr_res. apply based_app. split; [destruct (mr_mr mr)|case_bool_decide]; based_tac.
Qed.
Lemma based_regs m pd hs : based (regs m pd hs).
Proof.
  unfold regs. induction hs as [|h hs IH]; [constructor|]. cbn. apply based_app. split; [|done].
  unfold handle_res. destruct (m !! priv h); [|constructor]. apply based_app. split; [apply based_mr|based_tac].
Qed.

Lemma regs_kinds m pd hs :
  Forall (fun r => (r_key r).1 ≠ RListen ∧ (r_key r).1 ≠ RId ∧ (r_key r).1 ≠ RMisuse) (regs m pd hs).
Proof.
  unfold regs. apply Forall_concat, Forall_fmap, Forall_forall. intros h _. cbn. unfold handle_res, mr_res.
  repeat case_match; rewrite ?Forall_app; repeat split; repeat case_match; repeat constructor; done.
Qed.
Lemma regs_insert m pd hs p r : p ∉ priv <$> hs → regs (<[p := r]> m) pd hs = regs m pd hs.
Proof.
  intros Hp. unfold regs. f_equal. apply list_fmap_ext. intros i h Hh. unfold handle_res.
  rewrite lookup_insert_ne; [done|]. intros ->. apply Hp. apply list_elem_of_fmap. exists h. split; [done|].
  by eapply list_elem_of_lookup_2.
Qed.
Lemma regs_delete m pd hs p : p ∉ priv <$> hs → regs (delete p m) pd hs = regs m pd hs.
Proof.
  intros Hp. unfold regs. f_equal. apply list_fmap_ext. intros i h Hh. unfold handle_res.
  rewrite lookup_delete_ne; [done|]. intros ->. apply Hp. apply list_elem_of_fmap. exists h. split; [done|].
  by eapply list_elem_of_lookup_2.
Qed.
Lemma regs_perm m pd hs hs' : hs ≡ₚ hs' → regs m pd hs ≡ₚ regs m pd hs'.
Proof. intros Hp. unfold regs. by rewrite Hp. Qed.

(** * Reading the predicate *)

Lemma rdma_holds_idle t L0 L : holds Idle t [] L0 L ↔ qp_ t = rai_qp0 ∧ mr_listen_fd_ t < 0 ∧ L ≡ₚ L0.
Proof.
  split.
  - intros (l & ((c1 & c2 & ->) & _ & _ & Hq & Hm & _) & Ho). unfold conn_res in Ho.
    rewrite Hq in Ho. cbn [opt_fd_res] in Ho. rewrite (proj2 (Z.leb_gt 0 _)) in Ho by done. by apply own_nil in Ho.
  - intros (Hq & Hm & HL). exists []. split; [|by apply own_nil]. split; [|by repeat split; try constructor].
    exists 0, 0. unfold conn_res. rewrite Hq. cbn [opt_fd_res]. by rewrite (proj2 (Z.leb_gt 0 _)) by done.
Qed.
(** The connection under the registered buffers. *)
Lemma holds_conn ph t hs L0 L : holds ph t hs L0 L → ph ≠ Idle →
  cm_complete (qp_ t) ∧ ∃ c1 c2, own (regs (mrs t) (qp_pd (qp_ t)) hs ++ conn_res c1 c2 t) L0 L.
Proof.
  intros (l & ((c1 & c2 & ->) & _ & _ & Hp) & Ho) Hph. split; [destruct ph; [done|apply Hp..]|]. by exists c1, c2.
Qed.
Lemma holds_live ph t hs L0 L k p : holds ph t hs L0 L → ph ≠ Idle → p ≠ 0 →
  (k = RQp ∧ p = qp_qp (qp_ t) ∨ k = RCq ∧ p = qp_cq (qp_ t) ∨ k = RPd ∧ p = qp_pd (qp_ t) ∨
   k = RId ∧ p = qp_cm_id (qp_ t) ∨ k = REc ∧ p = qp_ec (qp_ t)) → live L (k, p).
Proof.
  intros Ht Hph Hp Hk. destruct (holds_conn _ _ _ _ _ Ht Hph) as (_ & c1 & c2 & Ho).
  unfold conn_res in Ho. eapply (cm_live c1 c2 (qp_ t) (regs (mrs t) (qp_pd (qp_ t)) hs ++ opt_fd_res (Some (mr_listen_fd_ t))));
    [|done|done].
  eapply own_proper; [|reflexivity|reflexivity|exact Ho]. solve_Permutation.
Qed.
(** Assignments that keep the resources keep the predicate. *)
Lemma holds_same ph t t' hs L0 L :
  holds ph t hs L0 L → mrs t' = mrs t → qp_pd (qp_ t') = qp_pd (qp_ t) →
  (∀ c1 c2, conn_res c1 c2 t' = conn_res c1 c2 t) → phase_ok ph t' hs → holds ph t' hs L0 L.
Proof.
  intros (l & ((c1 & c2 & ->) & Hnd & Hok & _) & Ho) Hm Hpd Hc Hp. eexists. split; [|exact Ho].
  split; [|by rewrite Hm]. exists c1, c2. by rewrite Hm, Hpd, Hc.
Qed.

(** * The data path *)

Lemma posted_ledger k ph t hs mr size id off L0 L :
  ph ≠ Idle → holds ph t hs L0 L →
  wp ledger_env (rc <- post k (Some (qp_ t)) mr size id off ;; if bool_decide (rc ≠ 0) then Ret (-1) else Ret 0)
    (fun _ L' => holds ph t hs L0 L') L.
Proof.
  intros Hph Ht. eapply wp_bind_2; [apply rai_post_ledger|].
  - intros Hq. eapply holds_live; [exact Ht|exact Hph|done|auto].
  - intros rc L' ->. by case_bool_decide.
Qed.
Lemma poll_ledger fuel t hs b L0 L :
  holds Connected t hs L0 L → wp ledger_env (poll fuel t b) (fun _ L' => holds Connected t hs L0 L') L.
Proof.
  intros Ht. unfold poll, rai_poll_cq. case_bool_decide as Hc; [done|].
  eapply wp_mono; [|apply poll_loop_ledger; eapply holds_live; [exact Ht|done|done|auto]].
  by intros r L' ->.
Qed.

(** The side channel of [exchange_buf] opens and closes one connection, and
    writes the advertised address and what the peer sent. *)
Lemma rdma_exchange_buf_ledger t hs h ra rk L0 L :
  holds Connected t hs L0 L →
  wp ledger_env (exchange_buf t h ra rk) (fun '(_, _, _, t') L' => holds Connected t' hs L0 L') L.
Proof.
  intros Ht. unfold exchange_buf. destruct h as [h|]; [|done]. case_bool_decide; [done|].
  destruct ra as [ra|]; [|done]. destruct rk as [rk|]; [|done]. destruct (mr_of t h ≫= mr_mr) as [m|]; [|done].
  set (qp := set_local_mr m (qp_ t)).
  assert (Hset : ∀ g L', L' ≡ₚ L → holds Connected (set_qp_ (set_remote g qp) t) hs L0 L').
  { intros g L' HL. destruct Ht as (l & Hown & Ho). exists l. split; [|by rewrite HL].
    destruct Hown as ((c1 & c2 & ->) & Hnd & Hok & Hp). split; [by exists c1, c2|done]. }
  assert (Hsame : Some qp = Some (set_remote (qp_remote qp) qp)) by (by destruct qp).
  eapply (wp_bind_2 _ _ _ (fun '(_, q) L' => (∃ g, q = Some (set_remote g qp)) ∧ L' ≡ₚ L)).
  - destruct (is_server_ t) eqn:Hs.
    + eapply wp_mono; [|apply rai_oob_accept_ledger].
      * intros [rc q] L' (_ & Hq & Ho%own_nil). done.
      * pose proof Ht as Hc. apply holds_conn in Hc as (_ & c1 & c2 & Ho); [|done].
        eapply own_live; [exact Ho|]. destruct Ht as (l & (_ & _ & _ & _ & Hm) & _). specialize (Hm Hs).
        unfold conn_res. cbn [opt_fd_res]. rewrite (proj2 (Z.leb_le 0 _)) by done.
        unfold live. rewrite !fmap_app, !elem_of_app. right. right. by left.
    + destruct (String.eqb (host_ t) ""); [cbn [wp]; eauto|].
      eapply wp_mono; [|apply rai_oob_connect_ledger]. intros [rc q] L' (_ & Hq & Ho%own_nil). done.
  - intros [rc q] L' [(g & ->) HL]. cbn [default]. case_bool_decide; by apply Hset.
Qed.

(** * Registration *)

Lemma regs_key m pd hs h : handle_ok m h → h ∈ hs → mkRes (RObj, priv h) [] ∈ regs m pd hs.
Proof.
  intros (_ & r & Hr) Hh. unfold regs. induction Hh as [|h h' hs Hh IH]; cbn; apply elem_of_app; [left|by right; apply IH].
  unfold handle_res. rewrite Hr, elem_of_app. right. by left.
Qed.
Lemma reg_buf_ledger ph t hs buf sz h L0 L :
  ph ≠ Idle → holds ph t hs L0 L →
  wp ledger_env (reg_buf t buf sz (Some h)) (fun '(rc, h', t') L' =>
    (rc = 0 ∧ ∃ n, h' = Some n ∧ addr n = buf ∧ size n = sz ∧ holds ph t' (n :: hs) L0 L') ∨
    (rc = -1 ∧ h' = Some h ∧ holds ph t' hs L0 L')) L.
Proof.
  intros Hph0 Ht. unfold reg_buf. case_bool_decide; [by right|].
  apply wp_step. intros p L1 (Hfresh & _ & Hp & ->). cbn [fits] in Hp.
  cbn [created] in Hfresh. apply Forall_inv in Hfresh. cbn [r_key] in Hfresh.
  assert (He : effect c_new p L = mkRes (RObj, p) [] :: L).
  { unfold effect. cbn. by rewrite decide_True by constructor. }
  rewrite He. destruct (holds_conn _ _ _ _ _ Ht) as (Hcc & c1 & c2 & Hown); [exact Hph0|].
  assert (Hpn : p ∉ priv <$> hs).
  { intros (h0 & -> & Hh)%list_elem_of_fmap. destruct Ht as (l & (_ & _ & Hok & _) & _).
    rewrite Forall_forall in Hok. unfold fresh in Hfresh. rewrite Forall_forall in Hfresh.
    destruct (Hfresh (mkRes (RObj, priv h0) [])) as [Hne _]; [|by apply Hne].
    destruct Hown as (-> & _ & _). apply elem_of_app. left. apply elem_of_app. left. apply regs_key; [by apply Hok|done]. }
  assert (Hnew : own [mkRes (RObj, p) []] L (mkRes (RObj, p) [] :: L)).
  { apply (own_acquire [] L L [mkRes (RObj, p) []]); [apply own_empty|by apply Forall_singleton|apply NoDup_singleton]. }
  eapply wp_bind_2; [apply (rai_mr_reg_external_ledger (qp_ t) rai_mr0)|].
  { intros Hpd. eapply own_base; [exact Hnew|]. eapply holds_live; [exact Ht|exact Hph0|done|auto]. }
  intros [rc mr] L2 [[(-> & m & b & -> & Hb & Ho2)|(-> & Hmr & Ho2)] Hbuf].
  - injection (Hbuf eq_refl) as ->. rewrite bool_decide_eq_false_2 by lia. left. split; [done|]. eexists. split; [done|]. split; [done|]. split; [done|].
    destruct Ht as (l & (_ & Hnd & Hok & Hph) & _).
    eexists. split; [|eapply own_trans; [eapply own_trans; [exact Ho2|exact Hnew]|exact Hown]]. split.
    + exists c1, c2. cbn [mrs set_mrs default qp_]. unfold regs at 2. cbn [fmap list_fmap concat].
      unfold handle_res at 1. cbn [priv]. rewrite lookup_insert_eq.
      change (concat (handle_res ?m ?d <$> hs)) with (regs m d hs). rewrite regs_insert by done.
      cbn [mr_buf] in *. unfold conn_res. cbn [qp_ set_mrs mr_listen_fd_]. by rewrite <- !app_assoc.
    + split; [|split; [|destruct ph; [done|exact Hph..]]].
      * cbn [fmap list_fmap priv]. by apply NoDup_cons.
      * cbn [mrs set_mrs default]. apply Forall_cons. split.
        -- split; [done|]. exists m. cbn [priv addr size]. by rewrite lookup_insert_eq.
        -- rewrite Forall_forall in *. intros h0 Hh0. destruct (Hok h0 Hh0) as (Hne & r & Hr). split; [done|].
           exists r. rewrite lookup_insert_ne; [done|]. intros ->. apply Hpn. by apply list_elem_of_fmap_2.
  - rewrite bool_decide_eq_true_2 by lia. apply own_nil in Ho2. rewrite <- Ho2 in Hnew.
    apply wp_step. eapply (wp_release _ _ _ _ (mkRes (RObj, p) [])); [exact Hnew| |done..|].
    + by apply Forall_singleton, not_elem_of_nil.
    + intros [] L3 _ _ Ho3%own_nil. right. split; [done|]. split; [done|].
      destruct Ht as (l & Hl & Hol). exists l. split; [done|]. by rewrite Ho3.
Qed.
Lemma dereg_buf_ledger ph t hs h hs' L0 L :
  ph ≠ Idle → holds ph t hs L0 L → hs ≡ₚ h :: hs' →
  wp ledger_env (dereg_buf t (Some h)) (fun '(h', t') L' => h' = Some handle0 ∧ holds ph t' hs' L0 L') L.
Proof.
  intros Hpne (l & ((c1 & c2 & ->) & Hnd & Hok & Hph) & Hown) Hhs. rewrite Hhs in Hnd, Hok.
  cbn [fmap list_fmap] in Hnd. apply NoDup_cons in Hnd as [Hnin Hnd]. apply Forall_cons in Hok as [[Hne [r Hr]] Hok].
  pose proof (regs_perm (mrs t) (qp_pd (qp_ t)) _ _ Hhs) as Hp. rewrite Hp in Hown. clear Hp Hhs.
  set (mr := mkRaiMr (Some r) (addr h) (size h) 0) in *. set (pd := qp_pd (qp_ t)) in *.
  set (rest := regs (mrs t) pd hs' ++ conn_res c1 c2 t).
  assert (Hb : based (mkRes (RObj, priv h) [] :: rest)).
  { apply Forall_cons. split; [constructor|]. apply based_app. split; [apply based_regs|apply based_conn]. }
  assert (Ho : own (mr_res pd mr ++ mkRes (RObj, priv h) [] :: rest) L0 L).
  { eapply own_proper; [|reflexivity|reflexivity|exact Hown]. unfold rest, regs. cbn [fmap list_fmap concat].
    unfold handle_res at 2. rewrite Hr. by rewrite <- !app_assoc. }
  clear Hown. unfold dereg_buf.
  assert (Hmr : mr_of t h = Some mr) by (unfold mr_of; by rewrite bool_decide_eq_false_2, Hr by done).
  rewrite Hmr. eapply wp_bind_2.
  { eapply rai_mr_dereg_ledger. apply (own_split _ _ _ _ Ho). apply Forall_singleton.
    apply based_unreferred; [done|]. unfold base_kind. cbn. intuition discriminate. }
  intros m' L1 [_ Ho1]. apply (own_frame _ _ _ _ _ _ Ho) in Ho1. cbn [app] in Ho1.
  rewrite bool_decide_eq_true_2 by done. cbn [bind sys call].
  eapply (wp_release _ _ _ _ (mkRes (RObj, priv h) [])); [exact Ho1| |done..|].
  - apply based_unreferred; [done|]. unfold base_kind. cbn. intuition discriminate.
  - intros [] L2 _ _ Ho2. split; [done|]. exists rest. split; [|exact Ho2]. split.
    + exists c1, c2. unfold rest. cbn [mrs set_mrs qp_]. by rewrite regs_delete.
    + split; [done|]. split; [|destruct ph; [done|exact Hph..]]. rewrite Forall_forall in *. cbn [mrs set_mrs].
      intros h0 Hh0. destruct (Hok h0 Hh0) as (Hn0 & r0 & Hr0). split; [done|]. exists r0.
      rewrite lookup_delete_ne; [done|]. intros He. apply Hnin. rewrite He. by apply list_elem_of_fmap_2.
Qed.
Lemma dereg_buf_null ph t hs h L0 L :
  ph ≠ Idle → holds ph t hs L0 L → priv h = 0 →
  wp ledger_env (dereg_buf t (Some h)) (fun '(h', t') L' => h' = Some handle0 ∧ holds ph t' hs L0 L') L.
Proof.
  intros Hpne (l & ((c1 & c2 & ->) & Hnd & Hok & Hph) & Hown) Hh. unfold dereg_buf, mr_of.
  rewrite bool_decide_eq_true_2 by done. cbn [bind rai_mr_dereg]. rewrite bool_decide_eq_false_2 by (intros Hn; by apply Hn).
  split; [done|].
  assert (Hnin : 0 ∉ priv <$> hs).
  { intros (h0 & He & Hh0)%list_elem_of_fmap. rewrite Forall_forall in Hok. destruct (Hok h0 Hh0) as [Hn _]. by apply Hn. }
  eexists. split; [|exact Hown]. split; [exists c1, c2; rewrite Hh; cbn [mrs set_mrs qp_]; by rewrite regs_delete|].
  split; [done|]. split; [|destruct ph; [done|exact Hph..]]. rewrite Forall_forall in *. intros h0 Hh0.
  destruct (Hok h0 Hh0) as (Hn & r & Hr). split; [done|]. exists r. cbn [mrs set_mrs].
  rewrite lookup_delete_ne; [done|]. by rewrite Hh.
Qed.

(** * The life of the connection *)

(** Giving back the connection and the side-channel listener, from any phase. *)
Lemma close_fd_ledger t L0 L :
  qp_ t = rai_qp0 → own (opt_fd_res (Some (mr_listen_fd_ t))) L0 L →
  wp ledger_env (if 0 <=? mr_listen_fd_ t then sys (c_close (mr_listen_fd_ t)) ;; Ret (set_mfd (-1) t) else Ret t)
    (fun t' L' => holds Idle t' [] L0 L') L.
Proof.
  intros Hq Ho. cbn [opt_fd_res] in Ho. destruct (Z.leb_spec 0 (mr_listen_fd_ t)).
  - eapply wp_close; [exact Ho|constructor|]. intros _ L' Ho'%own_nil. by apply rdma_holds_idle.
  - apply own_nil in Ho. by apply rdma_holds_idle.
Qed.
Lemma destroy_conn_ledger t c1 c2 L0 L :
  own (conn_res c1 c2 t) L0 L → cm_complete (qp_ t) ∨ qp_ t = rai_qp0 →
  wp ledger_env (rai_qp_destroy (Some (qp_ t)))
    (fun q L' => q = Some rai_qp0 ∧ own (opt_fd_res (Some (mr_listen_fd_ t))) L0 L') L.
Proof.
  intros Ho Hc. unfold conn_res in Ho.
  assert (Hm : qp_mode (qp_ t) = RAI_CONN_CM ∧ (qp_qp (qp_ t) ≠ 0 → qp_cm_id (qp_ t) ≠ 0)).
  { destruct Hc as [(Hm & _ & _ & _ & Hi & _)| ->]; [done|]. by split. }
  eapply wp_mono; [|apply (rai_qp_destroy_ledger c1 c2 _ (opt_fd_res (Some (mr_listen_fd_ t)) ++ L0))].
  - intros q L' [-> Ho']. split; [done|]. by apply (own_frame _ _ _ _ _ _ Ho) in Ho'.
  - unfold qp_res. rewrite (proj1 Hm). apply (own_split _ _ _ _ Ho). apply Forall_forall. intros r _. apply unreferred_opt_fd.
  - intros _. apply Hm.
Qed.
Lemma holds_nil ph t L0 L : holds ph t [] L0 L →
  (∃ c1 c2, own (conn_res c1 c2 t) L0 L) ∧ (cm_complete (qp_ t) ∨ qp_ t = rai_qp0).
Proof.
  intros (l & ((c1 & c2 & ->) & _ & _ & Hp) & Ho). split; [by exists c1, c2|].
  destruct ph; [right|left|left]; apply Hp.
Qed.
Lemma holds_fresh ph t c1 c2 L0 L :
  own (conn_res c1 c2 t) L0 L → phase_ok ph t [] → holds ph t [] L0 L.
Proof.
  intros Ho Hp. exists (conn_res c1 c2 t). split; [|done]. split; [by exists c1, c2|]. split; [apply NoDup_nil_2|].
  split; [apply Forall_nil_2|done].
Qed.
Lemma rdma_close_ledger ph t L0 L :
  holds ph t [] L0 L → wp ledger_env (close t) (fun t' L' => L' ≡ₚ L0 ∧ holds Idle t' [] L0 L') L.
Proof.
  intros [(c1 & c2 & Ho) Hc]%holds_nil. unfold close. eapply wp_bind_2; [by eapply destroy_conn_ledger|].
  intros q L1 [-> Ho1]. cbn [default]. eapply wp_mono; [|apply (close_fd_ledger (set_qp_ rai_qp0 t)); [done|exact Ho1]].
  intros t' L' Ht'. split; [|done]. by apply rdma_holds_idle in Ht' as (_ & _ & ?).
Qed.
Lemma reset_ledger ph t L0 L :
  holds ph t [] L0 L → wp ledger_env (reset t) (fun t' L' => holds Idle t' [] L0 L') L.
Proof.
  intros [(c1 & c2 & Ho) Hc]%holds_nil. unfold reset.
  eapply (wp_bind_2 _ _ _ (fun t' L' => qp_ t' = rai_qp0 ∧ mr_listen_fd_ t' = mr_listen_fd_ t ∧
    own (opt_fd_res (Some (mr_listen_fd_ t))) L0 L')).
  - case_bool_decide as Hq.
    + eapply wp_bind_2; [by eapply destroy_conn_ledger|]. intros q L1 [-> Ho1]. done.
    + destruct Hc as [(_ & Hn & _)|Hc]; [destruct Hq; done|]. split; [done|]. split; [done|].
      unfold conn_res in Ho. by rewrite Hc in Ho.
  - intros t' L1 (Hq & Hm & Ho1). rewrite <- Hm in Ho1. by apply close_fd_ledger.
Qed.

Definition opened (ph' : phase) (L0 : ledger) : Z * RdmaTransport → ledger → Prop := fun '(rc, t') L' =>
  rc = 0 ∧ holds ph' t' [] L0 L' ∨ rc = -1 ∧ holds Idle t' [] L0 L'.
Lemma own_base_perm l L0 L1 L : L1 ≡ₚ L0 → own l L1 L → own l L0 L.
Proof. intros HL. by rewrite HL. Qed.
Lemma rdma_connect_ledger ph t host port L0 L :
  holds ph t [] L0 L → wp ledger_env (connect t host port)
    (fun a L' => opened Connected L0 a L' ∨ host = None ∧ a = (-1, t) ∧ L' = L) L.
Proof.
  intros Ht. unfold connect. destruct host as [host|]; [|by right].
  eapply wp_bind_2; [by eapply reset_ledger|]. clear Ht. intros u L1 (Hq & Hm & HL)%rdma_holds_idle.
  eapply wp_bind_2; [apply rai_cm_connect_qp_ledger; rewrite Hq; apply blank0|].
  intros [rc qp] L2 [(-> & Hc & _ & c1 & c2 & Ho)|(-> & -> & _ & Ho)]; cbn beta iota zeta.
  - rewrite bool_decide_eq_false_2 by lia. left. left. split; [done|]. apply (own_base_perm _ _ _ _ HL) in Ho.
    apply (holds_fresh _ _ c1 c2); [|by split].
    unfold conn_res. cbn [qp_ set_qp_ mr_listen_fd_]. rewrite (TcpSpec.opt_fd_neg (mr_listen_fd_ u)) by done.
    by rewrite app_nil_r.
  - rewrite bool_decide_eq_true_2 by lia. left. right. split; [done|]. apply rdma_holds_idle. apply own_nil in Ho.
    by rewrite Ho.
Qed.
Lemma rdma_listen_ledger ph t port L0 L :
  holds ph t [] L0 L → wp ledger_env (listen t port) (opened Listening L0) L.
Proof.
  intros Ht. unfold listen.
  eapply wp_bind_2; [by eapply reset_ledger|]. clear Ht. intros u L1 (Hq & Hm & HL)%rdma_holds_idle.
  eapply wp_bind_2.
  { apply wp_and; [apply rai_cm_listen_qp_ledger; [rewrite Hq; apply blank0|by intros fd [= <-]]|].
    apply (cm_listen_fd_some ledger_env (qp_ u) port (mr_listen_fd_ u)). }
  intros [[rc qp] fd] L2 [[(-> & Hc & Hfd & c1 & c2 & Ho)|(-> & -> & Hfd & Ho)] [f ->]]; cbn [default].
  - rewrite bool_decide_eq_false_2 by lia. left. split; [done|]. apply (own_base_perm _ _ _ _ HL) in Ho.
    specialize (Hfd f eq_refl). apply (holds_fresh _ _ c1 c2); [|by split].
    eapply own_proper; [|reflexivity|reflexivity|exact Ho]. unfold conn_res. cbn [qp_ mr_listen_fd_]. solve_Permutation.
  - rewrite bool_decide_eq_true_2 by lia. right. split; [done|]. apply rdma_holds_idle. apply own_nil in Ho.
    split; [done|]. split; [|by rewrite Ho]. cbn in *. destruct (Z.leb_spec 0 f); [done|]. done.
Qed.
Lemma rdma_accept_ledger t hs L0 L :
  holds Listening t hs L0 L → wp ledger_env (accept t) (fun '(rc, t') L' =>
    rc = 0 ∧ holds Connected t' hs L0 L' ∨ rc = -1 ∧ holds Listening t' hs L0 L') L.
Proof.
  intros (l & ((c1 & c2 & ->) & Hnd & Hok & Hc & Hs & Hm) & Ho).
  set (rest := regs (mrs t) (qp_pd (qp_ t)) hs ++ opt_fd_res (Some (mr_listen_fd_ t))).
  assert (Ho' : own (rest ++ cm_res c1 c2 (qp_ t)) L0 L).
  { eapply own_proper; [|done..|exact Ho]. unfold rest, conn_res. solve_Permutation. }
  unfold accept. eapply wp_bind_2.
  { apply (rai_cm_accept_qp_beside rest c1 c2 (qp_ t) L0 L Ho'); [|apply Hc..].
    unfold rest. apply Forall_app. split.
    { eapply Forall_impl; [apply regs_kinds|]. cbn. tauto. }
    cbn. case_match; repeat constructor; done. }
  intros rc L1 [_ HL].
  assert (Hh : ∀ ph, phase_ok ph t hs → holds ph t hs L0 L1).
  { intros ph Hp. eexists. split; [|rewrite HL; exact Ho]. split; [by exists c1, c2|done]. }
  case_bool_decide; [right|left]; (split; [done|]); apply Hh; [done|]. by split.
Qed.

(** * The laws *)

Lemma owns_closed ph t hs c1 c2 :
  Forall (handle_ok (mrs t)) hs → phase_ok ph t hs →
  self_contained hs (regs (mrs t) (qp_pd (qp_ t)) hs ++ conn_res c1 c2 t).
Proof.
  intros Hok Hp. set (l := regs _ _ _ ++ _).
  assert (Hptr : ∀ k ps p r, r ∈ ptr_res k ps p → r = mkRes (k, p) ps).
  { intros k ps p r. unfold ptr_res. case_bool_decide; [by intros ->%list_elem_of_singleton|by intros ?%elem_of_nil]. }
  assert (Hidle : hs = [] ∧ qp_ t = rai_qp0 ∨ cm_complete (qp_ t)).
  { destruct ph; [left|right; apply Hp..]. by split; apply Hp. }
  destruct Hidle as [[-> Hq]|(_ & Hqp & Hcq & Hpd & Hid & Hec)].
  { unfold l, conn_res. rewrite Hq. apply Forall_forall. cbn. intros r Hr. case_match; [|by apply elem_of_nil in Hr].
    by apply list_elem_of_singleton in Hr as ->. }
  assert (Hkey : ∀ k p, p ≠ 0 → (k = RCq ∧ p = qp_cq (qp_ t) ∨ k = RPd ∧ p = qp_pd (qp_ t) ∨
    k = RId ∧ p = qp_cm_id (qp_ t) ∨ k = REc ∧ p = qp_ec (qp_ t)) → (k, p) ∈ r_key <$> l).
  { assert (Hin : ∀ k ps p, p ≠ 0 → (k, p) ∈ r_key <$> ptr_res k ps p).
    { intros k ps p Hn. unfold ptr_res. rewrite bool_decide_eq_true_2 by done. by left. }
    intros k p Hn Hk. unfold l, conn_res, cm_res. rewrite !fmap_app, !elem_of_app. right. left.
    destruct Hk as [[-> ->]|[[-> ->]|[[-> ->]|[-> ->]]]]; auto 6. }
  apply Forall_forall. intros r [Hr|Hr]%elem_of_app.
  - unfold regs in Hr. apply list_elem_of_In, in_concat in Hr as (lh & (h & <- & Hh)%in_map_iff & Hr).
    apply list_elem_of_In in Hh, Hr. rewrite Forall_forall in Hok. destruct (Hok h Hh) as (_ & m & Hm).
    unfold handle_res in Hr. rewrite Hm in Hr. cbn in Hr.
    apply elem_of_cons in Hr as [->|Hr]; [|apply list_elem_of_singleton in Hr as ->]; (split; [done|]; split; [done|]); cbn.
    + apply Forall_cons. split; [left; auto 6|]. apply Forall_singleton. right. right. by apply (list_elem_of_fmap_2 (fun h => (RMem, addr h))).
    + constructor.
  - unfold conn_res, cm_res in Hr. rewrite !elem_of_app in Hr.
    destruct Hr as [[Hr|[Hr|[Hr|[Hr|Hr]]]]|Hr]; try (apply Hptr in Hr as ->; split; [done|]; split; [done|]; cbn;
      repeat (apply Forall_cons; split); try apply Forall_nil; auto 8).
    cbn in Hr. case_match; [|by apply elem_of_nil in Hr]. by apply list_elem_of_singleton in Hr as ->.
Qed.

#[export] Instance rdma_laws : TransportLaws RdmaTransport.
Proof.
  refine {| t_owns := owns |}.
  - intros ph t hs l ((c1 & c2 & ->) & _ & Hok & Hp). by apply (owns_closed ph).
  - intros ph t hs l ((c1 & c2 & ->) & _). apply Forall_app. split.
    + eapply Forall_impl; [apply regs_kinds|]. cbn. tauto.
    + unfold conn_res, cm_res. rewrite !Forall_app.
      split_and!; unfold ptr_res; cbn; repeat case_match; repeat constructor; done.
  - intros t host port L0 L Ht. eapply wp_mono; [|by eapply rdma_connect_ledger].
    intros [rc t'] L' [Ho|(_ & [= -> ->] & ->)]; [exact Ho|by right].
  - intros t port L0 L Ht. by eapply rdma_listen_ledger.
  - apply rdma_accept_ledger.
  - apply reg_buf_ledger.
  - apply dereg_buf_ledger.
  - apply dereg_buf_null.
  - done.
  - intros t hs [h|] len id off L0 L Ht; try done; by apply (posted_ledger PSend Connected).
  - intros ph t hs [h|] len id off L0 L Hp Ht; try done. apply (posted_ledger PRecv ph); [|done].
    by destruct Hp as [->|[-> _]].
  - intros t hs [h|] ra rk len id off L0 L Ht; try done.
    by apply (posted_ledger (PWrite [SEND_SIGNALED] (u64 (ra + off)) rk) Connected).
  - intros t hs [h|] ra rk len id off L0 L Ht; try done.
    by apply (posted_ledger (PRead (u64 (ra + off)) rk) Connected).
  - apply poll_ledger.
  - apply rdma_exchange_buf_ledger.
  - apply rdma_close_ledger.
Defined.

(** C26. The RDMA backend, by contrast, gives back a previous connection and its
    side-channel listener before it makes another: from any phase, connecting or
    listening again, whatever fails, and closing leaves nothing behind. *)
Theorem rdma_reconnect_clean (ph : phase) (t : RdmaTransport) (again : option (option string)) (port : Z) (L0 L : ledger) :
  holds ph t [] L0 L →
  wp ledger_env
    (let! (_, t) := match again with Some host => connect t host port | None => listen t port end in close t)
    (fun t' L' => holds Idle t' [] L0 L' ∧ L' ≡ₚ L0) L.
Proof.
  intros Ht. eapply (wp_bind_2 _ _ _ (fun '(_, t') L' => ∃ ph', holds ph' t' [] L0 L')).
  - destruct again as [host|].
    + eapply wp_mono; [|by eapply rdma_connect_ledger].
      intros [rc t'] L' [[[_ Ho]|[_ Ho]]|(_ & [= _ ->] & ->)]; eauto.
    + eapply wp_mono; [|by eapply rdma_listen_ledger]. intros [rc t'] L' [[_ Ho]|[_ Ho]]; eauto.
  - intros [rc t'] L' (ph' & Ho). eapply wp_mono; [|by eapply rdma_close_ledger]. by intros t'' L'' [? ?].
Qed.

Definition demo_listening : RdmaTransport := mkRdma demo_cm 7000 8 true EmptyString ∅.
Lemma demo_listening_holds : holds Listening demo_listening [] [] (conn_res 0 0 demo_listening).
Proof.
  apply (holds_fresh Listening demo_listening 0 0).
  - split; [by rewrite app_nil_r|]. split; [apply (bool_decide_unpack _); vm_compute; reflexivity|].
    apply Forall_forall. intros r _. constructor.
  - split; [|split; [reflexivity|discriminate]]. repeat split; discriminate.
Qed.
Lemma rdma_reconnect_clean_witness :
  wp ledger_env (let! (_, t) := connect demo_listening (Some "10.0.0.1"%string) 7000 in close t)
    (fun t' L' => holds Idle t' [] [] L' ∧ L' ≡ₚ []) (conn_res 0 0 demo_listening).
Proof.
  apply (rdma_reconnect_clean Listening demo_listening (Some (Some "10.0.0.1"%string)) 7000 [] _ demo_listening_holds).
Defined.

End RdmaSpec.
