(* ===== verification/KvCache.v ===== *)
(** Phase 4, [kv_cache.hpp], [kv_server.cpp] and [kv_bench.cpp]: the slab of
    fixed-size slots, the control protocol that hands them out, and the client
    that fills and reads one. *)
From stdpp Require Import strings sorting.
From S2P Require Import Prelude Prog Libc Sys Endpoint Transport.

Definition KV_MSG_ALLOC : Z := 0.
Definition KV_MSG_FREE : Z := 1.
Definition KV_MSG_META : Z := 2.

(** [free_list] is the vector, its [back] at the end.  [mem] and [mem_size] are
    the vector's data pointer and size. *)
Record KVPool := mkPool { mem : Z; mem_size : Z; slot_size : Z; num_slots : Z; free_list : list Z }.
Definition set_free_list l p := mkPool (mem p) (mem_size p) (slot_size p) (num_slots p) l.
Record KVRemote := mkRemote { base_addr : Z; rkey : Z; r_slot_size : Z; r_num_slots : Z }.

(** [union CtrlBuf] at address [a]: [msg[0]] and [meta.num_slots] are the first
    four bytes, [msg[1]] the next four, [meta.slot_size] the last eight. *)
Definition sizeof_int : Z := 4.
Definition sizeof_msg : Z := 8.
Definition sizeof_meta : Z := 16.
Definition sizeof_CtrlBuf : Z := 16.
Definition load_int (a : Z) : sysM Z := d <- sys (c_load a sizeof_int) ;; Ret (int_val d).
Definition store_int (a z : Z) : sysM unit := sys (c_store a (int_bytes z)).
Definition load_size (a : Z) : sysM Z := d <- sys (c_load a 8) ;; Ret (le_val d).
Definition store_size (a z : Z) : sysM unit := sys (c_store a (le_bytes 8 z)).

(** A poll spins until a completion is there; a function that polls answers None
    when the fuel of the poll ran out. *)
Notation "x <~ p ;; q" := (bind p (fun r => match r with None => Ret None | Some x => q end))
  (at level 100, p at next level, right associativity) : prog_scope.

(** [op != 0 || t->poll (nullptr) != 0] *)
Definition failed_poll {T} `{Transport T} (pf : nat) (t : T) : sysM (option bool) :=
  p <- t_poll pf t false ;;
  Ret (match p with Some (rc, _) => Some (bool_decide (rc ≠ 0)) | None => None end).
Definition paired {T} `{Transport T} (pf : nat) (t : T) (op : sysM Z) : sysM (option bool) :=
  rc <- op ;;
  if bool_decide (rc ≠ 0) then Ret (Some true) else failed_poll pf t.

(** * The server *)

Module Server.

Record Config := mkConfig { port : Z; c_num_slots : Z; c_slot_size : Z }.
(** [argv] with the program's name; the two sizes are uninitialised before. *)
Definition config_parse (argv : list string) (cfg : Config) : Z * Config :=
  match argv with
  | _ :: p :: n :: sz :: _ =>
    let cfg := mkConfig (atoi p) (atoi n) (u64 (atoi sz)) in
    if bool_decide (c_num_slots cfg ≤ 0 ∨ c_slot_size cfg = 0) then (-1, cfg) else (0, cfg)
  | _ => (-1, cfg)
  end.

(** [free_list.back ()] and [pop_back ()], or -1 from an empty list;
    [free_list.push_back (i)]. *)
Definition pool_alloc (pool : KVPool) : Z * KVPool :=
  match last (free_list pool) with
  | Some i => (i, set_free_list (take (length (free_list pool) - 1) (free_list pool)) pool)
  | None => (-1, pool)
  end.
Definition pool_free (i : Z) (pool : KVPool) : KVPool := set_free_list (free_list pool ++ [i]) pool.

Section server.
Context {T : Type} `{Transport T} (pf : nat).

Definition handshake_meta (pool : KVPool) (ctrl : T) (ctrl_sb : ScopedBuffer) : sysM (option Z) :=
  let h := sb_h ctrl_sb in
  let ctrl_buf := addr h in
  failed <~ paired pf ctrl (t_recv_async ctrl (Some h) sizeof_int 0 0) ;;
  if (failed : bool) then Ret (Some (-1)) else
  m <- load_int ctrl_buf ;;
  if bool_decide (m ≠ KV_MSG_META) then Ret (Some (-1)) else
  store_int ctrl_buf (num_slots pool) ;;
  store_size (ctrl_buf + 8) (slot_size pool) ;;
  failed <~ paired pf ctrl (t_send_async ctrl (Some h) sizeof_meta 0 0) ;;
  if (failed : bool) then Ret (Some (-1)) else Ret (Some 0).

(** One request. [inl rc]: the loop returns; [inr pool]: it goes on. *)
Definition serve_one (pool : KVPool) (ctrl : T) (ctrl_sb : ScopedBuffer) : sysM (option ((Z * KVPool) + KVPool)) :=
  let h := sb_h ctrl_sb in
  let ctrl_buf := addr h in
  failed <~ paired pf ctrl (t_recv_async ctrl (Some h) sizeof_msg 0 0) ;;
  if (failed : bool) then Ret (Some (inl (0, pool))) else
  msg <- load_int ctrl_buf ;;
  if msg =? KV_MSG_ALLOC then
    let '(slot_idx, pool) := pool_alloc pool in
    store_int ctrl_buf slot_idx ;;
    failed <~ paired pf ctrl (t_send_async ctrl (Some h) sizeof_int 0 0) ;;
    if (failed : bool) then Ret (Some (inl (-1, pool))) else Ret (Some (inr pool))
  else if msg =? KV_MSG_FREE then
    slot_idx <- load_int (ctrl_buf + 4) ;;
    if (slot_idx <? 0) || (num_slots pool <=? slot_idx) then Ret (Some (inl (-1, pool))) else
    let pool := pool_free slot_idx pool in
    store_int ctrl_buf 0 ;;
    failed <~ paired pf ctrl (t_send_async ctrl (Some h) sizeof_int 0 0) ;;
    if (failed : bool) then Ret (Some (inl (-1, pool))) else Ret (Some (inr pool))
  else Ret (Some (inl (-1, pool))).
(** [while (1)], at most [fuel] requests. *)
Fixpoint serve (fuel : nat) (pool : KVPool) (ctrl : T) (ctrl_sb : ScopedBuffer) : sysM (option (Z * KVPool)) :=
  match fuel with
  | O => Ret None
  | S fuel =>
    r <~ serve_one pool ctrl ctrl_sb ;;
    match r with inl res => Ret (Some res) | inr pool => serve fuel pool ctrl ctrl_sb end
  end.
End server.
End Server.

(** * The client *)

Module Client.

Section client.
Context {T : Type} `{Transport T} (pf : nat).

Definition handshake_meta (remote : KVRemote) (ctrl : T) (ctrl_sb : ScopedBuffer) : sysM (option (Z * KVRemote)) :=
  let h := sb_h ctrl_sb in
  let ctrl_buf := addr h in
  store_int ctrl_buf KV_MSG_META ;;
  failed <~ paired pf ctrl (t_send_async ctrl (Some h) sizeof_int 0 0) ;;
  if (failed : bool) then Ret (Some (-1, remote)) else
  failed <~ paired pf ctrl (t_recv_async ctrl (Some h) sizeof_meta 0 0) ;;
  if (failed : bool) then Ret (Some (-1, remote)) else
  n <- load_int ctrl_buf ;;
  sz <- load_size (ctrl_buf + 8) ;;
  Ret (Some (0, mkRemote (base_addr remote) (rkey remote) sz n)).

Definition kv_alloc (slot_idx : Z) (ctrl : T) (ctrl_sb : ScopedBuffer) : sysM (option (Z * Z)) :=
  let h := sb_h ctrl_sb in
  let ctrl_buf := addr h in
  store_int ctrl_buf KV_MSG_ALLOC ;;
  store_int (ctrl_buf + 4) 0 ;;
  failed <~ paired pf ctrl (t_send_async ctrl (Some h) sizeof_msg 0 0) ;;
  if (failed : bool) then Ret (Some (-1, slot_idx)) else
  failed <~ paired pf ctrl (t_recv_async ctrl (Some h) sizeof_int 0 0) ;;
  if (failed : bool) then Ret (Some (-1, slot_idx)) else
  slot_idx <- load_int ctrl_buf ;;
  Ret (Some (0, slot_idx)).

Definition kv_free (slot_idx : Z) (ctrl : T) (ctrl_sb : ScopedBuffer) : sysM (option Z) :=
  let h := sb_h ctrl_sb in
  let ctrl_buf := addr h in
  store_int ctrl_buf KV_MSG_FREE ;;
  store_int (ctrl_buf + 4) slot_idx ;;
  failed <~ paired pf ctrl (t_send_async ctrl (Some h) sizeof_msg 0 0) ;;
  if (failed : bool) then Ret (Some (-1)) else
  failed <~ paired pf ctrl (t_recv_async ctrl (Some h) sizeof_int 0 0) ;;
  if (failed : bool) then Ret (Some (-1)) else
  ack <- load_int ctrl_buf ;;
  if bool_decide (ack ≠ 0) then Ret (Some (-1)) else Ret (Some 0).
End client.
End Client.
