(* ===== verification/KvSpec.v ===== *)
(** What the control protocol does: the server is the slot pool behind a byte
    stream, and a client's calls return what the pool would answer. *)
From stdpp Require Import strings.
From S2P Require Import Prelude Prog Sys Endpoint Transport TcpBackend TcpSpec KvCache.
Import Tcp TcpSpec.

(** * One message *)

(** The control buffer as registered by both sides. *)
Definition ctrl_handle (h : BufferHandle) : Prop := addr h ≠ 0 ∧ size h = sizeof_CtrlBuf.
Definition fits_ctrl (len : Z) : Prop := 0 < len ≤ sizeof_CtrlBuf.
Lemma ctrl_xfer h len : ctrl_handle h → fits_ctrl len → xfer_ok h len 0 = true.
Proof.
  intros [Ha Hs] [H0 H1]. unfold xfer_ok. rewrite Z.add_0_r, u64_small by (unfold sizeof_CtrlBuf in H1; lia).
  apply bool_decide_eq_true_2. rewrite Hs. lia.
Qed.

Section messages.
Context (pf : nat) (t : TcpTransport) (h : BufferHandle).
Hypothesis Hh : ctrl_handle h.

Lemma paired_send len id s : fits_ctrl len →
  wp endp_env (paired pf t (t_send_async t (Some h) len id 0)) (fun r s' =>
    ∃ f rc, r = Some f ∧ sent (addr h) len s rc s' ∧ (f = false → rc = 0)) s.
Proof.
  intros Hl. unfold paired. eapply wp_bind_2; [apply send_async_endp; unfold fits_ctrl in Hl; lia|].
  rewrite ctrl_xfer, Z.add_0_r by done. intros rc s' Hs. case_bool_decide; cbn.
  - by exists true, rc.
  - exists false, rc. split; [done|]. split; [done|]. intros _. lia.
Qed.
Lemma paired_recv len id s : fits_ctrl len →
  wp endp_env (paired pf t (t_recv_async t (Some h) len id 0)) (fun r s' =>
    ∃ f rc d, r = Some f ∧ received (addr h) len s rc d s' ∧ (f = false → rc = 0)) s.
Proof.
  intros Hl. unfold paired. eapply wp_bind_2; [apply recv_async_endp; unfold fits_ctrl in Hl; lia|].
  rewrite ctrl_xfer, Z.add_0_r by done. intros rc s' (d & Hs). case_bool_decide; cbn.
  - by exists true, rc, d.
  - exists false, rc, d. split; [done|]. split; [done|]. intros _. lia.
Qed.
End messages.
Lemma load_received m m' a d i n :
  (∀ x, m' x = store m a d x) → 0 ≤ i → 0 ≤ n → i + n ≤ Z.of_nat (length d) →
  load m' (a + i) n = take (Z.to_nat n) (drop (Z.to_nat i) d).
Proof. intros Hm Hi Hn Hd. rewrite <- (load_store_sub m a d i n) by done. apply load_ext. intros x _. apply Hm. Qed.

(** * The pool *)

(** A request as the server decodes it, and the answer of the pool; None for
    one the server refuses. *)
Definition request := (Z * Z)%type.
Definition decode_request (d : list Z) : request := (int_val (take 4 d), int_val (take 4 (drop 4 d))).
Definition encode_request (q : request) : list Z := int_bytes q.1 ++ int_bytes q.2.
Definition answer (q : request) (pool : KVPool) : option (Z * KVPool) :=
  let '(msg, arg) := q in
  if msg =? KV_MSG_ALLOC then Some (Server.pool_alloc pool)
  else if msg =? KV_MSG_FREE then
    if (arg <? 0) || (num_slots pool <=? arg) then None else Some (0, Server.pool_free arg pool)
  else None.
(** The answers to a sequence of requests, up to the first refusal. *)
Fixpoint answers (qs : list request) (pool : KVPool) : list Z * KVPool :=
  match qs with
  | [] => ([], pool)
  | q :: qs => match answer q pool with
               | Some (z, pool) => let '(zs, pool) := answers qs pool in (z :: zs, pool)
               | None => ([], pool)
               end
  end.
Lemma answers_snoc qs q pool zs pool1 z pool2 :
  answers qs pool = (zs, pool1) → length zs = length qs → answer q pool1 = Some (z, pool2) →
  answers (qs ++ [q]) pool = (zs ++ [z], pool2).
Proof.
  revert pool zs. induction qs as [|q0 qs IH]; intros pool zs; cbn.
  - intros [= <- <-] _ ->. done.
  - destruct (answer q0 pool) as [[z0 pool0]|] eqn:Hq0; [|by intros [= <- _]].
    destruct (answers qs pool0) as [zs0 p0] eqn:Hqs. intros [= <- ->] [= Hlen] Hq.
    by rewrite (IH pool0 zs0 Hqs Hlen Hq).
Qed.
Lemma answers_prefix qs qs' pool : (answers qs pool).1 `prefix_of` (answers (qs ++ qs') pool).1.
Proof.
  revert pool. induction qs as [|q qs IH]; intros pool; cbn; [apply prefix_nil|].
  destruct (answer q pool) as [[z pool']|]; [|done]. specialize (IH pool').
  destruct (answers qs pool') as [zs p1], (answers (qs ++ qs') pool') as [zs' p2]. cbn in *. by apply prefix_cons.
Qed.
Lemma answers_take qs k pool : (k ≤ length (answers qs pool).1)%nat →
  (answers (take k qs) pool).1 = take k (answers qs pool).1.
Proof.
  revert k pool. induction qs as [|q qs IH]; intros [|k] pool; cbn; try done.
  destruct (answer q pool) as [[z pool']|]; [|done]. specialize (IH k pool').
  destruct (answers qs pool') as [zs p1]. destruct (answers (take k qs) pool') as [zs' p2]. cbn in *. intros Hk.
  rewrite IH by lia. done.
Qed.

(** * The server *)

Section server.
Context (pf : nat) (t : TcpTransport) (sb : ScopedBuffer).
Hypothesis Hh : ctrl_handle (sb_h sb).
Abbreviation a := (addr (sb_h sb)).

Lemma load_int_wp {A} x (f : Z → sysM A) Q s :
  wp endp_env (f (int_val (load (emem s) x 4))) Q s → wp endp_env (bind (load_int x) f) Q s.
Proof. intros Hf d s' [-> ->]. exact Hf. Qed.
Lemma store_int_wp {A} x z (f : unit → sysM A) Q s :
  wp endp_env (f tt) Q (mkEndp (store (emem s) x (int_bytes z)) (egot s) (eput s)) →
  wp endp_env (bind (store_int x z) f) Q s.
Proof. intros Hf [] s' ->. exact Hf. Qed.

(** One request: what was read, and what became of it. *)
Definition one_end (pool : KVPool) (s : endp) (r : option ((Z * KVPool) + KVPool)) (s' : endp) : Prop :=
  ∃ d, egot s' = egot s ++ d ∧ Z.of_nat (length d) ≤ 8 ∧
  ((r = Some (inl (0, pool)) ∧ eput s' = eput s) ∨
   (length d = 8%nat ∧ r = Some (inl (-1, pool)) ∧ answer (decode_request d) pool = None ∧ eput s' = eput s) ∨
   (length d = 8%nat ∧ ∃ z pool', answer (decode_request d) pool = Some (z, pool') ∧
      ((r = Some (inr pool') ∧ eput s' = eput s ++ int_bytes z) ∨
       (r = Some (inl (-1, pool')) ∧ ∃ k, eput s' = eput s ++ take k (int_bytes z))))).

(** Sending the answer [z] and going on with [pool']. *)
Lemma reply_wp z pool' s :
  wp endp_env
    (store_int a z ;;
     failed <~ paired pf t (t_send_async t (Some (sb_h sb)) sizeof_int 0 0) ;;
     if (failed : bool) then Ret (Some (inl (-1, pool'))) else Ret (Some (inr pool' : (Z * KVPool) + KVPool)))
    (fun r s' => egot s' = egot s ∧
      ((r = Some (inr pool') ∧ eput s' = eput s ++ int_bytes z) ∨
       (r = Some (inl (-1, pool')) ∧ ∃ k, eput s' = eput s ++ take k (int_bytes z)))) s.
Proof.
  apply store_int_wp. eapply wp_bind_2; [by apply paired_send|].
  intros r s' (f & rc & -> & (_ & Hg & (k & Hk) & Hrc) & Hf). cbn [egot eput emem] in *.
  pose proof (load_store (emem s) a (int_bytes z)) as Hl. change (Z.of_nat (length (int_bytes z))) with sizeof_int in Hl.
  rewrite Hl in *. destruct f; cbn.
  - split; [done|]. right. split; [done|]. by exists k.
  - split; [done|]. left. split; [done|]. destruct Hrc as [[_ ?]| ->]; [done|]. specialize (Hf eq_refl). lia.
Qed.
Lemma serve_one_endp pool s :
  wp endp_env (Server.serve_one pf pool t sb) (one_end pool s) s.
Proof.
  unfold Server.serve_one. eapply wp_bind_2; [by apply paired_recv|].
  intros r s1 (f & rc & d & -> & (Hg & Hp & Hm & Hl & Hrc) & Hf). destruct f.
  { exists d. split; [done|]. split; [done|]. by left. }
  specialize (Hf eq_refl). assert (Hd : Z.of_nat (length d) = 8) by (destruct Hrc as [[_ ?]| ->]; [done|lia]).
  assert (Hd8 : length d = 8%nat) by lia. clear Hl Hrc Hf.
  assert (H0 : load (emem s1) a 4 = take 4 d).
  { pose proof (load_received (emem s) (emem s1) a d 0 4 Hm ltac:(lia) ltac:(lia) ltac:(lia)) as H0.
    by rewrite Z.add_0_r in H0. }
  assert (H4 : load (emem s1) (a + 4) 4 = take 4 (drop 4 d)).
  { exact (load_received (emem s) (emem s1) a d 4 4 Hm ltac:(lia) ltac:(lia) ltac:(lia)). }
  apply load_int_wp. rewrite H0.
  assert (Hreply : ∀ z pool' q, answer (decode_request d) pool = Some (z, pool') → q s1 →
    wp endp_env (store_int a z ;; failed <~ paired pf t (t_send_async t (Some (sb_h sb)) sizeof_int 0 0) ;;
       if (failed : bool) then Ret (Some (inl (-1, pool'))) else Ret (Some (inr pool' : (Z * KVPool) + KVPool))) (one_end pool s) s1).
  { intros z pool' q Ha _. eapply wp_mono; [|apply reply_wp]. intros r s' [Hg' Hr]. exists d.
    rewrite Hg', Hg, <- Hp. split; [done|]. split; [lia|]. right. right. split; [done|]. by exists z, pool'. }
  unfold answer, decode_request in Hreply. destruct (int_val (take 4 d) =? KV_MSG_ALLOC) eqn:Halloc.
  { destruct (Server.pool_alloc pool) as [z pool'] eqn:Hpa. by apply (Hreply z pool' (fun _ => True)). }
  destruct (int_val (take 4 d) =? KV_MSG_FREE) eqn:Hfree.
  - apply load_int_wp. rewrite H4. destruct (_ || _) eqn:Hrange.
    + exists d. split; [done|]. split; [lia|]. right. left. split; [done|]. split; [done|]. split; [|done].
      unfold answer, decode_request. by rewrite Halloc, Hfree, Hrange.
    + by apply (Hreply 0 _ (fun _ => True)).
  - exists d. split; [done|]. split; [lia|]. right. left. split; [done|]. split; [done|]. split; [|done].
    unfold answer, decode_request. by rewrite Halloc, Hfree.
Qed.
End server.

(** How a run of the loop ends: after the requests [qs], all answered, the
    stream stopped, a request was refused, or an answer could not be sent. With
    the fuel used up it is still running. *)
Inductive serve_last : KVPool → list Z → list Z → option (Z * KVPool) → list Z → Prop :=
| Running pool out : serve_last pool out [] None out
| Disconnected pool out last : Z.of_nat (length last) ≤ 8 → serve_last pool out last (Some (0, pool)) out
| Refused pool out last :
    length last = 8%nat → answer (decode_request last) pool = None → serve_last pool out last (Some (-1, pool)) out
| Unsent pool out last z pool' k :
    length last = 8%nat → answer (decode_request last) pool = Some (z, pool') →
    serve_last pool out last (Some (-1, pool')) (out ++ take k (int_bytes z)).
Inductive serve_end (pool : KVPool) (s : endp) (r : option (Z * KVPool)) (s' : endp) : Prop :=
| ServeEnd qs last zs pool1 :
    Forall (fun q => length q = 8%nat) qs →
    egot s' = egot s ++ concat qs ++ last →
    answers (decode_request <$> qs) pool = (zs, pool1) → length zs = length qs →
    serve_last pool1 (eput s ++ concat (int_bytes <$> zs)) last r (eput s') →
    serve_end pool s r s'.

Section serving.
Context (pf : nat) (t : TcpTransport) (sb : ScopedBuffer).
Hypothesis Hh : ctrl_handle (sb_h sb).

Lemma serve_end_cons pool s d z pool1 s1 r s' :
  length d = 8%nat → egot s1 = egot s ++ d → answer (decode_request d) pool = Some (z, pool1) →
  eput s1 = eput s ++ int_bytes z → serve_end pool1 s1 r s' → serve_end pool s r s'.
Proof.
  intros Hd Hg Ha Hp [qs last zs pool2 Hqs Hgot Hans Hlen Hlast].
  apply (ServeEnd pool s r s' (d :: qs) last (z :: zs) pool2).
  - by apply Forall_cons.
  - rewrite Hgot, Hg. cbn. by rewrite <- !app_assoc.
  - cbn [fmap list_fmap answers]. by rewrite Ha, Hans.
  - cbn. by rewrite Hlen.
  - rewrite Hp in Hlast. cbn. by rewrite <- app_assoc in Hlast.
Qed.
Lemma serve_endp fuel pool s : wp endp_env (Server.serve pf fuel pool t sb) (serve_end pool s) s.
Proof.
  revert pool s. induction fuel as [|fuel IH]; intros pool s; cbn [Server.serve].
  { apply (ServeEnd pool s None s [] [] [] pool); cbn; rewrite ?app_nil_r; try done. constructor. }
  eapply wp_bind_2; [by apply serve_one_endp|]. intros r s1 (d & Hg & Hl & Hr).
  assert (Hstop : ∀ res, serve_last pool (eput s) d (Some res) (eput s1) →
    wp endp_env (Ret (Some res)) (serve_end pool s) s1).
  { intros res Hlast. apply (ServeEnd pool s _ _ [] d [] pool); cbn; rewrite ?app_nil_r; done. }
  destruct Hr as [(-> & Hp)|[(Hd & -> & Ha & Hp)|(Hd & z & pool' & Ha & [(-> & Hp)|(-> & k & Hp)])]].
  - apply Hstop. rewrite Hp. by constructor.
  - apply Hstop. rewrite Hp. by constructor.
  - eapply wp_mono; [|apply IH]. intros r' s' He. by eapply serve_end_cons.
  - apply Hstop. rewrite Hp. by econstructor.
Qed.

(** The metadata exchange. *)
Definition meta_bytes (n sz : Z) : list Z → Prop := fun d =>
  length d = 16%nat ∧ int_val (take 4 d) = n ∧ le_val (drop 8 d) = sz.
Lemma meta_image m a n sz : is_int n → 0 ≤ sz < 2 ^ 64 →
  meta_bytes n sz (load (store (store m a (int_bytes n)) (a + 8) (le_bytes 8 sz)) a sizeof_meta).
Proof.
  intros Hn Hsz. set (m' := store (store _ _ _) _ _).
  assert (Hsplit : load m' a sizeof_meta = load m' a 4 ++ load m' (a + 4) 4 ++ load m' (a + 8) 8).
  { change sizeof_meta with (4 + (4 + 8)). rewrite !load_app by lia. do 3 f_equal. lia. }
  assert (H8 : load m' (a + 8) 8 = le_bytes 8 sz) by exact (load_store (store m a (int_bytes n)) (a + 8) (le_bytes 8 sz)).
  assert (H4 : load m' a 4 = int_bytes n).
  { subst m'. rewrite load_store_other by lia. exact (load_store m a (int_bytes n)). }
  assert (Hgap : length (load m' (a + 4) 4) = 4%nat) by (pose proof (length_load m' (a + 4) 4 ltac:(lia)); lia).
  rewrite Hsplit, H4, H8. split; [by rewrite !length_app, Hgap|]. split.
  - rewrite take_app_le, take_ge by done. by apply int_roundtrip.
  - rewrite app_assoc, drop_app_length' by by rewrite length_app, Hgap.
    apply le_val_bytes_small. by change (256 ^ Z.of_nat 8) with (2 ^ 64).
Qed.
Lemma server_meta_endp pool s :
  is_int (num_slots pool) → 0 ≤ slot_size pool < 2 ^ 64 →
  wp endp_env (Server.handshake_meta pf pool t sb) (fun r s' =>
    ∃ rc d out, r = Some rc ∧ egot s' = egot s ++ d ∧ eput s' = eput s ++ out ∧
      (rc = 0 ∧ length d = 4%nat ∧ int_val d = KV_MSG_META ∧ meta_bytes (num_slots pool) (slot_size pool) out ∨
       rc = -1 ∧ ∃ full, meta_bytes (num_slots pool) (slot_size pool) full ∧ out `prefix_of` full)) s.
Proof.
  intros Hn Hsz. unfold Server.handshake_meta.
  assert (Hsome : ∃ full, meta_bytes (num_slots pool) (slot_size pool) full) by (eexists; by apply (meta_image (fun _ => 0) 0)).
  assert (Hfail : ∀ d s', egot s' = egot s ++ d → eput s' = eput s →
    ∃ rc d' out, Some (-1) = Some rc ∧ egot s' = egot s ++ d' ∧ eput s' = eput s ++ out ∧
      (rc = 0 ∧ length d' = 4%nat ∧ int_val d' = KV_MSG_META ∧ meta_bytes (num_slots pool) (slot_size pool) out ∨
       rc = -1 ∧ ∃ full, meta_bytes (num_slots pool) (slot_size pool) full ∧ out `prefix_of` full)).
  { intros d s' Hg Hp. destruct Hsome as [full Hfull]. exists (-1), d, []. rewrite app_nil_r. split_and!; try done.
    right. split; [done|]. exists full. split; [done|]. apply prefix_nil. }
  eapply wp_bind_2; [by apply paired_recv|].
  intros r s1 (f & rc & d & -> & (Hg & Hp & Hm & Hl & Hrc) & Hf). destruct f; [by apply (Hfail d)|].
  specialize (Hf eq_refl). assert (Hd : Z.of_nat (length d) = 4) by (destruct Hrc as [[_ ?]| ->]; [done|lia]).
  apply load_int_wp.
  pose proof (load_received (emem s) (emem s1) _ d 0 4 Hm ltac:(lia) ltac:(lia) ltac:(lia)) as H0.
  rewrite Z.add_0_r, drop_0, take_ge in H0 by lia. rewrite H0. case_bool_decide as Hmeta; [by apply (Hfail d)|].
  apply store_int_wp. cbn [bind store_size sys call wp]. intros [] s2 ->. cbn [emem egot eput].
  eapply wp_bind_2; [by apply paired_send|].
  intros r s3 (f & rc' & -> & (_ & Hg3 & (k & Hk) & Hrc3) & Hf3). cbn [egot eput emem] in *.
  set (full := load _ _ sizeof_meta) in *.
  assert (Hfull : meta_bytes (num_slots pool) (slot_size pool) full) by by apply meta_image.
  destruct f; cbn [wp]; rewrite Hg3.
  - exists (-1), d, (take k full). split_and!; try done; [by rewrite Hk, Hp|]. right. split; [done|].
    exists full. split; [done|]. exists (drop k full). by rewrite take_drop.
  - exists 0, d, full. specialize (Hf3 eq_refl). destruct Hrc3 as [[_ Hput]| ->]; [|lia].
    split_and!; try done; [by rewrite Hput, Hp|]. left. split_and!; try done; try lia.
Qed.
End serving.

(** * The client *)

(** A call of the client and the request it sends; a session of calls stops at
    the first that fails and keeps what the others returned. *)
Inductive kv_call := CAlloc | CFree (slot_idx : Z).
Definition request_of (c : kv_call) : request :=
  match c with CAlloc => (KV_MSG_ALLOC, 0) | CFree i => (KV_MSG_FREE, i) end.
Definition call_ok (c : kv_call) : Prop := match c with CAlloc => True | CFree i => is_int i end.
Fixpoint kv_calls (pf : nat) (t : TcpTransport) (sb : ScopedBuffer) (cs : list kv_call) : sysM (option (Z * list Z)) :=
  match cs with
  | [] => Ret (Some (0, []))
  | c :: cs =>
    r <~ match c with
         | CAlloc => Client.kv_alloc pf (-1) t sb
         | CFree i => rc <~ Client.kv_free pf i t sb ;; Ret (Some (rc, 0))
         end ;;
    if bool_decide (r.1 ≠ 0) then Ret (Some (-1, [])) else
    r' <~ kv_calls pf t sb cs ;; Ret (Some (r'.1, r.2 :: r'.2))
  end.

Section client.
Context (pf : nat) (t : TcpTransport) (sb : ScopedBuffer).
Hypothesis Hh : ctrl_handle (sb_h sb).

(** One call: a prefix of the request goes out, part of a reply comes in; with
    0 all of both, and the result is the reply. *)
Definition call_end (c : kv_call) (s : endp) (rc z : Z) (s' : endp) : Prop :=
  ∃ k d, eput s' = eput s ++ take k (encode_request (request_of c)) ∧ egot s' = egot s ++ d ∧
    (rc = 0 ∧ eput s' = eput s ++ encode_request (request_of c) ∧ length d = 4%nat ∧ z = int_val d ∨ rc = -1).
Lemma load_request m a q : load (store (store m a (int_bytes q.1)) (a + 4) (int_bytes q.2)) a sizeof_msg = encode_request q.
Proof.
  unfold encode_request. change sizeof_msg with (4 + 4). rewrite load_app by lia. f_equal.
  - rewrite load_store_other by lia. exact (load_store m a (int_bytes q.1)).
  - exact (load_store (store m a (int_bytes q.1)) (a + 4) (int_bytes q.2)).
Qed.
(** Sending a request and waiting for the reply, common to both calls. *)
Lemma roundtrip_wp {A} (c : kv_call) (f : Z → sysM (option A)) (e : A) (Q : option A → endp → Prop) s :
  (∀ d s', call_end c s 0 (int_val d) s' → load (emem s') (addr (sb_h sb)) 4 = d →
     wp endp_env (f (int_val d)) Q s') →
  (∀ s', call_end c s (-1) 0 s' → Q (Some e) s') →
  wp endp_env
    (store_int (addr (sb_h sb)) (request_of c).1 ;;
     store_int (addr (sb_h sb) + 4) (request_of c).2 ;;
     failed <~ paired pf t (t_send_async t (Some (sb_h sb)) sizeof_msg 0 0) ;;
     if (failed : bool) then Ret (Some e) else
     failed <~ paired pf t (t_recv_async t (Some (sb_h sb)) sizeof_int 0 0) ;;
     if (failed : bool) then Ret (Some e) else
     z <- load_int (addr (sb_h sb)) ;; f z) Q s.
Proof.
  intros Hok Herr. apply store_int_wp. apply store_int_wp. cbn [emem egot eput].
  eapply wp_bind_2; [by apply paired_send|].
  intros r s1 (b & rc & -> & (_ & Hg & (k & Hk) & Hrc) & Hb). cbn [emem egot eput] in *. rewrite load_request in *.
  destruct b.
  { apply Herr. exists k, []. rewrite app_nil_r. split_and!; try done. by right. }
  specialize (Hb eq_refl). destruct Hrc as [[_ Hput]| ->]; [|lia].
  eapply wp_bind_2; [by apply paired_recv|].
  intros r s2 (b & rc2 & d & -> & (Hg2 & Hp2 & Hm2 & Hl2 & Hrc2) & Hb2). destruct b.
  { apply Herr. exists k, d. rewrite Hp2, Hg2, Hg. split_and!; try done. by right. }
  specialize (Hb2 eq_refl). assert (Hd : Z.of_nat (length d) = 4) by (destruct Hrc2 as [[_ ?]| ->]; [done|lia]).
  pose proof (load_received (emem s1) (emem s2) _ d 0 4 Hm2 ltac:(lia) ltac:(lia) ltac:(lia)) as H0.
  rewrite Z.add_0_r, drop_0, take_ge in H0 by lia. apply load_int_wp. rewrite H0. apply Hok; [|done].
  exists k, d. rewrite Hp2, Hg2, Hg. split_and!; try done. left. split_and!; try done. lia.
Qed.
Lemma kv_alloc_endp s :
  wp endp_env (Client.kv_alloc pf (-1) t sb) (fun r s' => ∃ rc z, r = Some (rc, z) ∧ call_end CAlloc s rc z s') s.
Proof.
  apply (roundtrip_wp CAlloc (fun z => Ret (Some (0, z))) (-1, -1)).
  - intros d s' Hc _. by exists 0, (int_val d).
  - intros s' (k & d & Hp & Hg & _). exists (-1), (-1). split; [done|]. exists k, d. auto.
Qed.
Lemma kv_free_endp i s :
  wp endp_env (Client.kv_free pf i t sb) (fun r s' => ∃ rc, r = Some rc ∧ call_end (CFree i) s rc 0 s') s.
Proof.
  apply (roundtrip_wp (CFree i) (fun z => if bool_decide (z ≠ 0) then Ret (Some (-1)) else Ret (Some 0)) (-1)).
  - intros d s' (k & d' & Hp & Hg & [(_ & Hput & Hd & Hz)|]) _; [|done]. case_bool_decide as Hb; cbn.
    + exists (-1). split; [done|]. exists k, d'. auto.
    + exists 0. split; [done|]. exists k, d'. split_and!; try done. left. split_and!; try done. lia.
  - intros s' (k & d & Hp & Hg & _). exists (-1). split; [done|]. exists k, d. auto.
Qed.

(** A session: the results are the replies, in order. *)
Definition calls_end (cs : list kv_call) (s : endp) (rc : Z) (zs : list Z) (s' : endp) : Prop :=
  ∃ ds rest, egot s' = egot s ++ concat ds ++ rest ∧ Forall (fun d => length d = 4%nat) ds ∧ zs = int_val <$> ds ∧
    eput s' `prefix_of` eput s ++ concat (encode_request ∘ request_of <$> cs) ∧
    (rc = 0 → eput s' = eput s ++ concat (encode_request ∘ request_of <$> cs) ∧ length ds = length cs).
Lemma kv_calls_endp cs s :
  wp endp_env (kv_calls pf t sb cs) (fun r s' => ∃ rc zs, r = Some (rc, zs) ∧ calls_end cs s rc zs s') s.
Proof.
  revert s. induction cs as [|c cs IH]; intros s; cbn [kv_calls].
  { exists 0, []. split; [done|]. exists [], []. cbn. rewrite !app_nil_r. by split_and!. }
  eapply (wp_bind_2 _ _ _ (fun r s' => ∃ rc z, r = Some (rc, z) ∧ call_end c s rc z s')).
  { destruct c as [|i]; [apply kv_alloc_endp|]. eapply wp_bind_2; [apply kv_free_endp|].
    intros r s' (rc & -> & Hc). by exists rc, 0. }
  intros r s1 (rc & z & -> & k & d & Hk & Hg & Hrc). cbn [fst snd]. case_bool_decide as Hb.
  - exists (-1), []. split; [done|]. exists [], d. cbn. split_and!; try done.
    rewrite Hk. exists (drop k (encode_request (request_of c)) ++ concat (encode_request ∘ request_of <$> cs)).
    rewrite <- app_assoc. f_equal. by rewrite app_assoc, take_drop.
  - destruct Hrc as [(-> & Hput & Hd & ->)| ->]; [|lia].
    eapply wp_bind_2; [apply IH|]. intros r s2 (rc & zs & -> & ds & rest & Hg2 & Hds & -> & Hpre & Hz). cbn [fst snd].
    exists rc, (int_val d :: (int_val <$> ds)). split; [done|]. exists (d :: ds), rest.
    rewrite Hg2, Hg, Hput in *. cbn. rewrite <- !app_assoc in *. split_and!; try done.
    + by apply Forall_cons.
    + intros Hr. destruct (Hz Hr) as [-> ->]. done.
Qed.

Lemma client_meta_endp remote s :
  wp endp_env (Client.handshake_meta pf remote t sb) (fun r s' => ∃ rc remote' k d, r = Some (rc, remote') ∧
    eput s' = eput s ++ take k (int_bytes KV_MSG_META) ∧ egot s' = egot s ++ d ∧
    (rc = 0 ∧ eput s' = eput s ++ int_bytes KV_MSG_META ∧ length d = 16%nat ∧
       remote' = mkRemote (base_addr remote) (rkey remote) (le_val (drop 8 d)) (int_val (take 4 d)) ∨
     rc = -1 ∧ remote' = remote)) s.
Proof.
  unfold Client.handshake_meta. apply store_int_wp. cbn [emem egot eput].
  eapply wp_bind_2; [by apply paired_send|].
  intros r s1 (b & rc & -> & (_ & Hg & (k & Hk) & Hrc) & Hb). cbn [emem egot eput] in *.
  change sizeof_int with (Z.of_nat (length (int_bytes KV_MSG_META))) in *. rewrite load_store in *. destruct b.
  { exists (-1), remote, k, []. rewrite app_nil_r. split_and!; try done. by right. }
  specialize (Hb eq_refl). destruct Hrc as [[_ Hput]| ->]; [|lia].
  eapply wp_bind_2; [by apply paired_recv|].
  intros r s2 (b & rc2 & d & -> & (Hg2 & Hp2 & Hm2 & Hl2 & Hrc2) & Hb2). destruct b.
  { exists (-1), remote, k, d. rewrite Hp2, Hg2, Hg. split_and!; try done. by right. }
  specialize (Hb2 eq_refl). assert (Hd : Z.of_nat (length d) = 16) by (destruct Hrc2 as [[_ ?]| ->]; [done|lia]).
  pose proof (load_received (emem s1) (emem s2) _ d 0 4 Hm2 ltac:(lia) ltac:(lia) ltac:(lia)) as H0.
  pose proof (load_received (emem s1) (emem s2) _ d 8 8 Hm2 ltac:(lia) ltac:(lia) ltac:(lia)) as H8.
  rewrite Z.add_0_r, drop_0 in H0. rewrite take_ge in H8 by (rewrite length_drop; lia).
  apply load_int_wp. rewrite H0. cbn [bind load_size sys call wp]. intros x s3 [-> ->]. rewrite H8.
  exists 0. eexists _, k, d. split; [done|]. rewrite Hp2, Hg2, Hg. split_and!; try done. left. split_and!; try done. lia.
Qed.
End client.

(** A negative slot size is accepted, as a size near 2^64. *)
Lemma negative_slot_size_accepted cfg :
  KvCache.Server.config_parse ["kv_server"; "7000"; "4"; "-1"]%string cfg = (0, KvCache.Server.mkConfig 7000 4 (2 ^ 64 - 1)).
Proof. reflexivity. Qed.
