(* ===== verification/KvPool.v ===== *)
(** The slot pool as an allocator: who holds what, and when it can go wrong. *)
From stdpp Require Import strings.
From S2P Require Import Prelude Prog Sys Endpoint Transport TcpBackend TcpSpec KvCache KvSpec.

(** The slots free and the slots held by clients are together all the slots,
    each once. *)
Definition partition (pool : KVPool) (held : list Z) : Prop := free_list pool ++ held ≡ₚ seqZ 0 (num_slots pool).
(** What a client holds after a call answered [z]. *)
Definition holding (c : kv_call) (z : Z) (held : list Z) : list Z :=
  match c with
  | CAlloc => if z <? 0 then held else z :: held
  | CFree i => filter (fun j => j ≠ i) held
  end.
(** The contract of each answer, and the discipline asked of clients: to free
    only what they hold. *)
Definition granted (c : kv_call) (z n : Z) (held : list Z) : Prop :=
  match c with
  | CAlloc => z = -1 ∧ Z.of_nat (length held) = n ∨ 0 ≤ z < n ∧ z ∉ held
  | CFree _ => z = 0
  end.
Definition disciplined (c : kv_call) (held : list Z) : Prop :=
  match c with CAlloc => True | CFree i => i ∈ held end.

Lemma partition_NoDup pool held : partition pool held → NoDup (free_list pool ++ held).
Proof. intros ->. apply NoDup_seqZ. Qed.
Lemma partition_range pool held i : partition pool held → i ∈ free_list pool ++ held → 0 ≤ i < num_slots pool.
Proof. intros -> Hi%elem_of_seqZ. lia. Qed.
Lemma last_split (l : list Z) x : last l = Some x → l = take (length l - 1) l ++ [x].
Proof.
  intros Hl. apply last_Some in Hl as [l' ->]. rewrite length_app, take_app_le, take_ge by (cbn; lia). done.
Qed.
Lemma filter_not_in (l : list Z) i : i ∉ l → filter (fun j => j ≠ i) l = l.
Proof.
  induction l as [|j l IH]; [done|]. rewrite not_elem_of_cons. intros [Hj Hl].
  rewrite filter_cons_True by congruence. by rewrite IH.
Qed.
(** One request of a disciplined client is answered, as granted, and keeps the
    partition. *)
Lemma answer_step c pool held :
  partition pool held → disciplined c held → 0 ≤ num_slots pool →
  ∃ z pool', answer (request_of c) pool = Some (z, pool') ∧ num_slots pool' = num_slots pool ∧
    granted c z (num_slots pool) held ∧ partition pool' (holding c z held).
Proof.
  intros Hp Hd Hn. destruct c as [|i]; cbn.
  - unfold Server.pool_alloc. destruct (last (free_list pool)) as [x|] eqn:Hl.
    + pose proof (last_split _ _ Hl) as Hs. set (l := take _ _) in *.
      assert (Hx : 0 ≤ x < num_slots pool).
      { apply (partition_range pool held); [done|]. rewrite Hs, !elem_of_app. left. right. by left. }
      eexists x, _. split; [done|]. split; [done|]. split.
      * right. split; [done|]. intros Hin. apply partition_NoDup in Hp. rewrite Hs in Hp.
        apply NoDup_app in Hp as (_ & Hdis & _). apply (Hdis x); [|done]. rewrite elem_of_app. right. by left.
      * rewrite (proj2 (Z.ltb_ge x 0)) by lia. unfold partition in *. cbn [free_list set_free_list num_slots].
        rewrite <- Hp, Hs at 1. subst l. solve_Permutation.
    + apply last_None in Hl. eexists (-1), _. split; [done|]. split; [done|]. unfold partition in *.
      rewrite Hl in Hp |- *. split; [|done]. left. split; [done|]. cbn [app] in Hp. rewrite Hp, length_seqZ. lia.
  - assert (Hi : 0 ≤ i < num_slots pool).
    { apply (partition_range pool held); [done|]. rewrite elem_of_app. by right. }
    rewrite (proj2 (Z.ltb_ge i 0)), (proj2 (Z.leb_gt _ i)) by lia. eexists 0, _. split; [done|]. split; [done|].
    split; [done|]. unfold partition in *. cbn [free_list Server.pool_free set_free_list num_slots]. rewrite <- Hp.
    pose proof (partition_NoDup _ _ Hp) as Hnd. apply NoDup_app in Hnd as (_ & _ & Hnd). cbn in Hd.
    apply list_elem_of_split in Hd as (h1 & h2 & ->). apply NoDup_app in Hnd as (_ & Hd1 & [Hd2 _]%NoDup_cons).
    rewrite filter_app, filter_cons_False by tauto. rewrite !filter_not_in; [solve_Permutation|done|].
    intros Hin. apply (Hd1 i Hin). by left.
Qed.

(** A whole session of a disciplined client. *)
Fixpoint session (cs : list kv_call) (zs : list Z) (n : Z) (held : list Z) : Prop :=
  match cs, zs with
  | [], [] => True
  | c :: cs, z :: zs => granted c z n held ∧ session cs zs n (holding c z held)
  | _, _ => False
  end.
Fixpoint holds_after (cs : list kv_call) (zs held : list Z) : list Z :=
  match cs, zs with c :: cs, z :: zs => holds_after cs zs (holding c z held) | _, _ => held end.
Fixpoint all_disciplined (cs : list kv_call) (pool : KVPool) (held : list Z) : Prop :=
  match cs with
  | [] => True
  | c :: cs => disciplined c held ∧
               match answer (request_of c) pool with
               | Some (z, pool) => all_disciplined cs pool (holding c z held)
               | None => True
               end
  end.

(** C23. The server's pool is an allocator: for a client that frees only what it
    holds, every request is answered; an allocation is -1 exactly when every slot
    is held and otherwise a slot in range that nobody holds; and the free slots
    and the held ones stay a partition of all slots. *)
Theorem slots_partition (cs : list kv_call) (pool : KVPool) (held : list Z) :
  partition pool held → 0 ≤ num_slots pool → all_disciplined cs pool held →
  let '(zs, pool') := answers (request_of <$> cs) pool in
  session cs zs (num_slots pool) held ∧ partition pool' (holds_after cs zs held).
Proof.
  revert pool held. induction cs as [|c cs IH]; intros pool held Hp Hn; cbn [all_disciplined fmap list_fmap answers]; [done|].
  intros [Hd Hcs]. destruct (answer_step c pool held Hp Hd Hn) as (z & pool1 & Ha & Hn1 & Hg & Hp1).
  rewrite Ha in *. specialize (IH pool1 _ Hp1 ltac:(lia) Hcs). rewrite Hn1 in IH.
  destruct (answers (request_of <$> cs) pool1) as [zs pool2]. cbn. tauto.
Qed.

(** Nothing checks that a freed slot was allocated: a client that frees a
    slot twice is then given the same slot twice, from any pool, and the free
    list holds it twice in between. *)
Theorem double_free_aliases (pool : KVPool) (i : Z) :
  0 ≤ i < num_slots pool →
  (answers (request_of <$> [CFree i; CFree i; CAlloc; CAlloc]) pool).1 = [0; 0; i; i] ∧
  ¬ ∃ held, partition (answers (request_of <$> [CFree i; CFree i]) pool).2 held.
Proof.
  intros Hi.
  assert (Hf : ∀ p, num_slots p = num_slots pool → answer (request_of (CFree i)) p = Some (0, Server.pool_free i p)).
  { intros p Hp. cbn. by rewrite Hp, (proj2 (Z.ltb_ge i 0)), (proj2 (Z.leb_gt _ i)) by lia. }
  assert (Ha : ∀ p l, free_list p = l ++ [i] → answer (request_of CAlloc) p = Some (i, set_free_list l p)).
  { intros p l Hl. cbn. unfold Server.pool_alloc. rewrite Hl, last_snoc. do 3 f_equal.
    rewrite length_app, take_app_le, take_ge by (cbn; lia). done. }
  split.
  - cbn [fmap list_fmap answers]. rewrite !Hf by done. rewrite (Ha _ (free_list pool ++ [i])) by done.
    rewrite (Ha _ (free_list pool)) by done. done.
  - cbn [fmap list_fmap answers]. rewrite !Hf by done. intros (held & Hp%partition_NoDup). cbn in Hp.
    rewrite <- !app_assoc in Hp. apply NoDup_app in Hp as (_ & _ & Hp). cbn in Hp.
    apply NoDup_cons in Hp as [Hn _]. apply Hn. by left.
Qed.

(** * Witnesses *)

Definition demo_pool : KVPool := mkPool 4096 128 64 2 [0; 1].
Lemma slots_partition_witness :
  let '(zs, pool') := answers (request_of <$> [CAlloc; CAlloc; CAlloc; CFree 1; CAlloc]) demo_pool in
  session [CAlloc; CAlloc; CAlloc; CFree 1; CAlloc] zs 2 [] ∧ partition pool' [1; 0].
Proof.
  refine (slots_partition [CAlloc; CAlloc; CAlloc; CFree 1; CAlloc] demo_pool [] _ _ _).
  - unfold partition. reflexivity.
  - discriminate.
  - repeat split. right. left.
Defined.
Lemma double_free_aliases_witness :
  (answers (request_of <$> [CFree 1; CFree 1; CAlloc; CAlloc]) demo_pool).1 = [0; 0; 1; 1].
Proof. apply (double_free_aliases demo_pool 1). split; [discriminate|reflexivity]. Defined.
