(* ===== verification/KvSession.v ===== *)
(** The two ends of the control channel together. *)
From stdpp Require Import strings.
From S2P Require Import Prelude Prog Sys Endpoint Transport TcpBackend TcpSpec KvCache KvSpec KvPool.
Import Tcp TcpSpec.

(** What [main] runs over the channel on each side. *)
Definition server_session (pf fuel : nat) (pool : KVPool) (t : TcpTransport) (sb : ScopedBuffer) : sysM (option (Z * KVPool)) :=
  rc <~ Server.handshake_meta pf pool t sb ;;
  if bool_decide (rc ≠ 0) then Ret (Some (rc, pool)) else Server.serve pf fuel pool t sb.
Definition client_session (pf : nat) (remote : KVRemote) (cs : list kv_call) (t : TcpTransport) (sb : ScopedBuffer)
    : sysM (option (Z * KVRemote * list Z)) :=
  r <~ Client.handshake_meta pf remote t sb ;;
  if bool_decide (r.1 ≠ 0) then Ret (Some (r.1, r.2, [])) else
  r' <~ kv_calls pf t sb cs ;; Ret (Some (r'.1, r.2, r'.2)).

(** Equal blocks: a prefix of a concatenation is one of the blocks. *)
Lemma blocks_prefix (n : nat) (l1 l2 : list (list Z)) r :
  (0 < n)%nat → Forall (fun b => length b = n) l1 → Forall (fun b => length b = n) l2 →
  concat l1 ++ r `prefix_of` concat l2 → l1 `prefix_of` l2.
Proof.
  intros Hn H1. revert l2. induction H1 as [|b l1 Hb H1 IH]; intros l2 H2 Hp; [apply prefix_nil|].
  cbn in Hp. rewrite <- app_assoc in Hp. destruct l2 as [|b' l2].
  { apply prefix_nil_inv in Hp. destruct b; [cbn in Hb; lia|done]. }
  apply Forall_cons in H2 as [Hb' H2]. cbn in Hp. destruct Hp as [k Hk]. rewrite <- app_assoc in Hk.
  apply app_inj_1 in Hk as [-> Hk]; [|congruence]. apply prefix_cons, IH; [done|]. by exists k.
Qed.
Lemma prefix_split (l1 l2 l3 l4 : list Z) : length l1 = length l3 → l1 ++ l2 `prefix_of` l3 ++ l4 → l1 = l3 ∧ l2 `prefix_of` l4.
Proof. intros Hl [k Hk]. rewrite <- app_assoc in Hk. apply app_inj_1 in Hk as [-> ->]; [|done]. split; [done|]. by exists k. Qed.

Definition call_ints (c : kv_call) : Prop := is_int (request_of c).1 ∧ is_int (request_of c).2.
Lemma call_ok_ints c : call_ok c → call_ints c.
Proof. destruct c as [|i]; intros Hc; [split; done|split; [done|exact Hc]]. Qed.
Lemma decode_encode c : call_ok c → decode_request (encode_request (request_of c)) = request_of c.
Proof.
  intros [H1 H2]%call_ok_ints. unfold decode_request, encode_request. destruct (request_of c) as [m z]. cbn [fst snd] in *.
  rewrite take_app_le, (take_ge (int_bytes m)), drop_app_length' by done. rewrite take_ge by done. by rewrite !int_roundtrip.
Qed.
Lemma answers_ints qs pool :
  Forall is_int (free_list pool) → Forall (fun q => is_int q.2) qs → Forall is_int (answers qs pool).1.
Proof.
  revert pool. induction qs as [|[m z] qs IH]; intros pool Hf Hq; cbn; [constructor|].
  apply Forall_cons in Hq as [Hz Hq]. cbn in Hz.
  assert (Hstep : ∀ x p, is_int x → Forall is_int (free_list p) →
    Forall is_int (let '(zs, p) := answers qs p in (x :: zs, p)).1).
  { intros x p Hx Hp. specialize (IH p Hp Hq). destruct (answers qs p). by apply Forall_cons. }
  unfold answer. destruct (m =? KV_MSG_ALLOC).
  - unfold Server.pool_alloc. destruct (last (free_list pool)) as [x|] eqn:Hl.
    + apply Hstep; [|by apply Forall_take]. apply last_Some in Hl as [l Hl]. rewrite Hl in Hf.
      apply Forall_app in Hf as [_ Hf]. exact (Forall_inv Hf).
    + by apply Hstep.
  - destruct (m =? KV_MSG_FREE); [|constructor]. destruct (_ || _); [constructor|]. apply Hstep; [done|].
    cbn. apply Forall_app. split; [done|]. by apply Forall_singleton.
Qed.

(** What the server did, whichever way it ended. *)
Definition server_did (pool : KVPool) (s' : endp) : Prop :=
  ∃ full gm qs rest, meta_bytes (num_slots pool) (slot_size pool) full ∧
    egot s' = gm ++ concat qs ++ rest ∧ (length gm = 4%nat ∨ qs = []) ∧ Forall (fun q => length q = 8%nat) qs ∧
    eput s' `prefix_of` full ++ concat (int_bytes <$> (answers (decode_request <$> qs) pool).1).
Lemma serve_end_did pool s r s' full :
  meta_bytes (num_slots pool) (slot_size pool) full → length (egot s) = 4%nat → eput s = full →
  serve_end pool s r s' → server_did pool s'.
Proof.
  intros Hfull Hg Hp [qs last zs pool1 Hqs Hgot Hans Hlen Hlast].
  assert (Hdone : ∀ out, eput s' = out → out = eput s ++ concat (int_bytes <$> zs) → server_did pool s').
  { intros out Ho Ho'. exists full, (egot s), qs, last. split_and!; try done; [by left|]. by rewrite Ho, Ho', Hp, Hans. }
  inversion Hlast as [pl out Hpl Hout|pl out l Hl|pl out l Hl Ha|pl out l z pool' k Hl Ha Epl Eo El Er Hput]; subst; try by eapply Hdone.
  exists (eput s), (egot s), (qs ++ [last]), []. split_and!; try done; [|by left|..].
  - rewrite Hgot, concat_app. cbn. by rewrite !app_nil_r.
  - apply Forall_app. split; [done|]. by apply Forall_singleton.
  - rewrite fmap_app. cbn [fmap list_fmap]. erewrite answers_snoc by (done || by rewrite length_fmap).
    cbn [fst]. rewrite fmap_app, concat_app. cbn [fmap list_fmap concat]. rewrite app_nil_r. exists (drop k (int_bytes z)).
    by rewrite <- Hput, <- !app_assoc, take_drop.
Qed.

Lemma server_session_did pf fuel pool t sb m :
  ctrl_handle (sb_h sb) → is_int (num_slots pool) → 0 ≤ slot_size pool < 2 ^ 64 →
  wp endp_env (server_session pf fuel pool t sb) (fun _ s' => server_did pool s') (mkEndp m [] []).
Proof.
  intros Hh Hn Hsz. unfold server_session. eapply wp_bind_2; [by apply server_meta_endp|].
  intros r s1 (rc & d & out & -> & Hg & Hp & Hrc). cbn [egot eput app] in Hg, Hp. case_bool_decide as Hb.
  - destruct Hrc as [[-> _]|(-> & full & Hfull & Hout)]; [lia|]. exists full, d, [], []. cbn. rewrite !app_nil_r.
    split_and!; try done; [by right|]. by rewrite Hp.
  - destruct Hrc as [(-> & Hd & _ & Hfull)|[-> _]]; [|lia].
    eapply wp_mono; [|by apply serve_endp]. intros r s' He. eapply serve_end_did; [exact Hfull| |exact Hp|exact He].
    by rewrite Hg.
Qed.
(** The client's side of the whole session. *)
Definition client_got (remote : KVRemote) (cs : list kv_call) (r : option (Z * KVRemote * list Z)) (s' : endp) : Prop :=
  ∃ rc remote' zs, r = Some (rc, remote', zs) ∧
    eput s' `prefix_of` int_bytes KV_MSG_META ++ concat (encode_request ∘ request_of <$> cs) ∧
    ((rc ≠ 0 ∧ remote' = remote ∧ zs = []) ∨
     ∃ d ds rest, egot s' = d ++ concat ds ++ rest ∧ length d = 16%nat ∧ Forall (fun b => length b = 4%nat) ds ∧
       remote' = mkRemote (base_addr remote) (rkey remote) (le_val (drop 8 d)) (int_val (take 4 d)) ∧
       zs = int_val <$> ds ∧ (rc = 0 → length ds = length cs)).
Lemma client_session_got pf remote cs t sb m :
  ctrl_handle (sb_h sb) →
  wp endp_env (client_session pf remote cs t sb) (client_got remote cs) (mkEndp m [] []).
Proof.
  intros Hh. unfold client_session. eapply wp_bind_2; [by apply client_meta_endp|].
  intros r s1 (rc & remote' & k & d & -> & Hk & Hg & Hrc). cbn [egot eput app fst snd] in *. case_bool_decide as Hb.
  - destruct Hrc as [[-> _]|[-> ->]]; [lia|]. eexists _, _, _. split; [done|]. split; [|by left].
    rewrite Hk. exists (drop k (int_bytes KV_MSG_META) ++ concat (encode_request ∘ request_of <$> cs)).
    by rewrite app_assoc, take_drop.
  - destruct Hrc as [(-> & Hput & Hd & ->)|[-> _]]; [|lia].
    eapply wp_bind_2; [by apply kv_calls_endp|].
    intros r s2 (rc & zs & -> & ds & rest & Hg2 & Hds & -> & Hpre & Hz). cbn [fst snd wp].
    eexists _, _, _. split; [done|]. rewrite Hput in Hpre. split; [done|]. right. exists d, ds, rest.
    rewrite Hg2, Hg. split_and!; try done. intros Hr. by apply Hz.
Qed.

(** C22. Both ends of the control channel, over any two sockets that deliver a
    prefix of what was sent: the client reads the server's slot count and size,
    and each of its calls returns what the pool answers to it, in order, whether
    or not the session later fails; if it reports success every call was
    answered. *)
Theorem kv_session (pf pf' fuel : nat) (pool : KVPool) (remote : KVRemote) (cs : list kv_call)
    (t t' : TcpTransport) (sb sb' : ScopedBuffer) (m m' : Z → Z) :
  ctrl_handle (sb_h sb) → ctrl_handle (sb_h sb') → is_int (num_slots pool) → 0 ≤ slot_size pool < 2 ^ 64 →
  Forall is_int (free_list pool) → Forall call_ok cs →
  wp endp_env (server_session pf fuel pool t sb) (fun _ s =>
    wp endp_env (client_session pf' remote cs t' sb') (fun r' s' =>
      egot s `prefix_of` eput s' → egot s' `prefix_of` eput s →
      ∃ rc remote' zs, r' = Some (rc, remote', zs) ∧
        zs `prefix_of` (answers (request_of <$> cs) pool).1 ∧
        (rc ≠ 0 ∧ remote' = remote ∧ zs = [] ∨ r_num_slots remote' = num_slots pool ∧ r_slot_size remote' = slot_size pool) ∧
        (rc = 0 → length zs = length cs))
    (mkEndp m' [] []))
  (mkEndp m [] []).
Proof.
  intros Hh Hh' Hn Hsz Hfl Hcs. eapply wp_mono; [|by apply server_session_did].
  intros _ s (full & gm & qs & rest & (Hfl16 & Hmn & Hms) & Hgs & Hgm & Hqs & Hps).
  eapply wp_mono; [|by apply client_session_got].
  intros r' s' (rc & remote' & zs & -> & Hpc & Hend) Hsc Hcs'. exists rc, remote', zs. split; [done|].
  destruct Hend as [(Hrc & -> & ->)|(d & ds & rest' & Hgc & Hd & Hds & -> & -> & Hlen)].
  { split; [apply prefix_nil|]. split; [by left|done]. }
  (* the requests the server read are the client's first ones *)
  assert (Hreqs : decode_request <$> qs `prefix_of` request_of <$> cs).
  { destruct Hgm as [Hgm| ->]; [|apply prefix_nil]. rewrite Hgs in Hsc. pose proof (transitivity Hsc Hpc) as Hpre.
    apply prefix_split in Hpre as [_ Hpre]; [|done]. apply (blocks_prefix 8) in Hpre; [|lia|done|].
    - destruct Hpre as [k Hk]. exists (decode_request <$> k). rewrite <- fmap_app, <- Hk, <- list_fmap_compose.
      apply list_fmap_ext. intros i c Hc. symmetry. apply decode_encode. by eapply Forall_lookup in Hcs.
    - apply Forall_fmap. apply Forall_true. intros c. unfold compose, encode_request. rewrite length_app. done. }
  (* the replies the client read are the server's first ones *)
  rewrite Hgc in Hcs'. pose proof (transitivity Hcs' Hps) as Hpre.
  apply prefix_split in Hpre as [-> Hpre]; [|by rewrite Hd].
  apply (blocks_prefix 4) in Hpre; [|lia|done|by apply Forall_fmap, Forall_true].
  split; [|split; [by right|by rewrite length_fmap]].
  destruct Hreqs as [k Hk]. rewrite Hk. etransitivity; [|apply answers_prefix].
  destruct Hpre as [k' Hk']. assert (Hints : Forall is_int (answers (decode_request <$> qs) pool).1).
  { apply answers_ints; [done|]. apply Forall_fmap, Forall_true. intros q. apply int_val_range. }
  exists (int_val <$> k'). rewrite <- fmap_app, <- Hk', <- list_fmap_compose. symmetry.
  rewrite <- (list_fmap_id (answers _ _).1) at 2. apply list_fmap_ext. intros i z Hz. apply int_roundtrip.
  by eapply Forall_lookup in Hints.
Qed.

(** * Witness: a run of both ends *)

Definition demo_sb : ScopedBuffer := mkScopedBuffer true (mkBufferHandle 512 16 0).
Definition demo_calls : list kv_call := [CAlloc; CAlloc; CAlloc; CFree 1; CAlloc].
Definition demo_requests : list Z := int_bytes KV_MSG_META ++ concat (encode_request ∘ request_of <$> demo_calls).
Definition demo_replies : list Z :=
  int_bytes 2 ++ replicate 4 0 ++ le_bytes 8 64 ++ concat (int_bytes <$> [1; 0; -1; 0; 1]).
Definition run_server : option (Z * KVPool) * endp :=
  run (demo_endp demo_requests) (server_session 0 8 demo_pool (mkTcp 3 (-1) true) demo_sb) (mkEndp (fun _ => 0) [] []).
Definition run_client : option (Z * KVRemote * list Z) * endp :=
  run (demo_endp demo_replies) (client_session 0 (mkRemote 0 0 0 0) demo_calls (mkTcp 3 (-1) false) demo_sb)
    (mkEndp (fun _ => 0) [] []).
#[local] Strategy expand [run_server run_client].
Lemma run_server_eq :
  run (demo_endp demo_requests) (server_session 0 8 demo_pool (mkTcp 3 (-1) true) demo_sb) (mkEndp (fun _ => 0) [] [])
  = run_server.
Proof. reflexivity. Qed.
Lemma run_client_eq :
  run (demo_endp demo_replies) (client_session 0 (mkRemote 0 0 0 0) demo_calls (mkTcp 3 (-1) false) demo_sb)
    (mkEndp (fun _ => 0) [] []) = run_client.
Proof. reflexivity. Qed.
Example demo_session :
  run_client.1 = Some (0, mkRemote 0 0 64 2, [1; 0; -1; 0; 1]) ∧
  egot run_server.2 = eput run_client.2 ∧ egot run_client.2 = eput run_server.2.
Proof. split_and!; vm_compute; reflexivity. Qed.
Lemma kv_session_witness :
  ∃ rc remote' zs, run_client.1 = Some (rc, remote', zs) ∧ zs `prefix_of` (answers (request_of <$> demo_calls) demo_pool).1.
Proof.
  assert (Hh : ctrl_handle (sb_h demo_sb)) by (split; [discriminate|reflexivity]).
  assert (Hi : ∀ z, -5 ≤ z ≤ 5 → is_int z) by (unfold is_int, INT_MIN, INT_MAX; lia).
  assert (Hw := kv_session 0 0 8 demo_pool (mkRemote 0 0 0 0) demo_calls (mkTcp 3 (-1) true) (mkTcp 3 (-1) false) demo_sb demo_sb
    (fun _ => 0) (fun _ => 0) Hh Hh ltac:(apply Hi; cbn; lia) ltac:(cbn; lia)
    ltac:(repeat constructor; apply Hi; lia) ltac:(repeat (constructor; [try done; apply Hi; lia|]); constructor)).
  apply (run_wp _ (demo_endp demo_requests)) in Hw; [|apply demo_endp_env]. rewrite run_server_eq in Hw.
  destruct demo_session as (_ & H1 & H2). revert Hw H1 H2. destruct run_server as [r s]. cbn [fst snd]. intros Hw H1 H2.
  match type of Hw with wp ?h ?p ?Q ?s0 => 
    pose proof (run_wp h (demo_endp demo_replies) p Q s0 (demo_endp_env _) Hw) as Hc end. clear Hw. rename Hc into Hw.
  cbn beta in Hw.
  rewrite run_client_eq in Hw. revert Hw H1 H2. destruct run_client as [r' s']. cbn [fst snd]. intros Hw H1 H2.
  destruct Hw as (rc & remote' & zs & H & Hz & _); [by rewrite H1|by rewrite H2|]. exists rc, remote', zs. split; [exact H|exact Hz].
Defined.
