(* ===== verification/KvMain.v ===== *)
(** Phase 4, the two programs: [main] of [kv_server.cpp] and of [kv_bench.cpp],
    with the client's data path and timing loop.  A destructor runs where C++
    runs it: on every way out of the scope of its object, newest object first. *)
From stdpp Require Import strings.
From S2P Require Import Prelude Prog Libc Sys BenchUtils Endpoint Transport KvCache.

(** A vector's storage: none for no elements; None when the allocation throws,
    as it does beyond [max_size ()], 2^63 - 1 bytes. *)
Definition vector_new (bytes : Z) : sysM (option Z) :=
  if bytes =? 0 then Ret (Some 0) else
  if 2 ^ 63 - 1 <? bytes then Ret None else
  p <- sys (c_new_array bytes) ;;
  match p with
  | None => Ret None
  | Some p => sys (c_store p (replicate (Z.to_nat bytes) 0)) ;; Ret (Some p)
  end.
Definition vector_end (p : Z) : sysM unit := if bool_decide (p ≠ 0) then sys (c_delete_array p) else Ret tt.

(** * The server *)

Section server.
Context {C D : Type} `{Transport C} `{Transport D} (pf fuel : nat).

(** Leaving the scopes of [ctrl]; of [ctrl] and [data]; of [ctrl_sb] as well. *)
Definition out1 (ctrl : C) (r : Z) : sysM (option Z) := t_close ctrl ;; Ret (Some r).
Definition out2 (ctrl : C) (data : D) (r : Z) : sysM (option Z) := t_close data ;; out1 ctrl r.
Definition out3 (ctrl : C) (data : D) (ctrl_sb : ScopedBuffer) (r : Z) : sysM (option Z) :=
  ctrl <- scoped_end ctrl ctrl_sb ;; out2 ctrl data r.

Definition fill_free_list (pool : KVPool) : KVPool :=
  set_free_list (free_list pool ++ seqZ 0 (num_slots pool)) pool.
(** [pool.mem.resize (n)] and its result in the pool. *)
Definition set_mem (p n : Z) (pool : KVPool) : KVPool := mkPool p n (slot_size pool) (num_slots pool) (free_list pool).

(** From [sb] on: the slab is registered and its address exchanged, then the
    requests are served. [unused] is what the uninitialised output words held. *)
Definition serve_slab (unused : Z) (pool : KVPool) (ctrl : C) (data : D) (ctrl_sb : ScopedBuffer) : sysM (option Z) :=
  let! (rc, sb, data) := scoped_init data scoped0 (mem pool) (mem_size pool) in
  let out data r := data <- scoped_end data sb ;; r <~ out3 ctrl data ctrl_sb r ;; vector_end (mem pool) ;; Ret (Some r) in
  if bool_decide (rc ≠ 0) then out data 1 else
  let! (rc, _, _, data) := exchange_buf data (Some (sb_h sb)) (Some unused) (Some unused) in
  if bool_decide (rc ≠ 0) then out data 1 else
  r <~ Server.serve pf fuel pool ctrl ctrl_sb ;;
  out data (if bool_decide (r.1 ≠ 0) then 1 else 0).

(** From the connected transports on. *)
Definition serve_ctrl (unused : Z) (pool : KVPool) (ctrl : C) (data : D) (ctrl_buf : Z) : sysM (option Z) :=
  sys (c_store ctrl_buf (replicate 16 0)) ;;
  let! (rc, ctrl_sb, ctrl) := scoped_init ctrl scoped0 ctrl_buf sizeof_CtrlBuf in
  if bool_decide (rc ≠ 0) then out3 ctrl data ctrl_sb 1 else
  m <~ Server.handshake_meta pf pool ctrl ctrl_sb ;;
  if bool_decide (m ≠ 0) then out3 ctrl data ctrl_sb 1 else
  let n := u64 (num_slots pool * slot_size pool) in
  p <- vector_new n ;;
  match p with
  | None => out3 ctrl data ctrl_sb 1
  | Some p => serve_slab unused (fill_free_list (set_mem p n pool)) ctrl data ctrl_sb
  end.
(** [argv] is the command line, [cfg] the uninitialised configuration, [ctrl_buf]
    the address of the local [CtrlBuf]; [ctrl] and [data] are what the two
    [create] functions return. *)
Definition server_main (ctrl : C) (data : D) (ctrl_buf unused : Z) (argv : list string) (cfg : Server.Config) : sysM (option Z) :=
  let '(rc, cfg) := Server.config_parse argv cfg in
  if bool_decide (rc ≠ 0) then Ret (Some 1) else
  let pool := mkPool 0 0 (Server.c_slot_size cfg) (Server.c_num_slots cfg) [] in
  let! (rc, ctrl) := t_listen ctrl (Server.port cfg) in
  if bool_decide (rc ≠ 0) then out1 ctrl 1 else
  let! (rc, data) := t_listen data (Server.port cfg + 2) in
  if bool_decide (rc ≠ 0) then out2 ctrl data 1 else
  let! (rc, ctrl) := t_accept ctrl in
  if bool_decide (rc ≠ 0) then out2 ctrl data 1 else
  let! (rc, data) := t_accept data in
  if bool_decide (rc ≠ 0) then out2 ctrl data 1 else
  serve_ctrl unused pool ctrl data ctrl_buf.
End server.

(** * The client *)

Record ClientConfig := mkClientConfig {
  server_ip : string; cl_port : Z; iters : Z; depth : Z; csv : bool; csv_header : bool }.
Definition client_config0 : ClientConfig := mkClientConfig EmptyString 12345 1000 1 false false.

(** The options after the two positional arguments. *)
Fixpoint client_opts (args : list string) (cfg : ClientConfig) : Z * ClientConfig :=
  match args with
  | [] => (0, cfg)
  | a :: args =>
    if String.eqb a "--iters" then
      match args with
      | [] => (-1, cfg)
      | v :: args => client_opts args (mkClientConfig (server_ip cfg) (cl_port cfg) (atoi v) (depth cfg) (csv cfg) (csv_header cfg))
      end
    else if String.eqb a "--depth" then
      match args with
      | [] => (-1, cfg)
      | v :: args =>
        let cfg := mkClientConfig (server_ip cfg) (cl_port cfg) (iters cfg) (atoi v) (csv cfg) (csv_header cfg) in
        if depth cfg <? 1 then (-1, cfg) else client_opts args cfg
      end
    else if String.eqb a "--csv" then
      client_opts args (mkClientConfig (server_ip cfg) (cl_port cfg) (iters cfg) (depth cfg) true (csv_header cfg))
    else client_opts args cfg
  end.
Definition client_config_parse (argv : list string) (cfg : ClientConfig) : Z * ClientConfig :=
  match argv with
  | _ :: ip :: p :: args =>
      client_opts args (mkClientConfig ip (atoi p) (iters cfg) (depth cfg) (csv cfg) (csv_header cfg))
  | _ => (-1, cfg)
  end.

(** [AlignedBuf::init] and its destructor; [free (nullptr)] does nothing. *)
Definition aligned_init (len : Z) : sysM (Z * Z) :=
  ps <- sys c_pagesize ;;
  let ps := if ps <=? 0 then 4096 else ps in
  raw <- sys (c_posix_memalign ps len) ;;
  match raw with
  | None => Ret (-1, 0)
  | Some raw => sys (c_store raw (replicate (Z.to_nat len) 0)) ;; Ret (0, raw)
  end.
Definition aligned_end (p : Z) : sysM unit := if bool_decide (p ≠ 0) then sys (c_free p) else Ret tt.

(** [base_addr + slot_idx * slot_size]: the [int] index is converted to
    [size_t], product and sum wrap. *)
Definition slot_addr (remote : KVRemote) (slot_idx : Z) : Z :=
  u64 (base_addr remote + u64 (u64 slot_idx * r_slot_size remote)).

Section client.
Context {C D : Type} `{Transport C} `{Transport D} (pf : nat).

(** The check of the data path: write a pattern, clear, read back, compare. *)
Definition pattern (n : Z) : list Z := (fun i => u8 (i * 31 + 7)) <$> seqZ 0 n.
Definition data_path_check (data : D) (sb : ScopedBuffer) (p remote_addr : Z) (remote : KVRemote) : sysM (option Z) :=
  let n := r_slot_size remote in
  sys (c_store p (pattern n)) ;;
  failed <~ paired pf data (t_write_async data (Some (sb_h sb)) remote_addr (rkey remote) n 0 0) ;;
  if (failed : bool) then Ret (Some 1) else
  sys (c_store p (replicate (Z.to_nat n) 0)) ;;
  failed <~ paired pf data (t_read_async data (Some (sb_h sb)) remote_addr (rkey remote) n 0 0) ;;
  if (failed : bool) then Ret (Some 1) else
  d <- sys (c_load p n) ;;
  if bool_decide (d = pattern n) then Ret (Some 0) else Ret (Some 1).

(** [for (k = 0; k < n; k++) if (op (i + k) != 0) return -1;] and the same with
    [poll]. *)
Fixpoint post_window (n : nat) (op : Z → sysM Z) (i : Z) : sysM bool :=
  match n with
  | O => Ret true
  | S n => rc <- op i ;; if bool_decide (rc ≠ 0) then Ret false else post_window n op (i + 1)
  end.
Fixpoint poll_window (n : nat) (data : D) : sysM (option bool) :=
  match n with
  | O => Ret (Some true)
  | S n => failed <~ failed_poll pf data ;;
           if (failed : bool) then Ret (Some false) else poll_window n data
  end.
(** [if (i + k >= kWarmup) latencies[i + k - kWarmup] = per] for [n] indices
    from [i]. *)
Fixpoint record_window (n : nat) (i per : Z) (lat : list Z) : list Z :=
  match n with
  | O => lat
  | S n => record_window n (i + 1) per (if kWarmup <=? i then <[Z.to_nat (i - kWarmup) := per]> lat else lat)
  end.
(** One batch from index [i]: the time per operation. *)
Definition bench_batch (data : D) (op : Z → sysM Z) (i : Z) (n : nat) (start : Z) : sysM (option (option Z)) :=
  ok <- post_window n op i ;;
  if negb ok then Ret (Some None) else
  ok <~ poll_window n data ;;
  if negb ok then Ret (Some None) else
  now <- time_now_ns ;;
  Ret (Some (Some (time_elapsed_ns start now / Z.of_nat n))).
(** The loop; [fuel] counts batches.  The result is the first timed start and the
    latencies, or -1. *)
Fixpoint bench_loop (fuel : nat) (data : D) (op : Z → sysM Z) (total depth i bw_start : Z) (lat : list Z)
    : sysM (option (Z * Z * list Z)) :=
  if i <? total then
    match fuel with
    | O => Ret None
    | S fuel =>
      let n := Z.to_nat (Z.min depth (total - i)) in
      start <- time_now_ns ;;
      let bw_start := if (kWarmup <=? i) && (bw_start =? 0) then start else bw_start in
      per <~ bench_batch data op i n start ;;
      match per with
      | None => Ret (Some (-1, bw_start, lat))
      | Some per => bench_loop fuel data op total depth (i + depth) bw_start (record_window n i per lat)
      end
    end
  else Ret (Some (0, bw_start, lat)).
(** What [run_bench] reports: its statistics, the bytes moved and the time. *)
Record report := mkReport { rep_stats : lat_stats; rep_bytes : Z; rep_time : Z }.
Inductive bench_end := Threw | Failed | Done (r : report).
(** A negative count converts to a size the vector refuses. *)
Definition run_bench (data : D) (op : Z → sysM Z) (slot_size iters depth : Z) : sysM (option bench_end) :=
  v <- vector_new (if iters <? 0 then SIZE_MAX else 8 * iters) ;;
  match v with
  | None => Ret (Some Threw)
  | Some v =>
    let total := kWarmup + iters in
    r <~ bench_loop (Z.to_nat total) data op total depth 0 0 (replicate (Z.to_nat iters) 0) ;;
    let '(rc, bw_start, lat) := r in
    if bool_decide (rc ≠ 0) then vector_end v ;; Ret (Some Failed) else
    now <- time_now_ns ;;
    vector_end v ;;
    Ret (Some (Done (mkReport (latency_stats (sort_u64 lat) iters) (u64 (iters * slot_size)) (time_elapsed_ns bw_start now))))
  end.
Definition bench_ok (e : bench_end) : bool := match e with Done _ => true | _ => false end.

(** From the allocated local buffer on. *)
Definition client_slot (cfg : ClientConfig) (remote : KVRemote) (p : Z) (ctrl : C) (data : D) (sb ctrl_sb : ScopedBuffer)
    : sysM (option Z) :=
  r <~ Client.kv_alloc pf 0 ctrl ctrl_sb ;;
  let '(rc, slot_idx) := r in
  if bool_decide (rc ≠ 0) then Ret (Some 1) else
  if (slot_idx <? 0) || (r_num_slots remote <=? slot_idx) then Ret (Some 1) else
  let remote_addr := slot_addr remote slot_idx in
  rc <~ data_path_check data sb p remote_addr remote ;;
  if bool_decide (rc ≠ 0) then Ret (Some 1) else
  let n := r_slot_size remote in
  e <~ run_bench data (fun i => t_write_async data (Some (sb_h sb)) remote_addr (rkey remote) n (u64 i) 0)
         n (iters cfg) (depth cfg) ;;
  if negb (bench_ok e) then Ret (Some 1) else
  e <~ run_bench data (fun i => t_read_async data (Some (sb_h sb)) remote_addr (rkey remote) n (u64 i) 0)
         n (iters cfg) (depth cfg) ;;
  if negb (bench_ok e) then Ret (Some 1) else
  rc <~ Client.kv_free pf slot_idx ctrl ctrl_sb ;;
  if bool_decide (rc ≠ 0) then Ret (Some 1) else Ret (Some 0).
Definition client_buffer (cfg : ClientConfig) (remote : KVRemote) (ctrl : C) (data : D) (ctrl_sb : ScopedBuffer) : sysM (option Z) :=
  let! (rc, p) := aligned_init (r_slot_size remote) in
  if bool_decide (rc ≠ 0) then aligned_end p ;; out3 ctrl data ctrl_sb 1 else
  let! (rc, sb, data) := scoped_init data scoped0 p (r_slot_size remote) in
  let out data r := data <- scoped_end data sb ;; aligned_end p ;; out3 ctrl data ctrl_sb r in
  if bool_decide (rc ≠ 0) then out data 1 else
  let! (rc, ra, rk, data) := exchange_buf data (Some (sb_h sb)) (Some (base_addr remote)) (Some (rkey remote)) in
  let remote := mkRemote (default 0 ra) (default 0 rk) (r_slot_size remote) (r_num_slots remote) in
  if bool_decide (rc ≠ 0) then out data 1 else
  r <~ client_slot cfg remote p ctrl data sb ctrl_sb ;;
  out data r.
(** From the connected transports on. *)
Definition client_ctrl (cfg : ClientConfig) (ctrl : C) (data : D) (ctrl_buf : Z) : sysM (option Z) :=
  sys (c_store ctrl_buf (replicate 16 0)) ;;
  let! (rc, ctrl_sb, ctrl) := scoped_init ctrl scoped0 ctrl_buf sizeof_CtrlBuf in
  if bool_decide (rc ≠ 0) then out3 ctrl data ctrl_sb 1 else
  r <~ Client.handshake_meta pf (mkRemote 0 0 0 0) ctrl ctrl_sb ;;
  if bool_decide (r.1 ≠ 0) then out3 ctrl data ctrl_sb 1 else
  client_buffer cfg r.2 ctrl data ctrl_sb.
Definition client_main (ctrl : C) (data : D) (ctrl_buf : Z) (argv : list string) : sysM (option Z) :=
  if match argv with [_; a] => String.eqb a "--csv-header" | _ => false end then Ret (Some 0) else
  let '(rc, cfg) := client_config_parse argv client_config0 in
  if bool_decide (rc ≠ 0) then Ret (Some 1) else
  let! (rc, ctrl) := t_connect ctrl (Some (server_ip cfg)) (cl_port cfg) in
  if bool_decide (rc ≠ 0) then out1 ctrl 1 else
  let! (rc, data) := t_connect data (Some (server_ip cfg)) (cl_port cfg + 2) in
  if bool_decide (rc ≠ 0) then out2 ctrl data 1 else
  client_ctrl cfg ctrl data ctrl_buf.
End client.
