(* ===== verification/KvMainSpec.v ===== *)
(** The two programs give back everything, on every way out, whatever backends
    they run on. *)
From stdpp Require Import strings.
From S2P Require Import Prelude Prog Libc Sys BenchUtils OobSpec RdmaRes Endpoint Transport TransportSpec TwoTransports KvCache KvMain.

(** * Code that keeps a property of the ledger *)

Definition keeps {A} (P : ledger → Prop) (p : sysM A) : Prop := ∀ L, P L → wp ledger_env p (fun _ => P) L.
Lemma keeps_ret {A} P (a : A) : keeps P (Ret a).
Proof. by intros L HP. Qed.
Lemma keeps_bind {A B} P (p : sysM A) (f : A → sysM B) : keeps P p → (∀ a, keeps P (f a)) → keeps P (bind p f).
Proof. intros Hp Hf L HP. eapply wp_bind_2; [by apply Hp|]. intros a L' HP'. by apply Hf. Qed.
(** The same when the fuel lasts. *)
Definition keeps_some {A} (P : ledger → Prop) (p : sysM (option A)) : Prop :=
  ∀ L, P L → wp ledger_env p (fun r L' => r ≠ None → P L') L.
Lemma keeps_some_bind' {A B} P (p : sysM (option A)) (f : A → sysM (option B)) :
  keeps_some P p → (∀ a, keeps_some P (f a)) → keeps_some P (x <~ p ;; f x).
Proof.
  intros Hp Hf L HP. eapply wp_bind_2; [by apply Hp|]. intros [a|] L' HP'; [by apply Hf, HP'|by intros Hn].
Qed.
Lemma keeps_some_bind {A B} P (p : sysM (option A)) (f : A → sysM (option B)) :
  keeps P p → (∀ a, keeps_some P (f a)) → keeps_some P (x <~ p ;; f x).
Proof.
  intros Hp Hf L HP. eapply wp_bind_2; [by apply Hp|]. intros [a|] L' HP'; [by apply Hf|by intros Hn].
Qed.
(** Calls that neither use nor make nor release anything. *)
Definition plain_op (o : sys_op) : bool :=
  match o with c_load _ _ | c_store _ _ | c_clock | c_pagesize => true | _ => false end.
Lemma keeps_plain P o : plain_op o = true → keeps P (sys o).
Proof.
  intros Ho L HP x L' (_ & _ & _ & ->). destruct o; try discriminate; cbn; unfold effect; cbn;
    by rewrite decide_True by constructor.
Qed.
Create HintDb keeps.
#[export] Hint Resolve keeps_ret : keeps.
#[export] Hint Extern 1 (keeps _ (sys _)) => apply keeps_plain; reflexivity : keeps.
Ltac keeps_tac :=
  repeat first
    [ match goal with |- keeps _ (bind _ _) => apply keeps_bind; [|intros ?] end
    | solve [auto with keeps]
    | match goal with |- keeps _ (if ?b then _ else _) => destruct b end
    | match goal with |- keeps _ (match ?x with _ => _ end) => destruct x end ].

Section programs.
Context {C D : Type} `{TransportLaws C} `{TransportLaws D} (pf fuel : nat).

Section connected.
Context (ctrl : C) (hc : list BufferHandle) (data : D) (hd : list BufferHandle) (ex L0 : ledger).
Abbreviation T2 := (two Connected ctrl hc Connected data hd ex L0).

(** Both transports keep the state on their data paths. *)
Lemma on_ctrl {A} (p : sysM A) :
  (∀ L1 L, holds_by t_owns Connected ctrl hc L1 L → wp ledger_env p (fun _ L' => holds_by t_owns Connected ctrl hc L1 L') L) →
  keeps T2 p.
Proof.
  intros Hp L HL. eapply wp_mono; [|apply (two_ctrl _ _ _ _ _ _ _ _ _ p (fun _ L1 L' => holds_by t_owns Connected ctrl hc L1 L') HL)].
  - intros a L' (L1 & Ho & Hk). by apply Hk.
  - intros L1. apply Hp.
Qed.
Lemma on_data {A} (p : sysM A) :
  (∀ L1 L, holds_by t_owns Connected data hd L1 L → wp ledger_env p (fun _ L' => holds_by t_owns Connected data hd L1 L') L) →
  keeps T2 p.
Proof.
  intros Hp L HL. eapply wp_mono; [|apply (two_data _ _ _ _ _ _ _ _ _ p (fun _ L1 L' => holds_by t_owns Connected data hd L1 L') HL)].
  - intros a L' (L1 & Ho & Hk). by apply Hk.
  - intros L1. apply Hp.
Qed.
Lemma ctrl_send h len id off : keeps T2 (t_send_async ctrl h len id off).
Proof. apply on_ctrl. intros. by apply law_send. Qed.
Lemma ctrl_recv h len id off : keeps T2 (t_recv_async ctrl h len id off).
Proof. apply on_ctrl. intros. apply law_recv; [by left|done]. Qed.
Lemma ctrl_poll b : keeps T2 (t_poll pf ctrl b).
Proof. apply on_ctrl. intros. by apply law_poll. Qed.
Lemma data_write h ra rk len id off : keeps T2 (t_write_async data h ra rk len id off).
Proof. apply on_data. intros. by apply law_write. Qed.
Lemma data_read h ra rk len id off : keeps T2 (t_read_async data h ra rk len id off).
Proof. apply on_data. intros. by apply law_read. Qed.
Lemma data_poll b : keeps T2 (t_poll pf data b).
Proof. apply on_data. intros. by apply law_poll. Qed.
#[local] Hint Resolve ctrl_send ctrl_recv ctrl_poll data_write data_read data_poll : keeps.

Lemma keeps_serve_one pool sb : keeps T2 (Server.serve_one pf pool ctrl sb).
Proof. unfold Server.serve_one, paired, failed_poll, load_int, store_int. keeps_tac. Qed.
Lemma keeps_serve pool sb : keeps T2 (Server.serve pf fuel pool ctrl sb).
Proof.
  revert pool. induction fuel as [|n IH]; intros pool; cbn [Server.serve]; [auto with keeps|].
  apply keeps_bind; [apply keeps_serve_one|]. intros [[r|p]|]; auto with keeps.
Qed.
Lemma keeps_server_meta pool sb : keeps T2 (Server.handshake_meta pf pool ctrl sb).
Proof. unfold Server.handshake_meta, paired, failed_poll, load_int, store_int, store_size. keeps_tac. Qed.
Lemma keeps_client_meta remote sb : keeps T2 (Client.handshake_meta pf remote ctrl sb).
Proof. unfold Client.handshake_meta, paired, failed_poll, load_int, store_int, load_size. keeps_tac. Qed.
Lemma keeps_kv_alloc i sb : keeps T2 (Client.kv_alloc pf i ctrl sb).
Proof. unfold Client.kv_alloc, paired, failed_poll, load_int, store_int. keeps_tac. Qed.
Lemma keeps_kv_free i sb : keeps T2 (Client.kv_free pf i ctrl sb).
Proof. unfold Client.kv_free, paired, failed_poll, load_int, store_int. keeps_tac. Qed.
Lemma keeps_data_path sb p a remote : keeps T2 (data_path_check pf data sb p a remote).
Proof. unfold data_path_check, paired, failed_poll. keeps_tac. Qed.
Lemma keeps_bench_loop n op total dep i start lat :
  (∀ i, keeps T2 (op i)) → keeps T2 (bench_loop pf n data op total dep i start lat).
Proof.
  intros Hop. assert (Hpost : ∀ m i, keeps T2 (post_window m op i)).
  { intros m. induction m as [|m IH]; intros j; cbn [post_window]; keeps_tac. }
  assert (Hpoll : ∀ m, keeps T2 (poll_window pf m data)).
  { intros m. induction m as [|m IH]; cbn [poll_window]; unfold failed_poll; keeps_tac. }
  assert (Hbatch : ∀ j m t, keeps T2 (bench_batch pf data op j m t)).
  { intros j m t. unfold bench_batch, time_now_ns. keeps_tac. }
  revert i start lat. induction n as [|n IH]; intros i start lat; cbn [bench_loop]; unfold time_now_ns; keeps_tac.
Qed.
End connected.

(** * Scopes *)

(** What the scoped buffer [sb] on [buf] holds registered, after [init]. *)
Definition sb_state (sb : ScopedBuffer) (buf : Z) (hs : list BufferHandle) : Prop :=
  sb_init sb = true ∧ (hs = [sb_h sb] ∧ addr (sb_h sb) = buf ∨ sb_h sb = handle0 ∧ hs = []).
Definition mem_res (p : Z) : ledger := ptr_res RMem [] p.
Lemma mem_res_only p : mem_only (mem_res p).
Proof. unfold mem_res, ptr_res. case_bool_decide; [by apply Forall_singleton|constructor]. Qed.

Lemma init_ctrl (ctrl : C) pd (data : D) hd ex buf sz L0 L :
  two Connected ctrl [] pd data hd ex L0 L →
  wp ledger_env (scoped_init ctrl scoped0 buf sz) (fun '(rc, sb, ctrl') L' =>
    ∃ hs, sb_state sb buf hs ∧ two Connected ctrl' hs pd data hd ex L0 L') L.
Proof.
  intros H2. eapply wp_mono; [|apply (two_ctrl _ _ _ _ _ _ _ _ _ _ _ H2 (fun L1 Hc => scoped_init_holds Connected ctrl [] buf sz L1 L ltac:(discriminate) Hc))].
  intros [[rc sb] ctrl'] L' (L1 & (Hi & [(_ & Ha & _ & Ho)|(_ & Hs & Ho)]) & Hk); eexists; (split; [split; [done|]|by apply Hk]); auto.
Qed.
Lemma init_data pc (ctrl : C) hc (data : D) ex buf sz L0 L :
  two pc ctrl hc Connected data [] ex L0 L →
  wp ledger_env (scoped_init data scoped0 buf sz) (fun '(rc, sb, data') L' =>
    ∃ hs, sb_state sb buf hs ∧ two pc ctrl hc Connected data' hs ex L0 L') L.
Proof.
  intros H2. eapply wp_mono; [|apply (two_data _ _ _ _ _ _ _ _ _ _ _ H2 (fun L1 Hc => scoped_init_holds Connected data [] buf sz L1 L ltac:(discriminate) Hc))].
  intros [[rc sb] data'] L' (L1 & (Hi & [(_ & Ha & _ & Ho)|(_ & Hs & Ho)]) & Hk); eexists; (split; [split; [done|]|by apply Hk]); auto.
Qed.
Lemma scoped_end_state {T} `{TransportLaws T} (t : T) sb buf hs L0 L :
  sb_state sb buf hs → holds_by t_owns Connected t hs L0 L →
  wp ledger_env (scoped_end t sb) (fun t' L' => holds_by t_owns Connected t' [] L0 L') L.
Proof. intros [Hi [[-> _]|[Hs ->]]] Ht; [by apply scoped_end_holds|by apply scoped_end_null]. Qed.
Lemma end_ctrl (ctrl : C) hs pd (data : D) hd ex sb buf L0 L :
  sb_state sb buf hs → two Connected ctrl hs pd data hd ex L0 L →
  wp ledger_env (scoped_end ctrl sb) (fun ctrl' L' => two Connected ctrl' [] pd data hd ex L0 L') L.
Proof.
  intros Hs H2. eapply wp_mono; [|apply (two_ctrl _ _ _ _ _ _ _ _ _ _ _ H2 (fun L1 => scoped_end_state ctrl sb buf hs L1 L Hs))].
  intros ctrl' L' (L1 & Ho & Hk). by apply Hk.
Qed.
Lemma end_data pc (ctrl : C) hc (data : D) hs ex sb buf L0 L :
  sb_state sb buf hs → two pc ctrl hc Connected data hs ex L0 L →
  wp ledger_env (scoped_end data sb) (fun data' L' => two pc ctrl hc Connected data' [] ex L0 L') L.
Proof.
  intros Hs H2. eapply wp_mono; [|apply (two_data _ _ _ _ _ _ _ _ _ _ _ H2 (fun L1 => scoped_end_state data sb buf hs L1 L Hs))].
  intros data' L' (L1 & Ho & Hk). by apply Hk.
Qed.
Lemma exchange_two pc (ctrl : C) hc (data : D) hs ex h ra rk L0 L :
  two pc ctrl hc Connected data hs ex L0 L →
  wp ledger_env (exchange_buf data h ra rk) (fun '(_, _, _, data') L' => two pc ctrl hc Connected data' hs ex L0 L') L.
Proof.
  intros H2. eapply wp_mono; [|apply (two_data _ _ _ _ _ _ _ _ _ _ _ H2 (fun L1 => law_exchange data hs h ra rk L1 L))].
  intros [[[rc a] b] data'] L' (L1 & Ho & Hk). by apply Hk.
Qed.

(** Leaving: what remains is the memory. *)
Definition leaves (r : Z) (ex L0 : ledger) : option Z → ledger → Prop := fun x L' => x = Some r ∧ L' ≡ₚ ex ++ L0.
Lemma out1_leaves pc (ctrl : C) r L0 L :
  holds_by t_owns pc ctrl [] L0 L → wp ledger_env (out1 ctrl r) (leaves r [] L0) L.
Proof. intros Hc. eapply wp_bind_2; [by eapply close_ctrl|]. by intros ctrl' L' HL. Qed.
Lemma out2_leaves pc (ctrl : C) pd (data : D) ex r L0 L :
  two pc ctrl [] pd data [] ex L0 L → wp ledger_env (out2 ctrl data r) (leaves r ex L0) L.
Proof.
  intros H2. eapply wp_bind_2; [by apply (close_data pc ctrl [] pd data ex L0 L)|]. intros d L1 Hc.
  eapply wp_mono; [|exact (out1_leaves pc ctrl r (ex ++ L0) L1 Hc)]. by intros x L' [-> HL].
Qed.
Lemma out3_leaves (ctrl : C) hs pd (data : D) ex sb buf r L0 L :
  sb_state sb buf hs → two Connected ctrl hs pd data [] ex L0 L →
  wp ledger_env (out3 ctrl data sb r) (leaves r ex L0) L.
Proof.
  intros Hs H2. eapply wp_bind_2; [by eapply end_ctrl|]. intros ctrl' L1 H2'. exact (out2_leaves _ _ _ _ _ _ _ _ H2').
Qed.
Lemma two_mem pc (ctrl : C) hc pd (data : D) hd ex L0 L : two pc ctrl hc pd data hd ex L0 L → own ex L0 (ex ++ L0).
Proof.
  intros (_ & lc & ld & _ & _ & _ & Hnd & Hf). split; [done|]. rewrite !fmap_app in Hnd.
  apply NoDup_app in Hnd as (_ & _ & (Hnd & _ & _)%NoDup_app). rewrite !Forall_app in Hf. tauto.
Qed.
(** Freeing what is left of the memory. *)
Lemma vector_end_wp p L0 L :
  own (mem_res p) L0 L → wp ledger_env (vector_end p) (fun _ L' => L' ≡ₚ L0) L.
Proof.
  unfold vector_end, mem_res, ptr_res. intros Ho. case_bool_decide; [|by apply own_nil in Ho].
  eapply (wp_release _ _ _ _ (mkRes (RMem, p) [])); [exact Ho| |done..|].
  - by apply Forall_singleton, not_elem_of_nil.
  - by intros [] L' _ _ Ho'%own_nil.
Qed.
(** Fresh memory is owned next to all there is. *)
Lemma alloc_own n p L : fresh (RMem, p) L → own [mkRes (RMem, p) []] L (effect (c_new_array n) (Some p) L).
Proof.
  intros Hf. unfold effect. cbn. rewrite decide_True by constructor.
  apply (own_acquire [] L L [mkRes (RMem, p) []]); [apply own_empty|by apply Forall_singleton|apply NoDup_singleton].
Qed.
Lemma store_two {A} a d (k : unit → sysM A) Q (L : ledger) :
  wp ledger_env (k tt) Q L → wp ledger_env (bind (sys (c_store a d)) k) Q L.
Proof. intros Hk. apply wp_step, wp_neutral; [constructor|done|done|]. by intros [] _. Qed.
Lemma vector_new_ledger n L :
  wp ledger_env (vector_new n) (fun r L' => match r with
    | Some v => own (mem_res v) L L' ∧ (v ≠ 0 → fresh (RMem, v) L)
    | None => L' = L end) L.
Proof.
  unfold vector_new. destruct (n =? 0); [split; [apply own_empty|done]|]. destruct (2 ^ 63 - 1 <? n); [done|].
  apply wp_step. intros r L1 (Hf & _ & Hfits & ->). cbn [created fits] in *. destruct r as [v|]; cbn [bind].
  - apply Forall_inv in Hf. cbn [r_key] in Hf. apply store_two. cbn [wp].
    unfold mem_res, ptr_res. rewrite bool_decide_eq_true_2 by done. split; [by apply alloc_own|done].
  - cbn [wp]. unfold effect. cbn. by rewrite decide_True by constructor.
Qed.
Lemma aligned_init_ledger n L : wp ledger_env (aligned_init n) (fun '(_, p) L' => own (mem_res p) L L') L.
Proof.
  unfold aligned_init. apply wp_step, wp_neutral; [constructor|done|done|]. intros ps _.
  apply wp_step. intros r L1 (Hf & Hnd & _ & ->). unfold effect. cbn [used released created] in *.
  rewrite decide_True by constructor. destruct r as [p|]; cbn [bind]; [|apply own_empty].
  apply store_two. cbn [wp]. rewrite <- (app_nil_r (mem_res p)). by apply own_acquire; [apply own_empty|..].
Qed.
Lemma two_mem_alloc p pc (ctrl : C) hc pd (data : D) hd ex L0 L L' :
  two pc ctrl hc pd data hd ex L0 L → own (mem_res p) L L' → two pc ctrl hc pd data hd (mem_res p ++ ex) L0 L'.
Proof.
  unfold mem_res, ptr_res. intros H2 Ho. case_bool_decide; [by eapply two_alloc|].
  apply own_nil in Ho. destruct H2 as (Hex & lc & ld & Hc & Hd & Hown). split; [done|]. exists lc, ld. by rewrite Ho.
Qed.
Lemma vector_new_two n pc (ctrl : C) hc pd (data : D) hd ex L0 L :
  two pc ctrl hc pd data hd ex L0 L →
  wp ledger_env (vector_new n) (fun r L' => match r with
    | Some v => two pc ctrl hc pd data hd (mem_res v ++ ex) L0 L' ∧ (v ≠ 0 → fresh (RMem, v) L)
    | None => two pc ctrl hc pd data hd ex L0 L' end) L.
Proof.
  intros H2. eapply wp_mono; [|apply vector_new_ledger]. intros [v|] L'; [|by intros ->].
  intros [Ho Hf]. split; [by eapply two_mem_alloc|done].
Qed.

(** * The server *)

(** The end of a program: with its verdict, and the ledger as it was. *)
Definition clean (L0 : ledger) : option Z → ledger → Prop := fun r L' => r ≠ None → L' ≡ₚ L0.
Lemma clean_none L0 L : clean L0 None L.
Proof. by intros Hn. Qed.
Lemma leaves_clean r L0 x L' : leaves r [] L0 x L' → clean L0 x L'.
Proof. by intros [_ HL] _. Qed.
#[local] Hint Resolve clean_none leaves_clean : core.

Lemma serve_slab_clean u pool (ctrl : C) hs (data : D) sb buf L0 L :
  sb_state sb buf hs → two Connected ctrl hs Connected data [] (mem_res (mem pool)) L0 L →
  wp ledger_env (serve_slab pf fuel u pool ctrl data sb) (clean L0) L.
Proof.
  intros Hsb H2. pose proof (two_mem _ _ _ _ _ _ _ _ _ H2) as Hmem. unfold serve_slab.
  eapply wp_bind_2; [by apply init_data|]. intros [[rc s] data1] L1 (hd & Hs & H21).
  assert (Hout : ∀ r data' L', two Connected ctrl hs Connected data' hd (mem_res (mem pool)) L0 L' →
    wp ledger_env (d <- scoped_end data' s ;; x <~ out3 ctrl d sb r ;; vector_end (mem pool) ;; Ret (Some x)) (clean L0) L').
  { intros r data' L' H2'. eapply wp_bind_2; [by eapply end_data|]. intros d L2 H22.
    eapply wp_bind_2; [exact (out3_leaves _ _ _ _ _ _ _ _ _ _ Hsb H22)|]. intros x L3 [-> HL3].
    eapply wp_bind_2; [eapply vector_end_wp; by rewrite HL3|]. intros [] L4 HL4 _. exact HL4. }
  case_bool_decide; [by apply Hout|].
  eapply wp_bind_2; [by apply exchange_two|]. intros [[[rc' a] b] data2] L2 H22.
  case_bool_decide; [by apply Hout|].
  eapply wp_bind_2; [by eapply keeps_serve|]. intros [r|] L3 H23; [by apply Hout|apply clean_none].
Qed.
(** Each transport's first steps. *)
Lemma listen_ctrl (ctrl : C) (data : D) port L0 L :
  two Idle ctrl [] Idle data [] [] L0 L → wp ledger_env (t_listen ctrl port) (fun '(rc, ctrl') L' =>
    ∃ ph, two ph ctrl' [] Idle data [] [] L0 L' ∧ (rc = 0 → ph = Listening)) L.
Proof.
  intros H2. eapply wp_mono; [|apply (two_ctrl _ _ _ _ _ _ _ _ _ _ _ H2 (fun L1 => law_listen ctrl port L1 L))].
  intros [rc ctrl'] L' (L1 & [[-> Ho]|[-> Ho]] & Hk); eexists; (split; [by apply Hk|done]).
Qed.
Lemma listen_data (ctrl : C) (data : D) port L0 L :
  two Listening ctrl [] Idle data [] [] L0 L → wp ledger_env (t_listen data port) (fun '(rc, data') L' =>
    ∃ ph, two Listening ctrl [] ph data' [] [] L0 L' ∧ (rc = 0 → ph = Listening)) L.
Proof.
  intros H2. eapply wp_mono; [|apply (two_data _ _ _ _ _ _ _ _ _ _ _ H2 (fun L1 => law_listen data port L1 L))].
  intros [rc data'] L' (L1 & [[-> Ho]|[-> Ho]] & Hk); eexists; (split; [by apply Hk|done]).
Qed.
Lemma accept_ctrl (ctrl : C) (data : D) L0 L :
  two Listening ctrl [] Listening data [] [] L0 L → wp ledger_env (t_accept ctrl) (fun '(rc, ctrl') L' =>
    ∃ ph, two ph ctrl' [] Listening data [] [] L0 L' ∧ (rc = 0 → ph = Connected)) L.
Proof.
  intros H2. eapply wp_mono; [|apply (two_ctrl _ _ _ _ _ _ _ _ _ _ _ H2 (fun L1 => law_accept ctrl [] L1 L))].
  intros [rc ctrl'] L' (L1 & [[-> Ho]|[-> Ho]] & Hk); eexists; (split; [by apply Hk|done]).
Qed.
Lemma accept_data (ctrl : C) (data : D) L0 L :
  two Connected ctrl [] Listening data [] [] L0 L → wp ledger_env (t_accept data) (fun '(rc, data') L' =>
    ∃ ph, two Connected ctrl [] ph data' [] [] L0 L' ∧ (rc = 0 → ph = Connected)) L.
Proof.
  intros H2. eapply wp_mono; [|apply (two_data _ _ _ _ _ _ _ _ _ _ _ H2 (fun L1 => law_accept data [] L1 L))].
  intros [rc data'] L' (L1 & [[-> Ho]|[-> Ho]] & Hk); eexists; (split; [by apply Hk|done]).
Qed.
(** A transport newly made next to a connected one. *)
Lemma two_new ph (ctrl : C) hc (data : D) L0 L :
  t_owns Idle data [] [] → holds_by t_owns ph ctrl hc L0 L → two ph ctrl hc Idle data [] [] L0 L.
Proof. intros Hd (lc & Hc & Ho). split; [constructor|]. by exists lc, []. Qed.
Lemma out1_clean ph (ctrl : C) r L0 L : holds_by t_owns ph ctrl [] L0 L → wp ledger_env (out1 ctrl r) (clean L0) L.
Proof. intros Hc. eapply wp_mono; [|exact (out1_leaves _ _ _ _ _ Hc)]. intros x L'. apply leaves_clean. Qed.
Lemma out2_clean pc (ctrl : C) pd (data : D) r L0 L :
  two pc ctrl [] pd data [] [] L0 L → wp ledger_env (out2 ctrl data r) (clean L0) L.
Proof. intros Hc. eapply wp_mono; [|exact (out2_leaves _ _ _ _ _ _ _ _ Hc)]. intros x L'. apply leaves_clean. Qed.
Lemma out3_clean (ctrl : C) hs pd (data : D) sb buf r L0 L :
  sb_state sb buf hs → two Connected ctrl hs pd data [] [] L0 L →
  wp ledger_env (out3 ctrl data sb r) (clean L0) L.
Proof. intros Hs Hc. eapply wp_mono; [|exact (out3_leaves _ _ _ _ _ _ _ _ _ _ Hs Hc)]. intros x L'. apply leaves_clean. Qed.

Lemma serve_ctrl_clean u pool (ctrl : C) (data : D) buf L0 L :
  two Connected ctrl [] Connected data [] [] L0 L →
  wp ledger_env (serve_ctrl pf fuel u pool ctrl data buf) (clean L0) L.
Proof.
  intros H2. apply store_two. eapply wp_bind_2; [by apply init_ctrl|].
  intros [[rc sb] ctrl'] L1 (hs & Hs & H21). case_bool_decide; [exact (out3_clean _ _ _ _ _ _ _ _ _ Hs H21)|].
  eapply wp_bind_2; [exact (keeps_server_meta ctrl' hs data [] [] L0 pool sb L1 H21)|]. intros [m|] L2 H22; [|apply clean_none].
  case_bool_decide; [exact (out3_clean _ _ _ _ _ _ _ _ _ Hs H22)|].
  eapply wp_bind_2; [by apply vector_new_two|]. intros [p|] L3 H23; [|exact (out3_clean _ _ _ _ _ _ _ _ _ Hs H23)].
  destruct H23 as [H23 _]. rewrite app_nil_r in H23. exact (serve_slab_clean _ (fill_free_list (set_mem p _ pool)) _ _ _ _ _ _ _ Hs H23).
Qed.
Lemma server_main_clean (ctrl : C) (data : D) buf u argv cfg0 L :
  t_owns Idle ctrl [] [] → t_owns Idle data [] [] →
  wp ledger_env (server_main pf fuel ctrl data buf u argv cfg0) (clean L) L.
Proof.
  intros Hc Hd. unfold server_main. destruct (Server.config_parse argv cfg0) as [rc cfg].
  case_bool_decide; [by intros _|].
  assert (Hi : holds_by t_owns Idle ctrl [] L L) by (exists []; split; [done|apply own_empty]).
  eapply wp_bind_2; [by apply law_listen|]. intros [rc1 c1] L1 Hc1. case_bool_decide as Hrc1.
  { by destruct Hc1 as [[-> Hc1]|[_ Hc1]]; [|apply (out1_clean _ _ _ _ _ Hc1)]. }
  destruct Hc1 as [[_ Hc1]|[-> _]]; [|done].
  eapply wp_bind_2; [apply listen_data, two_new; [exact Hd|exact Hc1]|].
  intros [rc2 d2] L2 (ph & H2 & Hph). case_bool_decide as Hrc; [exact (out2_clean _ _ _ _ _ _ _ H2)|].
  rewrite Hph in H2 by done. clear Hrc.
  eapply wp_bind_2; [by apply accept_ctrl|].
  intros [rc3 c3] L3 (ph3 & H3 & Hph3). case_bool_decide as Hrc; [exact (out2_clean _ _ _ _ _ _ _ H3)|].
  rewrite Hph3 in H3 by done. clear Hrc.
  eapply wp_bind_2; [by apply accept_data|].
  intros [rc4 d4] L4 (ph4 & H4 & Hph4). case_bool_decide as Hrc; [exact (out2_clean _ _ _ _ _ _ _ H4)|].
  rewrite Hph4 in H4 by done. by apply serve_ctrl_clean.
Qed.

(** * The client *)

Section benchmark.
Context (ctrl : C) (hc : list BufferHandle) (data : D) (hd : list BufferHandle) (ex L0 : ledger).
Abbreviation TE ex := (two Connected ctrl hc Connected data hd ex L0).
Context (Helse : Forall (elsewhere ex L0) (hc ++ hd)).

Lemma vector_end_two v L :
  TE (mem_res v ++ ex) L → wp ledger_env (vector_end v) (fun _ L' => TE ex L') L.
Proof.
  unfold vector_end, mem_res, ptr_res. case_bool_decide; [|done]. intros H2. by eapply two_free.
Qed.
Lemma keeps_run_bench op n it dep :
  (∀ ex' i, keeps (TE ex') (op i)) → keeps_some (TE ex) (run_bench pf data op n it dep).
Proof.
  intros Hop L H2. unfold run_bench. eapply wp_bind_2; [by apply vector_new_two|].
  intros [v|] L1; [|by intros H2' _]. intros [H2' _].
  eapply wp_bind_2; [by apply (keeps_bench_loop ctrl hc data hd)|]. intros [[[rc st] lat]|] L2 HL2; [|by intros Hn].
  case_bool_decide.
  - eapply wp_bind_2; [by apply vector_end_two|]. by intros [] L3 H3 _.
  - apply (wp_bind_2 _ _ _ (fun _ L' => TE (mem_res v ++ ex) L')); [by apply keeps_plain|]. intros t L3 H3.
    eapply wp_bind_2; [by apply vector_end_two|]. by intros [] L4 H4 _.
Qed.
Lemma keeps_client_slot cfg remote p sb csb : keeps_some (TE ex) (client_slot pf cfg remote p ctrl data sb csb).
Proof.
  unfold client_slot. apply keeps_some_bind; [by apply keeps_kv_alloc|]. intros [rc i].
  case_bool_decide; [by intros ? ? _|]. destruct (_ || _); [by intros ? ? _|].
  apply keeps_some_bind; [by apply keeps_data_path|]. intros rc2. case_bool_decide; [by intros ? ? _|].
  assert (Hw : ∀ ra ex' i, keeps (TE ex') (t_write_async data (Some (sb_h sb)) ra (rkey remote) (r_slot_size remote) (u64 i) 0)).
  { intros. apply data_write. }
  assert (Hr : ∀ ra ex' i, keeps (TE ex') (t_read_async data (Some (sb_h sb)) ra (rkey remote) (r_slot_size remote) (u64 i) 0)).
  { intros. apply data_read. }
  apply keeps_some_bind'; [by apply keeps_run_bench|]. intros e. destruct (negb _); [by intros ? ? _|].
  apply keeps_some_bind'; [by apply keeps_run_bench|]. intros e'. destruct (negb _); [by intros ? ? _|].
  apply keeps_some_bind; [by apply keeps_kv_free|]. intros rc3. case_bool_decide; by intros ? ? _.
Qed.
End benchmark.

Lemma mem_res_elsewhere p L0 h : addr h = p → elsewhere (mem_res p) L0 h.
Proof.
  intros <-. unfold elsewhere, mem_res, ptr_res. destruct (decide (addr h = 0)) as [|Hp]; [by left|right].
  rewrite bool_decide_eq_true_2 by done. unfold live. cbn. by left.
Qed.
Lemma elsewhere_app ex L0 h : elsewhere [] L0 h → elsewhere ex L0 h.
Proof. intros [|Hl]; [by left|right]. unfold live in *. rewrite fmap_app, elem_of_app. by right. Qed.
Lemma aligned_init_two n (ctrl : C) hc (data : D) hd L0 L :
  two Connected ctrl hc Connected data hd [] L0 L →
  wp ledger_env (aligned_init n) (fun '(_, p) L' => two Connected ctrl hc Connected data hd (mem_res p) L0 L') L.
Proof.
  intros H2. eapply wp_mono; [|apply aligned_init_ledger]. intros [_ p] L' Ho.
  rewrite <- (app_nil_r (mem_res p)). by eapply two_mem_alloc.
Qed.

Section client.
Context (buf : Z) (L0 : ledger) (Hbuf : live L0 (RMem, buf)).

Lemma sb_elsewhere sb b hs : sb_state sb b hs → (∀ h, addr h = b → elsewhere [] L0 h) → Forall (elsewhere [] L0) hs.
Proof. intros [_ [[-> Ha]|[_ ->]]] Hh; [apply Forall_singleton; by apply Hh|constructor]. Qed.
Lemma ctrl_elsewhere sb hs : sb_state sb buf hs → Forall (elsewhere [] L0) hs.
Proof. intros Hs. apply (sb_elsewhere _ _ _ Hs). intros h <-. by right. Qed.
Lemma aligned_end_two p (ctrl : C) hc (data : D) L :
  Forall (elsewhere [] L0) hc → two Connected ctrl hc Connected data [] (mem_res p) L0 L →
  wp ledger_env (aligned_end p) (fun _ L' => two Connected ctrl hc Connected data [] [] L0 L') L.
Proof.
  unfold aligned_end, mem_res, ptr_res. intros He H2. case_bool_decide; [|exact H2].
  eapply two_free; [exact H2|done| |done..]. by rewrite app_nil_r.
Qed.
Lemma client_buffer_clean cfg remote (ctrl : C) hs (data : D) sb L :
  sb_state sb buf hs → two Connected ctrl hs Connected data [] [] L0 L →
  wp ledger_env (client_buffer pf cfg remote ctrl data sb) (clean L0) L.
Proof.
  intros Hsb H2. pose proof (ctrl_elsewhere _ _ Hsb) as Helse. unfold client_buffer.
  eapply wp_bind_2; [by apply aligned_init_two|]. intros [rc p] L1 H21.
  assert (Hend : ∀ (d : D) r L', two Connected ctrl hs Connected d [] (mem_res p) L0 L' →
    wp ledger_env (aligned_end p ;; out3 ctrl d sb r) (clean L0) L').
  { intros d r L' H2'. eapply wp_bind_2; [by apply aligned_end_two|]. intros [] L2 H22.
    exact (out3_clean _ _ _ _ _ _ _ _ _ Hsb H22). }
  case_bool_decide; [by apply Hend|].
  eapply wp_bind_2; [by apply init_data|]. intros [[rc2 sb2] d2] L2 (hd & Hs2 & H22).
  assert (Hout : ∀ (d : D) r L', two Connected ctrl hs Connected d hd (mem_res p) L0 L' →
    wp ledger_env (d <- scoped_end d sb2 ;; aligned_end p ;; out3 ctrl d sb r) (clean L0) L').
  { intros d r L' H2'. eapply wp_bind_2; [by eapply end_data|]. intros d' L3. apply Hend. }
  case_bool_decide; [by apply Hout|].
  eapply wp_bind_2; [by apply exchange_two|]. intros [[[rc3 ra] rk] d3] L3 H23. case_bool_decide; [by apply Hout|].
  eapply wp_bind_2; [eapply keeps_client_slot; [|exact H23]|].
  - rewrite Forall_app. split.
    + eapply Forall_impl; [exact Helse|]. apply elsewhere_app.
    + destruct Hs2 as [_ [[Hhd Ha]|[_ Hhd]]]; rewrite Hhd; [|constructor]. by apply Forall_singleton, mem_res_elsewhere.
  - intros [r|] L4 H24; [by apply Hout, H24|apply clean_none].
Qed.
Lemma client_ctrl_clean cfg (ctrl : C) (data : D) L :
  two Connected ctrl [] Connected data [] [] L0 L →
  wp ledger_env (client_ctrl pf cfg ctrl data buf) (clean L0) L.
Proof.
  intros H2. apply store_two. eapply wp_bind_2; [by apply init_ctrl|].
  intros [[rc sb] ctrl'] L1 (hs & Hs & H21). case_bool_decide; [exact (out3_clean _ _ _ _ _ _ _ _ _ Hs H21)|].
  eapply wp_bind_2; [exact (keeps_client_meta ctrl' hs data [] [] L0 _ sb L1 H21)|]. intros [[m r]|] L2 H22; [|apply clean_none].
  case_bool_decide; [exact (out3_clean _ _ _ _ _ _ _ _ _ Hs H22)|by eapply client_buffer_clean].
Qed.
End client.
Lemma connect_data (ctrl : C) (data : D) host port L0 L :
  two Connected ctrl [] Idle data [] [] L0 L → wp ledger_env (t_connect data host port) (fun '(rc, data') L' =>
    ∃ ph, two Connected ctrl [] ph data' [] [] L0 L' ∧ (rc = 0 → ph = Connected)) L.
Proof.
  intros H2. eapply wp_mono; [|apply (two_data _ _ _ _ _ _ _ _ _ _ _ H2 (fun L1 => law_connect data host port L1 L))].
  intros [rc data'] L' (L1 & [[-> Ho]|[-> Ho]] & Hk); eexists; (split; [by apply Hk|done]).
Qed.
Lemma client_main_clean (ctrl : C) (data : D) buf argv L :
  t_owns Idle ctrl [] [] → t_owns Idle data [] [] → live L (RMem, buf) →
  wp ledger_env (client_main pf ctrl data buf argv) (clean L) L.
Proof.
  intros Hc Hd Hbuf. unfold client_main. destruct (match argv with [_; a] => _ | _ => false end); [by intros _|].
  destruct (client_config_parse argv client_config0) as [rc cfg]. case_bool_decide; [by intros _|].
  assert (Hi : holds_by t_owns Idle ctrl [] L L) by (exists []; split; [done|apply own_empty]).
  eapply wp_bind_2; [by apply law_connect|]. intros [rc1 c1] L1 Hc1. case_bool_decide as Hrc1.
  { by destruct Hc1 as [[-> Hc1]|[_ Hc1]]; [|apply (out1_clean _ _ _ _ _ Hc1)]. }
  destruct Hc1 as [[_ Hc1]|[-> _]]; [|done].
  eapply wp_bind_2; [apply connect_data, two_new; [exact Hd|exact Hc1]|].
  intros [rc2 d2] L2 (ph & H2 & Hph). case_bool_decide as Hrc; [exact (out2_clean _ _ _ _ _ _ _ H2)|].
  rewrite Hph in H2 by done. by apply client_ctrl_clean.
Qed.
End programs.
