(* ===== verification/KvPrograms.v ===== *)
(** The two programs of phase 4 as they are built: control messages on the
    socket backend, data on the RDMA backend. *)
From stdpp Require Import strings.
From S2P Require Import Prelude Prog Sys OobSpec Transport TransportSpec TcpBackend TcpSpec RdmaBackend RdmaSpec KvCache KvMain KvMainSpec.

#[local] Existing Instances tcp_transport TcpSpec.tcp_laws rdma_transport RdmaSpec.rdma_laws.

Lemma tcp_created : t_owns Idle Tcp.create [] [].
Proof. split; [done|]. by split. Qed.
Lemma rdma_created : t_owns Idle Rdma.create [] [].
Proof. split; [by exists 0, 0|]. split; [constructor|]. split; [constructor|]. by repeat split. Qed.

(** C29. The server gives back everything: whatever the command line, the
    answers of the operating system and of the verbs libraries and the requests of
    the client, and on whichever of its ways out it ends, no descriptor, queue
    pair, region, identifier or memory block it made is left, and none was used
    after its release or released twice.  This holds on every pair of backends
    that keep the transport laws, for objects that own nothing when made. *)
Theorem server_no_leak {C D : Type} `{TransportLaws C} `{TransportLaws D} (pf fuel : nat) (ctrl : C) (data : D)
    (ctrl_buf unused : Z) (argv : list string) (cfg : Server.Config) (L : ledger) :
  t_owns Idle ctrl [] [] → t_owns Idle data [] [] →
  wp ledger_env (server_main pf fuel ctrl data ctrl_buf unused argv cfg) (fun r L' => r ≠ None → L' ≡ₚ L) L.
Proof. apply server_main_clean. Qed.
Lemma server_no_leak_witness :
  wp ledger_env (server_main 10 10 Tcp.create Rdma.create 4096 7 ["kv_server"; "7000"; "4"; "64"]%string (Server.mkConfig 0 0 0))
    (fun r L' => r ≠ None → L' ≡ₚ []) [].
Proof. apply (server_no_leak 10 10 Tcp.create Rdma.create 4096 7 _ _ [] tcp_created rdma_created). Defined.

(** C30. The client gives back everything too, its aligned buffer and the latency
    vector of each benchmark included, on every way out. [ctrl_buf] is memory that
    outlives the transports. *)
Theorem client_no_leak {C D : Type} `{TransportLaws C} `{TransportLaws D} (pf : nat) (ctrl : C) (data : D)
    (ctrl_buf : Z) (argv : list string) (L : ledger) :
  t_owns Idle ctrl [] [] → t_owns Idle data [] [] → live L (RMem, ctrl_buf) →
  wp ledger_env (client_main pf ctrl data ctrl_buf argv) (fun r L' => r ≠ None → L' ≡ₚ L) L.
Proof. apply client_main_clean. Qed.
Lemma client_no_leak_witness :
  wp ledger_env (client_main 10 Tcp.create Rdma.create 4096 ["kv_bench"; "10.0.0.1"; "7000"; "--depth"; "4"]%string)
    (fun r L' => r ≠ None → L' ≡ₚ [mkRes (RMem, 4096) []]) [mkRes (RMem, 4096) []].
Proof.
  apply (client_no_leak 10 Tcp.create Rdma.create 4096 _ [mkRes (RMem, 4096) []] tcp_created rdma_created).
  apply (bool_decide_unpack _). vm_compute. reflexivity.
Defined.
