(* ===== verification/KvBenchSpec.v ===== *)
(** The timing loop of the client on the RDMA backend: how many operations are
    in flight, which the reported latencies and bandwidth cover, and that it
    ends. *)
From stdpp Require Import strings.
From S2P Require Import Prelude Prog Sys BenchUtils RdmaOps Window Transport RdmaBackend KvCache KvMain.
(** * Posting and polling *)

(** An operation that posts one request when it returns 0 and none otherwise. *)
Definition op_posts (op : Z → sysM Z) : Prop := ∀ i d tr, in_flight tr < d →
  wp any (op i) (fun rc tr' => rc = 0 ∧ grows d 1 0 tr tr' ∨ rc ≠ 0 ∧ grows d 0 0 tr tr') tr.
Lemma async_grows k qp mr size id off d tr : in_flight tr < d →
  wp any (rc <- post k qp mr size id off ;; if bool_decide (rc ≠ 0) then Ret (-1) else Ret 0)
    (fun rc tr' => rc = 0 ∧ grows d 1 0 tr tr' ∨ rc ≠ 0 ∧ grows d 0 0 tr tr') tr.
Proof.
  intros Hd. eapply wp_bind_2; [by apply post_grows|]. intros rc tr' [[-> Hg]|[-> Hg]]; [by left|right].
  by split.
Qed.
Lemma write_posts data h ra rk n id0 : op_posts (fun i => t_write_async data h ra rk n (id0 i) 0).
Proof.
  intros i d tr Hd. cbn [t_write_async rdma_transport]. unfold Rdma.write_async. destruct h as [h|].
  - by apply (async_grows (PWrite [SEND_SIGNALED] _ _)).
  - right. split; [lia|apply grows_refl].
Qed.
Lemma read_posts data h ra rk n id0 : op_posts (fun i => t_read_async data h ra rk n (id0 i) 0).
Proof.
  intros i d tr Hd. cbn [t_read_async rdma_transport]. unfold Rdma.read_async. destruct h as [h|].
  - by apply (async_grows (PRead _ _)).
  - right. split; [lia|apply grows_refl].
Qed.

Lemma failed_poll_grows pf data d tr : in_flight tr ≤ d →
  wp any (failed_poll pf data) (fun r tr' => match r with
    | None => more d tr tr' ∧ spun pf tr'
    | Some true => more d tr tr'
    | Some false => grows d 0 1 tr tr' end) tr.
Proof.
  intros Hd. unfold failed_poll. cbn [t_poll rdma_transport]. unfold Rdma.poll, rai_poll_cq. case_bool_decide; cbn [bind].
  { cbn. eapply grows_more, grows_refl. }
  eapply wp_bind_2; [by apply poll_loop_grows|]. intros [[rc o]|] tr'; cbn [wp].
  - intros [[-> Ht]|[Hrc Ht]]; [done|]. by rewrite bool_decide_eq_true_2.
  - intros (Ht & polls & -> & Hl & Hp). split; [done|]. by exists tr, polls.
Qed.

(** * The loop *)

Section loop.
Context (pf : nat) (data : Rdma.RdmaTransport) (op : Z → sysM Z) (Hop : op_posts op).

Lemma post_window_grows d n i tr : in_flight tr + Z.of_nat n ≤ d →
  wp any (post_window n op i) (fun ok tr' => if ok then grows d (Z.of_nat n) 0 tr tr' else more d tr tr') tr.
Proof.
  revert i tr. induction n as [|n IH]; intros i tr Hd; cbn [post_window]; [apply grows_refl|].
  eapply wp_bind_2; [apply (Hop i d); lia|]. intros rc tr1 [[-> Hg]|[Hrc Hg]].
  - cbn. eapply wp_mono; [|apply IH; rewrite (grows_flight _ _ _ _ _ Hg); lia].
    intros [|] tr2 H2; [|eapply more_trans; [by eapply grows_more|done]]. eapply grows_trans; [done..|lia|lia].
  - rewrite bool_decide_eq_true_2 by done. by eapply grows_more.
Qed.
Lemma poll_window_grows d n tr : in_flight tr ≤ d →
  wp any (poll_window pf n data) (fun r tr' => match r with
    | Some true => grows d 0 (Z.of_nat n) tr tr'
    | Some false => more d tr tr'
    | None => more d tr tr' ∧ spun pf tr' end) tr.
Proof.
  revert tr. induction n as [|n IH]; intros tr Hd; cbn [poll_window]; [apply grows_refl|].
  eapply wp_bind_2; [by apply failed_poll_grows|]. intros [[|]|] tr1; cbn [wp]; [done| |done].
  intros Hg. eapply wp_mono; [|apply IH; rewrite (grows_flight _ _ _ _ _ Hg); lia].
  intros [[|]|] tr2.
  - intros H2. eapply grows_trans; [done..|lia|lia].
  - intros H2. eapply more_trans; [by eapply grows_more|done].
  - intros [H2 Hs]. split; [|done]. eapply more_trans; [by eapply grows_more|done].
Qed.
Lemma bench_batch_grows d n i start tr : in_flight tr = 0 → Z.of_nat n ≤ d →
  wp any (bench_batch pf data op i n start) (fun r tr' => match r with
    | Some (Some _) => grows d (Z.of_nat n) (Z.of_nat n) tr tr'
    | Some None => more d tr tr'
    | None => more d tr tr' ∧ spun pf tr' end) tr.
Proof.
  intros H0 Hn. unfold bench_batch. eapply wp_bind_2; [apply (post_window_grows d); lia|].
  intros [|] tr1 H1; cbn [negb]; [|done]. pose proof (grows_flight _ _ _ _ _ H1) as Hf.
  eapply wp_bind_2; [apply (poll_window_grows d); lia|]. intros [[|]|] tr2; cbn [negb wp].
  - intros H2. pose proof (grows_flight _ _ _ _ _ H2) as Hf2. intros y tr3 ->. cbn [wp].
    destruct (clock_grows d tr2 y ltac:(lia)) as [Hc _].
    cbn [bind wp]. apply (grows_trans d (Z.of_nat n) 0 0 (Z.of_nat n) _ _ tr tr1); [exact H1| |lia|lia].
    by apply (grows_trans d 0 (Z.of_nat n) 0 0 _ _ tr1 tr2); [| |lia|lia].
  - intros H2. eapply more_trans; [by eapply grows_more|done].
  - intros [H2 Hs]. split; [|done]. eapply more_trans; [by eapply grows_more|done].
Qed.

Context (total depth : Z) (Hdepth : 1 ≤ depth) (Htotal : kWarmup ≤ total).
(** The start of the first batch with no warm-up request in it. *)
Definition timed_from : Z := depth * ((kWarmup + depth - 1) / depth).
Lemma timed_from_bounds : kWarmup ≤ timed_from < kWarmup + depth.
Proof.
  unfold timed_from. pose proof (Z.div_mod (kWarmup + depth - 1) depth ltac:(lia)).
  pose proof (Z.mod_pos_bound (kWarmup + depth - 1) depth ltac:(lia)). lia.
Qed.
Lemma warm_batch j : kWarmup ≤ j * depth ↔ timed_from ≤ j * depth.
Proof.
  pose proof timed_from_bounds as Hb. split; [|lia]. intros Hj. unfold timed_from in *.
  set (q := (kWarmup + depth - 1) / depth) in *. assert (q - 1 < j) by nia. nia.
Qed.
Lemma next_batch j : j * depth < timed_from → j * depth + depth ≤ timed_from.
Proof.
  unfold timed_from. set (q := (kWarmup + depth - 1) / depth). intros Hj. assert (j < q) by nia. nia.
Qed.

(** Before the batch from [i]: the requests before it are posted and completed,
    and the clock of the first timed batch is kept. *)
Record loop_at (i bw : Z) (tr : trace) : Prop := {
  la_step : ∃ j, 0 ≤ j ∧ i = j * depth;
  la_posted : posted tr = Z.min i total;
  la_flight : in_flight tr = 0;
  la_within : within depth tr;
  la_start : clocks_positive tr → (bw = 0 ∧ i ≤ timed_from) ∨ (timed_from < i ∧ timed_from < total ∧ stamped timed_from bw tr) }.
Definition loop_end (r : option (Z * Z * list Z)) (tr : trace) : Prop :=
  within depth tr ∧ match r with
  | None => spun pf tr
  | Some (rc, bw, _) => rc = -1 ∨ rc = 0 ∧ posted tr = total ∧ reaped tr = total ∧
      (clocks_positive tr → if timed_from <? total then stamped timed_from bw tr else bw = 0)
  end.
Lemma loop_at_end i bw lat tr : total ≤ i → loop_at i bw tr → loop_end (Some (0, bw, lat)) tr.
Proof.
  intros Hi [_ Hp Hf Hw Hs]. split; [done|]. right. unfold in_flight in Hf. split_and!; [done|lia..|].
  intros Hc. destruct (Hs Hc) as [[-> ?]|(? & ? & ?)].
  - by rewrite (proj2 (Z.ltb_ge _ _)) by lia.
  - by rewrite (proj2 (Z.ltb_lt _ _)) by lia.
Qed.
Lemma loop_at_next i bw tr start tr' :
  loop_at i bw tr → i < total → grows depth (Z.min depth (total - i)) (Z.min depth (total - i)) (tr ++ [clock_ev start]) tr' →
  loop_at (i + depth) (if (kWarmup <=? i) && (bw =? 0) then start else bw) tr'.
Proof.
  intros [(j & Hj & ->) Hp Hf Hw Hs] Hi Hg.
  destruct (clock_grows depth tr start ltac:(lia)) as [Hc Hst].
  pose proof (grows_trans _ _ _ _ _ _ _ _ _ _ Hc Hg eq_refl eq_refl) as Ht.
  split.
  - exists (j + 1). lia.
  - rewrite (gr_posted _ _ _ _ _ Ht), Hp. lia.
  - rewrite (grows_flight _ _ _ _ _ Ht). lia.
  - by apply Ht.
  - intros Hpos. pose proof (clocks_positive_mono _ _ (gr_prefix _ _ _ _ _ Ht) Hpos) as Hpos'.
    assert (0 < start).
    { apply Hpos. destruct (gr_prefix _ _ _ _ _ Hg) as [tr2 ->]. rewrite !elem_of_app. left. right. by left. }
    assert (Hwarm := warm_batch j). destruct (Hs Hpos') as [[-> Hle]|(Hlt & Hlt' & Hstamp)].
    + destruct (Z.leb_spec kWarmup (j * depth)); cbn.
      * right. assert (j * depth = timed_from) as He by lia. rewrite Hp, Z.min_l, He in Hst by lia.
        split; [lia|]. split; [lia|]. eapply stamped_mono; [|exact Hst]. apply Hg.
      * left. split; [done|]. apply next_batch; lia.
    + right. split; [lia|]. split; [done|]. assert (Hbw : 0 < bw).
      { destruct Hstamp as (k & Hk & _). apply Hpos'. by eapply list_elem_of_lookup_2. }
      rewrite (proj2 (Z.eqb_neq bw 0)), andb_false_r by lia. eapply stamped_mono; [|exact Hstamp]. apply Ht.
Qed.
Lemma more_within tr tr' : more depth tr tr' → within depth tr → within depth tr'.
Proof. intros (n & m & Hg). apply Hg. Qed.
Lemma bench_loop_grows fuel i bw lat tr :
  total - i ≤ Z.of_nat fuel → loop_at i bw tr →
  wp any (bench_loop pf fuel data op total depth i bw lat) loop_end tr.
Proof.
  revert i bw lat tr. induction fuel as [|fuel IH]; intros i bw lat tr Hfuel Hat; cbn [bench_loop];
    (destruct (Z.ltb_spec i total); [|by eapply loop_at_end]); [lia|].
  intros start tr1 ->. cbn [bind]. destruct (clock_grows depth tr start) as [Hc _].
  { rewrite (la_flight _ _ _ Hat). lia. }
  pose proof (gr_within _ _ _ _ _ Hc (la_within _ _ _ Hat)) as Hw.
  eapply wp_bind_2; [apply (bench_batch_grows depth)|].
  - fold (clock_ev start). rewrite (grows_flight _ _ _ _ _ Hc), (la_flight _ _ _ Hat). done.
  - lia.
  - rewrite Z2Nat.id by lia. intros [[per|]|] tr2; cbn [wp].
    + intros Hg. apply IH; [lia|]. by eapply loop_at_next.
    + intros Hg. split; [by eapply more_within|by left].
    + intros [Hg Hs]. split; [by eapply more_within|done].
Qed.
End loop.

(** * The whole run *)

Lemma vector_new_grows d n tr : in_flight tr ≤ d → wp any (vector_new n) (fun _ tr' => grows d 0 0 tr tr') tr.
Proof.
  intros Hd. unfold vector_new. destruct (n =? 0); [apply grows_refl|]. destruct (2 ^ 63 - 1 <? n); [apply grows_refl|].
  intros r tr1 ->. cbn [bind]. pose proof (plain_grows d (c_new_array n) r tr eq_refl Hd) as H1.
  destruct r as [v|]; [|done]. intros [] tr2 ->. cbn [wp].
  apply (grows_trans d 0 0 0 0 _ _ tr _ _ H1); [|lia|lia]. apply (plain_grows d (c_store _ _) tt); [done|].
  rewrite (grows_flight _ _ _ _ _ H1). lia.
Qed.
Lemma vector_end_grows d v tr : in_flight tr ≤ d → wp any (vector_end v) (fun _ tr' => grows d 0 0 tr tr') tr.
Proof.
  intros Hd. unfold vector_end. case_bool_decide; [|apply grows_refl]. intros [] tr1 ->.
  by apply (plain_grows d (c_delete_array v) tt).
Qed.

(** The operation of the "write" run and of the "read" run. *)
Definition bench_op (write : bool) (data : Rdma.RdmaTransport) (h : BufferHandle) (ra rk n : Z) : Z → sysM Z :=
  fun i => if write then t_write_async data (Some h) ra rk n (u64 i) 0 else t_read_async data (Some h) ra rk n (u64 i) 0.
Lemma bench_op_posts write data h ra rk n : op_posts (bench_op write data h ra rk n).
Proof. destruct write; [apply (write_posts _ _ _ _ _ u64)|apply (read_posts _ _ _ _ _ u64)]. Qed.

Definition bench_did (pf : nat) (n iters depth : Z) (r : option bench_end) (tr : trace) : Prop :=
  within depth tr ∧ match r with
  | None => spun pf tr
  | Some (Done rep) =>
      let total := kWarmup + iters in
      0 ≤ iters ∧ posted tr = total ∧ reaped tr = total ∧ rep_bytes rep = u64 (iters * n) ∧
      (clocks_positive tr → ∃ fin, stamped total fin tr ∧
         if timed_from depth <? total then ∃ start, stamped (timed_from depth) start tr ∧ rep_time rep = time_elapsed_ns start fin
         else rep_time rep = fin)
  | Some _ => True
  end.
Lemma run_bench_did pf data op n iters depth :
  op_posts op → 1 ≤ depth →
  wp any (run_bench pf data op n iters depth) (bench_did pf n iters depth) [].
Proof.
  intros Hop Hd. unfold run_bench. destruct (Z.ltb_spec iters 0) as [|Hi]; [split; [apply within_nil; lia|done]|].
  eapply wp_bind_2; [apply (vector_new_grows depth); change (in_flight []) with 0; lia|].
  intros v tr1 H1. assert (Hw1 : within depth tr1) by (apply H1, within_nil; lia). destruct v as [v|]; [|done].
  assert (Hat : loop_at (kWarmup + iters) depth 0 0 tr1).
  { pose proof (gr_posted _ _ _ _ _ H1) as Hp. pose proof (grows_flight _ _ _ _ _ H1) as Hf.
    change (posted []) with 0 in Hp. change (in_flight []) with 0 in Hf.
    split; [by exists 0|unfold kWarmup; lia|lia|done|]. intros _. left. split; [done|].
    pose proof (timed_from_bounds depth Hd). unfold kWarmup in *. lia. }
  eapply wp_bind_2; [apply (bench_loop_grows pf data op Hop (kWarmup + iters) depth Hd); [lia|exact Hat]|].
  intros [[[rc bw] lat]|] tr2 [Hw2 Hend]; [|done]. case_bool_decide as Hrc.
  - destruct (decide (in_flight tr2 ≤ depth)) as [Hf|Hf]; [|exfalso; apply Hf; specialize (Hw2 (length tr2)); by rewrite take_ge in Hw2].
    eapply wp_bind_2; [by apply (vector_end_grows depth)|]. intros [] tr3 H3. split; [by apply H3|done].
  - destruct Hend as [->|(_ & Hp & Hr & Hst)]; [lia|].
    assert (Hf : in_flight tr2 = 0) by (unfold in_flight; lia).
    intros fin tr3 ->. cbn [bind]. destruct (clock_grows depth tr2 fin ltac:(lia)) as [Hc Hfin].
    eapply wp_bind_2; [apply (vector_end_grows depth); fold (clock_ev fin); rewrite (grows_flight _ _ _ _ _ Hc); lia|].
    intros [] tr3 H3. pose proof (grows_trans _ _ _ _ _ _ _ _ _ _ Hc H3 eq_refl eq_refl) as Ht.
    split; [by apply Ht|]. cbn [rep_bytes rep_time]. split_and!; [done|rewrite (gr_posted _ _ _ _ _ Ht); lia|
      rewrite (gr_reaped _ _ _ _ _ Ht); lia|done|].
    intros Hpos. exists fin. split; [rewrite <- Hp; eapply stamped_mono; [apply H3|exact Hfin]|].
    specialize (Hst (clocks_positive_mono _ _ (gr_prefix _ _ _ _ _ Ht) Hpos)).
    destruct (timed_from depth <? kWarmup + iters).
    + exists bw. split; [|done]. eapply stamped_mono; [apply Ht|exact Hst].
    + subst bw. unfold time_elapsed_ns. destruct (Z.ltb_spec 0 fin); [lia|].
      assert (0 < fin); [|lia]. apply Hpos. destruct Hfin as (k & Hk & _). destruct (gr_prefix _ _ _ _ _ H3) as [t3 ->].
      apply elem_of_app. left. by eapply list_elem_of_lookup_2.
Qed.

(** C31. The timing loop keeps at most [depth] requests in flight, at every
    moment and whatever the adapter answers; when it reports, exactly
    [kWarmup + iters] requests were posted and as many completions taken, so
    nothing is left in flight; and it ends, unless a poll spun [pf] times on an
    empty queue. *)
Theorem bench_window (pf : nat) (write : bool) (data : Rdma.RdmaTransport) (h : BufferHandle) (ra rk n iters depth : Z) :
  1 ≤ depth →
  wp any (run_bench pf data (bench_op write data h ra rk n) n iters depth)
    (fun r tr => (∀ k, in_flight (take k tr) ≤ depth) ∧
       (∀ rep, r = Some (Done rep) → posted tr = kWarmup + iters ∧ reaped tr = kWarmup + iters) ∧
       (r = None → spun pf tr)) [].
Proof.
  intros Hd. eapply wp_mono; [|apply run_bench_did; [apply bench_op_posts|done]].
  intros r tr [Hw Hr]. split; [done|]. split; [by intros rep ->; destruct Hr as (_ & Hp & Hq & _)|by intros ->].
Qed.
(** C32. What the reported bandwidth divides: the bytes are those of [iters]
    requests, but the time runs from the first batch that starts at or after the
    warm-up.  When [depth] does not divide [kWarmup] that batch starts after some
    counted requests were already done, and when no batch starts there at all the
    "elapsed" time is the absolute value of the clock. *)
Theorem bench_timed_span (pf : nat) (write : bool) (data : Rdma.RdmaTransport) (h : BufferHandle) (ra rk n iters depth : Z) :
  1 ≤ depth →
  wp any (run_bench pf data (bench_op write data h ra rk n) n iters depth)
    (fun r tr => ∀ rep, r = Some (Done rep) → clocks_positive tr →
       rep_bytes rep = u64 (iters * n) ∧ ∃ fin, stamped (kWarmup + iters) fin tr ∧
       (timed_from depth < kWarmup + iters →
          ∃ start, stamped (timed_from depth) start tr ∧ rep_time rep = time_elapsed_ns start fin) ∧
       (kWarmup + iters ≤ timed_from depth → rep_time rep = fin)) [].
Proof.
  intros Hd. eapply wp_mono; [|apply run_bench_did; [apply bench_op_posts|done]].
  intros r tr [_ Hr] rep -> Hpos. destruct Hr as (_ & _ & _ & Hb & Ht). split; [done|].
  destruct (Ht Hpos) as (fin & Hfin & Hcase). exists fin. split; [done|].
  destruct (Z.ltb_spec (timed_from depth) (kWarmup + iters)); split; intros; (done || lia).
Qed.

(** * Witnesses *)

Definition demo_handle : BufferHandle := mkBufferHandle 4096 8192 11.
Definition demo_data : Rdma.RdmaTransport :=
  Rdma.mkRdma demo_qp 7002 (-1) false EmptyString {[ 11 := demo_mr ]}.
(** An adapter that completes at once, and a clock of one nanosecond per call. *)
Definition demo_adapter (o : op sys_sig) (i : nat) : ans sys_sig o :=
  match o return sys_ans o with
  | v_poll_cq _ => (1, mkWc true 0)
  | c_new_array _ => Some 64
  | c_clock => Z.of_nat i + 1
  | o => default_ans o
  end.
Definition run_demo (iters depth : Z) : option bench_end * trace :=
  run (by_oracle demo_adapter) (run_bench 1 demo_data (bench_op true demo_data demo_handle 4096 23 64) 64 iters depth) [].
(** Four requests counted: at depth 4 they are timed; at depth 16 none of them is
    and the time is the clock itself. *)
Example demo_bench :
  (run_demo 4 4).1 = Some (Done (mkReport (mkLatStats 2 2 2 2) 256 10)) ∧
  (run_demo 4 16).1 = Some (Done (mkReport (mkLatStats 2 2 2 2) 256 55)).
Proof. split; vm_compute; reflexivity. Qed.
Lemma bench_window_witness : in_flight (take 9 (run_demo 4 4).2) ≤ 4 ∧ posted (run_demo 4 4).2 = 24.
Proof.
  pose proof (run_wp any (by_oracle demo_adapter) _ _ _ (by_oracle_any demo_adapter)
    (bench_window 1 true demo_data demo_handle 4096 23 64 4 4 ltac:(lia))) as (H1 & H2 & _).
  split; [apply H1|]. by destruct (H2 _ (proj1 demo_bench)) as [? _].
Defined.
Lemma bench_timed_span_witness : ∃ fin, stamped 24 fin (run_demo 4 16).2 ∧ fin = 55.
Proof.
  pose proof (run_wp any (by_oracle demo_adapter) _ _ _ (by_oracle_any demo_adapter)
    (bench_timed_span 1 true demo_data demo_handle 4096 23 64 4 16 ltac:(lia))) as H.
  destruct (H _ (proj2 demo_bench)) as (_ & fin & Hfin & _ & Hlate).
  - apply clocks_ok. vm_compute. reflexivity.
  - exists fin. split; [exact Hfin|]. symmetry. apply Hlate. vm_compute. discriminate.
Defined.
