(* ===== verification/OneTransport.v ===== *)
(** One transport and the memory of the scopes around it, with the rules for
    the scopes' constructors and destructors. *)
From stdpp Require Import strings.
From S2P Require Import Prelude Prog Libc Sys BenchUtils OobSpec RdmaRes Transport TransportSpec TwoTransports KvMain KvMainSpec.

Section one.
Context {T : Type} `{TransportLaws T}.
Abbreviation holds := (holds_by t_owns).

(** The transport in its phase with [hs] registered, and the memory [ex]. *)
Definition one (ph : phase) (t : T) (hs : list BufferHandle) (ex L0 L : ledger) : Prop :=
  mem_only ex ∧ ∃ l, t_owns ph t hs l ∧ own (l ++ ex) L0 L.
Lemma one_perm ph t hs ex ex' L0 L : ex ≡ₚ ex' → one ph t hs ex L0 L → one ph t hs ex' L0 L.
Proof.
  intros Hp (Hex & l & Hl & Ho). split; [by unfold mem_only; rewrite <- Hp|]. exists l. split; [done|].
  eapply own_proper; [|done..|exact Ho]. by rewrite Hp.
Qed.
Lemma one_swap ph t hs p v ex L0 L : one ph t hs (p ++ v ++ ex) L0 L → one ph t hs (v ++ p ++ ex) L0 L.
Proof. apply one_perm. solve_Permutation. Qed.
Lemma one_start (t : T) L : t_owns Idle t [] [] → one Idle t [] [] L L.
Proof. intros Ht. split; [constructor|]. exists []. split; [done|apply own_empty]. Qed.
(** A call on the transport. *)
Lemma one_op {A} ph t hs ex L0 L (op : sysM A) (Φ : A → ledger → ledger → Prop) :
  one ph t hs ex L0 L →
  (∀ L1, holds ph t hs L1 L → wp ledger_env op (fun a L' => Φ a L1 L') L) →
  wp ledger_env op (fun a L' => ∃ L1, Φ a L1 L' ∧ ∀ ph' t' hs', holds ph' t' hs' L1 L' → one ph' t' hs' ex L0 L') L.
Proof.
  intros (Hex & l & Hl & Ho) Hop.
  assert (Hs : own l (ex ++ L0) L).
  { apply (own_split _ _ _ _ Ho). apply Forall_forall. intros r _. by apply mem_only_unreferred. }
  eapply wp_mono; [|apply (Hop (ex ++ L0)); by exists l].
  intros a L' HΦ. exists (ex ++ L0). split; [done|]. intros ph' t' hs' (l' & Hl' & Ho').
  split; [done|]. exists l'. split; [done|]. by eapply own_frame.
Qed.
(** One that keeps the state. *)
Lemma one_keeps {A} ph t hs ex L0 (op : sysM A) :
  (∀ L1 L, holds ph t hs L1 L → wp ledger_env op (fun _ L' => holds ph t hs L1 L') L) →
  keeps (one ph t hs ex L0) op.
Proof.
  intros Hop L H1. eapply wp_mono; [|apply (one_op _ _ _ _ _ _ op (fun _ L1 L' => holds ph t hs L1 L') H1); intros L1; apply Hop].
  intros a L' (L1 & Ho & Hk). by apply Hk.
Qed.
(** One that changes the phase when it succeeds. *)
Lemma one_step ph ph' t hs ex L0 L (op : sysM (Z * T)) :
  one ph t hs ex L0 L →
  (∀ L1, holds ph t hs L1 L → wp ledger_env op (fun '(rc, t') L' =>
     rc = 0 ∧ holds ph' t' hs L1 L' ∨ rc = -1 ∧ holds ph t' hs L1 L') L) →
  wp ledger_env op (fun '(rc, t') L' => rc = 0 ∧ one ph' t' hs ex L0 L' ∨ rc ≠ 0 ∧ one ph t' hs ex L0 L') L.
Proof.
  intros H1 Hop. eapply wp_mono; [|apply (one_op _ _ _ _ _ _ _ _ H1 Hop)].
  intros [rc t'] L' (L1 & [[-> Ho]|[-> Ho]] & Hk); [left|right]; (split; [done|]); by apply Hk.
Qed.
Lemma one_init ph t ex buf sz L0 L :
  ph ≠ Idle → one ph t [] ex L0 L →
  wp ledger_env (scoped_init t scoped0 buf sz) (fun '(rc, sb, t') L' =>
    ∃ hs, sb_state sb buf hs ∧ one ph t' hs ex L0 L') L.
Proof.
  intros Hph H1. eapply wp_mono; [|apply (one_op _ _ _ _ _ _ _ _ H1 (fun L1 => scoped_init_holds ph t [] buf sz L1 L Hph))].
  intros [[rc sb] t'] L' (L1 & (Hi & [(_ & Ha & _ & Ho)|(_ & Hs & Ho)]) & Hk); eexists; (split; [split; [done|]|by apply Hk]); auto.
Qed.
Lemma one_end ph t hs ex sb buf L0 L :
  ph ≠ Idle → sb_state sb buf hs → one ph t hs ex L0 L →
  wp ledger_env (scoped_end t sb) (fun t' L' => one ph t' [] ex L0 L') L.
Proof.
  intros Hph Hs H1. eapply wp_mono; [|apply (one_op _ _ _ _ _ _ _ (fun t' L1 L' => holds ph t' [] L1 L') H1)].
  - intros t' L' (L1 & Ho & Hk). by apply Hk.
  - intros L1 Ht. destruct Hs as [Hi [[-> _]|[Hs ->]]]; [by apply scoped_end_holds|by apply scoped_end_null].
Qed.
Lemma exchange_one t hs ex h ra rk L0 L :
  one Connected t hs ex L0 L →
  wp ledger_env (exchange_buf t h ra rk) (fun '(_, _, _, t') L' => one Connected t' hs ex L0 L') L.
Proof.
  intros H1. eapply wp_mono; [|apply (one_op _ _ _ _ _ _ _ _ H1 (fun L1 => law_exchange t hs h ra rk L1 L))].
  intros [[[rc a] b] t'] L' (L1 & Ho & Hk). by apply Hk.
Qed.
Lemma one_close ph t L0 L : one ph t [] [] L0 L → wp ledger_env (t_close t) (fun _ L' => L' ≡ₚ L0) L.
Proof.
  intros (_ & l & Hl & Ho). rewrite app_nil_r in Ho.
  eapply wp_mono; [|apply (law_close ph); by exists l]. by intros t' L' [? _].
Qed.

(** Memory made next to the transport, and given back when no buffer is
    registered. *)
Lemma one_alloc ph t hs r ex L0 L L' :
  one ph t hs ex L0 L → r_parents r = [] → own [r] L L' → one ph t hs (r :: ex) L0 L'.
Proof.
  intros (Hex & l & Hl & Ho) Hr Hown. split; [by apply Forall_cons|]. exists l. split; [done|].
  eapply own_proper; [|done..|exact (own_trans _ _ _ _ _ Hown Ho)]. solve_Permutation.
Qed.
Lemma one_free ph t p o ex L0 L :
  one ph t [] (mkRes (RMem, p) [] :: ex) L0 L →
  used o = [] → (∀ x, created o x = []) → released o L = Some (RMem, p) →
  wp ledger_env (sys o) (fun _ L' => one ph t [] ex L0 L') L.
Proof.
  intros (Hex & l & Hl & Ho) Hu Hcr Hr. apply Forall_cons in Hex as [_ Hex].
  eapply (wp_release _ _ _ _ (mkRes (RMem, p) []) (l ++ ex)); [|  |exact Hu|exact Hcr|exact Hr|].
  - eapply own_proper; [|done..|exact Ho]. solve_Permutation.
  - apply Forall_cons. split; [apply not_elem_of_nil|]. apply Forall_app. split; [|by apply mem_only_unreferred].
    apply law_closed in Hl. unfold self_contained in Hl. rewrite Forall_forall in Hl. apply Forall_forall.
    intros r Hin Hp. destruct (Hl r Hin) as (_ & _ & Hpar). rewrite Forall_forall in Hpar.
    destruct (Hpar _ Hp) as [Hk|[Hk|Hk]]; [|done|by apply elem_of_nil in Hk].
    apply list_elem_of_fmap in Hk as (r' & Hk & Hr'). destruct (Hl r' Hr') as (_ & Hm & _). by rewrite <- Hk in Hm.
  - intros x L' _ _ Hown. split; [done|]. by exists l.
Qed.
(** Memory given back while buffers in other memory are registered. *)
Lemma one_free_held ph t hs p o ex L0 L :
  one ph t hs (mkRes (RMem, p) [] :: ex) L0 L → p ≠ 0 → Forall (fun h => live ex (RMem, addr h)) hs →
  used o = [] → (∀ x, created o x = []) → released o L = Some (RMem, p) →
  wp ledger_env (sys o) (fun _ L' => one ph t hs ex L0 L') L.
Proof.
  intros (Hex & l & Hl & Ho) Hp Hhs Hu Hcr Hr. apply Forall_cons in Hex as [_ Hex].
  assert (Ho' : own (mkRes (RMem, p) [] :: l ++ ex) L0 L).
  { eapply own_proper; [|reflexivity|reflexivity|exact Ho]. solve_Permutation. }
  assert (Hnl : ¬ live (ex ++ []) (RMem, p)).
  { rewrite app_nil_r. destruct Ho' as (_ & Hnd & _). rewrite fmap_cons, fmap_app in Hnd.
    apply NoDup_cons in Hnd as [Hnd _]. rewrite elem_of_app in Hnd. unfold live. tauto. }
  eapply (wp_release _ _ _ _ (mkRes (RMem, p) [])); [exact Ho'| |done..|].
  - apply Forall_cons. split; [apply not_elem_of_nil|]. apply Forall_app. split; [|by apply mem_only_unreferred].
    apply (closed_elsewhere hs l p ex []); [by eapply law_closed|done| |done].
    eapply Forall_impl; [exact Hhs|]. intros h Hh. right. by rewrite app_nil_r.
  - intros x L' _ _ Hown. split; [done|]. by exists l.
Qed.
Lemma aligned_end_one ph t p ex L0 L :
  one ph t [] (mem_res p ++ ex) L0 L → wp ledger_env (aligned_end p) (fun _ L' => one ph t [] ex L0 L') L.
Proof. unfold aligned_end, mem_res, ptr_res. intros H1. case_bool_decide; [by eapply one_free|exact H1]. Qed.
Lemma vector_end_one ph t p ex L0 L :
  one ph t [] (mem_res p ++ ex) L0 L → wp ledger_env (vector_end p) (fun _ L' => one ph t [] ex L0 L') L.
Proof. unfold vector_end, mem_res, ptr_res. intros H1. case_bool_decide; [by eapply one_free|exact H1]. Qed.
Lemma one_mem ph t hs p ex L0 L L' : one ph t hs ex L0 L → own (mem_res p) L L' → one ph t hs (mem_res p ++ ex) L0 L'.
Proof.
  unfold mem_res, ptr_res. intros H1 Ho. case_bool_decide; [by eapply one_alloc|].
  apply own_nil in Ho. destruct H1 as (Hex & l & Hl & Hown). split; [done|]. exists l. by rewrite Ho.
Qed.
Lemma aligned_init_one n ph t hs ex L0 L :
  one ph t hs ex L0 L → wp ledger_env (aligned_init n) (fun '(_, p) L' => one ph t hs (mem_res p ++ ex) L0 L') L.
Proof. intros H1. eapply wp_mono; [|apply aligned_init_ledger]. intros [_ p] L' Ho. by eapply one_mem. Qed.
Lemma vector_new_one n ph t hs ex L0 L :
  one ph t hs ex L0 L →
  wp ledger_env (vector_new n) (fun r L' => match r with
    | Some v => one ph t hs (mem_res v ++ ex) L0 L' | None => one ph t hs ex L0 L' end) L.
Proof.
  intros H1. eapply wp_mono; [|apply vector_new_ledger]. intros [v|] L'; [|by intros ->].
  intros [Ho _]. by eapply one_mem.
Qed.
End one.

Lemma keeps_for {R} P n lo (body : Z → sysM (option R)) : (∀ i, keeps P (body i)) → keeps P (for_ n lo body).
Proof.
  intros Hb. revert lo. induction n as [|n IH]; intros lo; cbn [for_]; [apply keeps_ret|].
  apply keeps_bind; [apply Hb|]. intros [r|]; [apply keeps_ret|apply IH].
Qed.

(** The next call of the code, discharged by a tactic. *)
Tactic Notation "next" tactic1(tac) := eapply wp_bind_2; [tac|cbv beta].
