(* ===== verification/BackendCompare.v ===== *)
(** [backend_compare.cpp]: the two phase 2 benchmarks, a send/receive ping-pong
    on either backend and acknowledged writes on RDMA, with [main]. *)
From Stdlib Require Import Ascii.
From stdpp Require Import strings.
From S2P Require Import Prelude Prog Libc Sys BenchUtils Transport BenchConfig KvMain.

Module Compare.

Record Config := mkConfig {
  server_ip : string; port : Z; iters : Z; csize : Z; is_rdma : bool; csv : bool; csv_header : bool }.
Definition config0 : Config := mkConfig EmptyString 12345 1000 4096 false false false.
Definition set_ip v c := mkConfig v (port c) (iters c) (csize c) (is_rdma c) (csv c) (csv_header c).
Definition set_port v c := mkConfig (server_ip c) v (iters c) (csize c) (is_rdma c) (csv c) (csv_header c).
Definition set_iters v c := mkConfig (server_ip c) (port c) v (csize c) (is_rdma c) (csv c) (csv_header c).
Definition set_size v c := mkConfig (server_ip c) (port c) (iters c) v (is_rdma c) (csv c) (csv_header c).
Definition set_rdma v c := mkConfig (server_ip c) (port c) (iters c) (csize c) v (csv c) (csv_header c).
Definition set_csv c := mkConfig (server_ip c) (port c) (iters c) (csize c) (is_rdma c) true (csv_header c).
Definition set_csv_header c := mkConfig (server_ip c) (port c) (iters c) (csize c) (is_rdma c) (csv c) true.

(** The loop over [argv + 1]. An option that takes a value and has none is an
    error, and so is an unknown one. *)
Definition valued (a : string) : option (Z → Config → Config) :=
  if String.eqb a "--port" then Some set_port
  else if String.eqb a "--iters" then Some set_iters
  else if String.eqb a "--size" then Some set_size
  else None.
Fixpoint config_args (args : list string) (cfg : Config) : Z * Config :=
  match args with
  | [] => (0, cfg)
  | a :: args =>
    if String.eqb a "rdma" then config_args args (set_rdma true cfg)
    else if String.eqb a "tcp" then config_args args (set_rdma false cfg)
    else match valued a with
    | Some set => match args with
                  | [] => (-1, cfg)
                  | v :: args => config_args args (set (atoi v) cfg)
                  end
    | None =>
      if String.eqb a "--csv" then config_args args (set_csv cfg)
      else if String.eqb a "--csv-header" then config_args args (set_csv_header cfg)
      else if positional a then config_args args (set_ip a cfg)
      else (-1, cfg)
    end
  end.
Definition config_parse (argv : list string) (cfg : Config) : Z * Config := config_args (tail argv) cfg.

(** [AlignedBuf] is the struct of the same name of [kv_bench.cpp]. *)
Definition buf_init (len : Z) : sysM (Z * Z) := aligned_init len.

(** A statement of one of the loops: None to go on, [Some (Some rc)] to return
    [rc], [Some None] when a poll's fuel ran out. *)
Abbreviation stmt := (sysM (option (option Z))).
Definition go_on : stmt := Ret None.
Definition andthen (a b : stmt) : stmt :=
  r <- a ;; match r with None => b | r => Ret r end.
Notation "a ⨾ b" := (andthen a b) (at level 62, right associativity).
(** [if (p != 0) return -1;] *)
Definition must (p : sysM Z) : stmt :=
  rc <- p ;; Ret (if bool_decide (rc ≠ 0) then Some (Some (-1)) else None).

Section runs.
Context {T : Type} `{Transport T} (pf fuel : nat) (cfg : Config).
Definition must_poll (t : T) : stmt :=
  r <- t_poll pf t false ;;
  Ret (match r with
       | None => Some None
       | Some (rc, _) => if bool_decide (rc ≠ 0) then Some (Some (-1)) else None
       end).

Definition len : Z := u64 (csize cfg).
Definition total_iters : Z := kWarmup + iters cfg.
(** Receives kept posted on the RDMA path. *)
Definition prepost : Z := if is_rdma cfg then (if total_iters <? 8 then total_iters else 8) else 0.
Definition recv_one (t : T) (h : BufferHandle) : stmt := must (t_recv_async t (Some h) len 1 0).
Definition send_one (t : T) (h : BufferHandle) : stmt := must (t_send_async t (Some h) len 1 0).
Definition prepost_recvs (t : T) (h : BufferHandle) : stmt :=
  for_ (Z.to_nat prepost) 0 (fun _ => recv_one t h).
Definition replace_recv (t : T) (h : BufferHandle) (i : Z) : stmt :=
  if i + prepost <? total_iters then recv_one t h else go_on.

(** What a run ends with: 0 or -1, and the transport.  The scopes are left with
    the registration first, the buffer after it. *)
Definition leave (t : T) (sb : ScopedBuffer) (p : Z) (r : Z) : sysM (option (Z * T)) :=
  t <- scoped_end t sb ;; aligned_end p ;; Ret (Some (r, t)).
Definition finish (t : T) (sb : ScopedBuffer) (p : Z) (s : stmt) : sysM (option (Z * T)) :=
  r <- s ;;
  match r with
  | Some None => Ret None
  | Some (Some rc) => leave t sb p rc
  | None => leave t sb p 0
  end.

(** * The servers *)

Definition server_rr (t : T) (h : BufferHandle) (i : Z) : stmt :=
  if is_rdma cfg then must_poll t ⨾ replace_recv t h i ⨾ send_one t h ⨾ must_poll t
  else recv_one t h ⨾ send_one t h.
Definition run_server_sendrecv (t : T) : sysM (option (Z * T)) :=
  let! (rc, t) := t_listen t (port cfg) in
  if bool_decide (rc ≠ 0) then Ret (Some (-1, t)) else
  let! (rc, p) := buf_init len in
  if bool_decide (rc ≠ 0) then aligned_end p ;; Ret (Some (-1, t)) else
  let! (rc, sb, t) := scoped_init t scoped0 p len in
  if bool_decide (rc ≠ 0) then leave t sb p (-1) else
  r <- prepost_recvs t (sb_h sb) ;;
  match r with Some None => Ret None | Some (Some rc) => leave t sb p rc | None =>
  let! (rc, t) := t_accept t in
  if bool_decide (rc ≠ 0) then leave t sb p (-1) else
  finish t sb p (for_ (Z.to_nat total_iters) 0 (server_rr t (sb_h sb)))
  end.

(** [while ( *doorbell != final_seq)] *)
Fixpoint await_doorbell (n : nat) (doorbell final_seq : Z) : stmt :=
  match n with
  | O => Ret (Some None)
  | S n =>
    d <- sys (c_load doorbell 4) ;;
    if le_val d =? final_seq then go_on else await_doorbell n doorbell final_seq
  end.
Definition run_server_write (unused : Z) (t : T) : sysM (option (Z * T)) :=
  if csize cfg <? 4 then Ret (Some (-1, t)) else
  let! (rc, t) := t_listen t (port cfg) in
  if bool_decide (rc ≠ 0) then Ret (Some (-1, t)) else
  let! (rc, p) := buf_init len in
  if bool_decide (rc ≠ 0) then aligned_end p ;; Ret (Some (-1, t)) else
  let! (rc, sb, t) := scoped_init t scoped0 p len in
  if bool_decide (rc ≠ 0) then leave t sb p (-1) else
  let! (rc, t) := t_accept t in
  if bool_decide (rc ≠ 0) then leave t sb p (-1) else
  let! (rc, _, _, t) := exchange_buf t (Some (sb_h sb)) (Some unused) (Some unused) in
  if bool_decide (rc ≠ 0) then leave t sb p (-1) else
  finish t sb p (await_doorbell fuel (addr (sb_h sb) + csize cfg - 4) (u32 (kWarmup + iters cfg))).

(** * The clients *)

(** The timed loop: [setup] before the clock starts, the iteration, its time.
    The result is what is returned, the start of the timed span and the times. *)
Fixpoint timed_loop (n : nat) (setup : Z → sysM unit) (iter : Z → stmt) (i bw_start : Z) (lat : list Z)
    : sysM (option (Z * Z * list Z)) :=
  match n with
  | O => Ret (Some (0, bw_start, lat))
  | S n =>
    setup i ;;
    iter_start <- time_now_ns ;;
    let bw_start := if i =? kWarmup then iter_start else bw_start in
    r <- iter i ;;
    match r with
    | Some None => Ret None
    | Some (Some rc) => Ret (Some (rc, bw_start, lat))
    | None =>
      if kWarmup <=? i then
        now <- time_now_ns ;;
        timed_loop n setup iter (i + 1) bw_start (<[Z.to_nat (i - kWarmup) := time_elapsed_ns iter_start now]> lat)
      else timed_loop n setup iter (i + 1) bw_start lat
    end
  end.
(** The loop over all iterations and what is made of its times; the two printed
    forms show the same statistics. *)
Definition measured (setup : Z → sysM unit) (iter : Z → stmt) : sysM (option bench_end) :=
  r <- timed_loop (Z.to_nat total_iters) setup iter 0 0 (replicate (Z.to_nat (iters cfg)) 0) ;;
  match r with
  | None => Ret None
  | Some (rc, bw_start, lat) =>
    if bool_decide (rc ≠ 0) then Ret (Some Failed) else
    now <- time_now_ns ;;
    Ret (Some (Done (mkReport (latency_stats (sort_u64 lat) (iters cfg)) (u64 (u64 (csize cfg) * u64 (iters cfg)))
                              (time_elapsed_ns bw_start now))))
  end.
(** Leaving a client's scopes: the registration, the times, the buffer. *)
Definition leave_client (t : T) (sb : ScopedBuffer) (v p : Z) (e : bench_end) : sysM (option (bench_end * T)) :=
  t <- scoped_end t sb ;; vector_end v ;; aligned_end p ;; Ret (Some (e, t)).
Definition latencies : sysM (option Z) := vector_new (if iters cfg <? 0 then SIZE_MAX else 8 * iters cfg).

Definition client_rr (t : T) (h : BufferHandle) (i : Z) : stmt :=
  if is_rdma cfg then replace_recv t h i ⨾ send_one t h ⨾ must_poll t ⨾ must_poll t
  else send_one t h ⨾ recv_one t h.
Definition run_client_sendrecv (t : T) : sysM (option (bench_end * T)) :=
  v <- latencies ;;
  match v with
  | None => Ret (Some (Threw, t))
  | Some v =>
    let! (rc, t) := t_connect t (Some (server_ip cfg)) (port cfg) in
    if bool_decide (rc ≠ 0) then vector_end v ;; Ret (Some (Failed, t)) else
    let! (rc, p) := buf_init len in
    if bool_decide (rc ≠ 0) then vector_end v ;; aligned_end p ;; Ret (Some (Failed, t)) else
    let! (rc, sb, t) := scoped_init t scoped0 p len in
    if bool_decide (rc ≠ 0) then leave_client t sb v p Failed else
    r <- prepost_recvs t (sb_h sb) ;;
    match r with
    | Some None => Ret None
    | Some (Some _) => leave_client t sb v p Failed
    | None =>
      e <- measured (fun _ => Ret tt) (client_rr t (sb_h sb)) ;;
      match e with None => Ret None | Some e => leave_client t sb v p e end
    end
  end.

(** The doorbell word of iteration [i]. *)
Definition ring (p i : Z) : sysM unit := sys (c_store (p + csize cfg - 4) (le_bytes 4 (u32 (i + 1)))).
Definition client_write (t : T) (h : BufferHandle) (remote_addr rkey i : Z) : stmt :=
  must (t_write_async t (Some h) remote_addr rkey len (u64 i) 0) ⨾ must_poll t.
Definition run_client_write (unused : Z) (t : T) : sysM (option (bench_end * T)) :=
  v <- latencies ;;
  match v with
  | None => Ret (Some (Threw, t))
  | Some v =>
    if csize cfg <? 4 then vector_end v ;; Ret (Some (Failed, t)) else
    let! (rc, t) := t_connect t (Some (server_ip cfg)) (port cfg) in
    if bool_decide (rc ≠ 0) then vector_end v ;; Ret (Some (Failed, t)) else
    let! (rc, p) := buf_init len in
    if bool_decide (rc ≠ 0) then vector_end v ;; aligned_end p ;; Ret (Some (Failed, t)) else
    let! (rc, sb, t) := scoped_init t scoped0 p len in
    if bool_decide (rc ≠ 0) then leave_client t sb v p Failed else
    let! (rc, ra, rk, t) := exchange_buf t (Some (sb_h sb)) (Some unused) (Some unused) in
    if bool_decide (rc ≠ 0) then leave_client t sb v p Failed else
    e <- measured (ring p) (client_write t (sb_h sb) (default 0 ra) (default 0 rk)) ;;
    match e with None => Ret None | Some e => leave_client t sb v p e end
  end.

(** * The two blocks of [main]: a transport made, run and closed *)

(** The run's verdict, and the destructor of the [unique_ptr]. *)
Definition closing {R} (ok : R → bool) (run : sysM (option (R * T))) : sysM (option bool) :=
  r <- run ;;
  match r with
  | None => Ret None
  | Some (r, t) => t_close t ;; Ret (Some (ok r))
  end.
Definition sendrecv_block (t : T) : sysM (option bool) :=
  if String.eqb (server_ip cfg) EmptyString then closing (Z.eqb 0) (run_server_sendrecv t)
  else closing bench_ok (run_client_sendrecv t).
Definition write_block (unused : Z) (t : T) : sysM (option bool) :=
  if String.eqb (server_ip cfg) EmptyString then closing (Z.eqb 0) (run_server_write unused t)
  else closing bench_ok (run_client_write unused t).
End runs.

(** [tcp] and [rdma] are what the two factories return; [unused] is what
    uninitialised locals held. *)
Definition main {C D : Type} `{Transport C} `{Transport D} (pf fuel : nat) (tcp : C) (rdma : D) (unused : Z)
    (argv : list string) : sysM (option Z) :=
  let '(rc, cfg) := config_parse argv config0 in
  if bool_decide (rc ≠ 0) then Ret (Some 1) else
  if csv_header cfg then Ret (Some 0) else
  ok <- (if is_rdma cfg then sendrecv_block pf cfg rdma else sendrecv_block pf cfg tcp) ;;
  match ok with
  | None => Ret None
  | Some false => Ret (Some 1)
  | Some true =>
    if is_rdma cfg then
      ok <- write_block pf fuel (set_port (port cfg + 2) cfg) unused rdma ;;
      Ret ((fun ok : bool => if ok then 0 else 1) <$> ok)
    else Ret (Some 0)
  end.

End Compare.
