(* ===== verification/BackendSpec.v ===== *)
(** The backend comparison gives back everything on every way out, on every
    backend that keeps the laws of the interface. *)
From stdpp Require Import strings.
From S2P Require Import Prelude Prog Libc Sys BenchUtils OobSpec RdmaRes Transport TransportSpec TwoTransports OneTransport.
From S2P Require Import TcpBackend TcpSpec RdmaBackend RdmaSpec KvMain KvMainSpec KvPrograms BackendCompare.

Module CompareSpec.
Import Compare.

Section runs.
Context {T : Type} `{TransportLaws T} (pf fuel : nat) (cfg : Config).

Lemma keeps_andthen P (a b : stmt) : keeps P a → keeps P b → keeps P (a ⨾ b).
Proof. intros Ha Hb. apply keeps_bind; [done|]. intros [r|]; [apply keeps_ret|done]. Qed.
Lemma keeps_must P (p : sysM Z) : keeps P p → keeps P (must p).
Proof. intros Hp. apply keeps_bind; [done|]. intros rc. apply keeps_ret. Qed.

Section connected.
Context (t : T) (hs : list BufferHandle) (ex L0 : ledger).
Abbreviation O1 := (one Connected t hs ex L0).
Lemma keeps_recv_one ph h : may_recv (t_recv_blocks t) ph → keeps (one ph t hs ex L0) (recv_one cfg t h).
Proof. intros Hp. apply keeps_must, one_keeps. intros. by apply law_recv. Qed.
Lemma keeps_send_one h : keeps O1 (send_one cfg t h).
Proof. apply keeps_must, one_keeps. intros. by apply law_send. Qed.
Lemma keeps_must_poll : keeps O1 (must_poll pf t).
Proof.
  apply keeps_bind; [apply one_keeps; intros; by apply law_poll|]. intros r. apply keeps_ret.
Qed.
Lemma keeps_replace h i : keeps O1 (replace_recv cfg t h i).
Proof. unfold replace_recv. destruct (_ <? _); [by apply keeps_recv_one; left|apply keeps_ret]. Qed.
Lemma keeps_prepost ph h : may_recv (t_recv_blocks t) ph ∨ is_rdma cfg = false → keeps (one ph t hs ex L0) (prepost_recvs cfg t h).
Proof.
  intros [Hp|Hr]; unfold prepost_recvs; [apply keeps_for; intros _; by apply keeps_recv_one|].
  unfold prepost. rewrite Hr. apply keeps_ret.
Qed.
Lemma keeps_server_rr h i : keeps O1 (server_rr pf cfg t h i).
Proof.
  unfold server_rr. destruct (is_rdma cfg); repeat apply keeps_andthen;
    auto using keeps_must_poll, keeps_replace, keeps_send_one; by apply keeps_recv_one; left.
Qed.
Lemma keeps_client_rr h i : keeps O1 (client_rr pf cfg t h i).
Proof.
  unfold client_rr. destruct (is_rdma cfg); repeat apply keeps_andthen;
    auto using keeps_must_poll, keeps_replace, keeps_send_one; by apply keeps_recv_one; left.
Qed.
Lemma keeps_client_write h ra rk i : keeps O1 (client_write pf cfg t h ra rk i).
Proof. apply keeps_andthen; [|apply keeps_must_poll]. apply keeps_must, one_keeps. intros. by apply law_write. Qed.
Lemma keeps_await n a v : keeps O1 (await_doorbell n a v).
Proof. induction n as [|n IH]; cbn [await_doorbell]; unfold go_on; keeps_tac. Qed.
Lemma keeps_timed_loop n setup iter i bw lat :
  (∀ i, keeps O1 (setup i)) → (∀ i, keeps O1 (iter i)) → keeps O1 (timed_loop n setup iter i bw lat).
Proof.
  intros Hs Hi. revert i bw lat. induction n as [|n IH]; intros i bw lat; cbn [timed_loop]; [apply keeps_ret|].
  unfold time_now_ns. keeps_tac.
Qed.
Lemma keeps_measured setup iter :
  (∀ i, keeps O1 (setup i)) → (∀ i, keeps O1 (iter i)) → keeps O1 (measured cfg setup iter).
Proof.
  intros Hs Hi. apply keeps_bind; [by apply keeps_timed_loop|]. intros [[[rc st] lat]|]; unfold time_now_ns; keeps_tac.
Qed.
End connected.

(** * Every way out of a run *)

Definition ran {R} (L0 : ledger) : option (R * T) → ledger → Prop := fun x L' =>
  match x with None => True | Some (_, t') => ∃ ph, one ph t' [] [] L0 L' end.
Lemma ran_ret {R} ph t (r : R) L0 L : one ph t [] [] L0 L → wp ledger_env (Ret (Some (r, t))) (ran L0) L.
Proof. intros H1. by exists ph. Qed.

Lemma leave_ran ph t hs sb p r L0 L :
  ph ≠ Idle → sb_state sb p hs → one ph t hs (mem_res p ++ []) L0 L → wp ledger_env (leave t sb p r) (ran L0) L.
Proof.
  intros Hph Hs H1. next (by eapply one_end). intros t' L1 H2.
  next (eapply aligned_end_one; exact H2). intros [] L2 H3. by eapply ran_ret.
Qed.
Lemma finish_ran t hs sb p s L0 L :
  sb_state sb p hs → one Connected t hs (mem_res p ++ []) L0 L → keeps (one Connected t hs (mem_res p ++ []) L0) s →
  wp ledger_env (finish t sb p s) (ran L0) L.
Proof.
  intros Hs H1 Hk. next (by apply Hk). intros [[rc|]|] L1 H2; [|done|]; by apply (leave_ran Connected t hs).
Qed.
Lemma leave_client_ran ph t hs sb v p e L0 L :
  ph ≠ Idle → sb_state sb p hs → one ph t hs (mem_res p ++ mem_res v ++ []) L0 L →
  wp ledger_env (leave_client t sb v p e) (ran L0) L.
Proof.
  intros Hph Hs H1. next (by eapply one_end). intros t' L1 H2.
  next (eapply vector_end_one, one_swap; exact H2). intros [] L2 H3.
  next (eapply aligned_end_one; exact H3). intros [] L3 H4. by eapply ran_ret.
Qed.

(** The common beginning of the scopes: the buffer made, and on failure nothing
    but a null pointer to free. *)
Lemma run_server_sendrecv_ran t L0 L :
  (is_rdma cfg = true → t_recv_blocks t = false) → one Idle t [] [] L0 L →
  wp ledger_env (run_server_sendrecv pf cfg t) (ran L0) L.
Proof.
  intros Hb H1. unfold run_server_sendrecv.
  next (eapply one_step; [exact H1|]; intros L1; apply law_listen).
  intros [rc t1] L1 [[-> H2]|[Hrc H2]]; [|rewrite bool_decide_eq_true_2 by done; by eapply ran_ret].
  cbn [bool_decide]. next (eapply aligned_init_one; exact H2). intros [rc p] L2 H3.
  destruct (bool_decide _).
  { next (eapply aligned_end_one; exact H3). intros [] L3 H4. by eapply ran_ret. }
  next (by apply (one_init Listening)). intros [[rc2 sb] t2] L3 (hs & Hs & H4).
  destruct (bool_decide _); [by eapply (leave_ran Listening)|].
  eapply wp_bind_2.
  { eapply (keeps_prepost t2 hs _ L0 Listening); [|exact H4]. destruct (is_rdma cfg) eqn:Hr; [left|by right].
    right. split; [done|]. rewrite (law_blocks t2 t). by apply Hb. }
  intros [[rc3|]|] L4 H5; [by eapply (leave_ran Listening)|done|].
  next (eapply one_step; [exact H5|]; intros L5; apply law_accept).
  intros [rc4 t3] L5 [[-> H6]|[Hrc H6]]; [|rewrite bool_decide_eq_true_2 by done; by eapply (leave_ran Listening)].
  cbn [bool_decide]. eapply finish_ran; [done|exact H6|]. apply keeps_for. intros i. apply keeps_server_rr.
Qed.
Lemma run_server_write_ran u t L0 L :
  one Idle t [] [] L0 L → wp ledger_env (run_server_write fuel cfg u t) (ran L0) L.
Proof.
  intros H1. unfold run_server_write. destruct (_ <? 4); [by eapply ran_ret|].
  next (eapply one_step; [exact H1|]; intros L1; apply law_listen).
  intros [rc t1] L1 [[-> H2]|[Hrc H2]]; [|rewrite bool_decide_eq_true_2 by done; by eapply ran_ret].
  cbn [bool_decide]. next (eapply aligned_init_one; exact H2). intros [rc p] L2 H3.
  destruct (bool_decide _).
  { next (eapply aligned_end_one; exact H3). intros [] L3 H4. by eapply ran_ret. }
  next (by apply (one_init Listening)). intros [[rc2 sb] t2] L3 (hs & Hs & H4).
  destruct (bool_decide _); [by eapply (leave_ran Listening)|].
  next (eapply one_step; [exact H4|]; intros L5; apply law_accept).
  intros [rc4 t3] L5 [[-> H6]|[Hrc H6]]; [|rewrite bool_decide_eq_true_2 by done; by eapply (leave_ran Listening)].
  cbn [bool_decide]. next (by apply exchange_one). intros [[[rc5 a] b] t4] L6 H7.
  destruct (bool_decide _); [by eapply (leave_ran Connected)|].
  eapply finish_ran; [done|exact H7|apply keeps_await].
Qed.
Lemma run_client_sendrecv_ran t L0 L :
  one Idle t [] [] L0 L → wp ledger_env (run_client_sendrecv pf cfg t) (ran L0) L.
Proof.
  intros H1. unfold run_client_sendrecv. next (by apply vector_new_one).
  intros [v|] L1 H2; [|by eapply ran_ret].
  next (eapply one_step; [exact H2|]; intros L2; apply law_connect).
  intros [rc t1] L2 [[-> H3]|[Hrc H3]].
  2: { rewrite bool_decide_eq_true_2 by done. next (eapply vector_end_one; exact H3). intros [] L3 H4. by eapply ran_ret. }
  cbn [bool_decide]. next (eapply aligned_init_one; exact H3). intros [rc p] L3 H4.
  destruct (bool_decide _).
  { next (eapply vector_end_one, one_swap; exact H4). intros [] L4 H5.
    next (eapply aligned_end_one; exact H5). intros [] L5 H6. by eapply ran_ret. }
  next (by apply (one_init Connected)). intros [[rc2 sb] t2] L4 (hs & Hs & H5).
  destruct (bool_decide _); [by eapply (leave_client_ran Connected)|].
  next (eapply (keeps_prepost t2 hs _ L0 Connected); [left; by left|exact H5]).
  intros [[rc3|]|] L5 H6; [by eapply (leave_client_ran Connected)|done|].
  next (apply keeps_measured; [..|exact H6]).
  - intros i. apply keeps_ret.
  - intros i. apply keeps_client_rr.
  - intros [e|] L6 H7; [by eapply (leave_client_ran Connected)|done].
Qed.
Lemma run_client_write_ran u t L0 L :
  one Idle t [] [] L0 L → wp ledger_env (run_client_write pf cfg u t) (ran L0) L.
Proof.
  intros H1. unfold run_client_write. next (by apply vector_new_one).
  intros [v|] L1 H2; [|by eapply ran_ret].
  destruct (_ <? 4).
  { next (eapply vector_end_one; exact H2). intros [] L3 H4. by eapply ran_ret. }
  next (eapply one_step; [exact H2|]; intros L2; apply law_connect).
  intros [rc t1] L2 [[-> H3]|[Hrc H3]].
  2: { rewrite bool_decide_eq_true_2 by done. next (eapply vector_end_one; exact H3). intros [] L3 H4. by eapply ran_ret. }
  cbn [bool_decide]. next (eapply aligned_init_one; exact H3). intros [rc p] L3 H4.
  destruct (bool_decide _).
  { next (eapply vector_end_one, one_swap; exact H4). intros [] L4 H5.
    next (eapply aligned_end_one; exact H5). intros [] L5 H6. by eapply ran_ret. }
  next (by apply (one_init Connected)). intros [[rc2 sb] t2] L4 (hs & Hs & H5).
  destruct (bool_decide _); [by eapply (leave_client_ran Connected)|].
  next (by apply exchange_one). intros [[[rc5 a] b] t4] L6 H7.
  destruct (bool_decide _); [by eapply (leave_client_ran Connected)|].
  next (apply keeps_measured; [..|exact H7]).
  - intros i. by apply keeps_plain.
  - intros i. apply keeps_client_write.
  - intros [e|] L7 H8; [by eapply (leave_client_ran Connected)|done].
Qed.

(** A block of [main]: the transport is closed on every way out. *)
Lemma closing_clean {R} (ok : R → bool) (p : sysM (option (R * T))) L :
  wp ledger_env p (ran L) L → wp ledger_env (closing ok p) (fun r L' => r ≠ None → L' ≡ₚ L) L.
Proof.
  intros Hp. next exact Hp. intros [[r t]|] L1; [|by intros _ Hn]. intros [ph H1].
  next (eapply one_close; exact H1). by intros t' L2 HL _.
Qed.
Lemma sendrecv_block_clean t L :
  (is_rdma cfg = true → t_recv_blocks t = false) → t_owns Idle t [] [] →
  wp ledger_env (sendrecv_block pf cfg t) (fun r L' => r ≠ None → L' ≡ₚ L) L.
Proof.
  intros Hb Ht%(one_start _ L). unfold sendrecv_block. destruct (String.eqb _ _); apply closing_clean.
  - by apply run_server_sendrecv_ran.
  - by apply run_client_sendrecv_ran.
Qed.
Lemma write_block_clean u t L :
  t_owns Idle t [] [] → wp ledger_env (write_block pf fuel cfg u t) (fun r L' => r ≠ None → L' ≡ₚ L) L.
Proof.
  intros Ht%(one_start _ L). unfold write_block. destruct (String.eqb _ _); apply closing_clean.
  - by apply run_server_write_ran.
  - by apply run_client_write_ran.
Qed.
End runs.

(** C36. The backend comparison gives back every resource on every way out: for
    any command line, both blocks, either side, over any two backends that keep
    the transport laws, of which the second takes receives before its peer is
    there, as the RDMA runs need, whatever the system answers. *)
Theorem compare_no_leak {C D : Type} `{TransportLaws C} `{TransportLaws D} (pf fuel : nat) (tcp : C) (rdma : D)
    (unused : Z) (argv : list string) (L : ledger) :
  t_owns Idle tcp [] [] → t_owns Idle rdma [] [] → t_recv_blocks rdma = false →
  wp ledger_env (main pf fuel tcp rdma unused argv) (fun r L' => r ≠ None → L' ≡ₚ L) L.
Proof.
  intros Hc Hd Hb. unfold main. destruct (config_parse argv config0) as [rc cfg].
  destruct (bool_decide _); [by intros _|]. destruct (csv_header cfg); [by intros _|].
  destruct (is_rdma cfg) eqn:Hr.
  - next (apply sendrecv_block_clean; [done|exact Hd]). intros [[|]|] L1 HL1; cbn; [|by intros _; apply HL1|by intros Hn].
    next (apply write_block_clean; exact Hd). intros [ok|] L2 HL2; [|by intros Hn]. intros _. rewrite HL2 by done. by apply HL1.
  - next (apply sendrecv_block_clean; [by rewrite Hr|exact Hc]). intros [[|]|] L1 HL1; cbn; intros Hn; try done; by apply HL1.
Qed.
Lemma compare_no_leak_witness :
  wp ledger_env (main 10 10 Tcp.create Rdma.create 0 ["backend_compare"; "rdma"; "10.0.0.1"; "--size"; "64"]%string)
    (fun r L' => r ≠ None → L' ≡ₚ [mkRes (RMem, 4096) []]) [mkRes (RMem, 4096) []].
Proof.
  apply (compare_no_leak 10 10 Tcp.create Rdma.create 0 _ [mkRes (RMem, 4096) []] tcp_created rdma_created). reflexivity.
Defined.
End CompareSpec.
