(* ===== verification/Float32.v ===== *)
(** Binary32 numbers as 32-bit words, over the Standard Library's specification
    floats: the arithmetic the collective and its check do, round to nearest even. *)
From Stdlib Require Import SpecFloat.
From S2P Require Import Prelude.

Definition of_bits (b : Z) : spec_float :=
  let s := Z.testbit b 31 in
  let ex := Z.land (Z.shiftr b 23) 255 in
  let m := Z.land b (2 ^ 23 - 1) in
  if ex =? 0 then (if m =? 0 then S754_zero s else S754_finite s (Z.to_pos m) (-149))
  else if ex =? 255 then (if m =? 0 then S754_infinity s else S754_nan)
  else S754_finite s (Z.to_pos (m + 2 ^ 23)) (ex - 150).
Definition sign_bit (s : bool) : Z := if s then 2 ^ 31 else 0.
Definition to_bits (x : spec_float) : Z :=
  match x with
  | S754_zero s => sign_bit s
  | S754_infinity s => sign_bit s + 255 * 2 ^ 23
  | S754_nan => 255 * 2 ^ 23 + 2 ^ 22
  | S754_finite s m e =>
      sign_bit s + (if Z.pos m <? 2 ^ 23 then Z.pos m else (e + 150) * 2 ^ 23 + (Z.pos m - 2 ^ 23))
  end.

Definition fadd (a b : Z) : Z := to_bits (SFadd 24 128 (of_bits a) (of_bits b)).
(** [(float)n] of an [int]. *)
Definition of_int (n : Z) : spec_float := binary_normalize 24 128 n 0 false.
(** A [float] widened to [double] is exact. *)
Definition to_double (x : spec_float) : spec_float :=
  match x with
  | S754_finite s m e => binary_normalize 53 1024 (if s then Z.neg m else Z.pos m) e s
  | x => x
  end.
(** The [double] nearest to 0.001. *)
Definition tolerance : spec_float := S754_finite false 4611686018427388 (-62).
(** [std::abs(x - y) > 1e-3] *)
Definition differs (x y : spec_float) : bool := SFltb tolerance (to_double (SFabs (SFsub 24 128 x y))).

(** Words and numbers are in bijection, but for the payload of a NaN. *)
Definition is_nan_word (b : Z) : bool := (Z.land (Z.shiftr b 23) 255 =? 255) && negb (Z.land b (2 ^ 23 - 1) =? 0).
Lemma word_fields b : 0 ≤ b < 2 ^ 32 →
  b = sign_bit (Z.testbit b 31) + Z.land (Z.shiftr b 23) 255 * 2 ^ 23 + Z.land b (2 ^ 23 - 1).
Proof.
  intros Hb. change 255 with (Z.ones 8). change (2 ^ 23 - 1) with (Z.ones 23).
  rewrite !Z.land_ones, Z.shiftr_div_pow2 by lia. rewrite Z.testbit_eqb by lia. unfold sign_bit.
  destruct (Z.eqb_spec ((b / 2 ^ 31) mod 2) 1); Z.to_euclidean_division_equations; lia.
Qed.
Lemma to_of_bits b : 0 ≤ b < 2 ^ 32 → is_nan_word b = false → to_bits (of_bits b) = b.
Proof.
  intros Hb Hn. pose proof (word_fields b Hb) as Hf. unfold is_nan_word, of_bits in *.
  assert (He : 0 ≤ Z.land (Z.shiftr b 23) 255 < 256).
  { change 255 with (Z.ones 8). rewrite Z.land_ones by lia. apply Z.mod_pos_bound. lia. }
  assert (Hm : 0 ≤ Z.land b (2 ^ 23 - 1) < 2 ^ 23).
  { change (2 ^ 23 - 1) with (Z.ones 23). rewrite Z.land_ones by lia. apply Z.mod_pos_bound. lia. }
  set (ex := Z.land (Z.shiftr b 23) 255) in *. set (m := Z.land b (2 ^ 23 - 1)) in *. clearbody ex m.
  destruct (Z.eqb_spec ex 0), (Z.eqb_spec ex 255), (Z.eqb_spec m 0); cbn [negb andb] in Hn; try done; cbn [to_bits];
    rewrite ?Z2Pos.id by lia; try (rewrite (proj2 (Z.ltb_lt _ _)) by lia); try (rewrite (proj2 (Z.ltb_ge _ _)) by lia); lia.
Qed.
