(* ===== verification/Float32Spec.v ===== *)
(** Small integers are exact in binary32: their sums and halves are computed
    without rounding. *)
From Stdlib Require Import SpecFloat.
From S2P Require Import Prelude Double Float32.

(** * Canonical forms *)

(** The float of the integer [a], 0 < a < 2^24. *)
Definition canon (a : Z) : spec_float := norm 24 a.
Definition small (a : Z) : Prop := fits_in 24 a.
Lemma small_digits a : small a → 1 ≤ digits a ≤ 24.
Proof. apply fits_in_digits. Qed.
Lemma mantissa_bounds a : small a → 2 ^ 23 ≤ a * 2 ^ (24 - digits a) < 2 ^ 24.
Proof. apply norm_bounds. Qed.
Lemma round_exact a k : small a → 0 ≤ k ≤ 23 → binary_normalize 24 128 (a * 2 ^ k) (- k) false = canon a.
Proof. by apply norm_exact. Qed.
Lemma of_int_canon a : small a → of_int a = canon a.
Proof.
  by apply norm_int.
Qed.

(** A NaN is within the tolerance of everything. *)
Lemma nan_passes b x : is_nan_word b = true → differs (of_bits b) x = false.
Proof.
  unfold is_nan_word, differs, of_bits. intros [He Hm]%andb_true_iff. apply Z.eqb_eq in He. rewrite He.
  apply negb_true_iff in Hm. rewrite Hm. by destruct x.
Qed.

(** * Words *)

Definition word (n : Z) : Z := to_bits (of_int n).
Lemma of_bits_normal ex m : 0 < ex < 255 → 0 ≤ m < 2 ^ 23 →
  of_bits (ex * 2 ^ 23 + m) = S754_finite false (Z.to_pos (m + 2 ^ 23)) (ex - 150).
Proof.
  intros Hex Hm. unfold of_bits.
  assert (Hland : Z.land (ex * 2 ^ 23 + m) (2 ^ 23 - 1) = m).
  { change (2 ^ 23 - 1) with (Z.ones 23). rewrite Z.land_ones by lia. rewrite Z.add_comm, Z.mod_add by lia. by apply Z.mod_small. }
  assert (Hshift : Z.land (Z.shiftr (ex * 2 ^ 23 + m) 23) 255 = ex).
  { change 255 with (Z.ones 8). rewrite Z.land_ones, Z.shiftr_div_pow2 by lia.
    rewrite Z.div_add_l, Z.div_small by lia. rewrite Z.add_0_r. apply Z.mod_small. lia. }
  assert (Hsign : Z.testbit (ex * 2 ^ 23 + m) 31 = false).
  { rewrite Z.testbit_eqb by lia. rewrite (Z.div_small _ (2 ^ 31)) by lia. done. }
  rewrite Hland, Hshift, Hsign, (proj2 (Z.eqb_neq ex 0)), (proj2 (Z.eqb_neq ex 255)) by lia. done.
Qed.
Lemma word_canon a : small a → of_bits (word a) = canon a.
Proof.
  intros Ha. pose proof (small_digits a Ha) as Hd. pose proof (mantissa_bounds a Ha) as Hm.
  unfold word. rewrite of_int_canon by done. unfold canon, norm. set (m := a * 2 ^ (24 - digits a)) in *. cbn [to_bits sign_bit].
  rewrite Z2Pos.id by lia. rewrite (proj2 (Z.ltb_ge m (2 ^ 23))) by lia. rewrite Z.add_0_l.
  rewrite of_bits_normal by lia. f_equal; [f_equal; lia|lia].
Qed.

(** * Sums and halves *)

Lemma align_canon a ez : small a → ez ≤ digits a - 24 →
  Z.pos (shl_align (Z.to_pos (a * 2 ^ (24 - digits a))) (digits a - 24) ez).1 = a * 2 ^ (- ez).
Proof.
  intros Ha Hez. pose proof (small_digits a Ha) as Hd. pose proof (mantissa_bounds a Ha) as Hm.
  unfold shl_align. destruct (ez - (digits a - 24)) as [|d|d] eqn:He; cbn [fst]; [|lia|].
  - rewrite Z2Pos.id by lia. do 2 f_equal. lia.
  - rewrite iter_xO, Z2Pos.id by lia. rewrite <- Z.mul_assoc, <- Z.pow_add_r by lia. do 2 f_equal. lia.
Qed.
Lemma canon_add a b : small a → small b → small (a + b) → SFadd 24 128 (canon a) (canon b) = canon (a + b).
Proof.
  intros Ha Hb Hab. pose proof (small_digits a Ha). pose proof (small_digits b Hb).
  unfold canon, norm at 1 2. cbn [SFadd cond_Zopp]. set (ez := Z.min (digits a - 24) (digits b - 24)).
  rewrite (align_canon a ez Ha), (align_canon b ez Hb) by lia. rewrite <- Z.mul_add_distr_r.
  rewrite <- (Z.opp_involutive ez) at 2. apply round_exact; [done|lia].
Qed.
(** Small integers add without rounding. *)
Lemma word_add a b : small a → small b → small (a + b) → fadd (word a) (word b) = word (a + b).
Proof.
  intros Ha Hb Hab. unfold fadd. rewrite !word_canon, canon_add by done. unfold word. by rewrite of_int_canon.
Qed.
(** Half of an even small integer. *)
Lemma canon_half a : small (2 * a) → SFdiv 24 128 (canon (2 * a)) (of_int 2) = canon a.
Proof.
  intros Ha. assert (Ha' : small a) by (unfold small, fits_in in *; lia). pose proof (small_digits a Ha') as Hd.
  pose proof (mantissa_bounds a Ha') as Hm.
  assert (Hdig : digits (2 * a) = digits a + 1) by (rewrite Z.mul_comm; apply (digits_shift a 1); unfold small, fits_in in *; lia).
  assert (Hmant : 2 * a * 2 ^ (24 - digits (2 * a)) = a * 2 ^ (24 - digits a)).
  { rewrite Hdig. replace (24 - digits a) with (1 + (24 - (digits a + 1))) by (pose proof (small_digits _ Ha); lia).
    rewrite Z.pow_add_r by (pose proof (small_digits _ Ha); lia). lia. }
  change (of_int 2) with (S754_finite false (2 ^ 23) (-22)). unfold canon at 1, norm at 1. rewrite Hmant, Hdig. set (m := a * 2 ^ (24 - digits a)) in *.
  cbn [SFdiv xorb]. unfold SFdiv_core_binary. rewrite Z2Pos.id by lia.
  assert (Hzd : Zdigits2 m = 24).
  { destruct m as [|p|p] eqn:Hp; [lia| |lia]. cbn [Zdigits2]. rewrite digits2_log2. fold (digits (Z.pos p)). rewrite <- Hp.
    unfold m. rewrite digits_shift by (unfold small, fits_in in *; lia). lia. }
  rewrite Hzd. change (Zdigits2 (Z.pos (2 ^ 23))) with 24.
  set (e := digits a + 1 - 24). replace (fexp 24 128 (24 + e - (24 + -22))) with (e - 2) by (unfold fexp, emin; lia).
  rewrite (Z.min_l (e - 2) (e - -22)) by lia. replace (e - -22 - (e - 2)) with 24 by lia.
  rewrite Z.shiftl_mul_pow2 by lia.
  assert (Hdiv : Z.div_eucl (m * 2 ^ 24) (Z.pos (2 ^ 23)) = (m * 2 ^ 1, 0)).
  { change (Z.pos (2 ^ 23)) with (2 ^ 23). rewrite (surjective_pairing (Z.div_eucl _ _)).
    change (Z.div_eucl (m * 2 ^ 24) (2 ^ 23)).1 with (m * 2 ^ 24 / 2 ^ 23).
    change (Z.div_eucl (m * 2 ^ 24) (2 ^ 23)).2 with ((m * 2 ^ 24) mod 2 ^ 23).
    replace (m * 2 ^ 24) with (m * 2 ^ 1 * 2 ^ 23) by lia. by rewrite Z.div_mul, Z.mod_mul by lia. }
  rewrite Hdiv. change (new_location (Z.pos (2 ^ 23)) 0) with loc_Exact. unfold m, e. apply norm_round_aux; [lia|lia|done|lia..].
Qed.
(** A float is within the tolerance of itself. *)
Lemma canon_same a : small a → differs (canon a) (canon a) = false.
Proof.
  intros Ha. unfold differs. replace (SFsub 24 128 (canon a) (canon a)) with (S754_zero false); [done|].
  unfold canon, norm. cbn [SFsub cond_Zopp]. by rewrite Z.sub_diag.
Qed.

(** * Every word is a float, every sum is a word *)

Definition is_word (b : Z) : Prop := 0 ≤ b < 2 ^ 32.
Lemma of_bits_valid b : is_word b → valid 24 128 (of_bits b).
Proof.
  intros Hb. unfold of_bits.
  assert (He : 0 ≤ Z.land (Z.shiftr b 23) 255 < 256).
  { change 255 with (Z.ones 8). rewrite Z.land_ones by lia. apply Z.mod_pos_bound. lia. }
  assert (Hm : 0 ≤ Z.land b (2 ^ 23 - 1) < 2 ^ 23).
  { change (2 ^ 23 - 1) with (Z.ones 23). rewrite Z.land_ones by lia. apply Z.mod_pos_bound. lia. }
  set (ex := Z.land _ 255) in *. set (m := Z.land b _) in *. clearbody ex m.
  destruct (Z.eqb_spec ex 0), (Z.eqb_spec ex 255), (Z.eqb_spec m 0); try done; cbn [valid]; unfold reduced_form;
    rewrite Z2Pos.id by lia; lia.
Qed.
(** A float's fields are those of its word. *)
Lemma of_fields s ex m : 0 ≤ ex < 256 → 0 ≤ m < 2 ^ 23 →
  let b := sign_bit s + ex * 2 ^ 23 + m in
  is_word b ∧ Z.testbit b 31 = s ∧ Z.land (Z.shiftr b 23) 255 = ex ∧ Z.land b (2 ^ 23 - 1) = m.
Proof.
  intros Hex Hm b. unfold is_word. change 255 with (Z.ones 8). change (2 ^ 23 - 1) with (Z.ones 23).
  rewrite !Z.land_ones, Z.shiftr_div_pow2, Z.testbit_eqb by lia. unfold b, sign_bit. clear b.
  destruct s; split_and!; try (Z.to_euclidean_division_equations; lia);
    first [apply Z.eqb_eq|apply Z.eqb_neq]; Z.to_euclidean_division_equations; lia.
Qed.
Lemma to_bits_valid x : valid 24 128 x → is_word (to_bits x) ∧ of_bits (to_bits x) = x.
Proof.
  assert (Hw : ∀ s ex m, 0 ≤ ex < 256 → 0 ≤ m < 2 ^ 23 → to_bits x = sign_bit s + ex * 2 ^ 23 + m →
    (if ex =? 0 then (if m =? 0 then S754_zero s else S754_finite s (Z.to_pos m) (-149))
     else if ex =? 255 then (if m =? 0 then S754_infinity s else S754_nan)
     else S754_finite s (Z.to_pos (m + 2 ^ 23)) (ex - 150)) = x → is_word (to_bits x) ∧ of_bits (to_bits x) = x).
  { intros s ex m Hex Hm -> Hx. destruct (of_fields s ex m Hex Hm) as (Hb & Hs & He & Hf).
    split; [done|]. unfold of_bits. by rewrite Hs, He, Hf. }
  destruct x as [s|s| |s p e]; intros Hv.
  - apply (Hw s 0 0); [lia..|cbn; lia|done].
  - apply (Hw s 255 0); [lia..|cbn; lia|done].
  - apply (Hw false 255 (2 ^ 22)); [lia..|done|done].
  - cbn [valid] in Hv. unfold reduced_form in Hv. cbn [to_bits] in Hw |- *. destruct (Z.ltb_spec (Z.pos p) (2 ^ 23)).
    + assert (e = -149) as -> by lia. apply (Hw s 0 (Z.pos p)); [lia..|]. done.
    + apply (Hw s (e + 150) (Z.pos p - 2 ^ 23)); [lia..|].
      rewrite (proj2 (Z.eqb_neq _ 0)), (proj2 (Z.eqb_neq _ 255)) by lia. f_equal; [by replace (Z.pos p - _ + _) with (Z.pos p) by lia|lia].
Qed.
Lemma fadd_word a b : is_word a → is_word b → is_word (fadd a b) ∧ of_bits (fadd a b) = SFadd 24 128 (of_bits a) (of_bits b).
Proof. intros Ha Hb. apply to_bits_valid, add_valid; try lia; by apply of_bits_valid. Qed.
