(* ===== verification/RingAllreduce.v ===== *)
(** Phase 3, [ring_allreduce.cpp]: the ring all-reduce of one rank, as a
    program over the operations of its two neighbour transports and over its
    own memory of float32 cells. *)
From S2P Require Import Prelude Prog Transport.

(** The neighbour a transport connects to. *)
Inductive side := Left | Right.

(** What the collective asks of [w->left] and [w->right], and the single
    memory operation of its summation loops, [*dst += *src] on floats. *)
Inductive ring_op :=
| recv_blocks (t : side)
| send_async (t : side) (h : BufferHandle) (len id offset : Z)
| recv_async (t : side) (h : BufferHandle) (len id offset : Z)
| poll (t : side)
| add_assign (dst src : Z).

Definition ring_ans (o : ring_op) : Type :=
  match o with
  | recv_blocks _ => bool
  | send_async _ _ _ _ _ | recv_async _ _ _ _ _ | poll _ => Z
  | add_assign _ _ => unit
  end.

Definition ring_sig : sig := Sig ring_op ring_ans.
Abbreviation ringM := (prog ring_sig).
Definition ring_call (o : ring_op) : ringM (ring_ans o) := @call ring_sig o.

(** The process group as one rank sees it; its two transports are the two
    values of [side]. *)
Record World := mkWorld { rank : Z; wsize : Z }.

Definition sizeof_float : Z := 4.

(** [int % int] of C. *)
Definition send_chunk (rank N s : Z) : Z :=
  if s <? N - 1 then Z.rem (rank - s + N) N
  else Z.rem (rank - (s - (N - 1)) + 1 + N) N.
Definition recv_chunk (rank N s : Z) : Z :=
  if s <? N - 1 then Z.rem (rank - s - 1 + N) N
  else Z.rem (rank - (s - (N - 1)) + N) N.

(** [for (i = 0; i < chunk; i++) dst[i] += src[i];] *)
Definition add_chunk (dst src chunk : Z) : ringM unit :=
  for_unit (Z.to_nat chunk) 0 (fun i =>
    ring_call (add_assign (dst + sizeof_float * i) (src + sizeof_float * i))).

(** The blocking-receive path: even ranks send first. *)
Definition ring_blocking_step (w : World) (r_h l_h stage_h : BufferHandle)
    (buf stage chunk s : Z) : ringM (option Z) :=
  let N := wsize w in
  let chunk_bytes := u64 (chunk * sizeof_float) in
  let scatter := s <? N - 1 in
  let send_off := u64 (send_chunk (rank w) N s * chunk_bytes) in
  let rh := if scatter then stage_h else l_h in
  let recv_off := if scatter then 0 else u64 (recv_chunk (rank w) N s * chunk_bytes) in
  let snd := ring_call (send_async Right r_h chunk_bytes (u64 s) send_off) in
  let rcv := ring_call (recv_async Left rh chunk_bytes (u64 s) recv_off) in
  failed <- (if Z.rem (rank w) 2 =? 0 then fails_or snd rcv else fails_or rcv snd) ;;
  if (failed : bool) then Ret (Some (-1)) else
  failed <- fails_or (ring_call (poll Left)) (ring_call (poll Right)) ;;
  if (failed : bool) then Ret (Some (-1)) else
  (if scatter
   then add_chunk (buf + sizeof_float * u64 (recv_chunk (rank w) N s * chunk)) stage chunk
   else Ret tt) ;;
  Ret None.

Definition ring_blocking (w : World) (r_h l_h stage_h : BufferHandle)
    (buf stage chunk : Z) : ringM Z :=
  r <- for_ (Z.to_nat (2 * (wsize w - 1))) 0
         (ring_blocking_step w r_h l_h stage_h buf stage chunk) ;;
  Ret (default 0 r).

(** The posted-receive path. [post_recv] is the lambda of [ring_posted]. *)
Definition post_recv (w : World) (l_h stage_h : BufferHandle) (chunk s : Z) : ringM Z :=
  let N := wsize w in
  let chunk_bytes := u64 (chunk * sizeof_float) in
  if s <? N - 1
  then ring_call (recv_async Left stage_h chunk_bytes (u64 s) (u64 (Z.rem s 2 * chunk_bytes)))
  else ring_call (recv_async Left l_h chunk_bytes (u64 s)
                    (u64 (recv_chunk (rank w) N s * chunk_bytes))).

Definition ring_posted_step (w : World) (r_h l_h stage_h : BufferHandle)
    (buf stage chunk s : Z) : ringM (option Z) :=
  let N := wsize w in
  let chunk_bytes := u64 (chunk * sizeof_float) in
  let steps := 2 * (N - 1) in
  rc <- ring_call (send_async Right r_h chunk_bytes (u64 s)
                     (u64 (send_chunk (rank w) N s * chunk_bytes))) ;;
  if bool_decide (rc ≠ 0) then Ret (Some (-1)) else
  rc <- ring_call (poll Left) ;;
  if bool_decide (rc ≠ 0) then Ret (Some (-1)) else
  rc <- (if s + 1 <? steps then post_recv w l_h stage_h chunk (s + 1) else Ret 0) ;;
  if bool_decide (rc ≠ 0) then Ret (Some (-1)) else
  rc <- ring_call (poll Right) ;;
  if bool_decide (rc ≠ 0) then Ret (Some (-1)) else
  (if s <? N - 1
   then add_chunk (buf + sizeof_float * u64 (recv_chunk (rank w) N s * chunk))
                  (stage + sizeof_float * u64 (Z.rem s 2 * chunk)) chunk
   else Ret tt) ;;
  Ret None.

Definition ring_posted (w : World) (r_h l_h stage_h : BufferHandle)
    (buf stage chunk : Z) : ringM Z :=
  rc <- post_recv w l_h stage_h chunk 0 ;;
  if bool_decide (rc ≠ 0) then Ret (-1) else
  r <- for_ (Z.to_nat (2 * (wsize w - 1))) 0
         (ring_posted_step w r_h l_h stage_h buf stage chunk) ;;
  Ret (default 0 r).

(** [count % w->size] is a [size_t] remainder: the [int] is converted. *)
Definition ring_allreduce (w : World) (r_h l_h stage_h : BufferHandle)
    (buf stage count : Z) : ringM Z :=
  if bool_decide (count mod u64 (wsize w) ≠ 0) then Ret (-1) else
  if wsize w <? 2 then Ret 0 else
  let chunk := count / u64 (wsize w) in
  blocks <- ring_call (recv_blocks Left) ;;
  if (blocks : bool)
  then ring_blocking w r_h l_h stage_h buf stage chunk
  else ring_posted w r_h l_h stage_h buf stage chunk.
