(* ===== verification/RingSpec.v ===== *)
(** The schedule of the ring and the values it moves: which chunk each step
    touches, the partial sums a message carries, and what a rank's buffer and
    staging halves hold at each point of the collective. *)
From S2P Require Import Prelude Prog Transport RingAllreduce.

(** * The chunk schedule *)

Definition prev_rank (N r : Z) : Z := (r - 1) mod N.
Definition next_rank (N r : Z) : Z := (r + 1) mod N.

Section schedule.
Context (N : Z) (HN : 2 ≤ N).

Lemma prev_range r : 0 ≤ prev_rank N r < N.
Proof. apply Z.mod_pos_bound. lia. Qed.
Lemma next_range r : 0 ≤ next_rank N r < N.
Proof. apply Z.mod_pos_bound. lia. Qed.

Lemma prev_cases r : 0 ≤ r < N → prev_rank N r = if r =? 0 then N - 1 else r - 1.
Proof.
  intros Hr. unfold prev_rank. destruct (Z.eqb_spec r 0) as [->|].
  - apply (mod_shift _ _ (-1)); lia.
  - apply Z.mod_small. lia.
Qed.
Lemma next_cases r : 0 ≤ r < N → next_rank N r = if r =? N - 1 then 0 else r + 1.
Proof.
  intros Hr. unfold next_rank. destruct (Z.eqb_spec r (N - 1)) as [->|].
  - apply (mod_shift _ _ 1); lia.
  - apply Z.mod_small. lia.
Qed.

Lemma next_prev r : 0 ≤ r < N → next_rank N (prev_rank N r) = r.
Proof.
  intros Hr. rewrite next_cases by apply prev_range. rewrite prev_cases by done.
  repeat case_match; lia.
Qed.
Lemma prev_next r : 0 ≤ r < N → prev_rank N (next_rank N r) = r.
Proof.
  intros Hr. rewrite prev_cases by apply next_range. rewrite next_cases by done.
  repeat case_match; lia.
Qed.
Lemma next_ne r : 0 ≤ r < N → next_rank N r ≠ r.
Proof. intros. rewrite next_cases by done. case_match; lia. Qed.
Lemma prev_ne r : 0 ≤ r < N → prev_rank N r ≠ r.
Proof. intros. rewrite prev_cases by done. case_match; lia. Qed.

(** Both phases follow one rule: step [s] sends chunk [r - s] and receives
    chunk [r - s - 1], modulo the world size. *)
Lemma send_chunk_mod r s :
  0 ≤ r < N → 0 ≤ s < 2 * (N - 1) → send_chunk r N s = (r - s) mod N.
Proof.
  intros Hr Hs. unfold send_chunk. destruct (Z.ltb_spec s (N - 1)).
  - rewrite Z.rem_mod_nonneg by lia. rewrite <- (Z.mod_add (r - s) 1 N) by lia. f_equal. lia.
  - rewrite Z.rem_mod_nonneg by lia. rewrite <- (Z.mod_add (r - s) 2 N) by lia. f_equal. lia.
Qed.
Lemma recv_chunk_mod r s :
  0 ≤ r < N → 0 ≤ s < 2 * (N - 1) → recv_chunk r N s = (r - s - 1) mod N.
Proof.
  intros Hr Hs. unfold recv_chunk. destruct (Z.ltb_spec s (N - 1)).
  - rewrite Z.rem_mod_nonneg by lia. rewrite <- (Z.mod_add (r - s - 1) 1 N) by lia. f_equal. lia.
  - rewrite Z.rem_mod_nonneg by lia. rewrite <- (Z.mod_add (r - s - 1) 2 N) by lia. f_equal. lia.
Qed.

Lemma send_chunk_range r s :
  0 ≤ r < N → 0 ≤ s < 2 * (N - 1) → 0 ≤ send_chunk r N s < N.
Proof. intros. rewrite send_chunk_mod by done. apply Z.mod_pos_bound. lia. Qed.
Lemma recv_chunk_range r s :
  0 ≤ r < N → 0 ≤ s < 2 * (N - 1) → 0 ≤ recv_chunk r N s < N.
Proof. intros. rewrite recv_chunk_mod by done. apply Z.mod_pos_bound. lia. Qed.

(** What a rank receives in a step is what its left neighbour sends in it. *)
Lemma recv_is_neighbour_send r s :
  0 ≤ r < N → 0 ≤ s < 2 * (N - 1) →
  recv_chunk r N s = send_chunk (prev_rank N r) N s.
Proof.
  intros. rewrite recv_chunk_mod, send_chunk_mod by (done || apply prev_range).
  unfold prev_rank. rewrite Zminus_mod_idemp_l. f_equal. lia.
Qed.
(** Within the scatter phase each step forwards the chunk just summed, and
    within the gather phase the chunk just received. *)
Lemma send_is_last_recv r s :
  0 ≤ r < N → 0 ≤ s < 2 * (N - 1) - 1 →
  send_chunk r N (s + 1) = recv_chunk r N s.
Proof. intros. rewrite recv_chunk_mod, send_chunk_mod by lia. f_equal. lia. Qed.

Lemma mod_sub_eq a b t : 0 ≤ t < N → (a - b) mod N = t → b mod N = (a - t) mod N.
Proof.
  intros Ht <-. rewrite Zminus_mod_idemp_r. f_equal. lia.
Qed.
End schedule.

(** * The reduced values *)

Section values.
Context {F : Type} (add : F → F → F).
(** [x r c i]: element [i] of chunk [c] of rank [r]'s input. *)
Context (x : Z → Z → Z → F) (N : Z).

(** The sum of [n + 1] contributions to chunk [c], in the order the ring adds
    them: it starts at rank [c] and each following rank adds its own input on
    the left. *)
Fixpoint ring_fold (c : Z) (n : nat) (i : Z) : F :=
  match n with
  | O => x (c mod N) c i
  | S n' => add (x ((c + Z.of_nat n) mod N) c i) (ring_fold c n' i)
  end.

(** Element [i] of what rank [r] sends in step [s]. *)
Definition msg (r s i : Z) : F :=
  ring_fold ((r - s) mod N) (Z.to_nat (Z.min s (N - 1))) i.

(** The result of the collective. *)
Definition reduced (c i : Z) : F := ring_fold c (Z.to_nat (N - 1)) i.

(** Rank [r]'s buffer after [q] whole scatter sums and [j] elements of the
    next, with [D] messages received. *)
Definition buf_at (r q j D c i : Z) : F :=
  let t := (r - c) mod N in
  if bool_decide (t < N - 1 ∧ t - 1 + N < D) then reduced c i
  else if bool_decide (1 ≤ t ∧ (t - 1 < q ∨ t - 1 = q ∧ i < j))
  then ring_fold c (Z.to_nat t) i
  else x r c i.

Context (HN : 2 ≤ N).

Lemma ring_fold_step r s i :
  0 ≤ r < N → 0 ≤ s < N - 1 →
  add (x r ((r - s - 1) mod N) i) (msg (prev_rank N r) s i)
  = ring_fold ((r - s - 1) mod N) (Z.to_nat (s + 1)) i.
Proof.
  intros Hr Hs. unfold msg, prev_rank. rewrite Zminus_mod_idemp_l, Z.min_l by lia.
  replace (r - 1 - s) with (r - s - 1) by lia.
  replace (Z.to_nat (s + 1)) with (S (Z.to_nat s)) by lia. cbn [ring_fold].
  do 2 f_equal. rewrite Zplus_mod_idemp_l. symmetry. apply (mod_shift _ _ 0); lia.
Qed.

Lemma buf_at_init r c i : 0 ≤ r < N → 0 ≤ i → buf_at r 0 0 0 c i = x r c i.
Proof.
  intros. unfold buf_at. pose proof (Z.mod_pos_bound (r - c) N).
  rewrite !bool_decide_eq_false_2; [done|lia..].
Qed.

Lemma buf_at_reduced r c i :
  0 ≤ r < N → 0 ≤ c < N → buf_at r (N - 1) 0 (2 * (N - 1)) c i = reduced c i.
Proof.
  intros Hr Hc. unfold buf_at. pose proof (Z.mod_pos_bound (r - c) N).
  case_bool_decide as Hd; [done|]. destruct (Z.eq_dec ((r - c) mod N) (N - 1)) as [He|].
  - rewrite bool_decide_eq_true_2 by lia. unfold reduced. by rewrite He.
  - lia.
Qed.

(** The chunk a rank sends holds the message's value, unless the message that
    replaces it has already come full circle. *)
Lemma buf_at_send r s D i :
  0 ≤ r < N → 0 ≤ s < 2 * (N - 1) → s ≤ D → D ≤ s + N - 1 →
  buf_at r (Z.min s (N - 1)) 0 D ((r - s) mod N) i = msg r s i.
Proof.
  intros Hr Hs HD HD'. unfold buf_at, msg.
  assert (Ht : (r - (r - s) mod N) mod N = s mod N).
  { rewrite Zminus_mod_idemp_r. f_equal. lia. }
  rewrite Ht. destruct (Z.le_gt_cases s (N - 1)) as [Hle|Hgt].
  - rewrite (Z.mod_small s N), Z.min_l by lia.
    rewrite bool_decide_eq_false_2 by lia. case_bool_decide; [done|].
    assert (s = 0) as -> by lia. change (Z.to_nat 0) with O. cbn [ring_fold].
    rewrite Z.sub_0_r. by rewrite !(Z.mod_small r N) by lia.
  - assert (Hm : s mod N = s - N) by (apply (mod_shift _ _ 1); lia).
    rewrite Hm, Z.min_r by lia. rewrite bool_decide_eq_true_2 by lia. done.
Qed.

(** Receiving a gather message. *)
Lemma buf_at_recv r q j D c i :
  0 ≤ r < N → N - 1 ≤ D < 2 * (N - 1) → 0 ≤ c < N →
  buf_at r q j (D + 1) c i
  = if bool_decide (c = (r - D - 1) mod N) then msg (prev_rank N r) D i
    else buf_at r q j D c i.
Proof.
  intros Hr HD Hc. unfold buf_at. pose proof (Z.mod_pos_bound (r - c) N).
  rewrite (bool_decide_decide (c = _)).
  destruct (decide (c = (r - D - 1) mod N)) as [->|Hcd].
  - assert (Ht : (r - (r - D - 1) mod N) mod N = D + 1 - N).
    { rewrite Zminus_mod_idemp_r. apply (mod_shift _ _ 1); lia. }
    rewrite Ht, bool_decide_eq_true_2 by lia. unfold msg, prev_rank, reduced.
    rewrite Zminus_mod_idemp_l. do 2 f_equal; lia.
  - assert ((r - c) mod N - 1 + N ≠ D).
    { intros He. apply Hcd. rewrite <- (Z.mod_small c N) by lia.
      replace (r - D - 1) with (r - (D + 1 - N) + (-1) * N) by lia. rewrite Z.mod_add by lia.
      apply mod_sub_eq; lia. }
    rewrite (bool_decide_ext (_ ∧ _ < D + 1) ((r - c) mod N < N - 1 ∧ (r - c) mod N - 1 + N < D)) by lia.
    done.
Qed.
(** Scatter messages go to the staging area and leave the buffer alone. *)
Lemma buf_at_recv_scatter r q j D c i :
  0 ≤ D < N - 1 → buf_at r q j (D + 1) c i = buf_at r q j D c i.
Proof.
  intros HD. unfold buf_at. pose proof (Z.mod_pos_bound (r - c) N).
  by rewrite !(bool_decide_eq_false_2 (_ ∧ _ + N < _)) by lia.
Qed.

(** One element of the scatter sum of step [q]. *)
Lemma buf_at_sum r q j D c i :
  0 ≤ r < N → 0 ≤ q < N - 1 → 0 ≤ j → 0 ≤ c < N → D ≤ q + N →
  buf_at r q (j + 1) D c i
  = if bool_decide (c = (r - q - 1) mod N ∧ i = j)
    then add (buf_at r q j D c i) (msg (prev_rank N r) q j)
    else buf_at r q j D c i.
Proof.
  intros Hr Hq Hj Hc HD. pose proof (Z.mod_pos_bound (r - c) N).
  rewrite (bool_decide_decide (c = _ ∧ _)).
  destruct (decide (c = (r - q - 1) mod N ∧ i = j)) as [[-> ->]|Hcd].
  - unfold buf_at.
    assert (Ht : (r - (r - q - 1) mod N) mod N = q + 1).
    { rewrite Zminus_mod_idemp_r. apply (mod_shift _ _ 0); lia. }
    rewrite Ht. rewrite !(bool_decide_eq_false_2 (_ ∧ _ < D)) by lia.
    rewrite bool_decide_eq_true_2 by lia.
    rewrite (bool_decide_eq_false_2 (1 ≤ q + 1 ∧ _)) by lia.
    symmetry. by apply ring_fold_step.
  - unfold buf_at. destruct (Z.eq_dec ((r - c) mod N - 1) q) as [He|Hne].
    + assert (c = (r - q - 1) mod N).
      { rewrite <- (Z.mod_small c N) by lia.
        replace (r - q - 1) with (r - (q + 1)) by lia. apply mod_sub_eq; lia. }
      assert (i ≠ j) by tauto.
      rewrite (bool_decide_ext (1 ≤ _ ∧ (_ ∨ _ ∧ i < j + 1))
                 (1 ≤ (r - c) mod N ∧ ((r - c) mod N - 1 < q ∨ (r - c) mod N - 1 = q ∧ i < j))) by lia.
      done.
    + rewrite (bool_decide_ext (1 ≤ _ ∧ (_ ∨ _ ∧ i < j + 1))
                 (1 ≤ (r - c) mod N ∧ ((r - c) mod N - 1 < q ∨ (r - c) mod N - 1 = q ∧ i < j))) by lia.
      done.
Qed.
Lemma buf_at_sum_done r q D c i chunk :
  0 ≤ i < chunk → buf_at r q chunk D c i = buf_at r (q + 1) 0 D c i.
Proof.
  intros Hi. unfold buf_at.
  rewrite (bool_decide_ext (1 ≤ _ ∧ (_ ∨ _ ∧ i < chunk))
             (1 ≤ (r - c) mod N ∧ ((r - c) mod N - 1 < q + 1 ∨ (r - c) mod N - 1 = q + 1 ∧ i < 0))) by lia.
  done.
Qed.
End values.
