(* ===== verification/RingMem.v ===== *)
(** Rank memory for the collective: float cells at byte addresses, the cell
    layout of the data buffer and of the two staging halves, and what reads and
    writes of whole chunks do to them. *)
From S2P Require Import Prelude Prog Transport RingAllreduce RingSpec.

Section memory.
Context {F : Type}.
Implicit Types (m : Z → F) (d : list F).

(** [n] consecutive floats starting at byte address [a]. *)
Definition mem_read m (a n : Z) : list F := (fun i => m (a + sizeof_float * i)) <$> seqZ 0 n.
Definition mem_write m (a : Z) d : Z → F := fun p =>
  if bool_decide (a ≤ p ∧ (p - a) mod sizeof_float = 0)
  then default (m p) (d !! Z.to_nat ((p - a) / sizeof_float)) else m p.

Lemma mem_write_cell m a d i :
  0 ≤ i → mem_write m a d (a + sizeof_float * i) = default (m (a + sizeof_float * i)) (d !! Z.to_nat i).
Proof.
  intros Hi. unfold mem_write, sizeof_float.
  replace (a + 4 * i - a) with (i * 4) by lia. rewrite Z.mod_mul, Z.div_mul by lia.
  by rewrite bool_decide_eq_true_2 by lia.
Qed.

Lemma mem_write_out m a d p :
  (∀ i, 0 ≤ i < Z.of_nat (length d) → p ≠ a + sizeof_float * i) → mem_write m a d p = m p.
Proof.
  intros Hp. unfold mem_write. case_bool_decide as Hc; [|done]. destruct Hc as [Ha Hm].
  rewrite lookup_ge_None_2; [done|].
  destruct (decide (length d ≤ Z.to_nat ((p - a) / sizeof_float))%nat); [done|].
  destruct (Hp ((p - a) / sizeof_float)); [split; [apply Z.div_pos|]; unfold sizeof_float in *; lia|].
  pose proof (Z.div_mod (p - a) sizeof_float). unfold sizeof_float in *. lia.
Qed.

Lemma length_mem_read m a n : length (mem_read m a n) = Z.to_nat n.
Proof. unfold mem_read. by rewrite length_fmap, length_seqZ. Qed.
Lemma mem_read_ext m a n (f : Z → F) :
  (∀ i, 0 ≤ i < n → m (a + sizeof_float * i) = f i) → mem_read m a n = f <$> seqZ 0 n.
Proof.
  intros Hm. apply list_fmap_ext. intros k i Hk%lookup_seqZ. apply Hm. lia.
Qed.
Lemma lookup_fmap_seqZ (f : Z → F) n i :
  0 ≤ i < n → (f <$> seqZ 0 n) !! Z.to_nat i = Some (f i).
Proof.
  intros Hi. rewrite list_lookup_fmap.
  rewrite (proj2 (lookup_seqZ 0 n (Z.to_nat i) i)) by lia. done.
Qed.
End memory.

(** * The caller's buffers *)

Record ring_setup := mkRingSetup {
  rs_N : Z;                          (* world size *)
  rs_chunk : Z;                      (* floats per chunk *)
  rs_buf : Z → Z;                    (* per rank: [buf], [stage] *)
  rs_stage : Z → Z;
  rs_r_h : Z → BufferHandle;         (* [buf] registered on [right] *)
  rs_l_h : Z → BufferHandle;         (* [buf] registered on [left] *)
  rs_stage_h : Z → BufferHandle;     (* [stage] registered on [left] *)
}.

(** What the header of [collective.hpp] asks of the caller: [buf] holds
    [size * chunk] floats, registered on both sides, and [stage] two chunks. *)
Record setup_ok (S : ring_setup) : Prop := {
  ok_N : 2 ≤ rs_N S;
  ok_chunk : 1 ≤ rs_chunk S;
  ok_width : sizeof_float * (rs_N S * rs_chunk S) < 2 ^ 64;
  ok_r_h r : 0 ≤ r < rs_N S → addr (rs_r_h S r) = rs_buf S r ∧
             size (rs_r_h S r) = sizeof_float * (rs_N S * rs_chunk S);
  ok_l_h r : 0 ≤ r < rs_N S → addr (rs_l_h S r) = rs_buf S r ∧
             size (rs_l_h S r) = sizeof_float * (rs_N S * rs_chunk S);
  ok_stage_h r : 0 ≤ r < rs_N S → addr (rs_stage_h S r) = rs_stage S r ∧
             size (rs_stage_h S r) = sizeof_float * (2 * rs_chunk S);
  ok_disjoint r : 0 ≤ r < rs_N S →
    rs_buf S r + sizeof_float * (rs_N S * rs_chunk S) ≤ rs_stage S r ∨
    rs_stage S r + sizeof_float * (2 * rs_chunk S) ≤ rs_buf S r;
}.

Section layout.
Context (S : ring_setup) (OK : setup_ok S).
Abbreviation N := (rs_N S).
Abbreviation chunk := (rs_chunk S).
Abbreviation cb := (u64 (chunk * sizeof_float)).

(** Element [i] of chunk [c] of [buf], and of half [h] of [stage]. *)
Definition bcell (r c i : Z) : Z := rs_buf S r + sizeof_float * (c * chunk + i).
Definition scell (r h i : Z) : Z := rs_stage S r + sizeof_float * (h * chunk + i).

Lemma bcell_add r c i : bcell r c 0 + sizeof_float * i = bcell r c i.
Proof. unfold bcell, sizeof_float. lia. Qed.
Lemma scell_add r h i : scell r h 0 + sizeof_float * i = scell r h i.
Proof. unfold scell, sizeof_float. lia. Qed.

Definition inner (c n i : Z) : Prop := 0 ≤ c < n ∧ 0 ≤ i < chunk.

Lemma cell_inj c i c' i' :
  0 ≤ i < chunk → 0 ≤ i' < chunk → c * chunk + i = c' * chunk + i' → c = c' ∧ i = i'.
Proof. intros Hi Hi' He. assert (c = c') as -> by nia. lia. Qed.
Lemma bcell_inj r c i c' i' :
  0 ≤ i < chunk → 0 ≤ i' < chunk → bcell r c i = bcell r c' i' → c = c' ∧ i = i'.
Proof. unfold bcell, sizeof_float. intros ?? He. apply cell_inj; lia. Qed.
Lemma scell_inj r c i c' i' :
  0 ≤ i < chunk → 0 ≤ i' < chunk → scell r c i = scell r c' i' → c = c' ∧ i = i'.
Proof. unfold scell, sizeof_float. intros ?? He. apply cell_inj; lia. Qed.

Lemma inner_bound c n i : inner c n i → 0 ≤ c * chunk + i < n * chunk.
Proof. unfold inner. nia. Qed.
Lemma bcell_scell r c i h j :
  0 ≤ r < N → inner c N i → inner h 2 j → bcell r c i ≠ scell r h j.
Proof.
  intros Hr Hb%inner_bound Hs%inner_bound. pose proof (ok_disjoint S OK r Hr).
  unfold bcell, scell, sizeof_float in *. lia.
Qed.

Lemma cb_eq : cb = sizeof_float * chunk.
Proof.
  rewrite u64_small; [lia|]. destruct OK. unfold sizeof_float in *. nia.
Qed.
Lemma off_eq c : 0 ≤ c < N → u64 (c * cb) = sizeof_float * (c * chunk).
Proof.
  intros Hc. rewrite cb_eq. rewrite u64_small; [lia|].
  destruct OK. unfold sizeof_float in *. nia.
Qed.
Lemma coff_eq c : 0 ≤ c < N → u64 (c * chunk) = c * chunk.
Proof.
  intros Hc. rewrite u64_small; [lia|]. destruct OK. unfold sizeof_float in *. nia.
Qed.
Lemma parity s : 0 ≤ s → 0 ≤ Z.rem s 2 < 2 ∧ Z.rem s 2 < N.
Proof. intros. rewrite Z.rem_mod_nonneg by lia. pose proof (Z.mod_pos_bound s 2). pose proof (ok_N S OK). lia. Qed.

Context {F : Type}.
Implicit Types (m : Z → F) (f : Z → F).

(** Delivery of a whole chunk into chunk [c] of the buffer or half [h] of the
    staging area. *)
Lemma write_buf_buf m r c f c' i :
  0 ≤ i < chunk →
  mem_write m (bcell r c 0) (f <$> seqZ 0 chunk) (bcell r c' i)
  = if bool_decide (c' = c) then f i else m (bcell r c' i).
Proof.
  intros Hi. case_bool_decide as Hc.
  - subst c'. rewrite <- (bcell_add r c i), mem_write_cell by lia. by rewrite lookup_fmap_seqZ.
  - apply mem_write_out. intros k. rewrite length_fmap, length_seqZ. intros Hk He.
    apply Hc. rewrite bcell_add in He.
    apply bcell_inj in He; lia.
Qed.
Lemma write_stage_stage m r h f h' i :
  0 ≤ i < chunk →
  mem_write m (scell r h 0) (f <$> seqZ 0 chunk) (scell r h' i)
  = if bool_decide (h' = h) then f i else m (scell r h' i).
Proof.
  intros Hi. case_bool_decide as Hc.
  - subst h'. rewrite <- (scell_add r h i), mem_write_cell by lia. by rewrite lookup_fmap_seqZ.
  - apply mem_write_out. intros k. rewrite length_fmap, length_seqZ. intros Hk He.
    apply Hc. rewrite scell_add in He.
    apply scell_inj in He; lia.
Qed.
Lemma write_buf_other m r c f p :
  (∀ i, 0 ≤ i < chunk → p ≠ bcell r c i) →
  mem_write m (bcell r c 0) (f <$> seqZ 0 chunk) p = m p.
Proof.
  intros Hp. apply mem_write_out. intros k. rewrite length_fmap, length_seqZ. intros Hk.
  rewrite bcell_add. apply Hp. lia.
Qed.
Lemma write_stage_other m r h f p :
  (∀ i, 0 ≤ i < chunk → p ≠ scell r h i) →
  mem_write m (scell r h 0) (f <$> seqZ 0 chunk) p = m p.
Proof.
  intros Hp. apply mem_write_out. intros k. rewrite length_fmap, length_seqZ. intros Hk.
  rewrite scell_add. apply Hp. lia.
Qed.
Lemma read_buf m r c f :
  (∀ i, 0 ≤ i < chunk → m (bcell r c i) = f i) → mem_read m (bcell r c 0) chunk = f <$> seqZ 0 chunk.
Proof.
  intros Hm. apply mem_read_ext. intros i Hi. by rewrite bcell_add, Hm.
Qed.
End layout.

(** Which rank-local cells the collective may change. *)
Definition outside (S : ring_setup) (r p : Z) : Prop :=
  (∀ c i, inner S c (rs_N S) i → p ≠ bcell S r c i) ∧ (∀ h i, inner S h 2 i → p ≠ scell S r h i).
