(* ===== verification/RingMeasure.v ===== *)
(** Counting arguments shared by the two rings: the longest run a rank's program
    has left, totals over ranks, and a rank at which a function is least. *)
From S2P Require Import Prelude Prog Transport RingAllreduce.

Section measure.
Context (N : Z).

(** Longest run of operations when each call succeeds or fails. *)
Fixpoint path (p : ringM Z) : Z :=
  match p with
  | Ret _ => 0
  | Do o k =>
    1 + match o return (ring_ans o → ringM Z) → (ring_ans o → Z) → Z with
        | recv_blocks _ => fun _ f => Z.max (f false) (f true)
        | add_assign _ _ => fun _ f => f tt
        | _ => fun _ f => Z.max (f 0) (f (-1))
        end k (fun a => path (k a))
  end.
Lemma path_nonneg p : 0 ≤ path p.
Proof.
  induction p as [v|o k IH]; cbn [path]; [lia|].
  destruct o; cbn in *;
    pose proof IH as IH'; try specialize (IH 0); try specialize (IH false); try specialize (IH tt); lia.
Qed.

Definition total (f : Z → Z) : Z := foldr Z.add 0 (f <$> seqZ 0 N).

Lemma sum_list_insert (f : Z → Z) r v l :
  NoDup l → r ∈ l →
  foldr Z.add 0 ((<[r := v]> f) <$> l) = foldr Z.add 0 (f <$> l) - f r + v.
Proof.
  induction 1 as [|a l Ha Hl IH]; intros Hr; [by apply not_elem_of_nil in Hr|]. cbn.
  destruct (decide (r = a)) as [->|Hne].
  - rewrite fn_lookup_insert.
    assert (Heq : (<[a := v]> f) <$> l = f <$> l); [|rewrite Heq; lia].
    apply list_fmap_ext. intros k b Hk. rewrite fn_lookup_insert_ne; [done|].
    intros ->. by apply list_elem_of_lookup_2 in Hk.
  - rewrite fn_lookup_insert_ne by done. rewrite IH; [lia|].
    apply elem_of_cons in Hr. by destruct Hr.
Qed.
Lemma total_insert f r v : 0 ≤ r < N → total (<[r := v]> f) = total f - f r + v.
Proof. intros Hr. apply sum_list_insert; [apply NoDup_seqZ|apply elem_of_seqZ; lia]. Qed.
Lemma total_ext f f' : (∀ r, 0 ≤ r < N → f r = f' r) → total f = total f'.
Proof.
  intros Hf. unfold total. f_equal. apply list_fmap_ext.
  intros k r Hk%lookup_seqZ. apply Hf. lia.
Qed.
Lemma total_nonneg f : (∀ r, 0 ≤ f r) → 0 ≤ total f.
Proof. intros Hf. unfold total. induction (seqZ 0 N); cbn; [lia|]. specialize (Hf a). lia. Qed.
(** Changing a function at one rank changes its total by the difference. *)
Lemma total_at f f' r :
  0 ≤ r < N → (∀ r', 0 ≤ r' < N → r' ≠ r → f' r' = f r') → total f' = total f - f r + f' r.
Proof.
  intros Hr Hf. rewrite <- total_insert by done. apply total_ext. intros r' Hr'.
  destruct (decide (r' = r)) as [->|]; [by rewrite fn_lookup_insert|].
  rewrite fn_lookup_insert_ne by done. by apply Hf.
Qed.
Lemma total_const c : 2 ≤ N → total (fun _ => c) = N * c.
Proof.
  intros HN. unfold total. rewrite <- (Z2Nat.id N) at 2 by lia. rewrite <- (length_seqZ 0 N).
  induction (seqZ 0 N) as [|a l IH]; [done|]. cbn [fmap list_fmap foldr length]. rewrite IH. lia.
Qed.
(** A rank at which a function is least. *)

Lemma least_rank (f : Z → Z) : 2 ≤ N → ∃ r, 0 ≤ r < N ∧ ∀ r', 0 ≤ r' < N → f r ≤ f r'.
Proof.
  intros HN. assert (Hn : ∀ n : nat, ∃ r, 0 ≤ r ≤ Z.of_nat n ∧ ∀ r', 0 ≤ r' ≤ Z.of_nat n → f r ≤ f r').
  { induction n as [|n (r & Hr & Hmin)].
    - exists 0. split; [lia|]. intros r' ?. assert (r' = 0) as -> by lia. lia.
    - destruct (Z.le_gt_cases (f r) (f (Z.of_nat (Datatypes.S n)))).
      + exists r. split; [lia|]. intros r' ?.
        destruct (Z.eq_dec r' (Z.of_nat (Datatypes.S n))) as [->|]; [done|]. apply Hmin. lia.
      + exists (Z.of_nat (Datatypes.S n)). split; [lia|]. intros r' ?.
        destruct (Z.eq_dec r' (Z.of_nat (Datatypes.S n))) as [->|]; [lia|].
        specialize (Hmin r' ltac:(lia)). lia. }
  destruct (Hn (Z.to_nat (N - 1))) as (r & Hr & Hmin). exists r. split; [lia|].
  intros r' ?. apply Hmin. lia.
Qed.
End measure.

