(* ===== verification/RingPosted.v ===== *)
(** The posted-receive ring as a system of N ranks and N queue-pair links that
    interleave arbitrarily.

    Each rank runs the code of [ring_allreduce]; the operations it calls are
    answered the way reliable-connected queue pairs with infinite RNR retry
    behave: a post adds a work request and returns at once, the adapter reads
    the sender's memory at some later time, delivers into the oldest posted
    receive (waiting as long as none is posted), and completes the send after
    that; a poll waits for a completion. *)
From S2P Require Import Prelude Prog Transport RingAllreduce RingSpec RingMem.

(** * The system *)

Section system.
Context {F : Type} (add : F → F → F).
Context (N : Z).           (* number of ranks *)
Context (max_inline : Z).  (* inline bytes granted by the driver *)

(** A posted send: source address, length, and the bytes once the adapter has
    read them (at the post itself when they went inline). *)
Record swr := mkSwr { s_addr : Z; s_len : Z; s_snap : option (list F) }.
(** The link from a rank's [right] to its neighbour's [left]. *)
Record link := mkLink {
  sq : list swr;         (* undelivered sends, oldest first *)
  rq : list (Z * Z);     (* posted receives (address, length), oldest first *)
  scq : Z; rcq : Z;      (* completions the sender / the receiver can poll *)
  acks : Z               (* delivered sends whose completion is still due *)
}.
Record gstate := mkG { code : Z → ringM Z; mem : Z → Z → F; conn : Z → link }.

(** The guard of [prepare_sge]: [len] has become a [uint32_t], the sum is a
    [size_t]. *)
Definition post_ok (h : BufferHandle) (len offset : Z) : bool :=
  bool_decide (u32 len ≠ 0 ∧ u64 (u32 len + offset) ≤ size h).

Definition set_code (g : gstate) (r : Z) (p : ringM Z) : gstate :=
  mkG (<[r:=p]> (code g)) (mem g) (conn g).
Definition set_conn (g : gstate) (e : Z) (c : link) : gstate :=
  mkG (code g) (mem g) (<[e:=c]> (conn g)).
Definition set_mem (g : gstate) (r : Z) (m : Z → F) : gstate :=
  mkG (code g) (<[r:=m]> (mem g)) (conn g).

Definition push_send (g : gstate) (r a len : Z) : link :=
  let c := conn g r in
  let snap := if len <=? max_inline
              then Some (mem_read (mem g r) a (len / sizeof_float)) else None in
  mkLink (sq c ++ [mkSwr a len snap]) (rq c) (scq c) (rcq c) (acks c).
Definition push_recv (c : link) (a len : Z) : link :=
  mkLink (sq c) (rq c ++ [(a, len)]) (scq c) (rcq c) (acks c).

(** One operation of rank [r]'s program. *)
Definition proc_step (g : gstate) (r : Z) : option gstate :=
  match code g r with
  | Ret _ => None
  | Do o k =>
    match o return (ring_ans o → ringM Z) → option gstate with
    | recv_blocks _ => fun k => Some (set_code g r (k false))
    | add_assign d s => fun k =>
        let m := mem g r in
        Some (set_code (set_mem g r (<[d := add (m d) (m s)]> m)) r (k tt))
    | send_async Right h len _ offset => fun k =>
        if post_ok h len offset
        then Some (set_code (set_conn g r (push_send g r (addr h + offset) (u32 len))) r (k 0))
        else Some (set_code g r (k (-1)))
    | recv_async Left h len _ offset => fun k =>
        let e := prev_rank N r in
        if post_ok h len offset
        then Some (set_code (set_conn g e (push_recv (conn g e) (addr h + offset) (u32 len))) r (k 0))
        else Some (set_code g r (k (-1)))
    | poll Left => fun k =>
        let e := prev_rank N r in let c := conn g e in
        if 0 <? rcq c
        then Some (set_code (set_conn g e (mkLink (sq c) (rq c) (scq c) (rcq c - 1) (acks c))) r (k 0))
        else None
    | poll Right => fun k =>
        let c := conn g r in
        if 0 <? scq c
        then Some (set_code (set_conn g r (mkLink (sq c) (rq c) (scq c - 1) (rcq c) (acks c))) r (k 0))
        else None
    | _ => fun _ => None
    end k
  end.

(** The adapter reads the memory of the [k]-th pending send of rank [r]. *)
Definition fetch_step (g : gstate) (r : Z) (k : nat) : option gstate :=
  let c := conn g r in
  match sq c !! k with
  | Some (mkSwr a len None) =>
      let w := mkSwr a len (Some (mem_read (mem g r) a (len / sizeof_float))) in
      Some (set_conn g r (mkLink (<[k:=w]> (sq c)) (rq c) (scq c) (rcq c) (acks c)))
  | _ => None
  end.
(** The oldest send of rank [r] lands in the oldest receive posted by the
    rank on its right. *)
Definition deliver_step (g : gstate) (r : Z) : option gstate :=
  let c := conn g r in let r' := next_rank N r in
  match sq c, rq c with
  | mkSwr _ len (Some d) :: ws, (a, rlen) :: rs =>
      if len <=? rlen
      then Some (set_conn (set_mem g r' (mem_write (mem g r') a d)) r
                          (mkLink ws rs (scq c) (rcq c + 1) (acks c + 1)))
      else None
  | _, _ => None
  end.
Definition ack_step (g : gstate) (r : Z) : option gstate :=
  let c := conn g r in
  if 0 <? acks c
  then Some (set_conn g r (mkLink (sq c) (rq c) (scq c + 1) (rcq c) (acks c - 1)))
  else None.

Inductive label := LProc (r : Z) | LFetch (r : Z) (k : nat) | LDeliver (r : Z) | LAck (r : Z).
Definition label_rank (l : label) : Z :=
  match l with LProc r | LFetch r _ | LDeliver r | LAck r => r end.

Definition lstep (l : label) (g : gstate) : option gstate :=
  if bool_decide (0 ≤ label_rank l < N) then
    match l with
    | LProc r => proc_step g r
    | LFetch r k => fetch_step g r k
    | LDeliver r => deliver_step g r
    | LAck r => ack_step g r
    end
  else None.

Definition step (g g' : gstate) : Prop := ∃ l, lstep l g = Some g'.

Fixpoint lsteps (ls : list label) (g : gstate) : option gstate :=
  match ls with
  | [] => Some g
  | l :: ls => match lstep l g with Some g' => lsteps ls g' | None => None end
  end.

Lemma lsteps_rtc ls g g' : lsteps ls g = Some g' → rtc step g g'.
Proof.
  revert g. induction ls as [|l ls IH]; intros g; cbn; [intros [= ->]; constructor|].
  destruct (lstep l g) as [g1|] eqn:Hl; [|done]. intros. eapply rtc_l; [by exists l|]. eauto.
Qed.

Definition finished (g : gstate) (v : Z) : Prop := ∀ r, 0 ≤ r < N → code g r = Ret v.
End system.

(** The start of the collective on a setup [S] with memories [mem0]. *)
Definition world_of (S : ring_setup) (r : Z) : World := mkWorld r (rs_N S).
Definition ring_code (S : ring_setup) (r : Z) : ringM Z :=
  ring_allreduce (world_of S r) (rs_r_h S r) (rs_l_h S r) (rs_stage_h S r)
                 (rs_buf S r) (rs_stage S r) (rs_N S * rs_chunk S).
Definition idle_link {F} : @link F := mkLink [] [] 0 0 0.
Definition posted_init {F} (S : ring_setup) (mem0 : Z → Z → F) : gstate :=
  mkG (ring_code S) mem0 (fun _ => idle_link).
(** Rank [r]'s input, read off its initial memory. *)
Definition input {F} (S : ring_setup) (mem0 : Z → Z → F) (r c i : Z) : F :=
  mem0 r (bcell S r c i).

(** * A concrete setup and a scheduler, to run the system on examples *)

Definition demo_setup (N chunk : Z) : ring_setup :=
  let b := mkBufferHandle 4096 (sizeof_float * (N * chunk)) 0 in
  mkRingSetup N chunk (fun _ => 4096) (fun _ => 8192) (fun _ => b) (fun _ => b)
    (fun _ => mkBufferHandle 8192 (sizeof_float * (2 * chunk)) 0).
Definition demo_mem (r p : Z) : Z := 100 * r + (p - 4096).

Lemma demo_ok N chunk :
  2 ≤ N → 1 ≤ chunk → sizeof_float * (N * chunk) ≤ 4096 → setup_ok (demo_setup N chunk).
Proof.
  intros HN Hc Hs. constructor; cbn; try done; unfold sizeof_float in *; intros; lia.
Qed.

(** Take the first label of [cands] that is enabled, [fuel] times. *)
Fixpoint schedule {F} (add : F → F → F) (N max_inline : Z) (cands : list label) (fuel : nat)
    (g : gstate) : list label :=
  match fuel with
  | O => []
  | S fuel =>
    match omap (fun l => g' ← lstep add N max_inline l g; Some (l, g')) cands with
    | (l, g') :: _ => l :: schedule add N max_inline cands fuel g'
    | [] => []
    end
  end.
(** Adapters first, or ranks first. *)
Definition nic_first (N : Z) : list label :=
  mjoin ((fun r => [LDeliver r; LAck r; LFetch r 0; LProc r]) <$> seqZ 0 N).
Definition rank_first (N : Z) : list label :=
  mjoin ((fun r => [LProc r; LFetch r 0; LDeliver r; LAck r]) <$> seqZ 0 N).
