(* ===== verification/RingPostedInv.v ===== *)
(** The invariant of the posted-receive ring: where each rank is in its
    program, how many messages each link has delivered, and what every buffer,
    staging half and work queue then holds. *)
From S2P Require Import Prelude Prog Transport RingAllreduce RingSpec RingMem RingPosted.

(** * Where a rank is in its program *)

Inductive phase := PStart | PInit | PSend | PPollL | PRecv | PPollR | PSum (j : Z).
Record pc := mkPc { p_s : Z; p_ph : phase }.

Section counters.
Context (N chunk : Z).
Abbreviation steps := (2 * (N - 1)).

Definition pc_valid (p : pc) : Prop :=
  match p_ph p with
  | PStart | PInit => p_s p = 0
  | PSend => 0 ≤ p_s p ≤ steps
  | PPollL | PPollR => 0 ≤ p_s p < steps
  | PRecv => 0 ≤ p_s p < steps - 1
  | PSum j => 0 ≤ p_s p < N - 1 ∧ 0 ≤ j < chunk
  end.
(** Receives posted, sends posted, completions taken from the left and from
    the right queue, whole sums done, elements of the current sum done. *)
Definition n_posted (p : pc) : Z :=
  match p_ph p with
  | PStart | PInit => 0
  | PSend | PPollL | PRecv => Z.min (p_s p + 1) steps
  | PPollR | PSum _ => Z.min (p_s p + 2) steps
  end.
Definition n_sent (p : pc) : Z :=
  match p_ph p with PStart | PInit | PSend => p_s p | _ => p_s p + 1 end.
Definition n_pl (p : pc) : Z :=
  match p_ph p with PStart | PInit | PSend | PPollL => p_s p | _ => p_s p + 1 end.
Definition n_pr (p : pc) : Z :=
  match p_ph p with PSum _ => p_s p + 1 | _ => p_s p end.
Definition n_sums (p : pc) : Z := Z.min (p_s p) (N - 1).
Definition n_elems (p : pc) : Z := match p_ph p with PSum j => j | _ => 0 end.
End counters.

Section residuals.
Context (S : ring_setup).
Abbreviation N := (rs_N S).
Abbreviation chunk := (rs_chunk S).
Abbreviation steps := (2 * (N - 1)).
Abbreviation cb := (u64 (chunk * sizeof_float)).
Context (r : Z).
Abbreviation w := (world_of S r).
Abbreviation rh := (rs_r_h S r).
Abbreviation lh := (rs_l_h S r).
Abbreviation sh := (rs_stage_h S r).

(** What remains of one round after its send, its first poll, the next
    receive and its second poll. *)
Definition rest_sum (s j : Z) : ringM (option Z) :=
  for_unit (Z.to_nat (chunk - j)) j (fun i =>
    ring_call (add_assign
      (rs_buf S r + sizeof_float * u64 (recv_chunk r N s * chunk) + sizeof_float * i)
      (rs_stage S r + sizeof_float * u64 (Z.rem s 2 * chunk) + sizeof_float * i))) ;;
  Ret None.
Definition rest_polled (s : Z) (rc : Z) : ringM (option Z) :=
  if bool_decide (rc ≠ 0) then Ret (Some (-1)) else
  (if s <? N - 1
   then add_chunk (rs_buf S r + sizeof_float * u64 (recv_chunk r N s * chunk))
                  (rs_stage S r + sizeof_float * u64 (Z.rem s 2 * chunk)) chunk
   else Ret tt) ;;
  Ret None.
Definition rest_pollR (s : Z) (rc : Z) : ringM (option Z) :=
  if bool_decide (rc ≠ 0) then Ret (Some (-1)) else
  rc <- ring_call (poll Right) ;; rest_polled s rc.
Definition rest_recv (s : Z) (rc : Z) : ringM (option Z) :=
  if bool_decide (rc ≠ 0) then Ret (Some (-1)) else
  rc <- (if s + 1 <? steps then post_recv w lh sh chunk (s + 1) else Ret 0) ;; rest_pollR s rc.
Definition rest_pollL (s : Z) (rc : Z) : ringM (option Z) :=
  if bool_decide (rc ≠ 0) then Ret (Some (-1)) else
  rc <- ring_call (poll Left) ;; rest_recv s rc.

Abbreviation body := (ring_posted_step w rh lh sh (rs_buf S r) (rs_stage S r) chunk).

Definition next_round (n : nat) (s : Z) (v : option Z) : ringM (option Z) :=
  match v with Some v => Ret (Some v) | None => for_ n (s + 1) body end.
Definition in_round (s : Z) (p : ringM (option Z)) : ringM Z :=
  v <- (v <- p ;; next_round (Z.to_nat (steps - s - 1)) s v) ;; Ret (default 0 v).

Definition residual (p : pc) : ringM Z :=
  let s := p_s p in
  match p_ph p with
  | PStart => ring_code S r
  | PInit => ring_posted w rh lh sh (rs_buf S r) (rs_stage S r) chunk
  | PSend => v <- for_ (Z.to_nat (steps - s)) s body ;; Ret (default 0 v)
  | PPollL => in_round s (rest_pollL s 0)
  | PRecv => in_round s (rest_recv s 0)
  | PPollR => in_round s (rest_pollR s 0)
  | PSum j => in_round s (rest_sum s j)
  end.

(** [does p o p']: at [p] the program performs [o]; an answer of zero (or
    the only answer there is) takes it to [p']. *)
Definition does (p : pc) (o : ring_op) (a : ring_ans o) (p' : pc) : Prop :=
  ∃ k : ring_ans o → ringM Z, residual p = @Do ring_sig Z o k ∧ k a = residual p'.

Context (OK : setup_ok S) (Hr : 0 ≤ r < N).

Lemma does_start : does (mkPc 0 PStart) (recv_blocks Left) false (mkPc 0 PInit).
Proof.
  pose proof (ok_N S OK). pose proof (ok_chunk S OK). pose proof (ok_width S OK).
  assert (Hu : u64 N = N) by (apply u64_small; unfold sizeof_float in *; nia).
  unfold does, residual, ring_code, ring_allreduce. cbn [p_ph p_s world_of wsize].
  rewrite Hu, Z.mul_comm, Z.mod_mul, Z.div_mul by lia.
  destruct (Z.ltb_spec N 2); [lia|]. cbn. eexists; split; reflexivity.
Qed.

Definition recv_off (s : Z) : Z :=
  if s <? N - 1 then u64 (Z.rem s 2 * cb) else u64 (recv_chunk r N s * cb).
Definition recv_h (s : Z) : BufferHandle := if s <? N - 1 then sh else lh.

Lemma post_recv_eq s :
  post_recv w lh sh chunk s = ring_call (recv_async Left (recv_h s) cb (u64 s) (recv_off s)).
Proof. unfold post_recv, recv_h, recv_off. cbn. by destruct (s <? N - 1). Qed.

Lemma does_init :
  does (mkPc 0 PInit) (recv_async Left (recv_h 0) cb (u64 0) (recv_off 0)) 0 (mkPc 0 PSend).
Proof.
  unfold does, residual, ring_posted. cbn [p_ph p_s]. rewrite post_recv_eq.
  eexists; split; [reflexivity|]. cbn. by rewrite Z.sub_0_r.
Qed.

Lemma for_unfold s :
  s < steps → residual (mkPc s PSend) = in_round s (body s).
Proof.
  intros Hs. unfold residual, in_round. cbn [p_ph p_s].
  replace (Z.to_nat (steps - s)) with (Datatypes.S (Z.to_nat (steps - s - 1))) by lia. done.
Qed.

Lemma does_send s :
  s < steps →
  does (mkPc s PSend) (send_async Right rh cb (u64 s) (u64 (send_chunk r N s * cb))) 0 (mkPc s PPollL).
Proof. intros Hs. unfold does. rewrite for_unfold by done. eexists; split; reflexivity. Qed.

Lemma does_pollL s :
  does (mkPc s PPollL) (poll Left) 0 (if s + 1 <? steps then mkPc s PRecv else mkPc s PPollR).
Proof.
  eexists; split; [reflexivity|]. cbn [bind].
  destruct (s + 1 <? steps) eqn:He; [reflexivity|].
  unfold residual, in_round, rest_recv. cbn [p_ph p_s]. rewrite He. reflexivity.
Qed.

Lemma does_recv s :
  s + 1 < steps →
  does (mkPc s PRecv) (recv_async Left (recv_h (s + 1)) cb (u64 (s + 1)) (recv_off (s + 1))) 0
       (mkPc s PPollR).
Proof.
  intros Hs. unfold does, residual, in_round, rest_recv. cbn [p_ph p_s].
  rewrite (proj2 (Z.ltb_lt _ _) Hs), post_recv_eq. eexists; split; reflexivity.
Qed.

Lemma does_pollR s :
  0 ≤ s < steps →
  does (mkPc s PPollR) (poll Right) 0 (if s <? N - 1 then mkPc s (PSum 0) else mkPc (s + 1) PSend).
Proof.
  intros Hs. exists (fun rc => in_round s (rest_polled s rc)). split; [reflexivity|].
  unfold residual, in_round, rest_polled. rewrite bool_decide_eq_false_2 by lia.
  destruct (s <? N - 1); cbn [p_ph p_s bind].
  - unfold rest_sum, add_chunk. by rewrite Z.sub_0_r.
  - unfold next_round. by replace (steps - (s + 1)) with (steps - s - 1) by lia.
Qed.

Lemma does_sum s j :
  0 ≤ j < chunk →
  does (mkPc s (PSum j))
    (add_assign (rs_buf S r + sizeof_float * u64 (recv_chunk r N s * chunk) + sizeof_float * j)
                (rs_stage S r + sizeof_float * u64 (Z.rem s 2 * chunk) + sizeof_float * j)) tt
    (if j + 1 <? chunk then mkPc s (PSum (j + 1)) else mkPc (s + 1) PSend).
Proof.
  intros Hj. unfold does, residual, in_round, rest_sum. cbn [p_ph p_s].
  replace (Z.to_nat (chunk - j)) with (Datatypes.S (Z.to_nat (chunk - (j + 1)))) by lia.
  eexists; split; [reflexivity|]. destruct (Z.ltb_spec (j + 1) chunk); cbn [p_ph p_s bind]; [done|].
  replace (Z.to_nat (chunk - (j + 1))) with O by lia. cbn [for_unit bind next_round].
  by replace (steps - (s + 1)) with (steps - s - 1) by lia.
Qed.

Lemma residual_done s : steps ≤ s → residual (mkPc s PSend) = Ret 0.
Proof. intros. unfold residual. cbn [p_ph p_s]. by replace (Z.to_nat (steps - s)) with O by lia. Qed.
End residuals.

(** * The invariant *)

Section invariant.
Context {F : Type} (add : F → F → F).
Context (S : ring_setup) (mem0 : Z → Z → F).
Abbreviation N := (rs_N S).
Abbreviation chunk := (rs_chunk S).
Abbreviation cb := (u64 (chunk * sizeof_float)).
Abbreviation x := (input S mem0).

(** A rank at [p] with [D] messages delivered to it. *)
Record rank_ok (r : Z) (cd : ringM Z) (m : Z → F) (p : pc) (D : Z) : Prop := {
  ro_pc : pc_valid N chunk p;
  ro_code : cd = residual S r p;
  ro_buf c i : inner S c N i →
    m (bcell S r c i) = buf_at add x N r (n_sums N p) (n_elems p) D c i;
  ro_stage s i : 0 ≤ s < N - 1 → s < D ≤ s + 2 → 0 ≤ i < chunk →
    m (scell S r (Z.rem s 2) i) = msg add x N (prev_rank N r) s i;
  ro_frame a : outside S r a → m a = mem0 r a;
}.

(** Where the receive of step [s] lands at rank [r]. *)
Definition recv_addr (r s : Z) : Z :=
  if s <? N - 1 then scell S r (Z.rem s 2) 0 else bcell S r (recv_chunk r N s) 0.
Definition msg_list (r s : Z) : list F := msg add x N r s <$> seqZ 0 chunk.

(** The link out of rank [r] (at [p], its neighbour at [pn]) after [d]
    deliveries. *)
Record edge_ok (r : Z) (c : link) (p pn : pc) (d : Z) : Prop := {
  eo_left : n_pl pn ≤ d;
  eo_right : n_pr p ≤ d;
  eo_sent : d ≤ n_sent p;
  eo_posted : d ≤ n_posted N pn;
  eo_sq : (d = n_sent p ∧ sq c = []) ∨
          (d + 1 = n_sent p ∧ ∃ sn, sq c = [mkSwr (bcell S r (send_chunk r N d) 0) cb sn] ∧
             (sn = None ∨ sn = Some (msg_list r d)));
  eo_rq : rq c = (fun s => (recv_addr (next_rank N r) s, cb)) <$> seqZ d (n_posted N pn - d);
  eo_rcq : rcq c = d - n_pl pn;
  eo_acks : 0 ≤ acks c ∧ 0 ≤ scq c ∧ acks c + scq c = d - n_pr p;
}.

Definition inv (g : gstate) : Prop := ∃ (P : Z → pc) (dl : Z → Z),
  ∀ r, 0 ≤ r < N →
    rank_ok r (code g r) (mem g r) (P r) (dl (prev_rank N r)) ∧
    edge_ok r (conn g r) (P r) (P (next_rank N r)) (dl r).

Context (OK : setup_ok S).

Lemma inv_init : inv (posted_init S mem0).
Proof.
  exists (fun _ => mkPc 0 PStart), (fun _ => 0). intros r Hr. pose proof (ok_N S OK).
  split; constructor; cbn; try (done || lia).
  - intros c i [Hc Hi]. unfold n_sums. cbn. rewrite Z.min_l by lia.
    rewrite buf_at_init by lia. done.
  - left. done.
Qed.

(** Counters of two neighbours stay within a window of each other. *)
Lemma n_posted_bound p : pc_valid N chunk p → 2 ≤ N → n_posted N p ≤ 2 * (N - 1) ∧ n_posted N p ≤ p_s p + 2.
Proof. destruct p as [s []]; unfold pc_valid, n_posted; cbn; lia. Qed.
Lemma n_sent_bound p : pc_valid N chunk p → 2 ≤ N → 0 ≤ n_sent p ≤ 2 * (N - 1).
Proof. destruct p as [s []]; unfold pc_valid, n_sent; cbn; lia. Qed.
Lemma n_pl_bound p : pc_valid N chunk p → 2 ≤ N → p_s p ≤ n_pl p ≤ p_s p + 1 ∧ n_pl p ≤ n_posted N p.
Proof. destruct p as [s []]; unfold pc_valid, n_pl, n_posted; cbn; lia. Qed.

(** ** Reassembling the invariant after a step *)

(** A step of rank [r] to [p]: its code, its memory and its two links may
    change. *)
Lemma inv_local g g' P dl r p :
  (∀ r, 0 ≤ r < N → rank_ok r (code g r) (mem g r) (P r) (dl (prev_rank N r)) ∧
                    edge_ok r (conn g r) (P r) (P (next_rank N r)) (dl r)) →
  0 ≤ r < N →
  (∀ r', r' ≠ r → code g' r' = code g r' ∧ mem g' r' = mem g r') →
  (∀ e, e ≠ r → e ≠ prev_rank N r → conn g' e = conn g e) →
  rank_ok r (code g' r) (mem g' r) p (dl (prev_rank N r)) →
  edge_ok r (conn g' r) p (P (next_rank N r)) (dl r) →
  edge_ok (prev_rank N r) (conn g' (prev_rank N r)) (P (prev_rank N r)) p (dl (prev_rank N r)) →
  inv g'.
Proof.
  pose proof (ok_N S OK) as HN. intros Hinv Hr Hother Hlinks Hrank Her Hep.
  exists (<[r := p]> P), dl. intros r' Hr'. destruct (Hinv r' Hr') as [Hro Heo].
  pose proof (prev_ne N HN r Hr). split.
  - destruct (decide (r' = r)) as [->|Hne].
    + by rewrite fn_lookup_insert.
    + destruct (Hother r' Hne) as [-> ->]. by rewrite fn_lookup_insert_ne.
  - destruct (decide (r' = r)) as [->|Hne].
    { rewrite fn_lookup_insert, fn_lookup_insert_ne; [done|].
      intros He. by apply (next_ne N HN r Hr). }
    rewrite (fn_lookup_insert_ne P r r') by done.
    destruct (decide (r' = prev_rank N r)) as [->|Hnp].
    + by rewrite next_prev, fn_lookup_insert.
    + rewrite Hlinks by done. rewrite fn_lookup_insert_ne; [done|].
      intros ->. by rewrite prev_next in Hnp.
Qed.

(** A step of the adapter on the link out of [r] that delivers nothing. *)
Lemma inv_edge g P dl r c :
  (∀ r, 0 ≤ r < N → rank_ok r (code g r) (mem g r) (P r) (dl (prev_rank N r)) ∧
                    edge_ok r (conn g r) (P r) (P (next_rank N r)) (dl r)) →
  0 ≤ r < N →
  edge_ok r c (P r) (P (next_rank N r)) (dl r) →
  inv (set_conn g r c).
Proof.
  intros Hinv Hr Hc. exists P, dl. intros r' Hr'. destruct (Hinv r' Hr') as [Hro Heo].
  split; [done|]. cbn. destruct (decide (r = r')) as [<-|Hne].
  - by rewrite fn_lookup_insert.
  - by rewrite fn_lookup_insert_ne.
Qed.

(** A delivery into the rank on the right of [r]. *)
Lemma inv_deliver g P dl r m c :
  (∀ r, 0 ≤ r < N → rank_ok r (code g r) (mem g r) (P r) (dl (prev_rank N r)) ∧
                    edge_ok r (conn g r) (P r) (P (next_rank N r)) (dl r)) →
  0 ≤ r < N →
  rank_ok (next_rank N r) (code g (next_rank N r)) m (P (next_rank N r)) (dl r + 1) →
  edge_ok r c (P r) (P (next_rank N r)) (dl r + 1) →
  inv (set_conn (set_mem g (next_rank N r) m) r c).
Proof.
  pose proof (ok_N S OK) as HN. intros Hinv Hr Hm Hc.
  exists P, (<[r := dl r + 1]> dl). intros r' Hr'. destruct (Hinv r' Hr') as [Hro Heo]. cbn.
  split.
  - destruct (decide (r' = next_rank N r)) as [->|Hne].
    + by rewrite prev_next, !fn_lookup_insert.
    + rewrite fn_lookup_insert_ne by done. rewrite fn_lookup_insert_ne; [done|].
      intros ->. by rewrite next_prev in Hne.
  - destruct (decide (r = r')) as [<-|Hne].
    + by rewrite !fn_lookup_insert.
    + by rewrite !fn_lookup_insert_ne.
Qed.
End invariant.
