(* ===== verification/RingPostedProof.v ===== *)
(** Every step of the posted-receive ring preserves its invariant. *)
From S2P Require Import Prelude Prog Transport RingAllreduce RingSpec RingMem RingPosted RingPostedInv.

Section preservation.
Context {F : Type} (add : F → F → F).
Context (S : ring_setup) (mem0 : Z → Z → F) (max_inline : Z).
Abbreviation N := (rs_N S).
Abbreviation chunk := (rs_chunk S).
Abbreviation cb := (u64 (chunk * sizeof_float)).
Context (OK : setup_ok S).
(** A chunk fits the 32-bit length of a work request. *)
Context (Hcb : sizeof_float * chunk < 2 ^ 32).
Abbreviation inv := (inv add S mem0).
Abbreviation rank_ok := (rank_ok add S mem0).
Abbreviation edge_ok := (edge_ok add S mem0).

Lemma cb_u32 : u32 cb = cb.
Proof.
  pose proof (ok_chunk S OK). rewrite cb_eq by done. apply u32_small. unfold sizeof_float in *. lia.
Qed.
Lemma cb_cells : cb / sizeof_float = chunk.
Proof. rewrite cb_eq by done. unfold sizeof_float. rewrite Z.mul_comm. by apply Z.div_mul. Qed.

(** The guard of a post at chunk granularity. *)
Lemma post_ok_chunk h c n :
  size h = sizeof_float * (n * chunk) → 0 ≤ c < n → n ≤ N →
  post_ok h cb (sizeof_float * (c * chunk)) = true.
Proof.
  intros Hs Hc Hn. pose proof (ok_chunk S OK). pose proof (ok_width S OK). unfold post_ok.
  rewrite cb_u32, cb_eq, Hs by done. unfold sizeof_float in *.
  rewrite u64_small by nia. apply bool_decide_eq_true_2. nia.
Qed.
Lemma send_ok r s :
  0 ≤ r < N → 0 ≤ s < 2 * (N - 1) →
  post_ok (rs_r_h S r) cb (u64 (send_chunk r N s * cb)) = true ∧
  addr (rs_r_h S r) + u64 (send_chunk r N s * cb) = bcell S r (send_chunk r N s) 0.
Proof.
  intros Hr Hs. destruct (ok_r_h S OK r Hr) as [Ha Hz]. pose proof (ok_N S OK).
  pose proof (send_chunk_range N ltac:(lia) r s Hr Hs).
  rewrite off_eq by done. split; [by eapply post_ok_chunk|]. rewrite Ha. unfold bcell. lia.
Qed.
Lemma recv_ok r s :
  0 ≤ r < N → 0 ≤ s < 2 * (N - 1) →
  post_ok (recv_h S r s) cb (recv_off S r s) = true ∧
  addr (recv_h S r s) + recv_off S r s = recv_addr S r s.
Proof.
  intros Hr Hs. unfold recv_h, recv_off, recv_addr. pose proof (ok_N S OK).
  destruct (Z.ltb_spec s (N - 1)).
  - destruct (ok_stage_h S OK r Hr) as [Ha Hz]. destruct (parity S OK s) as [? ?]; [lia|].
    rewrite off_eq by (done || lia).
    split; [eapply post_ok_chunk; [exact Hz|lia..]|]. rewrite Ha. unfold scell. lia.
  - destruct (ok_l_h S OK r Hr) as [Ha Hz].
    pose proof (recv_chunk_range N ltac:(lia) r s Hr Hs).
    rewrite off_eq by done. split; [by eapply post_ok_chunk|]. rewrite Ha. unfold bcell. lia.
Qed.

(** ** Links *)

Lemma edge_ext r c p pn d p' pn' :
  n_pr p' = n_pr p → n_sent p' = n_sent p → n_pl pn' = n_pl pn → n_posted N pn' = n_posted N pn →
  edge_ok r c p pn d → edge_ok r c p' pn' d.
Proof. intros H1 H2 H3 H4 []. constructor; rewrite ?H1, ?H2, ?H3, ?H4; done. Qed.

Lemma edge_push_recv r c p pn pn' d :
  0 ≤ r < N → n_pl pn' = n_pl pn → n_posted N pn' = n_posted N pn + 1 →
  edge_ok r c p pn d →
  edge_ok r (push_recv c (recv_addr S (next_rank N r) (n_posted N pn)) cb) p pn' d.
Proof.
  intros Hr Hl Hp []. constructor; cbn; rewrite ?Hl, ?Hp; try done; [lia|].
  rewrite eo_rq. replace (n_posted N pn + 1 - d) with ((n_posted N pn - d) + 1) by lia.
  rewrite seqZ_app by lia. rewrite fmap_app. f_equal.
  replace (d + (n_posted N pn - d)) with (n_posted N pn) by lia. done.
Qed.

Lemma edge_push_send r c p p' pn d m sn :
  n_pr p' = n_pr p → n_sent p' = n_sent p + 1 → n_sent p = n_pr p →
  (sn = None ∨ sn = Some (msg_list add S mem0 r (n_sent p))) → m = n_sent p →
  edge_ok r c p pn d →
  edge_ok r (mkLink (sq c ++ [mkSwr (bcell S r (send_chunk r N m) 0) cb sn]) (rq c) (scq c) (rcq c) (acks c))
          p' pn d.
Proof.
  intros H1 H2 H3 Hsn -> []. assert (d = n_sent p) as -> by lia.
  constructor; cbn; rewrite ?H1, ?H2; try (done || lia).
  right. split; [done|]. destruct eo_sq as [[_ ->]|[? _]]; [|lia]. exists sn. done.
Qed.

Lemma edge_poll_left r c p pn pn' d :
  n_pl pn' = n_pl pn + 1 → n_posted N pn' = n_posted N pn → 0 < rcq c →
  edge_ok r c p pn d →
  edge_ok r (mkLink (sq c) (rq c) (scq c) (rcq c - 1) (acks c)) p pn' d.
Proof. intros H1 H2 H3 []. constructor; cbn; rewrite ?H1, ?H2; try done; lia. Qed.

Lemma edge_poll_right r c p p' pn d :
  n_pr p' = n_pr p + 1 → n_sent p' = n_sent p → 0 < scq c →
  edge_ok r c p pn d →
  edge_ok r (mkLink (sq c) (rq c) (scq c - 1) (rcq c) (acks c)) p' pn d.
Proof. intros H1 H2 H3 []. constructor; cbn; rewrite ?H1, ?H2; try done; lia. Qed.

Lemma edge_ack r c p pn d :
  0 < acks c → edge_ok r c p pn d →
  edge_ok r (mkLink (sq c) (rq c) (scq c + 1) (rcq c) (acks c - 1)) p pn d.
Proof. intros H1 []. constructor; cbn; try done; lia. Qed.

(** ** Ranks *)

Lemma rank_ext r cd m p p' D :
  rank_ok r cd m p D → pc_valid N chunk p' → n_sums N p' = n_sums N p → n_elems p' = n_elems p →
  rank_ok r (residual S r p') m p' D.
Proof. intros [] Hv H1 H2. constructor; rewrite ?H1, ?H2; done. Qed.

(** The message a rank posts or the adapter reads is the one its chunk must
    carry.  When the world has two ranks the chunk sent in round zero is also
    the target of the next receive; that receive cannot have been filled,
    since the peer's next message answers this one. *)
Lemma send_content r cd m p D :
  0 ≤ r < N → rank_ok r cd m p D → 0 ≤ p_s p < 2 * (N - 1) → n_elems p = 0 →
  p_s p ≤ D → D ≤ p_s p + N - 1 →
  mem_read m (bcell S r (send_chunk r N (p_s p)) 0) chunk = msg_list add S mem0 r (p_s p).
Proof.
  intros Hr Hro Hs Hj HD HD'. pose proof (ok_N S OK). unfold msg_list. apply read_buf.
  intros i Hi. rewrite (ro_buf _ _ _ _ _ _ _ _ Hro).
  2: { split; [apply send_chunk_range; lia|done]. }
  rewrite send_chunk_mod by lia. rewrite Hj. unfold n_sums. by apply buf_at_send.
Qed.

Lemma sum_cells r s j :
  0 ≤ r < N → 0 ≤ s < N - 1 →
  rs_buf S r + sizeof_float * u64 (recv_chunk r N s * chunk) + sizeof_float * j
    = bcell S r (recv_chunk r N s) j ∧
  rs_stage S r + sizeof_float * u64 (Z.rem s 2 * chunk) + sizeof_float * j = scell S r (Z.rem s 2) j.
Proof.
  intros Hr Hs. pose proof (ok_N S OK). destruct (parity S OK s) as [? ?]; [lia|].
  pose proof (recv_chunk_range N ltac:(lia) r s Hr ltac:(lia)).
  rewrite !coff_eq by (done || lia). unfold bcell, scell, sizeof_float. lia.
Qed.

(** One addition of the summation loop. *)
Lemma rank_sum r cd m s j D p' :
  0 ≤ r < N → rank_ok r cd m (mkPc s (PSum j)) D → s + 1 ≤ D ≤ s + 2 →
  p' = (if j + 1 <? chunk then mkPc s (PSum (j + 1)) else mkPc (s + 1) PSend) →
  let d := bcell S r (recv_chunk r N s) j in
  rank_ok r (residual S r p') (<[d := add (m d) (m (scell S r (Z.rem s 2) j))]> m) p' D.
Proof.
  intros Hr [Hv _ Hb Hst Hfr] HD Hp' d. pose proof (ok_N S OK) as HN.
  cbn in Hv. destruct Hv as [Hs Hj].
  assert (Hrc : inner S (recv_chunk r N s) N j) by (split; [apply recv_chunk_range; lia|lia]).
  pose proof (recv_chunk_mod N ltac:(lia) r s Hr ltac:(lia)) as Hc0.
  assert (Hb' : ∀ c i, inner S c N i → m (bcell S r c i) = buf_at add (input S mem0) N r s j D c i).
  { intros c i Hci. rewrite Hb by done. unfold n_sums. cbn. by rewrite Z.min_l by lia. }
  assert (Hnew : ∀ c i, inner S c N i →
    (<[d := add (m d) (m (scell S r (Z.rem s 2) j))]> m) (bcell S r c i)
    = buf_at add (input S mem0) N r s (j + 1) D c i).
  { intros c i Hci. rewrite buf_at_sum by (destruct Hci; lia). rewrite <- Hc0.
    case_bool_decide as Hc.
    - destruct Hc as [-> ->]. fold d. rewrite fn_lookup_insert, Hst by lia.
      unfold d. by rewrite Hb'.
    - rewrite fn_lookup_insert_ne; [by apply Hb'|].
      unfold d. intros He. apply Hc.
      apply bcell_inj in He; [|lia|apply Hci]. by destruct He as [<- <-]. }
  constructor.
  - subst p'. destruct (Z.ltb_spec (j + 1) chunk); cbn; lia.
  - done.
  - intros c i Hci. rewrite Hnew by done. subst p'. destruct (Z.ltb_spec (j + 1) chunk).
    + unfold n_sums. cbn. by rewrite Z.min_l by lia.
    + unfold n_sums. cbn. rewrite Z.min_l by lia. replace (j + 1) with chunk by lia.
      apply buf_at_sum_done. apply Hci.
  - intros s' i Hs' HD' Hi. rewrite fn_lookup_insert_ne; [by apply Hst|].
    apply bcell_scell; [done..|]. split; [|done]. by destruct (parity S OK s') as [? ?]; [lia|].
  - intros a Ha. rewrite fn_lookup_insert_ne; [by apply Hfr|].
    intros <-. by apply (proj1 Ha (recv_chunk r N s) j).
Qed.

(** A delivery into rank [r], as its [D]-th message. *)
Lemma rank_deliver r cd m p D :
  0 ≤ r < N → rank_ok r cd m p D → 0 ≤ D → D < n_posted N p →
  rank_ok r cd (mem_write m (recv_addr S r D) (msg_list add S mem0 (prev_rank N r) D)) p (D + 1).
Proof.
  intros Hr [Hv Hcd Hb Hst Hfr] HD HDp. pose proof (ok_N S OK) as HN.
  destruct (n_posted_bound S p Hv HN) as [Hp1 Hp2]. unfold recv_addr, msg_list.
  destruct (Z.ltb_spec D (N - 1)).
  - destruct (parity S OK D HD) as [Hpar _]. constructor; [done..| | |].
    + intros c i Hci. rewrite buf_at_recv_scatter by (done || lia).
      rewrite write_stage_other; [by apply Hb|]. intros k Hk. by apply bcell_scell.
    + intros s i Hs HsD Hi. rewrite write_stage_stage by done.
      case_bool_decide as Hc.
      * assert (s = D) as ->; [|done].
        rewrite !Z.rem_mod_nonneg in Hc by lia.
        destruct (decide (s = D)); [done|]. exfalso. assert (s = D - 1) as -> by lia.
        apply (mod_inj_near 2 (D - 1) D) in Hc; lia.
      * apply Hst; [done| |done]. destruct (decide (s = D)) as [->|]; [done|lia].
    + intros a Ha. rewrite write_stage_other; [by apply Hfr|].
      intros k Hk. by apply (proj2 Ha).
  - pose proof (recv_chunk_range N HN r D Hr ltac:(lia)) as Hrc. constructor; [done..| | |].
    + intros c i Hci. rewrite write_buf_buf by apply Hci.
      rewrite (buf_at_recv add _ N HN) by (done || lia || apply Hci).
      rewrite recv_chunk_mod by lia. by case_bool_decide; [|apply Hb].
    + intros s i Hs HsD Hi. rewrite write_buf_other; [apply Hst; lia|].
      intros k Hk He. destruct (parity S OK s) as [? ?]; [lia|].
      by apply (bcell_scell S OK r (recv_chunk r N D) k (Z.rem s 2) i Hr).
    + intros a Ha. rewrite write_buf_other; [by apply Hfr|].
      intros k Hk. by apply (proj1 Ha).
Qed.
(** ** Steps *)

(** Replace the rank's program by the operation it performs. *)
Ltac perform H D :=
  let Hk := fresh "Hk" in
  destruct D as (? & Hk & Hcode); rewrite Hk in H; cbn in H; clear Hk.
Ltac updated :=
  try (intros ? ?; cbn; rewrite ?fn_lookup_insert_ne by done; done);
  try (intros ? ? ?; cbn; rewrite ?fn_lookup_insert_ne by done; done).
Ltac at_rank := cbn; rewrite ?fn_lookup_insert, ?fn_lookup_insert_ne by done.

Abbreviation consistent g P dl :=
  (∀ r, 0 ≤ r < N → rank_ok r (code g r) (mem g r) (P r) (dl (prev_rank N r)) ∧
                    edge_ok r (conn g r) (P r) (P (next_rank N r)) (dl r)).

Lemma start_preserves g g' P dl r :
  consistent g P dl → 0 ≤ r < N → P r = mkPc 0 PStart →
  proc_step add N max_inline g r = Some g' → inv g'.
Proof.
  intros Hinv Hr HP Hstep. pose proof (ok_N S OK) as HN. destruct (Hinv r Hr) as [Hro Heo].
  destruct (Hinv (prev_rank N r) (prev_range N HN r)) as [_ Hpe]. rewrite next_prev in Hpe by done.
  pose proof (prev_ne N HN r Hr) as Hpn. rewrite HP in *.
  unfold proc_step in Hstep. rewrite (ro_code _ _ _ _ _ _ _ _ Hro) in Hstep.
  perform Hstep (does_start S r OK Hr). injection Hstep as <-.
  apply (inv_local add S mem0 OK g _ P dl r (mkPc 0 PInit)); updated; at_rank; [done|done|..].
  - rewrite Hcode. by eapply rank_ext.
  - by eapply edge_ext, Heo.
  - by eapply edge_ext, Hpe.
Qed.

(** Posting the receive of step [s], from [p] to [p']. *)
Lemma recv_preserves g g' P dl r p p' s :
  consistent g P dl → 0 ≤ r < N → P r = p → 0 ≤ s < 2 * (N - 1) →
  does S r p (recv_async Left (recv_h S r s) cb (u64 s) (recv_off S r s)) 0 p' →
  pc_valid N chunk p' → p_s p' = p_s p → n_elems p' = n_elems p → n_posted N p = s →
  n_posted N p' = s + 1 → n_pl p' = n_pl p → n_pr p' = n_pr p → n_sent p' = n_sent p →
  proc_step add N max_inline g r = Some g' → inv g'.
Proof.
  intros Hinv Hr HP Hs Hdoes Hv Hps Hel Hp Hp' Hl Hrr Hse Hstep.
  pose proof (ok_N S OK) as HN. destruct (Hinv r Hr) as [Hro Heo].
  destruct (Hinv (prev_rank N r) (prev_range N HN r)) as [_ Hpe]. rewrite next_prev in Hpe by done.
  pose proof (prev_ne N HN r Hr) as Hpn. rewrite HP in *.
  unfold proc_step in Hstep. rewrite (ro_code _ _ _ _ _ _ _ _ Hro) in Hstep.
  perform Hstep Hdoes. destruct (recv_ok r s Hr Hs) as [Hok Ha].
  rewrite Hok, Ha, cb_u32 in Hstep. injection Hstep as <-.
  apply (inv_local add S mem0 OK g _ P dl r p'); updated; at_rank; [done|done|..].
  - rewrite Hcode. eapply rank_ext; [done..| |done]. unfold n_sums. by rewrite Hps.
  - by eapply edge_ext, Heo.
  - pose proof (edge_push_recv (prev_rank N r) _ _ p p' _ (prev_range N HN r) Hl ltac:(lia) Hpe) as He.
    by rewrite next_prev, Hp in He.
Qed.

Lemma send_preserves g g' P dl r s :
  consistent g P dl → 0 ≤ r < N → P r = mkPc s PSend → s < 2 * (N - 1) →
  proc_step add N max_inline g r = Some g' → inv g'.
Proof.
  intros Hinv Hr HP Hs Hstep. pose proof (ok_N S OK) as HN. destruct (Hinv r Hr) as [Hro Heo].
  destruct (Hinv (prev_rank N r) (prev_range N HN r)) as [_ Hpe]. rewrite next_prev in Hpe by done.
  pose proof (prev_ne N HN r Hr) as Hpn. rewrite HP in *.
  pose proof (ro_pc _ _ _ _ _ _ _ _ Hro) as Hv. cbn in Hv.
  unfold proc_step in Hstep. rewrite (ro_code _ _ _ _ _ _ _ _ Hro) in Hstep.
  perform Hstep (does_send S r s Hs). destruct (send_ok r s Hr) as [Hok Ha]; [lia|].
  rewrite Hok, Ha, cb_u32 in Hstep. injection Hstep as <-.
  apply (inv_local add S mem0 OK g _ P dl r (mkPc s PPollL)); updated; at_rank; [done|done|..].
  - rewrite Hcode. eapply rank_ext; [done|cbn; lia|done..].
  - unfold push_send. eapply (edge_push_send _ _ (mkPc s PSend)); try done.
    case_match; [right|by left]. rewrite cb_cells. f_equal.
    pose proof (eo_left _ _ _ _ _ _ _ _ Hpe). pose proof (eo_posted _ _ _ _ _ _ _ _ Hpe).
    pose proof (send_content r _ _ _ _ Hr Hro) as Hc. unfold n_posted in *. cbn in *.
    apply Hc; lia.
  - by eapply edge_ext, Hpe.
Qed.

Lemma pollL_preserves g g' P dl r s :
  consistent g P dl → 0 ≤ r < N → P r = mkPc s PPollL →
  proc_step add N max_inline g r = Some g' → inv g'.
Proof.
  intros Hinv Hr HP Hstep. pose proof (ok_N S OK) as HN. destruct (Hinv r Hr) as [Hro Heo].
  destruct (Hinv (prev_rank N r) (prev_range N HN r)) as [_ Hpe]. rewrite next_prev in Hpe by done.
  pose proof (prev_ne N HN r Hr) as Hpn. rewrite HP in *.
  pose proof (ro_pc _ _ _ _ _ _ _ _ Hro) as Hv. cbn in Hv.
  unfold proc_step in Hstep. rewrite (ro_code _ _ _ _ _ _ _ _ Hro) in Hstep.
  perform Hstep (does_pollL S r s). destruct (Z.ltb_spec 0 (rcq (conn g (prev_rank N r)))); [|done].
  injection Hstep as <-. set (p' := if s + 1 <? _ then _ else _) in *.
  assert (Hp' : p_s p' = s ∧ pc_valid N chunk p' ∧ n_elems p' = 0 ∧ n_posted N p' = n_posted N (mkPc s PPollL)
                ∧ n_pl p' = s + 1 ∧ n_pr p' = s ∧ n_sent p' = s + 1).
  { unfold p'. destruct (Z.ltb_spec (s + 1) (2 * (N - 1))); unfold n_posted; cbn; lia. }
  destruct Hp' as (H1 & H2 & H3 & H4 & H5 & H6 & H7).
  apply (inv_local add S mem0 OK g _ P dl r p'); updated; at_rank; [done|done|..].
  - rewrite Hcode. eapply rank_ext; [done..| |done]. unfold n_sums. by rewrite H1.
  - by eapply edge_ext, Heo.
  - by eapply edge_poll_left, Hpe.
Qed.

Lemma pollR_preserves g g' P dl r s :
  consistent g P dl → 0 ≤ r < N → P r = mkPc s PPollR →
  proc_step add N max_inline g r = Some g' → inv g'.
Proof.
  intros Hinv Hr HP Hstep. pose proof (ok_N S OK) as HN. pose proof (ok_chunk S OK).
  destruct (Hinv r Hr) as [Hro Heo].
  destruct (Hinv (prev_rank N r) (prev_range N HN r)) as [_ Hpe]. rewrite next_prev in Hpe by done.
  pose proof (prev_ne N HN r Hr) as Hpn. rewrite HP in *.
  pose proof (ro_pc _ _ _ _ _ _ _ _ Hro) as Hv. cbn in Hv.
  unfold proc_step in Hstep. rewrite (ro_code _ _ _ _ _ _ _ _ Hro) in Hstep.
  perform Hstep (does_pollR S r s Hv). destruct (Z.ltb_spec 0 (scq (conn g r))); [|done].
  injection Hstep as <-. set (p' := if s <? _ then _ else _) in *.
  assert (Hp' : n_sums N p' = n_sums N (mkPc s PPollR) ∧ pc_valid N chunk p' ∧ n_elems p' = 0 ∧
                n_posted N p' = n_posted N (mkPc s PPollR)
                ∧ n_pl p' = s + 1 ∧ n_pr p' = s + 1 ∧ n_sent p' = s + 1).
  { unfold p'. destruct (Z.ltb_spec s (N - 1)); unfold n_posted, n_sums; cbn; lia. }
  destruct Hp' as (H1 & H2 & H3 & H4 & H5 & H6 & H7).
  apply (inv_local add S mem0 OK g _ P dl r p'); updated; at_rank; [done|done|..].
  - rewrite Hcode. by eapply rank_ext.
  - by eapply edge_poll_right, Heo.
  - by eapply edge_ext, Hpe.
Qed.

Lemma sum_preserves g g' P dl r s j :
  consistent g P dl → 0 ≤ r < N → P r = mkPc s (PSum j) →
  proc_step add N max_inline g r = Some g' → inv g'.
Proof.
  intros Hinv Hr HP Hstep. pose proof (ok_N S OK) as HN. pose proof (ok_chunk S OK).
  destruct (Hinv r Hr) as [Hro Heo].
  destruct (Hinv (prev_rank N r) (prev_range N HN r)) as [_ Hpe]. rewrite next_prev in Hpe by done.
  pose proof (prev_ne N HN r Hr) as Hpn. rewrite HP in *.
  pose proof (ro_pc _ _ _ _ _ _ _ _ Hro) as Hv. cbn in Hv. destruct Hv as [Hs Hj].
  unfold proc_step in Hstep. rewrite (ro_code _ _ _ _ _ _ _ _ Hro) in Hstep.
  perform Hstep (does_sum S r s j Hj). destruct (sum_cells r s j Hr Hs) as [Hd Hsrc].
  rewrite Hd, Hsrc in Hstep. injection Hstep as <-. set (p' := if j + 1 <? _ then _ else _) in *.
  assert (Hp' : n_posted N p' = n_posted N (mkPc s (PSum j)) ∧ n_pl p' = s + 1 ∧ n_pr p' = s + 1
                ∧ n_sent p' = s + 1).
  { unfold p'. destruct (Z.ltb_spec (j + 1) chunk); unfold n_posted; cbn; lia. }
  destruct Hp' as (H4 & H5 & H6 & H7).
  pose proof (eo_left _ _ _ _ _ _ _ _ Hpe) as Hleft.
  pose proof (eo_posted _ _ _ _ _ _ _ _ Hpe) as Hpost. unfold n_posted in Hpost. cbn in Hleft, Hpost.
  apply (inv_local add S mem0 OK g _ P dl r p'); updated; at_rank; [done|done|..].
  - rewrite Hcode. by eapply (rank_sum r _ _ s j); [..|lia|].
  - by eapply edge_ext, Heo.
  - by eapply edge_ext, Hpe.
Qed.

Lemma proc_preserves g g' r :
  inv g → 0 ≤ r < N → proc_step add N max_inline g r = Some g' → inv g'.
Proof.
  intros (P & dl & Hinv) Hr Hstep. pose proof (ok_N S OK) as HN.
  destruct (Hinv r Hr) as [Hro _]. pose proof (ro_pc _ _ _ _ _ _ _ _ Hro) as Hv.
  destruct (P r) as [s ph] eqn:HP. destruct ph; cbn in Hv.
  - subst s. by eapply start_preserves.
  - subst s. eapply (recv_preserves _ _ _ _ _ _ (mkPc 0 PSend) 0); try done; [lia|apply does_init|cbn; lia..].
  - destruct (Z.le_gt_cases (2 * (N - 1)) s); [|by eapply send_preserves].
    unfold proc_step in Hstep. by rewrite (ro_code _ _ _ _ _ _ _ _ Hro), residual_done in Hstep.
  - by eapply pollL_preserves.
  - eapply (recv_preserves _ _ _ _ _ _ (mkPc s PPollR) (s + 1)); try done; [lia|apply does_recv; lia|..];
      unfold n_posted; cbn; lia.
  - by eapply pollR_preserves.
  - by eapply sum_preserves.
Qed.

(** While a message of rank [r] is undelivered, the messages its neighbour
    has posted towards it cannot have come full circle to that message's
    chunk. *)
Lemma fetch_window g P dl r n :
  consistent g P dl → 0 ≤ r < N → dl r + 1 = n_sent (P r) →
  n ≤ n_sent (P (prev_rank N r)) → n ≤ n_posted N (P r) → n ≤ dl r + N - 1.
Proof.
  intros Hinv Hr Hd Hn Hn'. pose proof (ok_N S OK) as HN. destruct (Hinv r Hr) as [Hro Heo].
  set (l := prev_rank N r) in *. assert (Hl : 0 ≤ l < N) by (apply prev_range; lia).
  destruct (Hinv l Hl) as [Hrol Hpe].
  set (ll := prev_rank N l) in *. assert (Hll : 0 ≤ ll < N) by (apply prev_range; lia).
  destruct (Hinv ll Hll) as [_ Hppe].
  assert (next_rank N l = r) as Hnl by (by apply next_prev).
  assert (next_rank N ll = l) as Hnll by (by apply next_prev).
  rewrite Hnl in Hpe. rewrite Hnll in Hppe.
  pose proof (ro_pc _ _ _ _ _ _ _ _ Hro) as Hv. pose proof (ro_pc _ _ _ _ _ _ _ _ Hrol) as Hvl.
  destruct (n_posted_bound S (P r) Hv HN). destruct Heo, Hpe, Hppe.
  assert (p_s (P r) ≤ dl r).
  { clear -eo_right Hv. destruct (P r) as [s []]; cbn in *; lia. }
  destruct (Z.le_gt_cases 3 N); [lia|]. assert (HN2 : N = 2) by lia.
  assert (Hllr : ll = r).
  { unfold ll, l. rewrite !prev_cases by (lia || apply prev_range; lia). repeat case_match; lia. }
  assert (n_sent (P l) ≤ n_pl (P l) + 1).
  { clear -Hvl. destruct (P l) as [s []]; cbn in *; lia. }
  rewrite Hllr in *. lia.
Qed.

Lemma fetch_preserves g g' r k :
  inv g → 0 ≤ r < N → fetch_step g r k = Some g' → inv g'.
Proof.
  intros (P & dl & Hinv) Hr Hstep. pose proof (ok_N S OK) as HN. destruct (Hinv r Hr) as [Hro Heo].
  pose proof (prev_range N HN r) as Hl. destruct (Hinv _ Hl) as [_ Hpe].
  rewrite next_prev in Hpe by done.
  unfold fetch_step in Hstep. destruct (sq (conn g r) !! k) as [[a len [|]]|] eqn:Hk; try done.
  injection Hstep as <-. apply (inv_edge add S mem0 g P dl r); [done..|].
  pose proof (fetch_window g P dl r (dl (prev_rank N r)) Hinv Hr) as Hwin.
  pose proof (eo_sent _ _ _ _ _ _ _ _ Hpe) as Hps1. pose proof (eo_posted _ _ _ _ _ _ _ _ Hpe) as Hps2.
  pose proof (ro_pc _ _ _ _ _ _ _ _ Hro) as Hv.
  pose proof (eo_left _ _ _ _ _ _ _ _ Hpe) as Hleft.
  destruct Heo. constructor; try done. cbn. right.
  destruct eo_sq as [[_ Hq]|[Hd (sn & Hq & Hsn)]]; rewrite Hq in Hk; [done|].
  specialize (Hwin Hd Hps1 Hps2). split; [done|]. destruct k as [|k]; [|done].
  injection Hk as <- <- ->. rewrite Hq. cbn. eexists; split; [done|]. right. f_equal.
  rewrite cb_cells.
  assert (Hps : p_s (P r) = dl r ∧ 0 ≤ dl r < 2 * (N - 1) ∧ n_elems (P r) = 0).
  { clear -Hd Hv eo_right HN. destruct (P r) as [s []]; cbn in *; lia. }
  destruct Hps as (Hps & Hrange & Hel).
  destruct (n_pl_bound S (P r) Hv HN) as [? _].
  rewrite <- Hps. eapply send_content; [done..|lia|done|lia|lia].
Qed.

Lemma deliver_preserves g g' r :
  inv g → 0 ≤ r < N → deliver_step N g r = Some g' → inv g'.
Proof.
  intros (P & dl & Hinv) Hr Hstep. pose proof (ok_N S OK) as HN. destruct (Hinv r Hr) as [_ Heo].
  pose proof (next_range N HN r) as Hn. destruct (Hinv _ Hn) as [Hrn _].
  rewrite prev_next in Hrn by done.
  unfold deliver_step in Hstep. pose proof Heo as Heo'. destruct Heo'.
  destruct eo_sq as [[_ Hq]|[Hd (sn & Hq & Hsn)]]; rewrite Hq in Hstep; [done|].
  destruct Hsn as [->| ->]; [done|]. rewrite eo_rq in Hstep.
  pose proof (ro_pc _ _ _ _ _ _ _ _ Hrn) as Hvn.
  destruct (Z.le_gt_cases (n_posted N (P (next_rank N r)) - dl r) 0).
  { by rewrite seqZ_nil in Hstep by lia. }
  rewrite seqZ_cons in Hstep by lia. cbn in Hstep. rewrite Z.leb_refl in Hstep.
  injection Hstep as <-.
  apply (inv_deliver add S mem0 OK g P dl r); [done..| |].
  - assert (0 ≤ dl r).
    { pose proof (n_pl_bound S _ Hvn HN). clear -eo_left H0 Hvn.
      destruct (P (next_rank N r)) as [s []]; cbn in *; lia. }
    pose proof (rank_deliver (next_rank N r) _ _ _ _ Hn Hrn ltac:(done) ltac:(lia)) as Hdel.
    by rewrite prev_next in Hdel.
  - constructor; cbn; try (done || lia).
    + left. split; [lia|done].
    + f_equal. f_equal; lia.
Qed.

Lemma ack_preserves g g' r :
  inv g → 0 ≤ r < N → ack_step g r = Some g' → inv g'.
Proof.
  intros (P & dl & Hinv) Hr Hstep. destruct (Hinv r Hr) as [_ Heo]. unfold ack_step in Hstep.
  destruct (Z.ltb_spec 0 (acks (conn g r))); [|done]. injection Hstep as <-.
  apply (inv_edge add S mem0 g P dl r); [done..|]. by apply edge_ack.
Qed.

Lemma step_preserves g g' : inv g → step add N max_inline g g' → inv g'.
Proof.
  intros Hinv [l Hl]. unfold lstep in Hl. case_bool_decide as Hr; [|done].
  destruct l; cbn in Hr; eauto using proc_preserves, fetch_preserves, deliver_preserves, ack_preserves.
Qed.

Lemma reachable_inv g : rtc (step add N max_inline) (posted_init S mem0) g → inv g.
Proof.
  intros Hsteps. assert (Hi : inv (posted_init S mem0)) by by apply inv_init.
  induction Hsteps; eauto using step_preserves.
Qed.
End preservation.
