(* ===== verification/RingPostedCorrect.v ===== *)
(** What the posted-receive ring guarantees under every interleaving: the
    result, progress, termination and freedom from data races. *)
From S2P Require Import Prelude Prog Transport RingAllreduce RingSpec RingMem RingPosted RingMeasure.
From S2P Require Import RingPostedInv RingPostedProof.

(** * Helpers *)

Section helpers.
Context {F : Type} (add : F → F → F).
Context (S : ring_setup) (mem0 : Z → Z → F) (max_inline : Z).
Abbreviation N := (rs_N S).
Abbreviation chunk := (rs_chunk S).
Context (OK : setup_ok S).

(** The operation a rank performs next, by its position. *)
Lemma residual_op r p :
  0 ≤ r < N → pc_valid N chunk p →
  match p_ph p with
  | PSend => p_s p = 2 * (N - 1) ∧ residual S r p = Ret 0 ∨
             p_s p < 2 * (N - 1) ∧ ∃ h l i o k, residual S r p = Do (send_async Right h l i o : op ring_sig) k
  | PStart => ∃ k, residual S r p = Do (recv_blocks Left : op ring_sig) k
  | PInit | PRecv => ∃ h l i o k, residual S r p = Do (recv_async Left h l i o : op ring_sig) k
  | PPollL => ∃ k, residual S r p = Do (poll Left : op ring_sig) k
  | PPollR => ∃ k, residual S r p = Do (poll Right : op ring_sig) k
  | PSum j => ∃ k, residual S r p = Do (add_assign (bcell S r (recv_chunk r N (p_s p)) j)
                                          (scell S r (Z.rem (p_s p) 2) j) : op ring_sig) k
  end.
Proof.
  intros Hr Hv. destruct p as [s ph]. destruct ph; cbn in Hv |- *.
  - subst s. destruct (does_start S r OK Hr) as (k & Hk & _). eauto.
  - subst s. destruct (does_init S r) as (k & Hk & _). eauto 10.
  - destruct (Z.eq_dec s (2 * (N - 1))).
    + left. split; [done|]. apply residual_done. lia.
    + right. split; [lia|]. destruct (does_send S r s) as (k & Hk & _); [lia|]. eauto 10.
  - destruct (does_pollL S r s) as (k & Hk & _). eauto.
  - destruct (does_recv S r s) as (k & Hk & _); [lia|]. eauto 10.
  - destruct (does_pollR S r s) as (k & Hk & _); [lia|]. eauto.
  - destruct (does_sum S r s j) as (k & Hk & _); [lia|].
    destruct (sum_cells S OK r s j Hr) as [Hd Hs]; [lia|]. rewrite Hd, Hs in Hk. eauto.
Qed.

Lemma returned_at_end r cd m p D v :
  0 ≤ r < N → rank_ok add S mem0 r cd m p D → cd = Ret v → p = mkPc (2 * (N - 1)) PSend ∧ v = 0.
Proof.
  intros Hr Hro Hcd. pose proof (residual_op r p Hr (ro_pc _ _ _ _ _ _ _ _ Hro)) as Hop.
  rewrite (ro_code _ _ _ _ _ _ _ _ Hro) in Hcd. rewrite Hcd in Hop.
  clear Hcd Hro. destruct p as [s ph]. destruct ph; cbn in Hop;
    try (exfalso; decompose [ex] Hop; discriminate).
  destruct Hop as [[-> [= ->]]|[_ Hop]]; [done|exfalso; decompose [ex] Hop; discriminate].
Qed.

End helpers.

(** * Termination measure *)

(** Work left on a link: a read, a delivery and a completion per pending send,
    a completion per delivered one. *)
Definition swr_work {F} (w : @swr F) : Z := match s_snap w with None => 3 | Some _ => 2 end.
Definition link_work {F} (c : @link F) : Z := foldr (fun w n => swr_work w + n) 0 (sq c) + Z.max 0 (acks c).
Definition work {F} (N : Z) (g : @gstate F) : Z :=
  total N (fun r => 4 * path (code g r)) + total N (fun r => link_work (conn g r)).

Section work.
Context {F : Type} (add : F → F → F) (N max_inline : Z).

Lemma swr_work_bound (w : @swr F) : 2 ≤ swr_work w ≤ 3.
Proof. unfold swr_work. case_match; lia. Qed.
Lemma link_work_nonneg (c : @link F) : 0 ≤ link_work c.
Proof.
  unfold link_work. assert (0 ≤ foldr (fun w n => swr_work w + n) 0 (sq c)); [|lia].
  induction (sq c) as [|w l IH]; cbn; [lia|].
  pose proof (swr_work_bound w). lia.
Qed.
Lemma work_nonneg (g : @gstate F) : 0 ≤ work N g.
Proof.
  unfold work. apply Z.add_nonneg_nonneg; apply total_nonneg; intros r.
  - pose proof (path_nonneg (code g r)). lia.
  - apply link_work_nonneg.
Qed.

Lemma sq_work_app (l l' : list (@swr F)) :
  foldr (fun w n => swr_work w + n) 0 (l ++ l')
  = foldr (fun w n => swr_work w + n) 0 l + foldr (fun w n => swr_work w + n) 0 l'.
Proof. induction l; cbn; [lia|]. lia. Qed.
Lemma sq_work_insert (l : list (@swr F)) k w w' :
  l !! k = Some w →
  foldr (fun w n => swr_work w + n) 0 (<[k:=w']> l)
  = foldr (fun w n => swr_work w + n) 0 l - swr_work w + swr_work w'.
Proof.
  revert k. induction l as [|v l IH]; intros [|k] Hk; cbn in *; try done.
  - injection Hk as ->. lia.
  - rewrite IH by done. lia.
Qed.

(** The code of one rank and one link change: the total work drops when the
    rank's and the link's together do. *)
Lemma work_drop (g g' : @gstate F) r e :
  0 ≤ r < N → 0 ≤ e < N →
  (∀ r', r' ≠ r → code g' r' = code g r') → (∀ e', e' ≠ e → conn g' e' = conn g e') →
  4 * path (code g' r) + link_work (conn g' e) < 4 * path (code g r) + link_work (conn g e) →
  work N g' < work N g.
Proof.
  intros Hr He Hc Hl Hd. unfold work.
  rewrite (total_at N (fun r => 4 * path (code g r)) (fun r => 4 * path (code g' r)) r Hr)
    by (intros; by rewrite Hc).
  rewrite (total_at N (fun r => link_work (conn g r)) (fun r => link_work (conn g' r)) e He)
    by (intros; by rewrite Hl).
  lia.
Qed.

Ltac others := intros ? ?; cbn; rewrite ?fn_lookup_insert_ne by done; done.
Ltac measured :=
  cbn; rewrite ?fn_lookup_insert; unfold link_work, push_send, push_recv; cbn;
  rewrite ?sq_work_app; cbn; unfold swr_work; repeat case_match; cbn in *; lia.

Lemma step_work g g' : 2 ≤ N → step add N max_inline g g' → work N g' < work N g.
Proof.
  intros HN [l Hl]. unfold lstep in Hl. case_bool_decide as Hr; [|done].
  destruct l as [r|r k|r|r]; cbn in Hr, Hl.
  - unfold proc_step in Hl. destruct (code g r) as [v|o k] eqn:Hcode; [done|].
    pose proof (prev_range N HN r) as Hp.
    destruct o as [t|[] h len id off|[] h len id off|[]|d s]; cbn in Hl; try done.
    + injection Hl as <-. apply (work_drop g _ r r); [done|done|others|others|]. rewrite Hcode. measured.
    + case_match; injection Hl as <-;
        (apply (work_drop g _ r r); [done|done|others|others|]; rewrite Hcode; measured).
    + case_match; injection Hl as <-;
        (apply (work_drop g _ r (prev_rank N r)); [done|done|others|others|]; rewrite Hcode; measured).
    + case_match; [|done]. injection Hl as <-.
      apply (work_drop g _ r (prev_rank N r)); [done|done|others|others|]; rewrite Hcode; measured.
    + case_match; [|done]. injection Hl as <-.
      apply (work_drop g _ r r); [done|done|others|others|]; rewrite Hcode; measured.
    + injection Hl as <-. apply (work_drop g _ r r); [done|done|others|others|]. rewrite Hcode. measured.
  - unfold fetch_step in Hl. destruct (sq (conn g r) !! k) as [[a len [|]]|] eqn:Hk; try done.
    injection Hl as <-. apply (work_drop g _ r r); [done|done|others|others|].
    cbn. rewrite fn_lookup_insert. unfold link_work. cbn. erewrite sq_work_insert by done. cbn. lia.
  - unfold deliver_step in Hl. destruct (sq (conn g r)) as [|[a len [d|]] ws] eqn:Hq; try done.
    destruct (rq (conn g r)) as [|[a' rlen] rs]; [done|]. case_match; [|done]. injection Hl as <-.
    apply (work_drop g _ r r); [done|done|others|others|].
    cbn. rewrite fn_lookup_insert. unfold link_work. cbn. rewrite Hq. cbn. lia.
  - unfold ack_step in Hl. destruct (Z.ltb_spec 0 (acks (conn g r))); [|done]. injection Hl as <-.
    apply (work_drop g _ r r); [done|done|others|others|].
    cbn. rewrite fn_lookup_insert. unfold link_work. cbn. lia.
Qed.
Lemma steps_bounded n g g' : 2 ≤ N → nsteps (step add N max_inline) n g g' → Z.of_nat n ≤ work N g.
Proof.
  intros HN Hsteps. induction Hsteps as [g|n g g1 g' Hstep Hsteps IH].
  - apply (work_nonneg g).
  - pose proof (step_work g g1 HN Hstep). lia.
Qed.
End work.

(** * Progress *)

Section progress.
Context {F : Type} (add : F → F → F).
Context (S : ring_setup) (mem0 : Z → Z → F) (max_inline : Z).
Abbreviation N := (rs_N S).
Abbreviation chunk := (rs_chunk S).
Context (OK : setup_ok S) (Hcb : sizeof_float * chunk < 2 ^ 32).
Abbreviation can_step g := (∃ g', step add N max_inline g g').
Abbreviation consistent g P dl :=
  (∀ r, 0 ≤ r < N → rank_ok add S mem0 r (code g r) (mem g r) (P r) (dl (prev_rank N r)) ∧
                    edge_ok add S mem0 r (conn g r) (P r) (P (next_rank N r)) (dl r)).

Lemma can_lstep g l g' : 0 ≤ label_rank l < N → lstep add N max_inline l g = Some g' → can_step g.
Proof. intros _ Hl. exists g'. by exists l. Qed.

Lemma proc_moves g r :
  0 ≤ r < N → (∃ g', proc_step add N max_inline g r = Some g') → can_step g.
Proof.
  intros Hr [g' Hg']. eapply (can_lstep g (LProc r)); [done|].
  unfold lstep. cbn. by rewrite bool_decide_eq_true_2.
Qed.

(** A link with a pending send and a posted receive is never idle. *)
Lemma link_moves g P dl r :
  consistent g P dl → 0 ≤ r < N → dl r < n_sent (P r) → dl r < n_posted N (P (next_rank N r)) →
  can_step g.
Proof.
  intros Hinv Hr Hs Hp. destruct (Hinv r Hr) as [_ []].
  destruct eo_sq as [[? _]|[Hd (sn & Hq & Hsn)]]; [lia|].
  destruct Hsn as [->| ->].
  - eapply (can_lstep g (LFetch r 0)); [done|]. unfold lstep. cbn.
    rewrite bool_decide_eq_true_2 by done. unfold fetch_step. by rewrite Hq.
  - eapply (can_lstep g (LDeliver r)); [done|]. unfold lstep. cbn.
    rewrite bool_decide_eq_true_2 by done. unfold deliver_step. rewrite Hq, eo_rq.
    rewrite seqZ_cons by lia. cbn. by rewrite Z.leb_refl.
Qed.
(** A rank that polls can go on as soon as its completion is due. *)
Lemma poll_right_moves g P dl r k :
  consistent g P dl → 0 ≤ r < N → code g r = Do (poll Right : op ring_sig) k →
  n_pr (P r) < dl r → can_step g.
Proof.
  intros Hinv Hr Hc Hd. destruct (Hinv r Hr) as [_ []].
  destruct (Z.le_gt_cases (acks (conn g r)) 0).
  - eapply (can_lstep g (LProc r)); [done|]. unfold lstep. cbn.
    rewrite bool_decide_eq_true_2 by done. unfold proc_step. rewrite Hc. cbn.
    destruct (Z.ltb_spec 0 (scq (conn g r))); [done|lia].
  - eapply (can_lstep g (LAck r)); [done|]. unfold lstep. cbn.
    rewrite bool_decide_eq_true_2 by done. unfold ack_step.
    destruct (Z.ltb_spec 0 (acks (conn g r))); [done|lia].
Qed.
Lemma poll_left_moves g P dl r k :
  consistent g P dl → 0 ≤ r < N → code g r = Do (poll Left : op ring_sig) k →
  n_pl (P r) < dl (prev_rank N r) → can_step g.
Proof.
  intros Hinv Hr Hc Hd. pose proof (ok_N S OK) as HN.
  destruct (Hinv (prev_rank N r) (prev_range N HN r)) as [_ Hpe]. rewrite next_prev in Hpe by done.
  destruct Hpe. eapply (can_lstep g (LProc r)); [done|]. unfold lstep. cbn.
  rewrite bool_decide_eq_true_2 by done. unfold proc_step. rewrite Hc. cbn.
  destruct (Z.ltb_spec 0 (rcq (conn g (prev_rank N r)))); [done|lia].
Qed.

(** A rank of least step that has not returned can move, or its link can. *)
Lemma least_moves g P dl r :
  consistent g P dl → 0 ≤ r < N → (∀ r', 0 ≤ r' < N → p_s (P r) ≤ p_s (P r')) →
  code g r ≠ Ret 0 → (∀ r', 0 ≤ r' < N → p_ph (P r') ≠ PStart ∧ p_ph (P r') ≠ PInit) →
  (∀ r', 0 ≤ r' < N → p_ph (P r') = PSend → p_s (P r') = 2 * (N - 1)) →
  can_step g.
Proof.
  intros Hinv Hr Hmin Hret Hph Hsend. pose proof (ok_N S OK) as HN.
  destruct (Hinv r Hr) as [Hro Heo]. pose proof (ro_pc _ _ _ _ _ _ _ _ Hro) as Hv.
  pose proof (ro_code _ _ _ _ _ _ _ _ Hro) as Hc.
  pose proof (residual_op S OK r (P r) Hr Hv) as Hop. rewrite <- Hc in Hop.
  pose proof (prev_range N HN r) as Hl. destruct (Hinv _ Hl) as [Hrl Hpe].
  rewrite next_prev in Hpe by done. pose proof (ro_pc _ _ _ _ _ _ _ _ Hrl) as Hvl.
  pose proof (next_range N HN r) as Hn. destruct (Hinv _ Hn) as [Hrn _].
  pose proof (ro_pc _ _ _ _ _ _ _ _ Hrn) as Hvn.
  pose proof (Hmin _ Hl) as Hml. pose proof (Hmin _ Hn) as Hmn.
  destruct (Hph _ Hl) as [Hl1 Hl2]. destruct (Hph _ Hn) as [Hn1 Hn2].
  pose proof (Hsend _ Hl) as Hsl. pose proof (Hsend _ Hn) as Hsn.
  destruct (Hph _ Hr) as [Hr1 Hr2]. pose proof (Hsend _ Hr) as Hsr.
  destruct (P r) as [s ph] eqn:HP. destruct ph; try done.
  - destruct Hop as [[_ Hop]|[Hlt _]]; [congruence|]. specialize (Hsr eq_refl). cbn in *. lia.
  - destruct Hop as [k Hop].
    destruct (Z.le_gt_cases (dl (prev_rank N r)) s).
    + assert (s + 1 ≤ n_sent (P (prev_rank N r))).
      { clear -Hvl Hml Hl1 Hl2 Hsl Hv. destruct (P (prev_rank N r)) as [s' []]; cbn in *; try done; try lia.
        specialize (Hsl eq_refl). lia. }
      apply (link_moves g P dl (prev_rank N r)); [done..|lia|].
      rewrite next_prev, HP by done. clear -Hv H. unfold n_posted. cbn in *. lia.
    + eapply (poll_left_moves g P dl r); [done..|]. rewrite HP. cbn. lia.
  - destruct Hop as (h & l & i & o & k & Hop). apply (proc_moves g r Hr).
    unfold proc_step. rewrite Hop. cbn. case_match; eauto.
  - destruct Hop as [k Hop].
    destruct (Z.le_gt_cases (dl r) s).
    + apply (link_moves g P dl r); [done..|rewrite HP; cbn in *; lia|].
      assert (s + 1 ≤ n_posted N (P (next_rank N r))); [|lia].
      clear -Hvn Hmn Hn1 Hn2 Hsn Hv HN. unfold n_posted.
      destruct (P (next_rank N r)) as [s' []]; cbn in *; try done; try lia.
    + eapply (poll_right_moves g P dl r); [done..|]. rewrite HP. cbn. lia.
  - destruct Hop as [k Hop]. apply (proc_moves g r Hr). unfold proc_step. rewrite Hop. eauto.
Qed.

(** Operations that always go through at once. *)
Lemma local_moves g P dl r :
  consistent g P dl → 0 ≤ r < N →
  p_ph (P r) = PStart ∨ p_ph (P r) = PInit ∨ (p_ph (P r) = PSend ∧ p_s (P r) ≠ 2 * (N - 1)) → can_step g.
Proof.
  intros Hinv Hr Hph. destruct (Hinv r Hr) as [Hro _].
  pose proof (residual_op S OK r (P r) Hr (ro_pc _ _ _ _ _ _ _ _ Hro)) as Hop.
  rewrite <- (ro_code _ _ _ _ _ _ _ _ Hro) in Hop.
  apply (proc_moves g r Hr). unfold proc_step.
  destruct Hph as [Hph|[Hph|[Hph Hne]]]; rewrite Hph in Hop.
  - destruct Hop as [k ->]. cbn. eauto.
  - destruct Hop as (h & l & i & o & k & ->). cbn. case_match; eauto.
  - destruct Hop as [[? _]|(_ & h & l & i & o & k & ->)]; [done|]. cbn. case_match; eauto.
Qed.

Lemma inv_progress g :
  inv add S mem0 g → (∃ r, 0 ≤ r < N ∧ code g r ≠ Ret 0) → can_step g.
Proof.
  intros (P & dl & Hinv) (r0 & Hr0 & Hne). pose proof (ok_N S OK) as HN.
  set (busy r := p_ph (P r) = PStart ∨ p_ph (P r) = PInit ∨ (p_ph (P r) = PSend ∧ p_s (P r) ≠ 2 * (N - 1))).
  assert (Hdec : ∀ r, Decision (busy r)).
  { intros r. unfold busy. destruct (p_ph (P r));
      try (right; intros [?|[?|[? _]]]; discriminate).
    - by left; left.
    - by left; right; left.
    - destruct (decide (p_s (P r) = 2 * (N - 1))).
      + right. by intros [?|[?|[_ ?]]].
      + left. by right; right. }
  destruct (decide (Exists busy (seqZ 0 N))) as [(r & Hr & Hb)%Exists_exists|Hidle].
  { eapply local_moves; [done| |exact Hb]. apply elem_of_seqZ in Hr. lia. }
  rewrite <- Forall_Exists_neg, Forall_forall in Hidle.
  assert (Hidle' : ∀ r, 0 ≤ r < N → ¬ busy r) by (intros r Hr; apply Hidle, elem_of_seqZ; lia).
  assert (Hlast : ∀ r, 0 ≤ r < N → p_ph (P r) = PSend → p_s (P r) = 2 * (N - 1)).
  { intros r Hr Hp. destruct (decide (p_s (P r) = 2 * (N - 1))); [done|].
    destruct (Hidle' r Hr). unfold busy. tauto. }
  destruct (least_rank N (fun r => p_s (P r)) HN) as (r & Hr & Hmin).
  eapply (least_moves g P dl r); [done..| | |done].
  - intros Hret. destruct (Hinv r Hr) as [Hro _].
    destruct (returned_at_end add S mem0 OK r _ _ _ _ 0 Hr Hro Hret) as [HP _].
    specialize (Hmin r0 Hr0). rewrite HP in Hmin. cbn in Hmin.
    destruct (Hinv r0 Hr0) as [Hro0 _]. pose proof (ro_pc _ _ _ _ _ _ _ _ Hro0) as Hv0.
    pose proof (residual_op S OK r0 (P r0) Hr0 Hv0) as Hop.
    rewrite <- (ro_code _ _ _ _ _ _ _ _ Hro0) in Hop.
    destruct (P r0) as [s0 ph0]. destruct ph0; cbn in *; try lia.
    destruct Hop as [[_ ?]|[? _]]; [done|lia].
  - intros r' Hr'. specialize (Hidle' r' Hr'). unfold busy in Hidle'. tauto.
Qed.
End progress.

(** * Targets of deliveries *)

Section targets.
Context {F : Type} (add : F → F → F).
Context (S : ring_setup) (mem0 : Z → Z → F).
Abbreviation N := (rs_N S).
Abbreviation chunk := (rs_chunk S).
Abbreviation cb := (u64 (chunk * sizeof_float)).
Context (OK : setup_ok S).
Abbreviation consistent g P dl :=
  (∀ r, 0 ≤ r < N → rank_ok add S mem0 r (code g r) (mem g r) (P r) (dl (prev_rank N r)) ∧
                    edge_ok add S mem0 r (conn g r) (P r) (P (next_rank N r)) (dl r)).

Lemma deliver_target g g' P dl e a len rs :
  consistent g P dl → 0 ≤ e < N → deliver_step N g e = Some g' → rq (conn g e) = (a, len) :: rs →
  a = recv_addr S (next_rank N e) (dl e) ∧ len = cb ∧ dl e < n_sent (P e) ∧
  dl e < n_posted N (P (next_rank N e)) ∧ n_pl (P (next_rank N e)) ≤ dl e.
Proof.
  intros Hinv He Hdel Hrq. destruct (Hinv e He) as [_ []]. rewrite Hrq in eo_rq.
  destruct (Z.le_gt_cases (n_posted N (P (next_rank N e)) - dl e) 0).
  { by rewrite seqZ_nil in eo_rq by lia. }
  rewrite seqZ_cons in eo_rq by lia. injection eo_rq as -> -> _.
  unfold deliver_step in Hdel. destruct eo_sq as [[_ Hq]|[? _]]; [by rewrite Hq in Hdel|].
  split_and!; done || lia.
Qed.

Lemma summing_cells r cd m p D d s k :
  0 ≤ r < N → rank_ok add S mem0 r cd m p D → cd = Do (add_assign d s : op ring_sig) k →
  ∃ st j, p = mkPc st (PSum j) ∧ 0 ≤ st < N - 1 ∧ 0 ≤ j < chunk ∧
          d = bcell S r (recv_chunk r N st) j ∧ s = scell S r (Z.rem st 2) j.
Proof.
  intros Hr Hro Hc. pose proof (ro_pc _ _ _ _ _ _ _ _ Hro) as Hv.
  pose proof (residual_op S OK r p Hr Hv) as Hop.
  rewrite <- (ro_code _ _ _ _ _ _ _ _ Hro), Hc in Hop. clear Hro Hc.
  destruct p as [st ph]. destruct ph; cbn in Hop, Hv;
    try (exfalso; decompose [ex] Hop; discriminate).
  - exfalso. destruct Hop as [[_ Hop]|[_ Hop]]; [done|]. decompose [ex] Hop; discriminate.
  - destruct Hop as [k' [= -> ->]]. exists st, j. by split_and!; try apply Hv.
Qed.

Lemma target_not_dst r st i j :
  0 ≤ r < N → 0 ≤ st < N - 1 → 0 ≤ i < chunk → 0 ≤ j < chunk →
  bcell S r (recv_chunk r N st) j ≠ recv_addr S r (st + 1) + sizeof_float * i.
Proof.
  intros Hr Hst Hi Hj. pose proof (ok_N S OK) as HN. unfold recv_addr.
  pose proof (recv_chunk_range N HN r st Hr ltac:(lia)).
  destruct (Z.ltb_spec (st + 1) (N - 1)).
  - rewrite scell_add. apply bcell_scell; [done..|].
    split; [|done]. by destruct (parity S OK (st + 1)) as [? ?]; [lia|].
  - rewrite bcell_add. intros He. apply bcell_inj in He; [|done..]. destruct He as [He _].
    rewrite !recv_chunk_mod in He by lia. apply mod_inj_near in He; lia.
Qed.
Lemma target_not_src r st i j :
  0 ≤ r < N → 0 ≤ st < N - 1 → 0 ≤ i < chunk → 0 ≤ j < chunk →
  scell S r (Z.rem st 2) j ≠ recv_addr S r (st + 1) + sizeof_float * i.
Proof.
  intros Hr Hst Hi Hj. pose proof (ok_N S OK) as HN. unfold recv_addr.
  destruct (parity S OK st) as [? ?]; [lia|]. destruct (Z.ltb_spec (st + 1) (N - 1)).
  - rewrite scell_add. intros He. apply scell_inj in He; [|done..]. destruct He as [He _].
    rewrite !Z.rem_mod_nonneg in He by lia. apply (mod_inj_near 2) in He; lia.
  - rewrite bcell_add. apply not_eq_sym, bcell_scell; [done..| |done].
    split; [apply recv_chunk_range; lia|done].
Qed.

(** A delivery into [r] and a send of [r] that is still to be read. *)
Lemma unfetched_disjoint g P dl e r a' len' i j :
  consistent g P dl → 0 ≤ e < N → r = next_rank N e →
  dl e < n_sent (P e) → dl e < n_posted N (P r) → n_pl (P r) ≤ dl e →
  mkSwr a' len' None ∈ sq (conn g r) → 0 ≤ i < chunk → 0 ≤ j < len' / sizeof_float →
  recv_addr S r (dl e) + sizeof_float * i ≠ a' + sizeof_float * j.
Proof.
  intros Hinv He Hre Hsent Hpost HD Hin Hi Hj. pose proof (ok_N S OK) as HN.
  assert (Hr : 0 ≤ r < N) by (subst r; apply next_range; lia).
  assert (Hpr : prev_rank N r = e) by (subst r; by apply prev_next).
  destruct (Hinv r Hr) as [Hro Hedge]. pose proof (ro_pc _ _ _ _ _ _ _ _ Hro) as Hv.
  pose proof (fetch_window add S mem0 OK g P dl r (dl e + 1) Hinv Hr) as Hwin.
  rewrite Hpr in Hwin. destruct Hedge.
  destruct eo_sq as [[_ Hq]|[Hd (sn & Hq & _)]]; rewrite Hq in Hin;
    [by apply not_elem_of_nil in Hin|].
  specialize (Hwin Hd ltac:(lia) ltac:(lia)).
  apply list_elem_of_singleton in Hin. injection Hin as -> -> <-. rewrite cb_cells in Hj by done.
  rewrite bcell_add.
  assert (Hps : p_s (P r) = dl r ∧ 0 ≤ dl r < 2 * (N - 1)).
  { clear -Hd Hv eo_right HN. destruct (P r) as [s []]; cbn in *; lia. }
  destruct (n_pl_bound S (P r) Hv HN) as [? _]. destruct (n_posted_bound S (P r) Hv HN) as [? ?].
  pose proof (send_chunk_range N HN r (dl r) Hr ltac:(lia)).
  unfold recv_addr. destruct (Z.ltb_spec (dl e) (N - 1)).
  - rewrite scell_add. apply not_eq_sym, bcell_scell; [done..|].
    split; [|done]. by destruct (parity S OK (dl e)) as [? ?]; [lia|].
  - rewrite bcell_add. intros Heq. apply bcell_inj in Heq; [|done..]. destruct Heq as [Heq _].
    rewrite recv_chunk_mod, send_chunk_mod in Heq by lia.
    apply mod_inj_near in Heq; lia.
Qed.
End targets.
