(* ===== verification/RingPostedTheorems.v ===== *)
(** The properties of the posted-receive (RDMA) all-reduce. *)
From S2P Require Import Prelude Prog Transport RingAllreduce RingSpec RingMem RingPosted RingPostedInv.
From S2P Require Import RingPostedProof RingPostedCorrect.

(** A float cell [p] of a transfer of [len] bytes at [a]. *)
Definition in_transfer (a len p : Z) : Prop :=
  ∃ i, 0 ≤ i < len / sizeof_float ∧ p = a + sizeof_float * i.

(** What a rank that returned holds. *)
Lemma posted_holds {F} (add : F → F → F) (S : ring_setup) (mem0 : Z → Z → F) (max_inline : Z)
    (g : gstate) (r v : Z) :
  setup_ok S → sizeof_float * rs_chunk S < 2 ^ 32 →
  rtc (step add (rs_N S) max_inline) (posted_init S mem0) g →
  0 ≤ r < rs_N S → code g r = Ret v →
  v = 0 ∧
  (∀ c i, inner S c (rs_N S) i →
     mem g r (bcell S r c i) = reduced add (input S mem0) (rs_N S) c i) ∧
  (∀ p, outside S r p → mem g r p = mem0 r p).
Proof.
  intros OK Hcb Hreach Hr Hret. pose proof (ok_N S OK) as HN.
  destruct (reachable_inv add S mem0 max_inline OK Hcb g Hreach) as (P & dl & Hinv).
  destruct (Hinv r Hr) as [Hro _]. pose proof (prev_range (rs_N S) HN r) as Hl.
  destruct (Hinv _ Hl) as [_ Hpe]. rewrite next_prev in Hpe by done.
  destruct (returned_at_end add S mem0 OK r _ _ _ _ v Hr Hro Hret) as [HP ->].
  rewrite HP in *. pose proof (eo_left _ _ _ _ _ _ _ _ Hpe) as Hlow.
  pose proof (eo_posted _ _ _ _ _ _ _ _ Hpe) as Hhigh. unfold n_posted in Hhigh. cbn in Hlow, Hhigh.
  split; [done|]. split; [|apply Hro].
  intros c i Hci. rewrite (ro_buf _ _ _ _ _ _ _ _ Hro) by done. unfold n_sums. cbn.
  rewrite Z.min_r by lia. replace (dl _) with (2 * (rs_N S - 1)) by lia.
  apply buf_at_reduced; [lia|done|apply Hci].
Qed.

(** C1. Whatever the interleaving of ranks and adapters, a rank whose
    [ring_allreduce] has returned returned 0, its buffer holds in every chunk
    the sum of all ranks' inputs, added in ring order (so every rank holds the
    same bits, with no assumption on the addition), and it changed nothing
    outside [buf] and [stage]. *)
Theorem posted_result {F} (add : F → F → F) (S : ring_setup) (mem0 : Z → Z → F) (max_inline : Z)
    (g : gstate) (r v : Z) :
  setup_ok S → sizeof_float * rs_chunk S < 2 ^ 32 →
  rtc (step add (rs_N S) max_inline) (posted_init S mem0) g →
  0 ≤ r < rs_N S → code g r = Ret v →
  v = 0 ∧
  (∀ c i, inner S c (rs_N S) i →
     mem g r (bcell S r c i) = reduced add (input S mem0) (rs_N S) c i) ∧
  (∀ p, outside S r p → mem g r p = mem0 r p).
Proof. apply posted_holds. Qed.

(** C5. The posted ring never gets stuck: from every reachable state in which
    some rank has not returned 0, some rank or some adapter can take a step. *)
Theorem posted_progress {F} (add : F → F → F) (S : ring_setup) (mem0 : Z → Z → F) (max_inline : Z)
    (g : gstate) :
  setup_ok S → sizeof_float * rs_chunk S < 2 ^ 32 →
  rtc (step add (rs_N S) max_inline) (posted_init S mem0) g →
  (∃ r, 0 ≤ r < rs_N S ∧ code g r ≠ Ret 0) →
  ∃ g', step add (rs_N S) max_inline g g'.
Proof.
  intros OK Hcb Hreach Hne. eapply inv_progress; [done| |done]. by eapply reachable_inv.
Qed.

(** The posted ring terminates: no execution, from any state whatever, has
    more steps than the work that state has left. *)
Theorem posted_terminates {F} (add : F → F → F) (N max_inline : Z) (g g' : gstate) (n : nat) :
  2 ≤ N → nsteps (step add N max_inline) n g g' → Z.of_nat n ≤ work N g.
Proof. apply steps_bounded. Qed.

(** What a delivery may not touch. *)
Lemma race_free_holds {F} (add : F → F → F) (S : ring_setup) (mem0 : Z → Z → F) (max_inline : Z)
    (g g' : gstate) (e a len : Z) (rs : list (Z * Z)) :
  setup_ok S → sizeof_float * rs_chunk S < 2 ^ 32 →
  rtc (step add (rs_N S) max_inline) (posted_init S mem0) g →
  0 ≤ e < rs_N S → deliver_step (rs_N S) g e = Some g' → rq (conn g e) = (a, len) :: rs →
  let r := next_rank (rs_N S) e in
  (∀ a' len' p, mkSwr a' len' None ∈ sq (conn g r) → in_transfer a len p → ¬ in_transfer a' len' p) ∧
  (∀ d s k, code g r = Do (add_assign d s : op ring_sig) k → ¬ in_transfer a len d ∧ ¬ in_transfer a len s).
Proof.
  intros OK Hcb Hreach He Hdel Hrq r. pose proof (ok_N S OK) as HN.
  destruct (reachable_inv add S mem0 max_inline OK Hcb g Hreach) as (P & dl & Hinv).
  assert (Hr : 0 ≤ r < rs_N S) by (apply next_range; lia).
  destruct (deliver_target add S mem0 g g' P dl e a len rs Hinv He Hdel Hrq)
    as (Ha & Hlen & Hsent & Hposted & HD). fold r in Ha, Hposted, HD. subst a len.
  destruct (Hinv r Hr) as [Hro Hre]. unfold in_transfer. rewrite cb_cells by done.
  split.
  - intros a' len' p Hin (i & Hi & ->) (j & Hj & Heq).
    by eapply (unfetched_disjoint add S mem0 OK g P dl e r).
  - intros d s k Hc. destruct (summing_cells add S mem0 OK r _ _ _ _ _ _ _ Hr Hro Hc)
      as (st & j & HP & Hs & Hj & -> & ->).
    assert (HD' : dl e = st + 1).
    { rewrite HP in *. unfold n_posted in *. cbn in *. lia. }
    rewrite HD'. split; intros (i & Hi & Heq).
    + by eapply (target_not_dst S OK r st i j).
    + by eapply (target_not_src S OK r st i j).
Qed.
(** It spares the floats being added, and carries no more than was asked for. *)
Lemma deliver_spares {F} (add : F → F → F) (S : ring_setup) (mem0 : Z → Z → F) (max_inline : Z)
    (g g' : gstate) (e a len : Z) (rs : list (Z * Z)) d s k :
  setup_ok S → sizeof_float * rs_chunk S < 2 ^ 32 →
  rtc (step add (rs_N S) max_inline) (posted_init S mem0) g →
  0 ≤ e < rs_N S → deliver_step (rs_N S) g e = Some g' → rq (conn g e) = (a, len) :: rs →
  code g (next_rank (rs_N S) e) = Do (add_assign d s : op ring_sig) k →
  ¬ in_transfer a len d ∧ ¬ in_transfer a len s ∧
  (∀ a' l' data ws, sq (conn g e) = mkSwr a' l' (Some data) :: ws → Z.of_nat (length data) ≤ len / sizeof_float).
Proof.
  intros OK Hcb Hreach He Hdel Hrq Hc.
  destruct (race_free_holds add S mem0 max_inline g g' e a len rs OK Hcb Hreach He Hdel Hrq) as [_ Hfree].
  destruct (Hfree d s k Hc) as [Hd Hs]. split; [done|]. split; [done|]. intros a' l' data ws Hsq.
  destruct (reachable_inv add S mem0 max_inline OK Hcb g Hreach) as (P & dl & Hinv).
  destruct (deliver_target add S mem0 g g' P dl e a len rs Hinv He Hdel Hrq) as (_ & -> & _).
  destruct (Hinv e He) as [_ []]. destruct eo_sq as [[_ Hq]|(_ & sn & Hq & Hsn)]; rewrite Hq in Hsq; [done|].
  injection Hsq as _ _ -> _. destruct Hsn as [Hsn|Hsn]; [done|]. injection Hsn as ->.
  unfold msg_list. rewrite length_fmap, length_seqZ, cb_cells by done. pose proof (ok_chunk S OK). lia.
Qed.

(** C9. No data race: when the adapter delivers a message into a rank's memory,
    the message's target overlaps neither the source of a send the adapter has
    not read yet nor the cells of the addition the rank is about to do.  This is
    what lets the next receive be posted before the current sum is folded in. *)
Theorem posted_race_free {F} (add : F → F → F) (S : ring_setup) (mem0 : Z → Z → F) (max_inline : Z)
    (g g' : gstate) (e a len : Z) (rs : list (Z * Z)) :
  setup_ok S → sizeof_float * rs_chunk S < 2 ^ 32 →
  rtc (step add (rs_N S) max_inline) (posted_init S mem0) g →
  0 ≤ e < rs_N S → deliver_step (rs_N S) g e = Some g' → rq (conn g e) = (a, len) :: rs →
  let r := next_rank (rs_N S) e in
  (∀ a' len' p, mkSwr a' len' None ∈ sq (conn g r) → in_transfer a len p → ¬ in_transfer a' len' p) ∧
  (∀ d s k, code g r = Do (add_assign d s : op ring_sig) k → ¬ in_transfer a len d ∧ ¬ in_transfer a len s).
Proof. apply race_free_holds. Qed.

(** * Witnesses: three ranks, two floats per chunk, integer addition *)

Definition demo3 : ring_setup := demo_setup 3 2.
Definition demo_run (fuel : nat) : option gstate :=
  lsteps Z.add 3 0 (schedule Z.add 3 0 (nic_first 3) fuel (posted_init demo3 demo_mem))
    (posted_init demo3 demo_mem).

Lemma demo3_ok : setup_ok demo3.
Proof. apply demo_ok; unfold sizeof_float; lia. Qed.
Lemma demo_run_reach fuel g :
  demo_run fuel = Some g → rtc (step Z.add 3 0) (posted_init demo3 demo_mem) g.
Proof. apply lsteps_rtc. Qed.

Lemma posted_result_witness :
  match demo_run 500 with
  | Some g => code g 1 = Ret 0 ∧ (∀ c i, inner demo3 c 3 i →
      mem g 1 (bcell demo3 1 c i) = reduced Z.add (input demo3 demo_mem) 3 c i)
  | None => False
  end.
Proof.
  assert (Hc : (fun g => code g 1) <$> demo_run 500 = Some (Ret 0)) by (vm_compute; reflexivity).
  destruct (demo_run 500) as [g|] eqn:Hg; [|discriminate]. injection Hc as Hc.
  split; [exact Hc|].
  exact (proj1 (proj2 (posted_result Z.add demo3 demo_mem 0 g 1 0 demo3_ok
    ltac:(vm_compute; reflexivity) (demo_run_reach 500 g Hg) ltac:(split; vm_compute; congruence) Hc))).
Defined.

Lemma posted_progress_witness :
  match demo_run 20 with
  | Some g => ∃ g', step Z.add 3 0 g g'
  | None => False
  end.
Proof.
  assert (Hc : (fun g => match code g 2 with Ret _ => true | Do _ _ => false end) <$> demo_run 20
               = Some false) by (vm_compute; reflexivity).
  destruct (demo_run 20) as [g|] eqn:Hg; [|discriminate]. injection Hc as Hc.
  apply (posted_progress Z.add demo3 demo_mem 0 g demo3_ok ltac:(vm_compute; reflexivity)
           (demo_run_reach 20 g Hg)).
  exists 2. split; [split; vm_compute; congruence|]. intros He. rewrite He in Hc. discriminate.
Defined.

Lemma posted_terminates_witness :
  ∃ g, nsteps (step Z.add 3 0) 1 (posted_init demo3 demo_mem) g ∧ 1 ≤ work 3 (posted_init demo3 demo_mem).
Proof.
  assert (Hc : bool_decide (is_Some (lstep Z.add 3 0 (LProc 0) (posted_init demo3 demo_mem))) = true)
    by (vm_compute; reflexivity).
  destruct (lstep Z.add 3 0 (LProc 0) (posted_init demo3 demo_mem)) as [g|] eqn:Hg; [|discriminate].
  assert (Hs : nsteps (step Z.add 3 0) 1 (posted_init demo3 demo_mem) g).
  { eapply nsteps_l; [by exists (LProc 0)|apply nsteps_O]. }
  exists g. split; [exact Hs|]. exact (posted_terminates Z.add 3 0 _ g 1 ltac:(lia) Hs).
Defined.

(** Rank 1 is summing step 0 while the message of step 1 is delivered to it. *)
Definition race_labels : list label :=
  ((fun r => LProc r) <$> [0; 0; 0; 1; 1; 1; 2; 2; 2]) ++
  [LFetch 0 0; LDeliver 0; LAck 0; LFetch 1 0; LDeliver 1; LAck 1; LFetch 2 0; LDeliver 2; LAck 2] ++
  ((fun r => LProc r) <$> [1; 1; 1; 0; 0; 0; 0; 0; 0]) ++ [LFetch 0 0].
Definition race_state : option gstate := lsteps Z.add 3 0 race_labels (posted_init demo3 demo_mem).

Definition next_add (p : ringM Z) : option (Z * Z) :=
  match p with Do (add_assign d s) _ => Some (d, s) | _ => None end.
Lemma next_add_inv p d s : next_add p = Some (d, s) → ∃ k, p = Do (add_assign d s : op ring_sig) k.
Proof.
  destruct p as [|o k]; [discriminate|]. destruct o; cbn; intros He; try discriminate He.
  injection He as -> ->. by exists k.
Qed.

Lemma race_facts :
  ∃ g g', lsteps Z.add 3 0 race_labels (posted_init demo3 demo_mem) = Some g ∧
    deliver_step 3 g 0 = Some g' ∧ rq (conn g 0) = [(8200, 8)] ∧ next_add (code g 1) = Some (4096, 8192).
Proof.
  assert (Hall : match race_state with
                 | Some g => (bool_decide (is_Some (deliver_step 3 g 0)), rq (conn g 0), next_add (code g 1))
                 | None => (false, [], None)
                 end = (true, [(8200, 8)], Some (4096, 8192))) by (vm_compute; reflexivity).
  revert Hall. unfold race_state. generalize (lsteps Z.add 3 0 race_labels (posted_init demo3 demo_mem)).
  intros [g|] Hall; [|discriminate Hall].
  injection Hall as Hd Hq Ha. apply bool_decide_eq_true_1 in Hd. destruct Hd as [g' Hg'].
  exists g, g'. done.
Qed.

Lemma posted_race_free_witness :
  ∃ g a len d s, lsteps Z.add 3 0 race_labels (posted_init demo3 demo_mem) = Some g ∧
    rq (conn g 0) = [(a, len)] ∧ next_add (code g 1) = Some (d, s) ∧
    ¬ in_transfer a len d ∧ ¬ in_transfer a len s.
Proof.
  destruct race_facts as (g & g' & Hg & Hdel & Hq & Ha).
  destruct (next_add_inv _ _ _ Ha) as [k Hk].
  exists g, 8200, 8, 4096, 8192. split; [exact Hg|]. split; [exact Hq|]. split; [exact Ha|].
  exact (proj2 (posted_race_free Z.add demo3 demo_mem 0 g g' 0 8200 8 [] demo3_ok
    ltac:(vm_compute; reflexivity) (lsteps_rtc Z.add 3 0 race_labels _ g Hg)
    ltac:(split; vm_compute; congruence) Hdel Hq) _ _ _ Hk).
Defined.
