(* ===== verification/RingBlocking.v ===== *)
(** The blocking-receive ring as a system of N ranks connected by byte streams
    of bounded capacity, interleaving arbitrarily.

    Each rank runs the code of [ring_allreduce].  A send returns once its bytes
    are in the stream, which holds at most [cap] messages; with the stream
    empty the bytes may also pass straight to a reader that is waiting, and with
    [cap = 0] that is the only way, so a sender then blocks until its peer
    reads.  A receive blocks until the message is there; a poll does nothing. *)
From S2P Require Import Prelude Prog Transport RingAllreduce RingSpec RingMem RingMeasure RingPosted.

Section system.
Context {F : Type} (add : F → F → F) (N : Z) (cap : nat).

Record bstate := mkB { bcode : Z → ringM Z; bmem : Z → Z → F; chan : Z → list (list F) }.

(** The guard of [TcpTransport::send_async] and [recv_async]. *)
Definition tcp_ok (h : BufferHandle) (len offset : Z) : bool :=
  bool_decide (len ≠ 0 ∧ addr h ≠ 0 ∧ u64 (len + offset) ≤ size h).

(** A transfer a rank is about to make: the memory involved, and what it does
    after it succeeds. *)
Definition about_to_send (p : ringM Z) : option (BufferHandle * Z * Z * ringM Z) :=
  match p with
  | Do o k => match o return (ring_ans o → ringM Z) → _ with
              | send_async Right h len _ off => fun k => Some (h, len, off, k 0)
              | _ => fun _ => None
              end k
  | Ret _ => None
  end.
Definition about_to_recv (p : ringM Z) : option (BufferHandle * Z * Z * ringM Z) :=
  match p with
  | Do o k => match o return (ring_ans o → ringM Z) → _ with
              | recv_async Left h len _ off => fun k => Some (h, len, off, k 0)
              | _ => fun _ => None
              end k
  | Ret _ => None
  end.

Definition outgoing (g : bstate) (r : Z) (h : BufferHandle) (len off : Z) : list F :=
  mem_read (bmem g r) (addr h + off) (len / sizeof_float).
Definition received (m : Z → F) (h : BufferHandle) (off : Z) (d : list F) : Z → F :=
  mem_write m (addr h + off) d.

(** One operation of rank [r] by itself. *)
Definition bproc_step (g : bstate) (r : Z) : option bstate :=
  let go p := mkB (<[r := p]> (bcode g)) (bmem g) (chan g) in
  let goc p e c := mkB (<[r := p]> (bcode g)) (bmem g) (<[e := c]> (chan g)) in
  match bcode g r with
  | Ret _ => None
  | Do o k =>
    match o return (ring_ans o → ringM Z) → option bstate with
    | recv_blocks _ => fun k => Some (go (k true))
    | add_assign d s => fun k =>
        let m := bmem g r in
        Some (mkB (<[r := k tt]> (bcode g)) (<[r := <[d := add (m d) (m s)]> m]> (bmem g)) (chan g))
    | poll _ => fun k => Some (go (k 0))
    | send_async Right h len _ off => fun k =>
        if tcp_ok h len off
        then if bool_decide (length (chan g r) < cap)%nat
             then Some (goc (k 0) r (chan g r ++ [outgoing g r h len off])) else None
        else Some (go (k (-1)))
    | recv_async Left h len _ off => fun k =>
        let e := prev_rank N r in
        if tcp_ok h len off
        then match chan g e with
             | d :: c =>
               if bool_decide (Z.of_nat (length d) = len / sizeof_float)
               then Some (mkB (<[r := k 0]> (bcode g))
                              (<[r := received (bmem g r) h off d]> (bmem g))
                              (<[e := c]> (chan g)))
               else None
             | [] => None
             end
        else Some (go (k (-1)))
    | _ => fun _ => None
    end k
  end.

(** Rank [r] hands its message straight to the waiting rank on its right. *)
Definition handover (g : bstate) (r : Z) : option bstate :=
  let r' := next_rank N r in
  match about_to_send (bcode g r), about_to_recv (bcode g r'), chan g r with
  | Some (h, len, off, p), Some (h', len', off', p'), [] =>
    if tcp_ok h len off && tcp_ok h' len' off' && bool_decide (len = len')
    then Some (mkB (<[r' := p']> (<[r := p]> (bcode g)))
                   (<[r' := received (bmem g r') h' off' (outgoing g r h len off)]> (bmem g))
                   (chan g))
    else None
  | _, _, _ => None
  end.

Inductive blabel := BProc (r : Z) | BHandover (r : Z).
Definition blabel_rank (l : blabel) : Z := match l with BProc r | BHandover r => r end.
Definition blstep (l : blabel) (g : bstate) : option bstate :=
  if bool_decide (0 ≤ blabel_rank l < N) then
    match l with BProc r => bproc_step g r | BHandover r => handover g r end
  else None.
Definition bstep (g g' : bstate) : Prop := ∃ l, blstep l g = Some g'.

Fixpoint blsteps (ls : list blabel) (g : bstate) : option bstate :=
  match ls with
  | [] => Some g
  | l :: ls => match blstep l g with Some g' => blsteps ls g' | None => None end
  end.
Lemma blsteps_rtc ls g g' : blsteps ls g = Some g' → rtc bstep g g'.
Proof.
  revert g. induction ls as [|l ls IH]; intros g; cbn; [intros [= ->]; constructor|].
  destruct (blstep l g) as [g1|] eqn:Hl; [|done]. intros. eapply rtc_l; [by exists l|]. eauto.
Qed.
Fixpoint bschedule (cands : list blabel) (fuel : nat) (g : bstate) : list blabel :=
  match fuel with
  | O => []
  | S fuel =>
    match omap (fun l => g' ← blstep l g; Some (l, g')) cands with
    | (l, g') :: _ => l :: bschedule cands fuel g'
    | [] => []
    end
  end.
End system.

Definition blocking_init {F} (S : ring_setup) (mem0 : Z → Z → F) : bstate :=
  mkB (ring_code S) mem0 (fun _ => []).
Definition b_labels (N : Z) : list blabel := mjoin ((fun r => [BProc r; BHandover r]) <$> seqZ 0 N).

(** The TCP guard also refuses a null buffer. *)
Definition setup_nonnull (S : ring_setup) : Prop :=
  ∀ r, 0 ≤ r < rs_N S → rs_buf S r ≠ 0 ∧ rs_stage S r ≠ 0.

(** * Where a rank is in its program *)

Inductive bphase := BStart | BFirst | BSecond | BPollL | BPollR | BSum (j : Z).
Record bpc := mkBpc { b_s : Z; b_ph : bphase }.

Section counters.
Context (N chunk : Z) (even : bool).
Abbreviation steps := (2 * (N - 1)).
Definition bpc_valid (p : bpc) : Prop :=
  match b_ph p with
  | BStart => b_s p = 0
  | BFirst => 0 ≤ b_s p ≤ steps
  | BSecond | BPollL | BPollR => 0 ≤ b_s p < steps
  | BSum j => 0 ≤ b_s p < N - 1 ∧ 0 ≤ j < chunk
  end.
(** Messages sent and received by a rank: even ranks send first. *)
Definition b_sent (p : bpc) : Z :=
  match b_ph p with
  | BStart | BFirst => b_s p
  | BSecond => if even then b_s p + 1 else b_s p
  | _ => b_s p + 1
  end.
Definition b_recvd (p : bpc) : Z :=
  match b_ph p with
  | BStart | BFirst => b_s p
  | BSecond => if even then b_s p else b_s p + 1
  | _ => b_s p + 1
  end.
Definition b_sums (p : bpc) : Z := Z.min (b_s p) (N - 1).
Definition b_elems (p : bpc) : Z := match b_ph p with BSum j => j | _ => 0 end.
End counters.

Definition even_rank (r : Z) : bool := Z.rem r 2 =? 0.

(** Around the ring the parities alternate, but for rank 0 after an even last
    rank. *)
Section parity.
Context (N : Z) (HN : 2 ≤ N).
Lemma even_next r : 0 ≤ r < N → even_rank r = true → even_rank (next_rank N r) = true →
  next_rank N r = 0.
Proof.
  intros Hr. rewrite next_cases by lia. unfold even_rank.
  destruct (Z.eqb_spec r (N - 1)); [done|]. intros ?%Z.eqb_eq ?%Z.eqb_eq.
  Z.to_euclidean_division_equations. lia.
Qed.
Lemma odd_prev r : 0 ≤ r < N → even_rank r = false → even_rank (prev_rank N r) = true.
Proof.
  intros Hr. rewrite prev_cases by lia. unfold even_rank.
  destruct (Z.eqb_spec r 0) as [->|]; [done|]. intros ?%Z.eqb_neq. apply Z.eqb_eq.
  Z.to_euclidean_division_equations. lia.
Qed.
End parity.

(** Where a rank sends and where it receives, and what follows. *)
Definition at_send (r s : Z) : bpc := mkBpc s (if even_rank r then BFirst else BSecond).
Definition after_send (r s : Z) : bpc := mkBpc s (if even_rank r then BSecond else BPollL).
Definition at_recv (r s : Z) : bpc := mkBpc s (if even_rank r then BSecond else BFirst).
Definition after_recv (r s : Z) : bpc := mkBpc s (if even_rank r then BPollL else BSecond).

Section residuals.
Context (S : ring_setup) (r : Z).
Abbreviation N := (rs_N S).
Abbreviation chunk := (rs_chunk S).
Abbreviation steps := (2 * (N - 1)).
Abbreviation cb := (u64 (chunk * sizeof_float)).
Abbreviation w := (world_of S r).
Abbreviation rh := (rs_r_h S r).
Abbreviation lh := (rs_l_h S r).
Abbreviation sh := (rs_stage_h S r).
Abbreviation body := (ring_blocking_step w rh lh sh (rs_buf S r) (rs_stage S r) chunk).

Definition b_send (s : Z) : ring_op := send_async Right rh cb (u64 s) (u64 (send_chunk r N s * cb)).
Definition brecv_h (s : Z) : BufferHandle := if s <? N - 1 then sh else lh.
Definition brecv_off (s : Z) : Z := if s <? N - 1 then 0 else u64 (recv_chunk r N s * cb).
Definition b_recv (s : Z) : ring_op := recv_async Left (brecv_h s) cb (u64 s) (brecv_off s).

Definition brest_sum (s j : Z) : ringM (option Z) :=
  for_unit (Z.to_nat (chunk - j)) j (fun i =>
    ring_call (add_assign
      (rs_buf S r + sizeof_float * u64 (recv_chunk r N s * chunk) + sizeof_float * i)
      (rs_stage S r + sizeof_float * i))) ;;
  Ret None.
Definition brest_polled (s : Z) (failed : bool) : ringM (option Z) :=
  if failed then Ret (Some (-1)) else
  (if s <? N - 1
   then add_chunk (rs_buf S r + sizeof_float * u64 (recv_chunk r N s * chunk)) (rs_stage S r) chunk
   else Ret tt) ;;
  Ret None.
Definition brest_pollR (s : Z) : ringM (option Z) :=
  failed <- (rc <- ring_call (poll Right) ;; Ret (bool_decide (rc ≠ 0))) ;; brest_polled s failed.
Definition brest_moved (s : Z) (failed : bool) : ringM (option Z) :=
  if failed then Ret (Some (-1)) else
  failed <- fails_or (ring_call (poll Left)) (ring_call (poll Right)) ;; brest_polled s failed.
Definition brest_second (s : Z) : ringM (option Z) :=
  failed <- (rc <- (if even_rank r
                    then ring_call (recv_async Left (brecv_h s) cb (u64 s) (brecv_off s))
                    else ring_call (send_async Right rh cb (u64 s) (u64 (send_chunk r N s * cb)))) ;;
             Ret (bool_decide (rc ≠ 0))) ;; brest_moved s failed.

Definition bnext_round (n : nat) (s : Z) (v : option Z) : ringM (option Z) :=
  match v with Some v => Ret (Some v) | None => for_ n (s + 1) body end.
Definition bin_round (s : Z) (p : ringM (option Z)) : ringM Z :=
  v <- (v <- p ;; bnext_round (Z.to_nat (steps - s - 1)) s v) ;; Ret (default 0 v).

Definition bresidual (p : bpc) : ringM Z :=
  let s := b_s p in
  match b_ph p with
  | BStart => ring_code S r
  | BFirst => v <- for_ (Z.to_nat (steps - s)) s body ;; Ret (default 0 v)
  | BSecond => bin_round s (brest_second s)
  | BPollL => bin_round s (brest_moved s false)
  | BPollR => bin_round s (brest_pollR s)
  | BSum j => bin_round s (brest_sum s j)
  end.
Definition bdoes (p : bpc) (o : ring_op) (a : ring_ans o) (p' : bpc) : Prop :=
  ∃ k : ring_ans o → ringM Z, bresidual p = @Do ring_sig Z o k ∧ k a = bresidual p'.

Lemma bdoes_start :
  setup_ok S → bdoes (mkBpc 0 BStart) (recv_blocks Left) true (mkBpc 0 BFirst).
Proof.
  intros OK. pose proof (ok_N S OK). pose proof (ok_chunk S OK). pose proof (ok_width S OK).
  assert (Hu : u64 N = N) by (apply u64_small; unfold sizeof_float in *; nia).
  unfold bdoes, bresidual, ring_code, ring_allreduce. cbn [b_ph b_s world_of wsize].
  rewrite Hu, Z.mul_comm, Z.mod_mul, Z.div_mul by lia.
  destruct (Z.ltb_spec N 2); [lia|]. cbn. eexists; split; [reflexivity|]. cbn. by rewrite Z.sub_0_r.
Qed.

Lemma bfor_unfold s : s < steps → bresidual (mkBpc s BFirst) = bin_round s (body s).
Proof.
  intros Hs. unfold bresidual, bin_round. cbn [b_ph b_s].
  replace (Z.to_nat (steps - s)) with (Datatypes.S (Z.to_nat (steps - s - 1))) by lia. done.
Qed.

Lemma body_even s : even_rank r = true →
  body s = (failed <- fails_or (ring_call (b_send s)) (ring_call (b_recv s)) ;; brest_moved s failed).
Proof.
  intros He. unfold ring_blocking_step, b_send, b_recv, brecv_h, brecv_off. cbn [world_of rank wsize].
  unfold even_rank in He. rewrite He. by destruct (s <? N - 1) eqn:Hs; unfold brest_moved, brest_polled; rewrite Hs.
Qed.
Lemma body_odd s : even_rank r = false →
  body s = (failed <- fails_or (ring_call (b_recv s)) (ring_call (b_send s)) ;; brest_moved s failed).
Proof.
  intros He. unfold ring_blocking_step, b_send, b_recv, brecv_h, brecv_off. cbn [world_of rank wsize].
  unfold even_rank in He. rewrite He. by destruct (s <? N - 1) eqn:Hs; unfold brest_moved, brest_polled; rewrite Hs.
Qed.

(** Even ranks send and then receive; odd ranks the other way round. *)
Lemma bdoes_send s : s < steps →
  bdoes (at_send r s) (b_send s) 0 (after_send r s).
Proof.
  intros Hs. unfold bdoes, at_send, after_send. destruct (even_rank r) eqn:He.
  - rewrite bfor_unfold, body_even by done. eexists; split; [reflexivity|].
    unfold bresidual, brest_second. cbn [b_ph b_s]. rewrite He. reflexivity.
  - unfold bresidual, brest_second. cbn [b_ph b_s]. rewrite He. eexists; split; reflexivity.
Qed.
Lemma bdoes_recv s : s < steps →
  bdoes (at_recv r s) (b_recv s) 0 (after_recv r s).
Proof.
  intros Hs. unfold bdoes, at_recv, after_recv. destruct (even_rank r) eqn:He.
  - unfold bresidual, brest_second. cbn [b_ph b_s]. rewrite He. eexists; split; reflexivity.
  - rewrite bfor_unfold, body_odd by done. eexists; split; [reflexivity|].
    unfold bresidual, brest_second. cbn [b_ph b_s]. rewrite He. reflexivity.
Qed.
Lemma bdoes_pollL s : bdoes (mkBpc s BPollL) (poll Left) 0 (mkBpc s BPollR).
Proof. eexists; split; reflexivity. Qed.
Lemma bdoes_pollR s : 0 ≤ s < steps →
  bdoes (mkBpc s BPollR) (poll Right) 0 (if s <? N - 1 then mkBpc s (BSum 0) else mkBpc (s + 1) BFirst).
Proof.
  intros Hs. exists (fun rc => bin_round s (brest_polled s (bool_decide (rc ≠ 0)))).
  split; [reflexivity|]. unfold bresidual, bin_round, brest_polled.
  rewrite bool_decide_eq_false_2 by lia. destruct (s <? N - 1); cbn [b_ph b_s bind].
  - unfold brest_sum, add_chunk. by rewrite Z.sub_0_r.
  - unfold bnext_round. by replace (steps - (s + 1)) with (steps - s - 1) by lia.
Qed.
Lemma bdoes_sum s j : 0 ≤ j < chunk →
  bdoes (mkBpc s (BSum j))
    (add_assign (rs_buf S r + sizeof_float * u64 (recv_chunk r N s * chunk) + sizeof_float * j)
                (rs_stage S r + sizeof_float * j)) tt
    (if j + 1 <? chunk then mkBpc s (BSum (j + 1)) else mkBpc (s + 1) BFirst).
Proof.
  intros Hj. unfold bdoes, bresidual, bin_round, brest_sum. cbn [b_ph b_s].
  replace (Z.to_nat (chunk - j)) with (Datatypes.S (Z.to_nat (chunk - (j + 1)))) by lia.
  eexists; split; [reflexivity|]. destruct (Z.ltb_spec (j + 1) chunk); cbn [b_ph b_s bind]; [done|].
  replace (Z.to_nat (chunk - (j + 1))) with O by lia. cbn [for_unit bind bnext_round].
  by replace (steps - (s + 1)) with (steps - s - 1) by lia.
Qed.
Lemma bresidual_done s : steps ≤ s → bresidual (mkBpc s BFirst) = Ret 0.
Proof. intros. unfold bresidual. cbn [b_ph b_s]. by replace (Z.to_nat (steps - s)) with O by lia. Qed.
End residuals.
