(* ===== verification/RingBlockingProof.v ===== *)
(** The invariant of the blocking ring and its preservation by every step. *)
From S2P Require Import Prelude Prog Transport RingAllreduce RingSpec RingMem RingMeasure RingPosted.
From S2P Require Import RingBlocking.

Section invariant.
Context {F : Type} (add : F → F → F).
Context (S : ring_setup) (mem0 : Z → Z → F) (cap : nat).
Abbreviation N := (rs_N S).
Abbreviation chunk := (rs_chunk S).
Abbreviation cb := (u64 (chunk * sizeof_float)).
Abbreviation x := (input S mem0).
Abbreviation sent r p := (b_sent (even_rank r) p).
Abbreviation recvd r p := (b_recvd (even_rank r) p).
Context (OK : setup_ok S) (NN : setup_nonnull S).

Record brank_ok (r : Z) (cd : ringM Z) (m : Z → F) (p : bpc) : Prop := {
  bo_pc : bpc_valid N chunk p;
  bo_code : cd = bresidual S r p;
  bo_buf c i : inner S c N i →
    m (bcell S r c i) = buf_at add x N r (b_sums N p) (b_elems p) (recvd r p) c i;
  bo_stage i : b_s p < N - 1 → recvd r p = b_s p + 1 → 0 ≤ i < chunk →
    m (scell S r 0 i) = msg add x N (prev_rank N r) (b_s p) i;
  bo_frame a : outside S r a → m a = mem0 r a;
}.
Definition bmsg_list (r s : Z) : list F := msg add x N r s <$> seqZ 0 chunk.
Record bedge_ok (r : Z) (c : list (list F)) (p pn : bpc) : Prop := {
  bo_order : recvd (next_rank N r) pn ≤ sent r p;
  bo_chan : c = bmsg_list r <$> seqZ (recvd (next_rank N r) pn) (sent r p - recvd (next_rank N r) pn);
}.
Definition bconsistent (g : bstate) (P : Z → bpc) : Prop :=
  ∀ r, 0 ≤ r < N → brank_ok r (bcode g r) (bmem g r) (P r) ∧
                    bedge_ok r (chan g r) (P r) (P (next_rank N r)).
Definition binv (g : bstate) : Prop := ∃ P, bconsistent g P.

Lemma recvd_bounds r p : bpc_valid N chunk p → 2 ≤ N →
  b_s p ≤ recvd r p ≤ b_s p + 1 ∧ 0 ≤ recvd r p ≤ 2 * (N - 1) ∧ b_s p ≤ sent r p ≤ b_s p + 1.
Proof.
  destruct p as [s []]; unfold bpc_valid, b_recvd, b_sent; cbn; destruct (even_rank r); lia.
Qed.

Lemma binv_init : binv (blocking_init S mem0).
Proof.
  exists (fun _ => mkBpc 0 BStart). intros r Hr. pose proof (ok_N S OK). split.
  - constructor; cbn; try (done || lia). intros c i [Hc Hi]. unfold b_sums. cbn.
    rewrite Z.min_l by lia. by rewrite buf_at_init by lia.
  - constructor; cbn; done.
Qed.

(** A step of rank [r] to [p]: its code, memory and two links may change. *)
Lemma bconsistent_local g g' P r p :
  bconsistent g P → 0 ≤ r < N →
  (∀ r', r' ≠ r → bcode g' r' = bcode g r' ∧ bmem g' r' = bmem g r') →
  (∀ e, e ≠ r → e ≠ prev_rank N r → chan g' e = chan g e) →
  brank_ok r (bcode g' r) (bmem g' r) p →
  bedge_ok r (chan g' r) p (P (next_rank N r)) →
  bedge_ok (prev_rank N r) (chan g' (prev_rank N r)) (P (prev_rank N r)) p →
  bconsistent g' (<[r := p]> P).
Proof.
  pose proof (ok_N S OK) as HN. intros Hinv Hr Hother Hlinks Hrank Her Hep.
  intros r' Hr'. destruct (Hinv r' Hr') as [Hro Heo]. pose proof (prev_ne N HN r Hr). split.
  - destruct (decide (r' = r)) as [->|Hne].
    + by rewrite fn_lookup_insert.
    + destruct (Hother r' Hne) as [-> ->]. by rewrite fn_lookup_insert_ne.
  - destruct (decide (r' = r)) as [->|Hne].
    { rewrite fn_lookup_insert, fn_lookup_insert_ne; [done|].
      intros He. by apply (next_ne N HN r Hr). }
    rewrite (fn_lookup_insert_ne P r r') by done.
    destruct (decide (r' = prev_rank N r)) as [->|Hnp].
    + by rewrite next_prev, fn_lookup_insert.
    + rewrite Hlinks by done. rewrite fn_lookup_insert_ne; [done|].
      intros ->. by rewrite prev_next in Hnp.
Qed.

(** ** Guards and cells *)

Lemma bcb_cells : cb / sizeof_float = chunk.
Proof. rewrite cb_eq by done. unfold sizeof_float. rewrite Z.mul_comm. by apply Z.div_mul. Qed.
Lemma tcp_ok_chunk h c n :
  addr h ≠ 0 → size h = sizeof_float * (n * chunk) → 0 ≤ c < n → n ≤ N →
  tcp_ok h cb (sizeof_float * (c * chunk)) = true.
Proof.
  intros Ha Hs Hc Hn. pose proof (ok_chunk S OK). pose proof (ok_width S OK). unfold tcp_ok.
  rewrite cb_eq, Hs by done. unfold sizeof_float in *.
  rewrite u64_small by nia. apply bool_decide_eq_true_2. split_and!; nia || done.
Qed.
Lemma bsend_ok r s : 0 ≤ r < N → 0 ≤ s < 2 * (N - 1) →
  tcp_ok (rs_r_h S r) cb (u64 (send_chunk r N s * cb)) = true ∧
  addr (rs_r_h S r) + u64 (send_chunk r N s * cb) = bcell S r (send_chunk r N s) 0.
Proof.
  intros Hr Hs. destruct (ok_r_h S OK r Hr) as [Ha Hz]. pose proof (ok_N S OK).
  pose proof (send_chunk_range N ltac:(lia) r s Hr Hs).
  rewrite off_eq by done. split; [|rewrite Ha; unfold bcell; lia].
  eapply tcp_ok_chunk; [|done..]. rewrite Ha. by apply NN.
Qed.
Definition brecv_addr (r s : Z) : Z :=
  if s <? N - 1 then scell S r 0 0 else bcell S r (recv_chunk r N s) 0.
Lemma brecv_ok r s : 0 ≤ r < N → 0 ≤ s < 2 * (N - 1) →
  tcp_ok (brecv_h S r s) cb (brecv_off S r s) = true ∧
  addr (brecv_h S r s) + brecv_off S r s = brecv_addr r s.
Proof.
  intros Hr Hs. unfold brecv_h, brecv_off, brecv_addr. pose proof (ok_N S OK).
  destruct (Z.ltb_spec s (N - 1)).
  - destruct (ok_stage_h S OK r Hr) as [Ha Hz]. split; [|rewrite Ha; unfold scell; lia].
    apply (tcp_ok_chunk _ 0 2); [rewrite Ha; by apply NN|done|lia..].
  - destruct (ok_l_h S OK r Hr) as [Ha Hz].
    pose proof (recv_chunk_range N ltac:(lia) r s Hr Hs).
    rewrite off_eq by done. split; [|rewrite Ha; unfold bcell; lia].
    eapply tcp_ok_chunk; [|done..]. rewrite Ha. by apply NN.
Qed.
Lemma bsum_cells r s j : 0 ≤ r < N → 0 ≤ s < N - 1 →
  rs_buf S r + sizeof_float * u64 (recv_chunk r N s * chunk) + sizeof_float * j
    = bcell S r (recv_chunk r N s) j ∧
  rs_stage S r + sizeof_float * j = scell S r 0 j.
Proof.
  intros Hr Hs. pose proof (ok_N S OK).
  pose proof (recv_chunk_range N ltac:(lia) r s Hr ltac:(lia)).
  rewrite coff_eq by done. unfold bcell, scell, sizeof_float. lia.
Qed.

(** ** Ranks and links *)

Lemma brank_ext r cd m p p' :
  brank_ok r cd m p → bpc_valid N chunk p' → b_sums N p' = b_sums N p → b_elems p' = b_elems p →
  recvd r p' = recvd r p → (b_s p' = b_s p ∨ recvd r p' = b_s p') →
  brank_ok r (bresidual S r p') m p'.
Proof.
  intros [] Hv H1 H2 H3 H4. constructor; rewrite ?H1, ?H2, ?H3; try done.
  intros i Hi Hp Hj. rewrite <- H3 in Hp. destruct H4 as [H4|H4]; [|lia].
  rewrite H4. apply bo_stage0; [lia|lia|done].
Qed.
Lemma bedge_ext r c p pn p' pn' :
  sent r p' = sent r p → recvd (next_rank N r) pn' = recvd (next_rank N r) pn →
  bedge_ok r c p pn → bedge_ok r c p' pn'.
Proof. intros H1 H2 []. constructor; rewrite ?H1, ?H2; done. Qed.
Lemma bedge_push r c p p' pn :
  sent r p' = sent r p + 1 → bedge_ok r c p pn →
  bedge_ok r (c ++ [bmsg_list r (sent r p)]) p' pn.
Proof.
  intros H1 []. constructor; rewrite ?H1; [lia|]. rewrite bo_chan0.
  set (n := recvd _ _) in *. replace (sent r p + 1 - n) with ((sent r p - n) + 1) by lia.
  rewrite seqZ_app by lia. rewrite fmap_app. f_equal.
  replace (n + (sent r p - n)) with (sent r p) by lia. done.
Qed.
Lemma bedge_pop r c d p pn pn' :
  recvd (next_rank N r) pn' = recvd (next_rank N r) pn + 1 → bedge_ok r (d :: c) p pn →
  d = bmsg_list r (recvd (next_rank N r) pn) ∧ bedge_ok r c p pn'.
Proof.
  intros H1 []. set (n := recvd _ pn) in *.
  destruct (Z.le_gt_cases (sent r p - n) 0).
  { by rewrite seqZ_nil in bo_chan0 by lia. }
  rewrite seqZ_cons in bo_chan0 by lia. injection bo_chan0 as -> ->.
  split; [done|]. constructor; rewrite H1; fold n; [lia|]. f_equal. f_equal; lia.
Qed.

Lemma bsend_content r cd m p :
  0 ≤ r < N → brank_ok r cd m p → 0 ≤ b_s p < 2 * (N - 1) → b_elems p = 0 →
  mem_read m (bcell S r (send_chunk r N (b_s p)) 0) chunk = bmsg_list r (b_s p).
Proof.
  intros Hr Hro Hs Hj. pose proof (ok_N S OK). unfold bmsg_list. apply read_buf.
  pose proof (recvd_bounds r p (bo_pc _ _ _ _ Hro) ltac:(lia)) as (? & ? & ?).
  intros i Hi. rewrite (bo_buf _ _ _ _ Hro).
  2: { split; [apply send_chunk_range; lia|done]. }
  rewrite send_chunk_mod by lia. rewrite Hj. unfold b_sums. apply buf_at_send; lia.
Qed.

Lemma brank_sum r cd m s j p' :
  0 ≤ r < N → brank_ok r cd m (mkBpc s (BSum j)) →
  p' = (if j + 1 <? chunk then mkBpc s (BSum (j + 1)) else mkBpc (s + 1) BFirst) →
  let d := bcell S r (recv_chunk r N s) j in
  brank_ok r (bresidual S r p') (<[d := add (m d) (m (scell S r 0 j))]> m) p'.
Proof.
  intros Hr [Hv _ Hb Hst Hfr] Hp' d. pose proof (ok_N S OK) as HN.
  cbn in Hv. destruct Hv as [Hs Hj].
  assert (Hrc : inner S (recv_chunk r N s) N j) by (split; [apply recv_chunk_range; lia|lia]).
  pose proof (recv_chunk_mod N ltac:(lia) r s Hr ltac:(lia)) as Hc0.
  assert (Hb' : ∀ c i, inner S c N i → m (bcell S r c i) = buf_at add x N r s j (s + 1) c i).
  { intros c i Hci. rewrite Hb by done. unfold b_sums. cbn. by rewrite Z.min_l by lia. }
  assert (Hnew : ∀ c i, inner S c N i →
    (<[d := add (m d) (m (scell S r 0 j))]> m) (bcell S r c i)
    = buf_at add x N r s (j + 1) (s + 1) c i).
  { intros c i Hci. rewrite buf_at_sum by (destruct Hci; lia). rewrite <- Hc0.
    case_bool_decide as Hc.
    - destruct Hc as [-> ->]. fold d. rewrite fn_lookup_insert, Hst by (done || cbn; lia).
      unfold d. by rewrite Hb'.
    - rewrite fn_lookup_insert_ne; [by apply Hb'|].
      unfold d. intros He. apply Hc.
      apply bcell_inj in He; [|lia|apply Hci]. by destruct He as [<- <-]. }
  assert (Hrp : recvd r p' = s + 1).
  { subst p'. destruct (Z.ltb_spec (j + 1) chunk); unfold b_recvd; cbn; done. }
  constructor.
  - subst p'. destruct (Z.ltb_spec (j + 1) chunk); cbn; lia.
  - done.
  - intros c i Hci. rewrite Hnew, Hrp by done. subst p'. destruct (Z.ltb_spec (j + 1) chunk).
    + unfold b_sums. cbn. by rewrite Z.min_l by lia.
    + unfold b_sums. cbn. rewrite Z.min_l by lia. replace (j + 1) with chunk by lia.
      apply buf_at_sum_done. apply Hci.
  - intros i Hs' HD' Hi. rewrite fn_lookup_insert_ne.
    + rewrite Hrp in HD'. assert (b_s p' = s) as -> by lia. apply Hst; [cbn; lia|done|done].
    + apply bcell_scell; [done..|]. split; [lia|done].
  - intros a Ha. rewrite fn_lookup_insert_ne; [by apply Hfr|].
    intros <-. by apply (proj1 Ha (recv_chunk r N s) j).
Qed.

(** A whole message arrives. *)
Lemma brank_recv r cd m p p' :
  0 ≤ r < N → brank_ok r cd m p → recvd r p = b_s p → b_s p < 2 * (N - 1) →
  bpc_valid N chunk p' → b_s p' = b_s p → b_elems p' = b_elems p → recvd r p' = b_s p + 1 →
  brank_ok r (bresidual S r p')
    (mem_write m (brecv_addr r (b_s p)) (bmsg_list (prev_rank N r) (b_s p))) p'.
Proof.
  intros Hr [Hv Hcd Hb Hst Hfr] HD Hs Hv' Hs' Hj' Hr'. pose proof (ok_N S OK) as HN.
  pose proof (recvd_bounds r p Hv HN) as (? & ? & ?).
  unfold brecv_addr, bmsg_list. destruct (Z.ltb_spec (b_s p) (N - 1)).
  - constructor; [done..| | |].
    + intros c i Hci. rewrite Hr', buf_at_recv_scatter by (done || lia).
      rewrite write_stage_other.
      * rewrite Hb, Hj', HD by done. unfold b_sums. by rewrite Hs'.
      * intros k Hk. apply bcell_scell; [done..|]. split; [lia|done].
    + intros i _ _ Hi. rewrite write_stage_stage by done.
      by rewrite bool_decide_eq_true_2, Hs' by done.
    + intros a Ha. rewrite write_stage_other; [by apply Hfr|].
      intros k Hk. apply (proj2 Ha). split; [lia|done].
  - pose proof (recv_chunk_range N HN r (b_s p) Hr ltac:(lia)) as Hrc. constructor; [done..| | |].
    + intros c i Hci. rewrite write_buf_buf by apply Hci.
      rewrite Hr', (buf_at_recv add _ N HN) by (done || lia || apply Hci).
      rewrite recv_chunk_mod by lia. case_bool_decide; [done|].
      rewrite Hb, Hj', HD by done. unfold b_sums. by rewrite Hs'.
    + intros i ? _ Hi. lia.
    + intros a Ha. rewrite write_buf_other; [by apply Hfr|].
      intros k Hk. by apply (proj1 Ha).
Qed.
End invariant.
