(* ===== verification/RingBlockingCorrect.v ===== *)
(** Steps of the blocking ring: preservation of the invariant, progress with
    any stream capacity, and termination. *)
From S2P Require Import Prelude Prog Transport RingAllreduce RingSpec RingMem RingMeasure RingPosted.
From S2P Require Import RingBlocking RingBlockingProof.

Section steps.
Context {F : Type} (add : F → F → F).
Context (S : ring_setup) (mem0 : Z → Z → F) (cap : nat).
Abbreviation N := (rs_N S).
Abbreviation chunk := (rs_chunk S).
Abbreviation cb := (u64 (chunk * sizeof_float)).
Context (OK : setup_ok S) (NN : setup_nonnull S).
Abbreviation consistent := (bconsistent add S mem0).
Abbreviation binv := (binv add S mem0).

Lemma send_consistent g g' P r s :
  consistent g P → 0 ≤ r < N → P r = at_send r s → s < 2 * (N - 1) →
  bcode g' r = bresidual S r (after_send r s) → bmem g' r = bmem g r →
  chan g' r = chan g r ++ [bmsg_list add S mem0 r s] →
  (∀ r', r' ≠ r → bcode g' r' = bcode g r' ∧ bmem g' r' = bmem g r') →
  (∀ e, e ≠ r → chan g' e = chan g e) →
  consistent g' (<[r := after_send r s]> P).
Proof.
  intros Hinv Hr HP Hs Hc Hm Hch Ho Hl. pose proof (ok_N S OK) as HN.
  destruct (Hinv r Hr) as [Hro Heo].
  destruct (Hinv (prev_rank N r) (prev_range N HN r)) as [_ Hpe]. rewrite next_prev in Hpe by done.
  pose proof (bo_pc _ _ _ _ _ _ _ Hro) as Hv. rewrite HP in *.
  assert (Hv' : bpc_valid N chunk (after_send r s)).
  { unfold at_send, after_send in *. destruct (even_rank r); cbn in *; lia. }
  assert (Hs0 : b_sent (even_rank r) (at_send r s) = s).
  { unfold at_send, b_sent. by destruct (even_rank r). }
  apply (bconsistent_local add S mem0 OK g); try done.
  - intros e He _. by apply Hl.
  - rewrite Hc, Hm. eapply brank_ext; [done|done|..].
    + done.
    + unfold at_send, after_send. by destruct (even_rank r).
    + unfold at_send, after_send, b_recvd. by destruct (even_rank r).
    + by left.
  - rewrite Hch. rewrite <- Hs0 at 1. eapply bedge_push; [|done].
    unfold at_send, after_send, b_sent. by destruct (even_rank r).
  - rewrite Hl by (by apply prev_ne). eapply bedge_ext; [done| |done].
    rewrite next_prev by done. unfold at_send, after_send, b_recvd. by destruct (even_rank r).
Qed.

Lemma recv_consistent g g' P r s d c :
  consistent g P → 0 ≤ r < N → P r = at_recv r s → s < 2 * (N - 1) →
  chan g (prev_rank N r) = d :: c →
  bcode g' r = bresidual S r (after_recv r s) →
  bmem g' r = mem_write (bmem g r) (brecv_addr S r s) d →
  chan g' (prev_rank N r) = c →
  (∀ r', r' ≠ r → bcode g' r' = bcode g r' ∧ bmem g' r' = bmem g r') →
  (∀ e, e ≠ prev_rank N r → chan g' e = chan g e) →
  consistent g' (<[r := after_recv r s]> P).
Proof.
  intros Hinv Hr HP Hs Hd Hc Hm Hch Ho Hl. pose proof (ok_N S OK) as HN.
  destruct (Hinv r Hr) as [Hro Heo].
  destruct (Hinv (prev_rank N r) (prev_range N HN r)) as [_ Hpe]. rewrite next_prev in Hpe by done.
  pose proof (bo_pc _ _ _ _ _ _ _ Hro) as Hv. rewrite HP in *.
  assert (Hv' : bpc_valid N chunk (after_recv r s)).
  { unfold at_recv, after_recv in *. destruct (even_rank r); cbn in *; lia. }
  assert (Hr0 : b_recvd (even_rank r) (at_recv r s) = s).
  { unfold at_recv, b_recvd. by destruct (even_rank r). }
  assert (Hr1 : b_recvd (even_rank r) (after_recv r s) = s + 1).
  { unfold after_recv, b_recvd. by destruct (even_rank r). }
  rewrite Hd in Hpe. apply (bedge_pop add S mem0 _ _ _ _ _ (after_recv r s)) in Hpe.
  2: { rewrite next_prev by done. lia. }
  rewrite next_prev, Hr0 in Hpe by done. destruct Hpe as [-> Hpe].
  apply (bconsistent_local add S mem0 OK g); try done.
  - intros e _ He. by apply Hl.
  - rewrite Hc, Hm. eapply (brank_recv add S mem0 OK r _ _ (at_recv r s)); try done.
    unfold at_recv, after_recv. by destruct (even_rank r).
  - rewrite Hl by (by apply not_eq_sym, prev_ne). eapply bedge_ext; [|done|done].
    unfold at_recv, after_recv, b_sent. by destruct (even_rank r).
  - by rewrite Hch.
Qed.

(** A step that moves no message. *)
Lemma quiet_consistent g g' P r p' :
  consistent g P → 0 ≤ r < N →
  brank_ok add S mem0 r (bcode g' r) (bmem g' r) p' →
  b_sent (even_rank r) p' = b_sent (even_rank r) (P r) →
  b_recvd (even_rank r) p' = b_recvd (even_rank r) (P r) →
  (∀ r', r' ≠ r → bcode g' r' = bcode g r' ∧ bmem g' r' = bmem g r') →
  (∀ e, chan g' e = chan g e) →
  consistent g' (<[r := p']> P).
Proof.
  intros Hinv Hr Hrk Hse Hre Ho Hl. pose proof (ok_N S OK) as HN.
  destruct (Hinv r Hr) as [_ Heo].
  destruct (Hinv (prev_rank N r) (prev_range N HN r)) as [_ Hpe]. rewrite next_prev in Hpe by done.
  apply (bconsistent_local add S mem0 OK g); try done.
  - rewrite Hl. by eapply bedge_ext.
  - rewrite Hl. eapply bedge_ext; [done| |done]. by rewrite next_prev.
Qed.

Ltac perform H D :=
  let Hk := fresh "Hk" in
  destruct D as (? & Hk & Hcode); rewrite Hk in H; cbn in H; clear Hk.
Ltac others := intros ? ?; cbn; rewrite ?fn_lookup_insert_ne by done; done.

(** A rank's own send. *)
Lemma own_send g g' P r s :
  consistent g P → 0 ≤ r < N → P r = at_send r s → s < 2 * (N - 1) →
  bproc_step add N cap g r = Some g' → binv g'.
Proof.
  intros Hinv Hr HP Hs Hstep. destruct (Hinv r Hr) as [Hro _].
  pose proof (bo_pc _ _ _ _ _ _ _ Hro) as Hv. rewrite HP in *.
  assert (Hs0 : 0 ≤ s) by (unfold at_send in Hv; destruct (even_rank r); cbn in Hv; lia).
  pose proof (bsend_content add S mem0 OK r _ _ _ Hr Hro) as Hcont. cbn in Hcont.
  unfold bproc_step in Hstep. rewrite (bo_code _ _ _ _ _ _ _ Hro) in Hstep.
  perform Hstep (bdoes_send S r s Hs).
  destruct (bsend_ok S OK NN r s Hr) as [Hok Ha]; [lia|].
  rewrite Hok in Hstep. case_bool_decide; [|done]. injection Hstep as <-.
  eexists. eapply (send_consistent g _ P r s); try done; cbn.
  - by rewrite fn_lookup_insert.
  - rewrite fn_lookup_insert. unfold outgoing. rewrite Ha, bcb_cells by done.
    rewrite Hcont; [done|lia|]. unfold at_send. by destruct (even_rank r).
  - others.
  - others.
Qed.

Lemma own_recv g g' P r s :
  consistent g P → 0 ≤ r < N → P r = at_recv r s → s < 2 * (N - 1) →
  bproc_step add N cap g r = Some g' → binv g'.
Proof.
  intros Hinv Hr HP Hs Hstep. destruct (Hinv r Hr) as [Hro _].
  pose proof (bo_pc _ _ _ _ _ _ _ Hro) as Hv. rewrite HP in *.
  assert (Hs0 : 0 ≤ s) by (unfold at_recv in Hv; destruct (even_rank r); cbn in Hv; lia).
  unfold bproc_step in Hstep. rewrite (bo_code _ _ _ _ _ _ _ Hro) in Hstep.
  perform Hstep (bdoes_recv S r s Hs).
  destruct (brecv_ok S OK NN r s Hr) as [Hok Ha]; [lia|].
  rewrite Hok in Hstep. destruct (chan g (prev_rank N r)) as [|d c] eqn:Hch; [done|].
  case_bool_decide; [|done]. injection Hstep as <-.
  eexists. eapply (recv_consistent g _ P r s d c); try done; cbn.
  - by rewrite fn_lookup_insert.
  - rewrite fn_lookup_insert. unfold received. by rewrite Ha.
  - by rewrite fn_lookup_insert.
  - others.
  - others.
Qed.

Lemma quiet_step g g' P r p o a p' :
  consistent g P → 0 ≤ r < N → P r = p → bdoes S r p o a p' →
  (∃ t, (o = poll t ∧ True) ∨ o = recv_blocks t) →
  (match o return ring_ans o → Prop with poll _ => fun a => a = 0 | recv_blocks _ => fun a => a = true
   | _ => fun _ => True end) a →
  bpc_valid N chunk p' → b_sums N p' = b_sums N p → b_elems p' = b_elems p →
  b_recvd (even_rank r) p' = b_recvd (even_rank r) p → b_sent (even_rank r) p' = b_sent (even_rank r) p →
  (b_s p' = b_s p ∨ b_recvd (even_rank r) p' = b_s p') →
  bproc_step add N cap g r = Some g' → binv g'.
Proof.
  intros Hinv Hr HP Hdoes Ho Ha Hv H1 H2 H3 H4 H5 Hstep. destruct (Hinv r Hr) as [Hro _].
  rewrite HP in Hro. unfold bproc_step in Hstep. rewrite (bo_code _ _ _ _ _ _ _ Hro) in Hstep.
  assert (Hgo : g' = mkB (<[r := bresidual S r p']> (bcode g)) (bmem g) (chan g)).
  { destruct Hdoes as (k & Hk & Hk'). rewrite Hk in Hstep. rewrite <- Hk'. clear Hk Hk'.
    destruct Ho as [t [[-> _]| ->]]; cbn in Hstep, Ha; subst a; by injection Hstep as <-. }
  subst g'. eexists. eapply (quiet_consistent g _ P r p'); try done; cbn.
  - rewrite fn_lookup_insert. by eapply brank_ext.
  - by rewrite HP.
  - by rewrite HP.
  - others.
Qed.

Lemma own_sum g g' P r s j :
  consistent g P → 0 ≤ r < N → P r = mkBpc s (BSum j) →
  bproc_step add N cap g r = Some g' → binv g'.
Proof.
  intros Hinv Hr HP Hstep. destruct (Hinv r Hr) as [Hro _].
  pose proof (bo_pc _ _ _ _ _ _ _ Hro) as Hv. rewrite HP in *. cbn in Hv. destruct Hv as [Hs Hj].
  unfold bproc_step in Hstep. rewrite (bo_code _ _ _ _ _ _ _ Hro) in Hstep.
  perform Hstep (bdoes_sum S r s j Hj). destruct (bsum_cells S OK r s j Hr Hs) as [Hd Hsrc].
  rewrite Hd, Hsrc in Hstep. injection Hstep as <-. set (p' := if j + 1 <? _ then _ else _) in *.
  eexists. eapply (quiet_consistent g _ P r p'); try done; cbn.
  - rewrite !fn_lookup_insert, Hcode. by eapply (brank_sum add S mem0 OK r _ _ s j).
  - rewrite HP. unfold p'. by destruct (Z.ltb_spec (j + 1) chunk).
  - rewrite HP. unfold p'. by destruct (Z.ltb_spec (j + 1) chunk).
  - others.
Qed.

Lemma bproc_preserves g g' r :
  binv g → 0 ≤ r < N → bproc_step add N cap g r = Some g' → binv g'.
Proof.
  intros (P & Hinv) Hr Hstep. pose proof (ok_N S OK) as HN. pose proof (ok_chunk S OK).
  destruct (Hinv r Hr) as [Hro _]. pose proof (bo_pc _ _ _ _ _ _ _ Hro) as Hv.
  destruct (P r) as [s ph] eqn:HP. destruct ph; cbn in Hv.
  - subst s. eapply (quiet_step g g' P r _ (recv_blocks Left) true (mkBpc 0 BFirst)); try done.
    + by apply bdoes_start.
    + exists Left. by right.
    + cbn. lia.
    + by left.
  - destruct (Z.le_gt_cases (2 * (N - 1)) s).
    { unfold bproc_step in Hstep. by rewrite (bo_code _ _ _ _ _ _ _ Hro), bresidual_done in Hstep. }
    destruct (even_rank r) eqn:He.
    + eapply (own_send g g' P r s); try done. unfold at_send. by rewrite He.
    + eapply (own_recv g g' P r s); try done. unfold at_recv. by rewrite He.
  - destruct (even_rank r) eqn:He.
    + eapply (own_recv g g' P r s); try done; [unfold at_recv; by rewrite He|lia].
    + eapply (own_send g g' P r s); try done; [unfold at_send; by rewrite He|lia].
  - eapply (quiet_step g g' P r _ (poll Left) 0 (mkBpc s BPollR)); try done.
    + apply bdoes_pollL.
    + exists Left. by left.
    + by left.
  - eapply (quiet_step g g' P r _ (poll Right) 0 _ Hinv Hr HP); [by apply bdoes_pollR|..]; try done;
      [exists Right; by left|destruct (Z.ltb_spec s (N - 1)); unfold b_sums; cbn; try lia..|].
    destruct (Z.ltb_spec s (N - 1)); cbn; [by left|by right].
  - by eapply own_sum.
Qed.

(** ** Where a rank stands *)

Inductive bview (r : Z) : bpc → Prop :=
| v_start : bview r (mkBpc 0 BStart)
| v_done : bview r (mkBpc (2 * (N - 1)) BFirst)
| v_send s : 0 ≤ s < 2 * (N - 1) → bview r (at_send r s)
| v_recv s : 0 ≤ s < 2 * (N - 1) → bview r (at_recv r s)
| v_pollL s : 0 ≤ s < 2 * (N - 1) → bview r (mkBpc s BPollL)
| v_pollR s : 0 ≤ s < 2 * (N - 1) → bview r (mkBpc s BPollR)
| v_sum s j : 0 ≤ s < N - 1 → 0 ≤ j < chunk → bview r (mkBpc s (BSum j)).

Lemma bview_of r p : bpc_valid N chunk p → bview r p.
Proof.
  destruct p as [s ph]. destruct ph; cbn; intros Hv.
  - subst s. constructor.
  - destruct (Z.eq_dec s (2 * (N - 1))) as [->|]; [constructor|].
    destruct (even_rank r) eqn:He.
    + replace (mkBpc s BFirst) with (at_send r s) by (unfold at_send; by rewrite He). constructor. lia.
    + replace (mkBpc s BFirst) with (at_recv r s) by (unfold at_recv; by rewrite He). constructor. lia.
  - destruct (even_rank r) eqn:He.
    + replace (mkBpc s BSecond) with (at_recv r s) by (unfold at_recv; by rewrite He). constructor. lia.
    + replace (mkBpc s BSecond) with (at_send r s) by (unfold at_send; by rewrite He). constructor. lia.
  - by constructor.
  - by constructor.
  - constructor; lia.
Qed.

Definition send_args (r s : Z) : BufferHandle * Z * Z * ringM Z :=
  (rs_r_h S r, cb, u64 (send_chunk r N s * cb), bresidual S r (after_send r s)).
Definition recv_args (r s : Z) : BufferHandle * Z * Z * ringM Z :=
  (brecv_h S r s, cb, brecv_off S r s, bresidual S r (after_recv r s)).

Ltac by_does D := let k := fresh in let H1 := fresh in let H2 := fresh in
  destruct D as (k & H1 & H2); rewrite H1; cbn.

Lemma about_to_send_view r p a : bview r p → about_to_send (bresidual S r p) = Some a →
  ∃ s, 0 ≤ s < 2 * (N - 1) ∧ p = at_send r s ∧ a = send_args r s.
Proof.
  intros Hv. unfold about_to_send. destruct Hv as [| |s Hs|s Hs|s Hs|s Hs|s j Hs Hj].
  - by_does (bdoes_start S r OK). done.
  - rewrite bresidual_done by lia. done.
  - destruct (bdoes_send S r s) as (k & Hk & Hk'); [lia|]. rewrite Hk. cbn. intros [= <-].
    exists s. unfold send_args. by rewrite Hk'.
  - by_does (bdoes_recv S r s ltac:(lia)). done.
  - by_does (bdoes_pollL S r s). done.
  - by_does (bdoes_pollR S r s Hs). done.
  - by_does (bdoes_sum S r s j Hj). done.
Qed.
Lemma about_to_recv_view r p a : bview r p → about_to_recv (bresidual S r p) = Some a →
  ∃ s, 0 ≤ s < 2 * (N - 1) ∧ p = at_recv r s ∧ a = recv_args r s.
Proof.
  intros Hv. unfold about_to_recv. destruct Hv as [| |s Hs|s Hs|s Hs|s Hs|s j Hs Hj].
  - by_does (bdoes_start S r OK). done.
  - rewrite bresidual_done by lia. done.
  - by_does (bdoes_send S r s ltac:(lia)). done.
  - destruct (bdoes_recv S r s) as (k & Hk & Hk'); [lia|]. rewrite Hk. cbn. intros [= <-].
    exists s. unfold recv_args. by rewrite Hk'.
  - by_does (bdoes_pollL S r s). done.
  - by_does (bdoes_pollR S r s Hs). done.
  - by_does (bdoes_sum S r s j Hj). done.
Qed.
Lemma about_to_send_at r s : 0 ≤ s < 2 * (N - 1) →
  about_to_send (bresidual S r (at_send r s)) = Some (send_args r s).
Proof.
  intros Hs. destruct (bdoes_send S r s) as (k & Hk & Hk'); [lia|]. unfold about_to_send.
  rewrite Hk. cbn. unfold send_args. by rewrite Hk'.
Qed.
Lemma about_to_recv_at r s : 0 ≤ s < 2 * (N - 1) →
  about_to_recv (bresidual S r (at_recv r s)) = Some (recv_args r s).
Proof.
  intros Hs. destruct (bdoes_recv S r s) as (k & Hk & Hk'); [lia|]. unfold about_to_recv.
  rewrite Hk. cbn. unfold recv_args. by rewrite Hk'.
Qed.

Lemma view_at g P r : consistent g P → 0 ≤ r < N → bview r (P r) ∧ bcode g r = bresidual S r (P r).
Proof.
  intros Hinv Hr. destruct (Hinv r Hr) as [Hro _]. split; [|apply Hro]. apply bview_of, Hro.
Qed.

(** A handover is a send into the empty stream followed by the read. *)
Lemma handover_preserves g g' r :
  binv g → 0 ≤ r < N → handover N g r = Some g' → binv g'.
Proof.
  intros (P & Hinv) Hr Hstep. pose proof (ok_N S OK) as HN.
  set (n := next_rank N r) in *. assert (Hn : 0 ≤ n < N) by (apply next_range; lia).
  assert (Hrn : r ≠ n) by (by apply not_eq_sym, next_ne).
  destruct (view_at g P r Hinv Hr) as [Hv Hc]. destruct (view_at g P n Hinv Hn) as [Hvn Hcn].
  unfold handover in Hstep. fold n in Hstep. rewrite Hc, Hcn in Hstep.
  destruct (about_to_send _) as [[[[h len] off] p]|] eqn:Hsend; [|done].
  destruct (about_to_recv _) as [[[[h' len'] off'] p']|] eqn:Hrecv; [|done].
  destruct (chan g r) eqn:Hch; [|done]. case_match; [|done]. injection Hstep as <-.
  destruct (about_to_send_view r _ _ Hv Hsend) as (s & Hs & HP & Hargs).
  destruct (about_to_recv_view n _ _ Hvn Hrecv) as (s' & Hs' & HPn & Hargs').
  injection Hargs as -> -> -> ->. injection Hargs' as -> -> -> ->.
  destruct (bsend_ok S OK NN r s Hr) as [_ Ha]; [lia|].
  destruct (brecv_ok S OK NN n s' Hn) as [_ Ha']; [lia|].
  assert (Hout : outgoing g r (rs_r_h S r) cb (u64 (send_chunk r N s * cb)) = bmsg_list add S mem0 r s).
  { destruct (Hinv r Hr) as [Hro _]. rewrite HP in Hro.
    pose proof (bsend_content add S mem0 OK r _ _ _ Hr Hro) as Hcont. cbn in Hcont.
    unfold outgoing. rewrite Ha, bcb_cells by done. apply Hcont; [lia|].
    unfold at_send. by destruct (even_rank r). }
  set (g1 := mkB (<[r := bresidual S r (after_send r s)]> (bcode g)) (bmem g)
                 (<[r := [bmsg_list add S mem0 r s]]> (chan g))).
  assert (Hg1 : consistent g1 (<[r := after_send r s]> P)).
  { apply (send_consistent g g1 P r s); try done; cbn; [lia| | | |].
    - by rewrite fn_lookup_insert.
    - by rewrite fn_lookup_insert, Hch.
    - others.
    - others. }
  eexists. eapply (recv_consistent g1 _ _ n s' _ []); [exact Hg1|done| |lia|..]; cbn.
  - by rewrite fn_lookup_insert_ne.
  - unfold n. rewrite prev_next by done. by rewrite fn_lookup_insert.
  - by rewrite fn_lookup_insert.
  - rewrite fn_lookup_insert. unfold received. by rewrite Ha', Hout.
  - unfold n. by rewrite prev_next.
  - intros r' Hne. cbn. by rewrite !(fn_lookup_insert_ne _ n r') by done.
  - intros e He. unfold n in He. rewrite prev_next in He by done. by rewrite fn_lookup_insert_ne.
Qed.

Lemma bstep_preserves g g' : binv g → bstep add N cap g g' → binv g'.
Proof.
  intros Hinv [l Hl]. unfold blstep in Hl. case_bool_decide as Hr; [|done].
  destruct l; cbn in Hr; eauto using bproc_preserves, handover_preserves.
Qed.
Lemma breachable_inv g : rtc (bstep add N cap) (blocking_init S mem0) g → binv g.
Proof.
  intros Hsteps. assert (Hi : binv (blocking_init S mem0)) by by apply binv_init.
  induction Hsteps; eauto using bstep_preserves.
Qed.
Lemma breturned_at_end g P r v :
  consistent g P → 0 ≤ r < N → bcode g r = Ret v → P r = mkBpc (2 * (N - 1)) BFirst ∧ v = 0.
Proof.
  intros Hinv Hr Hret. destruct (view_at g P r Hinv Hr) as [Hv Hc]. rewrite Hret in Hc. revert Hc.
  destruct Hv as [| |s Hs|s Hs|s Hs|s Hs|s j Hs Hj].
  - by_does (bdoes_start S r OK). done.
  - rewrite bresidual_done by lia. by intros [= ->].
  - by_does (bdoes_send S r s ltac:(lia)). done.
  - by_does (bdoes_recv S r s ltac:(lia)). done.
  - by_does (bdoes_pollL S r s). done.
  - by_does (bdoes_pollR S r s Hs). done.
  - by_does (bdoes_sum S r s j Hj). done.
Qed.
End steps.
