(* ===== verification/RingBlockingLive.v ===== *)
(** Progress of the blocking ring with any stream capacity, by looking at the
    ranks that are least far along, and the work each step uses up. *)
From S2P Require Import Prelude Prog Transport RingAllreduce RingSpec RingMem RingMeasure RingPosted.
From S2P Require Import RingBlocking RingBlockingProof RingBlockingCorrect.

(** Operations the ranks have left. *)
Definition bwork {F} (N : Z) (g : @bstate F) : Z := total N (fun r => path (bcode g r)).

Section progress.
Context {F : Type} (add : F → F → F).
Context (S : ring_setup) (mem0 : Z → Z → F) (cap : nat).
Abbreviation N := (rs_N S).
Abbreviation chunk := (rs_chunk S).
Abbreviation cb := (u64 (chunk * sizeof_float)).
Context (OK : setup_ok S) (NN : setup_nonnull S).
Abbreviation consistent := (bconsistent add S mem0).

Definition moves (g : @bstate F) : Prop := ∃ g', bstep add N cap g g'.

Lemma bproc_moves g r : 0 ≤ r < N → is_Some (bproc_step add N cap g r) → moves g.
Proof. intros Hr [g' Hg']. exists g', (BProc r). unfold blstep. by rewrite bool_decide_eq_true_2. Qed.

Section at_state.
Context (g : @bstate F) (P : Z → bpc) (Hinv : consistent g P).

(** What a rank that cannot move by itself is doing. *)
Inductive parked (r : Z) : bpc → Prop :=
| pk_done : parked r (mkBpc (2 * (N - 1)) BFirst)
| pk_send s : 0 ≤ s < 2 * (N - 1) → parked r (at_send r s)
| pk_recv s : 0 ≤ s < 2 * (N - 1) → parked r (at_recv r s).

Lemma parked_or_moves r : 0 ≤ r < N → parked r (P r) ∨ moves g.
Proof.
  intros Hr. destruct (view_at add S mem0 g P r Hinv Hr) as [Hv Hc].
  destruct Hv as [| |s Hs|s Hs|s Hs|s Hs|s j Hs Hj]; [|left; by constructor..| | |];
    right; apply (bproc_moves g r Hr); unfold bproc_step; rewrite Hc.
  - by destruct (bdoes_start S r OK) as (k & -> & _).
  - by destruct (bdoes_pollL S r s) as (k & -> & _).
  - by destruct (bdoes_pollR S r s Hs) as (k & -> & _).
  - by destruct (bdoes_sum S r s j Hj) as (k & -> & _).
Qed.

(** A receiver whose message is in the stream takes it. *)
Lemma recv_moves r s :
  0 ≤ r < N → 0 ≤ s < 2 * (N - 1) → P r = at_recv r s →
  s < b_sent (even_rank (prev_rank N r)) (P (prev_rank N r)) → moves g.
Proof.
  intros Hr Hs HP Hlt. pose proof (ok_N S OK) as HN.
  destruct (view_at add S mem0 g P r Hinv Hr) as [_ Hc].
  destruct (Hinv _ (prev_range N HN r)) as [_ [_ Hch]]. rewrite next_prev, HP in Hch by done.
  assert (Hr0 : b_recvd (even_rank r) (at_recv r s) = s).
  { unfold at_recv, b_recvd. by destruct (even_rank r). }
  rewrite Hr0, seqZ_cons in Hch by lia.
  apply (bproc_moves g r Hr). unfold bproc_step. rewrite Hc, HP.
  destruct (bdoes_recv S r s) as (k & -> & _); [lia|]. cbn.
  destruct (brecv_ok S OK NN r s Hr Hs) as [-> _]. rewrite Hch. cbn.
  rewrite bool_decide_eq_true_2; [done|].
  unfold bmsg_list. rewrite length_fmap, length_seqZ, bcb_cells by done.
  pose proof (ok_chunk S OK). lia.
Qed.

(** A sender and a receiver at the two ends of a link always move: by a
    handover if the stream is empty, by a read otherwise. *)
Lemma edge_moves r s s' :
  0 ≤ r < N → P r = at_send r s → 0 ≤ s < 2 * (N - 1) →
  P (next_rank N r) = at_recv (next_rank N r) s' → 0 ≤ s' < 2 * (N - 1) → moves g.
Proof.
  intros Hr HP Hs HPn Hs'. pose proof (ok_N S OK) as HN. set (n := next_rank N r) in *.
  assert (Hn : 0 ≤ n < N) by (apply next_range; lia).
  assert (Hsr : b_sent (even_rank r) (P r) = s).
  { rewrite HP. unfold at_send, b_sent. by destruct (even_rank r). }
  assert (Hrn : b_recvd (even_rank n) (P n) = s').
  { rewrite HPn. unfold at_recv, b_recvd. by destruct (even_rank n). }
  destruct (Hinv r Hr) as [_ [Hord Hch]]. fold n in Hord, Hch. rewrite Hsr, Hrn in *.
  destruct (Z.eq_dec s' s) as [->|].
  - rewrite seqZ_nil in Hch by lia. cbn in Hch.
    destruct (view_at add S mem0 g P r Hinv Hr) as [_ Hc].
    destruct (view_at add S mem0 g P n Hinv Hn) as [_ Hcn].
    destruct (bsend_ok S OK NN r s Hr Hs) as [Hok _]. destruct (brecv_ok S OK NN n s Hn Hs) as [Hok' _].
    eexists _, (BHandover r). unfold blstep. rewrite bool_decide_eq_true_2 by done.
    unfold handover. fold n. rewrite Hc, Hcn, HP, HPn, Hch, about_to_send_at, about_to_recv_at by done.
    unfold send_args, recv_args. rewrite Hok, Hok', bool_decide_eq_true_2 by done. reflexivity.
  - apply (recv_moves n s' Hn Hs' HPn). unfold n. rewrite prev_next by done. lia.
Qed.

(** ** The ranks that are least far along *)

Context (all_parked : ∀ r, 0 ≤ r < N → parked r (P r)).
Lemma inspect_parked r : 0 ≤ r < N →
  P r = mkBpc (2 * (N - 1)) BFirst ∨
  (∃ s, 0 ≤ s < 2 * (N - 1) ∧ P r = at_send r s) ∨ (∃ s, 0 ≤ s < 2 * (N - 1) ∧ P r = at_recv r s).
Proof. intros Hr. destruct (all_parked r Hr); eauto. Qed.

Definition least (r : Z) : Prop := 0 ≤ r < N ∧ ∀ r', 0 ≤ r' < N → b_s (P r) ≤ b_s (P r').

(** The successor of a least rank that has yet to send is level with it, and
    waits to receive, or it is even and waits to send. *)
Lemma least_send r s :
  least r → P r = at_send r s → 0 ≤ s < 2 * (N - 1) →
  moves g ∨ least (next_rank N r) ∧ even_rank (next_rank N r) = true ∧
            P (next_rank N r) = at_send (next_rank N r) s.
Proof.
  intros [Hr Hmin] HP Hs. pose proof (ok_N S OK) as HN. set (n := next_rank N r) in *.
  assert (Hn : 0 ≤ n < N) by (apply next_range; lia).
  destruct (Hinv r Hr) as [_ [Hord _]]. fold n in Hord.
  assert (Hsr : b_sent (even_rank r) (P r) = s).
  { rewrite HP. unfold at_send, b_sent. by destruct (even_rank r). }
  assert (Hb : b_s (P r) = s) by by rewrite HP.
  pose proof (Hmin n Hn) as Hle. rewrite Hb in *. rewrite Hsr in Hord.
  destruct (inspect_parked n Hn) as [HPn|[(s' & Hs' & HPn)|(s' & Hs' & HPn)]]; rewrite HPn in Hle, Hord |- *; cbn in Hle.
  - unfold b_recvd in Hord. cbn in Hord. lia.
  - assert (He : even_rank n = true).
    { destruct (even_rank n) eqn:He; [done|]. unfold at_send, b_recvd in Hord. rewrite He in Hord.
      cbn in Hord. lia. }
    assert (s' = s) as ->.
    { unfold at_send, b_recvd in Hord. rewrite He in Hord. cbn in Hord. lia. }
    right. split; [|done]. split; [done|]. intros r' Hr'. rewrite HPn. by apply Hmin.
  - left. eapply (edge_moves r s s'); done.
Qed.
Lemma least_send_moves r s : least r → P r = at_send r s → 0 ≤ s < 2 * (N - 1) → moves g.
Proof.
  intros Hl HP Hs. pose proof (ok_N S OK) as HN.
  assert (Hone : ∀ q, least q → P q = at_send q s → even_rank q = true → moves g).
  { intros q Hq HPq He. destruct (least_send q s Hq HPq Hs) as [|(Hn & He' & HPn)]; [done|].
    rewrite (even_next N HN q (proj1 Hq) He He') in Hn, HPn.
    destruct (least_send 0 s Hn HPn Hs) as [|(Hn' & He'' & _)]; [done|].
    rewrite next_cases in He'' by lia. destruct (Z.eqb_spec 0 (N - 1)); [lia|done]. }
  destruct (least_send r s Hl HP Hs) as [|(Hn & He' & HPn)]; [done|]. by eapply Hone.
Qed.
(** The predecessor of a least rank that waits to receive waits to send, or it
    is odd and waits to receive. *)
Lemma least_recv r s :
  least r → P r = at_recv r s → 0 ≤ s < 2 * (N - 1) →
  moves g ∨ least (prev_rank N r) ∧ even_rank (prev_rank N r) = false ∧
            P (prev_rank N r) = at_recv (prev_rank N r) s.
Proof.
  intros [Hr Hmin] HP Hs. pose proof (ok_N S OK) as HN. set (p := prev_rank N r) in *.
  assert (Hp : 0 ≤ p < N) by (apply prev_range; lia).
  assert (Hb : b_s (P r) = s) by by rewrite HP.
  pose proof (Hmin p Hp) as Hle. rewrite Hb in *.
  destruct (Z.le_gt_cases (b_sent (even_rank p) (P p)) s) as [Hse|].
  2: { left. apply (recv_moves r s Hr Hs HP). fold p. lia. }
  destruct (inspect_parked p Hp) as [HPp|[(s' & Hs' & HPp)|(s' & Hs' & HPp)]]; rewrite HPp in Hle, Hse |- *; cbn in Hle.
  - unfold b_sent in Hse. cbn in Hse. lia.
  - left. eapply (edge_moves p s' s); try done. unfold p. by rewrite next_prev.
  - assert (He : even_rank p = false).
    { destruct (even_rank p) eqn:He; [|done]. unfold at_recv, b_sent in Hse. rewrite He in Hse.
      cbn in Hse. lia. }
    assert (s' = s) as ->.
    { unfold at_recv, b_sent in Hse. rewrite He in Hse. cbn in Hse. lia. }
    right. split; [|done]. split; [done|]. intros r' Hr'. rewrite HPp. by apply Hmin.
Qed.
Lemma least_recv_moves r s : least r → P r = at_recv r s → 0 ≤ s < 2 * (N - 1) → moves g.
Proof.
  intros Hl HP Hs. destruct (least_recv r s Hl HP Hs) as [|(Hp & He & HPp)]; [done|].
  destruct (least_recv _ s Hp HPp Hs) as [|(Hq & He' & _)]; [done|].
  rewrite (odd_prev N (ok_N S OK) (prev_rank N r)) in He'; [done|apply Hp|done].
Qed.
Lemma all_parked_moves r : 0 ≤ r < N → P r ≠ mkBpc (2 * (N - 1)) BFirst → moves g.
Proof.
  intros Hr Hne. pose proof (ok_N S OK) as HN.
  destruct (least_rank N (fun r => b_s (P r)) HN) as (q & Hq & Hmin).
  assert (Hl : least q) by done.
  assert (Hlt : b_s (P q) < 2 * (N - 1)).
  { eapply Z.le_lt_trans; [by apply (Hmin r)|].
    destruct (inspect_parked r Hr) as [?|[(s & Hs & ->)|(s & Hs & ->)]]; [done|apply Hs..]. }
  destruct (inspect_parked q Hq) as [HPq|[(s & Hs & HPq)|(s & Hs & HPq)]].
  - rewrite HPq in Hlt. cbn in Hlt. lia.
  - by eapply least_send_moves.
  - by eapply least_recv_moves.
Qed.
End at_state.

Lemma binv_progress g :
  binv add S mem0 g → (∃ r, 0 ≤ r < N ∧ bcode g r ≠ Ret 0) → moves g.
Proof.
  intros (P & Hinv) (r & Hr & Hne).
  assert (Hall : (∀ q, 0 ≤ q < N → parked q (P q)) ∨ moves g).
  { assert (Hn : ∀ n : nat, (∀ q, 0 ≤ q < N → q < Z.of_nat n → parked q (P q)) ∨ moves g).
    { induction n as [|n [IH|]]; [left; lia| |by right].
      destruct (decide (0 ≤ Z.of_nat n < N)) as [Hq|]; [|left; intros q ? ?; apply IH; lia].
      destruct (parked_or_moves g P Hinv _ Hq); [left|by right].
      intros q ? ?. destruct (Z.eq_dec q (Z.of_nat n)) as [->|]; [done|]. apply IH; lia. }
    destruct (Hn (Z.to_nat N)) as [Hp|]; [left|by right]. intros q ?. apply Hp; lia. }
  destruct Hall as [Hall|]; [|done]. apply (all_parked_moves g P Hinv Hall r Hr).
  intros HP. apply Hne. destruct (view_at add S mem0 g P r Hinv Hr) as [_ ->].
  rewrite HP. by apply bresidual_done.
Qed.
End progress.
