(* ===== verification/RingBlockingTheorems.v ===== *)
(** The properties of the blocking-receive (TCP) all-reduce. *)
From S2P Require Import Prelude Prog Transport RingAllreduce RingSpec RingMem RingMeasure RingPosted.
From S2P Require Import RingBlocking RingBlockingProof RingBlockingCorrect RingBlockingLive.

Section work.
Context {F : Type} (add : F → F → F) (N : Z) (cap : nat).

Lemma bwork_nonneg (g : @bstate F) : 0 ≤ bwork N g.
Proof. apply total_nonneg. intros r. apply path_nonneg. Qed.
Lemma bwork_drop (g g' : @bstate F) r :
  0 ≤ r < N → (∀ r', r' ≠ r → bcode g' r' = bcode g r') →
  path (bcode g' r) < path (bcode g r) → bwork N g' < bwork N g.
Proof.
  intros Hr Ho Hlt. unfold bwork.
  rewrite (total_at N (fun r => path (bcode g r)) (fun r => path (bcode g' r)) r Hr); [lia|].
  intros r' _ Hne. by rewrite Ho.
Qed.
Lemma bproc_work (g g' : @bstate F) r : 0 ≤ r < N → bproc_step add N cap g r = Some g' → bwork N g' < bwork N g.
Proof.
  intros Hr Hstep. unfold bproc_step in Hstep. destruct (bcode g r) as [v|o k] eqn:Hcode; [done|].
  assert (Hd : ∃ m a c, g' = mkB (<[r := k a]> (bcode g)) m c ∧ path (k a) < path (bcode g r)).
  { rewrite Hcode. destruct o as [t|[] h len id off|[] h len id off|t|d s]; try done; cbn in Hstep;
      repeat case_match; try done; injection Hstep as <-; eexists _, _, _;
      (split; [reflexivity|cbn; lia]). }
  destruct Hd as (m & a & c & -> & Hlt). apply (bwork_drop g _ r Hr).
  - intros r' Hne. cbn. by rewrite fn_lookup_insert_ne.
  - cbn. by rewrite fn_lookup_insert.
Qed.
Lemma about_to_send_path p h len off p' : about_to_send p = Some (h, len, off, p') → path p' < path p.
Proof.
  destruct p as [|o k]; [done|]. destruct o as [|[]|[]| |]; try done. cbn. intros [= <- <- <- <-]. lia.
Qed.
Lemma about_to_recv_path p h len off p' : about_to_recv p = Some (h, len, off, p') → path p' < path p.
Proof.
  destruct p as [|o k]; [done|]. destruct o as [|[]|[]| |]; try done. cbn. intros [= <- <- <- <-]. lia.
Qed.
Lemma handover_work (g g' : @bstate F) r :
  2 ≤ N → 0 ≤ r < N → handover N g r = Some g' → bwork N g' < bwork N g.
Proof.
  intros HN Hr Hstep. unfold handover in Hstep. set (n := next_rank N r) in *.
  assert (Hn : 0 ≤ n < N) by (apply next_range; lia).
  assert (Hrn : n ≠ r) by by apply next_ne.
  destruct (about_to_send _) as [[[[h len] off] p]|] eqn:Hs; [|done].
  destruct (about_to_recv _) as [[[[h' len'] off'] p']|] eqn:Hv; [|done].
  apply about_to_send_path in Hs. apply about_to_recv_path in Hv.
  destruct (chan g r); [|done]. case_match; [|done]. injection Hstep as <-.
  transitivity (bwork N (mkB (<[r := p]> (bcode g)) (bmem g) (chan g))).
  - apply (bwork_drop _ _ n Hn); cbn; [intros r' Hne; by rewrite fn_lookup_insert_ne|].
    by rewrite fn_lookup_insert, fn_lookup_insert_ne.
  - apply (bwork_drop _ _ r Hr); cbn; [intros r' Hne; by rewrite fn_lookup_insert_ne|].
    by rewrite fn_lookup_insert.
Qed.
Lemma bstep_work (g g' : @bstate F) : 2 ≤ N → bstep add N cap g g' → bwork N g' < bwork N g.
Proof.
  intros HN [l Hl]. unfold blstep in Hl. case_bool_decide as Hr; [|done].
  destruct l; eauto using bproc_work, handover_work.
Qed.
End work.

(** What a rank that returned holds. *)
Lemma blocking_holds {F} (add : F → F → F) (S : ring_setup) (mem0 : Z → Z → F) (cap : nat)
    (g : bstate) (r v : Z) :
  setup_ok S → setup_nonnull S →
  rtc (bstep add (rs_N S) cap) (blocking_init S mem0) g →
  0 ≤ r < rs_N S → bcode g r = Ret v →
  v = 0 ∧
  (∀ c i, inner S c (rs_N S) i →
     bmem g r (bcell S r c i) = reduced add (input S mem0) (rs_N S) c i) ∧
  (∀ p, outside S r p → bmem g r p = mem0 r p).
Proof.
  intros OK NN Hreach Hr Hret. pose proof (ok_N S OK) as HN.
  destruct (breachable_inv add S mem0 cap OK NN g Hreach) as (P & Hinv).
  destruct (breturned_at_end add S mem0 OK g P r v Hinv Hr Hret) as [HP ->].
  destruct (Hinv r Hr) as [Hro _]. rewrite HP in Hro.
  split; [done|]. split; [|apply Hro].
  intros c i Hci. rewrite (bo_buf _ _ _ _ _ _ _ Hro) by done. unfold b_sums. cbn.
  rewrite Z.min_r by lia. apply buf_at_reduced; [lia|done|apply Hci].
Qed.

(** C4. Whatever the interleaving and the capacity of the streams, a rank whose
    [ring_allreduce] has returned over blocking transports returned 0, its
    buffer holds the ring-order sum of all inputs in every chunk, and it changed
    nothing outside [buf] and [stage]: the same result as the posted path. *)
Theorem blocking_result {F} (add : F → F → F) (S : ring_setup) (mem0 : Z → Z → F) (cap : nat)
    (g : bstate) (r v : Z) :
  setup_ok S → setup_nonnull S →
  rtc (bstep add (rs_N S) cap) (blocking_init S mem0) g →
  0 ≤ r < rs_N S → bcode g r = Ret v →
  v = 0 ∧
  (∀ c i, inner S c (rs_N S) i →
     bmem g r (bcell S r c i) = reduced add (input S mem0) (rs_N S) c i) ∧
  (∀ p, outside S r p → bmem g r p = mem0 r p).
Proof. apply blocking_holds. Qed.

(** C6. The even/odd stagger makes the blocking ring deadlock-free for every
    number of ranks and every stream capacity, zero included: from each
    reachable state in which some rank has not returned 0, a step is possible. *)
Theorem blocking_progress {F} (add : F → F → F) (S : ring_setup) (mem0 : Z → Z → F) (cap : nat)
    (g : bstate) :
  setup_ok S → setup_nonnull S →
  rtc (bstep add (rs_N S) cap) (blocking_init S mem0) g →
  (∃ r, 0 ≤ r < rs_N S ∧ bcode g r ≠ Ret 0) →
  ∃ g', bstep add (rs_N S) cap g g'.
Proof.
  intros OK NN Hreach Hne. eapply binv_progress; [done|done| |done]. by eapply breachable_inv.
Qed.

(** The blocking ring terminates: an execution has at most as many steps as
    the ranks have operations left. *)
Theorem blocking_terminates {F} (add : F → F → F) (N : Z) (cap : nat) (g g' : bstate) (n : nat) :
  2 ≤ N → nsteps (bstep add N cap) n g g' → Z.of_nat n ≤ bwork N g.
Proof.
  intros HN Hsteps. induction Hsteps as [g|n g g1 g' Hstep Hsteps IH].
  - apply bwork_nonneg.
  - pose proof (bstep_work add N cap g g1 HN Hstep). lia.
Qed.

(** * Witnesses: three ranks over streams of capacity 0 *)

Definition bdemo_run (fuel : nat) : option bstate :=
  blsteps Z.add 3 0 (bschedule Z.add 3 0 (b_labels 3) fuel (blocking_init (demo_setup 3 2) demo_mem))
    (blocking_init (demo_setup 3 2) demo_mem).
Lemma bdemo_ok : setup_ok (demo_setup 3 2) ∧ setup_nonnull (demo_setup 3 2).
Proof. split; [apply demo_ok; unfold sizeof_float; lia|]. intros r Hr. by cbn. Qed.
Lemma bdemo_reach fuel g : bdemo_run fuel = Some g →
  rtc (bstep Z.add 3 0) (blocking_init (demo_setup 3 2) demo_mem) g.
Proof. apply blsteps_rtc. Qed.

Lemma blocking_result_witness :
  match bdemo_run 500 with
  | Some g => bcode g 2 = Ret 0 ∧ (∀ c i, inner (demo_setup 3 2) c 3 i →
      bmem g 2 (bcell (demo_setup 3 2) 2 c i)
      = reduced Z.add (input (demo_setup 3 2) demo_mem) 3 c i)
  | None => False
  end.
Proof.
  assert (Hc : (fun g => bcode g 2) <$> bdemo_run 500 = Some (Ret 0)) by (vm_compute; reflexivity).
  destruct (bdemo_run 500) as [g|] eqn:Hg; [|discriminate]. injection Hc as Hc.
  split; [exact Hc|].
  exact (proj1 (proj2 (blocking_result Z.add (demo_setup 3 2) demo_mem 0 g 2 0 (proj1 bdemo_ok)
    (proj2 bdemo_ok) (bdemo_reach 500 g Hg) ltac:(split; vm_compute; congruence) Hc))).
Defined.

Lemma blocking_progress_witness :
  match bdemo_run 20 with
  | Some g => ∃ g', bstep Z.add 3 0 g g'
  | None => False
  end.
Proof.
  assert (Hc : (fun g => match bcode g 2 with Ret _ => true | Do _ _ => false end) <$> bdemo_run 20
               = Some false) by (vm_compute; reflexivity).
  destruct (bdemo_run 20) as [g|] eqn:Hg; [|discriminate]. injection Hc as Hc.
  apply (blocking_progress Z.add (demo_setup 3 2) demo_mem 0 g (proj1 bdemo_ok) (proj2 bdemo_ok)
           (bdemo_reach 20 g Hg)).
  exists 2. split; [split; vm_compute; congruence|]. intros He. rewrite He in Hc. discriminate.
Defined.

Lemma blocking_terminates_witness :
  ∃ g, nsteps (bstep Z.add 3 0) 1 (blocking_init (demo_setup 3 2) demo_mem) g ∧
       1 ≤ bwork 3 (blocking_init (demo_setup 3 2) demo_mem).
Proof.
  assert (Hc : bool_decide (is_Some (blstep Z.add 3 0 (BProc 0)
                 (blocking_init (demo_setup 3 2) demo_mem))) = true) by (vm_compute; reflexivity).
  destruct (blstep Z.add 3 0 (BProc 0) (blocking_init (demo_setup 3 2) demo_mem)) as [g|] eqn:Hg;
    [|discriminate].
  assert (Hs : nsteps (bstep Z.add 3 0) 1 (blocking_init (demo_setup 3 2) demo_mem) g).
  { eapply nsteps_l; [by exists (BProc 0)|apply nsteps_O]. }
  exists g. split; [exact Hs|]. exact (blocking_terminates Z.add 3 0 _ g 1 ltac:(lia) Hs).
Defined.
