(* ===== verification/RingBackends.v ===== *)
(** The two systems the all-reduce is verified on do what the backends do: their
    guards are the backends' guards, and past the guard a transfer is exactly one
    posted request, or exactly its bytes on the stream. *)
From stdpp Require Import strings gmap.
From S2P Require Import Prelude Prog Sys RdmaCommon Oob OobSpec Endpoint RdmaOps Transport TcpBackend TcpSpec RdmaBackend.
From S2P Require Import RingPosted RingBlocking.

(** What a post of [len] bytes at [off] of a registered buffer asks of the
    adapter. *)
Definition posted_entry (h : BufferHandle) (m : ibv_mr) (len off : Z) : sge :=
  mkSge (u64 (addr h + off)) (u32 len) (ibv_lkey m).
Definition guarded_post (h : BufferHandle) (len off : Z) (o : sys_op) (ok : sys_ans o → Z) : sysM Z :=
  if post_ok h len off then x <- sys o ;; Ret (ok x) else Ret (-1).
Definition zero_ok (rc : Z) : Z := if bool_decide (rc ≠ 0) then -1 else 0.

Section posts.
Context (t : Rdma.RdmaTransport) (h : BufferHandle) (m : ibv_mr) (owned len id off : Z).

Lemma async_posts :
  Rdma.mr_of t h = Some (mkRaiMr (Some m) (addr h) (size h) owned) → qp_qp (Rdma.qp_ t) ≠ 0 →
  Rdma.send_async t (Some h) len id off ≈
    guarded_post h len off
      (v_post_send (qp_qp (Rdma.qp_ t))
         (mkSendWr id (posted_entry h m len off) WR_SEND (with_inline (u32 len) (Rdma.qp_ t) [SEND_SIGNALED]) 0 0)) zero_ok ∧
  Rdma.recv_async t (Some h) len id off ≈
    guarded_post h len off (v_post_recv (qp_qp (Rdma.qp_ t)) (mkRecvWr id (posted_entry h m len off))) zero_ok.
Proof.
  intros Hm Hq. unfold Rdma.send_async, Rdma.recv_async, rai_post_send, rai_post_recv, guarded_post, post_ok.
  rewrite Hm. unfold prepare_sge. rewrite (bool_decide_eq_false_2 (qp_qp _ = 0)) by done. cbn [mr_mr mr_size mr_buf].
  destruct (decide (u32 len = 0 ∨ u64 (u32 len + off) > size h)) as [Hb|Hb].
  - rewrite (bool_decide_eq_true_2 _ Hb), (bool_decide_eq_false_2 (_ ∧ _)) by lia. done.
  - rewrite (bool_decide_eq_false_2 _ Hb), (bool_decide_eq_true_2 (_ ∧ _)) by lia.
    split; cbn; eexists; (split; [done|]); intros x; unfold zero_ok; by case_bool_decide.
Qed.
End posts.

(** C24. The queue-pair backend and the posted ring's system agree on every
    argument: a send or a receive on a registered buffer is refused with no call
    to the driver exactly when [post_ok] says so, and otherwise is one request of
    [len mod 2^32] bytes at the offset, whose verdict it returns. *)
Theorem rdma_async_posts (t : Rdma.RdmaTransport) (h : BufferHandle) (m : ibv_mr) (owned len id off : Z) :
  Rdma.mr_of t h = Some (mkRaiMr (Some m) (addr h) (size h) owned) → qp_qp (Rdma.qp_ t) ≠ 0 →
  Rdma.send_async t (Some h) len id off ≈
    guarded_post h len off
      (v_post_send (qp_qp (Rdma.qp_ t))
         (mkSendWr id (posted_entry h m len off) WR_SEND (with_inline (u32 len) (Rdma.qp_ t) [SEND_SIGNALED]) 0 0)) zero_ok ∧
  Rdma.recv_async t (Some h) len id off ≈
    guarded_post h len off (v_post_recv (qp_qp (Rdma.qp_ t)) (mkRecvWr id (posted_entry h m len off))) zero_ok.
Proof. apply async_posts. Qed.

(** C25. The socket backend and the blocking ring's system agree likewise: a
    transfer is refused without touching the stream exactly when [tcp_ok] says so;
    otherwise it moves at most its [len] bytes, out of or into the memory at the
    offset and nowhere else, and all of them when it returns 0, however the socket
    splits them. *)
Theorem tcp_async_moves (t : Tcp.TcpTransport) (h : BufferHandle) (len id off : Z) (s : endp) :
  0 ≤ len →
  wp endp_env (Tcp.send_async t (Some h) len id off) (fun rc s' =>
    if tcp_ok h len off then TcpSpec.sent (addr h + off) len s rc s' else rc = -1 ∧ s' = s) s ∧
  wp endp_env (Tcp.recv_async t (Some h) len id off) (fun rc s' =>
    if tcp_ok h len off then ∃ d, TcpSpec.received (addr h + off) len s rc d s' else rc = -1 ∧ s' = s) s.
Proof. intros Hlen. split; [by apply TcpSpec.send_async_endp|by apply TcpSpec.recv_async_endp]. Qed.

(** The length is a [size_t] in the interface and a [uint32_t] below it: a
    post of 2^32 bytes more than [len] sends the same [len] bytes and reports
    success. *)
Theorem rdma_len_truncated (t : Rdma.RdmaTransport) (h : BufferHandle) (m : ibv_mr) (owned len id : Z) :
  Rdma.mr_of t h = Some (mkRaiMr (Some m) (addr h) (size h) owned) → qp_qp (Rdma.qp_ t) ≠ 0 →
  0 < len < 2 ^ 32 → len ≤ size h →
  wp any (Rdma.send_async t (Some h) (2 ^ 32 + len) id 0) (fun rc tr =>
    ∃ wr x, tr = [Ev (v_post_send (qp_qp (Rdma.qp_ t)) wr : op sys_sig) x] ∧ sge_length (sw_sge wr) = len ∧
            (x = 0 → rc = 0)) [].
Proof.
  intros Hm Hq Hlen Hsz. destruct (async_posts t h m owned (2 ^ 32 + len) id 0 Hm Hq) as [-> _].
  assert (Hu : u32 (2 ^ 32 + len) = len) by (unfold u32; rewrite Z.add_comm, <- (Z.mul_1_l (2 ^ 32)) at 1;
    rewrite Z.mod_add, Z.mod_small; lia).
  unfold guarded_post, post_ok. rewrite Hu, u64_small, bool_decide_eq_true_2 by lia.
  cbn [bind sys call wp]. intros x tr ->. eexists _, x. split; [done|]. cbn. split; [done|].
  intros ->. reflexivity.
Qed.

(** * Witnesses *)

Definition demo_rdma : Rdma.RdmaTransport :=
  Rdma.mkRdma (set_qp 7 rai_qp0) 7000 (-1) false EmptyString {[ 64 := mkRaiMr (Some (mkIbvMr 3 4096 5 6)) 4096 1024 0 ]}.
Definition demo_handle : BufferHandle := mkBufferHandle 4096 1024 64.
Lemma rdma_async_posts_witness :
  Rdma.send_async demo_rdma (Some demo_handle) 16 1 32 ≈
    guarded_post demo_handle 16 32
      (v_post_send 7 (mkSendWr 1 (posted_entry demo_handle (mkIbvMr 3 4096 5 6) 16 32) WR_SEND [SEND_SIGNALED] 0 0)) zero_ok.
Proof. apply (rdma_async_posts demo_rdma demo_handle (mkIbvMr 3 4096 5 6) 0 16 1 32 eq_refl); discriminate. Defined.
Lemma tcp_async_moves_witness :
  wp endp_env (Tcp.send_async (Tcp.mkTcp 3 (-1) true) (Some demo_handle) 16 1 32) (fun rc s' =>
    TcpSpec.sent 4128 16 (mkEndp (fun _ => 0) [] []) rc s') (mkEndp (fun _ => 0) [] []).
Proof.
  destruct (tcp_async_moves (Tcp.mkTcp 3 (-1) true) demo_handle 16 1 32 (mkEndp (fun _ => 0) [] []) ltac:(lia)) as [Hs _].
  exact Hs.
Defined.
Lemma rdma_len_truncated_witness :
  wp any (Rdma.send_async demo_rdma (Some demo_handle) (2 ^ 32 + 16) 1 0) (fun rc tr =>
    ∃ wr x, tr = [Ev (v_post_send 7 wr : op sys_sig) x] ∧ sge_length (sw_sge wr) = 16 ∧ (x = 0 → rc = 0)) [].
Proof.
  apply (rdma_len_truncated demo_rdma demo_handle (mkIbvMr 3 4096 5 6) 0 16 1 eq_refl); cbn; (lia || discriminate).
Defined.
