(* ===== verification/Barrier.v ===== *)
(** Phase 3, [world.cpp]: the barrier between neighbours, as the same kind of
    program as the ring, and what it gives over posted receives; over blocking
    ones see BarrierBlocking.v. *)
From S2P Require Import Prelude Prog Transport RingAllreduce RingSpec RingMem RingPosted RingPostedCorrect.

(** [~0ull] *)
Definition barrier_id : Z := 2 ^ 64 - 1.
(** [w] is None for nullptr. *)
Definition world_barrier (w : option World) (scratch_r scratch_l : BufferHandle) : ringM Z :=
  match w with
  | None => Ret 0
  | Some w =>
    if wsize w <? 2 then Ret 0 else
    let snd := ring_call (send_async Right scratch_r 1 barrier_id 0) in
    let rcv := ring_call (recv_async Left scratch_l 1 barrier_id 0) in
    blocks <- ring_call (recv_blocks Left) ;;
    failed <- (if negb blocks then fails_or rcv snd
               else if Z.rem (rank w) 2 =? 0 then fails_or snd rcv
               else fails_or rcv snd) ;;
    if (failed : bool) then Ret (-1) else
    failed <- fails_or (ring_call (poll Left)) (ring_call (poll Right)) ;;
    if (failed : bool) then Ret (-1) else Ret 0
  end.

(** * Where a rank is: the calls made so far, when all of them succeed *)

Definition good (blocks : bool) (o : ring_op) : ring_ans o :=
  match o with
  | recv_blocks _ => blocks
  | send_async _ _ _ _ _ | recv_async _ _ _ _ _ | poll _ => 0
  | add_assign _ _ => tt
  end.
Fixpoint after (blocks : bool) (n : nat) (p : ringM Z) : ringM Z :=
  match n, p with
  | S n, Do o k => after blocks n (k (good blocks o))
  | _, p => p
  end.

Section posted.
Context {F : Type} (add : F → F → F) (N max_inline : Z) (HN : 2 ≤ N).
Context (sr sl : Z → BufferHandle).
Context (Hsr : ∀ r, 0 ≤ r < N → post_ok (sr r) 1 0 = true) (Hsl : ∀ r, 0 ≤ r < N → post_ok (sl r) 1 0 = true).

Definition barrier_code (r : Z) : ringM Z := world_barrier (Some (mkWorld r N)) (sr r) (sl r).
Definition barrier_init (mem0 : Z → Z → F) : gstate := mkG barrier_code mem0 (fun _ => idle_link).
Definition at_call (r n : Z) : ringM Z := after false (Z.to_nat n) (barrier_code r).

(** [ge a b] counts an event that has happened once [b] calls were made. *)
Definition ge (a b : Z) : Z := if a <=? b then 1 else 0.
(** The link from [e] when [P] calls were made at each rank and [d] messages
    have been delivered. *)
Record link_inv (P : Z → Z) (e d : Z) (c : @link F) : Prop := {
  li_sq : Z.of_nat (length (sq c)) + d = ge 3 (P e);
  li_rq : Z.of_nat (length (rq c)) + d = ge 2 (P (next_rank N e));
  li_rcq : rcq c = d - ge 4 (P (next_rank N e));
  li_scq : scq c + acks c = d - ge 5 (P e);
  li_pos : 0 ≤ rcq c ∧ 0 ≤ scq c ∧ 0 ≤ acks c ∧ 0 ≤ d;
  li_len : Forall (fun s => s_len s = 1) (sq c) ∧ Forall (fun x => x.2 = 1) (rq c);
}.
Record inv (g : @gstate F) (P D : Z → Z) : Prop := {
  inv_code r : 0 ≤ r < N → code g r = at_call r (P r);
  inv_calls r : 0 ≤ r < N → 0 ≤ P r ≤ 5;
  inv_link e : 0 ≤ e < N → link_inv P e (D e) (conn g e);
}.

(** The program call by call. *)
Lemma at_0 r : ∃ k, at_call r 0 = Do (recv_blocks Left : op ring_sig) k ∧ k false = at_call r 1.
Proof.
  unfold at_call, barrier_code, world_barrier. cbn [wsize]. rewrite (proj2 (Z.ltb_ge N 2)) by done.
  eexists. split; reflexivity.
Qed.
Lemma at_1 r : ∃ k, at_call r 1 = Do (recv_async Left (sl r) 1 barrier_id 0 : op ring_sig) k ∧ k 0 = at_call r 2.
Proof.
  unfold at_call, barrier_code, world_barrier. cbn [wsize]. rewrite (proj2 (Z.ltb_ge N 2)) by done.
  eexists. split; reflexivity.
Qed.
Lemma at_2 r : ∃ k, at_call r 2 = Do (send_async Right (sr r) 1 barrier_id 0 : op ring_sig) k ∧ k 0 = at_call r 3.
Proof.
  unfold at_call, barrier_code, world_barrier. cbn [wsize]. rewrite (proj2 (Z.ltb_ge N 2)) by done.
  eexists. split; reflexivity.
Qed.
Lemma at_3 r : ∃ k, at_call r 3 = Do (poll Left : op ring_sig) k ∧ k 0 = at_call r 4.
Proof.
  unfold at_call, barrier_code, world_barrier. cbn [wsize]. rewrite (proj2 (Z.ltb_ge N 2)) by done.
  eexists. split; reflexivity.
Qed.
Lemma at_4 r : ∃ k, at_call r 4 = Do (poll Right : op ring_sig) k ∧ k 0 = at_call r 5.
Proof.
  unfold at_call, barrier_code, world_barrier. cbn [wsize]. rewrite (proj2 (Z.ltb_ge N 2)) by done.
  eexists. split; reflexivity.
Qed.
Lemma at_5 r : at_call r 5 = Ret 0.
Proof. unfold at_call, barrier_code, world_barrier. cbn [wsize]. by rewrite (proj2 (Z.ltb_ge N 2)) by done. Qed.

(** A link is concerned by the calls of its two ends only. *)
Lemma link_other P e d c r n :
  e ≠ r → next_rank N e ≠ r → link_inv P e d c → link_inv (<[r := n]> P) e d c.
Proof. intros H1 H2 [? ? ? ? ? ?]. constructor; rewrite ?fn_lookup_insert_ne by done; done. Qed.
Ltac counts :=
  unfold ge in *;
  repeat match goal with
  | |- context [?a <=? ?b] => destruct (Z.leb_spec a b)
  | H : context [?a <=? ?b] |- _ => destruct (Z.leb_spec a b)
  end; lia.

(** A call of rank [r]: the code moves on, the other ranks' links stay. *)
Lemma bar_call g g' P D r k :
  inv g P D → 0 ≤ r < N → 0 ≤ P r < 5 → k = at_call r (P r + 1) → code g' = <[r := k]> (code g) →
  (∀ e, e ≠ r → e ≠ prev_rank N r → conn g' e = conn g e) →
  link_inv (<[r := P r + 1]> P) r (D r) (conn g' r) →
  link_inv (<[r := P r + 1]> P) (prev_rank N r) (D (prev_rank N r)) (conn g' (prev_rank N r)) →
  inv g' (<[r := P r + 1]> P) D.
Proof.
  intros [Hc Hn Hl] Hr HP -> Hcode Hsame Hown Hprev. split.
  - intros r' Hr'. rewrite Hcode. destruct (decide (r' = r)) as [->|Hne]; [by rewrite !fn_lookup_insert|].
    rewrite !fn_lookup_insert_ne by done. by apply Hc.
  - intros r' Hr'. destruct (decide (r' = r)) as [->|Hne]; [rewrite fn_lookup_insert; lia|].
    rewrite fn_lookup_insert_ne by done. by apply Hn.
  - intros e He. destruct (decide (e = r)) as [->|Hne]; [done|].
    destruct (decide (e = prev_rank N r)) as [->|Hnp]; [done|]. rewrite Hsame by done.
    apply link_other; [done| |by apply Hl]. intros Hx. apply Hnp. by rewrite <- Hx, prev_next.
Qed.
(** The counts on the two links of a rank, before and after its call. *)
Lemma link_own g P D r : inv g P D → 0 ≤ r < N → link_inv P r (D r) (conn g r).
Proof. intros [_ _ Hl]. apply Hl. Qed.
Lemma link_prev g P D r : inv g P D → 0 ≤ r < N → link_inv P (prev_rank N r) (D (prev_rank N r)) (conn g (prev_rank N r)).
Proof. intros [_ _ Hl] Hr. apply Hl, prev_range. lia. Qed.
Lemma set_own (P : Z → Z) r n : 0 ≤ r < N → (<[r := n]> P) r = n ∧ (<[r := n]> P) (next_rank N r) = P (next_rank N r).
Proof. intros Hr. rewrite fn_lookup_insert, fn_lookup_insert_ne; [done|]. by apply not_eq_sym, next_ne. Qed.
Lemma set_prev (P : Z → Z) r n : 0 ≤ r < N →
  (<[r := n]> P) (prev_rank N r) = P (prev_rank N r) ∧ (<[r := n]> P) (next_rank N (prev_rank N r)) = n.
Proof.
  intros Hr. rewrite (next_prev N HN r Hr), fn_lookup_insert, fn_lookup_insert_ne; [done|]. by apply not_eq_sym, prev_ne.
Qed.
Ltac link_tac Hl Hset :=
  destruct Hl as [H1 H2 H3 H4 H5 H6]; match goal with Hnp : next_rank _ (prev_rank _ _) = _ |- _ => try rewrite Hnp in H2; try rewrite Hnp in H3 end; destruct Hset as [He1 He2];
  constructor; rewrite ?He1, ?He2; cbn [sq rq scq rcq acks conn set_code]; rewrite ?length_app; cbn [length];
  first [counts | exact H6 | idtac].

Lemma bar_proc g P D r g' :
  inv g P D → 0 ≤ r < N → proc_step add N max_inline g r = Some g' → inv g' (<[r := P r + 1]> P) D.
Proof.
  intros Hi Hr. pose proof (inv_code _ _ _ Hi r Hr) as Hc. pose proof (inv_calls _ _ _ Hi r Hr) as Hn.
  pose proof (link_own _ _ _ _ Hi Hr) as Ho. pose proof (link_prev _ _ _ _ Hi Hr) as Hp.
  pose proof (set_own P r (P r + 1) Hr) as Hso. pose proof (set_prev P r (P r + 1) Hr) as Hsp.
  pose proof (next_prev N HN r Hr) as Hnp.
  assert (P r = 0 ∨ P r = 1 ∨ P r = 2 ∨ P r = 3 ∨ P r = 4 ∨ P r = 5) as Hcases by lia.
  unfold proc_step. destruct Hcases as [HP|[HP|[HP|[HP|[HP|HP]]]]]; rewrite HP in Hc; rewrite Hc.
  - destruct (at_0 r) as (k & -> & Hk). intros [= <-].
    apply (bar_call g _ P D r (k false)); try done; [lia|by rewrite HP| |]; [link_tac Ho Hso|link_tac Hp Hsp].
  - destruct (at_1 r) as (k & -> & Hk). rewrite (Hsl r Hr). intros [= <-].
    apply (bar_call g _ P D r (k 0)); try done; [lia|by rewrite HP| | |].
    + intros e H1 H2. cbn. by rewrite fn_lookup_insert_ne by done.
    + cbn. rewrite fn_lookup_insert_ne by (by apply prev_ne). link_tac Ho Hso.
    + cbn. rewrite fn_lookup_insert. unfold push_recv. link_tac Hp Hsp.
      split; [apply H6|]. apply Forall_app. split; [apply H6|by apply Forall_singleton].
  - destruct (at_2 r) as (k & -> & Hk). rewrite (Hsr r Hr). intros [= <-].
    apply (bar_call g _ P D r (k 0)); try done; [lia|by rewrite HP| | |].
    + intros e H1 H2. cbn. by rewrite fn_lookup_insert_ne by done.
    + cbn. rewrite fn_lookup_insert. unfold push_send. link_tac Ho Hso.
      split; [|apply H6]. apply Forall_app. split; [apply H6|by apply Forall_singleton].
    + cbn. rewrite fn_lookup_insert_ne by (by apply not_eq_sym, prev_ne). link_tac Hp Hsp.
  - destruct (at_3 r) as (k & -> & Hk). destruct (Z.ltb_spec 0 (rcq (conn g (prev_rank N r)))); [|done]. intros [= <-].
    apply (bar_call g _ P D r (k 0)); try done; [lia|by rewrite HP| | |].
    + intros e H1 H2. cbn. by rewrite fn_lookup_insert_ne by done.
    + cbn. rewrite fn_lookup_insert_ne by (by apply prev_ne). link_tac Ho Hso.
    + cbn. rewrite fn_lookup_insert. link_tac Hp Hsp.
  - destruct (at_4 r) as (k & -> & Hk). destruct (Z.ltb_spec 0 (scq (conn g r))); [|done]. intros [= <-].
    apply (bar_call g _ P D r (k 0)); try done; [lia|by rewrite HP| | |].
    + intros e H1 H2. cbn. by rewrite fn_lookup_insert_ne by done.
    + cbn. rewrite fn_lookup_insert. link_tac Ho Hso.
    + cbn. rewrite fn_lookup_insert_ne by (by apply not_eq_sym, prev_ne). link_tac Hp Hsp.
  - by rewrite at_5.
Qed.

(** A step of the adapter: it changes one link, and no count of calls. *)
Lemma bar_adapter g g' P D e d :
  inv g P D → code g' = code g → (∀ e', e' ≠ e → conn g' e' = conn g e') → link_inv P e d (conn g' e) →
  inv g' P (<[e := d]> D).
Proof.
  intros [Hc Hn Hl] Hcode Hsame Hlink. split; [by rewrite Hcode|done|]. intros e' He'.
  destruct (decide (e' = e)) as [->|Hne]; [by rewrite fn_lookup_insert|].
  rewrite fn_lookup_insert_ne, Hsame by done. by apply Hl.
Qed.
Lemma bar_fetch g P D e k g' : inv g P D → 0 ≤ e < N → fetch_step g e k = Some g' → inv g' P (<[e := D e]> D).
Proof.
  intros Hi He. unfold fetch_step. destruct (sq (conn g e) !! k) as [[a len [snap|]]|] eqn:Hk; try done.
  intros [= <-]. apply (bar_adapter g); [done|done| |].
  { intros e' He'. cbn. by rewrite fn_lookup_insert_ne. }
  cbn. rewrite fn_lookup_insert. destruct (link_own _ _ _ _ Hi He) as [? ? ? ? ? [Hs Hr]].
  constructor; cbn; rewrite ?length_insert; try done. split; [|done]. apply Forall_insert; [done|].
  cbn. rewrite Forall_lookup in Hs. by specialize (Hs _ _ Hk).
Qed.
Lemma bar_deliver g P D e g' : inv g P D → 0 ≤ e < N → deliver_step N g e = Some g' → inv g' P (<[e := D e + 1]> D).
Proof.
  intros Hi He. destruct (link_own _ _ _ _ Hi He) as [H1 H2 H3 H4 H5 [H6 H7]]. unfold deliver_step.
  destruct (sq (conn g e)) as [|[a len [snap|]] ws]; try done. destruct (rq (conn g e)) as [|[b rl] rs]; try done.
  destruct (len <=? rl); try done. intros [= <-]. apply (bar_adapter g); [done|done| |].
  { intros e' He'. cbn. by rewrite fn_lookup_insert_ne. }
  cbn. rewrite fn_lookup_insert. cbn [length] in *. apply Forall_cons in H6 as [_ H6]. apply Forall_cons in H7 as [_ H7].
  constructor; cbn; first [lia|done].
Qed.
Lemma bar_ack g P D e g' : inv g P D → 0 ≤ e < N → ack_step g e = Some g' → inv g' P (<[e := D e]> D).
Proof.
  intros Hi He. destruct (link_own _ _ _ _ Hi He) as [H1 H2 H3 H4 H5 H6]. unfold ack_step.
  destruct (Z.ltb_spec 0 (acks (conn g e))); [|done]. intros [= <-]. apply (bar_adapter g); [done|done| |].
  { intros e' He'. cbn. by rewrite fn_lookup_insert_ne. }
  cbn. rewrite fn_lookup_insert. constructor; cbn; first [lia|done].
Qed.
Lemma bar_step g P D g' : inv g P D → step add N max_inline g g' → ∃ P' D', inv g' P' D'.
Proof.
  intros Hi [l Hl]. unfold lstep in Hl. case_bool_decide as Hr; [|done]. destruct l as [r|r k|r|r]; cbn in Hr.
  - eauto using bar_proc.
  - eauto using bar_fetch.
  - eauto using bar_deliver.
  - eauto using bar_ack.
Qed.
Lemma bar_init mem0 : inv (barrier_init mem0) (fun _ => 0) (fun _ => 0).
Proof. split; [done|lia|]. intros e He. by constructor. Qed.
Lemma bar_reach mem0 g : rtc (step add N max_inline) (barrier_init mem0) g → ∃ P D, inv g P D.
Proof.
  intros Hs. assert (Hg : ∃ P D, inv (barrier_init mem0) P D) by eauto using bar_init.
  induction Hs as [|g g1 g' Hstep _ IH]; [done|]. apply IH. destruct Hg as (P & D & Hi). by eapply bar_step.
Qed.

(** * Progress *)

Definition moves (g : @gstate F) : Prop := ∃ g', step add N max_inline g g'.
Lemma bar_rank_moves g r g' : 0 ≤ r < N → proc_step add N max_inline g r = Some g' → moves g.
Proof. intros Hr Hp. exists g', (LProc r). unfold lstep. by rewrite bool_decide_eq_true_2. Qed.
(** Before its polls a rank always moves. *)
Lemma bar_early_moves g P D r : inv g P D → 0 ≤ r < N → P r < 3 → moves g.
Proof.
  intros Hi Hr HP. pose proof (inv_code _ _ _ Hi r Hr) as Hc. pose proof (inv_calls _ _ _ Hi r Hr) as Hn.
  assert (P r = 0 ∨ P r = 1 ∨ P r = 2) as [HP'|[HP'|HP']] by lia; rewrite HP' in Hc.
  - destruct (at_0 r) as (k & Hk & _). eapply (bar_rank_moves g r); [done|]. unfold proc_step. by rewrite Hc, Hk.
  - destruct (at_1 r) as (k & Hk & _). eapply (bar_rank_moves g r); [done|]. unfold proc_step. by rewrite Hc, Hk, (Hsl r Hr).
  - destruct (at_2 r) as (k & Hk & _). eapply (bar_rank_moves g r); [done|]. unfold proc_step. by rewrite Hc, Hk, (Hsr r Hr).
Qed.
(** A link both ends of which have posted and that delivered nothing moves. *)
Lemma bar_link_moves g P D e : inv g P D → 0 ≤ e < N → 3 ≤ P e → 2 ≤ P (next_rank N e) → D e = 0 → moves g.
Proof.
  intros Hi He H3 H2 HD. destruct (link_own _ _ _ _ Hi He) as [L1 L2 _ _ _ [L6 L7]].
  unfold ge in L1, L2. rewrite (proj2 (Z.leb_le _ _)), HD in L1 by done. rewrite (proj2 (Z.leb_le _ _)), HD in L2 by done.
  destruct (sq (conn g e)) as [|[a len snap] ws] eqn:Hs; [cbn in L1; lia|].
  destruct (rq (conn g e)) as [|[b rl] rs] eqn:Hr; [cbn in L2; lia|].
  apply Forall_cons in L6 as [Hlen _]. apply Forall_cons in L7 as [Hrl _]. cbn in Hlen, Hrl. subst len rl.
  destruct snap as [d|].
  - eexists _, (LDeliver e). unfold lstep. rewrite bool_decide_eq_true_2 by done. unfold deliver_step. by rewrite Hs, Hr.
  - eexists _, (LFetch e 0). unfold lstep. rewrite bool_decide_eq_true_2 by done. unfold fetch_step. by rewrite Hs.
Qed.
Lemma bar_progress g P D r : inv g P D → 0 ≤ r < N → P r ≠ 5 → moves g.
Proof.
  intros Hi Hr HP. pose proof (inv_calls _ _ _ Hi r Hr) as Hn. pose proof (inv_code _ _ _ Hi r Hr) as Hc.
  destruct (decide (P r < 3)); [by eapply bar_early_moves|].
  pose proof (prev_range N HN r) as Hpr. pose proof (next_range N HN r) as Hnr. pose proof (next_prev N HN r Hr) as Hnp.
  destruct (decide (P (prev_rank N r) < 3)); [by eapply (bar_early_moves g P D (prev_rank N r))|].
  destruct (decide (P (next_rank N r) < 3)); [by eapply (bar_early_moves g P D (next_rank N r))|].
  assert (P r = 3 ∨ P r = 4) as [HP'|HP'] by lia; rewrite HP' in Hc.
  - destruct (link_prev _ _ _ _ Hi Hr) as [_ _ L3 _ L5 _]. rewrite Hnp, HP' in L3. cbn in L3.
    destruct (decide (D (prev_rank N r) = 0)); [eapply (bar_link_moves g P D (prev_rank N r)); try done; rewrite ?Hnp; lia|].
    destruct (at_3 r) as (k & Hk & _). eapply (bar_rank_moves g r); [done|]. unfold proc_step. rewrite Hc, Hk.
    rewrite (proj2 (Z.ltb_lt _ _)) by lia. done.
  - destruct (link_own _ _ _ _ Hi Hr) as [_ _ _ L4 L5 _]. rewrite HP' in L4. cbn in L4.
    destruct (decide (D r = 0)); [eapply (bar_link_moves g P D r); try done; lia|].
    destruct (decide (0 < acks (conn g r))) as [Ha|Ha].
    + eexists _, (LAck r). unfold lstep. rewrite bool_decide_eq_true_2 by done. unfold ack_step.
      by rewrite (proj2 (Z.ltb_lt _ _) Ha).
    + destruct (at_4 r) as (k & Hk & _). eapply (bar_rank_moves g r); [done|]. unfold proc_step. rewrite Hc, Hk.
      rewrite (proj2 (Z.ltb_lt _ _)) by lia. done.
Qed.

(** * Who has arrived *)

Definition entered (g : @gstate F) (r : Z) : Prop := code g r ≠ barrier_code r.
Definition head (p : ringM Z) : option ring_op := match p with Do o _ => Some o | Ret _ => None end.
Lemma head_at r n : 0 ≤ n ≤ 5 →
  head (at_call r n) = (match n with 0 => Some (recv_blocks Left) | 1 => Some (recv_async Left (sl r) 1 barrier_id 0)
    | 2 => Some (send_async Right (sr r) 1 barrier_id 0) | 3 => Some (poll Left) | 4 => Some (poll Right) | _ => None end).
Proof.
  intros Hn. assert (n = 0 ∨ n = 1 ∨ n = 2 ∨ n = 3 ∨ n = 4 ∨ n = 5) as [->|[->|[->|[->|[->| ->]]]]] by lia.
  - by destruct (at_0 r) as (k & -> & _).
  - by destruct (at_1 r) as (k & -> & _).
  - by destruct (at_2 r) as (k & -> & _).
  - by destruct (at_3 r) as (k & -> & _).
  - by destruct (at_4 r) as (k & -> & _).
  - by rewrite at_5.
Qed.
Lemma bar_entered g P D r : inv g P D → 0 ≤ r < N → 1 ≤ P r → entered g r.
Proof.
  intros Hi Hr HP He. unfold entered in *. pose proof (inv_calls _ _ _ Hi r Hr) as Hn.
  rewrite (inv_code _ _ _ Hi r Hr) in He. change (barrier_code r) with (at_call r 0) in He.
  apply (f_equal head) in He. rewrite !head_at in He by lia.
  assert (P r = 1 ∨ P r = 2 ∨ P r = 3 ∨ P r = 4 ∨ P r = 5) as [HP'|[HP'|[HP'|[HP'|HP']]]] by lia; by rewrite HP' in He.
Qed.
Lemma bar_returned g P D r v : inv g P D → 0 ≤ r < N → code g r = Ret v → P r = 5 ∧ v = 0.
Proof.
  intros Hi Hr Hv. pose proof (inv_calls _ _ _ Hi r Hr) as Hn. rewrite (inv_code _ _ _ Hi r Hr) in Hv.
  assert (HP : P r = 5).
  { apply (f_equal head) in Hv. rewrite head_at in Hv by done.
    assert (P r = 0 ∨ P r = 1 ∨ P r = 2 ∨ P r = 3 ∨ P r = 4 ∨ P r = 5) as [HP|[HP|[HP|[HP|[HP|HP]]]]] by lia;
      by rewrite HP in Hv. }
  split; [done|]. rewrite HP, at_5 in Hv. by injection Hv.
Qed.
Lemma bar_neighbours g P D r v :
  inv g P D → 0 ≤ r < N → code g r = Ret v → v = 0 ∧ entered g (prev_rank N r) ∧ entered g (next_rank N r).
Proof.
  intros Hi Hr Hv. destruct (bar_returned _ _ _ _ _ Hi Hr Hv) as [HP ->]. split; [done|].
  pose proof (next_prev N HN r Hr) as Hnp. split.
  - apply (bar_entered g P D); [done|by apply prev_range|].
    destruct (link_prev _ _ _ _ Hi Hr) as [L1 _ L3 _ L5 _]. rewrite Hnp, HP in L3. counts.
  - apply (bar_entered g P D); [done|by apply next_range|].
    destruct (link_own _ _ _ _ Hi Hr) as [_ L2 _ L4 L5 _]. rewrite HP in L4. counts.
Qed.
Lemma bar_done_or_moves g P D : inv g P D → finished N g 0 ∨ moves g.
Proof.
  intros Hi. destruct (decide (Forall (fun r => P r = 5) (seqZ 0 N))) as [Hall|Hex].
  - left. intros r Hr. rewrite Forall_forall in Hall. specialize (Hall r). rewrite elem_of_seqZ in Hall.
    by rewrite (inv_code _ _ _ Hi r Hr), Hall, at_5.
  - right. apply not_Forall_Exists, Exists_exists in Hex as (r & Hr & HP); [|solve_decision].
    rewrite elem_of_seqZ in Hr. by apply (bar_progress g P D r).
Qed.
End posted.

(** C37. On a backend whose receives are posted, no rank leaves the barrier
    before both its neighbours have entered it, and it leaves with 0; and the
    barrier ends: in every state some rank or adapter can move until all ranks
    have returned, and no execution has more steps than the work left. *)
Theorem barrier_neighbours {F} (add : F → F → F) (N max_inline : Z) (sr sl : Z → BufferHandle)
    (mem0 : Z → Z → F) (g : gstate) :
  2 ≤ N →
  (∀ r, 0 ≤ r < N → post_ok (sr r) 1 0 = true) → (∀ r, 0 ≤ r < N → post_ok (sl r) 1 0 = true) →
  rtc (step add N max_inline) (barrier_init N sr sl mem0) g →
  (∀ r v, 0 ≤ r < N → code g r = Ret v →
     v = 0 ∧ entered N sr sl g (prev_rank N r) ∧ entered N sr sl g (next_rank N r)) ∧
  (finished N g 0 ∨ ∃ g', step add N max_inline g g') ∧
  (∀ n g', nsteps (step add N max_inline) n g g' → Z.of_nat n ≤ work N g).
Proof.
  intros HN Hsr Hsl Hs. destruct (bar_reach add N max_inline HN sr sl Hsr Hsl mem0 g Hs) as (P & D & Hi).
  split; [|split; [|intros n g'; by apply steps_bounded]].
  - intros r v Hr Hv. by eapply bar_neighbours.
  - exact (bar_done_or_moves add N max_inline HN sr sl Hsr Hsl g P D Hi).
Qed.

(** * A witness *)

Definition scratch : BufferHandle := mkBufferHandle 4096 64 0.
Definition demo_barrier_run : list label := schedule Z.add 3 0 (nic_first 3) 200
  (barrier_init 3 (fun _ => scratch) (fun _ => scratch) (fun _ _ => 0)).
Definition demo_barrier : gstate :=
  default (barrier_init 3 (fun _ => scratch) (fun _ => scratch) (fun _ _ => 0))
    (lsteps Z.add 3 0 demo_barrier_run (barrier_init 3 (fun _ => scratch) (fun _ => scratch) (fun _ _ => 0))).
Lemma demo_barrier_reach :
  rtc (step Z.add 3 0) (barrier_init 3 (fun _ => scratch) (fun _ => scratch) (fun _ _ => 0)) demo_barrier.
Proof.
  unfold demo_barrier. destruct (lsteps _ _ _ demo_barrier_run _) as [g|] eqn:Hg; cbn [default]; [|constructor].
  by apply (lsteps_rtc _ _ _ demo_barrier_run).
Qed.
Lemma demo_barrier_done : code demo_barrier 0 = Ret 0.
Proof. vm_compute. reflexivity. Qed.
Lemma barrier_neighbours_witness :
  entered 3 (fun _ => scratch) (fun _ => scratch) demo_barrier 2 ∧ entered 3 (fun _ => scratch) (fun _ => scratch) demo_barrier 1.
Proof.
  apply (proj1 (barrier_neighbours Z.add 3 0 (fun _ => scratch) (fun _ => scratch) (fun _ _ => 0) demo_barrier
    ltac:(lia) (fun _ _ => eq_refl) (fun _ _ => eq_refl) demo_barrier_reach) 0 0 ltac:(lia) demo_barrier_done).
Defined.
