(* ===== verification/BarrierBlocking.v ===== *)
(** Phase 3, [world.cpp]: the barrier over blocking receives. Every rank runs the
    code of [world_barrier] over the byte streams of RingBlocking.v, where a send
    returns once its byte is in the stream. A one-byte message carries no whole
    float, so it is the empty list on its stream, and still one of the [cap]
    messages the stream has room for. *)
From S2P Require Import Prelude Prog Transport RingAllreduce RingSpec RingMem RingMeasure RingPosted RingBlocking.
From S2P Require Import RingBlockingTheorems RingBlockingLive Barrier.

Definition blocking_barrier {F} (N : Z) (sr sl : Z → BufferHandle) (mem0 : Z → Z → F) : bstate :=
  mkB (barrier_code N sr sl) mem0 (fun _ => []).
(** A rank has entered the barrier when it has made its first call. *)
Definition b_entered {F} (N : Z) (sr sl : Z → BufferHandle) (g : @bstate F) (r : Z) : Prop :=
  bcode g r ≠ barrier_code N sr sl r.

Section blocking.
Context {F : Type} (add : F → F → F) (N : Z) (cap : nat) (HN : 2 ≤ N).
Context (sr sl : Z → BufferHandle).
Implicit Types g : @bstate F.
Context (Hsr : ∀ r, 0 ≤ r < N → tcp_ok (sr r) 1 0 = true) (Hsl : ∀ r, 0 ≤ r < N → tcp_ok (sl r) 1 0 = true).

(** Rank [r] after [n] calls, which all succeeded; even ranks send first. *)
Definition b_at (r n : Z) : ringM Z := after true (Z.to_nat n) (barrier_code N sr sl r).
Definition snd_op (r : Z) : ring_op := send_async Right (sr r) 1 barrier_id 0.
Definition rcv_op (r : Z) : ring_op := recv_async Left (sl r) 1 barrier_id 0.
Definition snd_at (r : Z) : Z := if even_rank r then 1 else 2.
Definition rcv_at (r : Z) : Z := if even_rank r then 2 else 1.

(** What the [n]-th call of rank [r] is, and that the next one follows it. *)
Inductive call_at (r n : Z) : Prop :=
| ca_ask k : n = 0 → b_at r n = Do (recv_blocks Left : op ring_sig) k → k true = b_at r (n + 1) → call_at r n
| ca_snd k : n = snd_at r → b_at r n = Do (snd_op r : op ring_sig) k → k 0 = b_at r (n + 1) → call_at r n
| ca_rcv k : n = rcv_at r → b_at r n = Do (rcv_op r : op ring_sig) k → k 0 = b_at r (n + 1) → call_at r n
| ca_poll t k : 3 ≤ n → b_at r n = Do (poll t : op ring_sig) k → k 0 = b_at r (n + 1) → call_at r n.

Lemma calls r n : 0 ≤ n < 5 → call_at r n.
Proof.
  intros Hn. assert (n = 0 ∨ n = 1 ∨ n = 2 ∨ n = 3 ∨ n = 4) as Hc by lia.
  unfold b_at, barrier_code, world_barrier, snd_at, rcv_at in *. destruct (Z.ltb_spec N 2) as [|_]; [lia|].
  destruct (even_rank r) eqn:He; pose proof He as He'; unfold even_rank in He';
    destruct Hc as [->|[->|[->|[->| ->]]]];
    first
    [ eapply ca_ask; [done|..] | eapply ca_snd; [unfold snd_at; rewrite He; done|..]
    | eapply ca_rcv; [unfold rcv_at; rewrite He; done|..] | eapply ca_poll; [done|..] ];
    unfold b_at, barrier_code, world_barrier; cbn [wsize]; rewrite (proj2 (Z.ltb_ge N 2)) by done;
    cbn; rewrite ?He'; reflexivity.
Qed.

Lemma b_at_5 r : b_at r 5 = Ret 0.
Proof.
  unfold b_at, barrier_code, world_barrier. cbn [wsize]. rewrite (proj2 (Z.ltb_ge N 2)) by done.
  cbn. by destruct (Z.rem r 2 =? 0).
Qed.
Lemma positions r : 1 ≤ snd_at r ≤ 2 ∧ rcv_at r = 3 - snd_at r ∧ (snd_at r = 1 ↔ even_rank r = true).
Proof. unfold snd_at, rcv_at. destruct (even_rank r); split_and!; (done || lia). Qed.

(** * Counting messages *)

(** Messages rank [r] has sent, and has received, after [P r] calls. *)
Definition sentc (P : Z → Z) (r : Z) : Z := ge (snd_at r + 1) (P r).
Definition rcvdc (P : Z → Z) (r : Z) : Z := ge (rcv_at r + 1) (P r).
Lemma count_call (P P' : Z → Z) a r e :
  P' r = P r + 1 → (∀ e, e ≠ r → P' e = P e) →
  ge (a + 1) (P' e) = ge (a + 1) (P e) + if bool_decide (e = r ∧ P r = a) then 1 else 0.
Proof.
  intros Hr Ho. unfold ge. destruct (decide (e = r)) as [->|Hne].
  - rewrite Hr. case_bool_decide; repeat case_match; lia.
  - rewrite Ho by done. rewrite bool_decide_eq_false_2 by tauto. lia.
Qed.

(** The stream from [e] holds the messages [e] sent that its right neighbour has
    not received. *)
Record stream_ok (P : Z → Z) (e : Z) (c : list (list F)) : Prop := {
  so_count : Z.of_nat (length c) = sentc P e - rcvdc P (next_rank N e);
  so_byte : Forall (fun d => d = []) c;
  so_room : (length c ≤ cap)%nat;
}.
Definition ranks_ok (c : Z → ringM Z) (P : Z → Z) : Prop :=
  ∀ r, 0 ≤ r < N → c r = b_at r (P r) ∧ 0 ≤ P r ≤ 5.
Record bbar (g : @bstate F) (P : Z → Z) : Prop := {
  bi_ranks : ranks_ok (bcode g) P;
  bi_stream e : 0 ≤ e < N → stream_ok P e (chan g e);
}.
(** One call of rank [r] more, and nothing else. *)
Definition called (r : Z) (P P' : Z → Z) : Prop := P' r = P r + 1 ∧ ∀ e, e ≠ r → P' e = P e.
Lemma called_insert r (P : Z → Z) : called r P (<[r := P r + 1]> P).
Proof. split; [by rewrite fn_lookup_insert|]. intros e He. by rewrite fn_lookup_insert_ne. Qed.
Lemma sent_call r P P' e : called r P P' → sentc P' e = sentc P e + if bool_decide (e = r ∧ P r = snd_at r) then 1 else 0.
Proof.
  intros [Hr Ho]. unfold sentc. destruct (decide (e = r)) as [->|Hne]; [by apply count_call|].
  rewrite Ho, bool_decide_eq_false_2 by tauto. lia.
Qed.
Lemma rcvd_call r P P' e : called r P P' → rcvdc P' e = rcvdc P e + if bool_decide (e = r ∧ P r = rcv_at r) then 1 else 0.
Proof.
  intros [Hr Ho]. unfold rcvdc. destruct (decide (e = r)) as [->|Hne]; [by apply count_call|].
  rewrite Ho, bool_decide_eq_false_2 by tauto. lia.
Qed.
Lemma code_call c P P' r k :
  ranks_ok c P → 0 ≤ r < N → P r < 5 → called r P P' → k = b_at r (P r + 1) → ranks_ok (<[r := k]> c) P'.
Proof.
  intros Hc Hr HP [Hcr Hco] -> q Hq. destruct (decide (q = r)) as [->|Hne].
  - rewrite fn_lookup_insert, Hcr. destruct (Hc r Hr). split; [done|lia].
  - rewrite fn_lookup_insert_ne, Hco by done. by apply Hc.
Qed.

(** * One call of a rank *)

(** What a call does to the streams: nothing but at the rank's send, which puts
    the byte on its own stream, and at its receive, which takes the byte off the
    stream of its left neighbour. *)
Lemma stays_quiet g P P' r c' :
  bbar g P → 0 ≤ r < N → called r P P' →
  (∀ e, 0 ≤ e < N → Forall (fun d => d = []) (c' e) ∧ (length (c' e) ≤ cap)%nat ∧
     Z.of_nat (length (c' e)) = Z.of_nat (length (chan g e))
       + (if bool_decide (e = r ∧ P r = snd_at r) then 1 else 0)
       - (if bool_decide (e = prev_rank N r ∧ P r = rcv_at r) then 1 else 0)) →
  ∀ e, 0 ≤ e < N → stream_ok P' e (c' e).
Proof.
  intros [_ Hl] Hr Hcall Hch e He. destruct (Hl e He) as [Hc _ _]. destruct (Hch e He) as (Hb & Hroom & Hlen).
  constructor; [|done|done]. rewrite Hlen, Hc, (sent_call r P P' e Hcall), (rcvd_call r P P' _ Hcall).
  enough (bool_decide (next_rank N e = r ∧ P r = rcv_at r) = bool_decide (e = prev_rank N r ∧ P r = rcv_at r)) as -> by lia.
  apply bool_decide_ext. split; intros [H1 H2]; (split; [|done]).
  - by rewrite <- H1, prev_next.
  - by rewrite H1, next_prev.
Qed.

Lemma call_step g P r :
  bbar g P → 0 ≤ r < N → P r < 5 →
  (P r = snd_at r → (length (chan g r) < cap)%nat) → (P r = rcv_at r → chan g (prev_rank N r) ≠ []) →
  ∃ g', bproc_step add N cap g r = Some g' ∧ bbar g' (<[r := P r + 1]> P).
Proof.
  intros Hi Hr HP Hsend Hrecv. destruct (bi_ranks _ _ Hi r Hr) as [Hc Hn].
  pose proof (called_insert r P) as Hcall. pose proof (positions r) as (Hs & Hv & _).
  assert (Hquiet : P r ≠ snd_at r → P r ≠ rcv_at r → ∀ e, 0 ≤ e < N → stream_ok (<[r := P r + 1]> P) e (chan g e)).
  { intros Hns Hnr. apply (stays_quiet g P _ r (chan g)); [done..|]. intros e He. destruct (bi_stream _ _ Hi e He).
    rewrite !bool_decide_eq_false_2 by tauto. split_and!; (done || lia). }
  pose proof (fun k => code_call (bcode g) P _ r k (bi_ranks _ _ Hi) Hr HP Hcall) as Hcode.
  unfold bproc_step. rewrite Hc. destruct (calls r (P r)) as [k H0 -> Hk|k H0 -> Hk|k H0 -> Hk|t k H0 -> Hk]; [lia|..]; cbn.
  - eexists. split; [reflexivity|]. constructor; [by apply Hcode|]. apply Hquiet; lia.
  - rewrite (Hsr r Hr), bool_decide_eq_true_2 by auto. eexists. split; [reflexivity|].
    constructor; [by apply Hcode|]. apply (stays_quiet g P _ r); [done..|]. intros e He. cbn. destruct (bi_stream _ _ Hi e He) as [_ Hb Hroom].
    rewrite (bool_decide_eq_false_2 (_ ∧ P r = rcv_at r)) by lia. specialize (Hsend H0).
    destruct (decide (e = r)) as [->|Hne].
    + rewrite fn_lookup_insert, length_app, bool_decide_eq_true_2 by done. cbn. split_and!; [|lia..].
      apply Forall_app. split; [done|]. by apply Forall_singleton.
    + rewrite fn_lookup_insert_ne, bool_decide_eq_false_2 by (congruence || tauto). split_and!; (done || lia).
  - rewrite (Hsl r Hr). specialize (Hrecv H0). destruct (bi_stream _ _ Hi _ (prev_range N HN r)) as [_ Hb Hroom].
    destruct (chan g (prev_rank N r)) as [|d c] eqn:Hch; [done|]. apply Forall_cons in Hb as [-> Hb].
    rewrite bool_decide_eq_true_2 by reflexivity. eexists. split; [reflexivity|].
    constructor; [by apply Hcode|]. apply (stays_quiet g P _ r); [done..|]. intros e He. cbn. destruct (bi_stream _ _ Hi e He) as [_ Hb' Hroom'].
    rewrite (bool_decide_eq_false_2 (_ ∧ P r = snd_at r)) by lia.
    destruct (decide (e = prev_rank N r)) as [->|Hne].
    + rewrite fn_lookup_insert, bool_decide_eq_true_2, Hch by done. cbn in *. split_and!; [done|lia..].
    + rewrite fn_lookup_insert_ne, bool_decide_eq_false_2 by (congruence || tauto). split_and!; (done || lia).
  - eexists. split; [reflexivity|]. constructor; [by apply Hcode|]. apply Hquiet; lia.
Qed.

(** The rank calls only where that is possible. *)
Lemma call_enabled g g' P r :
  bbar g P → 0 ≤ r < N → bproc_step add N cap g r = Some g' →
  P r < 5 ∧ (P r = snd_at r → (length (chan g r) < cap)%nat) ∧ (P r = rcv_at r → chan g (prev_rank N r) ≠ []).
Proof.
  intros Hi Hr. destruct (bi_ranks _ _ Hi r Hr) as [Hc Hn]. pose proof (positions r) as (Hs & Hv & _).
  unfold bproc_step. rewrite Hc. destruct (decide (P r = 5)) as [HP|HP]; [by rewrite HP, b_at_5|].
  destruct (calls r (P r)) as [k H0 -> _|k H0 -> _|k H0 -> _|t k H0 -> _]; [lia|..]; cbn.
  - intros _. split_and!; lia.
  - rewrite (Hsr r Hr). case_bool_decide; [|done]. intros _. split_and!; [lia|done|lia].
  - rewrite (Hsl r Hr). destruct (chan g (prev_rank N r)); [done|]. intros _. split_and!; [lia..|done].
  - intros _. split_and!; lia.
Qed.

(** * The hand-over to a waiting neighbour *)

Lemma sends_at P r h len off p :
  0 ≤ P r ≤ 5 → about_to_send (b_at r (P r)) = Some (h, len, off, p) →
  P r = snd_at r ∧ h = sr r ∧ len = 1 ∧ off = 0 ∧ p = b_at r (P r + 1).
Proof.
  intros Hn. destruct (decide (P r = 5)) as [HP|HP]; [by rewrite HP, b_at_5|].
  destruct (calls r (P r)) as [k H0 -> Hk|k H0 -> Hk|k H0 -> Hk|t k H0 -> Hk]; [lia|..]; cbn; [done| |done..].
  by intros [= <- <- <- <-].
Qed.
Lemma receives_at P r h len off p :
  0 ≤ P r ≤ 5 → about_to_recv (b_at r (P r)) = Some (h, len, off, p) →
  P r = rcv_at r ∧ h = sl r ∧ len = 1 ∧ off = 0 ∧ p = b_at r (P r + 1).
Proof.
  intros Hn. destruct (decide (P r = 5)) as [HP|HP]; [by rewrite HP, b_at_5|].
  destruct (calls r (P r)) as [k H0 -> Hk|k H0 -> Hk|k H0 -> Hk|t k H0 -> Hk]; [lia|..]; cbn; [done..| |done].
  by intros [= <- <- <- <-].
Qed.
Lemma handed_over g g' P r :
  bbar g P → 0 ≤ r < N → handover N g r = Some g' → ∃ P', bbar g' P'.
Proof.
  intros Hi Hr. unfold handover. set (n := next_rank N r). assert (Hnr : 0 ≤ n < N) by (apply next_range; lia).
  assert (Hne : n ≠ r) by by apply next_ne.
  destruct (bi_ranks _ _ Hi r Hr) as [Hc Hn]. destruct (bi_ranks _ _ Hi n Hnr) as [Hcn Hnn]. rewrite Hc, Hcn.
  destruct (about_to_send _) as [[[[h len] off] p]|] eqn:Hs; [|done].
  destruct (about_to_recv _) as [[[[h' len'] off'] p']|] eqn:Hv; [|done].
  destruct (sends_at _ _ _ _ _ _ Hn Hs) as (HP & _ & _ & _ & ->).
  destruct (receives_at _ _ _ _ _ _ Hnn Hv) as (HPn & _ & _ & _ & ->).
  destruct (chan g r) eqn:Hch; [|done]. case_match; [|done]. intros [= <-].
  pose proof (positions r) as (? & ? & _). pose proof (positions n) as (? & ? & _).
  set (P1 := <[r := P r + 1]> P). assert (Hc1 : called r P P1) by apply called_insert.
  assert (HP1 : P1 n = P n) by by apply Hc1.
  exists (<[n := P1 n + 1]> P1). assert (Hc2 : called n P1 (<[n := P1 n + 1]> P1)) by apply called_insert.
  constructor; cbn.
  - apply (code_call _ P1); [|done|rewrite HP1; lia|done|by rewrite HP1].
    apply (code_call _ P); [apply Hi|done|lia|done|done].
  - intros e He. destruct (bi_stream _ _ Hi e He) as [Hl Hb Hroom]. constructor; [|done..].
    rewrite (sent_call n P1 _ e Hc2), (rcvd_call n P1 _ _ Hc2), (sent_call r P P1 e Hc1), (rcvd_call r P P1 _ Hc1), HP1, Hl.
    rewrite (bool_decide_eq_false_2 (e = n ∧ _)), (bool_decide_eq_false_2 (next_rank N e = r ∧ _)) by lia.
    enough (bool_decide (e = r ∧ P r = snd_at r) = bool_decide (next_rank N e = n ∧ P n = rcv_at n)) as -> by lia.
    apply bool_decide_ext. split; intros [He' _]; (split; [|done]); [by rewrite He'|].
    pose proof (prev_next N HN e He) as <-. rewrite He'. by apply prev_next.
Qed.

Lemma bbar_step g g' P : bbar g P → bstep add N cap g g' → ∃ P', bbar g' P'.
Proof.
  intros Hi [l Hl]. unfold blstep in Hl. case_bool_decide as Hr; [|done]. destruct l as [r|r]; cbn in Hr.
  - destruct (call_enabled g g' P r Hi Hr Hl) as (HP & Hs & Hv).
    destruct (call_step g P r Hi Hr HP Hs Hv) as (g2 & Hg2 & Hi'). rewrite Hl in Hg2. injection Hg2 as <-. eauto.
  - by eapply handed_over.
Qed.
Lemma bbar_init (mem0 : Z → Z → F) : bbar (blocking_barrier N sr sl mem0) (fun _ => 0).
Proof.
  constructor; [intros r Hr; split; [done|lia]|]. intros e He.
  assert (H0 : sentc (fun _ => 0) e = 0 ∧ rcvdc (fun _ => 0) (next_rank N e) = 0).
  { pose proof (positions e) as (H1 & _). pose proof (positions (next_rank N e)) as (H2 & H3 & _).
    unfold sentc, rcvdc, ge. split; case_match; lia. }
  constructor; cbn; [lia|done|lia].
Qed.
Lemma bbar_reach (mem0 : Z → Z → F) g : rtc (bstep add N cap) (blocking_barrier N sr sl mem0) g → ∃ P, bbar g P.
Proof.
  intros Hs. assert (Hg : ∃ P, bbar (blocking_barrier N sr sl mem0) P) by eauto using bbar_init.
  induction Hs as [|g g1 g' Hstep _ IH]; [done|]. apply IH. destruct Hg as (P & Hi). by eapply bbar_step.
Qed.

(** * Progress *)

Definition b_moves (g : @bstate F) : Prop := ∃ g', bstep add N cap g g'.
Lemma call_moves g P r :
  bbar g P → 0 ≤ r < N → P r < 5 →
  (P r = snd_at r → (length (chan g r) < cap)%nat) → (P r = rcv_at r → chan g (prev_rank N r) ≠ []) →
  ∃ g', bstep add N cap g g' ∧ bbar g' (<[r := P r + 1]> P).
Proof.
  intros Hi Hr HP Hs Hv. destruct (call_step g P r Hi Hr HP Hs Hv) as (g' & Hg' & Hi'). exists g'. split; [|done].
  exists (BProc r). unfold blstep. by rewrite bool_decide_eq_true_2.
Qed.
(** A rank that cannot call: it has returned, its send waits for its right
    neighbour, which has not received, or its receive for its left one, which
    has not sent. *)
Definition waits_to_send (P : Z → Z) (r : Z) : Prop := P r = snd_at r ∧ rcvdc P (next_rank N r) = 0.
Definition waits_to_recv (P : Z → Z) (r : Z) : Prop := P r = rcv_at r ∧ sentc P (prev_rank N r) = 0.
Lemma count_range a n : 0 ≤ ge a n ≤ 1 ∧ (ge a n = 1 ↔ a ≤ n).
Proof. unfold ge. destruct (Z.leb_spec a n); lia. Qed.
Lemma stuck_rank g P r :
  bbar g P → 0 ≤ r < N → b_moves g ∨ P r = 5 ∨ (waits_to_send P r ∧ chan g r = []) ∨ waits_to_recv P r.
Proof.
  intros Hi Hr. destruct (bi_ranks _ _ Hi r Hr) as [_ Hn]. pose proof (positions r) as (Hsp & Hvp & _).
  destruct (decide (P r = 5)) as [|Hne]; [tauto|].
  destruct (decide (P r = snd_at r)) as [HP|Hns]; [|destruct (decide (P r = rcv_at r)) as [HP|Hnv]].
  - destruct (decide (length (chan g r) < cap)%nat) as [Hlt|Hge].
    { left. destruct (call_moves g P r Hi Hr ltac:(lia)) as (g' & Hg' & _); [done|lia|by exists g']. }
    right; right; left. destruct (bi_stream _ _ Hi r Hr) as [Hl _ Hroom].
    assert (sentc P r = 0) as Hs0 by (pose proof (count_range (snd_at r + 1) (P r)); unfold sentc; lia).
    pose proof (count_range (rcv_at (next_rank N r) + 1) (P (next_rank N r))) as [Hrng _]. unfold waits_to_send, rcvdc in *.
    split; [split; [done|lia]|]. apply length_zero_iff_nil. lia.
  - destruct (decide (chan g (prev_rank N r) = [])) as [Hch|Hch].
    + right; right; right. split; [done|]. destruct (bi_stream _ _ Hi _ (prev_range N HN r)) as [Hl _ _].
      rewrite Hch, (next_prev N HN r Hr) in Hl. cbn in Hl.
      assert (rcvdc P r = 0) by (pose proof (count_range (rcv_at r + 1) (P r)); unfold rcvdc; lia). lia.
    + left. destruct (call_moves g P r Hi Hr ltac:(lia)) as (g' & Hg' & _); [lia|done|by exists g'].
  - left. destruct (call_moves g P r Hi Hr ltac:(lia)) as (g' & Hg' & _); [lia..|by exists g'].
Qed.

(** The right neighbour of a rank that waits to send receives now, and takes the
    byte by hand-over, or it is even and waits to send as well. *)
Lemma send_waits g P r :
  bbar g P → 0 ≤ r < N → waits_to_send P r → chan g r = [] →
  b_moves g ∨ (waits_to_send P (next_rank N r) ∧ chan g (next_rank N r) = [] ∧ even_rank (next_rank N r) = true).
Proof.
  intros Hi Hr [HP Hv] Hch. pose proof (next_range N HN r) as Hnr. set (n := next_rank N r) in *.
  destruct (bi_ranks _ _ Hi n Hnr) as [Hcn Hnn]. destruct (bi_ranks _ _ Hi r Hr) as [Hc _].
  pose proof (positions n) as (Hsn & Hvn & Heven). pose proof (count_range (rcv_at n + 1) (P n)) as [_ Hrc]. unfold rcvdc in Hv.
  destruct (stuck_rank g P n Hi Hnr) as [|[HPn|[[Hw Hchn]|[HPn _]]]]; [by left|lia|..].
  - right. split; [done|]. split; [done|]. apply Heven. destruct Hw as [Hw _]. lia.
  - left. pose proof (positions r) as (? & ? & _). enough (is_Some (handover N g r)) as [g' Hg'].
    { exists g', (BHandover r). unfold blstep. by rewrite bool_decide_eq_true_2. }
    unfold handover. fold n. rewrite Hc, Hcn, Hch.
    destruct (calls r (P r)) as [|k _ -> _| |]; [lia..| |lia|lia].
    destruct (calls n (P n)) as [| |k' _ -> _|]; [lia..| |lia]. cbn. by rewrite (Hsr r Hr), (Hsl n Hnr).
Qed.
Lemma send_waits_moves g P r :
  bbar g P → 0 ≤ r < N → waits_to_send P r → chan g r = [] → b_moves g.
Proof.
  intros Hi Hr Hw Hch.
  assert (Hone : ∀ q, 0 ≤ q < N → waits_to_send P q → chan g q = [] → even_rank q = true → b_moves g).
  { intros q Hq Hwq Hcq He. destruct (send_waits g P q Hi Hq Hwq Hcq) as [|(Hwn & Hcn & He')]; [done|].
    rewrite (even_next N HN q Hq He He') in Hwn, Hcn.
    destruct (send_waits g P 0 Hi ltac:(lia) Hwn Hcn) as [|(_ & _ & He'')]; [done|].
    rewrite next_cases in He'' by lia. destruct (Z.eqb_spec 0 (N - 1)); [lia|done]. }
  destruct (send_waits g P r Hi Hr Hw Hch) as [|(Hwn & Hcn & He)]; [done|].
  apply (Hone (next_rank N r)); try done. by apply next_range.
Qed.
(** The left neighbour of a rank that waits to receive waits to send, or it is
    odd and waits to receive as well; and its own left neighbour is even. *)
Lemma recv_waits g P r :
  bbar g P → 0 ≤ r < N → waits_to_recv P r →
  b_moves g ∨ (waits_to_recv P (prev_rank N r) ∧ even_rank (prev_rank N r) = false).
Proof.
  intros Hi Hr [HP Hv]. pose proof (prev_range N HN r) as Hpr. set (p := prev_rank N r) in *.
  pose proof (positions p) as (Hsn & Hvn & Heven). pose proof (count_range (snd_at p + 1) (P p)) as [_ Hsc]. unfold sentc in Hv.
  destruct (stuck_rank g P p Hi Hpr) as [|[HPn|[[Hw Hchn]|Hw]]]; [by left|lia|..].
  - left. by eapply send_waits_moves.
  - right. split; [done|]. apply not_true_is_false. rewrite <- Heven. destruct Hw as [Hw _]. lia.
Qed.
Lemma recv_waits_moves g P r : bbar g P → 0 ≤ r < N → waits_to_recv P r → b_moves g.
Proof.
  intros Hi Hr Hw. destruct (recv_waits g P r Hi Hr Hw) as [|(Hwp & He)]; [done|]. pose proof (prev_range N HN r) as Hpr.
  destruct (recv_waits g P _ Hi Hpr Hwp) as [|(_ & He')]; [done|]. by rewrite (odd_prev N HN _ Hpr He) in He'.
Qed.
Definition b_finished (g : @bstate F) : Prop := ∀ r, 0 ≤ r < N → bcode g r = Ret 0.
Lemma done_or_moves g P : bbar g P → b_finished g ∨ b_moves g.
Proof.
  intros Hi. destruct (decide (Forall (fun r => P r = 5) (seqZ 0 N))) as [Hall|Hex].
  - left. intros r Hr. rewrite Forall_forall in Hall. specialize (Hall r). rewrite elem_of_seqZ in Hall.
    destruct (bi_ranks _ _ Hi r Hr) as [-> _]. by rewrite Hall, b_at_5.
  - right. apply not_Forall_Exists, Exists_exists in Hex as (r & Hr & HP); [|solve_decision].
    rewrite elem_of_seqZ in Hr. destruct (stuck_rank g P r Hi ltac:(lia)) as [|[|[[Hw Hch]|Hw]]]; [done..| |].
    + by apply (send_waits_moves g P r Hi).
    + by apply (recv_waits_moves g P r Hi).
Qed.

(** * Who has arrived *)

Lemma at_most_called g P r : bbar g P → 0 ≤ r < N → 1 ≤ P r → b_entered N sr sl g r.
Proof.
  intros Hi Hr HP. destruct (bi_ranks _ _ Hi r Hr) as [Hc Hn]. unfold b_entered. rewrite Hc.
  change (barrier_code N sr sl r) with (b_at r 0). destruct (calls r 0) as [k _ -> _|k H0 _ _|k H0 _ _|t k H0 _ _];
    [lia| |pose proof (positions r); lia..].
  destruct (decide (P r = 5)) as [->|]; [by rewrite b_at_5|].
  destruct (calls r (P r)) as [k' H0 _ _|k' _ -> _|k' _ -> _|t k' _ -> _]; [lia|lia|done..].
Qed.
Lemma left_with g P r v : bbar g P → 0 ≤ r < N → bcode g r = Ret v → P r = 5 ∧ v = 0.
Proof.
  intros Hi Hr. destruct (bi_ranks _ _ Hi r Hr) as [-> Hn]. destruct (decide (P r = 5)) as [->|].
  - rewrite b_at_5. by intros [= <-].
  - by destruct (calls r (P r)) as [k' _ -> _|k' _ -> _|k' _ -> _|t k' _ -> _]; [lia|..].
Qed.
Lemma arrived g P r v :
  bbar g P → 0 ≤ r < N → bcode g r = Ret v →
  v = 0 ∧ b_entered N sr sl g (prev_rank N r) ∧ (cap = O → b_entered N sr sl g (next_rank N r)).
Proof.
  intros Hi Hr Hv. destruct (left_with g P r v Hi Hr Hv) as [HP ->]. split; [done|]. split.
  - apply (at_most_called g P); [done|by apply prev_range|].
    destruct (bi_stream _ _ Hi _ (prev_range N HN r)) as [Hl _ _]. rewrite (next_prev N HN r Hr) in Hl.
    pose proof (positions r) as (? & ? & _). pose proof (positions (prev_rank N r)) as (? & _).
    pose proof (count_range (rcv_at r + 1) (P r)). pose proof (count_range (snd_at (prev_rank N r) + 1) (P (prev_rank N r))).
    unfold sentc, rcvdc in Hl. lia.
  - intros Hcap. apply (at_most_called g P); [done|by apply next_range|].
    destruct (bi_stream _ _ Hi r Hr) as [Hl _ Hroom].
    pose proof (positions r) as (? & ? & _). pose proof (positions (next_rank N r)) as (? & ? & _).
    pose proof (count_range (snd_at r + 1) (P r)). pose proof (count_range (rcv_at (next_rank N r) + 1) (P (next_rank N r))).
    unfold sentc, rcvdc in Hl. lia.
Qed.

(** * The right neighbour may be missing *)

Section buffered.
Context (mem0 : Z → Z → F) (Hcap : (1 ≤ cap)%nat).
Definition reaches (P : Z → Z) : Prop :=
  ∃ g, rtc (bstep add N cap) (blocking_barrier N sr sl mem0) g ∧ bbar g P.
(** [P'] is [P] but for rank [r], which has made [n] calls. *)
Definition brought (r n : Z) (P P' : Z → Z) : Prop := P' r = n ∧ ∀ e, e ≠ r → P' e = P e.
Lemma reach_call P r :
  reaches P → 0 ≤ r < N → P r < 5 → (P r = snd_at r → P (next_rank N r) ≤ 1) → (P r = rcv_at r → sentc P (prev_rank N r) = 1) →
  reaches (<[r := P r + 1]> P).
Proof.
  intros (g & Hreach & Hi) Hr HP Hs Hv. pose proof (positions r) as (? & ? & _).
  destruct (call_moves g P r Hi Hr HP) as (g' & Hg' & Hi'); [| |exists g'; split; [by eapply rtc_r|done]].
  - intros HPs. destruct (bi_stream _ _ Hi r Hr) as [Hl _ _]. specialize (Hs HPs).
    pose proof (positions (next_rank N r)) as (? & ? & _).
    assert (sentc P r = 0) by (pose proof (count_range (snd_at r + 1) (P r)); unfold sentc; lia).
    pose proof (count_range (rcv_at (next_rank N r) + 1) (P (next_rank N r))). unfold rcvdc in Hl. lia.
  - intros HPv Hch. destruct (bi_stream _ _ Hi _ (prev_range N HN r)) as [Hl _ _].
    rewrite Hch, (next_prev N HN r Hr), (Hv HPv) in Hl. cbn in Hl.
    pose proof (count_range (rcv_at r + 1) (P r)). unfold rcvdc in Hl. lia.
Qed.
(** A rank whose left neighbour's byte is there, and whose right one has done
    nothing, makes as many calls as wanted. *)
Lemma reach_calls P r n :
  reaches P → 0 ≤ r < N → P r = 0 → 0 ≤ n ≤ 5 → P (next_rank N r) ≤ 1 →
  (n ≤ rcv_at r ∨ sentc P (prev_rank N r) = 1) → ∃ P', reaches P' ∧ brought r n P P'.
Proof.
  intros HR Hr HP [Hn0 Hn5] Hnext. revert Hn5. pattern n. revert n Hn0. apply natlike_ind.
  { intros _ _. exists P. by split. }
  intros n Hn IH Hn5 Hv. destruct (IH ltac:(lia) ltac:(destruct Hv; [left; lia|by right])) as (P1 & HR1 & HP1 & Ho1).
  exists (<[r := P1 r + 1]> P1). split.
  - apply reach_call; [done|done|lia| |].
    + intros _. rewrite Ho1; [done|]. by apply next_ne.
    + intros Hrv. destruct Hv as [Hv|Hv]; [lia|]. unfold sentc. rewrite Ho1; [done|]. by apply prev_ne.
  - split; [by rewrite fn_lookup_insert, HP1|]. intros e He. rewrite fn_lookup_insert_ne by done. by apply Ho1.
Qed.
(** With room in the streams, rank 0 returns while rank 1 has not been scheduled. *)
Lemma reach_one_sided : 3 ≤ N → ∃ P, reaches P ∧ P 0 = 5 ∧ P 1 = 0.
Proof.
  intros HN3. assert (HR0 : reaches (fun _ => 0)) by (eexists; split; [constructor|apply bbar_init]).
  assert (Hsent : ∃ P, reaches P ∧ P 0 = 0 ∧ P 1 = 0 ∧ sentc P (N - 1) = 1).
  { assert (Hlast : ∀ P, reaches P → P 0 = 0 → P 1 = 0 → P (N - 1) = 0 → (snd_at (N - 1) + 1 ≤ rcv_at (N - 1) ∨ sentc P (N - 2) = 1) →
      ∃ P', reaches P' ∧ P' 0 = 0 ∧ P' 1 = 0 ∧ sentc P' (N - 1) = 1).
    { intros P HR H0 H1 Hl Hs. pose proof (positions (N - 1)) as (? & ? & _).
      destruct (reach_calls P (N - 1) (snd_at (N - 1) + 1) HR) as (P' & HR' & HP' & Ho'); [lia|done|lia|..].
      - rewrite next_cases, Z.eqb_refl by lia. lia.
      - rewrite prev_cases by lia. destruct (Z.eqb_spec (N - 1) 0); [lia|]. by replace (N - 1 - 1) with (N - 2) by lia.
      - exists P'. split; [done|]. rewrite !Ho' by lia. split_and!; [done..|]. apply count_range. lia. }
    destruct (even_rank (N - 1)) eqn:He.
    - apply (Hlast (fun _ => 0)); [done..|]. left. unfold snd_at, rcv_at. rewrite He. lia.
    - assert (HN4 : 4 ≤ N). { destruct (Z.eq_dec N 3) as [->|]; [done|lia]. }
      assert (Hpe : even_rank (N - 2) = true).
      { pose proof (odd_prev N HN (N - 1) ltac:(lia) He) as Hp. rewrite prev_cases in Hp by lia.
        destruct (Z.eqb_spec (N - 1) 0); [lia|]. by replace (N - 1 - 1) with (N - 2) in Hp by lia. }
      destruct (reach_calls (fun _ => 0) (N - 2) 2 HR0) as (P' & HR' & HP' & Ho'); [lia|done|lia..|left; unfold rcv_at; by rewrite Hpe|].
      apply (Hlast P'); [done|by rewrite Ho' by lia..|]. right. apply count_range. unfold snd_at. rewrite Hpe, HP'. lia. }
  destruct Hsent as (P & HR & H0 & H1 & Hs).
  assert (Hn : next_rank N 0 = 1 ∧ prev_rank N 0 = N - 1).
  { rewrite next_cases, prev_cases by lia. destruct (Z.eqb_spec 0 (N - 1)); [lia|done]. }
  destruct (reach_calls P 0 5 HR) as (P' & HR' & HP' & Ho'); [lia|done|lia|rewrite (proj1 Hn); lia|right; by rewrite (proj2 Hn)|].
  exists P'. split; [done|]. split; [done|]. by rewrite Ho' by lia.
Qed.
Lemma one_sided : 3 ≤ N → ∃ g, rtc (bstep add N cap) (blocking_barrier N sr sl mem0) g ∧ bcode g 0 = Ret 0 ∧ ¬ b_entered N sr sl g 1.
Proof.
  intros HN3. destruct (reach_one_sided HN3) as (P & (g & Hreach & Hi) & H0 & H1). exists g. split; [done|].
  destruct (bi_ranks _ _ Hi 0 ltac:(lia)) as [Hc0 _]. destruct (bi_ranks _ _ Hi 1 ltac:(lia)) as [Hc1 _].
  split; [by rewrite Hc0, H0, b_at_5|]. intros Hne. apply Hne. by rewrite Hc1, H1.
Qed.
End buffered.
End blocking.

(** C38. On a backend whose receives block, for any number of ranks, interleaving
    and stream capacity [cap]: a rank leaves the barrier only with 0 and after its
    left neighbour has entered it, and, when the streams hold nothing, after its
    right neighbour has entered it too; the barrier is never stuck until every
    rank has returned 0, and no execution has more steps than the work left. With
    room for one message the right neighbour is not waited for: with three ranks
    or more, rank 0 can return while rank 1 has not been scheduled at all. *)
Theorem tcp_barrier_left {F} (add : F → F → F) (N : Z) (cap : nat) (sr sl : Z → BufferHandle)
    (mem0 : Z → Z → F) (g : bstate) :
  2 ≤ N →
  (∀ r, 0 ≤ r < N → tcp_ok (sr r) 1 0 = true) → (∀ r, 0 ≤ r < N → tcp_ok (sl r) 1 0 = true) →
  rtc (bstep add N cap) (blocking_barrier N sr sl mem0) g →
  (∀ r v, 0 ≤ r < N → bcode g r = Ret v →
     v = 0 ∧ b_entered N sr sl g (prev_rank N r) ∧ (cap = O → b_entered N sr sl g (next_rank N r))) ∧
  (b_finished N g ∨ ∃ g', bstep add N cap g g') ∧
  (∀ n g', nsteps (bstep add N cap) n g g' → Z.of_nat n ≤ bwork N g) ∧
  ((1 ≤ cap)%nat → 3 ≤ N → ∃ g', rtc (bstep add N cap) (blocking_barrier N sr sl mem0) g' ∧
     bcode g' 0 = Ret 0 ∧ ¬ b_entered N sr sl g' 1).
Proof.
  intros HN Hsr Hsl Hs. destruct (bbar_reach add N cap HN sr sl Hsr Hsl mem0 g Hs) as (P & Hi).
  split; [|split; [|split]].
  - intros r v Hr Hv. by eapply arrived.
  - exact (done_or_moves add N cap HN sr sl Hsr Hsl g P Hi).
  - intros n g'. by apply blocking_terminates.
  - intros Hcap HN3. by apply (one_sided add N cap HN sr sl Hsr Hsl mem0 Hcap).
Qed.

(** * A witness: three ranks over streams that hold nothing *)

Definition demo_start : bstate := blocking_barrier 3 (fun _ => scratch) (fun _ => scratch) (fun _ _ => 0).
Definition demo_blocking_run : list blabel := bschedule Z.add 3 0 (b_labels 3) 200 demo_start.
Definition demo_blocking : bstate := default demo_start (blsteps Z.add 3 0 demo_blocking_run demo_start).
Lemma demo_blocking_reach : rtc (bstep Z.add 3 0) demo_start demo_blocking.
Proof.
  unfold demo_blocking. destruct (blsteps _ _ _ demo_blocking_run _) as [g|] eqn:Hg; cbn [default]; [|constructor].
  by apply (blsteps_rtc _ _ _ demo_blocking_run).
Qed.
Lemma demo_blocking_done : bcode demo_blocking 0 = Ret 0.
Proof. vm_compute. reflexivity. Qed.
Lemma tcp_barrier_left_witness :
  b_entered 3 (fun _ => scratch) (fun _ => scratch) demo_blocking 2 ∧
  b_entered 3 (fun _ => scratch) (fun _ => scratch) demo_blocking 1 ∧
  ∃ g', rtc (bstep Z.add 3 1) demo_start g' ∧ bcode g' 0 = Ret 0 ∧ ¬ b_entered 3 (fun _ => scratch) (fun _ => scratch) g' 1.
Proof.
  destruct (proj1 (tcp_barrier_left Z.add 3 0 (fun _ => scratch) (fun _ => scratch) (fun _ _ => 0) demo_blocking
    ltac:(lia) (fun _ _ => eq_refl) (fun _ _ => eq_refl) demo_blocking_reach) 0 0 ltac:(lia) demo_blocking_done)
    as (_ & H2 & H1).
  split; [exact H2|]. split; [exact (H1 eq_refl)|].
  apply (tcp_barrier_left Z.add 3 1 (fun _ => scratch) (fun _ => scratch) (fun _ _ => 0) demo_start
    ltac:(lia) (fun _ _ => eq_refl) (fun _ _ => eq_refl) (rtc_refl _ _)); lia.
Defined.
