(* ===== verification/Threads.v ===== *)
(** Two threads of one process: their calls in any order, and the rule that
    proves them apart. *)
From S2P Require Import Prelude Prog Sys.

(** A call of the spawned thread is marked true, one of the spawning thread
    false. *)
Definition duo_sig : sig := Sig (bool * sys_op) (fun o => sys_ans o.2).
Abbreviation duoM := (prog duo_sig).
Definition call_of (b : bool) (o : sys_op) : op duo_sig := (b, o).

(** The rest of one thread alone. *)
Fixpoint alone {A} (b : bool) (p : sysM A) : duoM A :=
  match p with
  | Ret a => Ret a
  | Do o k => Do (call_of b o) (fun x => alone b (k x))
  end.
(** Both until both have ended: at call [n] of the two together, the schedule
    says whose it is; a thread that has ended leaves the rest to the other. *)
Fixpoint par {A B} (sched : nat → bool) (p : sysM A) : sysM B → nat → duoM (A * B) :=
  fix go (q : sysM B) (n : nat) : duoM (A * B) :=
    match p with
    | Ret a => b <- alone false q ;; Ret (a, b)
    | Do o k =>
      match q with
      | Ret b => a <- alone true p ;; Ret (a, b)
      | Do o' k' =>
        if sched n then Do (call_of true o) (fun x => par sched (k x) q (S n))
        else Do (call_of false o') (fun x => go (k' x) (S n))
      end
    end.

(** Each thread's calls act on its own part of the ledger; what a call makes is
    new to both parts and to the rest [L0], which neither touches.  A thread that
    uses or releases what is not in its own part leaves the mark of misuse. *)
Definition duo_env (L0 : ledger) : envspec duo_sig (ledger * ledger) := fun o s x s' =>
  let mine (p : ledger * ledger) := if o.1 then p.1 else p.2 in
  let other (p : ledger * ledger) := if o.1 then p.2 else p.1 in
  ledger_env o.2 (mine s) x (mine s') ∧ other s' = other s ∧
  Forall (fun r => fresh (r_key r) (other s ++ L0)) (created o.2 x).

Definition misused (k : key) : Prop := k = (RMisuse, 0).
(** The two parts have no key in common with each other or with the rest. *)
Record apart (L0 : ledger) (s : ledger * ledger) : Prop := {
  ap_disjoint r r' : r ∈ s.1 → r' ∈ s.2 → ¬ misused (r_key r) → r_key r ≠ r_key r';
  ap_first r : r ∈ s.1 → ¬ misused (r_key r) → fresh (r_key r) L0;
  ap_second r : r ∈ s.2 → ¬ misused (r_key r) → fresh (r_key r) L0;
}.
Lemma effect_elem o x L r : r ∈ effect o x L → r ∈ created o x ∨ r ∈ L ∨ misused (r_key r).
Proof.
  assert (Hm : ∀ L', r ∈ misuse :: L' → r ∈ L' ∨ misused (r_key r)).
  { intros L' [->|Hr]%elem_of_cons; [by right|by left]. }
  unfold effect. intros [Hr|Hr]%elem_of_app; [by left|]. destruct (released o L) as [k|].
  - assert (Hr' : r ∈ (if decide (Forall (live L) (used o)) then L else misuse :: L) ∨ misused (r_key r)).
    { revert Hr. unfold release. case_decide; [|apply Hm]. unfold drop_key.
      intros [_ Hr]%list_elem_of_filter. by left. }
    destruct Hr' as [Hr'|]; [|by right; right]. case_decide; [by right; left|].
    apply Hm in Hr'. tauto.
  - case_decide; [by right; left|]. apply Hm in Hr. tauto.
Qed.
Lemma apart_step L0 o s x s' : apart L0 s → duo_env L0 o s x s' → apart L0 s'.
Proof.
  intros [Hd H1 H2] (Henv & Hother & Hnew). destruct o as [b o], s as [s1 s2], s' as [s1' s2'].
  destruct Henv as (_ & _ & _ & He). cbn in *. rewrite Forall_forall in Hnew. unfold fresh in Hnew.
  destruct b; cbn in *; subst.
  - split; cbn.
    + intros r r' [Hr|[Hr|Hr]]%effect_elem Hr' Hm; [|by eapply Hd|done].
      specialize (Hnew r Hr). rewrite Forall_app, !Forall_forall in Hnew. by apply (proj1 Hnew r').
    + intros r [Hr|[Hr|Hr]]%effect_elem Hm; [|by eapply H1|done].
      specialize (Hnew r Hr). by apply Forall_app in Hnew as [_ ?].
    + done.
  - split; cbn.
    + intros r r' Hr [Hr'|[Hr'|Hr']]%effect_elem Hm; [|by eapply Hd|].
      * specialize (Hnew r' Hr'). rewrite Forall_app, !Forall_forall in Hnew. by apply not_eq_sym, (proj1 Hnew r).
      * intros He. apply Hm. by rewrite He.
    + done.
    + intros r [Hr|[Hr|Hr]]%effect_elem Hm; [|by eapply H2|done].
      specialize (Hnew r Hr). by apply Forall_app in Hnew as [_ ?].
Qed.

Lemma wp_alone_first {A} L0 (p : sysM A) Q s :
  wp ledger_env p Q s.1 → apart L0 s →
  wp (duo_env L0) (alone true p) (fun a s' => Q a s'.1 ∧ s'.2 = s.2 ∧ apart L0 s') s.
Proof.
  revert s. induction p as [a|o k IH]; intros s Hw Ha; [done|].
  intros x s' Hs. pose proof (apart_step _ _ _ _ _ Ha Hs) as Ha'. destruct Hs as (He & Ho & _). cbn in He, Ho.
  eapply wp_mono; [|by apply IH; [apply Hw|]]. intros a t (HQ & Ht & Hap). by rewrite Ht.
Qed.
Lemma wp_alone_second {A} L0 (p : sysM A) Q s :
  wp ledger_env p Q s.2 → apart L0 s →
  wp (duo_env L0) (alone false p) (fun a s' => Q a s'.2 ∧ s'.1 = s.1 ∧ apart L0 s') s.
Proof.
  revert s. induction p as [a|o k IH]; intros s Hw Ha; [done|].
  intros x s' Hs. pose proof (apart_step _ _ _ _ _ Ha Hs) as Ha'. destruct Hs as (He & Ho & _). cbn in He, Ho.
  eapply wp_mono; [|by apply IH; [apply Hw|]]. intros a t (HQ & Ht & Hap). by rewrite Ht.
Qed.
(** What each thread establishes alone, both establish together, in every
    order of their calls. *)
Lemma wp_par {A B} L0 sched (p : sysM A) (q : sysM B) Q1 Q2 n s :
  wp ledger_env p Q1 s.1 → wp ledger_env q Q2 s.2 → apart L0 s →
  wp (duo_env L0) (par sched p q n) (fun ab s' => Q1 ab.1 s'.1 ∧ Q2 ab.2 s'.2 ∧ apart L0 s') s.
Proof.
  revert q n s. induction p as [a|o k IHp]; intros q n s H1 H2 Ha.
  - destruct q as [b|o' k']; [done|]. cbn [par]. eapply wp_bind_2; [by apply (wp_alone_second L0 (Do o' k') Q2 s H2)|].
    intros b s' (HQ & Hs & Ha'). cbn in *. by rewrite Hs.
  - revert n s H1 H2 Ha. induction q as [b|o' k' IHq]; intros n s H1 H2 Ha.
    + cbn [par]. eapply wp_bind_2; [by apply (wp_alone_first L0 (Do o k) Q1 s H1)|].
      intros a s' (HQ & Hs & Ha'). cbn in *. by rewrite Hs.
    + cbn [par]. destruct (sched n).
      * intros x s' Hs. pose proof (apart_step _ _ _ _ _ Ha Hs) as Ha'. destruct Hs as (He & Ho & _). cbn in He, Ho.
        apply IHp; [by apply H1|by rewrite Ho|done].
      * intros x s' Hs. pose proof (apart_step _ _ _ _ _ Ha Hs) as Ha'. destruct Hs as (He & Ho & _). cbn in He, Ho.
        apply IHq; [by rewrite Ho|by apply H2|done].
Qed.
