(* ===== verification/World.v ===== *)
(** Phase 3, [world.cpp]: joining the ring.  One thread listens for the left
    neighbour while the other connects to the right one. *)
From stdpp Require Import strings.
From S2P Require Import Prelude Prog Sys OobSpec RdmaRes Transport TransportSpec TwoTransports KvMainSpec Threads.

Section world.
Context {T : Type} `{Transport T}.

(** The spawned thread; its value is [listen_ret]. *)
Definition listen_thread (tl : T) (port : Z) : sysM (Z * T) :=
  let! (rc, t) := t_listen tl port in
  if bool_decide (rc ≠ 0) then Ret (-1, t) else
  let! (rc, t) := t_accept t in
  if bool_decide (rc ≠ 0) then Ret (-1, t) else Ret (0, t).
(** [n] attempts to connect, 100 ms apart; the value is [connect_ret]. *)
Fixpoint connect_loop (n : nat) (tr : T) (host : option string) (port : Z) : sysM (Z * T) :=
  match n with
  | O => Ret (-1, tr)
  | S n =>
    let! (rc, t) := t_connect tr host port in
    if bool_decide (rc = 0) then Ret (0, t)
    else sys (c_usleep 100000) ;; connect_loop n t host port
  end.
Definition connect_attempts : nat := 600.
(** [tl] and [tr] are the two new transports, [left] and [right], [host_list] has an entry per
    rank, [w_null] says that [w] is nullptr. *)
Definition world_init (sched : nat → bool) (w_null : bool) (tl tr : T) (rank size : Z)
    (host_list : list string) (base_port : Z) : duoM (Z * T * T) :=
  if w_null then Ret (-1, tl, tr) else
  let rank_right := Z.rem (rank + 1) size in
  rs <- par sched (listen_thread tl (base_port + rank))
          (connect_loop connect_attempts tr (host_list !! Z.to_nat rank_right) (base_port + rank_right)) 0 ;;
  let '((listen_ret, tl'), (connect_ret, tr')) := rs in
  if bool_decide (listen_ret ≠ 0 ∨ connect_ret ≠ 0) then Ret (-1, tl', tr') else Ret (0, tl', tr').
End world.

Section spec.
Context {T : Type} `{TransportLaws T}.
Abbreviation holds := (holds_by t_owns).

Lemma listen_thread_holds (tl : T) port L0 L :
  holds Idle tl [] L0 L →
  wp ledger_env (listen_thread tl port) (fun '(rc, t) L' =>
    rc = 0 ∧ holds Connected t [] L0 L' ∨ rc = -1 ∧ ∃ ph, holds ph t [] L0 L') L.
Proof.
  intros Ht. eapply wp_bind_2; [by apply law_listen|].
  intros [rc t] L1 [[-> H1]|[-> H1]]; [|right; eauto]. cbn [bool_decide].
  eapply wp_bind_2; [by apply law_accept|].
  intros [rc t'] L2 [[-> H2]|[-> H2]]; [left|right]; eauto.
Qed.
Lemma connect_loop_holds n (tr : T) host port L0 L :
  holds Idle tr [] L0 L →
  wp ledger_env (connect_loop n tr host port) (fun '(rc, t) L' =>
    rc = 0 ∧ holds Connected t [] L0 L' ∨ rc = -1 ∧ ∃ ph, holds ph t [] L0 L') L.
Proof.
  revert tr L. induction n as [|n IH]; intros tr L Ht; cbn [connect_loop]; [right; eauto|].
  eapply wp_bind_2; [by apply law_connect|].
  intros [rc t] L1 [[-> H1]|[-> H1]]; [left; eauto|].
  apply wp_step, wp_neutral; [constructor|done|done|]. intros _ _. by apply IH.
Qed.

(** What the two threads hold apart, the process holds together once they are
    joined. *)
Lemma joined pl (tl : T) pr (tr : T) L0 s :
  holds pl tl [] [] s.1 → holds pr tr [] [] s.2 → apart L0 s →
  two pl tl [] pr tr [] [] L0 (s.1 ++ s.2 ++ L0).
Proof.
  destruct s as [s1 s2]. intros (l1 & Hl1 & H1 & Hnd1 & _) (l2 & Hl2 & H2 & Hnd2 & _) [Hd Hf1 Hf2]. cbn in *.
  rewrite app_nil_r in H1, H2. split; [constructor|]. exists l1, l2. split; [done|]. split; [done|].
  assert (Hm1 : ∀ r, r ∈ l1 → ¬ misused (r_key r)).
  { intros r Hr Hm. pose proof (law_clean _ _ _ _ Hl1) as Hc. rewrite Forall_forall in Hc. by apply (Hc r Hr); rewrite Hm. }
  assert (Hm2 : ∀ r, r ∈ l2 → ¬ misused (r_key r)).
  { intros r Hr Hm. pose proof (law_clean _ _ _ _ Hl2) as Hc. rewrite Forall_forall in Hc. by apply (Hc r Hr); rewrite Hm. }
  cbn [app]. split; [rewrite H1, H2; solve_Permutation|]. split.
  - rewrite fmap_app. apply NoDup_app. split; [done|]. split; [|done].
    intros k (r & -> & Hr)%list_elem_of_fmap (r' & Hk & Hr')%list_elem_of_fmap.
    apply (Hd r' r); [by rewrite H1|by rewrite H2|by apply Hm1|done].
  - apply Forall_app. split; apply Forall_forall; intros r Hr.
    + apply Hf2; [by rewrite H2|by apply Hm2].
    + apply Hf1; [by rewrite H1|by apply Hm1].
Qed.
(** In every order of the two threads' calls, joining the ring ends with the two
    transports holding what they hold, apart from each other and from everything
    else, and with 0 exactly when both are connected. *)
Lemma world_init_holds sched null (tl tr : T) rank size hosts port L0 :
  t_owns Idle tl [] [] → t_owns Idle tr [] [] →
  wp (duo_env L0) (world_init sched null tl tr rank size hosts port) (fun '(rc, l, r) s =>
    ∃ pl pr, two pl l [] pr r [] [] L0 (s.1 ++ s.2 ++ L0) ∧
      (rc = 0 ∧ pl = Connected ∧ pr = Connected ∨ rc = -1)) ([], []).
Proof.
  intros Hl Hr.
  assert (Hi : ∀ t : T, t_owns Idle t [] [] → holds Idle t [] [] []) by (intros t Ht; exists []; split; [done|apply own_empty]).
  assert (Ha : apart L0 ([], [])) by (split; intros r ? ?%elem_of_nil || intros r ?%elem_of_nil; done).
  unfold world_init. destruct null.
  { exists Idle, Idle. split; [|by right]. apply (joined _ _ _ _ L0 ([], [])); auto. }
  eapply wp_bind_2.
  { eapply (wp_par L0); [apply listen_thread_holds; by apply Hi|apply connect_loop_holds; by apply Hi|exact Ha]. }
  intros [[rc1 l] [rc2 r]] s (H1 & H2 & Ha'). cbn in H1, H2.
  case_bool_decide as Hrc.
  - destruct H1 as [[_ H1]|(_ & pl & H1)], H2 as [[_ H2]|(_ & pr & H2)]; do 2 eexists; (split; [by eapply joined|by right]).
  - destruct H1 as [[_ H1]|(-> & _)]; [|destruct Hrc; left; lia].
    destruct H2 as [[_ H2]|(-> & _)]; [|destruct Hrc; right; lia].
    exists Connected, Connected. split; [by apply joined|by left].
Qed.
End spec.
