(* ===== verification/AllreduceBench.v ===== *)
(** [allreduce_bench.cpp]: the benchmark of the collective, and the collective's
    calls carried out on two transports and the process memory. *)
From stdpp Require Import strings.
From S2P Require Import Prelude Prog Libc Sys Double BenchUtils Transport KvMain Float32 RingAllreduce Barrier.

Module Bench.

Record Config := mkConfig {
  c_rank : Z; world : Z; base_port : Z; host_list : list string; count : Z; iters : Z; is_rdma : bool; csv : bool }.
Definition config0 : Config := mkConfig 0 0 12345 [] 1024 100 false false.
Definition set_iters v c := mkConfig (c_rank c) (world c) (base_port c) (host_list c) (count c) v (is_rdma c) (csv c).
Definition set_count v c := mkConfig (c_rank c) (world c) (base_port c) (host_list c) v (iters c) (is_rdma c) (csv c).
Definition set_rdma c := mkConfig (c_rank c) (world c) (base_port c) (host_list c) (count c) (iters c) true (csv c).
Definition set_csv c := mkConfig (c_rank c) (world c) (base_port c) (host_list c) (count c) (iters c) (is_rdma c) true.
(** The options after the hosts; None is the return value -1. *)
Fixpoint config_opts (args : list string) (cfg : Config) : option Config :=
  match args with
  | [] => Some cfg
  | a :: args =>
    if String.eqb a "--iters" then match args with [] => None | v :: args => config_opts args (set_iters (atoi v) cfg) end
    else if String.eqb a "--count" then match args with [] => None | v :: args => config_opts args (set_count (atoi v) cfg) end
    else if String.eqb a "--rdma" then config_opts args (set_rdma cfg)
    else if String.eqb a "--csv" then config_opts args (set_csv cfg)
    else config_opts args cfg
  end.
Definition config_parse (argv : list string) : option Config :=
  match argv with
  | _ :: r :: w :: p :: args =>
    let r := atoi r in let w := atoi w in
    if (w <=? 0) || (r <? 0) || (w <=? r) then None else
    if Z.of_nat (length args) <? w then None else
    cfg ← config_opts (drop (Z.to_nat w) args)
            (mkConfig r w (atoi p) (take (Z.to_nat w) args) (count config0) (iters config0) false false);
    if (count cfg <=? 0) || negb (Z.rem (count cfg) (world cfg) =? 0) then None else Some cfg
  | _ => None
  end.
(** What [main] does before it joins the ring: an exit status, or a
    configuration. *)
Definition main_start (argv : list string) : Z + Config :=
  if match argv with [_; a] => String.eqb a "--csv-header" | _ => false end then inl 0
  else match config_parse argv with None => inl 1 | Some cfg => inr cfg end.

(** [AlignedFloats::init]; its destructor is that of [AlignedBuf]. *)
Definition floats_init (n : Z) : sysM (Z * Z) :=
  ps <- sys c_pagesize ;;
  let ps := if ps <=? 0 then 4096 else ps in
  raw <- sys (c_posix_memalign ps (u64 (n * sizeof_float))) ;;
  match raw with None => Ret (-1, 0) | Some raw => Ret (0, raw) end.

(** A [float] of the process memory. *)
Definition load_float (a : Z) : sysM Z := d <- sys (c_load a 4) ;; Ret (le_val d).
Definition store_float (a w : Z) : sysM unit := sys (c_store a (le_bytes 4 w)).
(** [buf.p[i] = cfg.rank + 1] for all [i]. *)
Definition fill (buf : Z) (cfg : Config) : sysM unit :=
  for_unit (Z.to_nat (count cfg)) 0 (fun i =>
    store_float (buf + sizeof_float * i) (to_bits (of_int (c_rank cfg + 1)))).
Definition expect (cfg : Config) : SpecFloat.spec_float :=
  SpecFloat.SFdiv 24 128 (of_int ((1 + world cfg) * world cfg)) (of_int 2).
(** Whether every element is as expected. *)
Definition check (buf : Z) (cfg : Config) : sysM bool :=
  r <- for_ (Z.to_nat (count cfg)) 0 (fun i =>
    w <- load_float (buf + sizeof_float * i) ;;
    Ret (if differs (of_bits w) (expect cfg) then Some tt else None)) ;;
  Ret (match r with None => true | Some _ => false end).

Section bench.
Context {T : Type} `{Transport T} (pf : nat).

(** The collective's calls on [w.left] and [w.right]; None when a poll's fuel ran
    out. *)
Fixpoint on_transports {A} (tl tr : T) (p : ringM A) : sysM (option A) :=
  let t (s : side) := match s with Left => tl | Right => tr end in
  match p with
  | Ret a => Ret (Some a)
  | Do o k =>
    match o return (ring_ans o → ringM A) → (ring_ans o → sysM (option A)) → sysM (option A) with
    | recv_blocks s => fun _ go => go (t_recv_blocks (t s))
    | send_async s h len id off => fun _ go => rc <- t_send_async (t s) (Some h) len id off ;; go rc
    | recv_async s h len id off => fun _ go => rc <- t_recv_async (t s) (Some h) len id off ;; go rc
    | poll s => fun _ go =>
        r <- t_poll pf (t s) false ;;
        match r with None => Ret None | Some (rc, _) => go rc end
    | add_assign d s => fun _ go =>
        x <- load_float d ;; y <- load_float s ;; store_float d (fadd x y) ;; go tt
    end k (fun a => on_transports tl tr (k a))
  end.

(** What the body works on. *)
Record bufs := mkBufs {
  b_buf : Z; b_stage : Z; h_r : BufferHandle; h_l : BufferHandle; h_stage : BufferHandle;
  h_sr : BufferHandle; h_sl : BufferHandle }.
Definition reduce (cfg : Config) (tl tr : T) (b : bufs) : sysM (option Z) :=
  on_transports tl tr (ring_allreduce (mkWorld (c_rank cfg) (world cfg)) (h_r b) (h_l b) (h_stage b) (b_buf b) (b_stage b) (count cfg)).
Definition barrier (cfg : Config) (tl tr : T) (b : bufs) : sysM (option Z) :=
  on_transports tl tr (world_barrier (Some (mkWorld (c_rank cfg) (world cfg))) (h_sr b) (h_sl b)).

(** The timed loop; the list is None when a call failed. *)
Fixpoint timed (n : nat) (cfg : Config) (tl tr : T) (b : bufs) (i : Z) (lat : list Z) : sysM (option (option (list Z))) :=
  match n with
  | O => Ret (Some (Some lat))
  | S n =>
    fill (b_buf b) cfg ;;
    r <- barrier cfg tl tr b ;;
    match r with None => Ret None | Some rc =>
    if bool_decide (rc ≠ 0) then Ret (Some None) else
    iter_start <- time_now_ns ;;
    r <- reduce cfg tl tr b ;;
    match r with None => Ret None | Some rc =>
    if bool_decide (rc ≠ 0) then Ret (Some None) else
    if kWarmup <=? i then
      now <- time_now_ns ;;
      timed n cfg tl tr b (i + 1) (<[Z.to_nat (i - kWarmup) := time_elapsed_ns iter_start now]> lat)
    else timed n cfg tl tr b (i + 1) lat
    end end
  end.
(** The indices of the CSV row: the third is [(int)(iters * 0.99)]. *)
Definition csv_stats (lat : list Z) (n : Z) : lat_stats :=
  mkLatStats (at_ lat 0) (at_ lat (n / 2)) (at_ lat (trunc (dmul (dbl n) d099))) (at_ lat (n - 1)).
Definition row (cfg : Config) (lat : list Z) : option lat_stats :=
  if c_rank cfg =? 0 then
    Some ((if csv cfg then csv_stats else latency_stats) (sort_u64 lat) (iters cfg))
  else None.
(** From the first collective on: the exit status and rank 0's statistics. None
    is a poll out of fuel, or a vector that throws: nothing catches it, and the
    process ends there. *)
Definition body (cfg : Config) (tl tr : T) (b : bufs) : sysM (option (Z * option lat_stats)) :=
  r <- reduce cfg tl tr b ;;
  match r with None => Ret None | Some rc =>
  if bool_decide (rc ≠ 0) then Ret (Some (-1, None)) else
  ok <- check (b_buf b) cfg ;;
  if negb ok then Ret (Some (-1, None)) else
  v <- vector_new (if iters cfg <? 0 then SIZE_MAX else 8 * iters cfg) ;;
  match v with None => Ret None | Some v =>
  r <- timed (Z.to_nat (kWarmup + iters cfg)) cfg tl tr b 0 (replicate (Z.to_nat (iters cfg)) 0) ;;
  match r with
  | None => Ret None
  | Some None => vector_end v ;; Ret (Some (-1, None))
  | Some (Some lat) =>
    ok <- check (b_buf b) cfg ;;
    vector_end v ;;
    Ret (Some (if negb ok then (-1, None) else (0, row cfg lat)))
  end end end.

(** * The scopes of [main] *)

Abbreviation outcome := (sysM (option (Z * option lat_stats))).
(** The world's destructor: [right], then [left]. *)
Definition end_world (tl tr : T) (r : Z * option lat_stats) : outcome := t_close tr ;; t_close tl ;; Ret (Some r).
Definition end_arrays (tl tr : T) (buf stage : Z) (r : Z * option lat_stats) : outcome :=
  aligned_end stage ;; aligned_end buf ;; end_world tl tr r.

(** With [r_buf_h], [l_buf_h] and [stage_h] registered. *)
Definition with_scratch (cfg : Config) (tl tr : T) (buf stage : Z) (sr sl ss : ScopedBuffer)
    (out : T → T → Z * option lat_stats → outcome) : outcome :=
  let! (rc, scratch) := floats_init 16 in
  let out tl tr r := aligned_end scratch ;; out tl tr r in
  if bool_decide (rc ≠ 0) then out tl tr (-1, None) else
  let! (rc, xr, tr) := scoped_init tr scoped0 scratch (16 * sizeof_float) in
  if bool_decide (rc ≠ 0) then tr <- scoped_end tr xr ;; out tl tr (-1, None) else
  let! (rc, xl, tl) := scoped_init tl scoped0 scratch (16 * sizeof_float) in
  let out tl tr r := tl <- scoped_end tl xl ;; tr <- scoped_end tr xr ;; out tl tr r in
  if bool_decide (rc ≠ 0) then out tl tr (-1, None) else
  r <- body cfg tl tr (mkBufs buf stage (sb_h sr) (sb_h sl) (sb_h ss) (sb_h xr) (sb_h xl)) ;;
  match r with None => Ret None | Some r => out tl tr r end.
(** With the two arrays allocated and the data written. *)
Definition with_arrays (cfg : Config) (tl tr : T) (buf stage : Z) : outcome :=
  let chunk_bytes := u64 (Z.quot (count cfg) (world cfg) * sizeof_float) in
  let out tl tr r := end_arrays tl tr buf stage r in
  let bytes := u64 (count cfg * sizeof_float) in
  let! (rc, sr, tr) := scoped_init tr scoped0 buf bytes in
  let out tl tr r := tr <- scoped_end tr sr ;; out tl tr r in
  if bool_decide (rc ≠ 0) then out tl tr (-1, None) else
  let! (rc, sl, tl) := scoped_init tl scoped0 buf bytes in
  let out tl tr r := tl <- scoped_end tl sl ;; out tl tr r in
  if bool_decide (rc ≠ 0) then out tl tr (-1, None) else
  let! (rc, ss, tl) := scoped_init tl scoped0 stage (u64 (2 * chunk_bytes)) in
  let out tl tr r := tl <- scoped_end tl ss ;; out tl tr r in
  if bool_decide (rc ≠ 0) then out tl tr (-1, None) else
  with_scratch cfg tl tr buf stage sr sl ss out.
(** From [world_init]'s return on; [joined] is its return value. *)
Definition main_rest (cfg : Config) (joined : Z) (tl tr : T) : outcome :=
  if bool_decide (joined ≠ 0) then end_world tl tr (-1, None) else
  let! (rc, buf) := floats_init (count cfg) in
  if bool_decide (rc ≠ 0) then end_arrays tl tr buf 0 (-1, None) else
  let! (rc, stage) := floats_init (2 * Z.quot (count cfg) (world cfg)) in
  if bool_decide (rc ≠ 0) then end_arrays tl tr buf stage (-1, None) else
  fill buf cfg ;;
  with_arrays cfg tl tr buf stage.
End bench.
End Bench.
