(* ===== verification/Report.v ===== *)
(** What the programs print on standard output: the tables and the CSV rows of
    [bench_utils.h], [bench_config.h] and the benchmarks of phases 2 to 4. *)
From Stdlib Require Import SpecFloat.
From stdpp Require Import strings.
From S2P Require Import Prelude Libc Double Printf BenchUtils RdmaCommon BenchConfig BackendCompare AllreduceBench.

(** * Figures *)

Definition ns_to_us (ns : Z) : spec_float := ddiv (dbl ns) (dbl 1000).
Definition bandwidth_gbps (total_bytes elapsed_ns : Z) : spec_float :=
  if elapsed_ns =? 0 then dbl 0
  else ddiv (ddiv (dmul (dbl total_bytes) (dbl 8)) (ddiv (dbl elapsed_ns) (dbl 1000000000))) (dbl 1000000000).
(** The four figures of a run, in the order they are printed. *)
Definition stat_args (s : lat_stats) : list arg :=
  [ADbl (ns_to_us (min_ns s)); ADbl (ns_to_us (median_ns s)); ADbl (ns_to_us (p99_ns s)); ADbl (ns_to_us (max_ns s))].

(** A format string that ends its line. *)
Definition printfln (fmt : string) (args : list arg) : string := printf fmt args +:+ nl.

(** * The tables *)

Definition print_latency (label : string) (samples : list Z) (n : Z) : string :=
  if n <=? 0 then nl +:+ printfln "--- %s --- (no samples)" [AStr label] else
  nl +:+ printfln "--- %s ---" [AStr label] +:+
  printfln "  %-10s %-10s %-10s %-10s" [AStr "min(us)"; AStr "median(us)"; AStr "p99(us)"; AStr "max(us)"] +:+
  printfln "  %-10.2f %-10.2f %-10.2f %-10.2f" (stat_args (latency_stats samples n)) +:+
  printfln "---------------------------" [].
Definition print_bandwidth (label : string) (total_bytes elapsed_ns : Z) : string :=
  if elapsed_ns =? 0 then nl +:+ printfln "--- %s --- (no data)" [AStr label] else
  let elapsed_ms := ddiv (dbl elapsed_ns) (dbl 1000000) in
  let gbps := bandwidth_gbps total_bytes elapsed_ns in
  let GiBps := ddiv (ddiv (dbl total_bytes) (ddiv (dbl elapsed_ns) (dbl 1000000000))) (dbl (1024 * 1024 * 1024)) in
  nl +:+ printfln "--- %s ---" [AStr label] +:+
  printfln "  transferred : %lu bytes (%.2f MiB)" [AInt total_bytes; ADbl (ddiv (dbl total_bytes) (dbl (1024 * 1024)))] +:+
  printfln "  elapsed     : %.2f ms" [ADbl elapsed_ms] +:+
  printfln "  throughput  : %.2f GiB/s  /  %.2f Gbps" [ADbl GiBps; ADbl gbps] +:+
  printfln "---------------------------" [].

(** * Phase 1 *)

Definition BENCH_CSV_HEADER : string := "bench,conn,size,depth,iters,min_us,median_us,p99_us,max_us,gbps".
Definition bench_conn_name (cfg : bench_config) : string :=
  match b_conn cfg with RAI_CONN_VERBS => "verbs" | RAI_CONN_CM => "cm" end.
Definition bench_report_latency (name label : string) (cfg : bench_config) (sorted : list Z) (n : Z) : string :=
  if negb (b_csv cfg) then print_latency label sorted n else
  printfln "%s,%s,%d,%d,%d,%.3f,%.3f,%.3f,%.3f,"
    ([AStr name; AStr (bench_conn_name cfg); AInt (b_size cfg); AInt (b_depth cfg); AInt (b_iters cfg)] ++
     stat_args (latency_stats sorted n)).
Definition bench_report_bandwidth (name label : string) (cfg : bench_config) (total_bytes elapsed_ns : Z) : string :=
  if negb (b_csv cfg) then print_bandwidth label total_bytes elapsed_ns else
  printfln "%s,%s,%d,%d,%d,,,,,%.3f"
    [AStr name; AStr (bench_conn_name cfg); AInt (b_size cfg); AInt (b_depth cfg); AInt (b_iters cfg);
     ADbl (bandwidth_gbps total_bytes elapsed_ns)].
(** The three programs' own reports. *)
Definition bw_report (cfg : bench_config) (total_time : Z) : string :=
  bench_report_bandwidth "bw_rdma_write" "rdma write throughput" cfg (u64 (b_size cfg * b_iters cfg)) total_time.
Definition lat_write_report (cfg : bench_config) (latencies : list Z) : string :=
  bench_report_latency "lat_rdma_write" "rdma write RTT (one-sided ping-pong)" cfg (sort_u64 latencies) (b_iters cfg).
Definition lat_sr_report (cfg : bench_config) (latencies : list Z) : string :=
  bench_report_latency "lat_send_recv" "send/recv latency (RTT)" cfg (sort_u64 latencies) (b_iters cfg).

(** * Phase 2 *)

Definition compare_header : string := "bench,conn,size,depth,iters,min_us,median_us,p99_us,max_us,gbps".
Definition sendrecv_report (cfg : Compare.Config) (prepost : Z) (latencies : list Z) (total_time : Z) : string :=
  let sorted := sort_u64 latencies in
  if Compare.csv cfg then
    let st := latency_stats sorted (Compare.iters cfg) in
    if Compare.is_rdma cfg
    then printfln "sendrecv,rdma,%d,%d,%d,%.2f,%.2f,%.2f,%.2f,"
           ([AInt (Compare.csize cfg); AInt prepost; AInt (Compare.iters cfg)] ++ stat_args st)
    else printfln "sendrecv,tcp,%d,,%d,%.2f,%.2f,%.2f,%.2f,"
           ([AInt (Compare.csize cfg); AInt (Compare.iters cfg)] ++ stat_args st)
  else
    print_latency (if Compare.is_rdma cfg then "send/recv latency RTT (rdma)" else "send/recv latency RTT (tcp)")
      sorted (Compare.iters cfg) +:+
    print_bandwidth (if Compare.is_rdma cfg then "send/recv throughput (rdma)" else "send/recv throughput (tcp)")
      (u64 (Compare.csize cfg * Compare.iters cfg)) total_time.
Definition write_report (cfg : Compare.Config) (latencies : list Z) (total_time : Z) : string :=
  let sorted := sort_u64 latencies in
  if Compare.csv cfg then
    printfln "write_ack,rdma,%d,1,%d,%.2f,%.2f,%.2f,%.2f,"
      ([AInt (Compare.csize cfg); AInt (Compare.iters cfg)] ++ stat_args (latency_stats sorted (Compare.iters cfg)))
  else
    print_latency "write latency (rdma)" sorted (Compare.iters cfg) +:+
    print_bandwidth "rdma write throughput" (u64 (Compare.csize cfg * Compare.iters cfg)) total_time.

(** * Phases 3 and 4 *)

Definition allreduce_header : string :=
  "bench,conn,count,bytes,world,iters,min_us,median_us,p99_us,max_us,busbw_gbps".
Definition busbw_gbps (cfg : Bench.Config) (median_ns : Z) : spec_float :=
  let bytes := dmul (dbl (Bench.count cfg)) (dbl 4) in
  let med_s := ddiv (dbl median_ns) (dbl 1000000000) in
  let algbw := ddiv bytes med_s in
  let busbw := ddiv (dmul (dmul algbw (dbl 2)) (dbl (Bench.world cfg - 1))) (dbl (Bench.world cfg)) in
  ddiv (dmul busbw (dbl 8)) (dbl 1000000000).
(** Rank 0's report on the sorted samples. *)
Definition allreduce_report (cfg : Bench.Config) (sorted : list Z) : string :=
  if Bench.csv cfg then
    let st := Bench.csv_stats sorted (Bench.iters cfg) in
    printfln "allreduce,%s,%d,%.0f,%d,%d,%.2f,%.2f,%.2f,%.2f,%.3f"
      ([AStr (if Bench.is_rdma cfg then "rdma" else "tcp"); AInt (Bench.count cfg);
        ADbl (dmul (dbl (Bench.count cfg)) (dbl 4)); AInt (Bench.world cfg); AInt (Bench.iters cfg)] ++
       stat_args st ++ [ADbl (busbw_gbps cfg (median_ns st))])
  else print_latency (if Bench.is_rdma cfg then "ring_allreduce (rdma)" else "ring_allreduce (tcp)") sorted (Bench.iters cfg).

Definition kv_header : string := "bench,conn,size,depth,iters,min_us,median_us,p99_us,max_us,gbps".
(** The end of [run_bench]. *)
Definition run_bench_report (label : string) (slot_size iters depth : Z) (csv : bool) (latencies : list Z)
    (total_time : Z) : string :=
  let sorted := sort_u64 latencies in
  let bytes := u64 (u64 iters * slot_size) in
  if csv then
    printfln "%s,rdma,%zu,%d,%d,%.2f,%.2f,%.2f,%.2f,%.3f"
      ([AStr label; AInt slot_size; AInt depth; AInt iters] ++ stat_args (latency_stats sorted iters) ++
       [ADbl (bandwidth_gbps bytes total_time)])
  else print_latency label sorted iters +:+ print_bandwidth label bytes total_time.
