(* ===== verification/ReportSpec.v ===== *)
(** Every CSV row reads back as the columns its header names. *)
From Stdlib Require Import SpecFloat Ascii.
From stdpp Require Import strings.
From S2P Require Import Prelude Libc Double Printf BenchUtils RdmaCommon BenchConfig BackendCompare AllreduceBench Report.

(** * Columns *)

Fixpoint join (cols : list string) : string :=
  match cols with
  | [] => ""
  | [a] => a
  | a :: cols => a +:+ String "," (join cols)
  end.
Lemma join_plain cols : cols ≠ [] → Forall (fun s => plain s = true) cols → fields (join cols) = cols.
Proof.
  intros Hne Hp. induction Hp as [|a [|b cols] Ha Hp IH]; [done|by apply fields_last|].
  change (join (a :: b :: cols)) with (a +:+ String "," (join (b :: cols))). by rewrite fields_col, IH.
Qed.
Lemma plain_has a : plain a = true → has "010" a = false.
Proof. unfold plain. intros Ha. by destruct (has "," a), (has "010" a). Qed.
Lemma join_line cols : Forall (fun s => plain s = true) cols → has "010" (join cols) = false.
Proof.
  intros Hp. induction Hp as [|a [|b cols] Ha Hp IH]; [done|by apply plain_has|].
  change (join (a :: b :: cols)) with (a +:+ String "," (join (b :: cols))). rewrite has_app, plain_has by done. exact IH.
Qed.

(** As [printf] builds the row, which ends in a column. *)
Fixpoint join_app (cols : list string) : string :=
  match cols with
  | [] => ""
  | [a] => a +:+ ""
  | a :: cols => a +:+ String "," (join_app cols)
  end.
Lemma join_nil cols : join_app cols = join cols.
Proof. induction cols as [|a [|b cols] IH]; [done|apply append_nil|]. change (a +:+ String "," (join_app (b :: cols)) = a +:+ String "," (join (b :: cols))). by rewrite IH. Qed.

(** [text] is one line whose columns are [cols], as many as the header has, with
    the integers [ints] at their places. *)
Definition is_row (header text : string) (cols : list string) (ints : list (nat * Z)) : Prop :=
  ∃ line, text = line +:+ nl ∧ has "010" line = false ∧ fields line = cols ∧
    length cols = length (fields header) ∧
    Forall (fun '(i, z) => INT_MIN ≤ z ≤ INT_MAX → atoi <$> cols !! i = Some z) ints.
Lemma is_row_join header text cols ints :
  text = join cols +:+ nl → Forall (fun s => plain s = true) cols → length cols = length (fields header) → cols ≠ [] →
  Forall (fun '(i, z) => cols !! i = Some (dec z)) ints → is_row header text cols ints.
Proof.
  intros Ht Hp Hl Hne Hi. exists (join cols). split; [done|]. split; [by apply join_line|]. split; [by apply join_plain|].
  split; [done|]. eapply Forall_impl; [exact Hi|]. intros [i z] Hz Hr. rewrite Hz. cbn. by rewrite atoi_dec.
Qed.

(** The figures of a run with [p] decimals. *)
Definition stat_cols (p : nat) (s : lat_stats) : list string :=
  [fixed p (ns_to_us (min_ns s)); fixed p (ns_to_us (median_ns s)); fixed p (ns_to_us (p99_ns s)); fixed p (ns_to_us (max_ns s))].
Ltac plain_tac := repeat (apply Forall_cons; split); try apply Forall_nil; rewrite ?plain_dec, ?plain_fixed; try done.
Ltac row_tac :=
  apply is_row_join; [unfold printfln; f_equal; first [reflexivity|rewrite <- join_nil; reflexivity]|plain_tac|reflexivity|done|repeat constructor].

Lemma conn_plain cfg : plain (bench_conn_name cfg) = true.
Proof. unfold bench_conn_name. by destruct (b_conn cfg). Qed.
Lemma latency_row name label cfg sorted n : b_csv cfg = true → plain name = true →
  is_row BENCH_CSV_HEADER (bench_report_latency name label cfg sorted n)
    ([name; bench_conn_name cfg; dec (b_size cfg); dec (b_depth cfg); dec (b_iters cfg)] ++
     stat_cols 3 (latency_stats sorted n) ++ [""])
    [(2%nat, b_size cfg); (3%nat, b_depth cfg); (4%nat, b_iters cfg)].
Proof.
  intros Hc Hn. unfold bench_report_latency. rewrite Hc. pose proof (conn_plain cfg). row_tac.
Qed.

Lemma bandwidth_row name label cfg bytes ns : b_csv cfg = true → plain name = true →
  is_row BENCH_CSV_HEADER (bench_report_bandwidth name label cfg bytes ns)
    [name; bench_conn_name cfg; dec (b_size cfg); dec (b_depth cfg); dec (b_iters cfg); ""; ""; ""; "";
     fixed 3 (bandwidth_gbps bytes ns)]
    [(2%nat, b_size cfg); (3%nat, b_depth cfg); (4%nat, b_iters cfg)].
Proof.
  intros Hc Hn. unfold bench_report_bandwidth. rewrite Hc. pose proof (conn_plain cfg). row_tac.
Qed.

(** * The rows of the programs *)

(** What a run of one of the programs has to report. *)
Inductive report :=
| BwRun (cfg : bench_config) (total_time : Z)
| LatWriteRun (cfg : bench_config) (latencies : list Z)
| LatSendRecvRun (cfg : bench_config) (latencies : list Z)
| SendRecvRun (cfg : Compare.Config) (prepost : Z) (latencies : list Z) (total_time : Z)
| WriteAckRun (cfg : Compare.Config) (latencies : list Z) (total_time : Z)
| KvRun (read csv : bool) (slot_size iters depth : Z) (latencies : list Z) (total_time : Z)
| AllreduceRun (cfg : Bench.Config) (sorted : list Z).
Definition kv_label (read : bool) : string := if read then "read" else "write".
Definition transport_name (is_rdma : bool) : string := if is_rdma then "rdma" else "tcp".

Definition report_csv (r : report) : bool :=
  match r with
  | BwRun cfg _ | LatWriteRun cfg _ | LatSendRecvRun cfg _ => b_csv cfg
  | SendRecvRun cfg _ _ _ | WriteAckRun cfg _ _ => Compare.csv cfg
  | KvRun _ csv _ _ _ _ _ => csv
  | AllreduceRun cfg _ => Bench.csv cfg
  end.
Definition report_text (r : report) : string :=
  match r with
  | BwRun cfg t => bw_report cfg t
  | LatWriteRun cfg l => lat_write_report cfg l
  | LatSendRecvRun cfg l => lat_sr_report cfg l
  | SendRecvRun cfg p l t => sendrecv_report cfg p l t
  | WriteAckRun cfg l t => write_report cfg l t
  | KvRun read csv size iters depth l t => run_bench_report (kv_label read) size iters depth csv l t
  | AllreduceRun cfg l => allreduce_report cfg l
  end.
(** What the program prints under [--csv-header]. *)
Definition report_header (r : report) : string :=
  match r with
  | BwRun _ _ | LatWriteRun _ _ | LatSendRecvRun _ _ => BENCH_CSV_HEADER
  | SendRecvRun _ _ _ _ | WriteAckRun _ _ _ => compare_header
  | KvRun _ _ _ _ _ _ _ => kv_header
  | AllreduceRun _ _ => allreduce_header
  end.
Definition named_cols (name : string) (cfg : bench_config) : list string :=
  [name; bench_conn_name cfg; dec (b_size cfg); dec (b_depth cfg); dec (b_iters cfg)].
Definition report_cols (r : report) : list string :=
  match r with
  | BwRun cfg t =>
      named_cols "bw_rdma_write" cfg ++
      [""; ""; ""; ""; fixed 3 (bandwidth_gbps (u64 (b_size cfg * b_iters cfg)) t)]
  | LatWriteRun cfg l =>
      named_cols "lat_rdma_write" cfg ++ stat_cols 3 (latency_stats (sort_u64 l) (b_iters cfg)) ++ [""]
  | LatSendRecvRun cfg l =>
      named_cols "lat_send_recv" cfg ++ stat_cols 3 (latency_stats (sort_u64 l) (b_iters cfg)) ++ [""]
  | SendRecvRun cfg p l _ =>
      ["sendrecv"; transport_name (Compare.is_rdma cfg); dec (Compare.csize cfg);
       if Compare.is_rdma cfg then dec p else ""; dec (Compare.iters cfg)] ++
      stat_cols 2 (latency_stats (sort_u64 l) (Compare.iters cfg)) ++ [""]
  | WriteAckRun cfg l _ =>
      ["write_ack"; "rdma"; dec (Compare.csize cfg); "1"; dec (Compare.iters cfg)] ++
      stat_cols 2 (latency_stats (sort_u64 l) (Compare.iters cfg)) ++ [""]
  | KvRun read _ size iters depth l t =>
      [kv_label read; "rdma"; dec size; dec depth; dec iters] ++ stat_cols 2 (latency_stats (sort_u64 l) iters) ++
      [fixed 3 (bandwidth_gbps (u64 (u64 iters * size)) t)]
  | AllreduceRun cfg l =>
      ["allreduce"; transport_name (Bench.is_rdma cfg); dec (Bench.count cfg);
       fixed 0 (dmul (dbl (Bench.count cfg)) (dbl 4)); dec (Bench.world cfg); dec (Bench.iters cfg)] ++
      stat_cols 2 (Bench.csv_stats l (Bench.iters cfg)) ++
      [fixed 3 (busbw_gbps cfg (median_ns (Bench.csv_stats l (Bench.iters cfg))))]
  end.
(** The integers of a row and their columns. *)
Definition report_ints (r : report) : list (nat * Z) :=
  match r with
  | BwRun cfg _ | LatWriteRun cfg _ | LatSendRecvRun cfg _ =>
      [(2%nat, b_size cfg); (3%nat, b_depth cfg); (4%nat, b_iters cfg)]
  | SendRecvRun cfg p _ _ =>
      if Compare.is_rdma cfg then [(2%nat, Compare.csize cfg); (3%nat, p); (4%nat, Compare.iters cfg)]
      else [(2%nat, Compare.csize cfg); (4%nat, Compare.iters cfg)]
  | WriteAckRun cfg _ _ => [(2%nat, Compare.csize cfg); (3%nat, 1); (4%nat, Compare.iters cfg)]
  | KvRun _ _ size iters depth _ _ => [(2%nat, size); (3%nat, depth); (4%nat, iters)]
  | AllreduceRun cfg _ => [(2%nat, Bench.count cfg); (4%nat, Bench.world cfg); (5%nat, Bench.iters cfg)]
  end.

(** C28. Under [--csv] what each program reports is one line of comma-separated
    columns, the ones meant and as many as the header it prints under
    [--csv-header] names, and [atoi] reads every size, depth and count back from
    its column. *)
Theorem csv_rows (r : report) :
  report_csv r = true → is_row (report_header r) (report_text r) (report_cols r) (report_ints r).
Proof.
  intros Hc.
  destruct r as [cfg t|cfg l|cfg l|cfg p l t|cfg l t|read csv size iters depth l t|cfg l]; cbn [report_csv] in Hc;
    cbn [report_header report_text report_cols report_ints].
  - by apply bandwidth_row.
  - by apply latency_row.
  - by apply latency_row.
  - unfold sendrecv_report. rewrite Hc. destruct (Compare.is_rdma cfg); row_tac.
  - unfold write_report. rewrite Hc. row_tac.
  - unfold run_bench_report. rewrite Hc. destruct read; row_tac.
  - unfold allreduce_report. rewrite Hc. destruct (Bench.is_rdma cfg); row_tac.
Qed.
Lemma csv_rows_witness :
  let r := KvRun true true 64 3 2 [2000; 1500; 1750] 6000 in
  report_text r = "read,rdma,64,2,3,1.50,1.75,1.75,2.00,0.256" +:+ nl ∧
  is_row (report_header r) (report_text r) (report_cols r) (report_ints r).
Proof. split; [vm_compute; reflexivity|apply csv_rows; reflexivity]. Defined.
