(* ===== verification/AllreduceSpec.v ===== *)
(** The collective's benchmark gives back everything: joined by two threads,
    and on every way out of [main]. *)
From stdpp Require Import strings.
From S2P Require Import Prelude Prog Libc Sys BenchUtils OobSpec RdmaRes Transport TransportSpec TwoTransports.
From S2P Require Import TcpBackend TcpSpec RdmaBackend RdmaSpec KvMain KvMainSpec KvPrograms RingAllreduce Barrier Threads World OneTransport AllreduceBench.
Import Bench.

Section bench.
Context {T : Type} `{TransportLaws T} (pf : nat).
Implicit Types tl tr : T.

(** * Scopes over both transports *)

Lemma init_left tl hl pr tr hr ex buf sz L0 L :
  two Connected tl hl pr tr hr ex L0 L →
  wp ledger_env (scoped_init tl scoped0 buf sz) (fun '(rc, sb, tl') L' =>
    ∃ hs, sb_state sb buf hs ∧ two Connected tl' (hs ++ hl) pr tr hr ex L0 L') L.
Proof.
  intros H2. eapply wp_mono; [|apply (two_ctrl _ _ _ _ _ _ _ _ _ _ _ H2 (fun L1 => scoped_init_holds Connected tl hl buf sz L1 L ltac:(discriminate)))].
  intros [[rc sb] tl'] L' (L1 & (Hi & [(_ & Ha & _ & Ho)|(_ & Hs & Ho)]) & Hk); [exists [sb_h sb]|exists []];
    (split; [split; [done|auto]|by apply Hk]).
Qed.
Lemma init_right pl tl hl tr hr ex buf sz L0 L :
  two pl tl hl Connected tr hr ex L0 L →
  wp ledger_env (scoped_init tr scoped0 buf sz) (fun '(rc, sb, tr') L' =>
    ∃ hs, sb_state sb buf hs ∧ two pl tl hl Connected tr' (hs ++ hr) ex L0 L') L.
Proof.
  intros H2. eapply wp_mono; [|apply (two_data _ _ _ _ _ _ _ _ _ _ _ H2 (fun L1 => scoped_init_holds Connected tr hr buf sz L1 L ltac:(discriminate)))].
  intros [[rc sb] tr'] L' (L1 & (Hi & [(_ & Ha & _ & Ho)|(_ & Hs & Ho)]) & Hk); [exists [sb_h sb]|exists []];
    (split; [split; [done|auto]|by apply Hk]).
Qed.
Lemma scoped_end_more (t : T) sb buf hs hs' L0 L :
  sb_state sb buf hs → holds_by t_owns Connected t (hs ++ hs') L0 L →
  wp ledger_env (scoped_end t sb) (fun t' L' => holds_by t_owns Connected t' hs' L0 L') L.
Proof. intros [Hi [[-> _]|[Hs ->]]] Ht; [by apply scoped_end_holds|by apply scoped_end_null]. Qed.
Lemma end_left tl hs hl pr tr hr ex sb buf L0 L :
  sb_state sb buf hs → two Connected tl (hs ++ hl) pr tr hr ex L0 L →
  wp ledger_env (scoped_end tl sb) (fun tl' L' => two Connected tl' hl pr tr hr ex L0 L') L.
Proof.
  intros Hs H2. eapply wp_mono; [|apply (two_ctrl _ _ _ _ _ _ _ _ _ _ _ H2 (fun L1 => scoped_end_more tl sb buf hs hl L1 L Hs))].
  intros tl' L' (L1 & Ho & Hk). by apply Hk.
Qed.
Lemma end_right pl tl hl tr hs hr ex sb buf L0 L :
  sb_state sb buf hs → two pl tl hl Connected tr (hs ++ hr) ex L0 L →
  wp ledger_env (scoped_end tr sb) (fun tr' L' => two pl tl hl Connected tr' hr ex L0 L') L.
Proof.
  intros Hs H2. eapply wp_mono; [|apply (two_data _ _ _ _ _ _ _ _ _ _ _ H2 (fun L1 => scoped_end_more tr sb buf hs hr L1 L Hs))].
  intros tr' L' (L1 & Ho & Hk). by apply Hk.
Qed.
Lemma floats_init_two n pl tl hl pr tr hr ex L0 L :
  two pl tl hl pr tr hr ex L0 L →
  wp ledger_env (floats_init n) (fun '(_, p) L' => two pl tl hl pr tr hr (mem_res p ++ ex) L0 L') L.
Proof.
  intros H2. unfold floats_init. apply wp_step, wp_neutral; [constructor|done|done|]. intros ps _.
  apply wp_step. intros r L1 (Hf & Hnd & _ & ->). unfold effect. cbn [used released created] in *.
  rewrite decide_True by constructor. destruct r as [p|]; cbn [bind wp]; [|done].
  apply two_mem_alloc with L; [done|]. rewrite <- (app_nil_r (mem_res p)). by apply own_acquire; [apply own_empty|..].
Qed.
Lemma aligned_end_beside p pl tl hl pr tr hr ex L0 L :
  Forall (elsewhere ex L0) (hl ++ hr) → two pl tl hl pr tr hr (mem_res p ++ ex) L0 L →
  wp ledger_env (aligned_end p) (fun _ L' => two pl tl hl pr tr hr ex L0 L') L.
Proof.
  unfold aligned_end, mem_res, ptr_res. intros He H2. case_bool_decide; [|exact H2]. by eapply two_free.
Qed.

(** * Calls that keep everything *)

Section connected.
Context (tl : T) (hl : list BufferHandle) (tr : T) (hr : list BufferHandle) (ex L0 : ledger).
Abbreviation W := (two Connected tl hl Connected tr hr ex L0).
Lemma keeps_load_float a : keeps W (load_float a).
Proof. unfold load_float. keeps_tac. Qed.
Lemma keeps_store_float a w : keeps W (store_float a w).
Proof. unfold store_float. keeps_tac. Qed.
#[local] Hint Resolve keeps_load_float keeps_store_float : keeps.
Lemma keeps_on_transports {A} (p : ringM A) : keeps W (on_transports pf tl tr p).
Proof.
  induction p as [a|o k IH]; cbn [on_transports]; [auto with keeps|].
  destruct o as [s|s h len id off|s h len id off|s|d s]; cbv beta iota.
  - apply IH.
  - apply keeps_bind; [|intros rc; apply IH].
    destruct s; [apply on_ctrl|apply on_data]; intros; by apply law_send.
  - apply keeps_bind; [|intros rc; apply IH].
    destruct s; [apply on_ctrl|apply on_data]; intros; (apply law_recv; [by left|done]).
  - apply keeps_bind; [destruct s; [apply on_ctrl|apply on_data]; intros; by apply law_poll|].
    intros [[rc x]|]; [apply IH|auto with keeps].
  - apply keeps_bind; [auto with keeps|intros x]. apply keeps_bind; [auto with keeps|intros y].
    apply keeps_bind; [auto with keeps|intros _]. apply IH.
Qed.
Lemma keeps_for_unit P n lo (b : Z → sysM unit) : (∀ i, keeps P (b i)) → keeps P (for_unit n lo b).
Proof.
  intros Hb. revert lo. induction n as [|n IH]; intros lo; cbn [for_unit]; [apply keeps_ret|].
  apply keeps_bind; [apply Hb|]. intros _. apply IH.
Qed.
Lemma keeps_fill p cfg : keeps W (fill p cfg).
Proof. apply keeps_for_unit. auto with keeps. Qed.
Lemma keeps_check p cfg : keeps W (check p cfg).
Proof.
  apply keeps_bind; [|intros r; apply keeps_ret]. apply keeps_for. intros i. keeps_tac.
Qed.
Lemma keeps_timed n cfg b i lat : keeps W (timed pf n cfg tl tr b i lat).
Proof.
  revert i lat. induction n as [|n IH]; intros i lat; cbn [timed]; [apply keeps_ret|].
  apply keeps_bind; [apply keeps_fill|intros _]. apply keeps_bind; [apply keeps_on_transports|]. intros [rc|]; [|apply keeps_ret].
  destruct (bool_decide _); [apply keeps_ret|]. apply keeps_bind; [by apply keeps_plain|intros st].
  apply keeps_bind; [apply keeps_on_transports|]. intros [rc'|]; [|apply keeps_ret].
  destruct (bool_decide _); [apply keeps_ret|]. destruct (_ <=? _); [|apply IH].
  apply keeps_bind; [by apply keeps_plain|intros now]. apply IH.
Qed.
End connected.

Lemma keeps_body tl hl tr hr ex L0 cfg b :
  Forall (elsewhere ex L0) (hl ++ hr) → keeps_some (two Connected tl hl Connected tr hr ex L0) (body pf cfg tl tr b).
Proof.
  intros He L H2. unfold body. next (by apply keeps_on_transports). intros [rc|] L1 H21; [|by intros Hn].
  destruct (bool_decide _); [by intros _|]. next (by apply keeps_check). intros ok L2 H22.
  destruct ok; cbn [negb]; [|by intros _]. next (by apply vector_new_two).
  intros [v|] L3; [|by intros _ Hn]. intros [H23 _].
  next (by apply keeps_timed). intros [[lat|]|] L4 H24; [| |by intros Hn].
  - next (by apply keeps_check). intros ok L5 H25. next (by apply (vector_end_two tl hl tr hr ex L0 He)).
    by intros [] L6 H26 _.
  - next (by apply (vector_end_two tl hl tr hr ex L0 He)). by intros [] L6 H26 _.
Qed.

(** * Every way out *)

Definition tidy {R} (L0 : ledger) : option R → ledger → Prop := fun r L' => r ≠ None → L' ≡ₚ L0.
Lemma end_world_tidy pl tl pr tr r L0 L :
  two pl tl [] pr tr [] [] L0 L → wp ledger_env (end_world tl tr r) (tidy L0) L.
Proof.
  intros H2. next (by eapply close_data). intros tr' L1 H21. next (by eapply close_ctrl). by intros tl' L2 HL _.
Qed.
Lemma end_arrays_tidy pl tl pr tr buf stage r L0 L :
  two pl tl [] pr tr [] (mem_res stage ++ mem_res buf ++ []) L0 L →
  wp ledger_env (end_arrays tl tr buf stage r) (tidy L0) L.
Proof.
  intros H2. next (eapply aligned_end_beside; [|exact H2]; constructor). intros [] L1 H21.
  next (eapply aligned_end_beside; [|exact H21]; constructor). intros [] L2 H22. by eapply end_world_tidy.
Qed.
Section arrays.
Context (buf stage : Z) (L0 : ledger).
Abbreviation arrays := (mem_res stage ++ mem_res buf ++ []).
Lemma arrays_elsewhere sb p hs : sb_state sb p hs → p = buf ∨ p = stage → Forall (elsewhere arrays L0) hs.
Proof.
  intros [_ [[-> Ha]|[_ ->]]] Hp; [|constructor]. apply Forall_singleton. unfold elsewhere, live, mem_res, ptr_res.
  destruct (decide (addr (sb_h sb) = 0)) as [|Hn]; [by left|right]. rewrite !fmap_app, !elem_of_app. rewrite Ha in *.
  destruct Hp as [->| ->]; [left; right; left|left; left]; rewrite bool_decide_eq_true_2 by done; by left.
Qed.
Lemma scratch_elsewhere sb p ex hs : sb_state sb p hs → Forall (elsewhere (mem_res p ++ ex) L0) hs.
Proof.
  intros [_ [[-> Ha]|[_ ->]]]; [|constructor]. apply Forall_singleton. unfold elsewhere, live, mem_res, ptr_res.
  destruct (decide (addr (sb_h sb) = 0)) as [|Hn]; [by left|right]. rewrite !fmap_app, !elem_of_app. rewrite Ha in *.
  left. left. rewrite bool_decide_eq_true_2 by done. by left.
Qed.
Lemma elsewhere_more m ex h : elsewhere ex L0 h → elsewhere (m ++ ex) L0 h.
Proof. intros [|Hl]; [by left|right]. unfold live in *. rewrite !fmap_app, !elem_of_app in *. tauto. Qed.

Lemma with_scratch_tidy cfg tl hl tr hr sr sl ss out L :
  Forall (elsewhere arrays L0) (hl ++ hr) →
  (∀ tl tr r L', two Connected tl hl Connected tr hr arrays L0 L' → wp ledger_env (out tl tr r) (tidy L0) L') →
  two Connected tl hl Connected tr hr arrays L0 L →
  wp ledger_env (with_scratch pf cfg tl tr buf stage sr sl ss out) (tidy L0) L.
Proof.
  intros He Hout H2. unfold with_scratch. next (by apply floats_init_two). intros [rc p] L1 H21.
  assert (Hend : ∀ tl tr r L', two Connected tl hl Connected tr hr (mem_res p ++ arrays) L0 L' →
    wp ledger_env (aligned_end p ;; out tl tr r) (tidy L0) L').
  { intros tl' tr' r L' Hx. next (by apply aligned_end_beside). intros [] L'' H'. by apply Hout. }
  destruct (bool_decide _); [by apply Hend|].
  next (by apply init_right). intros [[rc1 xr] tr1] L2 (hxr & Hxr & H22). destruct (bool_decide _).
  { next (by eapply end_right). intros tr2 L3. apply Hend. }
  next (by apply init_left). intros [[rc2 xl] tl1] L3 (hxl & Hxl & H23).
  assert (Hend2 : ∀ tl tr r L', two Connected tl (hxl ++ hl) Connected tr (hxr ++ hr) (mem_res p ++ arrays) L0 L' →
    wp ledger_env (tl <- scoped_end tl xl ;; tr <- scoped_end tr xr ;; aligned_end p ;; out tl tr r) (tidy L0) L').
  { intros tl' tr' r L' Hx. next (by eapply end_left). intros tl'' L'' H'. next (by eapply end_right).
    intros tr'' L3'. apply Hend. }
  destruct (bool_decide _); [by apply Hend2|].
  next (apply keeps_body; [|exact H23]).
  - rewrite !Forall_app in *. split; split.
    + by eapply scratch_elsewhere.
    + eapply Forall_impl; [apply He|]. apply elsewhere_more.
    + by eapply scratch_elsewhere.
    + eapply Forall_impl; [apply He|]. apply elsewhere_more.
  - intros [r|] L4 H24; [by apply Hend2, H24|by intros Hn].
Qed.
Lemma with_arrays_tidy cfg tl tr L :
  two Connected tl [] Connected tr [] arrays L0 L →
  wp ledger_env (with_arrays pf cfg tl tr buf stage) (tidy L0) L.
Proof.
  intros H2. unfold with_arrays.
  next (by apply init_right). intros [[rc1 sr] tr1] L1 (h1 & Hs1 & H21). rewrite app_nil_r in H21.
  assert (Hout1 : ∀ tl tr r L', two Connected tl [] Connected tr h1 arrays L0 L' →
    wp ledger_env (tr <- scoped_end tr sr ;; end_arrays tl tr buf stage r) (tidy L0) L').
  { intros tl' tr' r L' Hx. next (eapply (end_right _ _ _ _ h1 []); [exact Hs1|rewrite app_nil_r; exact Hx]).
    intros tr'' L''. apply end_arrays_tidy. }
  destruct (bool_decide _); [by apply Hout1|].
  next (by apply init_left). intros [[rc2 sl] tl1] L2 (h2 & Hs2 & H22). rewrite app_nil_r in H22.
  assert (Hout2 : ∀ tl tr r L', two Connected tl h2 Connected tr h1 arrays L0 L' →
    wp ledger_env (tl <- scoped_end tl sl ;; tr <- scoped_end tr sr ;; end_arrays tl tr buf stage r) (tidy L0) L').
  { intros tl' tr' r L' Hx. next (eapply (end_left _ h2 []); [exact Hs2|rewrite app_nil_r; exact Hx]).
    intros tl'' L''. apply Hout1. }
  destruct (bool_decide _); [by apply Hout2|].
  next (by apply init_left). intros [[rc3 ss] tl2] L3 (h3 & Hs3 & H23).
  assert (Hout3 : ∀ tl tr r L', two Connected tl (h3 ++ h2) Connected tr h1 arrays L0 L' →
    wp ledger_env (tl <- scoped_end tl ss ;; tl <- scoped_end tl sl ;; tr <- scoped_end tr sr ;; end_arrays tl tr buf stage r) (tidy L0) L').
  { intros tl' tr' r L' Hx. next (by eapply end_left). intros tl'' L''. apply Hout2. }
  destruct (bool_decide _); [by apply Hout3|].
  eapply with_scratch_tidy; [|exact Hout3|exact H23]. rewrite !Forall_app.
  split; [split|]; (eapply arrays_elsewhere; [eassumption|auto]).
Qed.
End arrays.
Lemma main_rest_tidy cfg rc pl tl pr tr L0 L :
  two pl tl [] pr tr [] [] L0 L → (rc = 0 ∧ pl = Connected ∧ pr = Connected ∨ rc = -1) →
  wp ledger_env (main_rest pf cfg rc tl tr) (tidy L0) L.
Proof.
  intros H2 [(-> & -> & ->)| ->]; unfold main_rest; cbn [bool_decide]; [|by eapply end_world_tidy].
  next (by apply floats_init_two). intros [rc buf] L1 H21.
  destruct (bool_decide _); [by apply (end_arrays_tidy Connected _ Connected _ buf 0)|].
  next (by apply floats_init_two). intros [rc2 stage] L2 H22. destruct (bool_decide _); [by eapply end_arrays_tidy|].
  next (by apply keeps_fill). intros [] L3 H23. by apply with_arrays_tidy.
Qed.
End bench.

(** * The command line *)

Lemma config_opts_group args cfg cfg' : config_opts args cfg = Some cfg' →
  c_rank cfg' = c_rank cfg ∧ world cfg' = world cfg ∧ host_list cfg' = host_list cfg.
Proof.
  revert cfg. induction args as [args IH] using (induction_ltof1 _ length). unfold ltof in IH.
  destruct args as [|a args]; intros cfg; cbn [config_opts]; [by intros [= <-]|].
  repeat case_match; intros Hc; try done; (apply IH in Hc; [exact Hc|cbn; lia]).
Qed.
(** A rank of the group, with a host for every rank and whole chunks. *)
Definition config_ok (cfg : Config) : Prop :=
  0 ≤ c_rank cfg < world cfg ∧ Z.of_nat (length (host_list cfg)) = world cfg ∧
  0 < count cfg ∧ Z.rem (count cfg) (world cfg) = 0.
Lemma main_start_ok argv cfg : main_start argv = inr cfg → config_ok cfg.
Proof.
  unfold main_start, config_parse. case_match; [done|]. clear.
  destruct argv as [|prog [|r [|w [|p args]]]]; try done.
  destruct ((atoi w <=? 0) || (atoi r <? 0) || (atoi w <=? atoi r)) eqn:Hr; [done|].
  destruct (Z.of_nat (length args) <? atoi w) eqn:Hl; [done|].
  destruct (config_opts _ _) as [c|] eqn:Ho; cbn; [|done]. destruct ((count c <=? 0) || _) eqn:Hc; [done|].
  intros [= ->]. apply config_opts_group in Ho as (Hrank & Hworld & Hhosts). cbn in *.
  apply orb_false_iff in Hr as [Hr Hrw]. apply orb_false_iff in Hr as [Hw Hr0]. apply orb_false_iff in Hc as [Hc Hrem].
  apply Z.leb_gt in Hw, Hrw, Hc. apply Z.ltb_ge in Hr0, Hl. apply negb_false_iff, Z.eqb_eq in Hrem.
  unfold config_ok. rewrite Hhosts, Hrank, Hworld, length_take. split_and!; try lia. by rewrite <- Hworld.
Qed.

(** [--iters 0] is accepted, and rank 0's row then reads an empty vector. *)
Lemma iters_zero_accepted : ∃ cfg,
  main_start ["allreduce_bench"; "0"; "2"; "7000"; "a"; "b"; "--iters"; "0"; "--csv"]%string = inr cfg ∧
  iters cfg = 0 ∧ row cfg [] = Some (csv_stats [] 0).
Proof. eexists. split; [reflexivity|]. by split. Qed.
(** Of a hundred samples, the p99 of the CSV row is the maximum. *)
Lemma csv_p99_is_max lat : p99_ns (csv_stats lat 100) = at_ lat 99.
Proof. done. Qed.

#[local] Existing Instances tcp_transport TcpSpec.tcp_laws rdma_transport RdmaSpec.rdma_laws.

(** C39. The collective's benchmark gives back everything.  For any accepted
    command line, which is one that names a host for every rank, for any order in
    which the calls of the listening thread and of the connecting one fall, and on
    every backend that keeps the transport laws: the two threads touch nothing of
    each other's, and on whichever way out [main] ends after they are joined, the
    transports, the five registrations, the three arrays and the vector of times
    are all given back, each once and none while it is in use. *)
Theorem allreduce_no_leak {T : Type} `{TransportLaws T} (pf : nat) (sched : nat → bool) (tl tr : T)
    (argv : list string) (cfg : Config) (L : ledger) :
  t_owns Idle tl [] [] → t_owns Idle tr [] [] → main_start argv = inr cfg →
  is_Some (host_list cfg !! Z.to_nat (Z.rem (c_rank cfg + 1) (world cfg))) ∧
  wp (duo_env L) (world_init sched false tl tr (c_rank cfg) (world cfg) (host_list cfg) (base_port cfg))
    (fun '(rc, l, r) s => (rc = 0 ∨ rc = -1) ∧
       wp ledger_env (main_rest pf cfg rc l r) (fun x L' => x ≠ None → L' ≡ₚ L) (s.1 ++ s.2 ++ L)) ([], []).
Proof.
  intros Hl Hr Hs%main_start_ok. destruct Hs as (Hrank & Hhosts & _). split.
  { apply lookup_lt_is_Some_2. pose proof (Z.rem_bound_pos (c_rank cfg + 1) (world cfg)). lia. }
  eapply wp_mono; [|by apply world_init_holds]. intros [[rc l] r] s (pl & pr & H2 & Hrc).
  split; [destruct Hrc as [(? & _)|?]; auto|by eapply main_rest_tidy].
Qed.
Definition demo_argv : list string := ["allreduce_bench"; "1"; "2"; "7000"; "10.0.0.1"; "10.0.0.2"; "--count"; "64"; "--rdma"]%string.
Definition demo_cfg : Config := mkConfig 1 2 7000 ["10.0.0.1"; "10.0.0.2"]%string 64 100 true false.
Lemma allreduce_no_leak_witness :
  is_Some (host_list demo_cfg !! 0%nat) ∧
  wp (duo_env []) (world_init Nat.even false Rdma.create Rdma.create 1 2 (host_list demo_cfg) 7000)
    (fun '(rc, l, r) s => (rc = 0 ∨ rc = -1) ∧
       wp ledger_env (main_rest 10 demo_cfg rc l r) (fun x L' => x ≠ None → L' ≡ₚ []) (s.1 ++ s.2 ++ [])) ([], []).
Proof.
  apply (allreduce_no_leak 10 Nat.even Rdma.create Rdma.create demo_argv demo_cfg [] rdma_created rdma_created).
  vm_compute. reflexivity.
Defined.
