(* ===== verification/AllreduceCheck.v ===== *)
(** The benchmark's own check: the collective's float sums of the ranks' values
    are exact, so a correct run passes it. *)
From S2P Require Import Prelude Prog Sys Double Transport Float32 Float32Spec RingAllreduce RingSpec RingMem RingPosted RingPostedTheorems.
From S2P Require Import RingBlocking RingBlockingTheorems AllreduceBench.
Import Bench.

(** * The sums around the ring *)

Section ring_sum.
Context (N : Z) (HN : 2 ≤ N).
Definition value (r : Z) : Z := r + 1.
(** The contributions of [n + 1] ranks from rank [c] on. *)
Fixpoint rsum (c : Z) (n : nat) : Z :=
  match n with
  | O => value (c mod N)
  | S n' => value ((c + Z.of_nat n) mod N) + rsum c n'
  end.
(** Before and after the ranks wrap around. *)
Lemma rsum_twice c n : 0 ≤ c < N → Z.of_nat n < N →
  2 * rsum c n = let m := Z.of_nat n in
    if c + m <? N then (m + 1) * (2 * c + 2 + m) else N * (N + 1) - c * (c + 1) + (c + m - N + 1) * (c + m - N + 2).
Proof.
  intros Hc. induction n as [|n IH]; intros Hn; cbn zeta.
  { cbn [rsum]. unfold value. rewrite Z.mod_small by lia. rewrite (proj2 (Z.ltb_lt _ _)) by lia. lia. }
  cbn [rsum]. specialize (IH ltac:(lia)). cbn zeta in IH. rewrite Nat2Z.inj_succ in *.
  set (m := Z.of_nat n) in *. unfold value. destruct (Z.ltb_spec (c + Z.succ m) N) as [Hlt|Hge].
  - rewrite Z.mod_small by lia. rewrite (proj2 (Z.ltb_lt _ _)) in IH by lia. lia.
  - replace ((c + Z.succ m) mod N) with (c + Z.succ m - N) by (symmetry; apply (mod_shift _ _ 1); lia).
    destruct (Z.ltb_spec (c + m) N) as [Hlt'|Hge'].
    + assert (c + m = N - 1) by lia. assert (m = N - 1 - c) as -> by lia. lia.
    + lia.
Qed.
Lemma rsum_all c : 0 ≤ c < N → 2 * rsum c (Z.to_nat (N - 1)) = N * (N + 1).
Proof.
  intros Hc. rewrite rsum_twice by lia. cbn zeta. rewrite Z2Nat.id by lia.
  destruct (Z.ltb_spec (c + (N - 1)) N); [assert (c = 0) as -> by lia; lia|lia].
Qed.
Lemma rsum_pos c n : 0 < rsum c n.
Proof.
  induction n as [|n IH]; cbn [rsum]; unfold value.
  - pose proof (Z.mod_pos_bound c N). lia.
  - pose proof (Z.mod_pos_bound (c + Z.of_nat (S n)) N). lia.
Qed.
Lemma rsum_mono c n m : (n ≤ m)%nat → rsum c n ≤ rsum c m.
Proof.
  induction 1 as [|m _ IH]; [done|]. cbn [rsum]. unfold value.
  pose proof (Z.mod_pos_bound (c + Z.of_nat (S m)) N). lia.
Qed.

Context (Hsmall : N * (N + 1) < 2 ^ 24).
Lemma rsum_small c n : 0 ≤ c < N → (n ≤ Z.to_nat (N - 1))%nat → small (rsum c n).
Proof.
  intros Hc Hn. split; [apply rsum_pos|]. pose proof (rsum_mono c _ _ Hn). pose proof (rsum_all c Hc). lia.
Qed.
Lemma ring_fold_words (x : Z → Z → Z → Z) c i n :
  0 ≤ c < N → (n ≤ Z.to_nat (N - 1))%nat → (∀ r, 0 ≤ r < N → x r c i = word (value r)) →
  ring_fold fadd x N c n i = word (rsum c n).
Proof.
  intros Hc Hn Hx. assert (Hval : ∀ k, small (value (k mod N))).
  { intros k. pose proof (Z.mod_pos_bound k N). unfold small, fits_in, value. nia. }
  induction n as [|n IH]; cbn [ring_fold rsum]; [apply Hx, Z.mod_pos_bound; lia|].
  rewrite IH by lia. rewrite Hx by (apply Z.mod_pos_bound; lia). apply word_add; [done|apply rsum_small; lia|].
  apply (rsum_small c (S n)); lia.
Qed.
(** Every element of every rank's result is the exact sum. *)
Lemma reduced_words x c i :
  0 ≤ c < N → (∀ r, 0 ≤ r < N → x r c i = word (value r)) → reduced fadd x N c i = word (N * (N + 1) / 2).
Proof.
  intros Hc Hx. unfold reduced. rewrite ring_fold_words by (done || lia). f_equal.
  apply (Z.div_unique_exact _ 2); [lia|]. by rewrite rsum_all.
Qed.
End ring_sum.

(** * The process memory as cells of words *)

Definition cells_env : envspec sys_sig (Z → Z) := fun o m x m' =>
  match o return sys_ans o → Prop with
  | c_load a n => fun d => m' = m ∧ (n = 4 → d = le_bytes 4 (m a))
  | c_store a d => fun _ => m' = if bool_decide (length d = 4%nat) then <[a := le_val d]> m else m
  | _ => fun _ => m' = m
  end x.
Definition filled (cfg : Config) (buf : Z) (m : Z → Z) : Prop :=
  ∀ i, 0 ≤ i < count cfg → m (buf + sizeof_float * i) = word (value (c_rank cfg)).

Lemma word_range a : small a → 0 ≤ word a < 2 ^ 32.
Proof.
  intros Ha. pose proof (small_digits a Ha) as Hd. pose proof (mantissa_bounds a Ha) as Hm.
  unfold word. rewrite of_int_canon by done. unfold canon, norm. cbn [to_bits sign_bit]. rewrite Z2Pos.id by lia.
  rewrite (proj2 (Z.ltb_ge _ (2 ^ 23))) by lia. lia.
Qed.
Lemma cells_store a w (Q : unit → (Z → Z) → Prop) m :
  0 ≤ w < 2 ^ 32 → Q tt (<[a := w]> m) → wp cells_env (store_float a w) Q m.
Proof.
  intros Hw HQ [] m' Hs. change (m' = <[a := le_val (le_bytes 4 w)]> m) in Hs.
  rewrite le_val_bytes_small in Hs by done. by subst m'.
Qed.
Lemma cells_load a (Q : Z → (Z → Z) → Prop) m :
  0 ≤ m a < 2 ^ 32 → Q (m a) m → wp cells_env (load_float a) Q m.
Proof.
  intros Hw HQ d m' Hs. change (m' = m ∧ (4 = 4 → d = le_bytes 4 (m a))) in Hs. destruct Hs as [-> Hd].
  cbn [bind wp]. rewrite Hd, le_val_bytes_small by done. done.
Qed.
Lemma fill_filled cfg buf m :
  0 ≤ count cfg → small (value (c_rank cfg)) → wp cells_env (fill buf cfg) (fun _ m' => filled cfg buf m') m.
Proof.
  intros Hc Hv. unfold fill.
  eapply wp_mono; [|apply (wp_for_unit _ _ _ _ (fun i m' =>
    ∀ j, 0 ≤ j < i → m' (buf + sizeof_float * j) = word (value (c_rank cfg))))].
  - intros [] m' Hm j Hj. apply Hm. lia.
  - intros j Hj. lia.
  - intros i m' Hi Hm. apply cells_store; [exact (word_range _ Hv)|]. intros j Hj.
    destruct (decide (i = j)) as [->|Hne]; [by rewrite fn_lookup_insert|].
    rewrite fn_lookup_insert_ne by (unfold sizeof_float; lia). apply Hm. lia.
Qed.

Lemma expect_half cfg a :
  small (2 * a) → world cfg * (world cfg + 1) = 2 * a → expect cfg = canon a.
Proof.
  intros Ha Hw. unfold expect. replace ((1 + world cfg) * world cfg) with (2 * a) by lia.
  rewrite of_int_canon by done. by apply canon_half.
Qed.
(** The check passes on cells that all hold the exact sum. *)
Lemma check_cells cfg buf m a :
  small (2 * a) → world cfg * (world cfg + 1) = 2 * a →
  (∀ i, 0 ≤ i < count cfg → m (buf + sizeof_float * i) = word a) →
  wp cells_env (check buf cfg) (fun ok _ => ok = true) m.
Proof.
  intros Ha Hw Hm. assert (Ha' : small a) by (unfold small, fits_in in *; lia). unfold check.
  apply wp_bind, (wp_for _ _ _ _ (fun _ m' => m' = m)); [done| |done].
  intros i m' Hi ->. apply wp_bind. apply cells_load; [rewrite Hm by lia; exact (word_range _ Ha')|].
  rewrite Hm by lia. cbn [wp]. rewrite word_canon, (expect_half _ a), canon_same by done. done.
Qed.

(** * The check after the collective *)

Section after.
Context (S : ring_setup) (OK : setup_ok S) (Hsmall : rs_N S * (rs_N S + 1) < 2 ^ 24).
Abbreviation N := (rs_N S).
Abbreviation chunk := (rs_chunk S).

(** Rank [r]'s configuration is one of this world's. *)
Definition config_of (r : Z) (cfg : Config) : Prop :=
  c_rank cfg = r ∧ world cfg = N ∧ count cfg = N * chunk.

Lemma index_chunk k : 0 ≤ k < N * chunk → inner S (k / chunk) N (k mod chunk).
Proof.
  pose proof (ok_chunk S OK). intros Hk. split; [|apply Z.mod_pos_bound; lia].
  split; [apply Z.div_pos; lia|apply Z.div_lt_upper_bound; lia].
Qed.
Lemma index_cell r k : 0 ≤ k → rs_buf S r + sizeof_float * k = bcell S r (k / chunk) (k mod chunk).
Proof.
  pose proof (ok_chunk S OK). intros Hk. unfold bcell. do 2 f_equal. rewrite Z.mul_comm. apply Z.div_mod. lia.
Qed.
Lemma chunk_index c i : inner S c N i → 0 ≤ c * chunk + i < N * chunk.
Proof. pose proof (ok_chunk S OK). unfold inner. nia. Qed.

Lemma rank_small r : 0 ≤ r < N → small (value r).
Proof. unfold small, fits_in, value. nia. Qed.

Lemma check_reduced (cfg : Z → Config) (mem0 : Z → Z → Z) (m : Z → Z) r :
  0 ≤ r < N → (∀ q, 0 ≤ q < N → config_of q (cfg q) ∧ filled (cfg q) (rs_buf S q) (mem0 q)) →
  (∀ c i, inner S c N i → m (bcell S r c i) = reduced fadd (input S mem0) N c i) →
  wp cells_env (check (rs_buf S r) (cfg r)) (fun ok _ => ok = true) m.
Proof.
  intros Hr Hcfg Hm. pose proof (ok_N S OK) as HN. destruct (Hcfg r Hr) as [(_ & Hw & Hcount) _].
  assert (Heven : N * (N + 1) = 2 * (N * (N + 1) / 2)).
  { rewrite <- (rsum_all N HN 0) by lia. rewrite (Z.mul_comm 2 (rsum _ _ _)) at 2. rewrite Z.div_mul by lia. lia. }
  apply (check_cells _ _ _ (N * (N + 1) / 2)); [rewrite <- Heven; unfold small, fits_in; nia|by rewrite Hw|].
  intros k Hk. rewrite Hcount in Hk. rewrite index_cell by lia. rewrite Hm by by apply index_chunk.
  apply reduced_words; [done|done|apply (index_chunk k Hk)|]. intros q Hq.
  destruct (Hcfg q Hq) as [(Hrank & _ & Hc) Hf]. unfold input, bcell.
  rewrite Hf; [by rewrite Hrank|]. rewrite Hc. apply chunk_index, index_chunk, Hk.
Qed.
End after.

(** C15. The benchmark's own check passes.  [fill] leaves every element of rank
    [q]'s array at the float of [q + 1]; and if the ranks so filled ran the
    collective, posted or blocking, under any schedule, then [check] on any rank
    that returned finds every element equal to the expected sum.  Up to 4095
    ranks no addition rounds, so it does not matter in which order the
    ring adds. *)
Theorem allreduce_check_passes (S : ring_setup) (cfg : Z → Config) (mem0 : Z → Z → Z) (r v : Z) :
  setup_ok S → setup_nonnull S → sizeof_float * rs_chunk S < 2 ^ 32 → rs_N S * (rs_N S + 1) < 2 ^ 24 →
  (∀ q, 0 ≤ q < rs_N S → config_of S q (cfg q)) → 0 ≤ r < rs_N S →
  (∀ q m, 0 ≤ q < rs_N S → wp cells_env (fill (rs_buf S q) (cfg q)) (fun _ m' => filled (cfg q) (rs_buf S q) m') m) ∧
  ((∀ q, 0 ≤ q < rs_N S → filled (cfg q) (rs_buf S q) (mem0 q)) →
   (∀ max_inline g, rtc (step fadd (rs_N S) max_inline) (posted_init S mem0) g → code g r = Ret v →
      wp cells_env (check (rs_buf S r) (cfg r)) (fun ok _ => ok = true) (mem g r)) ∧
   (∀ cap g, rtc (bstep fadd (rs_N S) cap) (blocking_init S mem0) g → bcode g r = Ret v →
      wp cells_env (check (rs_buf S r) (cfg r)) (fun ok _ => ok = true) (bmem g r))).
Proof.
  intros OK NN Hcb Hsmall Hcfg Hr. split; [|intros Hf; split].
  - intros q m Hq. destruct (Hcfg q Hq) as (Hrank & _ & Hc). pose proof (ok_N S OK). pose proof (ok_chunk S OK).
    apply fill_filled; [rewrite Hc; nia|]. rewrite Hrank. by apply (rank_small S).
  - intros mi g Hreach Hret. apply (check_reduced S OK Hsmall cfg mem0); [done|by auto|].
    apply (posted_holds fadd S mem0 mi g r v OK Hcb Hreach Hr Hret).
  - intros cap g Hreach Hret. apply (check_reduced S OK Hsmall cfg mem0); [done|by auto|].
    apply (blocking_holds fadd S mem0 cap g r v OK NN Hreach Hr Hret).
Qed.

(** * Witness: three ranks, two floats per chunk, on floats *)

Definition check_cfg (q : Z) : Config := mkConfig q 3 7000 [] 6 100 true false.
Definition check_mem (q _ : Z) : Z := word (value q).
Definition check_setup : ring_setup := demo_setup 3 2.
Definition check_run (fuel : nat) : option gstate :=
  lsteps fadd 3 0 (schedule fadd 3 0 (nic_first 3) fuel (posted_init check_setup check_mem)) (posted_init check_setup check_mem).
Lemma check_setup_ok : setup_ok check_setup.
Proof. apply demo_ok; unfold sizeof_float; lia. Qed.

Lemma check_run_reach fuel g :
  check_run fuel = Some g → rtc (step fadd (rs_N check_setup) 0) (posted_init check_setup check_mem) g.
Proof. apply lsteps_rtc. Qed.
Lemma check_config q : config_of check_setup q (check_cfg q).
Proof. done. Qed.
Lemma check_filled q : filled (check_cfg q) (rs_buf check_setup q) (check_mem q).
Proof. intros i _. unfold check_mem, check_cfg. by cbn [c_rank]. Qed.
Lemma check_run_returns : (fun g => code g 1) <$> check_run 500 = Some (Ret 0).
Proof. vm_compute. reflexivity. Qed.

Lemma allreduce_check_passes_witness :
  ∃ g, code g 1 = Ret 0 ∧
    wp cells_env (check (rs_buf check_setup 1) (check_cfg 1)) (fun ok _ => ok = true) (mem g 1).
Proof.
  destruct (check_run 500) as [g|] eqn:Hg; pose proof check_run_returns as Hc; rewrite Hg in Hc; [|discriminate].
  injection Hc as Hc. exists g. split; [exact Hc|].
  refine (proj1 (proj2 (allreduce_check_passes check_setup check_cfg check_mem 1 0 check_setup_ok _ _ _ _ _) _) 0 g
    (check_run_reach 500 g Hg) Hc).
  - intros q _. split; vm_compute; congruence.
  - vm_compute. reflexivity.
  - vm_compute. reflexivity.
  - intros q _. apply check_config.
  - split; vm_compute; congruence.
  - intros q _. apply check_filled.
Defined.
