(* ===== verification/RingWords.v ===== *)
(** The collective on floats: every element stays a 32-bit word, and the words are
    the binary32 sums. *)
From Stdlib Require Import SpecFloat.
From stdpp Require Import relations.
From S2P Require Import Prelude Prog Double Float32 Float32Spec RingAllreduce RingSpec RingMem RingPosted RingPostedTheorems.
From S2P Require Import RingBlocking RingBlockingTheorems.

(** The ring's sum of words decodes to the ring's sum of floats. *)
Section words.
Context (N : Z) (x : Z → Z → Z → Z) (Hx : ∀ r c i, is_word (x r c i)).
Lemma ring_fold_word c n i :
  is_word (ring_fold fadd x N c n i) ∧
  of_bits (ring_fold fadd x N c n i) = ring_fold (SFadd 24 128) (fun r c i => of_bits (x r c i)) N c n i.
Proof.
  induction n as [|n [IHw IHv]]; [split; [apply Hx|done]|]. change (ring_fold fadd x N c (S n) i) with
    (fadd (x ((c + Z.of_nat (S n)) mod N) c i) (ring_fold fadd x N c n i)).
  destruct (fadd_word _ _ (Hx ((c + Z.of_nat (S n)) mod N) c i) IHw) as [Hw Hv]. split; [done|]. by rewrite Hv, IHv.
Qed.
End words.

(** C16. The collective is well typed on floats: if every cell of every rank is a
    32-bit word, then whatever the words (infinities, NaNs, denormals) and
    whatever the schedule, every element a rank holds when it returned, posted or
    blocking, is a 32-bit word again, and the number it encodes is the ring-order
    sum of the numbers the ranks' words encode, each addition rounded to
    binary32. *)
Theorem ring_words (S : ring_setup) (mem0 : Z → Z → Z) (r v c i : Z) :
  setup_ok S → setup_nonnull S → sizeof_float * rs_chunk S < 2 ^ 32 → (∀ q p, is_word (mem0 q p)) →
  0 ≤ r < rs_N S → inner S c (rs_N S) i →
  let word_sum (w : Z) :=
    is_word w ∧ of_bits w = reduced (SFadd 24 128) (fun q c i => of_bits (input S mem0 q c i)) (rs_N S) c i in
  (∀ max_inline g, rtc (step fadd (rs_N S) max_inline) (posted_init S mem0) g → code g r = Ret v →
     word_sum (mem g r (bcell S r c i))) ∧
  (∀ cap g, rtc (bstep fadd (rs_N S) cap) (blocking_init S mem0) g → bcode g r = Ret v →
     word_sum (bmem g r (bcell S r c i))).
Proof.
  intros OK NN Hcb Hw Hr Hi word_sum. unfold word_sum. split.
  - intros mi g Hreach Hret. rewrite (proj1 (proj2 (posted_holds fadd S mem0 mi g r v OK Hcb Hreach Hr Hret))) by done.
    apply ring_fold_word. intros. apply Hw.
  - intros cap g Hreach Hret. rewrite (proj1 (proj2 (blocking_holds fadd S mem0 cap g r v OK NN Hreach Hr Hret))) by done.
    apply ring_fold_word. intros. apply Hw.
Qed.

(** * Witness: three ranks, two floats per chunk, with an infinity and a NaN *)

Definition odd_mem (q p : Z) : Z :=
  if p mod 3 =? 0 then 255 * 2 ^ 23 else if p mod 3 =? 1 then 255 * 2 ^ 23 + 7 else to_bits (of_int (q + 1)).
Definition words_setup : ring_setup := demo_setup 3 2.
Definition words_run (fuel : nat) : option gstate :=
  lsteps fadd 3 0 (schedule fadd 3 0 (nic_first 3) fuel (posted_init words_setup odd_mem)) (posted_init words_setup odd_mem).
Lemma words_run_reach fuel g :
  words_run fuel = Some g → rtc (step fadd (rs_N words_setup) 0) (posted_init words_setup odd_mem) g.
Proof. apply lsteps_rtc. Qed.
Lemma odd_mem_words q p : is_word (odd_mem q p).
Proof. unfold odd_mem. destruct (p mod 3 =? 0); [split; done|]. destruct (p mod 3 =? 1); [split; done|]. apply to_bits_valid, normalize_valid; lia. Qed.
Lemma words_run_returns : (fun g => code g 1) <$> words_run 500 = Some (Ret 0).
Proof. vm_compute. reflexivity. Qed.
Lemma ring_words_witness :
  ∃ g, code g 1 = Ret 0 ∧ is_word (mem g 1 (bcell words_setup 1 0 0)) ∧
    of_bits (mem g 1 (bcell words_setup 1 0 0)) =
      reduced (SFadd 24 128) (fun q c i => of_bits (input words_setup odd_mem q c i)) 3 0 0.
Proof.
  destruct (words_run 500) as [g|] eqn:Hg; pose proof words_run_returns as Hc; rewrite Hg in Hc; [|discriminate].
  injection Hc as Hc. exists g. split; [exact Hc|].
  refine (proj1 (ring_words words_setup odd_mem 1 0 0 0 (proj1 bdemo_ok) _ _ odd_mem_words _ _) 0 g
    (words_run_reach 500 g Hg) Hc).
  all: try (split; vm_compute; congruence).
  repeat split; vm_compute; congruence.
Defined.
