(* ===== verification/RdmaStack.v ===== *)
(** The whole stack on queue pairs: N ranks that each run the backend's code for
    the collective, call by call, over the adapters of [RingPosted]. *)
From stdpp Require Import strings gmap.
From S2P Require Import Prelude Prog Sys RdmaCommon RdmaOps Transport RdmaBackend Float32 RingAllreduce RingSpec RingMem RingPosted.
From S2P Require Import AllreduceBench.

(** A float of the memory is its four bytes; [*dst += *src] on them. *)
Abbreviation cell := (list Z).
Definition addb (x y : cell) : cell := le_bytes 4 (fadd (le_val x) (le_val y)).

(** The two transports of every rank. *)
Record stack := mkStack { k_left : Z → Rdma.RdmaTransport; k_right : Z → Rdma.RdmaTransport }.

#[export] Instance send_flag_eq_dec : EqDecision send_flag.
Proof. solve_decision. Defined.

(** * What the driver does with a call *)

Section system.
Context (N : Z) (K : stack).

(** The memory of every process, and the links. *)
Record net := mkNet { n_mem : Z → Z → cell; n_conn : Z → @link cell }.

(** The gather entry lies in the registered region that its key names. *)
Definition covered (t : Rdma.RdmaTransport) (g : sge) : Prop :=
  ∃ p mr m, Rdma.mrs t !! p = Some mr ∧ mr_mr mr = Some m ∧ ibv_lkey m = sge_lkey g ∧
    mr_buf mr ≤ sge_addr g ∧ sge_addr g + sge_length g ≤ mr_buf mr + mr_size mr.
(** An inline send is read at the post. *)
Definition posted_send (m : Z → cell) (c : link) (wr : send_wr) : link :=
  let g := sw_sge wr in
  let snap := if bool_decide (SEND_INLINE ∈ sw_flags wr)
              then Some (mem_read m (sge_addr g) (sge_length g / sizeof_float)) else None in
  mkLink (sq c ++ [mkSwr (sge_addr g) (sge_length g) snap]) (rq c) (scq c) (rcq c) (acks c).
Definition take_rcq (c : @link cell) : link := mkLink (sq c) (rq c) (scq c) (rcq c - 1) (acks c).
Definition take_scq (c : @link cell) : link := mkLink (sq c) (rq c) (scq c - 1) (rcq c) (acks c).

(** A call of rank [r] and its answer, when it is not an empty poll.  Posts and
    completions succeed; a request whose entry is not covered, and any other call,
    has no answer. *)
Definition answers (r : Z) (o : sys_op) (n : net) : sys_ans o → net → Prop :=
  let e := prev_rank N r in
  match o with
  | v_post_send q wr => fun x n' =>
      q = qp_qp (Rdma.qp_ (k_right K r)) ∧ sw_opcode wr = WR_SEND ∧ covered (k_right K r) (sw_sge wr) ∧
      x = 0 ∧ n' = mkNet (n_mem n) (<[r := posted_send (n_mem n r) (n_conn n r) wr]> (n_conn n))
  | v_post_recv q wr => fun x n' =>
      q = qp_qp (Rdma.qp_ (k_left K r)) ∧ covered (k_left K r) (rw_sge wr) ∧
      x = 0 ∧ n' = mkNet (n_mem n) (<[e := push_recv (n_conn n e) (sge_addr (rw_sge wr)) (sge_length (rw_sge wr))]> (n_conn n))
  | v_poll_cq c => fun x n' => x.1 = 1 ∧ wc_ok x.2 = true ∧
      (c = qp_cq (Rdma.qp_ (k_left K r)) ∧ 0 < rcq (n_conn n e) ∧
         n' = mkNet (n_mem n) (<[e := take_rcq (n_conn n e)]> (n_conn n)) ∨
       c = qp_cq (Rdma.qp_ (k_right K r)) ∧ 0 < scq (n_conn n r) ∧
         n' = mkNet (n_mem n) (<[r := take_scq (n_conn n r)]> (n_conn n)))
  | c_load a l => fun x n' => l = 4 ∧ x = n_mem n r a ∧ n' = n
  | c_store a d => fun _ n' => length d = 4%nat ∧ n' = mkNet (<[r := <[a := d]> (n_mem n r)]> (n_mem n)) (n_conn n)
  | _ => fun _ _ => False
  end.
(** A poll may find nothing, even when a completion is on its way. *)
Definition idle_answer (r : Z) (o : sys_op) : sys_ans o → Prop :=
  match o with
  | v_poll_cq c => fun x => x.1 = 0 ∧ (c = qp_cq (Rdma.qp_ (k_left K r)) ∨ c = qp_cq (Rdma.qp_ (k_right K r)))
  | _ => fun _ => False
  end.

(** * The system *)

Record vstate := mkV { v_code : Z → sysM (option Z); v_net : net }.

(** The adapters' steps are those of [RingPosted], which do not look at the
    code. *)
Definition as_gstate (n : net) : @gstate cell := mkG (fun _ => Ret 0) (n_mem n) (n_conn n).
Definition is_nic (l : label) : bool := match l with LProc _ => false | _ => true end.

Inductive vlabel := VRank (r : Z) | VIdle (r : Z) | VNic (l : label).
Definition vstep (l : vlabel) (v v' : vstate) : Prop :=
  match l with
  | VRank r => 0 ≤ r < N ∧
      match v_code v r with
      | Ret _ => False
      | Do o k => ∃ x n', answers r o (v_net v) x n' ∧ v' = mkV (<[r := k x]> (v_code v)) n'
      end
  | VIdle r => 0 ≤ r < N ∧
      match v_code v r with
      | Ret _ => False
      | Do o k => ∃ x, idle_answer r o x ∧ v' = mkV (<[r := k x]> (v_code v)) (v_net v)
      end
  | VNic l => is_nic l = true ∧
      ∃ g', lstep addb N 0 l (as_gstate (v_net v)) = Some g' ∧ v' = mkV (v_code v) (mkNet (mem g') (conn g'))
  end.
Definition vsteps : relation vstate := rtc (fun v v' => ∃ l, vstep l v v').
End system.

(** Every rank about to call [ring_allreduce] on its transports; a poll spins at
    most [pf] times. *)
Definition stack_code (S : ring_setup) (K : stack) (pf : nat) (r : Z) : sysM (option Z) :=
  Bench.on_transports pf (k_left K r) (k_right K r) (ring_code S r).
Definition stack_init (S : ring_setup) (K : stack) (pf : nat) (mem0 : Z → Z → cell) : vstate :=
  mkV (stack_code S K pf) (mkNet mem0 (fun _ => idle_link)).

(** What the connections and registrations before the collective leave: two queue
    pairs with completion queues of their own, the inline grant [max_inline], and
    the three handles registered on their sides. *)
Definition registered_on (t : Rdma.RdmaTransport) (h : BufferHandle) : Prop :=
  (∃ m, Rdma.mr_of t h = Some (mkRaiMr (Some m) (addr h) (size h) 0)) ∧ 0 ≤ addr h ∧ addr h + size h ≤ 2 ^ 64.
Record stack_ok (S : ring_setup) (K : stack) (max_inline : Z) : Prop := {
  so_qp r : 0 ≤ r < rs_N S → qp_qp (Rdma.qp_ (k_left K r)) ≠ 0 ∧ qp_qp (Rdma.qp_ (k_right K r)) ≠ 0;
  so_cq r : 0 ≤ r < rs_N S → qp_cq (Rdma.qp_ (k_left K r)) ≠ 0 ∧ qp_cq (Rdma.qp_ (k_right K r)) ≠ 0 ∧
            qp_cq (Rdma.qp_ (k_left K r)) ≠ qp_cq (Rdma.qp_ (k_right K r));
  so_inline r : 0 ≤ r < rs_N S → qp_max_inline (Rdma.qp_ (k_right K r)) = max_inline;
  so_regs r : 0 ≤ r < rs_N S → registered_on (k_right K r) (rs_r_h S r) ∧
              registered_on (k_left K r) (rs_l_h S r) ∧ registered_on (k_left K r) (rs_stage_h S r);
}.
