(* ===== verification/RdmaStackSim.v ===== *)
(** The stack refines the posted ring: each call of the backend's code is at most
    one operation of the ring's system. *)
From stdpp Require Import strings gmap.
From S2P Require Import Prelude Prog Sys RdmaCommon RdmaOps Transport RdmaBackend Float32 RingAllreduce RingSpec RingMem RingMeasure RingPosted.
From S2P Require Import RingPostedInv RingPostedProof RingPostedCorrect RingPostedTheorems RingBackends AllreduceBench RdmaStack.

(** * What the collective asks of its transports *)

Section uses.
Context (S : ring_setup) (OK : setup_ok S) (Hcb : sizeof_float * rs_chunk S < 2 ^ 32).
Abbreviation N := (rs_N S).
Abbreviation chunk := (rs_chunk S).
Abbreviation cb := (u64 (chunk * sizeof_float)).

(** A transfer inside a registered buffer. *)
Definition inside (h : BufferHandle) (len off : Z) : Prop := 0 < len < 2 ^ 32 ∧ 0 ≤ off ∧ off + len ≤ size h.
Definition uses (r : Z) (o : op ring_sig) : Prop :=
  match (o : ring_op) with
  | recv_blocks _ | poll _ | add_assign _ _ => True
  | send_async Right h len _ off => h = rs_r_h S r ∧ inside h len off
  | recv_async Left h len _ off => (h = rs_l_h S r ∨ h = rs_stage_h S r) ∧ inside h len off
  | _ => False
  end.

Lemma inside_chunk h n c : size h = sizeof_float * (n * chunk) → 0 ≤ c < n → n ≤ N →
  inside h cb (sizeof_float * (c * chunk)).
Proof.
  intros Hs Hc Hn. pose proof (ok_chunk S OK). rewrite cb_eq by done. unfold inside, sizeof_float in *.
  rewrite Hs. nia.
Qed.

Lemma send_inside r s : 0 ≤ r < N → 0 ≤ s < 2 * (N - 1) →
  inside (rs_r_h S r) cb (u64 (send_chunk r N s * cb)).
Proof.
  intros Hr Hs. pose proof (ok_N S OK) as HN. pose proof (send_chunk_range N HN r s Hr Hs).
  rewrite (off_eq S OK) by done. apply (inside_chunk _ N); [apply (ok_r_h S OK r Hr)|lia..].
Qed.
Lemma recv_inside r s : 0 ≤ r < N → 0 ≤ s < 2 * (N - 1) →
  inside (rs_l_h S r) cb (u64 (recv_chunk r N s * cb)).
Proof.
  intros Hr Hs. pose proof (ok_N S OK) as HN. pose proof (recv_chunk_range N HN r s Hr Hs).
  rewrite (off_eq S OK) by done. apply (inside_chunk _ N); [apply (ok_l_h S OK r Hr)|lia..].
Qed.
Lemma stage_inside r h : 0 ≤ r < N → 0 ≤ h < 2 → inside (rs_stage_h S r) cb (u64 (h * cb)).
Proof.
  intros Hr Hh. pose proof (ok_N S OK) as HN. rewrite (off_eq S OK) by lia.
  apply (inside_chunk _ 2); [apply (ok_stage_h S OK r Hr)|lia..].
Qed.

Lemma add_chunk_uses r d s n : only (uses r) (add_chunk d s n).
Proof. apply only_for_unit. intros i _. by apply only_call. Qed.
Lemma post_recv_uses r s : 0 ≤ r < N → 0 ≤ s < 2 * (N - 1) →
  only (uses r) (post_recv (world_of S r) (rs_l_h S r) (rs_stage_h S r) chunk s).
Proof.
  intros Hr Hs. unfold post_recv. cbn [rank wsize world_of]. destruct (Z.ltb_spec s (N - 1)); apply only_call.
  - split; [by right|]. apply stage_inside; [done|]. by destruct (parity S OK s); [lia|].
  - split; [by left|]. by apply recv_inside.
Qed.
Lemma posted_step_uses r s : 0 ≤ r < N → 0 ≤ s < 2 * (N - 1) →
  only (uses r) (ring_posted_step (world_of S r) (rs_r_h S r) (rs_l_h S r) (rs_stage_h S r) (rs_buf S r) (rs_stage S r) chunk s).
Proof.
  intros Hr Hs. unfold ring_posted_step. cbn [rank wsize world_of].
  apply only_bind; [apply only_call; split; [done|by apply send_inside]|]. intros rc. case_bool_decide; [done|].
  apply only_bind; [by apply only_call|]. intros rc'. case_bool_decide; [done|].
  apply only_bind; [destruct (Z.ltb_spec (s + 1) (2 * (N - 1))); [apply post_recv_uses; lia|done]|].
  intros rc2. case_bool_decide; [done|]. apply only_bind; [by apply only_call|]. intros rc3. case_bool_decide; [done|].
  apply only_bind; [destruct (s <? N - 1); [apply add_chunk_uses|done]|done].
Qed.
Lemma fails_or_uses r a b : only (uses r) a → only (uses r) b → only (uses r) (fails_or a b).
Proof. intros Ha Hb. unfold fails_or. apply only_bind; [done|]. intros rc. case_bool_decide; [done|]. by apply only_bind. Qed.
Lemma blocking_step_uses r s : 0 ≤ r < N → 0 ≤ s < 2 * (N - 1) →
  only (uses r) (ring_blocking_step (world_of S r) (rs_r_h S r) (rs_l_h S r) (rs_stage_h S r) (rs_buf S r) (rs_stage S r) chunk s).
Proof.
  intros Hr Hs. unfold ring_blocking_step. cbn [rank wsize world_of].
  assert (Hsnd : only (uses r) (ring_call (send_async Right (rs_r_h S r) cb (u64 s) (u64 (send_chunk r N s * cb))))).
  { apply only_call. split; [done|by apply send_inside]. }
  assert (Hrcv : only (uses r) (ring_call (recv_async Left (if s <? N - 1 then rs_stage_h S r else rs_l_h S r) cb (u64 s)
    (if s <? N - 1 then 0 else u64 (recv_chunk r N s * cb))))).
  { apply only_call. destruct (s <? N - 1); [|split; [by left|by apply recv_inside]].
    split; [by right|]. by apply (stage_inside r 0). }
  apply only_bind; [destruct (_ =? 0); by apply fails_or_uses|]. intros [|]; [done|].
  apply only_bind; [by apply fails_or_uses; apply only_call|]. intros [|]; [done|].
  apply only_bind; [destruct (s <? N - 1); [apply add_chunk_uses|done]|done].
Qed.
Lemma ring_code_uses r : 0 ≤ r < N → only (uses r) (ring_code S r).
Proof.
  intros Hr. pose proof (ok_N S OK) as HN. pose proof (ok_chunk S OK) as Hc. unfold ring_code, ring_allreduce.
  assert (HNw : u64 N = N) by (apply u64_small; pose proof (ok_width S OK); unfold sizeof_float in *; nia).
  cbn [wsize world_of]. rewrite HNw. rewrite (Z.mul_comm N), Z.mod_mul, Z.div_mul by lia.
  rewrite bool_decide_eq_false_2 by (intros Hn; by apply Hn). destruct (Z.ltb_spec N 2); [done|].
  apply only_bind; [by apply only_call|]. intros [|].
  - unfold ring_blocking. cbn [wsize world_of]. apply only_bind; [|done]. apply only_for. intros i Hi. apply blocking_step_uses; lia.
  - unfold ring_posted. cbn [wsize world_of]. apply only_bind; [apply post_recv_uses; lia|]. intros rc. case_bool_decide; [done|].
    apply only_bind; [|done]. apply only_for. intros i Hi. apply posted_step_uses; lia.
Qed.
End uses.

(** * One rank's code against the ring's *)

Section sim.
Context (S : ring_setup) (OK : setup_ok S) (Hcb : sizeof_float * rs_chunk S < 2 ^ 32).
Context (K : stack) (max_inline : Z) (KO : stack_ok S K max_inline) (pf : nat) (mem0 : Z → Z → cell).
Abbreviation N := (rs_N S).
Abbreviation on r := (Bench.on_transports pf (k_left K r) (k_right K r)).
Abbreviation step := (step addb N max_inline).

Definition cq_of (r : Z) (s : side) : Z :=
  match s with Left => qp_cq (Rdma.qp_ (k_left K r)) | Right => qp_cq (Rdma.qp_ (k_right K r)) end.
(** What is left of a poll, and of an addition that has loaded one float, or
    both. *)
Definition polling r (n : nat) (s : side) (k : Z → ringM Z) : sysM (option Z) :=
  x <- poll_loop n (cq_of r s) false ;; match x with None => Ret None | Some (rc, _) => on r (k rc) end.
Definition loaded_one r (x : Z) d s (k : unit → ringM Z) : sysM (option Z) :=
  y <- Bench.load_float s ;; Bench.store_float d (fadd x y) ;; on r (k tt).
Definition loaded_both r (x y : Z) d (k : unit → ringM Z) : sysM (option Z) :=
  Bench.store_float d (fadd x y) ;; on r (k tt).

(** The code [c] of rank [r] with memory [m] is about to do the operation that
    [p] starts with, or in the middle of it, or has run out of fuel.  The number
    bounds the calls it makes before the ring's side has to move. *)
Inductive tracks (r : Z) (m : Z → cell) (c : sysM (option Z)) : ringM Z → Z → Prop :=
| tr_at p : c ≈ on r p → tracks r m c p (Z.of_nat pf + 2)
| tr_poll n s k : c ≈ polling r n s k → (n ≤ pf)%nat → tracks r m c (Do (poll s : op ring_sig) k) (Z.of_nat n)
| tr_one d s k : c ≈ loaded_one r (le_val (m d)) d s k → tracks r m c (Do (add_assign d s : op ring_sig) k) 1
| tr_both d s k : c ≈ loaded_both r (le_val (m d)) (le_val (m s)) d k → tracks r m c (Do (add_assign d s : op ring_sig) k) 0
| tr_out p : c = Ret None → tracks r m c p 0.
Lemma tracks_nonneg r m c p b : tracks r m c p b → 0 ≤ b.
Proof. destruct 1; lia. Qed.

Lemma tracks_mem r m m' c p b :
  (∀ d s k, p = Do (add_assign d s : op ring_sig) k → m' d = m d ∧ m' s = m s) →
  tracks r m c p b → tracks r m' c p b.
Proof.
  intros Hm Ht. revert Hm. destruct Ht as [q Hq|n s k Hq Hn|d s k Hq|d s k Hq|q Hq]; intros Hm.
  - by apply tr_at.
  - by eapply tr_poll.
  - destruct (Hm d s k eq_refl) as [<- _] in Hq. by apply tr_one.
  - destruct (Hm d s k eq_refl) as [<- <-] in Hq. by apply tr_both.
  - by apply tr_out.
Qed.

(** * The calls behind an operation *)

Lemma inside_ok h len off : inside h len off → size h < 2 ^ 64 → post_ok h len off = true.
Proof.
  intros (Hl & Ho & Hs) Hh. unfold post_ok. rewrite u32_small, u64_small by lia. apply bool_decide_eq_true_2. lia.
Qed.
Lemma handle_sizes r : 0 ≤ r < N →
  size (rs_r_h S r) < 2 ^ 64 ∧ size (rs_l_h S r) < 2 ^ 64 ∧ size (rs_stage_h S r) < 2 ^ 64.
Proof.
  intros Hr. pose proof (ok_N S OK). pose proof (ok_chunk S OK). pose proof (ok_width S OK).
  destruct (ok_r_h S OK r Hr) as [_ ->], (ok_l_h S OK r Hr) as [_ ->], (ok_stage_h S OK r Hr) as [_ ->].
  unfold sizeof_float in *. nia.
Qed.

(** A request for a transfer inside a registered buffer. *)
Lemma registered_entry t h m len off :
  Rdma.mr_of t h = Some (mkRaiMr (Some m) (addr h) (size h) 0) → 0 ≤ addr h → addr h + size h ≤ 2 ^ 64 →
  inside h len off →
  posted_entry h m len off = mkSge (addr h + off) len (ibv_lkey m) ∧ covered t (posted_entry h m len off).
Proof.
  intros Hm Ha He (Hl & Ho & Hs).
  assert (Hp : posted_entry h m len off = mkSge (addr h + off) len (ibv_lkey m)).
  { unfold posted_entry. rewrite u64_small, u32_small by lia. done. }
  split; [done|]. rewrite Hp. unfold Rdma.mr_of in Hm. case_bool_decide; [done|].
  exists (priv h), (mkRaiMr (Some m) (addr h) (size h) 0), m. cbn. split_and!; (done || lia).
Qed.

Lemma on_send r h len id off (k : Z → ringM Z) : 0 ≤ r < N → uses S r (send_async Right h len id off) →
  ∃ wr, on r (Do (send_async Right h len id off : op ring_sig) k) ≈
      Do (v_post_send (qp_qp (Rdma.qp_ (k_right K r))) wr : op sys_sig) (fun x => on r (k (zero_ok x))) ∧
    sw_opcode wr = WR_SEND ∧ covered (k_right K r) (sw_sge wr) ∧
    ∀ m c, posted_send m c wr = mkLink (sq c ++ [mkSwr (addr h + off) len
      (if len <=? max_inline then Some (mem_read m (addr h + off) (len / sizeof_float)) else None)])
      (rq c) (scq c) (rcq c) (acks c).
Proof.
  intros Hr [-> Hin]. destruct (so_regs S K max_inline KO r Hr) as (((m & Hm) & Ha & He) & _).
  destruct (async_posts (k_right K r) (rs_r_h S r) m 0 len id off Hm (proj2 (so_qp S K max_inline KO r Hr))) as [Hs _].
  destruct (registered_entry _ _ _ _ _ Hm Ha He Hin) as [Hp Hc].
  eexists (mkSendWr id (posted_entry (rs_r_h S r) m len off) WR_SEND _ 0 0). split; [|split; [done|split; [done|]]].
  - cbn [Bench.on_transports]. cbn [t_send_async rdma_transport]. rewrite Hs. unfold guarded_post.
    rewrite inside_ok by (done || apply handle_sizes; lia). cbn. eexists. split; [reflexivity|done].
  - intros m' c. unfold posted_send. cbn [sw_sge sw_flags]. rewrite Hp. cbn [sge_addr sge_length].
    do 3 f_equal. unfold with_inline. rewrite (so_inline S K max_inline KO r Hr). destruct Hin as (Hl & _). rewrite u32_small by lia.
    destruct (len <=? max_inline); [by rewrite bool_decide_eq_true_2 by (right; left)|].
    by rewrite bool_decide_eq_false_2 by (rewrite list_elem_of_singleton; done).
Qed.
Lemma on_recv r h len id off (k : Z → ringM Z) : 0 ≤ r < N → uses S r (recv_async Left h len id off) →
  ∃ wr, on r (Do (recv_async Left h len id off : op ring_sig) k) ≈
      Do (v_post_recv (qp_qp (Rdma.qp_ (k_left K r))) wr : op sys_sig) (fun x => on r (k (zero_ok x))) ∧
    covered (k_left K r) (rw_sge wr) ∧ sge_addr (rw_sge wr) = addr h + off ∧ sge_length (rw_sge wr) = len.
Proof.
  intros Hr [Hh Hin]. assert (Hreg : registered_on (k_left K r) h).
  { destruct (so_regs S K max_inline KO r Hr) as (_ & Hl & Hs). by destruct Hh as [->| ->]. }
  assert (Hsz : size h < 2 ^ 64) by (destruct (handle_sizes r Hr) as (_ & ? & ?); by destruct Hh as [->| ->]).
  destruct Hreg as ((m & Hm) & Ha & He).
  destruct (async_posts (k_left K r) h m 0 len id off Hm (proj1 (so_qp S K max_inline KO r Hr))) as [_ Hs].
  destruct (registered_entry _ _ _ _ _ Hm Ha He Hin) as [Hp Hc].
  exists (mkRecvWr id (posted_entry h m len off)). split; [|rewrite Hp in *; by split].
  cbn [Bench.on_transports]. cbn [t_recv_async rdma_transport]. rewrite Hs. unfold guarded_post.
  rewrite inside_ok by done. cbn. eexists. split; [reflexivity|done].
Qed.
Lemma on_poll r s (k : Z → ringM Z) : 0 ≤ r < N → on r (Do (poll s : op ring_sig) k) = polling r pf s k.
Proof.
  intros Hr. cbn [Bench.on_transports]. unfold polling. destruct (so_cq S K max_inline KO r Hr) as (Hl & Hrt & _).
  destruct s; cbn [t_poll rdma_transport cq_of]; unfold Rdma.poll, rai_poll_cq; by rewrite bool_decide_eq_false_2.
Qed.
Lemma polling_step r n s k : polling r (Datatypes.S n) s k ≈
  Do (v_poll_cq (cq_of r s) : op sys_sig) (fun x => if x.1 <? 0 then on r (k (-1)) else
    if 0 <? x.1 then (if wc_ok x.2 then on r (k 0) else on r (k (-1))) else polling r n s k).
Proof.
  unfold polling. cbn. eexists. split; [reflexivity|]. intros [x w]. cbn [fst snd].
  destruct (x <? 0); [done|]. destruct (0 <? x); [|done]. by destruct (wc_ok w).
Qed.
Lemma on_add r d s (k : unit → ringM Z) : on r (Do (add_assign d s : op ring_sig) k) ≈
  Do (c_load d 4 : op sys_sig) (fun x => loaded_one r (le_val x) d s k).
Proof. apply peq_refl. Qed.
Lemma loaded_one_step r x d s k : loaded_one r x d s k ≈ Do (c_load s 4 : op sys_sig) (fun y => loaded_both r x (le_val y) d k).
Proof. apply peq_refl. Qed.
Lemma loaded_both_step r x y d k : loaded_both r x y d k ≈ Do (c_store d (le_bytes 4 (fadd x y)) : op sys_sig) (fun _ => on r (k tt)).
Proof. apply peq_refl. Qed.

(** * The simulation *)

(** [recv_blocks] is answered without a call: the ring's side is kept past it. *)
Definition settled (p : ringM Z) : bool :=
  match p with Do o _ => match (o : ring_op) with recv_blocks _ => false | _ => true end | Ret _ => true end.
Record sim (v : vstate) (g : @gstate cell) (b : Z → Z) : Prop := {
  sm_mem : mem g = n_mem (v_net v);
  sm_conn : conn g = n_conn (v_net v);
  sm_rank r : 0 ≤ r < N → settled (code g r) = true ∧ only (uses S r) (code g r) ∧ tracks r (mem g r) (v_code v r) (code g r) (b r);
  sm_reach : rtc step (posted_init S mem0) g;
}.

(** Each call costs one of the ring's steps, or of the calls up to the next. *)
Definition cost (g : @gstate cell) (b : Z → Z) : Z := (Z.of_nat pf + 3) * work N g + total N b.
Lemma steps_work g g' : rtc step g g' → work N g' ≤ work N g.
Proof. induction 1 as [g|g g1 g' Hs _ IH]; [done|]. pose proof (step_work addb N max_inline g g1 (ok_N S OK) Hs). lia. Qed.
Lemma cost_step g g1 g' b : step g g1 → rtc step g1 g' → cost g' b + Z.of_nat pf + 3 ≤ cost g b.
Proof.
  intros Hs Hg. pose proof (step_work addb N max_inline g g1 (ok_N S OK) Hs). apply steps_work in Hg. unfold cost. nia.
Qed.

Lemma lstep_proc g r g' : 0 ≤ r < N → proc_step addb N max_inline g r = Some g' → step g g'.
Proof. intros Hr Hp. exists (LProc r). unfold lstep. by rewrite bool_decide_eq_true_2. Qed.
Lemma settle_at p g r : 0 ≤ r < N → code g r = p →
  ∃ g', rtc step g g' ∧ settled (code g' r) = true ∧ mem g' = mem g ∧ conn g' = conn g ∧
    (∀ r', r' ≠ r → code g' r' = code g r') ∧ on r (code g' r) = on r p ∧ (only (uses S r) p → only (uses S r) (code g' r)).
Proof.
  intros Hr. revert g. induction p as [a|o k IH]; intros g Hc.
  { exists g. rewrite Hc. split_and!; done. }
  destruct (settled (Do o k)) eqn:Hs.
  { exists g. rewrite Hc. split_and!; done. }
  destruct o as [t|[] h len id off|[] h len id off|t|d s]; try discriminate Hs. clear Hs.
  destruct (IH false (set_code g r (k false))) as (g' & Hg' & Hset & Hm & Hn & Ho & Hon & Hu).
  { cbn. by rewrite fn_lookup_insert. }
  exists g'. split; [eapply rtc_l; [|exact Hg']; apply (lstep_proc g r); [done|]; unfold proc_step; by rewrite Hc|].
  split; [done|]. split; [done|]. split; [done|]. split; [|split].
  - intros r' Hne. rewrite Ho by done. cbn. by rewrite fn_lookup_insert_ne.
  - rewrite Hon. cbn [Bench.on_transports]. done.
  - intros [_ Hk]. apply Hu, Hk.
Qed.

(** The code of one rank changes. *)
Abbreviation follows v' g b := (∃ g' b', rtc step g g' ∧ sim v' g' b' ∧ cost g' b' < cost g b).
Lemma sim_stay v g b r c x : 0 ≤ r < N → sim v g b → tracks r (mem g r) c (code g r) x → x < b r →
  follows (mkV (<[r := c]> (v_code v)) (v_net v)) g b.
Proof.
  intros Hr [Hm Hn Hk Hg] Ht Hx. exists g, (<[r := x]> b). split; [done|].
  split; [|unfold cost; rewrite total_insert by done; lia]. split; [done..| |done]. intros r' Hr'. destruct (Hk r' Hr') as (Hs & Hu & Ht'). split; [done|].
  split; [done|]. cbn. destruct (decide (r = r')) as [<-|Hne]; [by rewrite !fn_lookup_insert|by rewrite !fn_lookup_insert_ne].
Qed.
Lemma sim_move v g b g1 n' r c :
  0 ≤ r < N → sim v g b → proc_step addb N max_inline g r = Some g1 →
  (∀ r', r' ≠ r → code g1 r' = code g r' ∧ mem g1 r' = mem g r') → only (uses S r) (code g1 r) →
  mem g1 = n_mem n' → conn g1 = n_conn n' → c ≈ on r (code g1 r) →
  follows (mkV (<[r := c]> (v_code v)) n') g b.
Proof.
  intros Hr [Hm Hn Hk Hg] Hp Ho Hu Hm1 Hn1 Hc.
  destruct (settle_at (code g1 r) g1 r Hr eq_refl) as (g' & Hg' & Hset & Hm' & Hn' & Ho' & Hon & Hu').
  assert (Hgg : rtc step g g') by (eapply rtc_l; [by eapply lstep_proc|exact Hg']).
  exists g', (<[r := Z.of_nat pf + 2]> b). split; [done|]. split.
  2:{ pose proof (cost_step g g1 g' b (lstep_proc g r g1 Hr Hp) Hg'). pose proof (tracks_nonneg _ _ _ _ _ (proj2 (proj2 (Hk r Hr)))).
      unfold cost in *. rewrite total_insert by done. lia. }
  split; cbn; [by rewrite Hm'|by rewrite Hn'| |by etransitivity].
  intros r' Hr'. rewrite Hm'. destruct (decide (r = r')) as [<-|Hne].
  - split; [done|]. split; [auto|]. rewrite !fn_lookup_insert. apply tr_at. by rewrite Hon.
  - destruct (Ho r') as [Hc1 Hm2]; [done|]. rewrite Ho', Hc1, Hm2, !fn_lookup_insert_ne by done. by apply Hk.
Qed.
Lemma peq_do {A} (c : sysM A) (o : op sys_sig) k : c ≈ Do o k → ∃ k', c = Do o k' ∧ ∀ x, k' x ≈ k x.
Proof. intros Hc. symmetry in Hc. destruct Hc as (k' & -> & Hk). exists k'. split; [done|]. intros x. by symmetry. Qed.

Abbreviation moves v g b r v' := (vstep N K (VRank r) v v' → follows v' g b).
(** [Hc]: the code of the rank; the answer and what it does to the net. *)
Ltac answered Hc :=
  intros [_ Hans]; rewrite Hc in Hans; destruct Hans as (x & n' & Hans & ->); cbn [answers] in Hans.

Lemma sim_send v g b r h len id off k v' : 0 ≤ r < N → sim v g b →
  code g r = Do (send_async Right h len id off : op ring_sig) k → v_code v r ≈ on r (code g r) → moves v g b r v'.
Proof.
  intros Hr Hsim Hp Hc. destruct (sm_rank _ _ _ Hsim r Hr) as (_ & Hu & _). rewrite Hp in Hc, Hu. destruct Hu as [Hu Hk].
  destruct (on_send r h len id off k Hr Hu) as (wr & Hon & _ & _ & Hlink). rewrite Hon in Hc.
  apply peq_do in Hc as (k' & Hc & Hk'). answered Hc. destruct Hans as (_ & _ & _ & -> & ->).
  destruct Hu as [-> Hin]. assert (Hpost : post_ok (rs_r_h S r) len off = true) by (apply inside_ok; [done|by apply handle_sizes]).
  assert (Hlen : u32 len = len) by (apply u32_small; destruct Hin; lia).
  eapply (sim_move v g b _ _ r (k' 0) Hr Hsim); [unfold proc_step; rewrite Hp, Hpost; reflexivity| | | | |]; cbn.
  - intros r' Hne. by rewrite fn_lookup_insert_ne.
  - rewrite fn_lookup_insert. apply Hk.
  - apply (sm_mem _ _ _ Hsim).
  - rewrite Hlink, <- (sm_conn _ _ _ Hsim), <- (sm_mem _ _ _ Hsim). unfold push_send. by rewrite Hlen.
  - rewrite fn_lookup_insert. apply Hk'.
Qed.
Lemma sim_recv v g b r h len id off k v' : 0 ≤ r < N → sim v g b →
  code g r = Do (recv_async Left h len id off : op ring_sig) k → v_code v r ≈ on r (code g r) → moves v g b r v'.
Proof.
  intros Hr Hsim Hp Hc. destruct (sm_rank _ _ _ Hsim r Hr) as (_ & Hu & _). rewrite Hp in Hc, Hu. destruct Hu as [Hu Hk].
  destruct (on_recv r h len id off k Hr Hu) as (wr & Hon & _ & Ha & Hl). rewrite Hon in Hc.
  apply peq_do in Hc as (k' & Hc & Hk'). answered Hc. destruct Hans as (_ & _ & -> & ->).
  destruct Hu as [Hh Hin].
  assert (Hpost : post_ok h len off = true).
  { apply inside_ok; [done|]. destruct (handle_sizes r Hr) as (_ & ? & ?). by destruct Hh as [->| ->]. }
  assert (Hlen : u32 len = len) by (apply u32_small; destruct Hin; lia).
  eapply (sim_move v g b _ _ r (k' 0) Hr Hsim); [unfold proc_step; rewrite Hp, Hpost; reflexivity| | | | |]; cbn.
  - intros r' Hne. by rewrite fn_lookup_insert_ne.
  - rewrite fn_lookup_insert. apply Hk.
  - apply (sm_mem _ _ _ Hsim).
  - by rewrite Ha, Hl, Hlen, <- (sm_conn _ _ _ Hsim).
  - rewrite fn_lookup_insert. apply Hk'.
Qed.
Lemma sim_poll v g b r s n k v' : 0 ≤ r < N → sim v g b →
  code g r = Do (poll s : op ring_sig) k → v_code v r ≈ polling r n s k → moves v g b r v'.
Proof.
  intros Hr Hsim Hp Hc. destruct (sm_rank _ _ _ Hsim r Hr) as (_ & Hu & _). rewrite Hp in Hu. destruct Hu as [_ Hk].
  destruct n as [|n].
  { cbn in Hc. intros [_ Hans]. symmetry in Hc. cbn in Hc. by rewrite Hc in Hans. }
  rewrite polling_step in Hc. apply peq_do in Hc as (k' & Hc & Hk'). answered Hc.
  destruct x as [x w]. cbn [fst snd] in *. destruct Hans as (-> & Hw & Hcq). specialize (Hk' (1, w)). cbn in Hk'. rewrite Hw in Hk'.
  destruct (so_cq S K max_inline KO r Hr) as (_ & _ & Hne). rewrite <- (sm_conn _ _ _ Hsim) in Hcq.
  destruct s; cbn [cq_of] in Hcq; (destruct Hcq as [(Hq & Hpos & ->)|(Hq & Hpos & ->)]; [|]); try (by rewrite Hq in Hne).
  - eapply (sim_move v g b _ _ r (k' (1, w)) Hr Hsim);
      [unfold proc_step; rewrite Hp; cbn; by rewrite (proj2 (Z.ltb_lt _ _) Hpos)| | | | |]; cbn.
    + intros r' Hner. by rewrite fn_lookup_insert_ne.
    + rewrite fn_lookup_insert. apply Hk.
    + apply (sm_mem _ _ _ Hsim).
    + done.
    + by rewrite fn_lookup_insert.
  - eapply (sim_move v g b _ _ r (k' (1, w)) Hr Hsim);
      [unfold proc_step; rewrite Hp; cbn; by rewrite (proj2 (Z.ltb_lt _ _) Hpos)| | | | |]; cbn.
    + intros r' Hner. by rewrite fn_lookup_insert_ne.
    + rewrite fn_lookup_insert. apply Hk.
    + apply (sm_mem _ _ _ Hsim).
    + done.
    + by rewrite fn_lookup_insert.
Qed.

(** An addition: two loads during which the ring's side waits, and a store. *)
Lemma sim_load_dst v g b r d s k v' : 0 ≤ r < N → sim v g b →
  code g r = Do (add_assign d s : op ring_sig) k → v_code v r ≈ on r (code g r) → b r = Z.of_nat pf + 2 → moves v g b r v'.
Proof.
  intros Hr Hsim Hp Hc Hb. rewrite Hp, on_add in Hc. apply peq_do in Hc as (k' & Hc & Hk'). answered Hc.
  destruct Hans as (_ & -> & ->). apply (sim_stay v g b r _ 1); [done..| |lia]. rewrite Hp. apply tr_one.
  rewrite (sm_mem _ _ _ Hsim). apply Hk'.
Qed.
Lemma sim_load_src v g b r d s k v' : 0 ≤ r < N → sim v g b →
  code g r = Do (add_assign d s : op ring_sig) k → v_code v r ≈ loaded_one r (le_val (mem g r d)) d s k → b r = 1 → moves v g b r v'.
Proof.
  intros Hr Hsim Hp Hc Hb. rewrite loaded_one_step in Hc. apply peq_do in Hc as (k' & Hc & Hk'). answered Hc.
  destruct Hans as (_ & -> & ->). apply (sim_stay v g b r _ 0); [done..| |lia]. rewrite Hp. apply tr_both.
  rewrite (sm_mem _ _ _ Hsim). rewrite (sm_mem _ _ _ Hsim) in Hk'. apply Hk'.
Qed.
Lemma sim_store v g b r d s k v' : 0 ≤ r < N → sim v g b →
  code g r = Do (add_assign d s : op ring_sig) k →
  v_code v r ≈ loaded_both r (le_val (mem g r d)) (le_val (mem g r s)) d k → moves v g b r v'.
Proof.
  intros Hr Hsim Hp Hc. destruct (sm_rank _ _ _ Hsim r Hr) as (_ & Hu & _). rewrite Hp in Hu. destruct Hu as [_ Hk].
  rewrite loaded_both_step in Hc. apply peq_do in Hc as (k' & Hc & Hk'). answered Hc. destruct Hans as (_ & ->).
  eapply (sim_move v g b _ _ r (k' x) Hr Hsim); [unfold proc_step; rewrite Hp; reflexivity| | | | |].
  - intros r' Hne. cbn. by rewrite !fn_lookup_insert_ne.
  - cbn. rewrite fn_lookup_insert. apply Hk.
  - cbn [mem set_mem set_code n_mem]. by rewrite <- (sm_mem _ _ _ Hsim).
  - cbn. apply (sm_conn _ _ _ Hsim).
  - cbn [code set_code]. rewrite fn_lookup_insert. apply Hk'.
Qed.

Lemma peq_ret {A} (c : sysM A) a : c ≈ Ret a → c = Ret a.
Proof. intros Hc. by symmetry in Hc. Qed.
Lemma rank_sim v g b r v' : sim v g b → vstep N K (VRank r) v v' → follows v' g b.
Proof.
  intros Hsim Hv. assert (Hr : 0 ≤ r < N) by apply Hv. revert Hv.
  destruct (sm_rank _ _ _ Hsim r Hr) as (Hs & Hu & Ht). remember (code g r) as p eqn:Hp. remember (b r) as x eqn:Hb. symmetry in Hp, Hb. revert Hp Hb Hs Hu.
  destruct Ht as [p Hc|n s k Hc Hn|d s k Hc|d s k Hc|p Hc]; intros Hp Hb Hs Hu.
  - destruct p as [a|[t|[] h len id off|[] h len id off|t|d s] k]; try discriminate Hs; try (by destruct Hu).
    + intros [_ Hv]. apply peq_ret in Hc. by rewrite Hc in Hv.
    + rewrite <- Hp in Hc. by eapply sim_send.
    + rewrite <- Hp in Hc. by eapply sim_recv.
    + rewrite on_poll in Hc by done. by eapply sim_poll.
    + rewrite <- Hp in Hc. by eapply sim_load_dst.
  - by eapply sim_poll.
  - by eapply sim_load_src.
  - by eapply sim_store.
  - intros [_ Hv]. by rewrite Hc in Hv.
Qed.
Lemma idle_sim v g b r v' : sim v g b → vstep N K (VIdle r) v v' → follows v' g b.
Proof.
  intros Hsim [Hr Hv]. destruct (sm_rank _ _ _ Hsim r Hr) as (Hs & Hu & Ht).
  remember (code g r) as p eqn:Hp. symmetry in Hp.
  assert (Hcase : (∃ n s k, p = Do (poll s : op ring_sig) k ∧ v_code v r ≈ polling r n s k ∧ (n ≤ pf)%nat ∧ Z.of_nat n ≤ b r) ∨
    match v_code v r with Ret _ => True | Do o _ => ∀ x, ¬ idle_answer K r o x end).
  { remember (b r) as x eqn:Hb. destruct Ht as [p Hc|n s k Hc Hn|d s k Hc|d s k Hc|p Hc].
    - destruct p as [a|[t|[] h len id off|[] h len id off|t|d s] k]; try discriminate Hs; try (by destruct Hu).
      + right. apply peq_ret in Hc. by rewrite Hc.
      + right. destruct (on_send r h len id off k Hr (proj1 Hu)) as (wr & Hon & _). rewrite Hon in Hc.
        apply peq_do in Hc as (k' & -> & _). by intros x [].
      + right. destruct (on_recv r h len id off k Hr (proj1 Hu)) as (wr & Hon & _). rewrite Hon in Hc.
        apply peq_do in Hc as (k' & -> & _). by intros x [].
      + left. rewrite on_poll in Hc by done. eexists _, _, _. split_and!; (done || lia).
      + right. rewrite on_add in Hc. apply peq_do in Hc as (k' & -> & _). by intros x [].
    - left. eexists _, _, _. split_and!; (done || lia).
    - right. rewrite loaded_one_step in Hc. apply peq_do in Hc as (k' & -> & _). by intros x [].
    - right. rewrite loaded_both_step in Hc. apply peq_do in Hc as (k' & -> & _). by intros x [].
    - right. by rewrite Hc. }
  destruct Hcase as [(n & s & k & -> & Hc & Hn & Hb)|Hno].
  - destruct n as [|n]; [cbn in Hc; symmetry in Hc; cbn in Hc; by rewrite Hc in Hv|].
    rewrite polling_step in Hc. apply peq_do in Hc as (k' & Hc & Hk'). rewrite Hc in Hv.
    destruct Hv as (x & (Hx & _) & ->). apply (sim_stay v g b r _ (Z.of_nat n)); [done..| |lia].
    rewrite Hp. apply tr_poll; [|lia]. by rewrite Hk', Hx.
  - destruct (v_code v r) as [|o k']; [done|]. destruct Hv as (x & Hx & _). by destruct (Hno x).
Qed.

(** The adapters. *)
Lemma nic_step l g g1 m : is_nic l = true → mem g = n_mem m → conn g = n_conn m →
  lstep addb N 0 l (as_gstate m) = Some g1 →
  lstep addb N max_inline l g = Some (mkG (code g) (mem g1) (conn g1)).
Proof.
  intros Hl Hm Hn. destruct g as [c gm gc]. cbn in Hm, Hn. subst gm gc. unfold lstep. case_bool_decide; [|done].
  destruct l as [r|r k|r|r]; [done| | |]; unfold fetch_step, deliver_step, ack_step, set_conn, set_mem, as_gstate; cbn.
  - destruct (sq (n_conn m r) !! k) as [[a len [|]]|]; try done. by intros [= <-].
  - destruct (sq (n_conn m r)) as [|[a len [d|]] ws]; try done. destruct (rq (n_conn m r)) as [|[a' rl] rs]; [done|].
    destruct (len <=? rl); [|done]. by intros [= <-].
  - destruct (0 <? acks (n_conn m r)); [|done]. by intros [= <-].
Qed.
(** A delivery spares the two floats a rank is adding. *)
Lemma nic_spares g l g' r d s k : rtc step (posted_init S mem0) g → is_nic l = true → lstep addb N max_inline l g = Some g' →
  0 ≤ r < N → code g r = Do (add_assign d s : op ring_sig) k → mem g' r d = mem g r d ∧ mem g' r s = mem g r s.
Proof.
  intros Hreach Hl Hstep Hr Hc. unfold lstep in Hstep. case_bool_decide as He; [|done].
  destruct l as [e|e i|e|e]; [done| | |]; cbn [label_rank] in He.
  - unfold fetch_step in Hstep. destruct (sq (conn g e) !! i) as [[a len [|]]|]; try done. by injection Hstep as <-.
  - pose proof Hstep as Hdel. unfold deliver_step in Hstep.
    destruct (sq (conn g e)) as [|[a0 len [data|]] ws] eqn:Hsq; try done.
    destruct (rq (conn g e)) as [|[a rl] rs] eqn:Hrq; [done|].
    destruct (len <=? rl); [|done]. injection Hstep as <-. cbn.
    destruct (decide (next_rank N e = r)) as [<-|Hne]; [rewrite fn_lookup_insert|by rewrite fn_lookup_insert_ne].
    destruct (deliver_spares addb S mem0 max_inline g _ e a rl rs d s k OK Hcb Hreach He Hdel Hrq Hc) as (Hd & Hs & Hlen).
    assert (Hdat : Z.of_nat (length data) ≤ rl / sizeof_float) by (eapply Hlen; by rewrite Hsq).
    split; apply mem_write_out; intros i Hi Heq; [apply Hd|apply Hs]; exists i; (split; [lia|done]).
  - unfold ack_step in Hstep. destruct (0 <? acks (conn g e)); [|done]. by injection Hstep as <-.
Qed.
Lemma nic_sim v g b l v' : sim v g b → vstep N K (VNic l) v v' → follows v' g b.
Proof.
  intros Hsim (Hl & g1 & Hg1 & ->). destruct Hsim as [Hm Hn Hk Hg].
  pose proof (nic_step l g g1 (v_net v) Hl Hm Hn Hg1) as Hstep. eexists _, b. split; [by apply rtc_once; exists l|].
  split; [|pose proof (cost_step g _ _ b (ex_intro _ l Hstep) (rtc_refl _ _)); lia].
  split; cbn; [done..| |eapply rtc_r; [exact Hg|by exists l]]. intros r Hr. destruct (Hk r Hr) as (Hs & Hu & Ht).
  split; [done|]. split; [done|]. eapply tracks_mem; [|exact Ht]. intros d s k Hc.
  exact (nic_spares g l _ r d s k Hg Hl Hstep Hr Hc).
Qed.
Lemma stack_sim v g b l v' : sim v g b → vstep N K l v v' → follows v' g b.
Proof. intros Hsim. destruct l; [by apply rank_sim|by apply idle_sim|by apply nic_sim]. Qed.

(** The start: every rank is settled in turn. *)
Lemma settle_all n : (n ≤ Z.to_nat N)%nat → ∃ g, rtc step (posted_init S mem0) g ∧ mem g = mem0 ∧ conn g = (fun _ => idle_link) ∧
  (∀ r, 0 ≤ r < Z.of_nat n → settled (code g r) = true ∧ only (uses S r) (code g r) ∧ on r (code g r) = on r (ring_code S r)) ∧
  (∀ r, Z.of_nat n ≤ r → code g r = ring_code S r).
Proof.
  induction n as [|n IH]; intros Hn; [exists (posted_init S mem0); split_and!; (done || lia)|].
  destruct IH as (g & Hg & Hm & Hc & Hdone & Hrest); [lia|].
  destruct (settle_at (ring_code S (Z.of_nat n)) g (Z.of_nat n)) as (g' & Hg' & Hset & Hm' & Hn' & Ho & Hon & Hu); [lia|apply Hrest; lia|].
  exists g'. split; [by etransitivity|]. split; [by rewrite Hm'|]. split; [by rewrite Hn'|]. split.
  - intros r Hr. destruct (decide (r = Z.of_nat n)) as [->|Hne].
    + split; [done|]. split; [apply Hu, ring_code_uses; (done || lia)|done].
    + rewrite Ho by done. apply Hdone. lia.
  - intros r Hr. rewrite Ho by lia. apply Hrest. lia.
Qed.
Lemma stack_start : ∃ g, rtc step (posted_init S mem0) g ∧ sim (stack_init S K pf mem0) g (fun _ => Z.of_nat pf + 2).
Proof.
  destruct (settle_all (Z.to_nat N)) as (g & Hg & Hm & Hc & Hdone & _); [done|].
  exists g. split; [done|]. split; [done|done| |done]. intros r Hr. destruct (Hdone r) as (Hs & Hu & Hon); [lia|].
  split; [done|]. split; [done|]. apply tr_at. cbn. unfold stack_code. by rewrite Hon.
Qed.
(** Every execution of the stack is one of the posted ring, and no longer than
    what it costs. *)
Definition budget : Z := cost (posted_init S mem0) (fun _ => Z.of_nat pf + 2).
Lemma stack_refines n v : nsteps (fun v v' => ∃ l, vstep N K l v v') n (stack_init S K pf mem0) v →
  ∃ g b, rtc step (posted_init S mem0) g ∧ sim v g b ∧ cost g b + Z.of_nat n ≤ budget.
Proof.
  intros Hv. destruct stack_start as (g0 & Hg0 & Hsim0).
  assert (Hc0 : cost g0 (fun _ => Z.of_nat pf + 2) ≤ budget).
  { unfold budget, cost. apply steps_work in Hg0. nia. }
  assert (Hg : ∀ v0 g0 b0, nsteps (fun v v' => ∃ l, vstep N K l v v') n v0 v → sim v0 g0 b0 →
    ∃ g b, rtc step g0 g ∧ sim v g b ∧ cost g b + Z.of_nat n ≤ cost g0 b0).
  { clear -OK Hcb KO. intros v0 g0 b0 Hv. revert g0 b0. induction Hv as [v|n v v1 v2 [l Hl] _ IH]; intros g0 b0 Hsim.
    { exists g0, b0. split_and!; (done || lia). }
    destruct (stack_sim v g0 b0 l v1 Hsim Hl) as (g1 & b1 & Hg1 & Hsim1 & Hc1).
    destruct (IH g1 b1 Hsim1) as (g2 & b2 & Hg2 & Hsim2 & Hc2). exists g2, b2.
    split_and!; [by etransitivity|done|lia]. }
  destruct (Hg _ _ _ Hv Hsim0) as (g & b & Hgg & Hsim & Hc). exists g, b. split_and!; [by etransitivity|done|lia].
Qed.
Lemma cost_nonneg v g b : sim v g b → 0 ≤ cost g b.
Proof.
  intros Hsim. unfold cost. pose proof (work_nonneg N g). assert (0 ≤ total N b); [|nia].
  rewrite (total_ext N b (fun r => Z.max 0 (b r))); [apply total_nonneg; lia|].
  intros r Hr. destruct (sm_rank _ _ _ Hsim r Hr) as (_ & _ & Ht). apply tracks_nonneg in Ht. lia.
Qed.
End sim.
