(* ===== verification/RdmaStackTheorems.v ===== *)
(** What the stack on queue pairs computes, and that it ends. *)
From stdpp Require Import strings gmap.
From S2P Require Import Prelude Prog Sys RdmaCommon RdmaOps Transport RdmaBackend Float32 RingAllreduce RingSpec RingMem RingMeasure RingPosted.
From S2P Require Import RingPostedInv RingPostedProof RingPostedCorrect RingPostedTheorems RingBackends AllreduceBench RdmaStack RdmaStackSim.

Section stack.
Context (S : ring_setup) (OK : setup_ok S) (Hcb : sizeof_float * rs_chunk S < 2 ^ 32).
Context (K : stack) (max_inline : Z) (KO : stack_ok S K max_inline) (pf : nat) (mem0 : Z → Z → cell).
Abbreviation N := (rs_N S).
Abbreviation sim := (sim S K max_inline pf mem0).
Abbreviation runs := (nsteps (fun v v' => ∃ l, vstep N K l v v')).

(** The ring's side of a rank that returned. *)
Lemma sim_returned v g b r x : 0 ≤ r < N → sim v g b → v_code v r = Ret (Some x) → code g r = Ret x.
Proof.
  intros Hr Hsim Hc. destruct (sm_rank _ _ _ _ _ _ _ _ Hsim r Hr) as (Hs & Hu & Ht).
  destruct Ht as [p Hq|n s k Hq Hn|d s k Hq|d s k Hq|p Hq]; rewrite Hc in Hq.
  - destruct p as [a|[t|[] h len id off|[] h len id off|t|d s] k]; try discriminate Hs; try (by destruct Hu).
    + by injection Hq as ->.
    + destruct (on_send S OK Hcb K max_inline KO pf r h len id off k Hr (proj1 Hu)) as (wr & Hon & _). by rewrite Hon in Hq.
    + destruct (on_recv S OK Hcb K max_inline KO pf r h len id off k Hr (proj1 Hu)) as (wr & Hon & _). by rewrite Hon in Hq.
    + rewrite (on_poll S K max_inline KO) in Hq by done. destruct pf; [by symmetry in Hq|]. by rewrite polling_step in Hq.
  - destruct n; [by symmetry in Hq|]. by rewrite polling_step in Hq.
  - by rewrite loaded_one_step in Hq.
  - by rewrite loaded_both_step in Hq.
  - done.
Qed.
Lemma stack_holds n v r x :
  runs n (stack_init S K pf mem0) v → 0 ≤ r < N → v_code v r = Ret (Some x) →
  x = 0 ∧
  (∀ c i, inner S c N i → n_mem (v_net v) r (bcell S r c i) = reduced addb (input S mem0) N c i) ∧
  (∀ p, outside S r p → n_mem (v_net v) r p = mem0 r p).
Proof.
  intros Hv Hr Hc. destruct (stack_refines S OK Hcb K max_inline KO pf mem0 n v Hv) as (g & b & Hg & Hsim & _).
  rewrite <- (sm_mem _ _ _ _ _ _ _ _ Hsim). apply (posted_holds addb S mem0 max_inline g r x OK Hcb Hg Hr).
  by eapply sim_returned.
Qed.

(** * Progress *)

Lemma peq_enabled v r (o : op sys_sig) k : 0 ≤ r < N → v_code v r ≈ Do o k → (∃ x n', answers N K r o (v_net v) x n') →
  ∃ v', vstep N K (VRank r) v v'.
Proof.
  intros Hr Hc (x & n' & Ha). apply peq_do in Hc as (k' & Hc & _). eexists. split; [done|]. rewrite Hc. by eexists x, n'.
Qed.
Lemma poll_enabled v g b r s n (k : Z → ringM Z) g' : 0 ≤ r < N → sim v g b → v_code v r ≠ Ret None →
  code g r = Do (poll s : op ring_sig) k → proc_step addb N max_inline g r = Some g' →
  v_code v r ≈ polling K pf r n s k → ∃ v', vstep N K (VRank r) v v'.
Proof.
  intros Hr Hsim Hne Hp Hstep Hc. destruct n as [|n]; [by symmetry in Hc|]. rewrite polling_step in Hc.
  unfold proc_step in Hstep. rewrite Hp in Hstep. pose proof (sm_conn _ _ _ _ _ _ _ _ Hsim) as Hn.
  destruct s; cbn in Hstep.
  - destruct (Z.ltb_spec 0 (rcq (conn g (prev_rank N r)))) as [Hpos|]; [|done]. rewrite Hn in Hpos.
    eapply peq_enabled; [done|exact Hc|]. eexists (1, mkWc true 0), _. split; [done|]. split; [done|]. by left.
  - destruct (Z.ltb_spec 0 (scq (conn g r))) as [Hpos|]; [|done]. rewrite Hn in Hpos.
    eapply peq_enabled; [done|exact Hc|]. eexists (1, mkWc true 0), _. split; [done|]. split; [done|]. by right.
Qed.
Lemma rank_enabled v g b r g' : 0 ≤ r < N → sim v g b → v_code v r ≠ Ret None →
  proc_step addb N max_inline g r = Some g' → ∃ v', vstep N K (VRank r) v v'.
Proof.
  intros Hr Hsim Hne Hstep. destruct (sm_rank _ _ _ _ _ _ _ _ Hsim r Hr) as (Hs & Hu & Ht).
  remember (code g r) as p eqn:Hp. symmetry in Hp.
  destruct Ht as [p Hc|n s k Hc Hn|d s k Hc|d s k Hc|p Hc].
  - destruct p as [a|[t|[] h len id off|[] h len id off|t|d s] k]; try discriminate Hs; try (by destruct Hu).
    + unfold proc_step in Hstep. by rewrite Hp in Hstep.
    + destruct (on_send S OK Hcb K max_inline KO pf r h len id off k Hr (proj1 Hu)) as (wr & Hon & Hop & Hcov & _). rewrite Hon in Hc.
      eapply peq_enabled; [done|exact Hc|]. by eexists 0, _.
    + destruct (on_recv S OK Hcb K max_inline KO pf r h len id off k Hr (proj1 Hu)) as (wr & Hon & Hcov & _). rewrite Hon in Hc.
      eapply peq_enabled; [done|exact Hc|]. by eexists 0, _.
    + rewrite (on_poll S K max_inline KO) in Hc by done. by eapply poll_enabled.
    + rewrite on_add in Hc. eapply peq_enabled; [done|exact Hc|]. by eexists _, _.
  - by eapply poll_enabled.
  - rewrite loaded_one_step in Hc. eapply peq_enabled; [done|exact Hc|]. by eexists _, _.
  - rewrite loaded_both_step in Hc. eapply peq_enabled; [done|exact Hc|]. by eexists tt, _.
  - done.
Qed.
Lemma nic_enabled v g b l g' : sim v g b → is_nic l = true → lstep addb N max_inline l g = Some g' →
  ∃ v', vstep N K (VNic l) v v'.
Proof.
  intros Hsim Hl Hstep. assert (Hg : ∃ g1, lstep addb N 0 l (as_gstate (v_net v)) = Some g1).
  { pose proof (sm_mem _ _ _ _ _ _ _ _ Hsim) as Hm. pose proof (sm_conn _ _ _ _ _ _ _ _ Hsim) as Hn.
    destruct g as [c gm gc]. cbn in Hm, Hn. subst gm gc. revert Hstep. unfold lstep. case_bool_decide; [|done].
    destruct l as [r|r k|r|r]; [done| | |]; unfold fetch_step, deliver_step, ack_step, as_gstate; cbn; repeat case_match; try done; eauto. }
  destruct Hg as [g1 Hg1]. eexists. split; [done|]. by exists g1.
Qed.
Lemma stack_moves n v :
  runs n (stack_init S K pf mem0) v → (∀ r, 0 ≤ r < N → v_code v r ≠ Ret None) →
  (∃ r, 0 ≤ r < N ∧ v_code v r ≠ Ret (Some 0)) →
  ∃ l v', vstep N K l v v' ∧ match l with VIdle _ => False | _ => True end.
Proof.
  intros Hv Hfuel (r & Hr & Hne). destruct (stack_refines S OK Hcb K max_inline KO pf mem0 n v Hv) as (g & b & Hg & Hsim & _).
  destruct (inv_progress addb S mem0 max_inline OK g) as (g' & l & Hl); [by eapply reachable_inv| |].
  - exists r. split; [done|]. intros Hc. destruct (sm_rank _ _ _ _ _ _ _ _ Hsim r Hr) as (_ & _ & Ht). rewrite Hc in Ht.
    inversion Ht as [p Hq| | | |p Hq]; subst p; [apply Hne; by symmetry in Hq|by apply (Hfuel r)].
  - assert (Hl' := Hl). unfold lstep in Hl. case_bool_decide as Hrange; [|done]. destruct l as [e|e i|e|e].
    + destruct (rank_enabled v g b e g') as [v' Hv']; [done|done|by apply Hfuel|done|]. by exists (VRank e), v'.
    + destruct (nic_enabled v g b (LFetch e i) g') as [v' Hv']; [done..|]. by eexists _, v'.
    + destruct (nic_enabled v g b (LDeliver e) g') as [v' Hv']; [done..|]. by eexists _, v'.
    + destruct (nic_enabled v g b (LAck e) g') as [v' Hv']; [done..|]. by eexists _, v'.
Qed.

(** The calls of a whole execution: those of the ring's steps, and the empty
    polls. *)
Definition stack_bound : Z := (Z.of_nat pf + 3) * work N (posted_init S mem0) + N * (Z.of_nat pf + 2).
Lemma stack_bounded n v : runs n (stack_init S K pf mem0) v → Z.of_nat n ≤ stack_bound.
Proof.
  intros Hv. destruct (stack_refines S OK Hcb K max_inline KO pf mem0 n v Hv) as (g & b & _ & Hsim & Hc).
  assert (Hb : budget S pf mem0 = stack_bound) by (unfold budget, cost; by rewrite total_const by apply OK).
  apply cost_nonneg in Hsim. lia.
Qed.
End stack.

(** C2. The collective over the queue-pair backend, down to the driver's calls.
    N processes run the code of [ring_allreduce] through [RdmaTransport],
    [rai_post_send], [rai_post_recv] and [rai_poll_cq] on registered buffers,
    their calls and the adapters' work interleaved anyhow, with the loads and the
    store of each addition apart.  Every execution is one of the posted ring's
    system; so a process whose call has returned got 0, holds the ring-order float
    sum of all inputs in every chunk, and changed nothing else. *)
Theorem rdma_stack_result (S : ring_setup) (K : stack) (max_inline : Z) (pf : nat) (mem0 : Z → Z → cell) (n : nat)
    (v : vstate) :
  setup_ok S → sizeof_float * rs_chunk S < 2 ^ 32 → stack_ok S K max_inline →
  nsteps (fun v v' => ∃ l, vstep (rs_N S) K l v v') n (stack_init S K pf mem0) v →
  (∃ g, rtc (step addb (rs_N S) max_inline) (posted_init S mem0) g ∧ mem g = n_mem (v_net v) ∧ conn g = n_conn (v_net v)) ∧
  (∀ r x, 0 ≤ r < rs_N S → v_code v r = Ret (Some x) →
    x = 0 ∧
    (∀ c i, inner S c (rs_N S) i → n_mem (v_net v) r (bcell S r c i) = reduced addb (input S mem0) (rs_N S) c i) ∧
    (∀ p, outside S r p → n_mem (v_net v) r p = mem0 r p)).
Proof.
  intros OK Hcb KO Hv. split; [|intros r x; by eapply stack_holds].
  destruct (stack_refines S OK Hcb K max_inline KO pf mem0 n v Hv) as (g & b & Hg & [Hm Hn _ _] & _). by exists g.
Qed.

(** C3. The same executions end.  As long as some process has not returned 0 and
    none has used up the spins of a poll, some process or adapter can take a step
    that is not an empty poll; in particular every request the backend posts lies
    in the region its key names, and every call it makes is one the driver
    answers.  And no execution is longer than a bound known beforehand. *)
Theorem rdma_stack_ends (S : ring_setup) (K : stack) (max_inline : Z) (pf : nat) (mem0 : Z → Z → cell) (n : nat)
    (v : vstate) :
  setup_ok S → sizeof_float * rs_chunk S < 2 ^ 32 → stack_ok S K max_inline →
  nsteps (fun v v' => ∃ l, vstep (rs_N S) K l v v') n (stack_init S K pf mem0) v →
  Z.of_nat n ≤ stack_bound S pf mem0 ∧
  ((∀ r, 0 ≤ r < rs_N S → v_code v r ≠ Ret None) → (∃ r, 0 ≤ r < rs_N S ∧ v_code v r ≠ Ret (Some 0)) →
   ∃ l v', vstep (rs_N S) K l v v' ∧ match l with VIdle _ => False | _ => True end).
Proof.
  intros OK Hcb KO Hv. split; [by eapply stack_bounded|]. by eapply stack_moves.
Qed.

(** * Witness: three processes, two floats per chunk, run on a scheduler *)

Section scheduler.
Context (N : Z) (K : stack).

Definition covered_b (t : Rdma.RdmaTransport) (g : sge) : bool :=
  existsb (fun pm => match mr_mr pm.2 with
    | Some m => (ibv_lkey m =? sge_lkey g) && (mr_buf pm.2 <=? sge_addr g) &&
                (sge_addr g + sge_length g <=? mr_buf pm.2 + mr_size pm.2)
    | None => false end) (map_to_list (Rdma.mrs t)).
Lemma covered_b_ok t g : covered_b t g = true → covered t g.
Proof.
  unfold covered_b. rewrite existsb_exists. intros ([p mr] & Hin & Hb). cbn in Hb.
  destruct (mr_mr mr) as [m|] eqn:Hm; [|done]. apply andb_true_iff in Hb as [[Hk Ha]%andb_true_iff Hl].
  apply Z.eqb_eq in Hk. apply Z.leb_le in Ha, Hl. exists p, mr, m. split_and!; try done.
  apply list_elem_of_In in Hin. by apply elem_of_map_to_list in Hin.
Qed.
(** An answer that is not an empty poll, when there is one. *)
Definition answer_of (r : Z) (o : sys_op) (n : net) : option (sys_ans o * net) :=
  let e := prev_rank N r in
  match o with
  | v_post_send q wr =>
      if bool_decide (q = qp_qp (Rdma.qp_ (k_right K r))) && match sw_opcode wr with WR_SEND => true | _ => false end &&
         covered_b (k_right K r) (sw_sge wr)
      then Some (0, mkNet (n_mem n) (<[r := posted_send (n_mem n r) (n_conn n r) wr]> (n_conn n))) else None
  | v_post_recv q wr =>
      if bool_decide (q = qp_qp (Rdma.qp_ (k_left K r))) && covered_b (k_left K r) (rw_sge wr)
      then Some (0, mkNet (n_mem n) (<[e := push_recv (n_conn n e) (sge_addr (rw_sge wr)) (sge_length (rw_sge wr))]> (n_conn n)))
      else None
  | v_poll_cq c =>
      if bool_decide (c = qp_cq (Rdma.qp_ (k_left K r))) && (0 <? rcq (n_conn n e))
      then Some ((1, mkWc true 0), mkNet (n_mem n) (<[e := take_rcq (n_conn n e)]> (n_conn n)))
      else if bool_decide (c = qp_cq (Rdma.qp_ (k_right K r))) && (0 <? scq (n_conn n r))
      then Some ((1, mkWc true 0), mkNet (n_mem n) (<[r := take_scq (n_conn n r)]> (n_conn n)))
      else None
  | c_load a l => if l =? 4 then Some (n_mem n r a, n) else None
  | c_store a d =>
      if bool_decide (length d = 4%nat) then Some (tt, mkNet (<[r := <[a := d]> (n_mem n r)]> (n_mem n)) (n_conn n)) else None
  | _ => None
  end.
Lemma answer_of_ok r o n x n' : answer_of r o n = Some (x, n') → answers N K r o n x n'.
Proof.
  destruct o; try done; cbn.
  - destruct (Z.eqb_spec n0 4); [|done]. by intros [= <- <-].
  - case_bool_decide; [|done]. by intros [= <-].
  - case_bool_decide; [|done]. destruct (sw_opcode wr) eqn:Hop; try done. cbn.
    destruct (covered_b _ _) eqn:Hc; [|done]. apply covered_b_ok in Hc. by intros [= <- <-].
  - case_bool_decide; [|done]. cbn. destruct (covered_b _ _) eqn:Hc; [|done]. apply covered_b_ok in Hc. by intros [= <- <-].
  - destruct (bool_decide _ && _) eqn:Hl; [apply andb_true_iff in Hl as [Hc%bool_decide_eq_true Hp%Z.ltb_lt]|].
    + intros [= <- <-]. split; [done|]. split; [done|]. by left.
    + destruct (bool_decide (cq = qp_cq (Rdma.qp_ (k_right K r))) && _) eqn:Hrt; [|done].
      apply andb_true_iff in Hrt as [Hc%bool_decide_eq_true Hp%Z.ltb_lt].
      intros [= <- <-]. split; [done|]. split; [done|]. by right.
Qed.
(** One step of rank [r], or of an adapter. *)
Definition advance (l : label) (v : vstate) : option vstate :=
  match l with
  | LProc r =>
      if bool_decide (0 ≤ r < N) then
        match v_code v r with
        | Ret _ => None
        | Do o k => '(x, n') ← answer_of r o (v_net v); Some (mkV (<[r := k x]> (v_code v)) n')
        end
      else None
  | l => g' ← lstep addb N 0 l (as_gstate (v_net v)); Some (mkV (v_code v) (mkNet (mem g') (conn g')))
  end.
Lemma advance_ok l v v' : advance l v = Some v' → ∃ l, vstep N K l v v'.
Proof.
  destruct l as [r|r k|r|r]; cbn [advance].
  - case_bool_decide; [|done]. destruct (v_code v r) as [|o k] eqn:Hc; [done|].
    destruct (answer_of r o (v_net v)) as [[x n']|] eqn:Ha; [|done]. intros [= <-].
    exists (VRank r). split; [done|]. rewrite Hc. exists x, n'. split; [by apply answer_of_ok|done].
  - destruct (lstep _ _ _ _ _) as [g'|] eqn:Hl; [|done]. intros [= <-]. exists (VNic (LFetch r k)). split; [done|]. by exists g'.
  - destruct (lstep _ _ _ _ _) as [g'|] eqn:Hl; [|done]. intros [= <-]. exists (VNic (LDeliver r)). split; [done|]. by exists g'.
  - destruct (lstep _ _ _ _ _) as [g'|] eqn:Hl; [|done]. intros [= <-]. exists (VNic (LAck r)). split; [done|]. by exists g'.
Qed.
End scheduler.

(** Queue pairs 11 and 12 with completion queues 21 and 22, and three regions. *)
Definition demo_side (q c : Z) (rs : gmap Z rai_mr) : Rdma.RdmaTransport :=
  Rdma.mkRdma (set_qp q (set_cq c rai_qp0)) (-1) (-1) false EmptyString rs.
Definition demo_region (a sz key : Z) : rai_mr := mkRaiMr (Some (mkIbvMr key a key key)) a sz 0.
Definition demo_ring : ring_setup :=
  mkRingSetup 3 2 (fun _ => 4096) (fun _ => 8192) (fun _ => mkBufferHandle 4096 24 64)
    (fun _ => mkBufferHandle 4096 24 65) (fun _ => mkBufferHandle 8192 16 66).
Definition demo_stack : stack :=
  mkStack (fun _ => demo_side 11 21 {[ 65 := demo_region 4096 24 1; 66 := demo_region 8192 16 2 ]})
          (fun _ => demo_side 12 22 {[ 64 := demo_region 4096 24 3 ]}).
Definition demo_floats (r _ : Z) : cell := le_bytes 4 (to_bits (of_int (r + 1))).
Definition demo_end (fuel : nat) : nat * vstate :=
  drive (advance 3 demo_stack) (nic_first 3) fuel (stack_init demo_ring demo_stack 5 demo_floats).

Lemma demo_ring_ok : setup_ok demo_ring.
Proof. constructor; cbn; try done; unfold sizeof_float; intros; lia. Qed.
Lemma demo_stack_ok : stack_ok demo_ring demo_stack 0.
Proof.
  constructor; intros r _; [done..|done|]. repeat split; try (cbn; lia); eexists; vm_compute; reflexivity.
Qed.
Lemma demo_end_runs fuel :
  nsteps (fun v v' => ∃ l, vstep (rs_N demo_ring) demo_stack l v v') (demo_end fuel).1
    (stack_init demo_ring demo_stack 5 demo_floats) (demo_end fuel).2.
Proof. apply drive_runs, advance_ok. Qed.
Lemma demo_end_returned : v_code (demo_end 400).2 1 = Ret (Some 0).
Proof. vm_compute. reflexivity. Qed.
Definition in_call (v : vstate) (r : Z) : bool := match v_code v r with Do _ _ => true | Ret _ => false end.
Lemma in_call_not_ret v r x : in_call v r = true → v_code v r ≠ Ret x.
Proof. unfold in_call. intros Hc He. by rewrite He in Hc. Qed.
Lemma demo_middle : forallb (in_call (demo_end 40).2) [0; 1; 2] = true.
Proof. vm_compute. reflexivity. Qed.

Lemma rdma_stack_result_witness :
  ∃ v, v_code v 1 = Ret (Some 0) ∧
    ∀ c i, inner demo_ring c 3 i → n_mem (v_net v) 1 (bcell demo_ring 1 c i) = reduced addb (input demo_ring demo_floats) 3 c i.
Proof.
  exists (demo_end 400).2. split; [exact demo_end_returned|].
  apply (proj2 (rdma_stack_result demo_ring demo_stack 0 5 demo_floats _ _ demo_ring_ok
    ltac:(vm_compute; reflexivity) demo_stack_ok (demo_end_runs 400)) 1 0 ltac:(split; vm_compute; congruence) demo_end_returned).
Defined.
Lemma rdma_stack_ends_witness :
  ∃ l v', vstep 3 demo_stack l (demo_end 40).2 v' ∧ match l with VIdle _ => False | _ => True end.
Proof.
  pose proof demo_middle as Hm. cbn [forallb] in Hm. apply andb_true_iff in Hm as [H0 [H1 [H2 _]%andb_true_iff]%andb_true_iff].
  apply (proj2 (rdma_stack_ends demo_ring demo_stack 0 5 demo_floats _ _ demo_ring_ok
    ltac:(vm_compute; reflexivity) demo_stack_ok (demo_end_runs 40))).
  - intros r Hr. change (rs_N demo_ring) with 3 in Hr. apply in_call_not_ret.
    assert (r = 0 ∨ r = 1 ∨ r = 2) as [->|[->| ->]] by lia; assumption.
  - exists 0. split; [split; vm_compute; congruence|]. by apply in_call_not_ret.
Defined.
