(* ===== verification/TcpStack.v ===== *)
(** The whole stack on sockets: N ranks that each run the backend's code for the
    collective, call by call, over byte streams that split transfers anywhere and
    calls that may fail. *)
From S2P Require Import Prelude Prog Sys Oob OobSpec Endpoint Transport TcpBackend Float32 RingAllreduce RingSpec RingMem RingPosted.
From S2P Require Import AllreduceBench RdmaStack.

(** The two transports of every rank. *)
Record tstack := mkTStack { tk_left : Z → Tcp.TcpTransport; tk_right : Z → Tcp.TcpTransport }.

Section system.
Context (N : Z) (K : tstack) (room : Z) (faults : bool).

(** The bytes of every process, and those on their way from rank [e] to the next. *)
Record tnet := mkTNet { t_mem : Z → Z → Z; t_pipe : Z → list Z }.

(** A call of rank [r] and its answer.  A send takes between one byte and all it
    is given, as far as the stream has [room]; a receive takes between one byte
    and all that is asked for of what is there.  With [faults] either may fail
    instead, with a result that is not positive.  Any other call has no answer. *)
Definition tanswers (r : Z) (o : sys_op) (n : tnet) : sys_ans o → tnet → Prop :=
  let e := prev_rank N r in
  match o with
  | c_send fd b len => fun x n' =>
      fd = Tcp.fd_ (tk_right K r) ∧ x ≤ len ∧
      (faults = true ∧ x ≤ 0 ∧ n' = n ∨
       0 < x ∧ Z.of_nat (length (t_pipe n r)) + x ≤ room ∧
         n' = mkTNet (t_mem n) (<[r := t_pipe n r ++ take (Z.to_nat x) (bytes_at (t_mem n r) b len)]> (t_pipe n)))
  | c_recv fd b len => fun x n' =>
      fd = Tcp.fd_ (tk_left K r) ∧ x.1 ≤ len ∧
      (faults = true ∧ x.1 ≤ 0 ∧ n' = n ∨
       0 < x.1 ∧ Z.of_nat (length x.2) = x.1 ∧
         ∃ rest, t_pipe n e = x.2 ++ rest ∧
           n' = mkTNet (<[r := recv_into b x.2 (t_mem n r)]> (t_mem n)) (<[e := rest]> (t_pipe n)))
  | c_load a l => fun x n' => x = load (t_mem n r) a l ∧ n' = n
  | c_store a d => fun _ n' => n' = mkTNet (<[r := store (t_mem n r) a d]> (t_mem n)) (t_pipe n)
  | _ => fun _ _ => False
  end.

Record tstate := mkTS { ts_code : Z → sysM (option Z); ts_net : tnet }.
Definition rank_step (r : Z) (v v' : tstate) : Prop :=
  match ts_code v r with
  | Ret _ => False
  | Do o k => ∃ x n', tanswers r o (ts_net v) x n' ∧ v' = mkTS (<[r := k x]> (ts_code v)) n'
  end.
Definition tstep (v v' : tstate) : Prop := ∃ r, 0 ≤ r < N ∧ rank_step r v v'.
End system.

Definition tstack_code (S : ring_setup) (K : tstack) (pf : nat) (r : Z) : sysM (option Z) :=
  Bench.on_transports pf (tk_left K r) (tk_right K r) (ring_code S r).
Definition tstack_init (S : ring_setup) (K : tstack) (pf : nat) (mem0 : Z → Z → Z) : tstate :=
  mkTS (tstack_code S K pf) (mkTNet mem0 (fun _ => [])).
(** The float at an address, as its four bytes. *)
Definition float_at (m : Z → Z) (p : Z) : cell := load m p sizeof_float.
(** Addresses of no byte of [buf] and [stage]. *)
Definition byte_outside (S : ring_setup) (r p : Z) : Prop :=
  ¬ (rs_buf S r ≤ p < rs_buf S r + sizeof_float * (rs_N S * rs_chunk S)) ∧
  ¬ (rs_stage S r ≤ p < rs_stage S r + sizeof_float * (2 * rs_chunk S)).
