(* ===== verification/TcpStackSim.v ===== *)
(** The stack on sockets refines the blocking ring: the calls that move a chunk's
    bytes, however they split them, are one send or one receive of the ring's
    system. *)
From S2P Require Import Prelude Prog Sys Oob OobSpec Endpoint Transport TcpBackend Float32 RingAllreduce RingSpec RingMem RingPosted.
From S2P Require Import RingMeasure RingBlocking RingBlockingProof RingBlockingLive RingBlockingTheorems RingBackends AllreduceBench RdmaStack TcpStack.

(** * What the collective does on blocking transports *)

Section sound.
Context (S : ring_setup) (OK : setup_ok S) (NN : setup_nonnull S).
Abbreviation N := (rs_N S).
Abbreviation chunk := (rs_chunk S).
Abbreviation cb := (u64 (chunk * sizeof_float)).

(** A float of [buf] or [stage]; a chunk of floats there. *)
Definition fcell (r p : Z) : Prop :=
  (∃ k, 0 ≤ k < N * chunk ∧ p = rs_buf S r + sizeof_float * k) ∨ (∃ k, 0 ≤ k < 2 * chunk ∧ p = rs_stage S r + sizeof_float * k).
Definition frun (r a : Z) : Prop :=
  (∃ k, 0 ≤ k ∧ k + chunk ≤ N * chunk ∧ a = rs_buf S r + sizeof_float * k) ∨
  (∃ k, 0 ≤ k ∧ k + chunk ≤ 2 * chunk ∧ a = rs_stage S r + sizeof_float * k).
(** A transfer the backend accepts, of a chunk. *)
Definition moves_chunk (r : Z) (h : BufferHandle) (len off : Z) : Prop :=
  len = cb ∧ tcp_ok h len off = true ∧ frun r (addr h + off).

(** The operations of [p] as a blocking transport answers them: chunks move, and
    after a transfer that fails [p] ends with a [bad] value. *)
Fixpoint sound {A} (bad : A → Prop) (r : Z) (p : ringM A) : Prop :=
  match p with
  | Ret _ => True
  | Do o k =>
    match o return (ring_ans o → ringM A) → (ring_ans o → Prop) → Prop with
    | recv_blocks _ => fun _ go => go true
    | poll _ => fun _ go => go 0
    | add_assign d s => fun _ go => fcell r d ∧ fcell r s ∧ go tt
    | send_async Right h len _ off | recv_async Left h len _ off => fun k go =>
        moves_chunk r h len off ∧ (∃ y, k (-1) = Ret y ∧ bad y) ∧ go 0
    | _ => fun _ _ => False
    end k (fun a => sound bad r (k a))
  end.
Lemma sound_bind {A B} (bad : A → Prop) (bad' : B → Prop) r (p : ringM A) (f : A → ringM B) :
  (∀ a, bad a → ∃ b, f a = Ret b ∧ bad' b) → (∀ a, sound bad' r (f a)) → sound bad r p → sound bad' r (bind p f).
Proof.
  intros Hbad Hf. induction p as [a|o k IH]; [intros _; apply Hf|].
  destruct o as [t|[] h len id off|[] h len id off|t|d s]; cbn [sound bind]; try done; [apply IH| | |apply IH|].
  - intros (Hm & (y & Hy & Hb) & Hk). split; [done|]. split; [rewrite Hy; by apply Hbad|by apply IH].
  - intros (Hm & (y & Hy & Hb) & Hk). split; [done|]. split; [rewrite Hy; by apply Hbad|by apply IH].
  - intros (Hd & Hs & Hk). split; [done|]. split; [done|]. by apply IH.
Qed.
Lemma sound_for {R} (bad : option R → Prop) r n lo (body : Z → ringM (option R)) :
  (∀ a, bad a → ∃ v, a = Some v) → (∀ i, lo ≤ i < lo + Z.of_nat n → sound bad r (body i)) → sound bad r (for_ n lo body).
Proof.
  intros Hbad. revert lo. induction n as [|n IH]; intros lo Hb; [done|]. cbn [for_]. eapply sound_bind; [| |apply Hb; lia].
  - intros a Ha. destruct (Hbad a Ha) as [v ->]. by exists (Some v).
  - intros [v|]; [done|]. apply IH. intros i Hi. apply Hb. lia.
Qed.
Lemma sound_for_unit (bad : unit → Prop) r n lo (body : Z → ringM unit) :
  (∀ a, ¬ bad a) → (∀ i, lo ≤ i < lo + Z.of_nat n → sound bad r (body i)) → sound bad r (for_unit n lo body).
Proof.
  intros Hbad. revert lo. induction n as [|n IH]; intros lo Hb; [done|]. cbn [for_unit]. eapply sound_bind; [| |apply Hb; lia].
  - intros a Ha. by destruct (Hbad a Ha).
  - intros _. apply IH. intros i Hi. apply Hb. lia.
Qed.

Lemma run_scell r h : 0 ≤ h < 2 → frun r (scell S r h 0).
Proof. intros Hh. right. exists (h * chunk). pose proof (ok_chunk S OK). unfold scell. split_and!; [nia..|f_equal; lia]. Qed.
Lemma run_bcell r c : 0 ≤ c < N → frun r (bcell S r c 0).
Proof. intros Hc. left. exists (c * chunk). pose proof (ok_chunk S OK). unfold bcell. split_and!; [nia..|f_equal; lia]. Qed.
Lemma cell_bcell r c i : inner S c N i → fcell r (bcell S r c i).
Proof. intros [Hc Hi]. left. exists (c * chunk + i). pose proof (ok_chunk S OK). split; [nia|done]. Qed.
Lemma cell_scell r h i : inner S h 2 i → fcell r (scell S r h i).
Proof. intros [Hc Hi]. right. exists (h * chunk + i). pose proof (ok_chunk S OK). split; [nia|done]. Qed.
Lemma cell_apart r p q : 0 ≤ r < N → fcell r p → fcell r q → p = q ∨ p + 4 ≤ q ∨ q + 4 ≤ p.
Proof.
  intros Hr Hp Hq. pose proof (ok_disjoint S OK r Hr). unfold fcell, sizeof_float in *.
  destruct Hp as [(k & Hk & ->)|(k & Hk & ->)], Hq as [(k' & Hk' & ->)|(k' & Hk' & ->)]; lia.
Qed.
(** A float is one of a chunk's or apart from it. *)
Lemma cell_run r p a : 0 ≤ r < N → fcell r p → frun r a →
  (∃ i, 0 ≤ i < chunk ∧ p = a + sizeof_float * i) ∨ p + 4 ≤ a ∨ a + sizeof_float * chunk ≤ p.
Proof.
  intros Hr Hp Ha. pose proof (ok_disjoint S OK r Hr). unfold fcell, frun, sizeof_float in *.
  destruct Hp as [(k & Hk & ->)|(k & Hk & ->)], Ha as [(k' & Hk' & Hl & ->)|(k' & Hk' & Hl & ->)]; [|right; lia..|].
  - destruct (decide (k' ≤ k < k' + chunk)); [left; exists (k - k')|right]; lia.
  - destruct (decide (k' ≤ k < k' + chunk)); [left; exists (k - k')|right]; lia.
Qed.
Lemma run_cell r a i : frun r a → 0 ≤ i < chunk → fcell r (a + sizeof_float * i).
Proof.
  unfold fcell, frun, sizeof_float. intros [(k & Hk & Hl & ->)|(k & Hk & Hl & ->)] Hi; [left|right]; exists (k + i); lia.
Qed.

Lemma send_sound r s : 0 ≤ r < N → 0 ≤ s < 2 * (N - 1) →
  sound (fun x => x = -1) r (ring_call (send_async Right (rs_r_h S r) cb (u64 s) (u64 (send_chunk r N s * cb)))).
Proof.
  intros Hr Hs. destruct (bsend_ok S OK NN r s Hr Hs) as [Hok Ha]. split; [|split; [by eexists|done]].
  split; [done|]. split; [done|]. rewrite Ha. apply run_bcell. by apply (send_chunk_range N (ok_N S OK)).
Qed.
Lemma recv_sound r s : 0 ≤ r < N → 0 ≤ s < 2 * (N - 1) →
  sound (fun x => x = -1) r (ring_call (recv_async Left (brecv_h S r s) cb (u64 s) (brecv_off S r s))).
Proof.
  intros Hr Hs. destruct (brecv_ok S OK NN r s Hr Hs) as [Hok Ha]. split; [|split; [by eexists|done]].
  split; [done|]. split; [done|]. rewrite Ha. unfold brecv_addr. destruct (s <? N - 1); [apply run_scell; lia|].
  apply run_bcell. by apply (recv_chunk_range N (ok_N S OK)).
Qed.
Lemma fails_or_sound r a b :
  sound (fun x => x = -1) r a → sound (fun x => x = -1) r b → sound (fun x => x = true) r (fails_or a b).
Proof.
  intros Ha Hb. unfold fails_or. eapply sound_bind; [| |exact Ha]; [by intros _ ->; eexists|].
  intros rc. case_bool_decide; [done|]. eapply sound_bind; [| |exact Hb]; [by intros _ ->; eexists|done].
Qed.
Lemma step_sound r s : 0 ≤ r < N → 0 ≤ s < 2 * (N - 1) →
  sound (fun x => x = Some (-1)) r
    (ring_blocking_step (world_of S r) (rs_r_h S r) (rs_l_h S r) (rs_stage_h S r) (rs_buf S r) (rs_stage S r) chunk s).
Proof.
  intros Hr Hs. unfold ring_blocking_step. cbn [rank wsize world_of].
  eapply (sound_bind (fun x => x = true)); [by intros _ ->; eexists| |].
  2: { destruct (_ =? 0); apply fails_or_sound; (by apply send_sound) || (by apply recv_sound). }
  intros [|]; [done|]. eapply (sound_bind (fun x => x = true)); [by intros _ ->; eexists| |by apply fails_or_sound].
  intros [|]; [done|]. eapply (sound_bind (fun _ => False)); [done|done|]. destruct (Z.ltb_spec s (N - 1)); [|done].
  apply sound_for_unit; [by intros ? []|]. pose proof (ok_chunk S OK). intros i Hi.
  assert (Hc : 0 ≤ recv_chunk r N s < N) by by apply (recv_chunk_range N (ok_N S OK)).
  assert (Hu : u64 (recv_chunk r N s * chunk) = recv_chunk r N s * chunk).
  { apply u64_small. pose proof (ok_width S OK). unfold sizeof_float in *. nia. }
  split; [|split; [|done]].
  - rewrite Hu, <- Z.add_assoc, <- Z.mul_add_distr_l. apply (cell_bcell r (recv_chunk r N s) i). split; lia.
  - apply (cell_scell r 0 i). split; lia.
Qed.
Lemma ring_sound r : 0 ≤ r < N → sound (fun x => x ≠ 0) r (ring_code S r).
Proof.
  intros Hr. pose proof (ok_N S OK) as HN. pose proof (ok_chunk S OK) as Hc. unfold ring_code, ring_allreduce.
  assert (HNw : u64 N = N) by (apply u64_small; pose proof (ok_width S OK); unfold sizeof_float in *; nia).
  cbn [wsize world_of]. rewrite HNw. rewrite (Z.mul_comm N), Z.mod_mul, Z.div_mul by lia.
  rewrite bool_decide_eq_false_2 by (intros Hn; by apply Hn). destruct (Z.ltb_spec N 2); [done|]. cbn [bind ring_call call sound].
  unfold ring_blocking. cbn [wsize world_of]. eapply (sound_bind (fun x => x = Some (-1))); [| |apply sound_for].
  - intros _ ->. by eexists.
  - done.
  - intros a ->. by eexists.
  - intros i Hi. apply step_sound; lia.
Qed.
End sound.

(** * Cells and bytes *)

Definition cells_of (d : list cell) : Prop := Forall (fun x => length x = 4%nat) d.
Lemma length_cells d : cells_of d → length (concat d) = (4 * length d)%nat.
Proof. induction 1 as [|x d Hx Hd IH]; [done|]. cbn [concat length]. rewrite length_app, IH. lia. Qed.
(** The cells whose bytes are in memory. *)
Lemma load_cells m a d i x : cells_of d → load m a (sizeof_float * Z.of_nat (length d)) = concat d →
  d !! i = Some x → float_at m (a + sizeof_float * Z.of_nat i) = x.
Proof.
  unfold float_at, sizeof_float. intros Hd. revert a i. induction Hd as [|y d Hy Hd IH]; intros a i Hl Hi; [done|].
  cbn [concat length] in Hl. rewrite Nat2Z.inj_succ in Hl.
  replace (4 * Z.succ (Z.of_nat (length d))) with (4 + 4 * Z.of_nat (length d)) in Hl by lia. rewrite load_app in Hl by lia.
  apply app_inj_1 in Hl as [Hl1 Hl2]; [|pose proof (length_load m a 4 ltac:(lia)); lia].
  destruct i as [|i]; cbn in Hi; [injection Hi as <-; by replace (a + 4 * Z.of_nat 0) with a by lia|].
  rewrite <- (IH (a + 4) i Hl2 Hi). f_equal. lia.
Qed.
Lemma concat_cells (m : Z → Z) (bm : Z → cell) a n : 0 ≤ n →
  (∀ i, 0 ≤ i < n → bm (a + sizeof_float * i) = float_at m (a + sizeof_float * i)) →
  concat (mem_read bm a n) = load m a (sizeof_float * n) ∧ cells_of (mem_read bm a n).
Proof.
  unfold float_at, sizeof_float. intros Hn. revert a. pattern n. apply natlike_ind; [|clear n Hn|done].
  { intros a _. by split; [|constructor]. }
  intros n Hn IH a Hm.
  assert (Hr : mem_read bm a (Z.succ n) = bm a :: mem_read bm (a + 4) n).
  { unfold mem_read, sizeof_float. rewrite seqZ_cons by lia. cbn [fmap list_fmap]. f_equal; [f_equal; lia|].
    rewrite Z.pred_succ. replace (Z.succ 0) with (0 + 1) by lia. rewrite <- (fmap_add_seqZ 1 0), <- list_fmap_compose.
    apply list_fmap_ext. intros k i _. cbn. f_equal. lia. }
  rewrite Hr. assert (H0 : bm a = load m a 4) by (specialize (Hm 0 ltac:(lia)); by rewrite Z.mul_0_r, Z.add_0_r in Hm).
  destruct (IH (a + 4)) as [Hc Hf].
  { intros i Hi. specialize (Hm (i + 1) ltac:(lia)). by replace (a + 4 * (i + 1)) with (a + 4 + 4 * i) in Hm by lia. }
  split.
  - cbn [concat]. rewrite Hc, H0. replace (4 * Z.succ n) with (4 + 4 * n) by lia. by rewrite load_app by lia.
  - constructor; [|done]. rewrite H0. pose proof (length_load m a 4 ltac:(lia)). lia.
Qed.
(** A receive adds to what it has at [a]. *)
Lemma load_grow m a d d' : load m a (Z.of_nat (length d)) = d →
  load (store m (a + Z.of_nat (length d)) d') a (Z.of_nat (length (d ++ d'))) = d ++ d'.
Proof.
  intros Hd. rewrite length_app, Nat2Z.inj_add, load_app by lia. by rewrite load_store_other, Hd, load_store by lia.
Qed.

(** * One rank's code against the ring's *)

Section sim.
Context (S : ring_setup) (OK : setup_ok S) (NN : setup_nonnull S).
Context (K : tstack) (room : Z) (faults : bool) (pf : nat) (mem0 : Z → Z → Z) (cap : nat).
Abbreviation N := (rs_N S).
Abbreviation chunk := (rs_chunk S).
Abbreviation cb := (u64 (chunk * sizeof_float)).
Abbreviation on r := (Bench.on_transports pf (tk_left K r) (tk_right K r)).
Abbreviation step := (bstep addb N cap).
Abbreviation good r := (sound S (fun x => x ≠ 0) r).

(** What is left of a transfer. *)
Definition sending r (fuel : nat) (a len n : Z) (k : Z → ringM Z) : sysM (option Z) :=
  rc <- (rc <- Oob.send_loop fuel (Tcp.fd_ (tk_right K r)) (Mem a) len n ;; if bool_decide (rc ≠ 0) then Ret (-1) else Ret 0) ;;
  on r (k rc).
Definition receiving r (fuel : nat) (a len n : Z) (got : list Z) (k : Z → ringM Z) : sysM (option Z) :=
  rc <- (let! (rc, _) := Oob.recv_loop fuel (Tcp.fd_ (tk_left K r)) (Mem a) len n got in
         if bool_decide (rc ≠ 0) then Ret (-1) else Ret 0) ;;
  on r (k rc).
Definition loaded_one r (x : Z) d s (k : unit → ringM Z) : sysM (option Z) :=
  y <- Bench.load_float s ;; Bench.store_float d (fadd x y) ;; on r (k tt).
Definition loaded_both r (x y : Z) d (k : unit → ringM Z) : sysM (option Z) :=
  Bench.store_float d (fadd x y) ;; on r (k tt).

Lemma ton_send r h len id off (k : Z → ringM Z) : tcp_ok h len off = true →
  on r (Do (send_async Right h len id off : op ring_sig) k) = sending r (Z.to_nat len) (addr h + off) len 0 k.
Proof.
  intros [Hl [Ha Hs]]%bool_decide_eq_true. cbn [Bench.on_transports t_send_async tcp_transport]. unfold Tcp.send_async.
  rewrite bool_decide_eq_false_2 by tauto. by rewrite bool_decide_eq_false_2 by lia.
Qed.
Lemma ton_recv r h len id off (k : Z → ringM Z) : tcp_ok h len off = true →
  on r (Do (recv_async Left h len id off : op ring_sig) k) = receiving r (Z.to_nat len) (addr h + off) len 0 [] k.
Proof.
  intros [Hl [Ha Hs]]%bool_decide_eq_true. cbn [Bench.on_transports t_recv_async tcp_transport]. unfold Tcp.recv_async.
  rewrite bool_decide_eq_false_2 by tauto. by rewrite bool_decide_eq_false_2 by lia.
Qed.
Lemma sending_step r fuel a len n k : n < len →
  sending r (Datatypes.S fuel) a len n k ≈
  Do (c_send (Tcp.fd_ (tk_right K r)) (Mem (a + n)) (len - n) : op sys_sig)
    (fun x => if x <=? 0 then on r (k (-1)) else sending r fuel a len (n + x) k).
Proof.
  intros Hn. unfold sending. cbn [Oob.send_loop]. rewrite (proj2 (Z.ltb_lt _ _) Hn). cbn.
  eexists. split; [reflexivity|]. intros x. cbv beta. destruct (x <=? 0); apply peq_refl.
Qed.
Lemma sending_done r fuel a len k : sending r fuel a len len k = on r (k 0).
Proof. unfold sending. destruct fuel; cbn [Oob.send_loop]; by rewrite Z.ltb_irrefl. Qed.
Lemma receiving_step r fuel a len n got k : n < len →
  receiving r (Datatypes.S fuel) a len n got k ≈
  Do (c_recv (Tcp.fd_ (tk_left K r)) (Mem (a + n)) (len - n) : op sys_sig)
    (fun x => if x.1 <=? 0 then on r (k (-1)) else receiving r fuel a len (n + x.1) (got ++ x.2) k).
Proof.
  intros Hn. unfold receiving. cbn [Oob.recv_loop]. rewrite (proj2 (Z.ltb_lt _ _) Hn). cbn.
  eexists. split; [reflexivity|]. intros [x d]. cbv beta. cbn [fst snd]. destruct (x <=? 0); apply peq_refl.
Qed.
Lemma receiving_done r fuel a len got k : receiving r fuel a len len got k = on r (k 0).
Proof. unfold receiving. destruct fuel; cbn [Oob.recv_loop]; by rewrite Z.ltb_irrefl. Qed.
Lemma ton_add r d s (k : unit → ringM Z) : on r (Do (add_assign d s : op ring_sig) k) ≈
  Do (c_load d 4 : op sys_sig) (fun x => loaded_one r (le_val x) d s k).
Proof. apply peq_refl. Qed.
Lemma tloaded_one_step r x d s k : loaded_one r x d s k ≈ Do (c_load s 4 : op sys_sig) (fun y => loaded_both r x (le_val y) d k).
Proof. apply peq_refl. Qed.
Lemma tloaded_both_step r x y d k : loaded_both r x y d k ≈ Do (c_store d (le_bytes 4 (fadd x y)) : op sys_sig) (fun _ => on r (k tt)).
Proof. apply peq_refl. Qed.

(** The ring's memory is the floats of the bytes, but for a chunk that is being
    received. *)
Definition floats (r : Z) (m : Z → Z) (bm : Z → cell) (busy : Z → Prop) : Prop :=
  ∀ p, fcell S r p → ¬ busy p → bm p = float_at m p.
Definition nowhere (p : Z) : Prop := False.
Definition in_chunk (a p : Z) : Prop := ∃ i, 0 ≤ i < chunk ∧ p = a + sizeof_float * i.

(** The code [c] of rank [r] with memory [m] is about to do the operation that the
    ring's program starts with, or in the middle of it, having put and got the
    bytes of the two lists; or it failed.  The number bounds the calls it makes
    before the ring's side has to move. *)
Inductive tracks (r : Z) (m : Z → Z) (bm : Z → cell) (c : sysM (option Z)) : ringM Z → list Z → list Z → Z → Prop :=
| tr_at p : c ≈ on r p → floats r m bm nowhere → tracks r m bm c p [] [] (cb + 2)
| tr_send h len id off k fuel n :
    c ≈ sending r fuel (addr h + off) len n k → len - n ≤ Z.of_nat fuel → 0 ≤ n < len → floats r m bm nowhere →
    tracks r m bm c (Do (send_async Right h len id off : op ring_sig) k) (load m (addr h + off) n) [] (len - n)
| tr_recv h len id off k fuel got acc :
    c ≈ receiving r fuel (addr h + off) len (Z.of_nat (length got)) acc k → len - Z.of_nat (length got) ≤ Z.of_nat fuel →
    Z.of_nat (length got) < len → load m (addr h + off) (Z.of_nat (length got)) = got →
    floats r m bm (in_chunk (addr h + off)) →
    tracks r m bm c (Do (recv_async Left h len id off : op ring_sig) k) [] got (len - Z.of_nat (length got))
| tr_one d s k : c ≈ loaded_one r (le_val (float_at m d)) d s k → floats r m bm nowhere →
    tracks r m bm c (Do (add_assign d s : op ring_sig) k) [] [] 1
| tr_both d s k : c ≈ loaded_both r (le_val (float_at m d)) (le_val (float_at m s)) d k → floats r m bm nowhere →
    tracks r m bm c (Do (add_assign d s : op ring_sig) k) [] [] 0
| tr_dead p y snt got : c = Ret (Some y) → y ≠ 0 → faults = true → tracks r m bm c p snt got 0.

(** Operations answered without a call: the ring's side is kept past them. *)
Definition settled (p : ringM Z) : bool :=
  match p with Do o _ => match (o : ring_op) with recv_blocks _ | poll _ => false | _ => true end | Ret _ => true end.
Definition message (d : list cell) : Prop := Z.of_nat (length d) = chunk ∧ cells_of d.
Definition pending (c : list (list cell)) : list Z := concat (map (@concat Z) c).

(** Each call costs one of the ring's steps, or of the calls up to the next. *)
Definition cost (g : @bstate cell) (b : Z → Z) : Z := (cb + 3) * bwork N g + total N b.
Definition budget : Z := cost (blocking_init S (fun r => float_at (mem0 r))) (fun _ => cb + 2).

(** After [n] calls. *)
Record sim (v : tstate) (g : @bstate cell) (snt got : Z → list Z) (b : Z → Z) (n : nat) : Prop := {
  sm_rank r : 0 ≤ r < N → settled (bcode g r) = true ∧ good r (bcode g r) ∧
    tracks r (t_mem (ts_net v) r) (bmem g r) (ts_code v r) (bcode g r) (snt r) (got r) (b r);
  sm_short r : 0 ≤ r < N → Z.of_nat (length (snt r)) < cb ∧ Z.of_nat (length (got r)) < cb;
  sm_link e : 0 ≤ e < N → got (next_rank N e) ++ t_pipe (ts_net v) e = pending (chan g e) ++ snt e;
  sm_chan e : 0 ≤ e < N → Forall message (chan g e) ∧ (length (chan g e) ≤ n)%nat;
  sm_out r p : 0 ≤ r < N → byte_outside S r p → t_mem (ts_net v) r p = mem0 r p;
  sm_reach : rtc step (blocking_init S (fun r => float_at (mem0 r))) g;
  sm_cost : cost g b + Z.of_nat n ≤ budget;
}.
Abbreviation follows v' n := (∃ g' snt' got' b', sim v' g' snt' got' b' (Datatypes.S n)).

(** One rank's code, memory and link ends change. *)
Lemma sim_update v g snt got b n r c net' g' x y z :
  0 ≤ r < N → sim v g snt got b n → rtc step g g' →
  (∀ r', r' ≠ r → bcode g' r' = bcode g r' ∧ bmem g' r' = bmem g r' ∧ t_mem net' r' = t_mem (ts_net v) r') →
  settled (bcode g' r) = true → good r (bcode g' r) → tracks r (t_mem net' r) (bmem g' r) c (bcode g' r) x y z →
  (∀ e, 0 ≤ e < N → (<[r := y]> got) (next_rank N e) ++ t_pipe net' e = pending (chan g' e) ++ (<[r := x]> snt) e) →
  (∀ e, 0 ≤ e < N → Forall message (chan g' e) ∧ (length (chan g' e) ≤ Datatypes.S n)%nat) →
  Z.of_nat (length x) < cb → Z.of_nat (length y) < cb →
  (∀ p, byte_outside S r p → t_mem net' r p = t_mem (ts_net v) r p) →
  (cb + 3) * bwork N g' + z + 1 ≤ (cb + 3) * bwork N g + b r →
  sim (mkTS (<[r := c]> (ts_code v)) net') g' (<[r := x]> snt) (<[r := y]> got) (<[r := z]> b) (Datatypes.S n).
Proof.
  intros Hr [Hk Hsh Hl Hc Ho Hg Hcost] Hgg Hoth Hset Hgood Ht Hlink Hchan Hx Hy Hout Hz. split; cbn [ts_code ts_net]; [| |done|done| |by etransitivity|].
  - intros r' Hr'. destruct (decide (r = r')) as [<-|Hne]; [by rewrite !fn_lookup_insert|].
    destruct (Hoth r') as (-> & -> & ->); [done|]. rewrite !fn_lookup_insert_ne by done. by apply Hk.
  - intros r' Hr'. destruct (decide (r = r')) as [<-|Hne]; [by rewrite !fn_lookup_insert|]. rewrite !fn_lookup_insert_ne by done. by apply Hsh.
  - intros r' p Hr' Hp. destruct (decide (r = r')) as [<-|Hne]; [rewrite Hout by done; by apply Ho|].
    destruct (Hoth r') as (_ & _ & ->); [done|]. by apply Ho.
  - unfold cost in *. rewrite total_insert by done. lia.
Qed.
Lemma insert_as {A} (f : Z → A) r x q : f r = x → (<[r := x]> f) q = f q.
Proof. intros <-. destruct (decide (r = q)) as [<-|]; [by rewrite fn_lookup_insert|by rewrite fn_lookup_insert_ne]. Qed.
Lemma insert_same {A} (f : Z → A) r q : (<[r := f r]> f) q = f q.
Proof. by apply insert_as. Qed.
(** A call that moves no byte. *)
Lemma tsim_stay v g snt got b n r c z :
  0 ≤ r < N → sim v g snt got b n → tracks r (t_mem (ts_net v) r) (bmem g r) c (bcode g r) (snt r) (got r) z → z < b r →
  follows (mkTS (<[r := c]> (ts_code v)) (ts_net v)) n.
Proof.
  intros Hr Hsim Ht Hz. destruct (sm_rank _ _ _ _ _ _ Hsim r Hr) as (Hs & Hgd & _). destruct (sm_short _ _ _ _ _ _ Hsim r Hr) as [Hx Hy].
  eexists g, _, _, _. apply (sim_update v g snt got b n r c (ts_net v) g (snt r) (got r) z); try done; try lia.
  - intros e He. rewrite !insert_same. by apply (sm_link _ _ _ _ _ _ Hsim).
  - intros e He. destruct (sm_chan _ _ _ _ _ _ Hsim e He). split; [done|lia].
Qed.

Lemma bstep_proc g r g' : 0 ≤ r < N → bproc_step addb N cap g r = Some g' → step g g'.
Proof. intros Hr Hp. exists (BProc r). unfold blstep. by rewrite bool_decide_eq_true_2. Qed.
Lemma tsettle_at p g r : 0 ≤ r < N → bcode g r = p →
  ∃ g', rtc step g g' ∧ settled (bcode g' r) = true ∧ bmem g' = bmem g ∧ chan g' = chan g ∧
    (∀ r', r' ≠ r → bcode g' r' = bcode g r') ∧ on r (bcode g' r) = on r p ∧ (good r p → good r (bcode g' r)).
Proof.
  intros Hr. revert g. induction p as [a|o k IH]; intros g Hc.
  { exists g. rewrite Hc. split_and!; done. }
  destruct (settled (Do o k)) eqn:Hs.
  { exists g. rewrite Hc. split_and!; done. }
  destruct o as [t|[] h len id off|[] h len id off|t|d s]; try discriminate Hs; clear Hs.
  - destruct (IH true (mkB (<[r := k true]> (bcode g)) (bmem g) (chan g))) as (g' & Hg' & Hset & Hm & Hn & Ho & Hon & Hu).
    { cbn. by rewrite fn_lookup_insert. }
    exists g'. split; [eapply rtc_l; [|exact Hg']; apply (bstep_proc g r); [done|]; unfold bproc_step; by rewrite Hc|].
    split_and!; [done..| | |done]; [|by rewrite Hon]. intros r' Hne. rewrite Ho by done. cbn. by rewrite fn_lookup_insert_ne.
  - destruct (IH 0 (mkB (<[r := k 0]> (bcode g)) (bmem g) (chan g))) as (g' & Hg' & Hset & Hm & Hn & Ho & Hon & Hu).
    { cbn. by rewrite fn_lookup_insert. }
    exists g'. split; [eapply rtc_l; [|exact Hg']; apply (bstep_proc g r); [done|]; unfold bproc_step; by rewrite Hc|].
    split_and!; [done..| | |done]; [|by rewrite Hon]. intros r' Hne. rewrite Ho by done. cbn. by rewrite fn_lookup_insert_ne.
Qed.
(** A call that completes the operation. *)
Lemma ttracks_nonneg r m bm c p x y z : tracks r m bm c p x y z → 0 ≤ z.
Proof.
  assert (0 < cb) by (rewrite cb_eq by done; pose proof (ok_chunk S OK); unfold sizeof_float; lia). destruct 1; lia.
Qed.
Lemma steps_bwork g g' : rtc step g g' → bwork N g' ≤ bwork N g.
Proof. induction 1 as [g|g g1 g' Hs _ IH]; [done|]. pose proof (bstep_work addb N cap g g1 (ok_N S OK) Hs). lia. Qed.
Lemma tsim_move v g snt got b n g1 r c net' :
  0 ≤ r < N → sim v g snt got b n → bproc_step addb N cap g r = Some g1 →
  (∀ r', r' ≠ r → bcode g1 r' = bcode g r' ∧ bmem g1 r' = bmem g r' ∧ t_mem net' r' = t_mem (ts_net v) r') →
  good r (bcode g1 r) → c ≈ on r (bcode g1 r) → floats r (t_mem net' r) (bmem g1 r) nowhere →
  (∀ e, 0 ≤ e < N → (<[r := []]> got) (next_rank N e) ++ t_pipe net' e = pending (chan g1 e) ++ (<[r := []]> snt) e) →
  (∀ e, 0 ≤ e < N → Forall message (chan g1 e) ∧ (length (chan g1 e) ≤ Datatypes.S n)%nat) →
  (∀ p, byte_outside S r p → t_mem net' r p = t_mem (ts_net v) r p) →
  follows (mkTS (<[r := c]> (ts_code v)) net') n.
Proof.
  intros Hr Hsim Hp Ho Hgd Hc Hf Hlink Hchan Hout.
  destruct (tsettle_at (bcode g1 r) g1 r Hr eq_refl) as (g' & Hg' & Hset & Hm' & Hn' & Ho' & Hon & Hu').
  assert (Hcb : 0 < cb) by (rewrite cb_eq by done; pose proof (ok_chunk S OK); unfold sizeof_float; lia).
  eexists g', _, _, _. eapply (sim_update v g snt got b n r c net' g' [] [] (cb + 2)); try done.
  - eapply rtc_l; [by eapply bstep_proc|exact Hg'].
  - intros r' Hne. rewrite Ho', Hm' by done. by apply Ho.
  - auto.
  - rewrite Hm'. apply tr_at; [by rewrite Hon|done].
  - by rewrite Hn'.
  - by rewrite Hn'.
  - pose proof (bstep_work addb N cap g g1 (ok_N S OK) (bstep_proc g r g1 Hr Hp)). apply steps_bwork in Hg'.
    pose proof (ttracks_nonneg _ _ _ _ _ _ _ _ (proj2 (proj2 (sm_rank _ _ _ _ _ _ Hsim r Hr)))). nia.
Qed.
(** * The calls *)

Lemma chunk_bytes : cb = sizeof_float * chunk ∧ 0 < cb.
Proof. pose proof (ok_chunk S OK). rewrite cb_eq by done. unfold sizeof_float. lia. Qed.
Lemma pending_snoc c d : pending (c ++ [d]) = pending c ++ concat d.
Proof. unfold pending. rewrite map_app, concat_app. cbn. by rewrite app_nil_r. Qed.
(** The code that a call leaves, and the call's answer. *)
Lemma rank_answer r v v' (o : op sys_sig) k : rank_step N K room faults r v v' → ts_code v r ≈ Do o k →
  ∃ x n' c, tanswers N K room faults r o (ts_net v) x n' ∧ c ≈ k x ∧ v' = mkTS (<[r := c]> (ts_code v)) n'.
Proof.
  intros Hs Hc. symmetry in Hc. destruct Hc as (k' & Hc & Hk). unfold rank_step in Hs. rewrite Hc in Hs.
  destruct Hs as (x & n' & Ha & ->). exists x, n', (k' x). split; [done|]. split; [by symmetry|done].
Qed.
Lemma fail_tracks r m bm c (k : Z → ringM Z) p x y : faults = true → (∃ w, k (-1) = Ret w ∧ w ≠ 0) → c ≈ on r (k (-1)) → tracks r m bm c p x y 0.
Proof. intros Hfl (w & -> & Hw) Hc. eapply tr_dead; [|exact Hw|done]. symmetry in Hc. exact Hc. Qed.
Lemma taken m a n x : 0 ≤ x ≤ n → take (Z.to_nat x) (load m a n) = load m a x.
Proof.
  intros Hx. replace n with (x + (n - x)) by lia. rewrite load_app by lia.
  rewrite take_app_le, take_ge; [done|pose proof (length_load m a x); lia..].
Qed.

Lemma sim_sending v g snt got b i r h len id off k fuel n v' :
  0 ≤ r < N → sim v g snt got b i → (i < cap)%nat → bcode g r = Do (send_async Right h len id off : op ring_sig) k →
  ts_code v r ≈ sending r fuel (addr h + off) len n k → len - n ≤ Z.of_nat fuel → 0 ≤ n < len → len - n ≤ b r →
  floats r (t_mem (ts_net v) r) (bmem g r) nowhere → snt r = load (t_mem (ts_net v) r) (addr h + off) n → got r = [] →
  rank_step N K room faults r v v' → follows v' i.
Proof.
  intros Hr Hsim Hi Hp Hc Hfuel Hn Hb Hf Hsnt Hgot Hstep. destruct (sm_rank _ _ _ _ _ _ Hsim r Hr) as (Hset & Hgd & _).
  rewrite Hp in Hgd. pose proof Hgd as ((Hlen & Hok & Hrun) & Hbad & Hk). pose proof chunk_bytes as [Hcb Hcb0].
  destruct fuel as [|fuel]; [lia|]. rewrite sending_step in Hc by lia.
  destruct (rank_answer _ _ _ _ _ Hstep Hc) as (x & n' & c & Ha & Hc' & ->). clear Hstep Hc. cbn in x. cbn [tanswers] in Ha.
  destruct Ha as (_ & Hx & [(Hfl & Hneg & ->)|(Hpos & _ & ->)]).
  { apply (tsim_stay v g snt got b i r c 0 Hr Hsim); [|lia]. rewrite (proj2 (Z.leb_le _ _) Hneg) in Hc'. by eapply fail_tracks. }
  rewrite (proj2 (Z.leb_gt _ _) Hpos) in Hc'.
  assert (Htake : take (Z.to_nat x) (bytes_at (t_mem (ts_net v) r) (Mem (addr h + off + n)) (len - n)) =
    load (t_mem (ts_net v) r) (addr h + off + n) x) by (rewrite bytes_at_mem; apply taken; lia).
  rewrite Htake. set (m := t_mem (ts_net v) r) in *. set (a := addr h + off) in *.
  pose proof (sm_link _ _ _ _ _ _ Hsim) as Hlink.
  assert (Hlr : got (next_rank N r) ++ t_pipe (ts_net v) r ++ load m (a + n) x = pending (chan g r) ++ load m a (n + x)).
  { rewrite load_app, <- Hsnt, !app_assoc by lia. f_equal. by apply Hlink. }
  destruct (decide (n + x = len)) as [Hend|Hmore].
  - rewrite Hend, sending_done in Hc'.
    pose proof (ok_chunk S OK). destruct (concat_cells m (bmem g r) a chunk) as [Hcat Hcells]; [lia|intros j Hj; apply Hf; [by apply (run_cell S)|by intros []]|].
    eapply (tsim_move v g snt got b i _ r c); [done|done| | | | | | | |].
    + unfold bproc_step. rewrite Hp, Hok. rewrite bool_decide_eq_true_2 by (destruct (sm_chan _ _ _ _ _ _ Hsim r Hr); lia). reflexivity.
    + intros r' Hne. cbn. by rewrite fn_lookup_insert_ne.
    + cbn. by rewrite fn_lookup_insert.
    + cbn. by rewrite fn_lookup_insert.
    + exact Hf.
    + intros e He. cbn [chan t_pipe]. rewrite insert_as by done. destruct (decide (r = e)) as [<-|Hne].
      * rewrite !fn_lookup_insert. unfold outgoing. fold a. rewrite Hlen, bcb_cells, pending_snoc, Hcat, <- Hcb, <- Hlen, <- Hend by done.
        by rewrite app_nil_r.
      * rewrite !fn_lookup_insert_ne by done. by apply Hlink.
    + intros e He. cbn [chan]. destruct (sm_chan _ _ _ _ _ _ Hsim e He) as [Hm Hl]. destruct (decide (r = e)) as [<-|Hne].
      * rewrite fn_lookup_insert, length_app. cbn. split; [|lia]. apply Forall_app. split; [done|]. apply Forall_singleton.
        unfold outgoing. fold a. rewrite Hlen, bcb_cells by done. split; [rewrite length_mem_read; lia|done].
      * rewrite fn_lookup_insert_ne by done. split; [done|lia].
    + done.
  - eexists g, _, _, _. eapply (sim_update v g snt got b i r c _ g (load m a (n + x)) [] (len - (n + x))); try done.
    + by rewrite Hp.
    + rewrite Hp. eapply tr_send; [exact Hc'|lia|lia|done].
    + intros e He. cbn [t_pipe]. rewrite insert_as by done. destruct (decide (r = e)) as [<-|Hne].
      * by rewrite !fn_lookup_insert.
      * rewrite !fn_lookup_insert_ne by done. by apply Hlink.
    + intros e He. destruct (sm_chan _ _ _ _ _ _ Hsim e He). split; [done|lia].
    + rewrite length_load by lia. lia.
    + lia.
Qed.
Lemma run_outside r a p : frun S r a → byte_outside S r p → p < a ∨ a + cb ≤ p.
Proof.
  pose proof chunk_bytes as [-> _]. unfold frun, byte_outside, sizeof_float.
  intros [(k & Hk & Hl & ->)|(k & Hk & Hl & ->)] [Hb Hs]; lia.
Qed.
(** Bytes stored in a chunk leave the floats elsewhere. *)
Lemma store_elsewhere r m a n d p : 0 ≤ r < N → frun S r a → 0 ≤ n → n + Z.of_nat (length d) ≤ cb →
  fcell S r p → ¬ in_chunk a p → float_at (store m (a + n) d) p = float_at m p.
Proof.
  intros Hr Ha Hn Hd Hp Hni. pose proof chunk_bytes as [Hcb _]. apply load_store_other.
  destruct (cell_run S OK r p a Hr Hp Ha) as [(j & Hj & ->)|Hap]; [destruct Hni; by exists j|]. unfold sizeof_float in *. lia.
Qed.
(** A chunk that is all there is the message that was at the head of the stream. *)
Lemma head_message c x rest snt : x ++ rest = pending c ++ snt → Z.of_nat (length x) = cb → Forall message c →
  Z.of_nat (length snt) < cb → ∃ d c', c = d :: c' ∧ message d ∧ x = concat d ∧ rest = pending c' ++ snt.
Proof.
  intros Hl Hx Hc Hs. pose proof chunk_bytes as [Hcb _]. destruct Hc as [|d c Hd Hc].
  - cbn in Hl. apply (f_equal length) in Hl. rewrite length_app in Hl. lia.
  - exists d, c. split; [done|]. split; [done|]. unfold pending in Hl. cbn [map concat] in Hl. rewrite <- app_assoc in Hl.
    destruct Hd as [Hlen Hcells]. by apply app_inj_1 in Hl; [|rewrite (length_cells d Hcells); unfold sizeof_float in *; lia].
Qed.
Lemma received_floats r m bm a d : 0 ≤ r < N → frun S r a → message d → load m a cb = concat d →
  floats r m bm (in_chunk a) → floats r m (mem_write bm a d) nowhere.
Proof.
  intros Hr Ha [Hl Hc] Hd Hf p Hp _. pose proof chunk_bytes as [Hcb _].
  destruct (cell_run S OK r p a Hr Hp Ha) as [(j & Hj & ->)|Hap].
  - rewrite mem_write_cell by lia. destruct (lookup_lt_is_Some_2 d (Z.to_nat j)) as [x Hx]; [lia|]. rewrite Hx. cbn.
    symmetry. replace j with (Z.of_nat (Z.to_nat j)) by lia. eapply load_cells; [done|by rewrite Hl, <- Hcb|done].
  - assert (Hni : ∀ j, 0 ≤ j < chunk → p ≠ a + sizeof_float * j) by (unfold sizeof_float in *; lia).
    rewrite mem_write_out by (rewrite Hl; done). apply Hf; [done|]. intros (j & Hj & ->). by apply (Hni j).
Qed.

Lemma sim_receiving v g snt got b i r h len id off k fuel acc v' :
  0 ≤ r < N → sim v g snt got b i → bcode g r = Do (recv_async Left h len id off : op ring_sig) k →
  ts_code v r ≈ receiving r fuel (addr h + off) len (Z.of_nat (length (got r))) acc k →
  len - Z.of_nat (length (got r)) ≤ Z.of_nat fuel → Z.of_nat (length (got r)) < len →
  len - Z.of_nat (length (got r)) ≤ b r → load (t_mem (ts_net v) r) (addr h + off) (Z.of_nat (length (got r))) = got r →
  floats r (t_mem (ts_net v) r) (bmem g r) (in_chunk (addr h + off)) → snt r = [] →
  rank_step N K room faults r v v' → follows v' i.
Proof.
  intros Hr Hsim Hp Hc Hfuel Hn Hb Hload Hf Hsnt Hstep. destruct (sm_rank _ _ _ _ _ _ Hsim r Hr) as (Hset & Hgd & _).
  rewrite Hp in Hgd. pose proof Hgd as ((Hlen & Hok & Hrun) & Hbad & Hk). pose proof chunk_bytes as [Hcb Hcb0].
  destruct fuel as [|fuel]; [lia|]. rewrite receiving_step in Hc by lia.
  destruct (rank_answer _ _ _ _ _ Hstep Hc) as (x & n' & c & Ha & Hc' & ->). clear Hstep Hc. cbn in x. destruct x as [x d].
  cbn [tanswers fst snd] in Ha, Hc'. destruct Ha as (_ & Hx & [(Hfl & Hneg & ->)|(Hpos & Hd & rest & Hpipe & ->)]).
  { apply (tsim_stay v g snt got b i r c 0 Hr Hsim); [|lia]. rewrite (proj2 (Z.leb_le _ _) Hneg) in Hc'. by eapply fail_tracks. }
  rewrite (proj2 (Z.leb_gt _ _) Hpos), <- Hd, <- Nat2Z.inj_add, <- length_app in Hc'. cbn [recv_into].
  set (m := t_mem (ts_net v) r) in *. set (a := addr h + off) in *. set (e := prev_rank N r) in *.
  pose proof (ok_N S OK) as HN. assert (He : 0 ≤ e < N) by by apply prev_range. assert (Hne : next_rank N e = r) by by apply next_prev.
  pose proof (sm_link _ _ _ _ _ _ Hsim) as Hlink. pose proof (Hlink e He) as Hle. rewrite Hne, Hpipe, app_assoc in Hle.
  pose proof (load_grow m a (got r) d Hload) as Hgrow. set (m' := store m (a + _) d) in *.
  assert (Hlg : Z.of_nat (length (got r ++ d)) = Z.of_nat (length (got r)) + x) by (rewrite length_app; lia).
  assert (Hf' : floats r m' (bmem g r) (in_chunk a)).
  { intros p Hp' Hni. unfold m'. rewrite (store_elsewhere r); [by apply Hf|done|done|lia|lia|done|done]. }
  assert (Hout : ∀ p, byte_outside S r p → m' p = m p).
  { intros p Hp'. apply store_other. pose proof (run_outside r a p Hrun Hp'). lia. }
  assert (Hsame : ∀ q, (<[r := []]> snt) q = snt q) by (intros q; by apply insert_as).
  assert (Hoth : ∀ e', 0 ≤ e' < N → e' ≠ e → next_rank N e' ≠ r).
  { intros e' He' Hee Hn'. apply Hee. unfold e. rewrite <- Hn'. symmetry. by apply prev_next. }
  destruct (decide (Z.of_nat (length (got r ++ d)) = len)) as [Hend|Hmore].
  - rewrite Hend, receiving_done in Hc'. destruct (sm_chan _ _ _ _ _ _ Hsim e He) as [Hch Hci].
    destruct (head_message _ _ _ _ Hle) as (d0 & ch & Hchan & Hmsg & Hd0 & Hrest); [lia|done|by apply (sm_short _ _ _ _ _ _ Hsim)|].
    eapply (tsim_move v g snt got b i _ r c); [done|done| | | | | | | |].
    + unfold bproc_step. rewrite Hp, Hok. fold e. rewrite Hchan.
      rewrite bool_decide_eq_true_2 by (rewrite Hlen, bcb_cells by done; apply Hmsg). reflexivity.
    + intros r' Hner. cbn. by rewrite !fn_lookup_insert_ne.
    + cbn. by rewrite fn_lookup_insert.
    + cbn. by rewrite fn_lookup_insert.
    + cbn. rewrite !fn_lookup_insert. apply received_floats; [done|done|done| |done]. by rewrite <- Hd0, <- Hgrow, Hend, Hlen at 1.
    + intros e' He'. cbn [chan t_pipe]. rewrite Hsame. destruct (decide (e = e')) as [<-|Hee].
      * by rewrite Hne, !fn_lookup_insert.
      * rewrite !fn_lookup_insert_ne; [by apply Hlink|done|done|]. intros Hrr. by apply (Hoth e').
    + intros e' He'. cbn [chan]. destruct (sm_chan _ _ _ _ _ _ Hsim e' He') as [Hm Hl]. destruct (decide (e = e')) as [<-|Hee].
      * rewrite fn_lookup_insert. rewrite Hchan in Hm, Hl. cbn in Hl. split; [by inversion Hm|lia].
      * rewrite fn_lookup_insert_ne by done. split; [done|lia].
    + cbn. by rewrite fn_lookup_insert.
  - eexists g, _, _, _. eapply (sim_update v g snt got b i r c _ g [] (got r ++ d) (len - Z.of_nat (length (got r ++ d)))); try done.
    + intros r' Hner. cbn. by rewrite fn_lookup_insert_ne.
    + by rewrite Hp.
    + rewrite Hp. cbn. rewrite fn_lookup_insert. eapply tr_recv; [exact Hc'|lia|lia|exact Hgrow|done].
    + intros e' He'. cbn [t_pipe]. rewrite Hsame. destruct (decide (e = e')) as [<-|Hee].
      * by rewrite Hne, !fn_lookup_insert.
      * rewrite !fn_lookup_insert_ne; [by apply Hlink|done|]. intros Hrr. by apply (Hoth e').
    + intros e' He'. destruct (sm_chan _ _ _ _ _ _ Hsim e' He'). split; [done|lia].
    + lia.
    + cbn. by rewrite fn_lookup_insert.
    + lia.
Qed.

(** An addition: two loads during which the ring's side waits, and a store. *)
Lemma tsim_load_dst v g snt got b i r d s k v' : 0 ≤ r < N → sim v g snt got b i →
  bcode g r = Do (add_assign d s : op ring_sig) k → ts_code v r ≈ on r (bcode g r) → snt r = [] → got r = [] → 1 < b r →
  floats r (t_mem (ts_net v) r) (bmem g r) nowhere → rank_step N K room faults r v v' → follows v' i.
Proof.
  intros Hr Hsim Hp Hc Hs0 Hg0 Hb Hf Hstep. rewrite Hp, ton_add in Hc.
  destruct (rank_answer _ _ _ _ _ Hstep Hc) as (x & n' & c & (-> & ->) & Hc' & ->).
  apply (tsim_stay v g snt got b i r c 1 Hr Hsim); [|done]. rewrite Hp, Hs0, Hg0. by apply tr_one.
Qed.
Lemma tsim_load_src v g snt got b i r d s k v' : 0 ≤ r < N → sim v g snt got b i →
  bcode g r = Do (add_assign d s : op ring_sig) k →
  ts_code v r ≈ loaded_one r (le_val (float_at (t_mem (ts_net v) r) d)) d s k → snt r = [] → got r = [] → 0 < b r →
  floats r (t_mem (ts_net v) r) (bmem g r) nowhere → rank_step N K room faults r v v' → follows v' i.
Proof.
  intros Hr Hsim Hp Hc Hs0 Hg0 Hb Hf Hstep. rewrite tloaded_one_step in Hc.
  destruct (rank_answer _ _ _ _ _ Hstep Hc) as (x & n' & c & (-> & ->) & Hc' & ->).
  apply (tsim_stay v g snt got b i r c 0 Hr Hsim); [|done]. rewrite Hp, Hs0, Hg0. by apply tr_both.
Qed.
Lemma tsim_store v g snt got b i r d s k v' : 0 ≤ r < N → sim v g snt got b i →
  bcode g r = Do (add_assign d s : op ring_sig) k →
  ts_code v r ≈ loaded_both r (le_val (float_at (t_mem (ts_net v) r) d)) (le_val (float_at (t_mem (ts_net v) r) s)) d k →
  snt r = [] → got r = [] → floats r (t_mem (ts_net v) r) (bmem g r) nowhere → rank_step N K room faults r v v' → follows v' i.
Proof.
  intros Hr Hsim Hp Hc Hs0 Hg0 Hf Hstep. destruct (sm_rank _ _ _ _ _ _ Hsim r Hr) as (_ & Hgd & _).
  rewrite Hp in Hgd. destruct Hgd as (Hd & Hs & Hk). rewrite tloaded_both_step in Hc.
  destruct (rank_answer _ _ _ _ _ Hstep Hc) as (x & n' & c & -> & Hc' & ->). set (m := t_mem (ts_net v) r) in *.
  assert (Hlen : ∀ z, Z.of_nat (length (le_bytes 4 z)) = 4) by (intros z; by rewrite length_le_bytes).
  eapply (tsim_move v g snt got b i _ r c); [done|done| | | | | | | |].
  - unfold bproc_step. rewrite Hp. reflexivity.
  - intros r' Hne. cbn [bcode bmem t_mem]. by rewrite !fn_lookup_insert_ne.
  - cbn [bcode]. by rewrite fn_lookup_insert.
  - cbn [bcode]. by rewrite fn_lookup_insert.
  - cbn [bmem t_mem]. rewrite !fn_lookup_insert. intros p Hp' _. rewrite (Hf d Hd), (Hf s Hs) by (intros []). destruct (decide (d = p)) as [<-|Hne].
    + rewrite fn_lookup_insert. unfold float_at at 3, sizeof_float. fold m. symmetry. pose proof (load_store m d) as Hls.
      specialize (Hls (le_bytes 4 (fadd (le_val (float_at m d)) (le_val (float_at m s))))). by rewrite Hlen in Hls.
    + rewrite fn_lookup_insert_ne, (Hf p Hp') by (done || intros []). symmetry. apply load_store_other. rewrite Hlen.
      destruct (cell_apart S OK r d p Hr Hd Hp'); unfold sizeof_float; lia.
  - intros e He. cbn [chan t_pipe]. rewrite !insert_as by done. by apply (sm_link _ _ _ _ _ _ Hsim).
  - intros e He. cbn [chan]. destruct (sm_chan _ _ _ _ _ _ Hsim e He). split; [done|lia].
  - intros p Hp'. cbn [t_mem]. rewrite fn_lookup_insert. apply store_other. rewrite Hlen.
    destruct Hp' as [Hb Hst], Hd as [(j & Hj & ->)|(j & Hj & ->)]; unfold sizeof_float in *; lia.
Qed.

Lemma trank_sim v g snt got b i r v' : (i < cap)%nat → 0 ≤ r < N → sim v g snt got b i → rank_step N K room faults r v v' → follows v' i.
Proof.
  intros Hi Hr Hsim Hstep. destruct (sm_rank _ _ _ _ _ _ Hsim r Hr) as (Hs & Hu & Ht). pose proof chunk_bytes as [_ Hcb0].
  remember (bcode g r) as p eqn:Hp. remember (snt r) as x eqn:Hx. remember (got r) as y eqn:Hy. remember (b r) as z eqn:Hz.
  symmetry in Hp, Hx, Hy, Hz.
  destruct Ht as [p Hc Hf|h len id off k fuel n Hc Hfu Hn Hf|h len id off k fuel d acc Hc Hfu Hn Hl Hf|d s k Hc Hf|d s k Hc Hf|p w x y Hc Hw Hfl].
  - destruct p as [a|[t|[] h len id off|[] h len id off|t|d s] k]; try discriminate Hs; try (by destruct Hu).
    + symmetry in Hc. unfold rank_step in Hstep. cbn in Hc. by rewrite Hc in Hstep.
    + pose proof Hu as ((Hlen & Hok & _) & _). rewrite ton_send in Hc by done.
      eapply (sim_sending v g snt got b i r h len id off k _ 0); try done; lia.
    + pose proof Hu as ((Hlen & Hok & _) & _). rewrite ton_recv in Hc by done.
      eapply (sim_receiving v g snt got b i r h len id off k); rewrite ?Hy; try done; try (cbn [length]; lia).
      intros q Hq _. apply Hf; [done|intros []].
    + rewrite <- Hp in Hc. eapply tsim_load_dst; (done || lia).
  - eapply sim_sending; (done || lia).
  - rewrite <- Hy in *. eapply sim_receiving; (done || lia).
  - eapply tsim_load_src; (done || lia).
  - by eapply tsim_store.
  - unfold rank_step in Hstep. by rewrite Hc in Hstep.
Qed.

(** * Whole executions *)

(** The start: every rank is settled in turn. *)
Abbreviation start := (blocking_init S (fun r => float_at (mem0 r))).
Lemma tsettle_all n : (n ≤ Z.to_nat N)%nat → ∃ g, rtc step start g ∧ bmem g = bmem start ∧ chan g = (fun _ => []) ∧
  (∀ r, 0 ≤ r < Z.of_nat n → settled (bcode g r) = true ∧ good r (bcode g r) ∧ on r (bcode g r) = on r (ring_code S r)) ∧
  (∀ r, Z.of_nat n ≤ r → bcode g r = ring_code S r).
Proof.
  induction n as [|n IH]; intros Hn; [exists start; split_and!; (done || lia)|].
  destruct IH as (g & Hg & Hm & Hc & Hdone & Hrest); [lia|].
  destruct (tsettle_at (ring_code S (Z.of_nat n)) g (Z.of_nat n)) as (g' & Hg' & Hset & Hm' & Hn' & Ho & Hon & Hu); [lia|apply Hrest; lia|].
  exists g'. split; [by etransitivity|]. split; [by rewrite Hm'|]. split; [by rewrite Hn'|]. split.
  - intros r Hr. destruct (decide (r = Z.of_nat n)) as [->|Hne].
    + split; [done|]. split; [apply Hu, ring_sound; (done || lia)|done].
    + rewrite Ho by done. apply Hdone. lia.
  - intros r Hr. rewrite Ho by lia. apply Hrest. lia.
Qed.
Lemma tstack_start : ∃ g, sim (tstack_init S K pf mem0) g (fun _ => []) (fun _ => []) (fun _ => cb + 2) 0.
Proof.
  destruct (tsettle_all (Z.to_nat N)) as (g & Hg & Hm & Hc & Hdone & _); [done|]. pose proof chunk_bytes as [_ Hcb0].
  exists g. split; try done.
  - intros r Hr. destruct (Hdone r) as (Hs & Hu & Hon); [lia|]. split; [done|]. split; [done|]. apply tr_at.
    + cbn. unfold tstack_code. by rewrite Hon.
    + intros p _ _. by rewrite Hm.
  - by rewrite Hc.
  - rewrite Hc. split; [constructor|done].
  - unfold budget, cost. apply steps_bwork in Hg. nia.
Qed.
Lemma tstack_refines n v : (n ≤ cap)%nat → nsteps (tstep N K room faults) n (tstack_init S K pf mem0) v →
  ∃ g snt got b, sim v g snt got b n.
Proof.
  revert v. induction n as [|n IH]; intros v Hn Hv.
  - inversion Hv; subst. destruct tstack_start as [g Hg]. by eexists _, _, _, _.
  - apply nsteps_inv_r in Hv as (v1 & Hv1 & (r & Hr & Hstep)). destruct (IH v1) as (g & snt & got & b & Hsim); [lia|done|].
    eapply (trank_sim v1 g snt got b n r); (done || lia).
Qed.
End sim.
