(* ===== verification/TcpStackTheorems.v ===== *)
(** What the stack on sockets computes, and that it ends. *)
From stdpp Require Import relations.
From S2P Require Import Prelude Prog Sys Oob OobSpec Endpoint Transport TcpBackend Float32 RingAllreduce RingSpec RingMem RingMeasure RingPosted.
From S2P Require Import RingBlocking RingBlockingProof RingBlockingCorrect RingBlockingLive RingBlockingTheorems AllreduceBench RdmaStack TcpStack TcpStackSim.

(** The calls of a whole execution: for each operation of the ring a call per byte
    and three more. *)
Definition tstack_bound (S : ring_setup) : Z :=
  let cb := u64 (rs_chunk S * sizeof_float) in
  (cb + 3) * total (rs_N S) (fun r => path (ring_code S r)) + rs_N S * (cb + 2).

Section stack.
Context (S : ring_setup) (OK : setup_ok S) (NN : setup_nonnull S).
Context (K : tstack) (room : Z) (faults : bool) (pf : nat) (mem0 : Z → Z → Z) (cap : nat).
Abbreviation N := (rs_N S).
Abbreviation cb := (u64 (rs_chunk S * sizeof_float)).
Abbreviation sim := (sim S K faults pf mem0 cap).
Abbreviation on r := (Bench.on_transports pf (tk_left K r) (tk_right K r)).

(** The ring's side of a rank that returned. *)
Lemma tsim_returned v g snt got b i r x : 0 ≤ r < N → sim v g snt got b i → ts_code v r = Ret x →
  ∃ y, x = Some y ∧ (bcode g r = Ret y ∧ floats S r (t_mem (ts_net v) r) (bmem g r) nowhere ∨ y ≠ 0 ∧ faults = true).
Proof.
  intros Hr Hsim Hc. destruct (sm_rank _ _ _ _ _ _ _ _ _ _ _ _ Hsim r Hr) as (Hs & Hu & Ht).
  destruct Ht as [p Hq Hf|h len id off k fuel n Hq Hfu Hn Hf|h len id off k fuel d acc Hq Hfu Hn Hl Hf|d s k Hq Hf|d s k Hq Hf|p w x' y Hq Hw Hfl];
    rewrite Hc in Hq.
  - destruct p as [a|[t|[] h len id off|[] h len id off|t|d s] k]; try discriminate Hs; try (by destruct Hu).
    + cbn in Hq. injection Hq as <-. exists a. by eauto.
    + destruct Hu as ((Hlen & Hok & _) & _). pose proof (chunk_bytes S OK) as [_ Hcb]. rewrite ton_send in Hq by done.
      destruct (Z.to_nat len) eqn:Hlz; [lia|]. by rewrite sending_step in Hq by lia.
    + destruct Hu as ((Hlen & Hok & _) & _). pose proof (chunk_bytes S OK) as [_ Hcb]. rewrite ton_recv in Hq by done.
      destruct (Z.to_nat len) eqn:Hlz; [lia|]. by rewrite receiving_step in Hq by lia.
  - destruct fuel; [lia|]. by rewrite sending_step in Hq by lia.
  - destruct fuel; [lia|]. by rewrite receiving_step in Hq by lia.
  - by rewrite tloaded_one_step in Hq.
  - by rewrite tloaded_both_step in Hq.
  - injection Hq as ->. eauto.
Qed.
Abbreviation runs := (nsteps (tstep N K room faults)).
Lemma tstack_holds n v r x : (n ≤ cap)%nat → runs n (tstack_init S K pf mem0) v → 0 ≤ r < N → ts_code v r = Ret x →
  ∃ y, x = Some y ∧ (y = 0 ∨ faults = true) ∧
    (y = 0 → ∀ c i, inner S c N i →
       float_at (t_mem (ts_net v) r) (bcell S r c i) = reduced addb (input S (fun q => float_at (mem0 q))) N c i).
Proof.
  intros Hn Hv Hr Hc. destruct (tstack_refines S OK NN K room faults pf mem0 cap n v Hn Hv) as (g & snt & got & b & Hsim).
  destruct (tsim_returned v g snt got b n r x Hr Hsim Hc) as (y & -> & [[Hy Hf]|[Hy Hfl]]); exists y; (split; [done|]).
  - destruct (blocking_holds addb S _ cap g r y OK NN (sm_reach _ _ _ _ _ _ _ _ _ _ _ _ Hsim) Hr Hy) as (-> & Hsum & _).
    split; [by left|]. intros _ c i Hi. rewrite <- Hsum by done. symmetry. apply Hf; [by apply cell_bcell|intros []].
  - split; [by right|]. done.
Qed.
Lemma stack_outside n v r p : (n ≤ cap)%nat → runs n (tstack_init S K pf mem0) v → 0 ≤ r < N → byte_outside S r p →
  t_mem (ts_net v) r p = mem0 r p.
Proof.
  intros Hn Hv Hr Hp. destruct (tstack_refines S OK NN K room faults pf mem0 cap n v Hn Hv) as (g & snt & got & b & Hsim).
  by apply (sm_out _ _ _ _ _ _ _ _ _ _ _ _ Hsim).
Qed.

(** * Progress *)

(** A call that can be answered, and not with a failure. *)
Lemma can_step v r (o : op sys_sig) k x n' : ts_code v r ≈ Do o k → tanswers N K room false r o (ts_net v) x n' →
  ∃ v', rank_step N K room false r v v'.
Proof. intros Hc Ha. symmetry in Hc. destruct Hc as (k' & Hc & _). eexists. unfold rank_step. rewrite Hc. by exists x, n'. Qed.
Lemma can_recv v r fuel a len n acc k : ts_code v r ≈ receiving K pf r fuel a len n acc k → n < len → len - n ≤ Z.of_nat fuel →
  t_pipe (ts_net v) (prev_rank N r) ≠ [] → ∃ v', rank_step N K room false r v v'.
Proof.
  intros Hc Hn Hf Hp. destruct fuel as [|fuel]; [lia|]. rewrite receiving_step in Hc by done.
  destruct (t_pipe (ts_net v) (prev_rank N r)) as [|x rest] eqn:Hpipe; [done|].
  eapply (can_step v r (c_recv (Tcp.fd_ (tk_left K r)) (Mem (a + n)) (len - n)) _ (1, [x])); [exact Hc|]. cbn [tanswers fst snd]. split; [done|]. split; [lia|]. right.
  split; [lia|]. split; [done|]. exists rest. split; [done|reflexivity].
Qed.
Lemma can_send v r fuel a len n k : ts_code v r ≈ sending K pf r fuel a len n k → n < len → len - n ≤ Z.of_nat fuel →
  t_pipe (ts_net v) r = [] → 1 ≤ room → ∃ v', rank_step N K room false r v v'.
Proof.
  intros Hc Hn Hf Hp Hroom. destruct fuel as [|fuel]; [lia|]. rewrite sending_step in Hc by done.
  eapply (can_step v r (c_send (Tcp.fd_ (tk_right K r)) (Mem (a + n)) (len - n)) _ 1); [exact Hc|]. cbn [tanswers]. split; [done|]. split; [lia|]. right. rewrite Hp.
  split; [lia|]. split; [cbn; lia|reflexivity].
Qed.

Section at_state.
Context (v : tstate) (g : @bstate cell) (snt got : Z → list Z) (b : Z → Z) (i : nat) (Hsim : sim v g snt got b i).
Context (Halive : ∀ r y, 0 ≤ r < N → ts_code v r = Ret (Some y) → y = 0) (Hroom : 1 ≤ room).

Lemma receiver_moves r : 0 ≤ r < N → about_to_recv (bcode g r) ≠ None → t_pipe (ts_net v) (prev_rank N r) ≠ [] →
  ∃ v', rank_step N K room false r v v'.
Proof.
  intros Hr Hab Hpipe. destruct (sm_rank _ _ _ _ _ _ _ _ _ _ _ _ Hsim r Hr) as (Hs & Hu & Ht). revert Hab.
  destruct Ht as [p Hq Hf|h len id off k fuel n Hq Hfu Hn Hf|h len id off k fuel d acc Hq Hfu Hn Hl Hf|d s k Hq Hf|d s k Hq Hf|p w x' y Hq Hw Hfl];
    intros Hab; try done.
  - destruct p as [a|[t|[] h len id off|[] h len id off|t|d s] k]; try done.
    destruct Hu as ((Hlen & Hok & _) & _). pose proof (chunk_bytes S OK) as [_ Hcb]. rewrite ton_recv in Hq by done.
    eapply can_recv; (done || lia).
  - by eapply can_recv.
  - by apply (Halive r) in Hq.
Qed.
Lemma sender_moves r : 0 ≤ r < N → about_to_send (bcode g r) ≠ None → t_pipe (ts_net v) r = [] →
  ∃ v', rank_step N K room false r v v'.
Proof.
  intros Hr Hab Hpipe. destruct (sm_rank _ _ _ _ _ _ _ _ _ _ _ _ Hsim r Hr) as (Hs & Hu & Ht). revert Hab.
  destruct Ht as [p Hq Hf|h len id off k fuel n Hq Hfu Hn Hf|h len id off k fuel d acc Hq Hfu Hn Hl Hf|d s k Hq Hf|d s k Hq Hf|p w x' y Hq Hw Hfl];
    intros Hab; try done.
  - destruct p as [a|[t|[] h len id off|[] h len id off|t|d s] k]; try done.
    destruct Hu as ((Hlen & Hok & _) & _). pose proof (chunk_bytes S OK) as [_ Hcb]. rewrite ton_send in Hq by done.
    eapply can_send; (done || lia).
  - eapply can_send; (done || lia).
  - by apply (Halive r) in Hq.
Qed.
(** A stream that carries a message is not empty. *)
Lemma message_waits e : 0 ≤ e < N → chan g e ≠ [] → t_pipe (ts_net v) e ≠ [].
Proof.
  intros He Hne Hnil. pose proof (ok_N S OK) as HN. pose proof (sm_link _ _ _ _ _ _ _ _ _ _ _ _ Hsim e He) as Hl.
  destruct (sm_short _ _ _ _ _ _ _ _ _ _ _ _ Hsim (next_rank N e) (next_range N HN e)) as [_ Hg].
  destruct (sm_chan _ _ _ _ _ _ _ _ _ _ _ _ Hsim e He) as [Hm _]. rewrite Hnil, app_nil_r in Hl.
  destruct (chan g e) as [|d c]; [done|]. apply Forall_cons in Hm as [[Hd Hc] _]. pose proof (chunk_bytes S OK) as [Hcb _].
  apply (f_equal length) in Hl. unfold pending in Hl. cbn [map concat] in Hl. rewrite !length_app, (length_cells d Hc) in Hl.
  rewrite Hcb in Hg. unfold sizeof_float in Hg. lia.
Qed.
(** A step of the ring over rendezvous streams is matched by a call. *)
Lemma rank_moves r g' : 0 ≤ r < N → bproc_step addb N 0 g r = Some g' → ∃ v', rank_step N K room false r v v'.
Proof.
  intros Hr Hstep. pose proof (ok_N S OK) as HN. destruct (decide (about_to_recv (bcode g r) = None)) as [Hno|Hab].
  2: { apply receiver_moves; [done|done|]. apply message_waits; [by apply prev_range|]. intros Hnil.
       destruct (sm_rank _ _ _ _ _ _ _ _ _ _ _ _ Hsim r Hr) as (_ & Hu & _). unfold bproc_step in Hstep.
       destruct (bcode g r) as [a|[t|[] h len id off|[] h len id off|t|d s] k]; try done.
       destruct Hu as ((_ & Hok & _) & _). by rewrite Hok, Hnil in Hstep. }
  destruct (sm_rank _ _ _ _ _ _ _ _ _ _ _ _ Hsim r Hr) as (Hs & Hu & Ht). revert Hno Hstep. unfold bproc_step.
  destruct Ht as [p Hq Hf|h len id off k fuel n Hq Hfu Hn Hf|h len id off k fuel d acc Hq Hfu Hn Hl Hf|d s k Hq Hf|d s k Hq Hf|p w x' y Hq Hw Hfl];
    intros Hno Hstep; try done.
  - destruct p as [a|[t|[] h len id off|[] h len id off|t|d s] k]; try done.
    + destruct Hu as ((_ & Hok & _) & _). rewrite Hok in Hstep. by rewrite bool_decide_eq_false_2 in Hstep by lia.
    + rewrite ton_add in Hq. eapply can_step; [exact Hq|by split].
  - destruct Hu as ((_ & Hok & _) & _). rewrite Hok in Hstep. by rewrite bool_decide_eq_false_2 in Hstep by lia.
  - rewrite tloaded_one_step in Hq. eapply can_step; [exact Hq|by split].
  - rewrite tloaded_both_step in Hq. eapply (can_step v r (c_store _ _) _ tt); [exact Hq|reflexivity].
  - by apply (Halive r) in Hq.
Qed.
Lemma handover_moves r g' : 0 ≤ r < N → handover N g r = Some g' → ∃ q v', 0 ≤ q < N ∧ rank_step N K room false q v v'.
Proof.
  intros Hr Hstep. pose proof (ok_N S OK) as HN. unfold handover in Hstep.
  destruct (about_to_send (bcode g r)) as [s|] eqn:Hs; [|done]. destruct s as [[[h len] off] p].
  destruct (about_to_recv (bcode g (next_rank N r))) as [s|] eqn:Hrc; [|done].
  destruct (t_pipe (ts_net v) r) as [|x rest] eqn:Hpipe.
  - destruct (sender_moves r Hr) as [v' Hv']; [by rewrite Hs|done|]. by exists r, v'.
  - destruct (receiver_moves (next_rank N r)) as [v' Hv']; [by apply next_range|by rewrite Hrc|by rewrite prev_next, Hpipe|].
    exists (next_rank N r), v'. split; [by apply next_range|done].
Qed.
End at_state.
Lemma tstack_moves n v : (n ≤ cap)%nat → runs n (tstack_init S K pf mem0) v → 1 ≤ room →
  (∀ r y, 0 ≤ r < N → ts_code v r = Ret (Some y) → y = 0) → (∃ r, 0 ≤ r < N ∧ ts_code v r ≠ Ret (Some 0)) →
  ∃ v', tstep N K room false v v'.
Proof.
  intros Hn Hv Hroom Halive (r & Hr & Hne). destruct (tstack_refines S OK NN K room faults pf mem0 cap n v Hn Hv) as (g & snt & got & b & Hsim).
  destruct (binv_progress addb S (fun q => float_at (mem0 q)) 0 OK NN g) as (g' & l & Hl).
  - eapply breachable_inv; [done|done|apply (sm_reach _ _ _ _ _ _ _ _ _ _ _ _ Hsim)].
  - exists r. split; [done|]. intros Hc. destruct (sm_rank _ _ _ _ _ _ _ _ _ _ _ _ Hsim r Hr) as (_ & _ & Ht). rewrite Hc in Ht.
    inversion Ht as [p Hq| | | | |p w x y Hq Hw]; subst p; [apply Hne; by symmetry in Hq|by apply Halive in Hq].
  - unfold blstep in Hl. case_bool_decide as He; [|done]. destruct l as [e|e]; cbn [blabel_rank] in He.
    + destruct (rank_moves v g snt got b n Hsim Halive e g' He Hl) as [v' Hv']. by exists v', e.
    + destruct (handover_moves v g snt got b n Hsim Halive Hroom e g' He Hl) as (q & v' & Hq & Hv'). by exists v', q.
Qed.
Lemma tstack_bounded n v : (n ≤ cap)%nat → runs n (tstack_init S K pf mem0) v → Z.of_nat n ≤ tstack_bound S.
Proof.
  intros Hn Hv. destruct (tstack_refines S OK NN K room faults pf mem0 cap n v Hn Hv) as (g & snt & got & b & Hsim).
  pose proof (sm_cost _ _ _ _ _ _ _ _ _ _ _ _ Hsim) as Hc. pose proof (chunk_bytes S OK) as [_ Hcb].
  assert (Hb : budget S mem0 = tstack_bound S) by (unfold budget, cost; by rewrite total_const by apply OK).
  assert (0 ≤ cost S g b); [|lia]. unfold cost. pose proof (bwork_nonneg N g).
  assert (0 ≤ total N b); [|nia]. rewrite (total_ext N b (fun r => Z.max 0 (b r))); [apply total_nonneg; lia|].
  intros r Hr. destruct (sm_rank _ _ _ _ _ _ _ _ _ _ _ _ Hsim r Hr) as (_ & _ & Ht). apply (ttracks_nonneg S OK) in Ht. lia.
Qed.
End stack.

(** C7. The collective over the socket backend, down to the socket calls.  N
    processes run the code of [ring_allreduce] through [TcpTransport] and its
    transfer loops, their calls interleaved anyhow, every send and receive moving
    any number of the bytes it could, over streams of any capacity, and, with
    [faults], failing at any call.  A process whose call returned 0 holds in every
    chunk of its memory the bytes of the ring-order float sum of all inputs,
    whatever happened elsewhere; without failures it returns nothing else; and in
    every state no byte outside [buf] and [stage] has changed. *)
Theorem tcp_stack_result (S : ring_setup) (K : tstack) (room : Z) (faults : bool) (pf : nat) (mem0 : Z → Z → Z) (n : nat)
    (v : tstate) :
  setup_ok S → setup_nonnull S → nsteps (tstep (rs_N S) K room faults) n (tstack_init S K pf mem0) v →
  (∀ r x, 0 ≤ r < rs_N S → ts_code v r = Ret x →
    ∃ y, x = Some y ∧ (y = 0 ∨ faults = true) ∧
      (y = 0 → ∀ c i, inner S c (rs_N S) i →
         float_at (t_mem (ts_net v) r) (bcell S r c i) = reduced addb (input S (fun q => float_at (mem0 q))) (rs_N S) c i)) ∧
  (∀ r p, 0 ≤ r < rs_N S → byte_outside S r p → t_mem (ts_net v) r p = mem0 r p).
Proof.
  intros OK NN Hv. split; [intros r x; by eapply (tstack_holds S OK NN K room faults pf mem0 n)|].
  intros r p. by eapply (stack_outside S OK NN K room faults pf mem0 n).
Qed.

(** C8. The same executions end.  None is longer than a bound known beforehand;
    and as long as no process has returned a failure and some process has not
    returned 0, some call can be answered other than by a failure, if a stream
    takes at least one byte: splitting the chunks into bytes brings no deadlock
    the even/odd order of the ranks does not prevent. *)
Theorem tcp_stack_ends (S : ring_setup) (K : tstack) (room : Z) (faults : bool) (pf : nat) (mem0 : Z → Z → Z) (n : nat)
    (v : tstate) :
  setup_ok S → setup_nonnull S → 1 ≤ room → nsteps (tstep (rs_N S) K room faults) n (tstack_init S K pf mem0) v →
  Z.of_nat n ≤ tstack_bound S ∧
  ((∀ r y, 0 ≤ r < rs_N S → ts_code v r = Ret (Some y) → y = 0) → (∃ r, 0 ≤ r < rs_N S ∧ ts_code v r ≠ Ret (Some 0)) →
   ∃ v', tstep (rs_N S) K room false v v').
Proof.
  intros OK NN Hroom Hv. split; [by eapply tstack_bounded|]. by eapply tstack_moves.
Qed.

(** * Witness: three processes, two floats per chunk, in pieces of three bytes *)

Section scheduler.
Context (N : Z) (K : tstack) (room : Z).
(** Sends of up to three bytes, receives of up to five. *)
Definition tanswer_of (r : Z) (o : sys_op) (n : tnet) : option (sys_ans o * tnet) :=
  let e := prev_rank N r in
  match o with
  | c_send fd b len =>
      let x := Z.min (Z.min len 3) (room - Z.of_nat (length (t_pipe n r))) in
      if bool_decide (fd = Tcp.fd_ (tk_right K r)) && (0 <? x)
      then Some (x, mkTNet (t_mem n) (<[r := t_pipe n r ++ take (Z.to_nat x) (bytes_at (t_mem n r) b len)]> (t_pipe n))) else None
  | c_recv fd b len =>
      let d := take (Z.to_nat (Z.min len 5)) (t_pipe n e) in
      if bool_decide (fd = Tcp.fd_ (tk_left K r)) && (0 <? Z.of_nat (length d))
      then Some ((Z.of_nat (length d), d),
        mkTNet (<[r := recv_into b d (t_mem n r)]> (t_mem n)) (<[e := drop (Z.to_nat (Z.min len 5)) (t_pipe n e)]> (t_pipe n)))
      else None
  | c_load a l => Some (load (t_mem n r) a l, n)
  | c_store a d => Some (tt, mkTNet (<[r := store (t_mem n r) a d]> (t_mem n)) (t_pipe n))
  | _ => None
  end.
Lemma tanswer_of_ok r o n x n' : tanswer_of r o n = Some (x, n') → tanswers N K room true r o n x n'.
Proof.
  destruct o; try done; cbn.
  - destruct (bool_decide _ && _) eqn:Hc; [|done]. apply andb_true_iff in Hc as [Hfd%bool_decide_eq_true Hx%Z.ltb_lt].
    intros [= <- <-]. split; [done|]. split; [lia|]. right. split; [done|]. split; [lia|done].
  - destruct (bool_decide _ && _) eqn:Hc; [|done]. apply andb_true_iff in Hc as [Hfd%bool_decide_eq_true Hx%Z.ltb_lt].
    intros [= <- <-]. cbn [fst snd]. split; [done|]. split; [rewrite length_take in *; lia|]. right.
    split; [done|]. split; [done|]. eexists. split; [symmetry; apply take_drop|done].
  - by intros [= <- <-].
  - by intros [= <-].
Qed.
Definition tadvance (r : Z) (v : tstate) : option tstate :=
  if bool_decide (0 ≤ r < N) then
    match ts_code v r with
    | Ret _ => None
    | Do o k => '(x, n') ← tanswer_of r o (ts_net v); Some (mkTS (<[r := k x]> (ts_code v)) n')
    end
  else None.
Lemma tadvance_ok r v v' : tadvance r v = Some v' → tstep N K room true v v'.
Proof.
  unfold tadvance. case_bool_decide as Hr; [|done]. destruct (ts_code v r) as [|o k] eqn:Hc; [done|].
  destruct (tanswer_of r o (ts_net v)) as [[x n']|] eqn:Ha; [|done]. intros [= <-]. exists r. split; [done|].
  unfold rank_step. rewrite Hc. exists x, n'. split; [by apply tanswer_of_ok|done].
Qed.
End scheduler.

Definition tdemo_stack : tstack := mkTStack (fun _ => Tcp.mkTcp 3 (-1) false) (fun _ => Tcp.mkTcp 4 (-1) false).
Definition tdemo_mem (r p : Z) : Z := nth (Z.to_nat (p mod 4)) (le_bytes 4 (to_bits (of_int (r + 1)))) 0.
Definition tdemo_end (fuel : nat) : nat * tstate :=
  drive (tadvance 3 tdemo_stack 7) [2; 1; 0] fuel (tstack_init (demo_setup 3 2) tdemo_stack 0 tdemo_mem).
Lemma tdemo_end_runs fuel :
  nsteps (tstep 3 tdemo_stack 7 true) (tdemo_end fuel).1 (tstack_init (demo_setup 3 2) tdemo_stack 0 tdemo_mem) (tdemo_end fuel).2.
Proof. apply drive_runs, tadvance_ok. Qed.
Lemma tdemo_returned : ts_code (tdemo_end 200).2 1 = Ret (Some 0).
Proof. vm_compute. reflexivity. Qed.
Definition waiting (v : tstate) (r : Z) : bool := match ts_code v r with Do _ _ => true | Ret _ => false end.
Lemma waiting_not_ret v r x : waiting v r = true → ts_code v r ≠ Ret x.
Proof. unfold waiting. intros Hc He. by rewrite He in Hc. Qed.
Lemma tdemo_middle : forallb (waiting (tdemo_end 30).2) [0; 1; 2] = true.
Proof. vm_compute. reflexivity. Qed.

Lemma tcp_stack_result_witness :
  ∃ v, ts_code v 1 = Ret (Some 0) ∧
    ∀ c i, inner (demo_setup 3 2) c 3 i →
      float_at (t_mem (ts_net v) 1) (bcell (demo_setup 3 2) 1 c i) =
      reduced addb (input (demo_setup 3 2) (fun q => float_at (tdemo_mem q))) 3 c i.
Proof.
  exists (tdemo_end 200).2. split; [exact tdemo_returned|].
  destruct (proj1 (tcp_stack_result (demo_setup 3 2) tdemo_stack 7 true 0 tdemo_mem _ _ (proj1 bdemo_ok) (proj2 bdemo_ok)
    (tdemo_end_runs 200)) 1 (Some 0) ltac:(split; vm_compute; congruence) tdemo_returned) as (y & Hy & _ & Hsum).
  injection Hy as <-. exact (Hsum eq_refl).
Defined.
Lemma tcp_stack_ends_witness : ∃ v', tstep 3 tdemo_stack 7 false (tdemo_end 30).2 v'.
Proof.
  pose proof tdemo_middle as Hm. cbn [forallb] in Hm. apply andb_true_iff in Hm as [H0 [H1 [H2 _]%andb_true_iff]%andb_true_iff].
  apply (proj2 (tcp_stack_ends (demo_setup 3 2) tdemo_stack 7 true 0 tdemo_mem _ _ (proj1 bdemo_ok) (proj2 bdemo_ok)
    ltac:(discriminate) (tdemo_end_runs 30))).
  - intros r y Hr Hc. exfalso. revert Hc. change (rs_N (demo_setup 3 2)) with 3 in Hr. apply waiting_not_ret.
    assert (r = 0 ∨ r = 1 ∨ r = 2) as [->|[->| ->]] by lia; assumption.
  - exists 0. split; [split; vm_compute; congruence|]. by apply waiting_not_ret.
Defined.
