(* ===== verification/PyBindings.v ===== *)
(** [transport_py.cpp]: the Python module over the transports, and the Python
    programs that use it. *)
From stdpp Require Import strings gmap.
From S2P Require Import Prelude Prog Sys Transport TcpBackend RdmaBackend.

Module Py.

(** * Python's objects *)

(** What the module relies on of the language: an object counts the references
    to it, and with the last one its memory is freed.  Those that matter here
    have a block of memory, seen through the buffer protocol as [o_items] items
    of [o_item] bytes.  An object that is gone stays in the table with count 0:
    its identity is not used again. *)
Record pyobj := mkObj { o_refs : nat; o_ptr : Z; o_items : Z; o_item : Z; o_writable : bool }.
Definition set_refs (n : nat) (b : pyobj) : pyobj := mkObj n (o_ptr b) (o_items b) (o_item b) (o_writable b).
Abbreviation heap := (gmap Z pyobj).
Definition incref (h : heap) (o : Z) : heap := alter (fun b => set_refs (S (o_refs b)) b) o h.
Definition decref (h : heap) (o : Z) : sysM heap :=
  match h !! o with
  | None => Ret h
  | Some b =>
    match o_refs b with
    | O => Ret h
    | S O => sys (c_free (o_ptr b)) ;; Ret (<[o := set_refs 0 b]> h)
    | S n => Ret (<[o := set_refs n b]> h)
    end
  end.
(** An exception (out of memory) is None; the pair is the object and its memory. *)
Definition new_object (h : heap) (items item : Z) (writable : bool) : sysM (option (Z * Z) * heap) :=
  p <- sys (c_malloc (items * item)) ;;
  if bool_decide (p = 0) then Ret (None, h) else
  let o := base.fresh (dom h : gset Z) in Ret (Some (o, p), <[o := mkObj 1 p items item writable]> h).
(** A writable view keeps a reference to its object until it is released. *)
Definition request (h : heap) (o : Z) : option (Z * Z * Z * heap) :=
  match h !! o with
  | Some b => if o_writable b then Some (o_ptr b, o_items b, o_item b, incref h o) else None
  | None => None
  end.
Definition release_view : heap → Z → sysM heap := decref.

(** * The module *)

(** A scoped buffer and the Python object its memory belongs to. *)
Record RegisteredBuffer := mkRB { sb : ScopedBuffer; source : Z }.
Definition rb_h (r : RegisteredBuffer) : BufferHandle := sb_h (sb r).
Definition rb_addr (r : RegisteredBuffer) : Z := addr (rb_h r).
Definition rb_size (r : RegisteredBuffer) : Z := size (rb_h r).

(** An exception is None. *)
Definition raise {A} (rc : Z) (a : A) : option A := if bool_decide (rc ≠ 0) then None else Some a.

(** The two constructors. *)
Definition create_rdma : Rdma.RdmaTransport := Rdma.create.
Definition create_tcp : Tcp.TcpTransport := Tcp.create.

Section module.
Context {T : Type} `{Transport T} (pf : nat).

(** The destructor: members go in the reverse order of their declaration. *)
Definition rb_end (t : T) (h : heap) (r : RegisteredBuffer) : sysM (T * heap) :=
  h <- decref h (source r) ;;
  t <- scoped_end t (sb r) ;;
  Ret (t, h).
(** What both registrations end with. *)
Definition rb_init (t : T) (h : heap) (buf sz obj : Z) : sysM (option RegisteredBuffer * T * heap) :=
  let h := incref h obj in
  let! (rc, s, t) := scoped_init t scoped0 buf sz in
  let rb := mkRB s obj in
  if bool_decide (rc ≠ 0) then let! (t, h) := rb_end t h rb in Ret (None, t, h) else Ret (Some rb, t, h).
Definition py_reg_buf (t : T) (h : heap) (obj : Z) : sysM (option RegisteredBuffer * T * heap) :=
  match request h obj with
  | None => Ret (None, t, h)
  | Some (ptr, n, itemsize, h) =>
      let! (r, t, h) := rb_init t h ptr (u64 (n * itemsize)) obj in
      h <- release_view h obj ;; Ret (r, t, h)
  end.
Definition py_reg_tensor (t : T) (h : heap) (a nbytes obj : Z) : sysM (option RegisteredBuffer * T * heap) :=
  rb_init t h a nbytes obj.
Definition py_send (t : T) (r : RegisteredBuffer) (len id off : Z) : sysM (option unit) :=
  rc <- t_send_async t (Some (rb_h r)) len id off ;; Ret (raise rc tt).
Definition py_recv (t : T) (r : RegisteredBuffer) (len id off : Z) : sysM (option unit) :=
  rc <- t_recv_async t (Some (rb_h r)) len id off ;; Ret (raise rc tt).
Definition py_write (t : T) (r : RegisteredBuffer) (remote_addr rkey len id off : Z) : sysM (option unit) :=
  rc <- t_write_async t (Some (rb_h r)) remote_addr rkey len id off ;; Ret (raise rc tt).
Definition py_read (t : T) (r : RegisteredBuffer) (remote_addr rkey len id off : Z) : sysM (option unit) :=
  rc <- t_read_async t (Some (rb_h r)) remote_addr rkey len id off ;; Ret (raise rc tt).
(** The outer option is the fuel of the poll. *)
Definition py_poll (t : T) : sysM (option (option Z)) :=
  r <- t_poll pf t true ;;
  match r with None => Ret None | Some (rc, id) => Ret (Some (raise rc (default 0 id))) end.
Definition py_exchange (t : T) (r : RegisteredBuffer) : sysM (option (Z * Z) * T) :=
  let! (rc, remote_addr, rkey, t) := exchange_buf t (Some (rb_h r)) (Some 0) (Some 0) in
  Ret (raise rc (default 0 remote_addr, default 0 rkey), t).
End module.

(** * Python programs on one transport *)

(** The calls a program can make, and what it does with its own names: it makes
    an object and holds a reference to it, drops its reference, or gets one back
    from a weak reference while the object is there.  A registered buffer is
    known by a name, an object by its identity. *)
Inductive py_op :=
| p_new (items item : Z) (writable : bool) | p_del (obj : Z) | p_weak (obj : Z)
| p_listen (port : Z) | p_accept | p_connect (host : option string) (port : Z) | p_close
| p_reg_buf (obj : Z) | p_reg_tensor (a nbytes obj : Z)
| p_send (mr len id off : Z) | p_recv (mr len id off : Z) | p_poll | p_exchange (mr : Z)
| p_write (mr remote_addr rkey len id off : Z) | p_read (mr remote_addr rkey len id off : Z)
| p_drop (mr : Z).                 (* the last reference to the buffer goes *)
Definition py_ans (o : py_op) : Type :=
  match o with
  | p_new _ _ _ => option (Z * Z)
  | p_weak _ => bool
  | p_listen _ | p_accept | p_connect _ _ => Z
  | p_close | p_drop _ | p_del _ => unit
  | p_reg_buf _ | p_reg_tensor _ _ _ | p_poll => option Z
  | p_exchange _ => option (Z * Z)
  | _ => option unit
  end.
Canonical Structure py_sig : sig := Sig py_op py_ans.
Abbreviation pyM := (prog py_sig).
Abbreviation buffers := (gmap Z RegisteredBuffer).
(** The objects, the registered buffers by their names, and the objects the
    program holds a reference to. *)
Record pystate := mkPy { py_heap : heap; py_bufs : buffers; py_vars : gset Z }.
Definition py_start : pystate := mkPy ∅ ∅ ∅.
Definition alive (h : heap) (o : Z) : bool := match h !! o with Some b => bool_decide (o_refs b ≠ 0%nat) | None => false end.

Section programs.
Context {T : Type} `{Transport T} (pf : nat).

Abbreviation answer A := (option (A * T * pystate)).
(** A new buffer gets a name of its own. *)
Definition named (s : pystate) (r : option RegisteredBuffer * T * heap) : answer (option Z) :=
  match r with
  | (None, t, h) => Some (None, t, mkPy h (py_bufs s) (py_vars s))
  | (Some rb, t, h) =>
      let n := base.fresh (dom (py_bufs s) : gset Z) in Some (Some n, t, mkPy h (<[n := rb]> (py_bufs s)) (py_vars s))
  end.
(** A name that is not bound raises. *)
Definition on_buffer {A} (s : pystate) (n : Z) (t : T) (f : RegisteredBuffer → sysM (option A)) : sysM (answer (option A)) :=
  match py_bufs s !! n with
  | None => Ret (Some (None, t, s))
  | Some rb => r <- f rb ;; Ret (Some (r, t, s))
  end.
Definition on_object (s : pystate) (o : Z) (t : T) (p : sysM (answer (option Z))) : sysM (answer (option Z)) :=
  if bool_decide (o ∈ py_vars s) then p else Ret (Some (None, t, s)).
Definition py_call (t : T) (s : pystate) (o : py_op) : sysM (answer (py_ans o)) :=
  let h := py_heap s in
  match o return sysM (answer (py_ans o)) with
  | p_new items item w =>
      let! (r, h) := new_object h items item w in
      Ret (Some (r, t, mkPy h (py_bufs s) (match r with Some (o, _) => {[o]} ∪ py_vars s | None => py_vars s end)))
  | p_del o =>
      if bool_decide (o ∈ py_vars s)
      then h <- decref h o ;; Ret (Some (tt, t, mkPy h (py_bufs s) (py_vars s ∖ {[o]})))
      else Ret (Some (tt, t, s))
  | p_weak o =>
      if bool_decide (o ∈ py_vars s) then Ret (Some (true, t, s)) else
      if alive h o then Ret (Some (true, t, mkPy (incref h o) (py_bufs s) ({[o]} ∪ py_vars s)))
      else Ret (Some (false, t, s))
  | p_listen port => let! (rc, t) := t_listen t port in Ret (Some (rc, t, s))
  | p_accept => let! (rc, t) := t_accept t in Ret (Some (rc, t, s))
  | p_connect host port => let! (rc, t) := t_connect t host port in Ret (Some (rc, t, s))
  | p_close => t <- t_close t ;; Ret (Some (tt, t, s))
  | p_reg_buf obj => on_object s obj t (r <- py_reg_buf t h obj ;; Ret (named s r))
  | p_reg_tensor a nbytes obj => on_object s obj t (r <- py_reg_tensor t h a nbytes obj ;; Ret (named s r))
  | p_send mr len id off => on_buffer s mr t (fun rb => py_send t rb len id off)
  | p_recv mr len id off => on_buffer s mr t (fun rb => py_recv t rb len id off)
  | p_poll => r <- py_poll pf t ;; match r with None => Ret None | Some r => Ret (Some (r, t, s)) end
  | p_exchange mr =>
      match py_bufs s !! mr with
      | None => Ret (Some (None, t, s))
      | Some rb => let! (r, t) := py_exchange t rb in Ret (Some (r, t, s))
      end
  | p_write mr a k len id off => on_buffer s mr t (fun rb => py_write t rb a k len id off)
  | p_read mr a k len id off => on_buffer s mr t (fun rb => py_read t rb a k len id off)
  | p_drop mr =>
      match py_bufs s !! mr with
      | None => Ret (Some (tt, t, s))
      | Some rb => let! (t, h) := rb_end t h rb in Ret (Some (tt, t, mkPy h (delete mr (py_bufs s)) (py_vars s)))
      end
  end.
Fixpoint py_run {A} (t : T) (s : pystate) (p : pyM A) : sysM (answer A) :=
  match p with
  | Ret a => Ret (Some (a, t, s))
  | Do o k =>
    r <- py_call t s o ;;
    match r with None => Ret None | Some (a, t, s) => py_run t s (k a) end
  end.
(** At the end the buffers that are left go first (each keeps its transport
    alive), then the program's references to objects. *)
Fixpoint py_end (t : T) (h : heap) (rbs : list RegisteredBuffer) : sysM (T * heap) :=
  match rbs with
  | [] => Ret (t, h)
  | rb :: rbs => let! (t, h) := rb_end t h rb in py_end t h rbs
  end.
Fixpoint drop_vars (h : heap) (vars : list Z) : sysM heap :=
  match vars with
  | [] => Ret h
  | o :: vars => h <- decref h o ;; drop_vars h vars
  end.
Definition py_main {A} (t : T) (p : pyM A) : sysM (option A) :=
  r <- py_run t py_start p ;;
  match r with
  | None => Ret None
  | Some (a, t, s) =>
      let! (t, h) := py_end t (py_heap s) (map_to_list (py_bufs s)).*2 in
      drop_vars h (elements (py_vars s)) ;;
      t_close t ;;
      Ret (Some a)
  end.
End programs.
End Py.
