(* ===== verification/PySpec.v ===== *)
(** Python programs that keep to the order of calls give back everything, and what
    happens to a buffer nothing else refers to. *)
From stdpp Require Import strings gmap.
From S2P Require Import Prelude Prog Sys RdmaCommon RdmaRes CmSpec Transport TransportSpec TwoTransports OneTransport TcpBackend TcpSpec RdmaBackend RdmaSpec KvPrograms PyBindings.
Import Py.

(** * References and memory *)

(** The memory of the objects that are still there. *)
Definition piece (b : pyobj) : ledger := if bool_decide (o_refs b = 0%nat) then [] else [mkRes (RMem, o_ptr b) []].
Definition owned (h : heap) : ledger := concat (piece <$> (map_to_list h).*2).
Definition count (o : Z) (rs : list Z) : nat := length (filter (fun x => x = o) rs).
(** [rs] are all the references to objects, each as often as it is held. *)
Record counted (h : heap) (rs : list Z) : Prop := {
  ct_refs o b : h !! o = Some b → o_refs b = count o rs;
  ct_ptr o b : h !! o = Some b → o_ptr b ≠ 0;
  ct_there o : o ∈ rs → is_Some (h !! o);
}.
(** The same objects at the same places. *)
Definition placed (h : heap) (o p : Z) : Prop := ∃ b, h !! o = Some b ∧ o_ptr b = p.
Definition moved (h h' : heap) : Prop := ∀ o p, placed h o p → placed h' o p.

Lemma owned_at h o b : h !! o = Some b → owned h ≡ₚ piece b ++ owned (delete o h).
Proof.
  intros Hb. unfold owned. rewrite <- (map_to_list_delete h o b Hb). done.
Qed.
Lemma owned_set h o b b' : h !! o = Some b → owned (<[o := b']> h) ≡ₚ piece b' ++ owned (delete o h).
Proof. intros Hb. rewrite (owned_at _ o b') by apply lookup_insert_eq. by rewrite delete_insert_eq. Qed.
Lemma owned_new h o b : h !! o = None → owned (<[o := b]> h) ≡ₚ piece b ++ owned h.
Proof. intros Hb. rewrite (owned_at _ o b) by apply lookup_insert_eq. by rewrite delete_insert_id. Qed.
Lemma owned_mem h : mem_only (owned h).
Proof.
  unfold mem_only, owned. apply Forall_concat, Forall_fmap, Forall_forall. intros b _. unfold piece. cbn.
  case_bool_decide; [constructor|by apply Forall_singleton].
Qed.
Lemma owned_live h o b : h !! o = Some b → o_refs b ≠ 0%nat → live (owned h) (RMem, o_ptr b).
Proof.
  intros Hb Hr. unfold live. rewrite (owned_at h o b Hb). unfold piece. rewrite bool_decide_eq_false_2 by done. by left.
Qed.
Lemma owned_none h : (∀ o b, h !! o = Some b → o_refs b = 0%nat) → owned h = [].
Proof.
  intros Hz. unfold owned. assert (Hl : Forall (fun b => o_refs b = 0%nat) (map_to_list h).*2).
  { apply Forall_fmap, Forall_forall. intros [o b] Hin%elem_of_map_to_list. by eapply Hz. }
  induction Hl as [|b l Hb _ IH]; [done|]. cbn. unfold piece at 1. by rewrite bool_decide_eq_true_2.
Qed.

Lemma count_cons o x rs : count o (x :: rs) = ((if bool_decide (x = o) then 1 else 0) + count o rs)%nat.
Proof. unfold count. rewrite filter_cons. by case_decide; case_bool_decide. Qed.
Lemma count_pos o rs : o ∈ rs ↔ count o rs ≠ 0%nat.
Proof.
  induction rs as [|x rs IH]; [split; [by intros ?%not_elem_of_nil|done]|].
  rewrite count_cons, elem_of_cons, IH. case_bool_decide as Hx; [split; [done|by left]|].
  split; [by intros [->|]|]. by right.
Qed.
Lemma counted_perm h rs rs' : rs ≡ₚ rs' → counted h rs → counted h rs'.
Proof.
  intros Hp [H1 H2 H3]. constructor; [|done|].
  - intros o b Hb. rewrite (H1 o b Hb). unfold count. by rewrite Hp.
  - intros o Ho. apply H3. by rewrite Hp.
Qed.
Lemma set_moved h o b n : h !! o = Some b → moved h (<[o := set_refs n b]> h).
Proof.
  intros Hb o' p (b' & Hb' & Hp). destruct (decide (o' = o)) as [->|Hne].
  - exists (set_refs n b). rewrite lookup_insert_eq. rewrite Hb in Hb'. injection Hb' as <-. done.
  - exists b'. by rewrite lookup_insert_ne.
Qed.
Lemma counted_set h rs rs' o b n :
  counted h rs → h !! o = Some b → n = count o rs' → (∀ o', o' ≠ o → count o' rs' = count o' rs) →
  counted (<[o := set_refs n b]> h) rs'.
Proof.
  intros [H1 H2 H3] Hb -> Hc. constructor.
  - intros o' b'. destruct (decide (o' = o)) as [->|Hne]; [by rewrite lookup_insert_eq; intros [= <-]|].
    rewrite lookup_insert_ne by done. intros Hb'. rewrite Hc by done. by apply H1.
  - intros o' b'. destruct (decide (o' = o)) as [->|Hne].
    + rewrite lookup_insert_eq. intros [= <-]. exact (H2 o b Hb).
    + rewrite lookup_insert_ne by done. apply H2.
  - intros o' Ho'. destruct (decide (o' = o)) as [->|Hne]; [by rewrite lookup_insert_eq|].
    rewrite lookup_insert_ne by done. apply H3. apply count_pos. rewrite <- Hc by done. by apply count_pos.
Qed.
(** One reference more. *)
Lemma incref_counted h rs o :
  counted h rs → o ∈ rs → counted (incref h o) (o :: rs) ∧ owned (incref h o) ≡ₚ owned h ∧ moved h (incref h o).
Proof.
  intros Hc Ho. destruct (ct_there _ _ Hc o Ho) as [b Hb]. pose proof (ct_refs _ _ Hc o b Hb) as Hr. apply count_pos in Ho.
  unfold incref. assert (alter (fun b => set_refs (S (o_refs b)) b) o h = <[o := set_refs (S (o_refs b)) b]> h) as ->.
  { apply map_eq. intros o'. destruct (decide (o' = o)) as [->|]; [by rewrite lookup_alter_eq, lookup_insert_eq, Hb|].
    by rewrite lookup_alter_ne, lookup_insert_ne. }
  split; [|split].
  - apply (counted_set h rs); [done..| |].
    + rewrite count_cons, bool_decide_eq_true_2, Hr by done. done.
    + intros o' Hne. by rewrite count_cons, bool_decide_eq_false_2.
  - rewrite (owned_set h o b), (owned_at h o b) by done. unfold piece. cbn.
    rewrite !bool_decide_eq_false_2 by (done || lia). done.
  - by apply set_moved.
Qed.
(** One reference less, and not the last. *)
Lemma decref_more h rs o :
  counted h (o :: rs) → o ∈ rs →
  ∃ h', decref h o = Ret h' ∧ counted h' rs ∧ owned h' ≡ₚ owned h ∧ moved h h'.
Proof.
  intros Hc Ho. destruct (ct_there _ _ Hc o ltac:(by left)) as [b Hb]. pose proof (ct_refs _ _ Hc o b Hb) as Hr.
  rewrite count_cons, bool_decide_eq_true_2 in Hr by done. apply count_pos in Ho.
  unfold decref. rewrite Hb. destruct (o_refs b) as [|[|n]] eqn:Hn; [lia..|].
  eexists. split; [reflexivity|]. split; [|split].
  - apply (counted_set h (o :: rs)); [done..|lia|]. intros o' Hne. by rewrite count_cons, bool_decide_eq_false_2.
  - rewrite (owned_set h o b), (owned_at h o b) by done. unfold piece. cbn. rewrite Hn. done.
  - by apply set_moved.
Qed.
(** The last reference: what is left of the table, and the memory to free. *)
Lemma decref_last h rs o b :
  counted h (o :: rs) → o ∉ rs → h !! o = Some b →
  decref h o = (sys (c_free (o_ptr b)) ;; Ret (<[o := set_refs 0 b]> h)) ∧ counted (<[o := set_refs 0 b]> h) rs ∧
  owned h ≡ₚ mkRes (RMem, o_ptr b) [] :: owned (<[o := set_refs 0 b]> h).
Proof.
  intros Hc Ho Hb. pose proof (ct_refs _ _ Hc o b Hb) as Hr.
  assert (Hz : count o rs = 0%nat) by (destruct (decide (count o rs = 0%nat)) as [|Hn]; [done|by apply count_pos in Hn]).
  rewrite count_cons, bool_decide_eq_true_2, Hz in Hr by done. split; [|split].
  - unfold decref. by rewrite Hb, Hr.
  - apply (counted_set h (o :: rs)); [done..|]. intros o' Hne. by rewrite count_cons, bool_decide_eq_false_2.
  - rewrite (owned_at h o b), (owned_set h o b) by done. unfold piece. cbn. by rewrite Hr.
Qed.

Section objects.
Context {T : Type} `{TransportLaws T} (pf : nat).
Abbreviation holds := (holds_by t_owns).

(** * A transport, its registered buffers and Python's objects *)

Definition handles (rbs : list RegisteredBuffer) : list BufferHandle := rb_h <$> rbs.
Definition sources (rbs : list RegisteredBuffer) : list Z := source <$> rbs.
(** Every buffer was registered on the transport, in the memory of its object. *)
Definition rb_ok (h : heap) (rb : RegisteredBuffer) : Prop := sb_init (sb rb) = true ∧ placed h (source rb) (rb_addr rb).
(** Besides the buffers' references there are [ext]; the transport has exactly
    these buffers registered, and the memory is that of the objects. *)
Definition tracked (ph : phase) (t : T) (h : heap) (ext : list Z) (rbs : list RegisteredBuffer) (L0 L : ledger) : Prop :=
  counted h (ext ++ sources rbs) ∧ Forall (rb_ok h) rbs ∧ ∃ hs, hs ≡ₚ handles rbs ∧ one ph t hs (owned h) L0 L.

Lemma tracked_perm ph t h ext ext' rbs rbs' L0 L :
  ext ≡ₚ ext' → rbs ≡ₚ rbs' → tracked ph t h ext rbs L0 L → tracked ph t h ext' rbs' L0 L.
Proof.
  intros He Hp (Hc & Hf & hs & Hhs & Ho). split; [|split; [by rewrite <- Hp|]].
  - eapply counted_perm; [|exact Hc]. unfold sources. by rewrite He, Hp.
  - exists hs. split; [|done]. unfold handles. by rewrite <- Hp.
Qed.
Lemma rbs_moved h h' rbs : moved h h' → Forall (rb_ok h) rbs → Forall (rb_ok h') rbs.
Proof. intros Hm Hf. eapply Forall_impl; [exact Hf|]. intros rb [Hi Hp]. split; [done|by apply Hm]. Qed.
(** The memory behind a registered buffer is there: the buffer refers to it. *)
Lemma rbs_live h rs rbs hs :
  counted h rs → Forall (rb_ok h) rbs → (∀ rb, rb ∈ rbs → source rb ∈ rs) → hs ≡ₚ handles rbs →
  Forall (fun b => live (owned h) (RMem, addr b)) hs.
Proof.
  intros Hc Hf Hin Hhs. rewrite Hhs. unfold handles. apply Forall_fmap, Forall_forall. intros rb Hrb.
  rewrite Forall_forall in Hf. destruct (Hf rb Hrb) as (_ & b & Hb & Hp). cbn. unfold rb_addr in Hp. rewrite <- Hp.
  apply (owned_live h (source rb) b Hb). rewrite (ct_refs _ _ Hc _ _ Hb). by apply count_pos, Hin.
Qed.

(** ** References of the program's own *)

Lemma tracked_incref ph t h ext rbs o L0 L :
  o ∈ ext ++ sources rbs → tracked ph t h ext rbs L0 L → tracked ph t (incref h o) (o :: ext) rbs L0 L.
Proof.
  intros Ho (Hc & Hf & hs & Hhs & H1). destruct (incref_counted h _ o Hc Ho) as (Hc' & Hw & Hm).
  split; [done|]. split; [by eapply rbs_moved|]. exists hs. split; [done|]. by eapply one_perm.
Qed.
Lemma tracked_decref ph t h o ext rbs L0 L :
  tracked ph t h (o :: ext) rbs L0 L →
  wp ledger_env (decref h o) (fun h' L' => moved h h' ∧ tracked ph t h' ext rbs L0 L') L.
Proof.
  intros (Hc & Hf & hs & Hhs & H1). destruct (decide (o ∈ ext ++ sources rbs)) as [Ho|Ho].
  - destruct (decref_more h _ o Hc Ho) as (h' & -> & Hc' & Hw & Hm). cbn. split; [done|]. split; [done|].
    split; [by eapply rbs_moved|]. exists hs. split; [done|]. by eapply one_perm.
  - destruct (ct_there _ _ Hc o ltac:(by left)) as [b Hb].
    destruct (decref_last h _ o b Hc Ho Hb) as (-> & Hc' & Hw). pose proof (set_moved h o b 0 Hb) as Hm.
    pose proof (rbs_moved _ _ _ Hm Hf) as Hf'.
    eapply wp_bind_2; [apply (one_free_held ph t hs (o_ptr b) _ (owned (<[o := set_refs 0 b]> h)) L0)|].
    + by eapply one_perm.
    + by apply (ct_ptr _ _ Hc o).
    + eapply rbs_live; [exact Hc'|done| |done]. intros rb Hrb. apply elem_of_app. right. by apply list_elem_of_fmap_2.
    + done.
    + done.
    + done.
    + cbn. intros [] L' Ho'. split; [done|]. split; [done|]. split; [done|]. by exists hs.
Qed.
(** A new object, with one reference. *)
Lemma tracked_new ph t h ext rbs items item w L0 L :
  tracked ph t h ext rbs L0 L →
  wp ledger_env (new_object h items item w) (fun '(r, h') L' => moved h h' ∧
    match r with
    | Some (o, p) => h !! o = None ∧ placed h' o p ∧ tracked ph t h' (o :: ext) rbs L0 L'
    | None => tracked ph t h' ext rbs L0 L'
    end) L.
Proof.
  intros (Hc & Hf & hs & Hhs & H1). unfold new_object. cbn [bind sys call]. apply wp_acquire; [done|done|].
  intros p L' _ Ho. change (created (c_malloc (items * item)) p) with (ptr_res RMem [] p) in Ho. unfold ptr_res in Ho.
  destruct (decide (p = 0)) as [Hp|Hp].
  - rewrite (bool_decide_eq_true_2 (p = 0)) by done. cbn [wp]. rewrite (bool_decide_eq_false_2 (p ≠ 0)) in Ho by tauto. apply own_nil in Ho. split; [by intros ?|].
    split; [done|]. split; [done|]. exists hs. split; [done|]. destruct H1 as (Hex & l & Hl & Hown). split; [done|].
    exists l. split; [done|]. by rewrite Ho.
  - rewrite (bool_decide_eq_false_2 (p = 0)) by done. cbn [wp]. rewrite (bool_decide_eq_true_2 (p ≠ 0)) in Ho by done. set (o := base.fresh _).
    assert (Hn : h !! o = None) by apply (not_elem_of_dom h), is_fresh.
    set (h' := <[o := mkObj 1 p items item w]> h).
    assert (Hm : moved h h').
    { intros o' p' (b & Hb & Hbp). exists b. split; [|done]. unfold h'. rewrite lookup_insert_ne; [done|]. congruence. }
    split; [done|]. split; [done|]. split; [by eexists; split; [apply lookup_insert_eq|]|].
    split; [|split; [by eapply rbs_moved|]].
    + assert (Hz : count o (ext ++ sources rbs) = 0%nat).
      { destruct (decide (count o (ext ++ sources rbs) = 0%nat)) as [|Hz]; [done|]. apply count_pos in Hz.
        destruct (ct_there _ _ Hc o Hz) as [b Hb]. congruence. }
      change ((o :: ext) ++ sources rbs) with (o :: (ext ++ sources rbs)). destruct Hc as [C1 C2 C3]. unfold h'. constructor.
      * intros o' b. rewrite count_cons. destruct (decide (o' = o)) as [->|Hne].
        -- rewrite lookup_insert_eq, bool_decide_eq_true_2, Hz by done. by intros [= <-].
        -- rewrite lookup_insert_ne, bool_decide_eq_false_2 by done. apply C1.
      * intros o' b. destruct (decide (o' = o)) as [->|Hne]; [rewrite lookup_insert_eq; by intros [= <-]|].
        rewrite lookup_insert_ne by done. apply C2.
      * intros o' [->|Ho']%elem_of_cons; [by rewrite lookup_insert_eq|]. destruct (C3 o' Ho') as [b Hb].
        rewrite lookup_insert_ne by congruence. by exists b.
    + exists hs. split; [done|]. eapply one_perm; [symmetry; by apply owned_new|]. by eapply one_alloc.
Qed.

(** ** Registered buffers *)

(** The destructor of a buffer whose object has another reference. *)
Lemma rb_end_tracked ph t h ext rb rbs L0 L :
  ph ≠ Idle → source rb ∈ ext ++ sources rbs → tracked ph t h ext (rb :: rbs) L0 L →
  wp ledger_env (rb_end t h rb) (fun '(t', h') L' => moved h h' ∧ tracked ph t' h' ext rbs L0 L') L.
Proof.
  intros Hph Hsrc (Hc & Hf & hs & Hhs & H1). apply Forall_cons in Hf as [[Hi _] Hf]. unfold rb_end.
  destruct (decref_more h (ext ++ sources rbs) (source rb)) as (h' & -> & Hc' & Hw & Hm); [|done|].
  { eapply counted_perm; [|exact Hc]. unfold sources. cbn. solve_Permutation. }
  cbn [bind]. assert (H1' : one ph t hs (owned h') L0 L) by by eapply one_perm.
  eapply wp_bind_2; [apply (one_op _ _ _ _ _ _ _ (fun t' L1 L' => holds ph t' (handles rbs) L1 L') H1')|].
  - intros L1 Ho. unfold scoped_end. rewrite Hi. eapply wp_bind_2; [by eapply (law_dereg _ _ _ _ (handles rbs))|].
    by intros [b t'] L' [_ Ho'].
  - cbn beta. intros t' L' (L1 & Ho & Hk). cbn. split; [done|]. split; [done|]. split; [by eapply rbs_moved|].
    exists (handles rbs). split; [done|]. by apply Hk.
Qed.
(** Registering memory of an object the program holds. *)
Lemma rb_init_tracked ph t h ext rbs buf sz obj L0 L :
  ph ≠ Idle → obj ∈ ext ++ sources rbs → placed h obj buf → tracked ph t h ext rbs L0 L →
  wp ledger_env (rb_init t h buf sz obj) (fun '(r, t', h') L' => moved h h' ∧
    match r with
    | Some rb => source rb = obj ∧ tracked ph t' h' ext (rb :: rbs) L0 L'
    | None => tracked ph t' h' ext rbs L0 L'
    end) L.
Proof.
  intros Hph Hobj Hbuf (Hc & Hf & hs & Hhs & H1). unfold rb_init.
  destruct (incref_counted h _ obj Hc Hobj) as (Hc' & Hw & Hm). set (h1 := incref h obj) in *.
  assert (H1' : one ph t hs (owned h1) L0 L) by by eapply one_perm.
  eapply wp_bind_2; [apply (one_op _ _ _ _ _ _ _ _ H1' (fun L1 => scoped_init_holds ph t hs buf sz L1 L Hph))|].
  intros [[rc s] t'] L' (L1 & (Hs & [(-> & Ha & _ & Ho')|(-> & Hn & Ho')]) & Hk); cbn [bool_decide]; apply Hk in Ho'.
  - split; [done|]. split; [done|]. split; [|split].
    + eapply counted_perm; [|exact Hc']. unfold sources. cbn. solve_Permutation.
    + apply Forall_cons. split; [|by eapply rbs_moved]. split; [done|]. apply Hm. unfold rb_addr, rb_h. cbn. by rewrite Ha.
    + exists (sb_h s :: hs). split; [|done]. cbn. by rewrite Hhs.
  - destruct (decref_more h1 _ obj Hc' Hobj) as (h2 & Hd & Hc2 & Hw2 & Hm2).
    assert (H2 : one ph t' hs (owned h2) L0 L') by (by eapply one_perm).
    cbn. unfold rb_end. cbn [source sb]. rewrite Hd. cbn [bind]. apply wp_bind.
    eapply wp_bind_2; [apply (one_op _ _ _ _ _ _ _ (fun t2 L1 L2 => holds ph t2 hs L1 L2) H2); intros; by apply scoped_end_null|].
    cbn beta. intros t2 L2 (L3 & Ho2 & Hk2). cbn. split; [intros o p Hp; by apply Hm2, Hm|].
    split; [done|]. split; [apply (rbs_moved h1); [done|by eapply rbs_moved]|]. exists hs. split; [done|]. by apply Hk2.
Qed.

(** * Calls *)

(** What a program knows of its own run: the phase of its transport, the object
    behind each of its buffers, the objects it holds a reference to, and where
    those it made are. *)
Record view := mkView { v_phase : phase; v_live : gmap Z Z; v_vars : gset Z; v_at : gmap Z Z }.
Definition view0 : view := mkView Idle ∅ ∅ ∅.
(** The order of calls: it connects once, closes when no buffer is left and moves
    data in between; it registers an address as part of the object that is there;
    and when it drops a buffer, the buffer's reference to its object is not the
    last.  Its own references it may drop at any time. *)
Definition referred (v : view) (n o : Z) : Prop := o ∈ v_vars v ∨ ∃ n', n' ≠ n ∧ v_live v !! n' = Some o.
Definition allowed (blocks : bool) (v : view) (o : py_op) : Prop :=
  match o with
  | p_new _ _ _ | p_del _ | p_weak _ => True
  | p_listen _ | p_connect _ _ => v_phase v = Idle
  | p_accept => v_phase v = Listening
  | p_close => v_live v = ∅
  | p_reg_buf _ => v_phase v ≠ Idle
  | p_reg_tensor a _ obj => v_phase v ≠ Idle ∧ v_at v !! obj = Some a
  | p_recv _ _ _ _ => may_recv blocks (v_phase v)
  | p_drop n => ∀ o, v_live v !! n = Some o → referred v n o
  | _ => v_phase v = Connected
  end.
Definition with_phase (ph : phase) (v : view) : view := mkView ph (v_live v) (v_vars v) (v_at v).
Definition with_live (live : gmap Z Z) (v : view) : view := mkView (v_phase v) live (v_vars v) (v_at v).
Definition with_vars (vars : gset Z) (v : view) : view := mkView (v_phase v) (v_live v) vars (v_at v).
Definition view_after (v : view) (o : py_op) : py_ans o → view :=
  match o with
  | p_new _ _ _ => fun a => match a with
      | Some (o, p) => mkView (v_phase v) (v_live v) ({[o]} ∪ v_vars v) (<[o := p]> (v_at v)) | None => v end
  | p_del o => fun _ => with_vars (v_vars v ∖ {[o]}) v
  | p_weak o => fun a => if (a : bool) then with_vars ({[o]} ∪ v_vars v) v else v
  | p_listen _ => fun rc => if bool_decide (rc = 0) then with_phase Listening v else v
  | p_accept | p_connect _ _ => fun rc => if bool_decide (rc = 0) then with_phase Connected v else v
  | p_close => fun _ => with_phase Idle v
  | p_reg_buf obj | p_reg_tensor _ _ obj => fun a => match a with Some n => with_live (<[n := obj]> (v_live v)) v | None => v end
  | p_drop n => fun _ => with_live (delete n (v_live v)) v
  | _ => fun _ => v
  end.
(** What a program may count on: a weak reference is dead only to an object that
    neither the program nor a registered buffer refers to. *)
Definition answers (v : view) (o : py_op) : py_ans o → Prop :=
  match o with
  | p_weak obj => fun a => (a = false → (obj ∉ v_vars v) ∧ ∀ n, v_live v !! n ≠ Some obj)
  | _ => fun _ => True
  end.
(** At its end the program still holds the objects behind the buffers it left. *)
Fixpoint polite {A} (blocks : bool) (v : view) (p : pyM A) : Prop :=
  match p with
  | Ret _ => ∀ n o, v_live v !! n = Some o → o ∈ v_vars v
  | Do o k => allowed blocks v o ∧ ∀ a, answers v o a → polite blocks (view_after v o a) (k a)
  end.

Definition bufs_of (s : pystate) : list RegisteredBuffer := (map_to_list (py_bufs s)).*2.
Record state_ok (v : view) (t : T) (s : pystate) (L0 L : ledger) : Prop := {
  so_vars : py_vars s = v_vars v;
  so_live : source <$> py_bufs s = v_live v;
  so_idle : v_phase v = Idle → v_live v = ∅;
  so_at o p : v_at v !! o = Some p → placed (py_heap s) o p;
  so_tracked : tracked (v_phase v) t (py_heap s) (elements (py_vars s)) (bufs_of s) L0 L;
}.
Abbreviation kept v o L0 r L' := (match r with
  | None => True
  | Some (a, t', s') => state_ok (view_after v o a) t' s' L0 L'
  end).

Lemma with_phase_id v : with_phase (v_phase v) v = v.
Proof. by destruct v. Qed.
Lemma no_buffers v t s L0 L : state_ok v t s L0 L → v_live v = ∅ → py_bufs s = ∅.
Proof. intros Hs Hl. apply (fmap_empty_inv source). by rewrite (so_live _ _ _ _ _ Hs). Qed.
Lemma object_held v t s o L0 L : state_ok v t s L0 L → o ∈ py_vars s → o ∈ elements (py_vars s) ++ sources (bufs_of s).
Proof. intros _ Ho. apply elem_of_app. left. by apply elem_of_elements. Qed.

(** A call on the transport that leaves the objects as they are. *)
Lemma transport_call {A} v t s (op : sysM A) (f : A → view * T) L0 L :
  state_ok v t s L0 L →
  (∀ hs L1, holds (v_phase v) t hs L1 L → hs ≡ₚ handles (bufs_of s) →
     wp ledger_env op (fun a L' => holds (v_phase (f a).1) (f a).2 hs L1 L' ∧ ∃ ph, (f a).1 = with_phase ph v ∧ (ph = Idle → v_live v = ∅)) L) →
  wp ledger_env op (fun a L' => state_ok (f a).1 (f a).2 s L0 L') L.
Proof.
  intros [Hv Hl Hi Ha (Hc & Hf & hs & Hhs & H1)] Hop.
  eapply wp_mono; [|apply (one_op _ _ _ _ _ _ _ _ H1 (fun L1 Ho => Hop hs L1 Ho Hhs))].
  intros a L' (L1 & (Ho & ph & He & Hph) & Hk). rewrite He in *. constructor; [done..|].
  split; [done|]. split; [done|]. exists hs. split; [done|]. by apply Hk.
Qed.
Lemma phase_call v t s ph (op : sysM (Z * T)) L0 L :
  state_ok v t s L0 L → (ph = Idle → v_live v = ∅) →
  (∀ hs L1, (v_phase v = Idle → hs = []) → holds (v_phase v) t hs L1 L → wp ledger_env op (fun '(rc, t') L' =>
     rc = 0 ∧ holds ph t' hs L1 L' ∨ rc = -1 ∧ holds (v_phase v) t' hs L1 L') L) →
  wp ledger_env op (fun '(rc, t') L' =>
    state_ok (if bool_decide (rc = 0) then with_phase ph v else v) t' s L0 L') L.
Proof.
  intros Hs Hph Hop.
  eapply wp_mono; [|apply (transport_call v t s op (fun r => (if bool_decide (r.1 = 0) then with_phase ph v else v, r.2)) L0 L Hs)].
  { by intros [rc t'] L'. }
  intros hs L1 Ho Hhs. eapply wp_mono; [|apply (Hop hs L1); [|done]].
  - intros [rc t'] L' [[-> Ho']|[-> Ho']]; cbn; (split; [done|]).
    + by exists ph.
    + exists (v_phase v). split; [by rewrite with_phase_id|]. apply Hs.
  - intros Hidle. pose proof (no_buffers _ _ _ _ _ Hs (so_idle _ _ _ _ _ Hs Hidle)) as Hb. unfold bufs_of in Hhs.
    rewrite Hb, map_to_list_empty in Hhs. by apply Permutation_nil_r in Hhs.
Qed.
Lemma keeping_call {A} v t s (op : sysM A) L0 L :
  state_ok v t s L0 L →
  (∀ hs L1, holds (v_phase v) t hs L1 L → wp ledger_env op (fun _ L' => holds (v_phase v) t hs L1 L') L) →
  wp ledger_env op (fun _ L' => state_ok v t s L0 L') L.
Proof.
  intros Hs Hop. apply (transport_call v t s op (fun _ => (v, t)) L0 L Hs). intros hs L1 Ho _.
  eapply wp_mono; [|by apply Hop]. intros a L' Ho'. split; [done|]. exists (v_phase v). split; [by rewrite with_phase_id|]. apply Hs.
Qed.
Lemma buffer_call {A} v t s n (f : RegisteredBuffer → sysM (option A)) L0 L :
  state_ok v t s L0 L →
  (∀ rb hs L1, holds (v_phase v) t hs L1 L → wp ledger_env (f rb) (fun _ L' => holds (v_phase v) t hs L1 L') L) →
  wp ledger_env (on_buffer s n t f) (fun r L' => match r with
    | None => True | Some (_, t', s') => state_ok v t' s' L0 L' end) L.
Proof.
  intros Hs Hf. unfold on_buffer. destruct (py_bufs s !! n) as [rb|]; [|done].
  eapply wp_bind_2; [apply (keeping_call v t s); [done|]; intros hs L1; apply Hf|]. by intros r L'.
Qed.

(** A new buffer, named. *)
Lemma named_ok v t s t' h' r obj L0 L :
  state_ok v t s L0 L → v_phase v ≠ Idle → moved (py_heap s) h' →
  ∀ L', match r with
  | Some rb => source rb = obj ∧ tracked (v_phase v) t' h' (elements (py_vars s)) (rb :: bufs_of s) L0 L'
  | None => tracked (v_phase v) t' h' (elements (py_vars s)) (bufs_of s) L0 L'
  end →
  match named s (r, t', h') with
  | None => True
  | Some (a, t2, s2) => state_ok (match a with Some n => with_live (<[n := obj]> (v_live v)) v | None => v end) t2 s2 L0 L'
  end.
Proof.
  intros [Hv Hl Hi Ha _] Hph Hm L' Hr. destruct r as [rb|]; cbn.
  - destruct Hr as [Hsrc Hr]. set (n := base.fresh _). assert (Hn : py_bufs s !! n = None) by apply (not_elem_of_dom (py_bufs s)), is_fresh.
    constructor; cbn; [done| |done|by intros o p Hp; apply Hm, Ha|].
    + by rewrite fmap_insert, Hl, Hsrc.
    + eapply tracked_perm; [reflexivity| |exact Hr]. unfold bufs_of. cbn. by rewrite map_to_list_insert.
  - constructor; [done|done|done|by intros o p Hp; apply Hm, Ha|done].
Qed.
Lemma reg_ok v t s obj buf sz L0 L :
  state_ok v t s L0 L → v_phase v ≠ Idle → obj ∈ py_vars s → placed (py_heap s) obj buf →
  wp ledger_env (rb_init t (py_heap s) buf sz obj) (fun '(r, t', h') L' =>
    moved (py_heap s) h' ∧ match r with
    | Some rb => source rb = obj ∧ tracked (v_phase v) t' h' (elements (py_vars s)) (rb :: bufs_of s) L0 L'
    | None => tracked (v_phase v) t' h' (elements (py_vars s)) (bufs_of s) L0 L'
    end) L.
Proof.
  intros Hs Hph Ho Hp. apply rb_init_tracked; [done| |done|by apply Hs]. by eapply object_held.
Qed.
(** A view around a registration, which has a reference of its own. *)
Lemma reg_buf_ok v t s obj L0 L :
  state_ok v t s L0 L → v_phase v ≠ Idle → obj ∈ py_vars s →
  wp ledger_env (py_reg_buf t (py_heap s) obj) (fun '(r, t', h') L' =>
    moved (py_heap s) h' ∧ match r with
    | Some rb => source rb = obj ∧ tracked (v_phase v) t' h' (elements (py_vars s)) (rb :: bufs_of s) L0 L'
    | None => tracked (v_phase v) t' h' (elements (py_vars s)) (bufs_of s) L0 L'
    end) L.
Proof.
  intros Hs Hph Ho. pose proof (so_tracked _ _ _ _ _ Hs) as Ht. pose proof (object_held _ _ _ _ _ _ Hs Ho) as Hheld.
  unfold py_reg_buf, request. assert (Hnone : moved (py_heap s) (py_heap s)) by by intros ?.
  destruct (py_heap s !! obj) as [b|] eqn:Hb; [|done]. destruct (o_writable b); [|done].
  pose proof (incref_counted _ _ obj (proj1 Ht) Hheld) as (_ & _ & Hm1).
  eapply wp_bind_2; [apply (rb_init_tracked (v_phase v) t _ (obj :: elements (py_vars s)) (bufs_of s)); [done|by left| |]|].
  - apply Hm1. by exists b.
  - by apply tracked_incref.
  - intros [[r t'] h'] L' [Hm2 Hr]. unfold release_view.
    eapply wp_bind_2; [instantiate (1 := fun h2 L2 => moved h' h2 ∧ match r with
      | Some rb => source rb = obj ∧ tracked (v_phase v) t' h2 (elements (py_vars s)) (rb :: bufs_of s) L0 L2
      | None => tracked (v_phase v) t' h2 (elements (py_vars s)) (bufs_of s) L0 L2 end)|].
    + destruct r as [rb|]; [|by apply tracked_decref]. destruct Hr as [Hsrc Hr].
      eapply wp_mono; [|by apply tracked_decref]. by intros h2 L2 [? ?].
    + cbn beta. intros h2 L2 [Hm3 Hr2]. cbn. split; [intros o p Hp; by apply Hm3, Hm2, Hm1|done].
Qed.
Lemma drop_ok v t s n L0 L :
  state_ok v t s L0 L → (∀ o, v_live v !! n = Some o → referred v n o) →
  wp ledger_env (py_call pf t s (p_drop n)) (fun r L' => kept v (p_drop n) L0 r L') L.
Proof.
  intros Hs Ha. pose proof Hs as [Hv Hl Hi Hat Ht]. cbn [py_call]. destruct (py_bufs s !! n) as [rb|] eqn:Hn.
  - assert (Hsrc : v_live v !! n = Some (source rb)) by (by rewrite <- Hl, lookup_fmap, Hn).
    assert (Hph : v_phase v ≠ Idle) by (intros Hid; by rewrite (Hi Hid), lookup_empty in Hsrc).
    set (rest := (map_to_list (delete n (py_bufs s))).*2).
    assert (Hp : bufs_of s ≡ₚ rb :: rest) by (unfold bufs_of, rest; by rewrite <- (map_to_list_delete (py_bufs s) n rb Hn)).
    eapply wp_bind_2; [apply (rb_end_tracked (v_phase v) t _ (elements (py_vars s)) rb rest L0)|].
    + done.
    + apply elem_of_app. destruct (Ha _ Hsrc) as [Ho|(n' & Hne & Ho)]; [left; by rewrite Hv, elem_of_elements|right].
      rewrite <- Hl, lookup_fmap in Ho. destruct (py_bufs s !! n') as [rb'|] eqn:Hn'; [|done]. injection Ho as Ho. rewrite <- Ho.
      apply list_elem_of_fmap_2. unfold rest. apply (list_elem_of_fmap_2' snd _ (n', rb')); [|done].
      apply elem_of_map_to_list. by rewrite lookup_delete_ne.
    + by eapply tracked_perm; [reflexivity|exact Hp|].
    + intros [t' h'] L' [Hm Ht']. cbn. constructor; cbn; [done| | |by intros o p Hpl; apply Hm, Hat|done].
      * by rewrite fmap_delete, Hl.
      * intros Hid. done.
  - cbn. assert (Hnone : v_live v !! n = None) by (by rewrite <- Hl, lookup_fmap, Hn).
    assert (with_live (delete n (v_live v)) v = v) as -> by (unfold with_live; rewrite delete_id by done; by destruct v). done.
Qed.
(** The program's own references. *)
Lemma new_ok v t s items item w L0 L :
  state_ok v t s L0 L → wp ledger_env (py_call pf t s (p_new items item w)) (fun r L' => kept v (p_new items item w) L0 r L') L.
Proof.
  intros [Hv Hl Hi Hat Ht]. cbn [py_call]. eapply wp_bind_2; [by apply tracked_new|].
  intros [[[o p]|] h'] L' [Hm Hr]; cbn.
  - destruct Hr as (Hno & Hpl & Hr). constructor; cbn; [by rewrite Hv|done|done| |].
    + intros o' p'. destruct (decide (o' = o)) as [->|Hne]; [rewrite lookup_insert_eq; by intros [= <-]|].
      rewrite lookup_insert_ne by done. intros Hp. by apply Hm, Hat.
    + eapply tracked_perm; [|reflexivity|exact Hr]. rewrite elements_union_singleton; [done|].
      intros Ho. destruct (ct_there _ _ (proj1 Ht) o) as [b Hb]; [|congruence].
      apply elem_of_app. left. by apply elem_of_elements.
  - constructor; [done|done|done|by intros o p Hp; apply Hm, Hat|done].
Qed.
Lemma del_ok v t s o L0 L :
  state_ok v t s L0 L → wp ledger_env (py_call pf t s (p_del o)) (fun r L' => kept v (p_del o) L0 r L') L.
Proof.
  intros Hs. pose proof Hs as [Hv Hl Hi Hat Ht]. cbn [py_call]. case_bool_decide as Ho.
  - eapply wp_bind_2; [apply (tracked_decref (v_phase v) t _ o (elements (py_vars s ∖ {[o]})) (bufs_of s) L0)|].
    + eapply tracked_perm; [|reflexivity|exact Ht]. rewrite <- elements_union_singleton by (rewrite not_elem_of_difference, elem_of_singleton; by right).
      by rewrite <- union_difference_singleton_L.
    + cbn beta. intros h' L' [Hm Ht']. cbn. constructor; cbn; [by rewrite Hv|done|done|by intros o' p Hp; apply Hm, Hat|done].
  - cbn. assert (Hd : v_vars v ∖ {[o]} = v_vars v) by (rewrite <- Hv; by apply difference_disjoint_L, disjoint_singleton_r).
    unfold with_vars. rewrite Hd. by destruct v.
Qed.
Lemma weak_ok v t s o L0 L :
  state_ok v t s L0 L → wp ledger_env (py_call pf t s (p_weak o)) (fun r L' => kept v (p_weak o) L0 r L') L.
Proof.
  intros Hs. pose proof Hs as [Hv Hl Hi Hat Ht]. cbn [py_call]. case_bool_decide as Ho.
  - cbn. assert (Hd : {[o]} ∪ v_vars v = v_vars v) by (rewrite <- Hv; by apply subseteq_union_1_L, singleton_subseteq_l).
    unfold with_vars. rewrite Hd. by destruct v.
  - destruct (alive (py_heap s) o) eqn:Hal; [|done]. cbn. unfold alive in Hal.
    destruct (py_heap s !! o) as [b|] eqn:Hb; [|done]. apply bool_decide_eq_true in Hal.
    rewrite (ct_refs _ _ (proj1 Ht) o b Hb) in Hal. apply count_pos in Hal.
    pose proof (incref_counted _ _ o (proj1 Ht) Hal) as (_ & _ & Hm).
    constructor; cbn; [by rewrite Hv|done|done|by intros o' p Hp; apply Hm, Hat|].
    eapply tracked_perm; [|reflexivity|by apply tracked_incref]. by rewrite elements_union_singleton.
Qed.

Lemma call_ok v t s o L0 L :
  allowed (t_recv_blocks t) v o → state_ok v t s L0 L →
  wp ledger_env (py_call pf t s o) (fun r L' => kept v o L0 r L') L.
Proof.
  intros Ha Hs. destruct o; cbn [allowed view_after] in *.
  - by apply new_ok.
  - by apply del_ok.
  - by apply weak_ok.
  - eapply wp_bind_2; [apply (phase_call v t s Listening); [done..|]|by intros [rc t']].
    rewrite Ha. intros hs L1 Hhs. rewrite Hhs by done. apply law_listen.
  - eapply wp_bind_2; [apply (phase_call v t s Connected); [done..|]|by intros [rc t']].
    rewrite Ha. intros hs L1 _. apply law_accept.
  - eapply wp_bind_2; [apply (phase_call v t s Connected); [done..|]|by intros [rc t']].
    rewrite Ha. intros hs L1 Hhs. rewrite Hhs by done. apply law_connect.
  - pose proof (no_buffers _ _ _ _ _ Hs Ha) as Hb.
    eapply wp_bind_2; [apply (transport_call v t s (t_close t) (fun t' => (with_phase Idle v, t'))); [done|]|by intros t' L'].
    intros hs L1 Ho Hhs. unfold bufs_of in Hhs. rewrite Hb, map_to_list_empty in Hhs. apply Permutation_nil_r in Hhs as ->.
    eapply wp_mono; [|by apply (law_close (v_phase v))]. intros t' L' [_ Ho']. split; [done|]. by exists Idle.
  - cbn [py_call]. unfold on_object. case_bool_decide as Ho; [|done].
    eapply wp_bind_2; [by apply reg_buf_ok|]. intros [[r t'] h'] L' [Hm Hr]. cbn [wp]. by eapply named_ok.
  - destruct Ha as [Hph Hat]. cbn [py_call]. unfold on_object. case_bool_decide as Ho; [|done].
    eapply wp_bind_2; [apply (reg_ok v t s obj a nbytes L0); [done..|by apply Hs]|].
    intros [[r t'] h'] L' [Hm Hr]. cbn [wp]. by eapply named_ok.
  - apply buffer_call; [done|]. intros rb hs L1. rewrite Ha. intros Ho. unfold py_send. eapply wp_bind_2; [by apply law_send|]. done.
  - apply buffer_call; [done|]. intros rb hs L1 Ho. unfold py_recv. eapply wp_bind_2; [by apply law_recv|]. done.
  - cbn [py_call]. unfold py_poll. apply wp_bind. eapply wp_bind_2; [apply (keeping_call v t s); [done|]; rewrite Ha; intros hs L1; apply law_poll|].
    cbn beta. by intros [[rc id]|] L' Ho'.
  - cbn [py_call]. destruct (py_bufs s !! mr) as [rb|]; [|done]. unfold py_exchange. apply wp_bind.
    eapply wp_bind_2; [apply (transport_call v t s _ (fun r => (v, r.2))); [done|]|].
    + intros hs L1 Ho _. rewrite Ha in *. eapply wp_mono; [|by apply law_exchange].
      intros [[[rc a] k] t'] L' Ho'. cbn. rewrite Ha. split; [done|]. exists (v_phase v). split; [by rewrite with_phase_id|]. apply Hs.
    + by intros [[[rc a] k] t'] L' Hs'.
  - apply buffer_call; [done|]. intros rb hs L1. rewrite Ha. intros Ho. unfold py_write. eapply wp_bind_2; [by apply law_write|]. done.
  - apply buffer_call; [done|]. intros rb hs L1. rewrite Ha. intros Ho. unfold py_read. eapply wp_bind_2; [by apply law_read|]. done.
  - by apply drop_ok.
Qed.
Lemma call_answers v t s o L0 L :
  state_ok v t s L0 L →
  wp ledger_env (py_call pf t s o) (fun r _ => match r with None => True | Some (a, _, _) => answers v o a end) L.
Proof.
  intros Hs. destruct o as [| |o| | | | | | | | | | | | |];
    try (eapply wp_mono; [|apply wp_true]; by intros [[[? ?] ?]|] ? _).
  pose proof Hs as [Hv Hl _ _ (Hc & _)]. cbn [py_call]. case_bool_decide as Ho; [done|].
  destruct (alive (py_heap s) o) eqn:Hal; cbn; [done|]. intros _. split; [by rewrite <- Hv|]. intros n Hn.
  rewrite <- Hl, lookup_fmap in Hn. destruct (py_bufs s !! n) as [rb|] eqn:Hrb; [|done]. injection Hn as Hn.
  assert (Hin : o ∈ elements (py_vars s) ++ sources (bufs_of s)).
  { apply elem_of_app. right. rewrite <- Hn. apply list_elem_of_fmap_2. unfold bufs_of.
    apply (list_elem_of_fmap_2' snd _ (n, rb)); [by apply elem_of_map_to_list|done]. }
  destruct (ct_there _ _ Hc o Hin) as [b Hb]. unfold alive in Hal. rewrite Hb in Hal. apply bool_decide_eq_false in Hal.
  apply Hal. rewrite (ct_refs _ _ Hc o b Hb). by apply count_pos.
Qed.

(** * Whole programs *)

Lemma py_run_ok {A} (p : pyM A) v t s L0 L :
  polite (t_recv_blocks t) v p → state_ok v t s L0 L →
  wp ledger_env (py_run pf t s p) (fun r L' => match r with
    | None => True
    | Some (_, t', s') => ∃ v', state_ok v' t' s' L0 L' ∧ ∀ n o, v_live v' !! n = Some o → o ∈ v_vars v' end) L.
Proof.
  revert v t s L. induction p as [a|o k IH]; intros v t s L Hp Hs; [by exists v|].
  destruct Hp as [Ha Hk]. cbn [py_run]. eapply wp_bind_2; [apply wp_and; [by apply (call_ok v)|by apply (call_answers v _ _ _ L0)]|].
  intros [[[a t'] s']|] L' [Hs' Hans]; [|done]. eapply IH; [|exact Hs']. rewrite (law_blocks t' t). by apply Hk.
Qed.
Lemma py_end_tracked ph t h vars rbs L0 L :
  (rbs ≠ [] → ph ≠ Idle) → Forall (fun rb => source rb ∈ vars) rbs → tracked ph t h vars rbs L0 L →
  wp ledger_env (py_end t h rbs) (fun '(t', h') L' => tracked ph t' h' vars [] L0 L') L.
Proof.
  revert t h L. induction rbs as [|rb rbs IH]; intros t h L Hph Hv Ht; cbn [py_end]; [done|].
  apply Forall_cons in Hv as [Hrb Hv].
  eapply wp_bind_2; [apply (rb_end_tracked ph t h vars rb rbs L0); [by apply Hph|by apply elem_of_app; left|done]|].
  intros [t' h'] L' [_ Ht']. apply IH; [intros _; by apply Hph|done|done].
Qed.
Lemma drop_vars_tracked ph t h vars L0 L :
  tracked ph t h vars [] L0 L → wp ledger_env (drop_vars h vars) (fun h' L' => tracked ph t h' [] [] L0 L') L.
Proof.
  revert h L. induction vars as [|o vars IH]; intros h L Ht; cbn [drop_vars]; [done|].
  eapply wp_bind_2; [by apply tracked_decref|]. cbn beta. intros h' L' [_ Ht']. by apply IH.
Qed.
(** Without references nothing of Python's is left. *)
Lemma tracked_close ph t h L0 L : tracked ph t h [] [] L0 L → wp ledger_env (t_close t) (fun _ L' => L' ≡ₚ L0) L.
Proof.
  intros (Hc & _ & hs & Hhs & H1). apply Permutation_nil_r in Hhs as ->. apply (one_close ph).
  rewrite (owned_none h) in H1; [done|]. intros o b Hb. by rewrite (ct_refs _ _ Hc o b Hb).
Qed.
Lemma start_ok t L : t_owns Idle t [] [] → state_ok view0 t py_start L L.
Proof.
  intros Ht. constructor; cbn; [done|by rewrite fmap_empty|done|by intros ? ? ?|]. split; [|split].
  - constructor; cbn; [by intros ? ? ?..|]. intros o Ho. unfold bufs_of in Ho. cbn in Ho. rewrite elements_empty, map_to_list_empty in Ho.
    by apply not_elem_of_nil in Ho.
  - unfold bufs_of. cbn. by rewrite map_to_list_empty.
  - exists []. split; [unfold bufs_of; cbn; by rewrite map_to_list_empty|]. unfold owned. cbn. rewrite map_to_list_empty. by apply one_start.
Qed.
Lemma py_main_tidy {A} (p : pyM A) t L :
  t_owns Idle t [] [] → polite (t_recv_blocks t) view0 p →
  wp ledger_env (py_main pf t p) (fun r L' => r ≠ None → L' ≡ₚ L) L.
Proof.
  intros Ht Hp. unfold py_main. eapply wp_bind_2; [apply (py_run_ok p view0 t py_start L); [done|by apply start_ok]|].
  intros [[[a t'] s]|] L' Hs; [|by intros Hn]. destruct Hs as (v & Hs & Hend). pose proof Hs as [Hv Hl Hi _ Htr].
  eapply wp_bind_2; [apply (py_end_tracked (v_phase v) t' _ (elements (py_vars s)) (bufs_of s) L); [| |done]|].
  - intros Hne Hid. apply Hne. unfold bufs_of. rewrite (no_buffers _ _ _ _ _ Hs (Hi Hid)). by rewrite map_to_list_empty.
  - unfold bufs_of. apply Forall_fmap, Forall_forall. intros [n rb] Hin%elem_of_map_to_list. cbn.
    apply elem_of_elements. rewrite Hv. apply (Hend n). by rewrite <- Hl, lookup_fmap, Hin.
  - intros [t2 h2] L2 Ht2. eapply wp_bind_2; [by apply drop_vars_tracked|]. cbn beta. intros h3 L3 Ht3.
    eapply wp_bind_2; [by eapply tracked_close|]. cbn beta. by intros t4 L4 HL _.
Qed.
End objects.

(** * What the module lets happen *)

(** The region behind a registered buffer. *)
Lemma rdma_region ph t h hs L0 L : RdmaSpec.holds ph t (h :: hs) L0 L →
  ∃ m, mkRes (RMr, m) [(RPd, qp_pd (Rdma.qp_ t)); (RMem, addr h)] ∈ L.
Proof.
  intros (l & ((c1 & c2 & ->) & _ & Hok & _) & HL & _). apply Forall_cons in Hok as [(_ & r & Hr) _].
  exists (ibv_mr_h r). rewrite HL. unfold RdmaSpec.regs. cbn [fmap list_fmap concat]. unfold RdmaSpec.handle_res at 1.
  rewrite Hr. cbn. by left.
Qed.
(** A registered buffer that holds the last reference to its object: the memory
    is freed while the region still refers to it. *)
Lemma last_reference_misused ph t (h : heap) rb b hs L0 L :
  RdmaSpec.holds ph t (rb_h rb :: hs) L0 L →
  h !! source rb = Some b → o_ptr b = rb_addr rb → o_refs b = 1%nat →
  wp ledger_env (rb_end t h rb) (fun _ L' => misuse ∈ L') L.
Proof.
  intros (m & Hm)%rdma_region Hb Hp Hr. unfold rb_end, decref. rewrite Hb, Hr, Hp. do 2 apply misuse_bind.
  apply (wp_release_used _ (RMem, rb_addr rb) (c_free (rb_addr rb)) L eq_refl Hm). split; [done|right; left].
Qed.
(** [close] with a buffer registered: the domain goes before its region. *)
Definition no_dereg (o : op sys_sig) : Prop := match (o : sys_op) with v_dereg_mr _ => False | _ => True end.
Lemma close_registered_misused pf t h hs (s : pystate) L0 L :
  RdmaSpec.holds Connected t (h :: hs) L0 L →
  wp ledger_env (py_call pf t s p_close) (fun _ L' => misuse ∈ L') L.
Proof.
  intros Ht. destruct (rdma_region _ _ _ _ _ _ Ht) as (r & Hr).
  destruct Ht as (l & (_ & _ & _ & (Hmode & _ & _ & Hpd & _) & _) & _).
  assert (Hstay : ∀ A (p : sysM A) L', only no_dereg p → mkRes (RMr, r) [(RPd, qp_pd (Rdma.qp_ t)); (RMem, addr h)] ∈ L' →
    wp ledger_env p (fun _ L2 => mkRes (RMr, r) [(RPd, qp_pd (Rdma.qp_ t)); (RMem, addr h)] ∈ L2) L').
  { intros A p L'. apply wp_stays; [done|]. by intros []. }
  cbn [py_call t_close rdma_transport]. unfold Rdma.close, rai_qp_destroy. rewrite Hmode. unfold qp_destroy_cm.
  do 3 apply misuse_bind.
  eapply wp_bind_2; [apply Hstay; [|exact Hr]; unfold destroy; only_tac|]. cbn beta. intros _ L1 H1.
  eapply wp_bind_2; [apply Hstay; [|exact H1]; unfold destroy; only_tac|]. cbn beta. intros _ L2 H2.
  apply misuse_bind. unfold destroy. rewrite bool_decide_eq_true_2 by done. apply misuse_bind.
  apply (wp_release_used _ (RPd, qp_pd (Rdma.qp_ t)) (v_dealloc_pd (qp_pd (Rdma.qp_ t))) L2 eq_refl H2). split; [done|left].
Qed.

#[local] Existing Instances tcp_transport TcpSpec.tcp_laws rdma_transport RdmaSpec.rdma_laws.

(** C40. Python programs on a transport give everything back, whatever backend
    keeps the transport laws. The programs are trees of calls: they make objects,
    drop their own references at any time, also while the memory is registered,
    and get one back from a weak reference; they connect once, close when no
    buffer is left, move data in between, register an address as part of the
    object that is there, and drop a buffer, or end with it, only when the
    buffer's reference to its object is not the last (dropping it as the last is
    the misuse of [last_reference_misused]). They may rely on an object with a
    registered buffer being there: the buffer refers to it. Then however the
    calls fail, each failure being an exception the program may catch and go on
    after, no memory is freed while it is registered or freed twice, and at the
    end, with what is left dropped (buffers, then objects, then the transport),
    every resource is given back: regions, connection and Python's memory. *)
Theorem python_no_leak {T : Type} `{TransportLaws T} (pf : nat) {A} (p : pyM A) (t : T) (L : ledger) :
  t_owns Idle t [] [] → polite (t_recv_blocks t) view0 p →
  wp ledger_env (py_main pf t p) (fun r L' => r ≠ None → L' ≡ₚ L) L.
Proof. apply py_main_tidy. Qed.

(** A client that lets the buffer keep its memory: it drops its own reference
    while the memory is registered, and gets it back to drop the buffer. *)
Definition with_buffer (items : Z) (f : Z → Z → pyM unit) : pyM unit :=
  r <- call (p_new items 1 true : op py_sig) ;;
  match (r : option (Z * Z)) with
  | None => Ret tt
  | Some (obj, _) =>
      mr <- call (p_reg_buf obj : op py_sig) ;;
      match (mr : option Z) with None => Ret tt | Some mr => f obj mr end
  end.
Definition client_py : pyM unit :=
  rc <- call (p_connect (Some "127.0.0.1"%string) 12345 : op py_sig) ;;
  if bool_decide ((rc : Z) ≠ 0) then Ret tt else
  with_buffer 4096 (fun obj mr =>
    call (p_del obj : op py_sig) ;;
    call (p_send mr 4096 0 0 : op py_sig) ;; call (p_poll : op py_sig) ;;
    call (p_recv mr 4096 0 0 : op py_sig) ;; call (p_poll : op py_sig) ;;
    call (p_weak obj : op py_sig) ;;
    call (p_drop mr : op py_sig) ;; Ret tt).
Lemma client_polite blocks : polite blocks view0 client_py.
Proof.
  split; [done|]. intros rc _. cbn. case_bool_decide as Hrc.
  { rewrite bool_decide_eq_false_2 by (intros Hn; by apply Hn). split; [done|]. intros [[obj p]|] _; [|done].
    split; [done|]. intros [mr|] _; [|done]. cbn.
    split; [done|]. intros _ _. split; [done|]. intros _ _. split; [done|]. intros _ _.
    split; [by left|]. intros _ _. split; [done|]. intros _ _. split; [done|]. intros [|] Hal; cbn in *.
    - split; [|intros _ _ n o; cbn; by rewrite delete_insert_id, lookup_empty by apply lookup_empty].
      intros o. rewrite lookup_insert_eq. intros [= <-]. left. by apply elem_of_union; left; apply elem_of_singleton.
    - exfalso. destruct (Hal eq_refl) as [_ Hno]. apply (Hno mr). by rewrite lookup_insert_eq. }
  by rewrite bool_decide_eq_true_2.
Qed.
Lemma python_no_leak_witness :
  wp ledger_env (py_main 10 create_tcp client_py) (fun r L' => r ≠ None → L' ≡ₚ []) [] ∧
  wp ledger_env (py_main 10 create_rdma client_py) (fun r L' => r ≠ None → L' ≡ₚ []) [].
Proof.
  split; [apply (python_no_leak 10 client_py create_tcp [] tcp_created)|
          apply (python_no_leak 10 client_py create_rdma [] rdma_created)]; apply client_polite.
Defined.
